(* ===== verification/_CoqProject ===== *)
-Q . S2P
Prelude.v
GoErrors.v
ApiTypes.v
DeepCopy.v
ProtoTypes.v
ProtoDesc.v
CosiDesc.v
JsonText.v
ProtoJson.v
CosiJson.v
ProtoWire.v
CosiRaw.v
Grpc.v
CosiGrpc.v
Effects.v
ApiServer.v
History.v
Honest.v
Protocol.v
Translator.v
Ownership.v
Predicates.v
Driver.v
Rpc.v
ClaimController.v
Admission.v
Startup.v
FakeGen.v
CosiFake.v
AccessController.v
SidecarBucket.v
SidecarAccess.v
RemoteDriver.v
Scheme.v
Handoff.v
Scenarios.v
Cluster.v
ClusterSafety.v
Registry.v
Bounds.v
Progress.v
Existing.v
Granting.v
Cleanup.v
AccessAdmission.v
