(* ===== verification/Prelude.v ===== *)
(** * COSI: a verification library

    This library models the Container Object Storage Interface (COSI) controllers and
    proves what makes them correct. This file is its root: the description below, then the
    prelude of notations, small Go built-ins, tactics and lemmas that all files share.

    ** The program

    COSI provisions object storage buckets for Kubernetes. A user creates a BucketClaim and
    a BucketAccess; an administrator creates BucketClasses, BucketAccessClasses and, for
    storage that exists already, Buckets. Two processes act on these resources:

    - the Controller ([src/controller]), one per cluster, binds a BucketClaim to a Bucket,
      creating the Bucket for dynamic provisioning, deletes it by its policy, and
      initialises a BucketAccess from its class and the claims it refers to;
    - a Sidecar ([src/sidecar]) per storage driver talks to the driver over gRPC: it
      provisions the backend bucket of a Bucket, grants a BucketAccess, writes the
      credentials into Secrets, and revokes and cleans up on deletion.

    They share no memory. They interact through the API server: through the spec, status,
    finalizers and annotations of the resources, and the events that the filters let
    through. A BucketAccess is handed from the Controller to the Sidecar when its status
    records a driver, and back when the Sidecar sets the cleanup annotation.

    ** The model

    A reconciler is Go code between calls to its environment: the API server, the driver,
    the clock and the order in which Go iterates over a map. [Effects.prog] is that code as
    a finite tree with one node per call. Loops run over finite lists or maps, so every
    program is total and no fuel is needed; [Effects.exec p tr a] says that [p] makes the
    calls of the trace [tr] with the answers recorded there and returns [a]. Theorems about
    reconcilers quantify over all traces, with any answer of the right type to every call:
    errors, conflicts, stale reads, changes by others between two calls, and drivers that
    answer wrongly. They speak of the calls made before a given call ([nth_call], [take n
    tr]), or of the result. [ApiServer] is one concrete environment, an in-memory API
    server with an example driver; it serves to evaluate the models.

    [Cluster.step] puts the parts together: any number of reconciles run at the same time,
    several Controllers and Sidecars among them, each advancing one call at a time; users
    and administrators act between any two calls. The API server is that of [ApiServer]:
    an update needs the current resource version and a status update writes only the
    status. A read may return any version that was ever stored, a call may fail, and an
    answer may be lost although the write took place. [Cluster.reachable] is the set of
    states reached from a server without claims, Buckets, accesses and Secrets.

    Objects are values. Where the Go code changes an object through a pointer and the
    caller uses it afterwards, the model returns it: [reconcile] returns the object with
    the error, because [Reconcile] then records the error in its status, and the loop that
    fills the Secrets threads the map of Secret pointers. A write answers with the object
    as stored, which the client decodes into the caller's object; a failed write leaves it
    as it was. [DeepCopy] justifies this for the types of the API: on a heap with pointers,
    maps and slices, a deep copy is equal to its original and independent of it.

    ** Files

    - [Prelude]: this file.
    - [GoErrors]: error trees, [errors.Is], [errors.As], [errors.Join], the non-retryable
      errors of [src/internal/errors/errors.go], and the API and gRPC status errors.
    - [ApiTypes]: [src/client/apis/objectstorage/v1alpha2], with the class [ClientObject]
      of objects with metadata, finalizers and annotations.
    - [DeepCopy]: [zz_generated.deepcopy.go] of the same package, on a heap.
    - [ProtoTypes]: the messages of [src/proto/cosi.pb.go].
    - [ProtoDesc]: descriptors of messages, fields and enums, and messages as tuples of fields
      with the bytes of their unknown fields.
    - [CosiDesc]: the class [ProtoMessage] of messages with a descriptor, with its laws, and an
      instance for each of the 27 messages of [src/proto/cosi.proto].
    - [JsonText]: the encoder and the decoder of JSON text in the vendored
      [internal/encoding/json]. The reader has twice the length of the text and two as fuel,
      and [json_read_ends] shows that it is enough.
    - [ProtoJson]: the JSON codec of the vendored [protojson], driven by descriptors.
    - [CosiJson]: [src/proto/cosi.pb.json.go], the JSON methods of the 27 messages.
    - [ProtoWire]: the binary codec of the vendored [protowire] and [internal/impl], driven by
      the same descriptors. The loops over input bytes have the length of the input as fuel,
      and [parse_records_fueled] shows that it is enough.
    - [CosiRaw]: the raw descriptor in [src/proto/cosi.pb.go], decoded by that codec.
    - [Grpc]: what a unary call uses of the vendored gRPC library: codec, registration and
      dispatch, statuses with the encoding of their messages in headers, size limits and the
      client.
    - [CosiGrpc]: [src/proto/cosi_grpc.pb.go], the generated clients, servers and handlers.
    - [Effects]: requests, programs, traces, and the weakest-precondition logic.
    - [ApiServer]: the in-memory API server, the example driver and installation.
    - [History]: the versions that a store of the API server goes through.
    - [Honest]: the logic of programs on that server when it answers honestly, and plans of
      turns of the Controller and the Sidecar.
    - [Protocol]: [src/internal/protocol]; the interface [RpcApiTranslator], its six
      implementations, and the class [TranslatorLaws] that states what a translator
      promises to its client, with an instance for each of the six.
    - [Translator]: [src/sidecar/internal/translator/translator.go], proved against the
      laws of the translators.
    - [Ownership]: [src/internal/bucketaccess/bucketaccess.go], who manages a BucketAccess.
    - [Predicates]: [src/internal/predicate/predicate.go] and the filters that the
      reconcilers install in [SetupWithManager].
    - [Driver]: [src/sidecar/pkg/reconciler/driver.go], driver info and the error scheme.
    - [Rpc]: [src/sidecar/cmd/rpc.go], the connection to the driver, with the calls it makes;
      what the gRPC library answers is a parameter.
    - [ClaimController], [AccessController]: [src/controller/pkg/reconciler/bucketclaim.go]
      and [bucketaccess.go].
    - [Admission]: the validation markers of the API types as boolean functions.
    - [Startup]: [src/controller/cmd/main.go] and [src/sidecar/cmd/main.go], with Go's
      command-line flags; the libraries they call are a parameter.
    - [FakeGen]: [src/proto/hack/fake-gen/main.go], the generator of the fake clients; what it
      generates is a sequence of [jennifer] calls, whose printing is a parameter.
    - [CosiFake]: [src/proto/fake/cosi.pb.fake.go], the generated fakes.
    - [SidecarBucket], [SidecarAccess]: [src/sidecar/pkg/reconciler/bucket.go] and
      [bucketaccess.go]; the Controller's empty Bucket reconciler is in the former.
    - [RemoteDriver]: programs run with a driver in another process, behind [CosiGrpc].
    - [Scheme]: [groupversion_info.go], the [init] functions of the API types and of both
      commands, and what the reconcilers use of the scheme.
    - [Handoff]: the interaction of the two BucketAccess reconcilers.
    - [Scenarios]: the reconcilers run together on the in-memory API server.
    - [Cluster]: the step relation, the orders in which objects evolve, and the invariant.
    - [ClusterSafety]: what the invariant means for claims, accesses and Secrets, and a
      scheduler that evaluates interleavings.
    - [Registry]: the abstract registry of Bucket owners that the cluster refines.
    - [Bounds]: a logic of budgets, and how many calls a reconcile makes.
    - [Progress], [Existing], [Granting], [Cleanup]: the stages of provisioning, of adopting an
      existing bucket, of granting an access and of deleting one, on the honest server.
    - [AccessAdmission]: the transition rules of [Admission] against what the two BucketAccess
      reconcilers write.

    Definitions keep the names of the Go functions. Where a Go function is long, its parts
    are definitions of their own, named in the file and composed by the definition that has
    the function's name.

    ** What is proved

    - The cluster (C1 to C5): in every reachable state a Bucket serves one claim, the name
      a claim is bound to and the initialisation of an access are permanent, and a Secret
      that an access does not control is left alone; seen from the owners of Buckets, the
      cluster refines a registry in which an owner is set once and never changed.
    - The remote driver (C6, C28, C29): encoding, dispatch and decoding between the Sidecar and
      its driver change nothing, so what is proved of a driver that is called directly holds
      of one behind gRPC, as long as its messages can be encoded and its error texts are valid
      UTF-8 (others arrive repaired); each call reaches its method once, or fails with a status;
      and the binary encoding round trips, with the fields that the receiver does not know.
    - Progress (C7 to C10): with an API server and a driver that answer honestly, a claim for a
      new bucket becomes ready once the Controller, the Sidecar and the Controller reconcile,
      and one for an existing bucket once the Sidecar and the Controller do; an access to ready
      claims is granted, with every Secret filled, once the Controller and the Sidecar
      reconcile; and a deleted access is gone, with its Secrets and its marks, once the Sidecar
      and the Controller reconcile. Each holds from the states that an interrupted attempt
      leaves and with any turns before, between and after.
    - Claims (C11, C12, C22): a Bucket is created only for a claim that was never bound,
      written only by the claim it belongs to, and deleted only by policy; every error is
      recorded and classified, and success means what it says.
    - Secrets and grants (C13 to C17): the Sidecar never touches a Secret that the access
      does not control, calls the driver only when everything is in place, reports an
      access as ready only when it was granted with all the Secrets of its configuration
      stored, and revokes and hands back in the right order.
    - Initialisation of accesses (C18, C19, C21): an access is initialised only from a class
      and claims that allow it, and claims are marked before and unmarked only when no
      other access refers to them.
    - Finalizers (C20): those of claims and accesses are there before anything else is done
      and go only when that is safe.
    - Provisioning (C23, C24): a Bucket is ready only with what the driver returned.
    - Hand-over (C25, C26): at any time one of the two components manages an access and
      the other leaves it alone; a change of manager reaches the new manager's filter. C26
      shows an event that is lost.
    - Start (C27, C33, C34): exactly when the Sidecar connects and which driver info it
      accepts, the order of the calls of both [main] functions, which stop at the first
      failure, and the scheme that they start with, which knows every type of the API by its kind.
    - Data (C30 to C32, C35, C36, C40): deep copies are independent; what the claim
      reconciler writes passes the validation rules; the statuses of accesses that are written
      keep the transition rules, but for an account ID that the driver changes; the number of
      calls of a reconcile is bounded; the translation of driver messages round trips,
      validates exactly by the required fields and loses nothing.
    - Generated code (C37 to C39): every message comes back from its JSON text, which has all
      fields and admits no others; the raw descriptor, the service descriptors, the descriptors
      of this development and the fakes that are checked in agree; the generated fakes forward
      every call.

    The contract of each reconciler is stated as a predicate on the calls made so far
    ([claim_contract], [access_contract], [bucket_contract]); one proof by the
    weakest-precondition rules shows that [Reconcile] satisfies it, and the theorems above
    are its consequences.

    ** What is not modelled

    Logging; the registration of the reconcilers with the manager, beyond their filters and
    the order of the calls; the getters of the driver messages, which guard against a nil
    message that no caller has, and their reflection; HTTP/2 under gRPC, of which only the status
    headers and the loss of a request or of an answer are left; the helpers of the unit tests; the work queue, that is
    when a reconcile is started, which the step relation leaves open. The validation rules are a
    component of their own ([Admission]): the theorems about reconcilers and the
    cluster hold without them, but for the rule that the claim UID of a Bucket is set once,
    which binds the users' updates in [Cluster.user_act]. Go's nil and empty maps and
    slices are one value where no code distinguishes them; [DeepCopy] distinguishes them.
    Times are integers. Map iteration order is an answer of the environment, so statements
    hold for every order. *)

From stdpp Require Import base gmap strings list fin_maps pretty.
From Stdlib Require Import Ascii.

(** ** Scope of the development *)

#[export] Set Warnings "-clear-no-such-hyp".

Declare Scope cosi_scope.
Delimit Scope cosi_scope with cosi.
Global Open Scope string_scope.
Global Open Scope list_scope.
Global Open Scope nat_scope.
Global Open Scope cosi_scope.

(** Go compares strings with [==]; the model uses the boolean equality. *)
Notation "s1 =s s2" := (String.eqb s1 s2)
  (at level 70, no associativity) : cosi_scope.
Notation "s1 <>s s2" := (negb (String.eqb s1 s2))
  (at level 70, no associativity) : cosi_scope.

(** ** Results of fallible Go functions

    [(v, err)] with [err == nil] is [Ok v], with [err != nil] is [Err err]
    (where the callers ignore [v] when [err] is set). *)

Inductive result (E A : Type) : Type :=
| Ok (a : A)
| Err (e : E).

Arguments Ok {E A} a.
Arguments Err {E A} e.

Definition is_ok {E A} (r : result E A) : bool :=
  match r with Ok _ => true | Err _ => false end.

(** [if err != nil { return err }]. *)
#[export] Instance result_bind {E} : MBind (result E) := λ A B f r,
  match r with Ok a => f a | Err e => Err e end.

Lemma result_bind_Ok {E A B} (f : A → result E B) r b :
  r ≫= f = Ok b ↔ ∃ a, r = Ok a ∧ f a = Ok b.
Proof. destruct r as [a|e]; cbn; naive_solver. Qed.

(** ** The text of Go's fmt and strconv that error messages use *)

Definition ascii_hex_digit (n : nat) : ascii :=
  if n <? 10 then ascii_of_nat (48 + n) else ascii_of_nat (87 + n).

(** One byte of [strconv.Quote]: the escapes of a Go string literal. Bytes of
    0x80 and above (parts of UTF-8 runes) are copied. *)
Definition quote_byte (c : ascii) : string :=
  let n := nat_of_ascii c in
  let bs (x : ascii) := String (ascii_of_nat 92) (String x EmptyString) in
  if n =? 34 then bs c
  else if n =? 92 then bs c
  else if n =? 7 then bs "a"%char
  else if n =? 8 then bs "b"%char
  else if n =? 12 then bs "f"%char
  else if n =? 10 then bs "n"%char
  else if n =? 13 then bs "r"%char
  else if n =? 9 then bs "t"%char
  else if n =? 11 then bs "v"%char
  else if (n <? 32) || (n =? 127) then
    bs "x"%char +:+
    String (ascii_hex_digit (n / 16)) (String (ascii_hex_digit (n mod 16)) EmptyString)
  else String c EmptyString.

Fixpoint quote_body (s : string) : string :=
  match s with
  | EmptyString => EmptyString
  | String c s' => quote_byte c +:+ quote_body s'
  end.

Definition dquote : string := String (ascii_of_nat 34) EmptyString.

(** [fmt]'s verb %q on a string. *)
Definition quote (s : string) : string := dquote +:+ quote_body s +:+ dquote.

(** [strings.Join]. *)
Fixpoint join (sep : string) (l : list string) : string :=
  match l with
  | [] => ""
  | [s] => s
  | s :: l' => s +:+ sep +:+ join sep l'
  end.

(** [fmt]'s verb %v on a slice of strings. *)
Definition fmt_slice (l : list string) : string := "[" +:+ join " " l +:+ "]".

(** [fmt] prints a map with its keys sorted. *)
Fixpoint insert_by_key {A} (x : string * A) (l : list (string * A)) : list (string * A) :=
  match l with
  | [] => [x]
  | y :: l' => if String.leb x.1 y.1 then x :: y :: l' else y :: insert_by_key x l'
  end.

Definition sort_by_key {A} (l : list (string * A)) : list (string * A) :=
  foldr insert_by_key [] l.

(** [fmt]'s verb %v on a map with string keys. *)
Definition fmt_map {A} (show : A → string) (m : gmap string A) : string :=
  "map[" +:+
  join " " ((λ kv, kv.1 +:+ ":" +:+ show kv.2) <$> sort_by_key (map_to_list m)) +:+
  "]".

(** [fmt]'s verb %v on a bool, and %d on an integer. *)
Definition fmt_bool (b : bool) : string := if b then "true" else "false".
Definition fmt_int (z : Z) : string := pretty z.

(** ** Go maps

    A range loop over a Go map visits the entries in an order the language does
    not fix. [map_order hint m] is the iteration that visits the keys of [hint]
    that [m] holds, in that order, and then the rest: every [hint] gives a
    permutation of the entries and every permutation is given by some [hint]
    ([map_order_perm], [map_order_complete]), so a statement for all hints is a
    statement for all iteration orders. *)
Fixpoint map_order {A} (hint : list string) (m : gmap string A) : list (string * A) :=
  match hint with
  | [] => map_to_list m
  | k :: hint' =>
      match m !! k with
      | Some v => (k, v) :: map_order hint' (delete k m)
      | None => map_order hint' m
      end
  end.

Lemma map_order_perm {A} (hint : list string) (m : gmap string A) :
  map_order hint m ≡ₚ map_to_list m.
Proof.
  revert m; induction hint as [|k hint IH]; intros m; simpl; [done|].
  destruct (m !! k) as [v|] eqn:E; [|apply IH].
  rewrite IH, <-map_to_list_insert by apply lookup_delete_eq.
  by rewrite insert_delete_id.
Qed.

Lemma map_order_complete {A} (m : gmap string A) (l : list (string * A)) :
  l ≡ₚ map_to_list m → map_order l.*1 m = l.
Proof.
  revert m; induction l as [|[k v] l IH]; intros m Hl; simpl.
  - by apply Permutation_nil in Hl.
  - assert (m !! k = Some v) as Hk.
    { apply elem_of_map_to_list. rewrite <-Hl. left. }
    rewrite Hk. f_equal. apply IH.
    apply (Permutation_cons_inv (a := (k, v))).
    rewrite Hl, <-map_to_list_insert by apply lookup_delete_eq.
    by rewrite insert_delete_id.
Qed.

Lemma elem_of_map_order {A} (hint : list string) (m : gmap string A) k v :
  (k, v) ∈ map_order hint m ↔ m !! k = Some v.
Proof. by rewrite map_order_perm, elem_of_map_to_list. Qed.

Lemma elem_of_map_order_keys {A} (hint : list string) (m : gmap string A) k :
  k ∈ (map_order hint m).*1 → ∃ v, m !! k = Some v.
Proof.
  intros ([k' v] & -> & Hin)%list_elem_of_fmap. exists v. by apply elem_of_map_order in Hin.
Qed.

Lemma map_order_NoDup {A} (hint : list string) (m : gmap string A) :
  NoDup (map_order hint m).*1.
Proof. rewrite map_order_perm. apply NoDup_fst_map_to_list. Qed.

Lemma length_map_order {A} (hint : list string) (m : gmap string A) :
  length (map_order hint m) = size m.
Proof. rewrite map_order_perm. apply length_map_to_list. Qed.

(** Reading a missing key of a Go map of strings gives the empty string. *)
Definition go_get (m : gmap string string) (k : string) : string := default "" (m !! k).

(** [_, ok := m[k]]. *)
Definition has_key {A} (k : string) (m : gmap string A) : bool :=
  match m !! k with Some _ => true | None => false end.

Lemma has_key_spec {A} k (m : gmap string A) : has_key k m = true ↔ is_Some (m !! k).
Proof. unfold has_key. destruct (m !! k); naive_solver. Qed.

Lemma has_key_dom {A} k (m : gmap string A) : has_key k m = true ↔ k ∈ dom m.
Proof. by rewrite has_key_spec, elem_of_dom. Qed.

(** [slices.Contains] on slices of strings. *)
Definition slices_Contains (l : list string) (x : string) : bool :=
  existsb (String.eqb x) l.

Lemma slices_Contains_spec l x : slices_Contains l x = true ↔ x ∈ l.
Proof.
  unfold slices_Contains. rewrite existsb_exists, list_elem_of_In.
  split.
  - intros (y & Hy & ->%String.eqb_eq). done.
  - intros ?. exists x. by rewrite String.eqb_refl.
Qed.

(** [ptr.Deref(p, def)]. *)
Definition ptr_Deref {A} (p : option A) (def : A) : A := default def p.

(** ** Reflection of the boolean tests *)

Lemma eqs_true s1 s2 : (s1 =s s2) = true ↔ s1 = s2.
Proof. apply String.eqb_eq. Qed.
Lemma eqs_false s1 s2 : (s1 =s s2) = false ↔ s1 ≠ s2.
Proof. apply String.eqb_neq. Qed.
Lemma eqs_refl s : (s =s s) = true.
Proof. apply String.eqb_refl. Qed.
Lemma neqs_true s1 s2 : (s1 <>s s2) = true ↔ s1 ≠ s2.
Proof. by rewrite negb_true_iff, eqs_false. Qed.
Lemma neqs_false s1 s2 : (s1 <>s s2) = false ↔ s1 = s2.
Proof. by rewrite negb_false_iff, eqs_true. Qed.

Create HintDb cosi discriminated.
Create Rewrite HintDb cosi.
#[export] Hint Rewrite eqs_true eqs_false neqs_true neqs_false eqs_refl
  @has_key_spec slices_Contains_spec andb_true_iff andb_false_iff orb_true_iff
  orb_false_iff negb_true_iff negb_false_iff : cosi.

(** Turn boolean tests on strings in the context and the goal into propositions. *)
Ltac reflect_bools :=
  repeat match goal with
  | H : (_ =s _) = true |- _ => apply eqs_true in H
  | H : (_ =s _) = false |- _ => apply eqs_false in H
  | H : negb _ = true |- _ => apply negb_true_iff in H
  | H : negb _ = false |- _ => apply negb_false_iff in H
  | H : _ && _ = true |- _ => apply andb_true_iff in H; destruct H
  | H : _ || _ = false |- _ => apply orb_false_iff in H; destruct H
  | H : slices_Contains _ _ = true |- _ => apply slices_Contains_spec in H
  end.

(** Case analysis on every match of the goal, with the equations kept. *)
Ltac split_matches :=
  repeat (case_match; simplify_eq/=; reflect_bools).

Lemma is_nil_length {A} (l : list A) : (length l =? 0) = true ↔ l = [].
Proof. rewrite Nat.eqb_eq. destruct l; simpl; split; intros; congruence || lia. Qed.

Lemma flat_map_nil {A B} (f : A → list B) l : flat_map f l = [] ↔ ∀ x, x ∈ l → f x = [].
Proof.
  induction l as [|x l IH]; simpl.
  - split; [by intros _ x ?%elem_of_nil|done].
  - rewrite app_nil, IH. setoid_rewrite elem_of_cons. naive_solver.
Qed.

Lemma ltb_0_length {A} (l : list A) : (0 <? length l) = false ↔ l = [].
Proof. rewrite Nat.ltb_ge. destruct l; simpl; split; intros; (done || lia). Qed.

Lemma existsb_elem {A} (f : A → bool) l : existsb f l = true ↔ ∃ x, x ∈ l ∧ f x = true.
Proof. rewrite existsb_exists. by setoid_rewrite list_elem_of_In. Qed.

(** ** Bytes and concatenation of strings *)

(** Classes of bytes, and the value of a hexadecimal digit. *)
Definition between (lo c hi : ascii) : bool := (N_of_ascii lo <=? N_of_ascii c)%N && (N_of_ascii c <=? N_of_ascii hi)%N.
Definition is_digit (c : ascii) : bool := between "0" c "9".
Definition hex_value (c : ascii) : option N :=
  let n := N_of_ascii c in
  if is_digit c then Some (n - 48)%N
  else if between "a" c "f" then Some (n - 87)%N
  else if between "A" c "F" then Some (n - 55)%N
  else None.

Lemma str_app_cons c (a b : string) : String c a +:+ b = String c (a +:+ b).
Proof. reflexivity. Qed.
Lemma str_nil_app (b : string) : "" +:+ b = b.
Proof. reflexivity. Qed.
Lemma str_app_assoc (a b c : string) : a +:+ (b +:+ c) = (a +:+ b) +:+ c.
Proof. induction a as [|x a IH]; [done|]. by rewrite !str_app_cons, IH. Qed.
Lemma str_app_nil (a : string) : a +:+ "" = a.
Proof. induction a as [|x a IH]; [done|]. by rewrite str_app_cons, IH. Qed.
Lemma str_length_app (a b : string) : String.length (a +:+ b) = (String.length a + String.length b)%nat.
Proof. induction a as [|x a IH]; [done|]. rewrite str_app_cons. cbn. by rewrite IH. Qed.
