(* ===== verification/GoErrors.v ===== *)
(** * Go errors, COSI's non-retryable errors, and the errors of the libraries

    Models [src/internal/errors/errors.go] and what the reconcilers use of Go's
    [errors] and [fmt] packages, of the vendored [k8s.io/apimachinery] API errors,
    of the vendored [google.golang.org/grpc] status errors and of
    [reconcile.TerminalError] of the vendored controller-runtime.

    An error value is the tree that [errors.Is] and [errors.As] walk. *)

From stdpp Require Import base gmap strings list.
From S2P Require Import Prelude.

#[local] Set Warnings "-register-all".

(** gRPC status codes (vendored [codes.go]). *)
Inductive Code : Type :=
| CodeOK | Canceled | CodeUnknown | InvalidArgument | DeadlineExceeded | CodeNotFound
| CodeAlreadyExists | PermissionDenied | ResourceExhausted | FailedPrecondition | Aborted
| OutOfRange | Unimplemented | CodeInternal | Unavailable | DataLoss | Unauthenticated
| CodeOther (n : Z).   (** a number outside the published list *)

#[export] Instance Code_eq_dec : EqDecision Code.
Proof. solve_decision. Defined.

(** The dynamic types of the errors that reach the reconcilers. *)
Inductive error : Type :=
| errorString (s : string)                     (** [fmt.Errorf] with no %w *)
| wrapError (s : string) (err : error)         (** [fmt.Errorf] with one %w; [s] is the whole text *)
| joinError (errs : list error)                (** [errors.Join] of non-nil errors *)
| nonRetryableError (err : option error)       (** COSI's wrapper; the wrapped error may be nil *)
| terminalError (err : error)                  (** [reconcile.TerminalError] *)
| StatusError (reason : string) (code : Z) (s : string)  (** an API server error *)
| grpcError (c : Code) (s : string).           (** an error of a driver RPC *)

(** The children of a node, as its [Unwrap] method returns them. *)
Definition Unwrap (e : error) : list error :=
  match e with
  | wrapError _ e' => [e']
  | joinError es => es
  | nonRetryableError (Some e') => [e']
  | terminalError e' => [e']
  | _ => []
  end.

Section error_induction.
Variable P : error → Prop.
Hypothesis HString : ∀ s, P (errorString s).
Hypothesis HWrap : ∀ s e, P e → P (wrapError s e).
Hypothesis HJoin : ∀ es, Forall P es → P (joinError es).
Hypothesis HNonRetryable : ∀ oe, from_option P True oe → P (nonRetryableError oe).
Hypothesis HTerminal : ∀ e, P e → P (terminalError e).
Hypothesis HStatus : ∀ r c s, P (StatusError r c s).
Hypothesis HGrpc : ∀ c s, P (grpcError c s).

Fixpoint error_tree_ind (e : error) : P e :=
  match e with
  | errorString s => HString s
  | wrapError s e' => HWrap s e' (error_tree_ind e')
  | joinError es =>
      HJoin es
        ((fix go (l : list error) : Forall P l :=
            match l with
            | [] => Forall_nil_2 P
            | x :: l' => Forall_cons_2 P x l' (error_tree_ind x) (go l')
            end) es)
  | nonRetryableError None => HNonRetryable None I
  | nonRetryableError (Some e') => HNonRetryable (Some e') (error_tree_ind e')
  | terminalError e' => HTerminal e' (error_tree_ind e')
  | StatusError r c s => HStatus r c s
  | grpcError c s => HGrpc c s
  end.
End error_induction.

(** Names of the gRPC codes, as [Code.String] prints them. *)
Definition Code_String (c : Code) : string :=
  match c with
  | CodeOK => "OK" | Canceled => "Canceled" | CodeUnknown => "Unknown"
  | InvalidArgument => "InvalidArgument" | DeadlineExceeded => "DeadlineExceeded"
  | CodeNotFound => "NotFound" | CodeAlreadyExists => "AlreadyExists"
  | PermissionDenied => "PermissionDenied" | ResourceExhausted => "ResourceExhausted"
  | FailedPrecondition => "FailedPrecondition" | Aborted => "Aborted"
  | OutOfRange => "OutOfRange" | Unimplemented => "Unimplemented"
  | CodeInternal => "Internal" | Unavailable => "Unavailable"
  | DataLoss => "DataLoss" | Unauthenticated => "Unauthenticated"
  | CodeOther n => "Code(" +:+ fmt_int n +:+ ")"
  end.

(** [err.Error()]. [(&nonRetryableError{nil}).Error()] would dereference nil; the
    program builds that value only as the target of [errors.Is]. *)
Fixpoint Error (e : error) : string :=
  match e with
  | errorString s => s
  | wrapError s _ => s
  | joinError es => join (String (Ascii.ascii_of_nat 10) EmptyString) (map Error es)
  | nonRetryableError (Some e') => Error e'
  | nonRetryableError None => ""
  | terminalError e' => "terminal error: " +:+ Error e'
  | StatusError _ _ s => s
  | grpcError c s => "rpc error: code = " +:+ Code_String c +:+ " desc = " +:+ s
  end.

(** [fmt.Errorf(s)] with the arguments already formatted into [s]. *)
Definition Errorf (s : string) : error := errorString s.

(** [fmt.Errorf(prefix + ": %w", err)]. *)
Definition Errorf_w (prefix : string) (err : error) : error :=
  wrapError (prefix +:+ ": " +:+ Error err) err.

(** [errors.Join(errs...)] where no element is nil and there is at least one. *)
Definition errors_Join (errs : list error) : error := joinError errs.

(** [fmt.Errorf(prefix + ": %w", errors.Join(errs...))], the way every multi-error
    is reported. *)
Definition Errorf_join (prefix : string) (errs : list error) : error :=
  Errorf_w prefix (errors_Join errs).

(** [if len(errs) > 0 { return fmt.Errorf(prefix + ": %w", errors.Join(errs...)) }; return nil]. *)
Definition report (prefix : string) (errs : list error) : option error :=
  match errs with
  | [] => None
  | _ => Some (Errorf_join prefix errs)
  end.

(** [if cond { errs = append(errs, e) }]. *)
Definition when_err (cond : bool) (e : error) : list error := if cond then [e] else [].

(** ** [src/internal/errors/errors.go] *)

(** [NonRetryableError(wrapped)]. *)
Definition NonRetryableError (wrapped : option error) : error := nonRetryableError wrapped.

(** [NonRetryableError(err)] on a non-nil error. *)
Definition NonRetryable (err : error) : error := NonRetryableError (Some err).

(** [errors.As(target, &tp)] with [tp] of type [*nonRetryableError]. *)
Fixpoint errors_As_nonRetryable (target : error) : bool :=
  match target with
  | nonRetryableError _ => true
  | wrapError _ e => errors_As_nonRetryable e
  | joinError es => existsb errors_As_nonRetryable es
  | terminalError e => errors_As_nonRetryable e
  | errorString _ | StatusError _ _ _ | grpcError _ _ => false
  end.

(** [(te *nonRetryableError) Is(target)]. *)
Definition nonRetryableError_Is (target : error) : bool := errors_As_nonRetryable target.

(** [errors.As(target, &tp)] with [tp] of type [*terminalError], for the vendored
    [(te *terminalError) Is]. *)
Fixpoint errors_As_terminal (target : error) : bool :=
  match target with
  | terminalError _ => true
  | wrapError _ e => errors_As_terminal e
  | joinError es => existsb errors_As_terminal es
  | nonRetryableError (Some e) => errors_As_terminal e
  | nonRetryableError None => false
  | errorString _ | StatusError _ _ _ | grpcError _ _ => false
  end.

(** The [Is] method of one node; the other types have none. *)
Definition node_Is (e target : error) : bool :=
  match e with
  | nonRetryableError _ => nonRetryableError_Is target
  | terminalError _ => errors_As_terminal target
  | _ => false
  end.

(** [errors.Is(err, target)] for a freshly allocated [target], which is identical to
    no node of [err]: some node's [Is] method accepts the target. *)
Fixpoint errors_Is (err target : error) : bool :=
  node_Is err target ||
  match err with
  | wrapError _ e => errors_Is e target
  | joinError es => existsb (λ e, errors_Is e target) es
  | nonRetryableError (Some e) => errors_Is e target
  | terminalError e => errors_Is e target
  | _ => false
  end.

(** [errors.Is(err, cosierr.NonRetryableError(nil))], the reconcilers' test. *)
Definition is_nonRetryable (err : error) : bool := errors_Is err (NonRetryableError None).

(** ** API server errors *)

(** The reasons [IsNotFound] treats as known (vendored [knownReasons]). *)
Definition knownReasons : list string :=
  ["Unauthorized"; "Forbidden"; "NotFound"; "AlreadyExists"; "Conflict"; "Gone"; "Invalid";
   "ServerTimeout"; "StorageReadError"; "Timeout"; "TooManyRequests"; "BadRequest";
   "MethodNotAllowed"; "NotAcceptable"; "RequestEntityTooLarge"; "UnsupportedMediaType";
   "InternalError"; "Expired"; "ServiceUnavailable"].

(** [errors.As(err, &status)] with [status] an [APIStatus]: the first in depth-first order. *)
Fixpoint as_APIStatus (e : error) : option (string * Z) :=
  match e with
  | StatusError r c _ => Some (r, c)
  | wrapError _ e' => as_APIStatus e'
  | joinError es =>
      foldr (λ e acc, match as_APIStatus e with Some x => Some x | None => acc end) None es
  | nonRetryableError (Some e') => as_APIStatus e'
  | terminalError e' => as_APIStatus e'
  | _ => None
  end.

Definition IsNotFound (e : error) : bool :=
  match as_APIStatus e with
  | Some (reason, code) =>
      (reason =s "NotFound") ||
      (negb (slices_Contains knownReasons reason) && (code =? 404)%Z)
  | None => false
  end.

(** What a call to the Kubernetes API can fail with: a status error of the server, or
    an error of the client's own (connection, context, decoding). *)
Inductive client_error : Type :=
| ApiStatus (reason : string) (code : Z) (msg : string)
| ClientFailure (msg : string).

Definition of_client_error (e : client_error) : error :=
  match e with
  | ApiStatus r c m => StatusError r c m
  | ClientFailure m => errorString m
  end.

Definition NotFoundErr (msg : string) : client_error := ApiStatus "NotFound" 404 msg.
Definition ConflictErr (msg : string) : client_error := ApiStatus "Conflict" 409 msg.
Definition AlreadyExistsErr (msg : string) : client_error := ApiStatus "AlreadyExists" 409 msg.

(** [kerrors.IsNotFound] of a client error. *)
Definition client_IsNotFound (e : client_error) : bool := IsNotFound (of_client_error e).

(** ** Driver RPC errors *)

Record rpc_error : Type := { rpc_code : Code; rpc_msg : string }.

Definition of_rpc_error (e : rpc_error) : error := grpcError (rpc_code e) (rpc_msg e).

(** [status.Code(err)]: the code of the first gRPC status in the tree. *)
Fixpoint as_grpc (e : error) : option Code :=
  match e with
  | grpcError c _ => Some c
  | wrapError _ e' => as_grpc e'
  | joinError es =>
      foldr (λ e acc, match as_grpc e with Some x => Some x | None => acc end) None es
  | nonRetryableError (Some e') => as_grpc e'
  | terminalError e' => as_grpc e'
  | _ => None
  end.

Definition status_Code (e : error) : Code := default CodeUnknown (as_grpc e).

(** ** Facts *)

(** The reconcilers' test finds a non-retryable error anywhere in the tree. *)
Lemma is_nonRetryable_As (e : error) : is_nonRetryable e = errors_As_nonRetryable e.
Proof.
  unfold is_nonRetryable, NonRetryableError.
  induction e as [s|s e IH|es IH|[e|] IH|e IH|r c s|c s] using error_tree_ind;
    simpl in *; try done.
  induction IH as [|x l Hx _ IHl]; simpl; [done|]. by rewrite Hx, IHl.
Qed.

Lemma is_nonRetryable_NonRetryable e : is_nonRetryable (NonRetryable e) = true.
Proof. by rewrite is_nonRetryable_As. Qed.

Lemma is_nonRetryable_Errorf s : is_nonRetryable (Errorf s) = false.
Proof. by rewrite is_nonRetryable_As. Qed.

Lemma is_nonRetryable_Errorf_w p e : is_nonRetryable (Errorf_w p e) = is_nonRetryable e.
Proof. by rewrite !is_nonRetryable_As. Qed.

Lemma is_nonRetryable_join p es :
  is_nonRetryable (Errorf_join p es) = existsb is_nonRetryable es.
Proof.
  rewrite !is_nonRetryable_As. simpl.
  induction es as [|e es IH]; simpl; [done|]. by rewrite is_nonRetryable_As, IH.
Qed.

Lemma is_nonRetryable_client e : is_nonRetryable (of_client_error e) = false.
Proof. by destruct e. Qed.

Lemma is_nonRetryable_rpc e : is_nonRetryable (of_rpc_error e) = false.
Proof. done. Qed.

Lemma status_Code_rpc e : status_Code (of_rpc_error e) = rpc_code e.
Proof. by destruct e. Qed.

#[export] Hint Rewrite is_nonRetryable_NonRetryable is_nonRetryable_Errorf
  is_nonRetryable_Errorf_w is_nonRetryable_join is_nonRetryable_client
  is_nonRetryable_rpc status_Code_rpc : cosi.

Lemma report_None prefix errs : report prefix errs = None ↔ errs = [].
Proof. by destruct errs. Qed.

Lemma when_err_nil cond e : when_err cond e = [] ↔ cond = false.
Proof. by destruct cond. Qed.

#[export] Hint Rewrite report_None when_err_nil : cosi.

(** Wrapping never changes the text below it, so a status records the message of the
    error that stopped the reconcile. *)
Lemma Error_NonRetryable e : Error (NonRetryable e) = Error e.
Proof. done. Qed.
