(* ===== verification/ApiTypes.v ===== *)
(** * The COSI v1alpha2 API types

    Models [src/client/apis/objectstorage/v1alpha2]: constants of [definitions.go]
    and [protocols.go], [TimestampedError], the spec and status records of the five
    COSI resources, and what the reconcilers use of the vendored
    [metav1.ObjectMeta], [corev1.Secret] and [controllerutil].

    Go's named string types ([ObjectProtocol], [BucketDeletionPolicy], ...) are
    strings with listed constants, because a value of such a type is any string.
    A field of type [*T] is an [option]; a nil slice or map and an empty one are one
    value here, as they are for every test the code makes on these fields. *)

From stdpp Require Import base gmap strings list.
From S2P Require Import Prelude GoErrors.

(** ** Constants ([definitions.go]) *)

Definition ProtectionFinalizer : string := "objectstorage.k8s.io/protection".
Definition BucketClaimBeingDeletedAnnotation : string :=
  "objectstorage.k8.io/bucketclaim-being-deleted".
Definition HasBucketAccessReferencesAnnotation : string :=
  "objectstorage.k8s.io/has-bucketaccess-references".
Definition SidecarCleanupFinishedAnnotation : string :=
  "objectstorage.k8s.io/sidecar-cleanup-finished".
Definition ControllerManagementOverrideAnnotation : string :=
  "objectstorage.k8s.io/controller-management-override".
Definition RpcEndpointDefault : string := "unix:///var/lib/cosi/cosi.sock".
Definition RpcEndpointEnvVarName : string := "COSI_ENDPOINT".

(** ** Constants ([protocols.go]) *)

Definition ObjectProtocolS3 : string := "S3".
Definition ObjectProtocolAzure : string := "Azure".
Definition ObjectProtocolGcs : string := "GCS".

Definition BucketInfoVar_Protocol : string := "COSI_PROTOCOL".
Definition CredentialVar_CertificateAuthority : string := "COSI_CERTIFICATE_AUTHORITY".
Definition BucketInfoVar_S3_BucketId : string := "COSI_S3_BUCKET_ID".
Definition BucketInfoVar_S3_Endpoint : string := "COSI_S3_ENDPOINT".
Definition BucketInfoVar_S3_Region : string := "COSI_S3_REGION".
Definition BucketInfoVar_S3_AddressingStyle : string := "COSI_S3_ADDRESSING_STYLE".
Definition CredentialVar_S3_AccessKeyId : string := "COSI_S3_ACCESS_KEY_ID".
Definition CredentialVar_S3_AccessSecretKey : string := "COSI_S3_ACCESS_SECRET_KEY".
Definition BucketInfoVar_Azure_StorageAccount : string := "COSI_AZURE_STORAGE_ACCOUNT".
Definition CredentialVar_Azure_AccessToken : string := "COSI_AZURE_ACCESS_TOKEN".
Definition CredentialVar_Azure_ExpiryTimestamp : string := "COSI_AZURE_EXPIRY_TIMESTAMP".
Definition BucketInfoVar_GCS_ProjectId : string := "COSI_GCS_PROJECT_ID".
Definition BucketInfoVar_GCS_BucketName : string := "COSI_GCS_BUCKET_NAME".
Definition CredentialVar_GCS_AccessId : string := "COSI_GCS_ACCESS_ID".
Definition CredentialVar_GCS_AccessSecret : string := "COSI_GCS_ACCESS_SECRET".
Definition CredentialVar_GCS_PrivateKeyName : string := "COSI_GCS_PRIVATE_KEY_NAME".
Definition CredentialVar_GCS_ServiceAccount : string := "COSI_GCS_SERVICE_ACCOUNT".

Definition BucketDeletionPolicyRetain : string := "Retain".
Definition BucketDeletionPolicyDelete : string := "Delete".
Definition BucketAccessAuthenticationTypeKey : string := "Key".
Definition BucketAccessAuthenticationTypeServiceAccount : string := "ServiceAccount".
Definition BucketAccessModeReadWrite : string := "ReadWrite".
Definition BucketAccessModeReadOnly : string := "ReadOnly".
Definition BucketAccessModeWriteOnly : string := "WriteOnly".
Definition MultiBucketAccessSingleBucket : string := "SingleBucket".
Definition MultiBucketAccessMultipleBuckets : string := "MultipleBuckets".

(** ** Times

    A [metav1.Time] is the number of nanoseconds since Go's zero time. *)

Definition Time_IsZero (t : option Z) : bool :=
  match t with None => true | Some z => (z =? 0)%Z end.

Record TimestampedError : Type := {
  tserr_Time : option Z;
  tserr_Message : option string
}.

(** [NewTimestampedError(t, message)]: the fields are nil for zero-value inputs. *)
Definition NewTimestampedError (t : Z) (message : string) : TimestampedError :=
  let tp := if Time_IsZero (Some t) then None else Some t in
  let mp := if message =s "" then None else Some message in
  {| tserr_Time := tp; tserr_Message := mp |}.

(** ** Object metadata *)

Record OwnerReference : Type := {
  owner_APIVersion : string;
  owner_Kind : string;
  owner_Name : string;
  owner_UID : string;
  owner_Controller : option bool;
  owner_BlockOwnerDeletion : option bool
}.

Record ObjectMeta : Type := {
  meta_Name : string;
  meta_Namespace : string;
  meta_UID : string;
  meta_ResourceVersion : string;
  meta_Generation : Z;
  meta_DeletionTimestamp : option Z;
  meta_Annotations : gmap string string;
  meta_Finalizers : list string;
  meta_OwnerReferences : list OwnerReference
}.

Definition empty_meta : ObjectMeta := {|
  meta_Name := ""; meta_Namespace := ""; meta_UID := ""; meta_ResourceVersion := "";
  meta_Generation := 0%Z; meta_DeletionTimestamp := None; meta_Annotations := ∅;
  meta_Finalizers := []; meta_OwnerReferences := [] |}.

Definition meta_with_Annotations (a : gmap string string) (m : ObjectMeta) : ObjectMeta := {|
  meta_Name := meta_Name m; meta_Namespace := meta_Namespace m; meta_UID := meta_UID m;
  meta_ResourceVersion := meta_ResourceVersion m; meta_Generation := meta_Generation m;
  meta_DeletionTimestamp := meta_DeletionTimestamp m; meta_Annotations := a;
  meta_Finalizers := meta_Finalizers m; meta_OwnerReferences := meta_OwnerReferences m |}.

Definition meta_with_Finalizers (f : list string) (m : ObjectMeta) : ObjectMeta := {|
  meta_Name := meta_Name m; meta_Namespace := meta_Namespace m; meta_UID := meta_UID m;
  meta_ResourceVersion := meta_ResourceVersion m; meta_Generation := meta_Generation m;
  meta_DeletionTimestamp := meta_DeletionTimestamp m; meta_Annotations := meta_Annotations m;
  meta_Finalizers := f; meta_OwnerReferences := meta_OwnerReferences m |}.

Definition meta_with_OwnerReferences (o : list OwnerReference) (m : ObjectMeta) : ObjectMeta := {|
  meta_Name := meta_Name m; meta_Namespace := meta_Namespace m; meta_UID := meta_UID m;
  meta_ResourceVersion := meta_ResourceVersion m; meta_Generation := meta_Generation m;
  meta_DeletionTimestamp := meta_DeletionTimestamp m; meta_Annotations := meta_Annotations m;
  meta_Finalizers := meta_Finalizers m; meta_OwnerReferences := o |}.

(** [types.NamespacedName]. *)
Record NamespacedName : Type := { nn_Namespace : string; nn_Name : string }.

#[export] Instance NamespacedName_eq_dec : EqDecision NamespacedName.
Proof. solve_decision. Defined.

(** The key of a global resource. *)
Definition global (name : string) : NamespacedName :=
  {| nn_Namespace := ""; nn_Name := name |}.

(** ** Buckets ([bucket_types.go]) *)

Record BucketClaimReference : Type := {
  claimRef_Name : string;
  claimRef_Namespace : string;
  claimRef_UID : string
}.

Record BucketSpec : Type := {
  bucketSpec_DriverName : string;
  bucketSpec_DeletionPolicy : string;
  bucketSpec_Parameters : gmap string string;
  bucketSpec_Protocols : list string;
  bucketSpec_BucketClaimRef : BucketClaimReference;
  bucketSpec_ExistingBucketID : string
}.

Record BucketStatus : Type := {
  bucketStatus_ReadyToUse : option bool;
  bucketStatus_BucketID : string;
  bucketStatus_Protocols : list string;
  bucketStatus_BucketInfo : gmap string string;
  bucketStatus_Error : option TimestampedError
}.

Definition empty_BucketStatus : BucketStatus := {|
  bucketStatus_ReadyToUse := None; bucketStatus_BucketID := "";
  bucketStatus_Protocols := []; bucketStatus_BucketInfo := ∅; bucketStatus_Error := None |}.

Record Bucket : Type := {
  bucket_ObjectMeta : ObjectMeta;
  bucket_Spec : BucketSpec;
  bucket_Status : BucketStatus
}.

(** ** BucketClaims ([bucketclaim_types.go]) *)

Record BucketClaimSpec : Type := {
  claimSpec_BucketClassName : string;
  claimSpec_Protocols : list string;
  claimSpec_ExistingBucketName : string
}.

Record BucketClaimStatus : Type := {
  claimStatus_BoundBucketName : string;
  claimStatus_ReadyToUse : option bool;
  claimStatus_Protocols : list string;
  claimStatus_Error : option TimestampedError
}.

Record BucketClaim : Type := {
  claim_ObjectMeta : ObjectMeta;
  claim_Spec : BucketClaimSpec;
  claim_Status : BucketClaimStatus
}.

(** ** BucketClasses ([bucketclass_types.go]) *)

Record BucketClassSpec : Type := {
  classSpec_DriverName : string;
  classSpec_DeletionPolicy : string;
  classSpec_Parameters : gmap string string
}.

Record BucketClass : Type := {
  class_ObjectMeta : ObjectMeta;
  class_Spec : BucketClassSpec
}.

(** ** BucketAccessClasses ([bucketaccessclass_types.go]) *)

Record BucketAccessClassSpec : Type := {
  accessClassSpec_DriverName : string;
  accessClassSpec_AuthenticationType : string;
  accessClassSpec_Parameters : gmap string string;
  accessClassSpec_DisallowedBucketAccessModes : list string;
  accessClassSpec_MultiBucketAccess : string
}.

Record BucketAccessClass : Type := {
  accessClass_ObjectMeta : ObjectMeta;
  accessClass_Spec : BucketAccessClassSpec
}.

Definition SupportsMultiBucketAccess (validate : BucketAccessClassSpec) : bool :=
  if accessClassSpec_MultiBucketAccess validate =s MultiBucketAccessMultipleBuckets
  then true
  else false.

(** ** BucketAccesses ([bucketaccess_types.go]) *)

Record BucketClaimAccess : Type := {
  claimAccess_BucketClaimName : string;
  claimAccess_AccessMode : string;
  claimAccess_AccessSecretName : string
}.

Record AccessedBucket : Type := {
  accessed_BucketName : string;
  accessed_BucketID : string;
  accessed_BucketClaimName : string
}.

Record BucketAccessSpec : Type := {
  accessSpec_BucketClaims : list BucketClaimAccess;
  accessSpec_BucketAccessClassName : string;
  accessSpec_Protocol : string;
  accessSpec_ServiceAccountName : string
}.

Record BucketAccessStatus : Type := {
  accessStatus_ReadyToUse : option bool;
  accessStatus_AccountID : string;
  accessStatus_AccessedBuckets : list AccessedBucket;
  accessStatus_DriverName : string;
  accessStatus_AuthenticationType : string;
  accessStatus_Parameters : gmap string string;
  accessStatus_Error : option TimestampedError
}.

Record BucketAccess : Type := {
  access_ObjectMeta : ObjectMeta;
  access_Spec : BucketAccessSpec;
  access_Status : BucketAccessStatus
}.

(** ** Secrets (vendored [corev1.Secret]) *)

Definition SecretTypeOpaque : string := "Opaque".

Record Secret : Type := {
  secret_ObjectMeta : ObjectMeta;
  secret_Data : gmap string string;
  secret_StringData : gmap string string;
  secret_Type : string
}.

(** ** The [client.Object] interface

    Every resource carries an [ObjectMeta] that the getters and setters of the
    interface read and replace. *)

Class ClientObject (A : Type) : Type := {
  GetMeta : A → ObjectMeta;
  SetMeta : ObjectMeta → A → A;
  GetMeta_SetMeta : ∀ m a, GetMeta (SetMeta m a) = m;
  SetMeta_GetMeta : ∀ a, SetMeta (GetMeta a) a = a
}.

#[export] Program Instance Bucket_object : ClientObject Bucket := {|
  GetMeta := bucket_ObjectMeta;
  SetMeta m b := {| bucket_ObjectMeta := m; bucket_Spec := bucket_Spec b;
                    bucket_Status := bucket_Status b |} |}.
Next Obligation. done. Qed.
Next Obligation. by intros []. Qed.

#[export] Program Instance BucketClaim_object : ClientObject BucketClaim := {|
  GetMeta := claim_ObjectMeta;
  SetMeta m c := {| claim_ObjectMeta := m; claim_Spec := claim_Spec c;
                    claim_Status := claim_Status c |} |}.
Next Obligation. done. Qed.
Next Obligation. by intros []. Qed.

#[export] Program Instance BucketAccess_object : ClientObject BucketAccess := {|
  GetMeta := access_ObjectMeta;
  SetMeta m a := {| access_ObjectMeta := m; access_Spec := access_Spec a;
                    access_Status := access_Status a |} |}.
Next Obligation. done. Qed.
Next Obligation. by intros []. Qed.

#[export] Program Instance Secret_object : ClientObject Secret := {|
  GetMeta := secret_ObjectMeta;
  SetMeta m s := {| secret_ObjectMeta := m; secret_Data := secret_Data s;
                    secret_StringData := secret_StringData s; secret_Type := secret_Type s |} |}.
Next Obligation. done. Qed.
Next Obligation. by intros []. Qed.

Section client_object.
Context {A : Type} `{ClientObject A}.

Definition GetName (a : A) : string := meta_Name (GetMeta a).
Definition GetNamespace (a : A) : string := meta_Namespace (GetMeta a).
Definition GetUID (a : A) : string := meta_UID (GetMeta a).
Definition GetGeneration (a : A) : Z := meta_Generation (GetMeta a).
Definition GetAnnotations (a : A) : gmap string string := meta_Annotations (GetMeta a).
Definition GetFinalizers (a : A) : list string := meta_Finalizers (GetMeta a).
Definition IsDeleting (a : A) : bool := negb (Time_IsZero (meta_DeletionTimestamp (GetMeta a))).

Definition SetAnnotations (an : gmap string string) (a : A) : A :=
  SetMeta (meta_with_Annotations an (GetMeta a)) a.
Definition SetFinalizers (f : list string) (a : A) : A :=
  SetMeta (meta_with_Finalizers f (GetMeta a)) a.

(** [obj.Annotations[k] = v], the map being made first when it is nil. *)
Definition set_annotation (k v : string) (a : A) : A :=
  SetAnnotations (<[k := v]> (GetAnnotations a)) a.
(** [delete(obj.Annotations, k)]. *)
Definition delete_annotation (k : string) (a : A) : A :=
  SetAnnotations (delete k (GetAnnotations a)) a.
(** [_, ok := obj.Annotations[k]]. *)
Definition has_annotation (k : string) (a : A) : bool := has_key k (GetAnnotations a).

(** [controllerutil.ContainsFinalizer]. *)
Definition ContainsFinalizer (a : A) (f : string) : bool :=
  slices_Contains (GetFinalizers a) f.

(** [controllerutil.AddFinalizer]: the object and whether it was changed. *)
Definition AddFinalizer (a : A) (f : string) : A * bool :=
  if slices_Contains (GetFinalizers a) f then (a, false)
  else (SetFinalizers (GetFinalizers a ++ [f]) a, true).

(** [controllerutil.RemoveFinalizer]: every occurrence is dropped. *)
Definition RemoveFinalizer (a : A) (f : string) : A :=
  SetFinalizers (List.filter (λ g, negb (String.eqb g f)) (GetFinalizers a)) a.

(** Two states of one object that a client holds for the same stored version. *)
Definition same_version (a b : A) : Prop :=
  GetName a = GetName b ∧ GetNamespace a = GetNamespace b ∧ GetUID a = GetUID b ∧
  meta_ResourceVersion (GetMeta a) = meta_ResourceVersion (GetMeta b).

Lemma same_version_refl a : same_version a a.
Proof. done. Qed.
Lemma same_version_trans a b c : same_version a b → same_version b c → same_version a c.
Proof. unfold same_version. intuition congruence. Qed.
Lemma same_version_SetFinalizers f a : same_version (SetFinalizers f a) a.
Proof.
  unfold same_version, SetFinalizers, GetName, GetNamespace, GetUID.
  by rewrite GetMeta_SetMeta.
Qed.
Lemma same_version_AddFinalizer a f : same_version (AddFinalizer a f).1 a.
Proof. unfold AddFinalizer. case_match; [done|apply same_version_SetFinalizers]. Qed.
Lemma same_version_RemoveFinalizer a f : same_version (RemoveFinalizer a f) a.
Proof. apply same_version_SetFinalizers. Qed.

Lemma AddFinalizer_contains a f : ContainsFinalizer (AddFinalizer a f).1 f = true.
Proof.
  unfold AddFinalizer, ContainsFinalizer.
  destruct (slices_Contains (GetFinalizers a) f) eqn:E; simpl; [done|].
  unfold SetFinalizers, GetFinalizers. rewrite GetMeta_SetMeta. simpl.
  apply slices_Contains_spec. set_solver.
Qed.

Lemma RemoveFinalizer_gone a f : ContainsFinalizer (RemoveFinalizer a f) f = false.
Proof.
  unfold RemoveFinalizer, ContainsFinalizer, SetFinalizers, GetFinalizers.
  rewrite GetMeta_SetMeta. simpl.
  destruct (slices_Contains _ f) eqn:E; [|done].
  apply slices_Contains_spec, list_elem_of_In, filter_In in E as [_ E].
  by rewrite String.eqb_refl in E.
Qed.

Lemma set_annotation_present k v a : has_annotation k (set_annotation k v a) = true.
Proof.
  unfold has_annotation, set_annotation, SetAnnotations, GetAnnotations.
  rewrite GetMeta_SetMeta. simpl. apply has_key_spec. rewrite lookup_insert_eq. eauto.
Qed.

Lemma delete_annotation_absent k a : has_annotation k (delete_annotation k a) = false.
Proof.
  unfold has_annotation, delete_annotation, SetAnnotations, GetAnnotations, has_key.
  rewrite GetMeta_SetMeta. simpl. by rewrite lookup_delete_eq.
Qed.
End client_object.

(** ** Ownership of secrets (vendored [metav1.IsControlledBy]) *)

(** [GetControllerOfNoCopy]: the first owner reference marked as controller. *)
Definition GetControllerOf {A} `{ClientObject A} (a : A) : option OwnerReference :=
  List.find (λ r, ptr_Deref (owner_Controller r) false) (meta_OwnerReferences (GetMeta a)).

Definition IsControlledBy {A B} `{ClientObject A, ClientObject B} (obj : A) (owner : B) : bool :=
  match GetControllerOf obj with
  | None => false
  | Some ref => owner_UID ref =s GetUID owner
  end.

(** ** Field updates of the status records *)

Definition claimStatus_with_ReadyToUse (v : option bool) (s : BucketClaimStatus) : BucketClaimStatus :=
  {| claimStatus_BoundBucketName := claimStatus_BoundBucketName s;
     claimStatus_ReadyToUse := v;
     claimStatus_Protocols := claimStatus_Protocols s;
     claimStatus_Error := claimStatus_Error s |}.
Definition claimStatus_with_Error (e : option TimestampedError) (s : BucketClaimStatus) : BucketClaimStatus :=
  {| claimStatus_BoundBucketName := claimStatus_BoundBucketName s;
     claimStatus_ReadyToUse := claimStatus_ReadyToUse s;
     claimStatus_Protocols := claimStatus_Protocols s;
     claimStatus_Error := e |}.
Definition claimStatus_with_BoundBucketName (n : string) (s : BucketClaimStatus) : BucketClaimStatus :=
  {| claimStatus_BoundBucketName := n;
     claimStatus_ReadyToUse := claimStatus_ReadyToUse s;
     claimStatus_Protocols := claimStatus_Protocols s;
     claimStatus_Error := claimStatus_Error s |}.
Definition claimStatus_with_Protocols (l : list string) (s : BucketClaimStatus) : BucketClaimStatus :=
  {| claimStatus_BoundBucketName := claimStatus_BoundBucketName s;
     claimStatus_ReadyToUse := claimStatus_ReadyToUse s;
     claimStatus_Protocols := l;
     claimStatus_Error := claimStatus_Error s |}.
Definition claim_with_Status (s : BucketClaimStatus) (c : BucketClaim) : BucketClaim :=
  {| claim_ObjectMeta := claim_ObjectMeta c; claim_Spec := claim_Spec c; claim_Status := s |}.

Definition bucketStatus_with_ReadyToUse (v : option bool) (s : BucketStatus) : BucketStatus :=
  {| bucketStatus_ReadyToUse := v; bucketStatus_BucketID := bucketStatus_BucketID s;
     bucketStatus_Protocols := bucketStatus_Protocols s;
     bucketStatus_BucketInfo := bucketStatus_BucketInfo s;
     bucketStatus_Error := bucketStatus_Error s |}.
Definition bucketStatus_with_Error (e : option TimestampedError) (s : BucketStatus) : BucketStatus :=
  {| bucketStatus_ReadyToUse := bucketStatus_ReadyToUse s;
     bucketStatus_BucketID := bucketStatus_BucketID s;
     bucketStatus_Protocols := bucketStatus_Protocols s;
     bucketStatus_BucketInfo := bucketStatus_BucketInfo s;
     bucketStatus_Error := e |}.
Definition bucket_with_Status (s : BucketStatus) (b : Bucket) : Bucket :=
  {| bucket_ObjectMeta := bucket_ObjectMeta b; bucket_Spec := bucket_Spec b; bucket_Status := s |}.
Definition bucket_with_claimRef_UID (uid : string) (b : Bucket) : Bucket :=
  {| bucket_ObjectMeta := bucket_ObjectMeta b;
     bucket_Spec :=
       {| bucketSpec_DriverName := bucketSpec_DriverName (bucket_Spec b);
          bucketSpec_DeletionPolicy := bucketSpec_DeletionPolicy (bucket_Spec b);
          bucketSpec_Parameters := bucketSpec_Parameters (bucket_Spec b);
          bucketSpec_Protocols := bucketSpec_Protocols (bucket_Spec b);
          bucketSpec_BucketClaimRef :=
            {| claimRef_Name := claimRef_Name (bucketSpec_BucketClaimRef (bucket_Spec b));
               claimRef_Namespace := claimRef_Namespace (bucketSpec_BucketClaimRef (bucket_Spec b));
               claimRef_UID := uid |};
          bucketSpec_ExistingBucketID := bucketSpec_ExistingBucketID (bucket_Spec b) |};
     bucket_Status := bucket_Status b |}.

Definition accessStatus_with_ReadyToUse (v : option bool) (s : BucketAccessStatus) : BucketAccessStatus :=
  {| accessStatus_ReadyToUse := v; accessStatus_AccountID := accessStatus_AccountID s;
     accessStatus_AccessedBuckets := accessStatus_AccessedBuckets s;
     accessStatus_DriverName := accessStatus_DriverName s;
     accessStatus_AuthenticationType := accessStatus_AuthenticationType s;
     accessStatus_Parameters := accessStatus_Parameters s;
     accessStatus_Error := accessStatus_Error s |}.
Definition accessStatus_with_Error (e : option TimestampedError) (s : BucketAccessStatus) : BucketAccessStatus :=
  {| accessStatus_ReadyToUse := accessStatus_ReadyToUse s;
     accessStatus_AccountID := accessStatus_AccountID s;
     accessStatus_AccessedBuckets := accessStatus_AccessedBuckets s;
     accessStatus_DriverName := accessStatus_DriverName s;
     accessStatus_AuthenticationType := accessStatus_AuthenticationType s;
     accessStatus_Parameters := accessStatus_Parameters s;
     accessStatus_Error := e |}.
Definition accessStatus_with_AccountID (i : string) (s : BucketAccessStatus) : BucketAccessStatus :=
  {| accessStatus_ReadyToUse := accessStatus_ReadyToUse s;
     accessStatus_AccountID := i;
     accessStatus_AccessedBuckets := accessStatus_AccessedBuckets s;
     accessStatus_DriverName := accessStatus_DriverName s;
     accessStatus_AuthenticationType := accessStatus_AuthenticationType s;
     accessStatus_Parameters := accessStatus_Parameters s;
     accessStatus_Error := accessStatus_Error s |}.
Definition access_with_Status (s : BucketAccessStatus) (a : BucketAccess) : BucketAccess :=
  {| access_ObjectMeta := access_ObjectMeta a; access_Spec := access_Spec a; access_Status := s |}.

(** [if obj.Status.ReadyToUse == nil { obj.Status.ReadyToUse = ptr.To(false) }]. *)
Definition default_not_ready (r : option bool) : option bool :=
  match r with None => Some false | Some b => Some b end.
