(* ===== verification/DeepCopy.v ===== *)
(** * Deep copies of the API types

    Models [src/client/apis/objectstorage/v1alpha2/zz_generated.deepcopy.go] on a heap. A Go
    struct with pointers, maps and slices is a record whose such fields are addresses, nil
    being [None]; [*out = *in] copies the addresses, so that the copy shares the cells until
    the following statements replace them. The rest of the library takes objects as values;
    this file shows for the types of the API that a deep copy is a value of its own: it
    reads the same as the original, and lives in cells that were allocated for it.

    A record is parametrised by what a reference is: [F A] is an address in the heap's form
    of the record ([href]), and the value referred to, if any, in the form that [val] reads
    off a heap ([option]). The order in which cells are allocated cannot be observed. The
    vendored [ObjectMeta], [ListMeta] and what they hold are modelled with all their fields;
    [TypeMeta] is two strings, and a time is a number. *)

From Stdlib Require Import Ascii.
From stdpp Require Import base gmap strings list infinite.
From S2P Require Import Prelude ApiTypes.

(** ** The types *)

Abbreviation loc := nat (only parsing).
Abbreviation href := (λ _ : Type, option loc) (only parsing).

Record TypeMeta : Type := {
  typeMeta_Kind : string;
  typeMeta_APIVersion : string
}.

Record OwnerReferenceF (F : Type → Type) : Type := {
  ownerF_APIVersion : string;
  ownerF_Kind : string;
  ownerF_Name : string;
  ownerF_UID : string;
  ownerF_Controller : F bool;
  ownerF_BlockOwnerDeletion : F bool
}.
Arguments ownerF_APIVersion {F} _.
Arguments ownerF_Kind {F} _.
Arguments ownerF_Name {F} _.
Arguments ownerF_UID {F} _.
Arguments ownerF_Controller {F} _.
Arguments ownerF_BlockOwnerDeletion {F} _.

(** The bytes of [FieldsV1] are a slice. *)
Record FieldsV1F (F : Type → Type) : Type := { fieldsV1F_Raw : F (list ascii) }.
Arguments fieldsV1F_Raw {F} _.

Record ManagedFieldsEntryF (F : Type → Type) : Type := {
  managedF_Manager : string;
  managedF_Operation : string;
  managedF_APIVersion : string;
  managedF_Time : F Z;
  managedF_FieldsType : string;
  managedF_FieldsV1 : F (FieldsV1F F);
  managedF_Subresource : string
}.
Arguments managedF_Manager {F} _.
Arguments managedF_Operation {F} _.
Arguments managedF_APIVersion {F} _.
Arguments managedF_Time {F} _.
Arguments managedF_FieldsType {F} _.
Arguments managedF_FieldsV1 {F} _.
Arguments managedF_Subresource {F} _.

Record ObjectMetaF (F : Type → Type) : Type := {
  metaF_Name : string;
  metaF_GenerateName : string;
  metaF_Namespace : string;
  metaF_SelfLink : string;
  metaF_UID : string;
  metaF_ResourceVersion : string;
  metaF_Generation : Z;
  metaF_CreationTimestamp : Z;
  metaF_DeletionTimestamp : F Z;
  metaF_DeletionGracePeriodSeconds : F Z;
  metaF_Labels : F (gmap string string);
  metaF_Annotations : F (gmap string string);
  metaF_OwnerReferences : F (list (OwnerReferenceF F));
  metaF_Finalizers : F (list string);
  metaF_ManagedFields : F (list (ManagedFieldsEntryF F))
}.
Arguments metaF_Name {F} _.
Arguments metaF_GenerateName {F} _.
Arguments metaF_Namespace {F} _.
Arguments metaF_SelfLink {F} _.
Arguments metaF_UID {F} _.
Arguments metaF_ResourceVersion {F} _.
Arguments metaF_Generation {F} _.
Arguments metaF_CreationTimestamp {F} _.
Arguments metaF_DeletionTimestamp {F} _.
Arguments metaF_DeletionGracePeriodSeconds {F} _.
Arguments metaF_Labels {F} _.
Arguments metaF_Annotations {F} _.
Arguments metaF_OwnerReferences {F} _.
Arguments metaF_Finalizers {F} _.
Arguments metaF_ManagedFields {F} _.

Record ListMetaF (F : Type → Type) : Type := {
  listMetaF_SelfLink : string;
  listMetaF_ResourceVersion : string;
  listMetaF_Continue : string;
  listMetaF_RemainingItemCount : F Z
}.
Arguments listMetaF_SelfLink {F} _.
Arguments listMetaF_ResourceVersion {F} _.
Arguments listMetaF_Continue {F} _.
Arguments listMetaF_RemainingItemCount {F} _.

Record TimestampedErrorF (F : Type → Type) : Type := {
  tserrF_Time : F Z;
  tserrF_Message : F string
}.
Arguments tserrF_Time {F} _.
Arguments tserrF_Message {F} _.

Record BucketSpecF (F : Type → Type) : Type := {
  bucketSpecF_DriverName : string;
  bucketSpecF_DeletionPolicy : string;
  bucketSpecF_Parameters : F (gmap string string);
  bucketSpecF_Protocols : F (list string);
  bucketSpecF_BucketClaimRef : BucketClaimReference;
  bucketSpecF_ExistingBucketID : string
}.
Arguments bucketSpecF_DriverName {F} _.
Arguments bucketSpecF_DeletionPolicy {F} _.
Arguments bucketSpecF_Parameters {F} _.
Arguments bucketSpecF_Protocols {F} _.
Arguments bucketSpecF_BucketClaimRef {F} _.
Arguments bucketSpecF_ExistingBucketID {F} _.

Record BucketStatusF (F : Type → Type) : Type := {
  bucketStatusF_ReadyToUse : F bool;
  bucketStatusF_BucketID : string;
  bucketStatusF_Protocols : F (list string);
  bucketStatusF_BucketInfo : F (gmap string string);
  bucketStatusF_Error : F (TimestampedErrorF F)
}.
Arguments bucketStatusF_ReadyToUse {F} _.
Arguments bucketStatusF_BucketID {F} _.
Arguments bucketStatusF_Protocols {F} _.
Arguments bucketStatusF_BucketInfo {F} _.
Arguments bucketStatusF_Error {F} _.

Record BucketF (F : Type → Type) : Type := {
  bucketF_TypeMeta : TypeMeta;
  bucketF_ObjectMeta : ObjectMetaF F;
  bucketF_Spec : BucketSpecF F;
  bucketF_Status : BucketStatusF F
}.
Arguments bucketF_TypeMeta {F} _.
Arguments bucketF_ObjectMeta {F} _.
Arguments bucketF_Spec {F} _.
Arguments bucketF_Status {F} _.

Record BucketClaimSpecF (F : Type → Type) : Type := {
  claimSpecF_BucketClassName : string;
  claimSpecF_Protocols : F (list string);
  claimSpecF_ExistingBucketName : string
}.
Arguments claimSpecF_BucketClassName {F} _.
Arguments claimSpecF_Protocols {F} _.
Arguments claimSpecF_ExistingBucketName {F} _.

Record BucketClaimStatusF (F : Type → Type) : Type := {
  claimStatusF_BoundBucketName : string;
  claimStatusF_ReadyToUse : F bool;
  claimStatusF_Protocols : F (list string);
  claimStatusF_Error : F (TimestampedErrorF F)
}.
Arguments claimStatusF_BoundBucketName {F} _.
Arguments claimStatusF_ReadyToUse {F} _.
Arguments claimStatusF_Protocols {F} _.
Arguments claimStatusF_Error {F} _.

Record BucketClaimF (F : Type → Type) : Type := {
  claimF_TypeMeta : TypeMeta;
  claimF_ObjectMeta : ObjectMetaF F;
  claimF_Spec : BucketClaimSpecF F;
  claimF_Status : BucketClaimStatusF F
}.
Arguments claimF_TypeMeta {F} _.
Arguments claimF_ObjectMeta {F} _.
Arguments claimF_Spec {F} _.
Arguments claimF_Status {F} _.

Record BucketClassSpecF (F : Type → Type) : Type := {
  classSpecF_DriverName : string;
  classSpecF_DeletionPolicy : string;
  classSpecF_Parameters : F (gmap string string)
}.
Arguments classSpecF_DriverName {F} _.
Arguments classSpecF_DeletionPolicy {F} _.
Arguments classSpecF_Parameters {F} _.

Record BucketClassF (F : Type → Type) : Type := {
  classF_TypeMeta : TypeMeta;
  classF_ObjectMeta : ObjectMetaF F;
  classF_Spec : BucketClassSpecF F
}.
Arguments classF_TypeMeta {F} _.
Arguments classF_ObjectMeta {F} _.
Arguments classF_Spec {F} _.

Record BucketAccessClassSpecF (F : Type → Type) : Type := {
  accessClassSpecF_DriverName : string;
  accessClassSpecF_AuthenticationType : string;
  accessClassSpecF_Parameters : F (gmap string string);
  accessClassSpecF_DisallowedBucketAccessModes : F (list string);
  accessClassSpecF_MultiBucketAccess : string
}.
Arguments accessClassSpecF_DriverName {F} _.
Arguments accessClassSpecF_AuthenticationType {F} _.
Arguments accessClassSpecF_Parameters {F} _.
Arguments accessClassSpecF_DisallowedBucketAccessModes {F} _.
Arguments accessClassSpecF_MultiBucketAccess {F} _.

Record BucketAccessClassF (F : Type → Type) : Type := {
  accessClassF_TypeMeta : TypeMeta;
  accessClassF_ObjectMeta : ObjectMetaF F;
  accessClassF_Spec : BucketAccessClassSpecF F
}.
Arguments accessClassF_TypeMeta {F} _.
Arguments accessClassF_ObjectMeta {F} _.
Arguments accessClassF_Spec {F} _.

Record BucketAccessSpecF (F : Type → Type) : Type := {
  accessSpecF_BucketClaims : F (list BucketClaimAccess);
  accessSpecF_BucketAccessClassName : string;
  accessSpecF_Protocol : string;
  accessSpecF_ServiceAccountName : string
}.
Arguments accessSpecF_BucketClaims {F} _.
Arguments accessSpecF_BucketAccessClassName {F} _.
Arguments accessSpecF_Protocol {F} _.
Arguments accessSpecF_ServiceAccountName {F} _.

Record BucketAccessStatusF (F : Type → Type) : Type := {
  accessStatusF_ReadyToUse : F bool;
  accessStatusF_AccountID : string;
  accessStatusF_AccessedBuckets : F (list AccessedBucket);
  accessStatusF_DriverName : string;
  accessStatusF_AuthenticationType : string;
  accessStatusF_Parameters : F (gmap string string);
  accessStatusF_Error : F (TimestampedErrorF F)
}.
Arguments accessStatusF_ReadyToUse {F} _.
Arguments accessStatusF_AccountID {F} _.
Arguments accessStatusF_AccessedBuckets {F} _.
Arguments accessStatusF_DriverName {F} _.
Arguments accessStatusF_AuthenticationType {F} _.
Arguments accessStatusF_Parameters {F} _.
Arguments accessStatusF_Error {F} _.

Record BucketAccessF (F : Type → Type) : Type := {
  accessF_TypeMeta : TypeMeta;
  accessF_ObjectMeta : ObjectMetaF F;
  accessF_Spec : BucketAccessSpecF F;
  accessF_Status : BucketAccessStatusF F
}.
Arguments accessF_TypeMeta {F} _.
Arguments accessF_ObjectMeta {F} _.
Arguments accessF_Spec {F} _.
Arguments accessF_Status {F} _.

Record ListF (F : Type → Type) (T : Type) : Type := {
  listF_TypeMeta : TypeMeta;
  listF_ListMeta : ListMetaF F;
  listF_Items : F (list T)
}.
Arguments listF_TypeMeta {F T} _.
Arguments listF_ListMeta {F T} _.
Arguments listF_Items {F T} _.

(** ** The heap *)

(** What an address may hold: what a pointer, a map or a slice of these types refers to. *)
Inductive cell : Type :=
| CBool (x : bool)
| CTime (x : Z)
| CString (x : string)
| CMap (x : gmap string string)
| CStrings (x : list string)
| CClaimAccesses (x : list BucketClaimAccess)
| CAccessed (x : list AccessedBucket)
| COwners (x : list (OwnerReferenceF href))
| CBytes (x : list ascii)
| CFieldsV1 (x : FieldsV1F href)
| CManaged (x : list (ManagedFieldsEntryF href))
| CError (x : TimestampedErrorF href)
| CBucketSpec (x : BucketSpecF href)
| CBucketStatus (x : BucketStatusF href)
| CBucket (x : BucketF href)
| CBuckets (x : list (BucketF href))
| CBucketList (x : ListF href (BucketF href))
| CClaimSpec (x : BucketClaimSpecF href)
| CClaimStatus (x : BucketClaimStatusF href)
| CClaim (x : BucketClaimF href)
| CClaims (x : list (BucketClaimF href))
| CClaimList (x : ListF href (BucketClaimF href))
| CClassSpec (x : BucketClassSpecF href)
| CClass (x : BucketClassF href)
| CClasses (x : list (BucketClassF href))
| CClassList (x : ListF href (BucketClassF href))
| CAccessClassSpec (x : BucketAccessClassSpecF href)
| CAccessClass (x : BucketAccessClassF href)
| CAccessClasses (x : list (BucketAccessClassF href))
| CAccessClassList (x : ListF href (BucketAccessClassF href))
| CAccessSpec (x : BucketAccessSpecF href)
| CAccessStatus (x : BucketAccessStatusF href)
| CAccess (x : BucketAccessF href)
| CAccesses (x : list (BucketAccessF href))
| CAccessList (x : ListF href (BucketAccessF href))
| CClaimRef (x : BucketClaimReference)
| CClaimAccess (x : BucketClaimAccess)
| CAccessedBucket (x : AccessedBucket).

Abbreviation heap := (gmap loc cell).

(** The types that the cells hold. *)
Class Stored (A : Type) : Type := {
  to_cell : A → cell;
  of_cell : cell → option A;
  of_to_cell a : of_cell (to_cell a) = Some a
}.

#[export] Instance stored_CBool : Stored (bool) :=
  {| to_cell := CBool; of_cell c := match c with CBool x => Some x | _ => None end;
     of_to_cell _ := eq_refl |}.
#[export] Instance stored_CTime : Stored (Z) :=
  {| to_cell := CTime; of_cell c := match c with CTime x => Some x | _ => None end;
     of_to_cell _ := eq_refl |}.
#[export] Instance stored_CString : Stored (string) :=
  {| to_cell := CString; of_cell c := match c with CString x => Some x | _ => None end;
     of_to_cell _ := eq_refl |}.
#[export] Instance stored_CMap : Stored (gmap string string) :=
  {| to_cell := CMap; of_cell c := match c with CMap x => Some x | _ => None end;
     of_to_cell _ := eq_refl |}.
#[export] Instance stored_CStrings : Stored (list string) :=
  {| to_cell := CStrings; of_cell c := match c with CStrings x => Some x | _ => None end;
     of_to_cell _ := eq_refl |}.
#[export] Instance stored_CClaimAccesses : Stored (list BucketClaimAccess) :=
  {| to_cell := CClaimAccesses; of_cell c := match c with CClaimAccesses x => Some x | _ => None end;
     of_to_cell _ := eq_refl |}.
#[export] Instance stored_CAccessed : Stored (list AccessedBucket) :=
  {| to_cell := CAccessed; of_cell c := match c with CAccessed x => Some x | _ => None end;
     of_to_cell _ := eq_refl |}.
#[export] Instance stored_COwners : Stored (list (OwnerReferenceF href)) :=
  {| to_cell := COwners; of_cell c := match c with COwners x => Some x | _ => None end;
     of_to_cell _ := eq_refl |}.
#[export] Instance stored_CBytes : Stored (list ascii) :=
  {| to_cell := CBytes; of_cell c := match c with CBytes x => Some x | _ => None end;
     of_to_cell _ := eq_refl |}.
#[export] Instance stored_CFieldsV1 : Stored (FieldsV1F href) :=
  {| to_cell := CFieldsV1; of_cell c := match c with CFieldsV1 x => Some x | _ => None end;
     of_to_cell _ := eq_refl |}.
#[export] Instance stored_CManaged : Stored (list (ManagedFieldsEntryF href)) :=
  {| to_cell := CManaged; of_cell c := match c with CManaged x => Some x | _ => None end;
     of_to_cell _ := eq_refl |}.
#[export] Instance stored_CError : Stored (TimestampedErrorF href) :=
  {| to_cell := CError; of_cell c := match c with CError x => Some x | _ => None end;
     of_to_cell _ := eq_refl |}.
#[export] Instance stored_CBucketSpec : Stored (BucketSpecF href) :=
  {| to_cell := CBucketSpec; of_cell c := match c with CBucketSpec x => Some x | _ => None end;
     of_to_cell _ := eq_refl |}.
#[export] Instance stored_CBucketStatus : Stored (BucketStatusF href) :=
  {| to_cell := CBucketStatus; of_cell c := match c with CBucketStatus x => Some x | _ => None end;
     of_to_cell _ := eq_refl |}.
#[export] Instance stored_CBucket : Stored (BucketF href) :=
  {| to_cell := CBucket; of_cell c := match c with CBucket x => Some x | _ => None end;
     of_to_cell _ := eq_refl |}.
#[export] Instance stored_CBuckets : Stored (list (BucketF href)) :=
  {| to_cell := CBuckets; of_cell c := match c with CBuckets x => Some x | _ => None end;
     of_to_cell _ := eq_refl |}.
#[export] Instance stored_CBucketList : Stored (ListF href (BucketF href)) :=
  {| to_cell := CBucketList; of_cell c := match c with CBucketList x => Some x | _ => None end;
     of_to_cell _ := eq_refl |}.
#[export] Instance stored_CClaimSpec : Stored (BucketClaimSpecF href) :=
  {| to_cell := CClaimSpec; of_cell c := match c with CClaimSpec x => Some x | _ => None end;
     of_to_cell _ := eq_refl |}.
#[export] Instance stored_CClaimStatus : Stored (BucketClaimStatusF href) :=
  {| to_cell := CClaimStatus; of_cell c := match c with CClaimStatus x => Some x | _ => None end;
     of_to_cell _ := eq_refl |}.
#[export] Instance stored_CClaim : Stored (BucketClaimF href) :=
  {| to_cell := CClaim; of_cell c := match c with CClaim x => Some x | _ => None end;
     of_to_cell _ := eq_refl |}.
#[export] Instance stored_CClaims : Stored (list (BucketClaimF href)) :=
  {| to_cell := CClaims; of_cell c := match c with CClaims x => Some x | _ => None end;
     of_to_cell _ := eq_refl |}.
#[export] Instance stored_CClaimList : Stored (ListF href (BucketClaimF href)) :=
  {| to_cell := CClaimList; of_cell c := match c with CClaimList x => Some x | _ => None end;
     of_to_cell _ := eq_refl |}.
#[export] Instance stored_CClassSpec : Stored (BucketClassSpecF href) :=
  {| to_cell := CClassSpec; of_cell c := match c with CClassSpec x => Some x | _ => None end;
     of_to_cell _ := eq_refl |}.
#[export] Instance stored_CClass : Stored (BucketClassF href) :=
  {| to_cell := CClass; of_cell c := match c with CClass x => Some x | _ => None end;
     of_to_cell _ := eq_refl |}.
#[export] Instance stored_CClasses : Stored (list (BucketClassF href)) :=
  {| to_cell := CClasses; of_cell c := match c with CClasses x => Some x | _ => None end;
     of_to_cell _ := eq_refl |}.
#[export] Instance stored_CClassList : Stored (ListF href (BucketClassF href)) :=
  {| to_cell := CClassList; of_cell c := match c with CClassList x => Some x | _ => None end;
     of_to_cell _ := eq_refl |}.
#[export] Instance stored_CAccessClassSpec : Stored (BucketAccessClassSpecF href) :=
  {| to_cell := CAccessClassSpec; of_cell c := match c with CAccessClassSpec x => Some x | _ => None end;
     of_to_cell _ := eq_refl |}.
#[export] Instance stored_CAccessClass : Stored (BucketAccessClassF href) :=
  {| to_cell := CAccessClass; of_cell c := match c with CAccessClass x => Some x | _ => None end;
     of_to_cell _ := eq_refl |}.
#[export] Instance stored_CAccessClasses : Stored (list (BucketAccessClassF href)) :=
  {| to_cell := CAccessClasses; of_cell c := match c with CAccessClasses x => Some x | _ => None end;
     of_to_cell _ := eq_refl |}.
#[export] Instance stored_CAccessClassList : Stored (ListF href (BucketAccessClassF href)) :=
  {| to_cell := CAccessClassList; of_cell c := match c with CAccessClassList x => Some x | _ => None end;
     of_to_cell _ := eq_refl |}.
#[export] Instance stored_CAccessSpec : Stored (BucketAccessSpecF href) :=
  {| to_cell := CAccessSpec; of_cell c := match c with CAccessSpec x => Some x | _ => None end;
     of_to_cell _ := eq_refl |}.
#[export] Instance stored_CAccessStatus : Stored (BucketAccessStatusF href) :=
  {| to_cell := CAccessStatus; of_cell c := match c with CAccessStatus x => Some x | _ => None end;
     of_to_cell _ := eq_refl |}.
#[export] Instance stored_CAccess : Stored (BucketAccessF href) :=
  {| to_cell := CAccess; of_cell c := match c with CAccess x => Some x | _ => None end;
     of_to_cell _ := eq_refl |}.
#[export] Instance stored_CAccesses : Stored (list (BucketAccessF href)) :=
  {| to_cell := CAccesses; of_cell c := match c with CAccesses x => Some x | _ => None end;
     of_to_cell _ := eq_refl |}.
#[export] Instance stored_CAccessList : Stored (ListF href (BucketAccessF href)) :=
  {| to_cell := CAccessList; of_cell c := match c with CAccessList x => Some x | _ => None end;
     of_to_cell _ := eq_refl |}.
#[export] Instance stored_CClaimRef : Stored (BucketClaimReference) :=
  {| to_cell := CClaimRef; of_cell c := match c with CClaimRef x => Some x | _ => None end;
     of_to_cell _ := eq_refl |}.
#[export] Instance stored_CClaimAccess : Stored (BucketClaimAccess) :=
  {| to_cell := CClaimAccess; of_cell c := match c with CClaimAccess x => Some x | _ => None end;
     of_to_cell _ := eq_refl |}.
#[export] Instance stored_CAccessedBucket : Stored (AccessedBucket) :=
  {| to_cell := CAccessedBucket; of_cell c := match c with CAccessedBucket x => Some x | _ => None end;
     of_to_cell _ := eq_refl |}.

Definition load {A} `{Stored A} (h : heap) (l : loc) : option A := h !! l ≫= of_cell.

(** A computation that allocates. *)
Definition alloc {A} `{Stored A} (a : A) (h : heap) : loc * heap :=
  let l := fresh (dom h) in (l, <[l := to_cell a]> h).

(** ** Copying references

    [if in.X != nil { *out = new(T) or make(T, len( *in)); copy the content }], and with it
    [DeepCopy], which returns nil for nil and a new cell otherwise. [cp] copies the content.
    An address that holds nothing of the type cannot occur in a well-typed program. *)
Definition copy_ref {A} `{Stored A} (cp : A → heap → A * heap) (r : option loc) (h : heap) :
    option loc * heap :=
  match r with
  | None => (None, h)
  | Some l =>
      match load h l with
      | Some a =>
          let '(a, h) := cp a h in
          let '(l, h) := alloc a h in
          (Some l, h)
      | None => (Some l, h)
      end
  end.

(** Content without references: an assignment, or [copy( *out, *in)] for a slice. *)
Definition copy_plain {A} (a : A) (h : heap) : A * heap := (a, h).

(** [for key, val := range *in { ( *out)[key] = val }]. *)
Fixpoint copy_entries (entries : list (string * string)) (out : gmap string string) :
    gmap string string :=
  match entries with
  | [] => out
  | (key, val) :: entries => copy_entries entries (<[key := val]> out)
  end.
Definition copy_map (m : gmap string string) (h : heap) : gmap string string * heap :=
  (copy_entries (map_to_list m) ∅, h).

(** [for i := range *in { ( *in)[i].DeepCopyInto(&( *out)[i]) }]. *)
Fixpoint copy_items {A} (cp : A → heap → A * heap) (items : list A) (h : heap) : list A * heap :=
  match items with
  | [] => ([], h)
  | a :: items =>
      let '(a, h) := cp a h in
      let '(items, h) := copy_items cp items h in
      (a :: items, h)
  end.

(** ** The copies *)

Definition OwnerReference_DeepCopyInto (x : OwnerReferenceF href) (h : heap) :
    OwnerReferenceF href * heap :=
  let '(r1, h) := @copy_ref (bool) _ copy_plain (ownerF_Controller x) h in
  let '(r2, h) := @copy_ref (bool) _ copy_plain (ownerF_BlockOwnerDeletion x) h in
  ({| ownerF_APIVersion := ownerF_APIVersion x;
      ownerF_Kind := ownerF_Kind x;
      ownerF_Name := ownerF_Name x;
      ownerF_UID := ownerF_UID x;
      ownerF_Controller := r1;
      ownerF_BlockOwnerDeletion := r2 |}, h).

Definition FieldsV1_DeepCopyInto (x : FieldsV1F href) (h : heap) :
    FieldsV1F href * heap :=
  let '(r1, h) := @copy_ref (list ascii) _ copy_plain (fieldsV1F_Raw x) h in
  ({| fieldsV1F_Raw := r1 |}, h).

Definition ManagedFieldsEntry_DeepCopyInto (x : ManagedFieldsEntryF href) (h : heap) :
    ManagedFieldsEntryF href * heap :=
  let '(r1, h) := @copy_ref (Z) _ copy_plain (managedF_Time x) h in
  let '(r2, h) := copy_ref FieldsV1_DeepCopyInto (managedF_FieldsV1 x) h in
  ({| managedF_Manager := managedF_Manager x;
      managedF_Operation := managedF_Operation x;
      managedF_APIVersion := managedF_APIVersion x;
      managedF_Time := r1;
      managedF_FieldsType := managedF_FieldsType x;
      managedF_FieldsV1 := r2;
      managedF_Subresource := managedF_Subresource x |}, h).

Definition ObjectMeta_DeepCopyInto (x : ObjectMetaF href) (h : heap) :
    ObjectMetaF href * heap :=
  let '(r1, h) := @copy_ref (Z) _ copy_plain (metaF_DeletionTimestamp x) h in
  let '(r2, h) := @copy_ref (Z) _ copy_plain (metaF_DeletionGracePeriodSeconds x) h in
  let '(r3, h) := copy_ref copy_map (metaF_Labels x) h in
  let '(r4, h) := copy_ref copy_map (metaF_Annotations x) h in
  let '(r5, h) := copy_ref (copy_items OwnerReference_DeepCopyInto) (metaF_OwnerReferences x) h in
  let '(r6, h) := @copy_ref (list string) _ copy_plain (metaF_Finalizers x) h in
  let '(r7, h) := copy_ref (copy_items ManagedFieldsEntry_DeepCopyInto) (metaF_ManagedFields x) h in
  ({| metaF_Name := metaF_Name x;
      metaF_GenerateName := metaF_GenerateName x;
      metaF_Namespace := metaF_Namespace x;
      metaF_SelfLink := metaF_SelfLink x;
      metaF_UID := metaF_UID x;
      metaF_ResourceVersion := metaF_ResourceVersion x;
      metaF_Generation := metaF_Generation x;
      metaF_CreationTimestamp := metaF_CreationTimestamp x;
      metaF_DeletionTimestamp := r1;
      metaF_DeletionGracePeriodSeconds := r2;
      metaF_Labels := r3;
      metaF_Annotations := r4;
      metaF_OwnerReferences := r5;
      metaF_Finalizers := r6;
      metaF_ManagedFields := r7 |}, h).

Definition ListMeta_DeepCopyInto (x : ListMetaF href) (h : heap) :
    ListMetaF href * heap :=
  let '(r1, h) := @copy_ref (Z) _ copy_plain (listMetaF_RemainingItemCount x) h in
  ({| listMetaF_SelfLink := listMetaF_SelfLink x;
      listMetaF_ResourceVersion := listMetaF_ResourceVersion x;
      listMetaF_Continue := listMetaF_Continue x;
      listMetaF_RemainingItemCount := r1 |}, h).

Definition TimestampedError_DeepCopyInto (x : TimestampedErrorF href) (h : heap) :
    TimestampedErrorF href * heap :=
  let '(r1, h) := @copy_ref (Z) _ copy_plain (tserrF_Time x) h in
  let '(r2, h) := @copy_ref (string) _ copy_plain (tserrF_Message x) h in
  ({| tserrF_Time := r1;
      tserrF_Message := r2 |}, h).

Definition BucketSpec_DeepCopyInto (x : BucketSpecF href) (h : heap) :
    BucketSpecF href * heap :=
  let '(r1, h) := copy_ref copy_map (bucketSpecF_Parameters x) h in
  let '(r2, h) := @copy_ref (list string) _ copy_plain (bucketSpecF_Protocols x) h in
  ({| bucketSpecF_DriverName := bucketSpecF_DriverName x;
      bucketSpecF_DeletionPolicy := bucketSpecF_DeletionPolicy x;
      bucketSpecF_Parameters := r1;
      bucketSpecF_Protocols := r2;
      bucketSpecF_BucketClaimRef := bucketSpecF_BucketClaimRef x;
      bucketSpecF_ExistingBucketID := bucketSpecF_ExistingBucketID x |}, h).

Definition BucketStatus_DeepCopyInto (x : BucketStatusF href) (h : heap) :
    BucketStatusF href * heap :=
  let '(r1, h) := @copy_ref (bool) _ copy_plain (bucketStatusF_ReadyToUse x) h in
  let '(r2, h) := @copy_ref (list string) _ copy_plain (bucketStatusF_Protocols x) h in
  let '(r3, h) := copy_ref copy_map (bucketStatusF_BucketInfo x) h in
  let '(r4, h) := copy_ref TimestampedError_DeepCopyInto (bucketStatusF_Error x) h in
  ({| bucketStatusF_ReadyToUse := r1;
      bucketStatusF_BucketID := bucketStatusF_BucketID x;
      bucketStatusF_Protocols := r2;
      bucketStatusF_BucketInfo := r3;
      bucketStatusF_Error := r4 |}, h).

Definition Bucket_DeepCopyInto (x : BucketF href) (h : heap) :
    BucketF href * heap :=
  let '(r1, h) := ObjectMeta_DeepCopyInto (bucketF_ObjectMeta x) h in
  let '(r2, h) := BucketSpec_DeepCopyInto (bucketF_Spec x) h in
  let '(r3, h) := BucketStatus_DeepCopyInto (bucketF_Status x) h in
  ({| bucketF_TypeMeta := bucketF_TypeMeta x;
      bucketF_ObjectMeta := r1;
      bucketF_Spec := r2;
      bucketF_Status := r3 |}, h).

Definition BucketClaimSpec_DeepCopyInto (x : BucketClaimSpecF href) (h : heap) :
    BucketClaimSpecF href * heap :=
  let '(r1, h) := @copy_ref (list string) _ copy_plain (claimSpecF_Protocols x) h in
  ({| claimSpecF_BucketClassName := claimSpecF_BucketClassName x;
      claimSpecF_Protocols := r1;
      claimSpecF_ExistingBucketName := claimSpecF_ExistingBucketName x |}, h).

Definition BucketClaimStatus_DeepCopyInto (x : BucketClaimStatusF href) (h : heap) :
    BucketClaimStatusF href * heap :=
  let '(r1, h) := @copy_ref (bool) _ copy_plain (claimStatusF_ReadyToUse x) h in
  let '(r2, h) := @copy_ref (list string) _ copy_plain (claimStatusF_Protocols x) h in
  let '(r3, h) := copy_ref TimestampedError_DeepCopyInto (claimStatusF_Error x) h in
  ({| claimStatusF_BoundBucketName := claimStatusF_BoundBucketName x;
      claimStatusF_ReadyToUse := r1;
      claimStatusF_Protocols := r2;
      claimStatusF_Error := r3 |}, h).

Definition BucketClaim_DeepCopyInto (x : BucketClaimF href) (h : heap) :
    BucketClaimF href * heap :=
  let '(r1, h) := ObjectMeta_DeepCopyInto (claimF_ObjectMeta x) h in
  let '(r2, h) := BucketClaimSpec_DeepCopyInto (claimF_Spec x) h in
  let '(r3, h) := BucketClaimStatus_DeepCopyInto (claimF_Status x) h in
  ({| claimF_TypeMeta := claimF_TypeMeta x;
      claimF_ObjectMeta := r1;
      claimF_Spec := r2;
      claimF_Status := r3 |}, h).

Definition BucketClassSpec_DeepCopyInto (x : BucketClassSpecF href) (h : heap) :
    BucketClassSpecF href * heap :=
  let '(r1, h) := copy_ref copy_map (classSpecF_Parameters x) h in
  ({| classSpecF_DriverName := classSpecF_DriverName x;
      classSpecF_DeletionPolicy := classSpecF_DeletionPolicy x;
      classSpecF_Parameters := r1 |}, h).

Definition BucketClass_DeepCopyInto (x : BucketClassF href) (h : heap) :
    BucketClassF href * heap :=
  let '(r1, h) := ObjectMeta_DeepCopyInto (classF_ObjectMeta x) h in
  let '(r2, h) := BucketClassSpec_DeepCopyInto (classF_Spec x) h in
  ({| classF_TypeMeta := classF_TypeMeta x;
      classF_ObjectMeta := r1;
      classF_Spec := r2 |}, h).

Definition BucketAccessClassSpec_DeepCopyInto (x : BucketAccessClassSpecF href) (h : heap) :
    BucketAccessClassSpecF href * heap :=
  let '(r1, h) := copy_ref copy_map (accessClassSpecF_Parameters x) h in
  let '(r2, h) := @copy_ref (list string) _ copy_plain (accessClassSpecF_DisallowedBucketAccessModes x) h in
  ({| accessClassSpecF_DriverName := accessClassSpecF_DriverName x;
      accessClassSpecF_AuthenticationType := accessClassSpecF_AuthenticationType x;
      accessClassSpecF_Parameters := r1;
      accessClassSpecF_DisallowedBucketAccessModes := r2;
      accessClassSpecF_MultiBucketAccess := accessClassSpecF_MultiBucketAccess x |}, h).

Definition BucketAccessClass_DeepCopyInto (x : BucketAccessClassF href) (h : heap) :
    BucketAccessClassF href * heap :=
  let '(r1, h) := ObjectMeta_DeepCopyInto (accessClassF_ObjectMeta x) h in
  let '(r2, h) := BucketAccessClassSpec_DeepCopyInto (accessClassF_Spec x) h in
  ({| accessClassF_TypeMeta := accessClassF_TypeMeta x;
      accessClassF_ObjectMeta := r1;
      accessClassF_Spec := r2 |}, h).

Definition BucketAccessSpec_DeepCopyInto (x : BucketAccessSpecF href) (h : heap) :
    BucketAccessSpecF href * heap :=
  let '(r1, h) := @copy_ref (list BucketClaimAccess) _ copy_plain (accessSpecF_BucketClaims x) h in
  ({| accessSpecF_BucketClaims := r1;
      accessSpecF_BucketAccessClassName := accessSpecF_BucketAccessClassName x;
      accessSpecF_Protocol := accessSpecF_Protocol x;
      accessSpecF_ServiceAccountName := accessSpecF_ServiceAccountName x |}, h).

Definition BucketAccessStatus_DeepCopyInto (x : BucketAccessStatusF href) (h : heap) :
    BucketAccessStatusF href * heap :=
  let '(r1, h) := @copy_ref (bool) _ copy_plain (accessStatusF_ReadyToUse x) h in
  let '(r2, h) := @copy_ref (list AccessedBucket) _ copy_plain (accessStatusF_AccessedBuckets x) h in
  let '(r3, h) := copy_ref copy_map (accessStatusF_Parameters x) h in
  let '(r4, h) := copy_ref TimestampedError_DeepCopyInto (accessStatusF_Error x) h in
  ({| accessStatusF_ReadyToUse := r1;
      accessStatusF_AccountID := accessStatusF_AccountID x;
      accessStatusF_AccessedBuckets := r2;
      accessStatusF_DriverName := accessStatusF_DriverName x;
      accessStatusF_AuthenticationType := accessStatusF_AuthenticationType x;
      accessStatusF_Parameters := r3;
      accessStatusF_Error := r4 |}, h).

Definition BucketAccess_DeepCopyInto (x : BucketAccessF href) (h : heap) :
    BucketAccessF href * heap :=
  let '(r1, h) := ObjectMeta_DeepCopyInto (accessF_ObjectMeta x) h in
  let '(r2, h) := BucketAccessSpec_DeepCopyInto (accessF_Spec x) h in
  let '(r3, h) := BucketAccessStatus_DeepCopyInto (accessF_Status x) h in
  ({| accessF_TypeMeta := accessF_TypeMeta x;
      accessF_ObjectMeta := r1;
      accessF_Spec := r2;
      accessF_Status := r3 |}, h).

Section list.
Context {T : Type} `{Stored (list T)} (cp : T → heap → T * heap).
Definition List_DeepCopyInto (x : ListF href T) (h : heap) :
    ListF href T * heap :=
  let '(r1, h) := ListMeta_DeepCopyInto (listF_ListMeta x) h in
  let '(r2, h) := copy_ref (copy_items cp) (listF_Items x) h in
  ({| listF_TypeMeta := listF_TypeMeta x;
      listF_ListMeta := r1;
      listF_Items := r2 |}, h).
End list.

(** [*out = *in]. *)
Definition AccessedBucket_DeepCopyInto (x : AccessedBucket) (h : heap) : AccessedBucket * heap := copy_plain x h.
(** [*out = *in]. *)
Definition BucketClaimAccess_DeepCopyInto (x : BucketClaimAccess) (h : heap) : BucketClaimAccess * heap := copy_plain x h.
(** [*out = *in]. *)
Definition BucketClaimReference_DeepCopyInto (x : BucketClaimReference) (h : heap) : BucketClaimReference * heap := copy_plain x h.

Definition BucketAccessClassList_DeepCopyInto : ListF href (BucketAccessClassF href) → heap → ListF href (BucketAccessClassF href) * heap :=
  List_DeepCopyInto BucketAccessClass_DeepCopyInto.
Definition BucketAccessList_DeepCopyInto : ListF href (BucketAccessF href) → heap → ListF href (BucketAccessF href) * heap :=
  List_DeepCopyInto BucketAccess_DeepCopyInto.
Definition BucketClaimList_DeepCopyInto : ListF href (BucketClaimF href) → heap → ListF href (BucketClaimF href) * heap :=
  List_DeepCopyInto BucketClaim_DeepCopyInto.
Definition BucketClassList_DeepCopyInto : ListF href (BucketClassF href) → heap → ListF href (BucketClassF href) * heap :=
  List_DeepCopyInto BucketClass_DeepCopyInto.
Definition BucketList_DeepCopyInto : ListF href (BucketF href) → heap → ListF href (BucketF href) * heap :=
  List_DeepCopyInto Bucket_DeepCopyInto.

(** [DeepCopy] of a pointer: nil for nil, otherwise [new] and [DeepCopyInto]. *)
Definition AccessedBucket_DeepCopy (p : option loc) (h : heap) : option loc * heap :=
  copy_ref AccessedBucket_DeepCopyInto p h.
Definition Bucket_DeepCopy (p : option loc) (h : heap) : option loc * heap :=
  copy_ref Bucket_DeepCopyInto p h.
Definition BucketAccess_DeepCopy (p : option loc) (h : heap) : option loc * heap :=
  copy_ref BucketAccess_DeepCopyInto p h.
Definition BucketAccessClass_DeepCopy (p : option loc) (h : heap) : option loc * heap :=
  copy_ref BucketAccessClass_DeepCopyInto p h.
Definition BucketAccessClassList_DeepCopy (p : option loc) (h : heap) : option loc * heap :=
  copy_ref BucketAccessClassList_DeepCopyInto p h.
Definition BucketAccessClassSpec_DeepCopy (p : option loc) (h : heap) : option loc * heap :=
  copy_ref BucketAccessClassSpec_DeepCopyInto p h.
Definition BucketAccessList_DeepCopy (p : option loc) (h : heap) : option loc * heap :=
  copy_ref BucketAccessList_DeepCopyInto p h.
Definition BucketAccessSpec_DeepCopy (p : option loc) (h : heap) : option loc * heap :=
  copy_ref BucketAccessSpec_DeepCopyInto p h.
Definition BucketAccessStatus_DeepCopy (p : option loc) (h : heap) : option loc * heap :=
  copy_ref BucketAccessStatus_DeepCopyInto p h.
Definition BucketClaim_DeepCopy (p : option loc) (h : heap) : option loc * heap :=
  copy_ref BucketClaim_DeepCopyInto p h.
Definition BucketClaimAccess_DeepCopy (p : option loc) (h : heap) : option loc * heap :=
  copy_ref BucketClaimAccess_DeepCopyInto p h.
Definition BucketClaimList_DeepCopy (p : option loc) (h : heap) : option loc * heap :=
  copy_ref BucketClaimList_DeepCopyInto p h.
Definition BucketClaimReference_DeepCopy (p : option loc) (h : heap) : option loc * heap :=
  copy_ref BucketClaimReference_DeepCopyInto p h.
Definition BucketClaimSpec_DeepCopy (p : option loc) (h : heap) : option loc * heap :=
  copy_ref BucketClaimSpec_DeepCopyInto p h.
Definition BucketClaimStatus_DeepCopy (p : option loc) (h : heap) : option loc * heap :=
  copy_ref BucketClaimStatus_DeepCopyInto p h.
Definition BucketClass_DeepCopy (p : option loc) (h : heap) : option loc * heap :=
  copy_ref BucketClass_DeepCopyInto p h.
Definition BucketClassList_DeepCopy (p : option loc) (h : heap) : option loc * heap :=
  copy_ref BucketClassList_DeepCopyInto p h.
Definition BucketClassSpec_DeepCopy (p : option loc) (h : heap) : option loc * heap :=
  copy_ref BucketClassSpec_DeepCopyInto p h.
Definition BucketList_DeepCopy (p : option loc) (h : heap) : option loc * heap :=
  copy_ref BucketList_DeepCopyInto p h.
Definition BucketSpec_DeepCopy (p : option loc) (h : heap) : option loc * heap :=
  copy_ref BucketSpec_DeepCopyInto p h.
Definition BucketStatus_DeepCopy (p : option loc) (h : heap) : option loc * heap :=
  copy_ref BucketStatus_DeepCopyInto p h.
Definition TimestampedError_DeepCopy (p : option loc) (h : heap) : option loc * heap :=
  copy_ref TimestampedError_DeepCopyInto p h.

(** [DeepCopyObject]: the copy as a [runtime.Object], the nil interface for a nil copy. *)
Definition deep_copy_object (c : option loc * heap) : option loc * heap :=
  match c with
  | (Some l, h) => (Some l, h)
  | (None, h) => (None, h)
  end.
Definition Bucket_DeepCopyObject (p : option loc) (h : heap) : option loc * heap :=
  deep_copy_object (Bucket_DeepCopy p h).
Definition BucketAccess_DeepCopyObject (p : option loc) (h : heap) : option loc * heap :=
  deep_copy_object (BucketAccess_DeepCopy p h).
Definition BucketAccessClass_DeepCopyObject (p : option loc) (h : heap) : option loc * heap :=
  deep_copy_object (BucketAccessClass_DeepCopy p h).
Definition BucketAccessClassList_DeepCopyObject (p : option loc) (h : heap) : option loc * heap :=
  deep_copy_object (BucketAccessClassList_DeepCopy p h).
Definition BucketAccessList_DeepCopyObject (p : option loc) (h : heap) : option loc * heap :=
  deep_copy_object (BucketAccessList_DeepCopy p h).
Definition BucketClaim_DeepCopyObject (p : option loc) (h : heap) : option loc * heap :=
  deep_copy_object (BucketClaim_DeepCopy p h).
Definition BucketClaimList_DeepCopyObject (p : option loc) (h : heap) : option loc * heap :=
  deep_copy_object (BucketClaimList_DeepCopy p h).
Definition BucketClass_DeepCopyObject (p : option loc) (h : heap) : option loc * heap :=
  deep_copy_object (BucketClass_DeepCopy p h).
Definition BucketClassList_DeepCopyObject (p : option loc) (h : heap) : option loc * heap :=
  deep_copy_object (BucketClassList_DeepCopy p h).
Definition BucketList_DeepCopyObject (p : option loc) (h : heap) : option loc * heap :=
  deep_copy_object (BucketList_DeepCopy p h).

(** ** What a struct reads as

    [None] when a reference does not hold what its type says. *)

Definition val_plain {A} (h : heap) (a : A) : option A := Some a.
Definition val_ref {A B} `{Stored A} (rd : heap → A → option B) (h : heap) (r : option loc) :
    option (option B) :=
  match r with
  | None => Some None
  | Some l => a ← load h l; b ← rd h a; Some (Some b)
  end.
Definition val_items {A B} (rd : heap → A → option B) (h : heap) (l : list A) : option (list B) :=
  mapM (rd h) l.

Definition OwnerReference_val (h : heap) (x : OwnerReferenceF href) : option (OwnerReferenceF option) :=
  r1 ← val_ref (A:=bool) val_plain h (ownerF_Controller x);
  r2 ← val_ref (A:=bool) val_plain h (ownerF_BlockOwnerDeletion x);
  Some {| ownerF_APIVersion := ownerF_APIVersion x;
      ownerF_Kind := ownerF_Kind x;
      ownerF_Name := ownerF_Name x;
      ownerF_UID := ownerF_UID x;
      ownerF_Controller := r1;
      ownerF_BlockOwnerDeletion := r2 |}.

Definition FieldsV1_val (h : heap) (x : FieldsV1F href) : option (FieldsV1F option) :=
  r1 ← val_ref (A:=(list ascii)) val_plain h (fieldsV1F_Raw x);
  Some {| fieldsV1F_Raw := r1 |}.

Definition ManagedFieldsEntry_val (h : heap) (x : ManagedFieldsEntryF href) : option (ManagedFieldsEntryF option) :=
  r1 ← val_ref (A:=Z) val_plain h (managedF_Time x);
  r2 ← val_ref FieldsV1_val h (managedF_FieldsV1 x);
  Some {| managedF_Manager := managedF_Manager x;
      managedF_Operation := managedF_Operation x;
      managedF_APIVersion := managedF_APIVersion x;
      managedF_Time := r1;
      managedF_FieldsType := managedF_FieldsType x;
      managedF_FieldsV1 := r2;
      managedF_Subresource := managedF_Subresource x |}.

Definition ObjectMeta_val (h : heap) (x : ObjectMetaF href) : option (ObjectMetaF option) :=
  r1 ← val_ref (A:=Z) val_plain h (metaF_DeletionTimestamp x);
  r2 ← val_ref (A:=Z) val_plain h (metaF_DeletionGracePeriodSeconds x);
  r3 ← val_ref (A:=(gmap string string)) val_plain h (metaF_Labels x);
  r4 ← val_ref (A:=(gmap string string)) val_plain h (metaF_Annotations x);
  r5 ← val_ref (val_items OwnerReference_val) h (metaF_OwnerReferences x);
  r6 ← val_ref (A:=(list string)) val_plain h (metaF_Finalizers x);
  r7 ← val_ref (val_items ManagedFieldsEntry_val) h (metaF_ManagedFields x);
  Some {| metaF_Name := metaF_Name x;
      metaF_GenerateName := metaF_GenerateName x;
      metaF_Namespace := metaF_Namespace x;
      metaF_SelfLink := metaF_SelfLink x;
      metaF_UID := metaF_UID x;
      metaF_ResourceVersion := metaF_ResourceVersion x;
      metaF_Generation := metaF_Generation x;
      metaF_CreationTimestamp := metaF_CreationTimestamp x;
      metaF_DeletionTimestamp := r1;
      metaF_DeletionGracePeriodSeconds := r2;
      metaF_Labels := r3;
      metaF_Annotations := r4;
      metaF_OwnerReferences := r5;
      metaF_Finalizers := r6;
      metaF_ManagedFields := r7 |}.

Definition ListMeta_val (h : heap) (x : ListMetaF href) : option (ListMetaF option) :=
  r1 ← val_ref (A:=Z) val_plain h (listMetaF_RemainingItemCount x);
  Some {| listMetaF_SelfLink := listMetaF_SelfLink x;
      listMetaF_ResourceVersion := listMetaF_ResourceVersion x;
      listMetaF_Continue := listMetaF_Continue x;
      listMetaF_RemainingItemCount := r1 |}.

Definition TimestampedError_val (h : heap) (x : TimestampedErrorF href) : option (TimestampedErrorF option) :=
  r1 ← val_ref (A:=Z) val_plain h (tserrF_Time x);
  r2 ← val_ref (A:=string) val_plain h (tserrF_Message x);
  Some {| tserrF_Time := r1;
      tserrF_Message := r2 |}.

Definition BucketSpec_val (h : heap) (x : BucketSpecF href) : option (BucketSpecF option) :=
  r1 ← val_ref (A:=(gmap string string)) val_plain h (bucketSpecF_Parameters x);
  r2 ← val_ref (A:=(list string)) val_plain h (bucketSpecF_Protocols x);
  Some {| bucketSpecF_DriverName := bucketSpecF_DriverName x;
      bucketSpecF_DeletionPolicy := bucketSpecF_DeletionPolicy x;
      bucketSpecF_Parameters := r1;
      bucketSpecF_Protocols := r2;
      bucketSpecF_BucketClaimRef := bucketSpecF_BucketClaimRef x;
      bucketSpecF_ExistingBucketID := bucketSpecF_ExistingBucketID x |}.

Definition BucketStatus_val (h : heap) (x : BucketStatusF href) : option (BucketStatusF option) :=
  r1 ← val_ref (A:=bool) val_plain h (bucketStatusF_ReadyToUse x);
  r2 ← val_ref (A:=(list string)) val_plain h (bucketStatusF_Protocols x);
  r3 ← val_ref (A:=(gmap string string)) val_plain h (bucketStatusF_BucketInfo x);
  r4 ← val_ref TimestampedError_val h (bucketStatusF_Error x);
  Some {| bucketStatusF_ReadyToUse := r1;
      bucketStatusF_BucketID := bucketStatusF_BucketID x;
      bucketStatusF_Protocols := r2;
      bucketStatusF_BucketInfo := r3;
      bucketStatusF_Error := r4 |}.

Definition Bucket_val (h : heap) (x : BucketF href) : option (BucketF option) :=
  r1 ← ObjectMeta_val h (bucketF_ObjectMeta x);
  r2 ← BucketSpec_val h (bucketF_Spec x);
  r3 ← BucketStatus_val h (bucketF_Status x);
  Some {| bucketF_TypeMeta := bucketF_TypeMeta x;
      bucketF_ObjectMeta := r1;
      bucketF_Spec := r2;
      bucketF_Status := r3 |}.

Definition BucketClaimSpec_val (h : heap) (x : BucketClaimSpecF href) : option (BucketClaimSpecF option) :=
  r1 ← val_ref (A:=(list string)) val_plain h (claimSpecF_Protocols x);
  Some {| claimSpecF_BucketClassName := claimSpecF_BucketClassName x;
      claimSpecF_Protocols := r1;
      claimSpecF_ExistingBucketName := claimSpecF_ExistingBucketName x |}.

Definition BucketClaimStatus_val (h : heap) (x : BucketClaimStatusF href) : option (BucketClaimStatusF option) :=
  r1 ← val_ref (A:=bool) val_plain h (claimStatusF_ReadyToUse x);
  r2 ← val_ref (A:=(list string)) val_plain h (claimStatusF_Protocols x);
  r3 ← val_ref TimestampedError_val h (claimStatusF_Error x);
  Some {| claimStatusF_BoundBucketName := claimStatusF_BoundBucketName x;
      claimStatusF_ReadyToUse := r1;
      claimStatusF_Protocols := r2;
      claimStatusF_Error := r3 |}.

Definition BucketClaim_val (h : heap) (x : BucketClaimF href) : option (BucketClaimF option) :=
  r1 ← ObjectMeta_val h (claimF_ObjectMeta x);
  r2 ← BucketClaimSpec_val h (claimF_Spec x);
  r3 ← BucketClaimStatus_val h (claimF_Status x);
  Some {| claimF_TypeMeta := claimF_TypeMeta x;
      claimF_ObjectMeta := r1;
      claimF_Spec := r2;
      claimF_Status := r3 |}.

Definition BucketClassSpec_val (h : heap) (x : BucketClassSpecF href) : option (BucketClassSpecF option) :=
  r1 ← val_ref (A:=(gmap string string)) val_plain h (classSpecF_Parameters x);
  Some {| classSpecF_DriverName := classSpecF_DriverName x;
      classSpecF_DeletionPolicy := classSpecF_DeletionPolicy x;
      classSpecF_Parameters := r1 |}.

Definition BucketClass_val (h : heap) (x : BucketClassF href) : option (BucketClassF option) :=
  r1 ← ObjectMeta_val h (classF_ObjectMeta x);
  r2 ← BucketClassSpec_val h (classF_Spec x);
  Some {| classF_TypeMeta := classF_TypeMeta x;
      classF_ObjectMeta := r1;
      classF_Spec := r2 |}.

Definition BucketAccessClassSpec_val (h : heap) (x : BucketAccessClassSpecF href) : option (BucketAccessClassSpecF option) :=
  r1 ← val_ref (A:=(gmap string string)) val_plain h (accessClassSpecF_Parameters x);
  r2 ← val_ref (A:=(list string)) val_plain h (accessClassSpecF_DisallowedBucketAccessModes x);
  Some {| accessClassSpecF_DriverName := accessClassSpecF_DriverName x;
      accessClassSpecF_AuthenticationType := accessClassSpecF_AuthenticationType x;
      accessClassSpecF_Parameters := r1;
      accessClassSpecF_DisallowedBucketAccessModes := r2;
      accessClassSpecF_MultiBucketAccess := accessClassSpecF_MultiBucketAccess x |}.

Definition BucketAccessClass_val (h : heap) (x : BucketAccessClassF href) : option (BucketAccessClassF option) :=
  r1 ← ObjectMeta_val h (accessClassF_ObjectMeta x);
  r2 ← BucketAccessClassSpec_val h (accessClassF_Spec x);
  Some {| accessClassF_TypeMeta := accessClassF_TypeMeta x;
      accessClassF_ObjectMeta := r1;
      accessClassF_Spec := r2 |}.

Definition BucketAccessSpec_val (h : heap) (x : BucketAccessSpecF href) : option (BucketAccessSpecF option) :=
  r1 ← val_ref (A:=(list BucketClaimAccess)) val_plain h (accessSpecF_BucketClaims x);
  Some {| accessSpecF_BucketClaims := r1;
      accessSpecF_BucketAccessClassName := accessSpecF_BucketAccessClassName x;
      accessSpecF_Protocol := accessSpecF_Protocol x;
      accessSpecF_ServiceAccountName := accessSpecF_ServiceAccountName x |}.

Definition BucketAccessStatus_val (h : heap) (x : BucketAccessStatusF href) : option (BucketAccessStatusF option) :=
  r1 ← val_ref (A:=bool) val_plain h (accessStatusF_ReadyToUse x);
  r2 ← val_ref (A:=(list AccessedBucket)) val_plain h (accessStatusF_AccessedBuckets x);
  r3 ← val_ref (A:=(gmap string string)) val_plain h (accessStatusF_Parameters x);
  r4 ← val_ref TimestampedError_val h (accessStatusF_Error x);
  Some {| accessStatusF_ReadyToUse := r1;
      accessStatusF_AccountID := accessStatusF_AccountID x;
      accessStatusF_AccessedBuckets := r2;
      accessStatusF_DriverName := accessStatusF_DriverName x;
      accessStatusF_AuthenticationType := accessStatusF_AuthenticationType x;
      accessStatusF_Parameters := r3;
      accessStatusF_Error := r4 |}.

Definition BucketAccess_val (h : heap) (x : BucketAccessF href) : option (BucketAccessF option) :=
  r1 ← ObjectMeta_val h (accessF_ObjectMeta x);
  r2 ← BucketAccessSpec_val h (accessF_Spec x);
  r3 ← BucketAccessStatus_val h (accessF_Status x);
  Some {| accessF_TypeMeta := accessF_TypeMeta x;
      accessF_ObjectMeta := r1;
      accessF_Spec := r2;
      accessF_Status := r3 |}.

Section list_val.
Context {T V : Type} `{Stored (list T)} (rd : heap → T → option V).
Definition List_val (h : heap) (x : ListF href T) : option (ListF option V) :=
  r1 ← ListMeta_val h (listF_ListMeta x);
  r2 ← val_ref (val_items rd) h (listF_Items x);
  Some {| listF_TypeMeta := listF_TypeMeta x;
      listF_ListMeta := r1;
      listF_Items := r2 |}.
End list_val.

(** ** What makes a copy deep

    [Reads rd]: what a struct reads as is kept when the heap grows. [Copies cp rd]: the copy
    keeps all cells, and reads the same as the original in the new cells alone. *)

Class Reads {A B} (rd : heap → A → option B) : Prop :=
  reads_mono h h' a v : h ⊆ h' → rd h a = Some v → rd h' a = Some v.
Class Copies {A B} (cp : A → heap → A * heap) (rd : heap → A → option B) : Prop :=
  copies_new h a v : rd h a = Some v →
    h ⊆ (cp a h).2 ∧ rd ((cp a h).2 ∖ h) (cp a h).1 = Some v.

Lemma difference_mono (h0 h h' : heap) : h ⊆ h' → h ∖ h0 ⊆ h' ∖ h0.
Proof.
  intros Hs. apply map_subseteq_spec. intros l c. rewrite !lookup_difference_Some.
  intros [Hl Hn]. split; [|done]. by eapply lookup_weaken.
Qed.
Lemma difference_anti (h0 h h' : heap) : h0 ⊆ h → h' ∖ h ⊆ h' ∖ h0.
Proof.
  intros Hs. apply map_subseteq_spec. intros l c. rewrite !lookup_difference_Some.
  intros [Hl Hn]. split; [done|]. by eapply lookup_weaken_None.
Qed.

(** The copy of a field, made when the heap has grown from [h0] to [h] by the copies of
    the fields before it. *)
Lemma copies_run {A B} cp (rd : heap → A → option B) `{!Reads rd, !Copies cp rd} h0 h a v a' h' :
  h0 ⊆ h → rd h0 a = Some v → cp a h = (a', h') →
  h0 ⊆ h' ∧ h ⊆ h' ∧ rd (h' ∖ h0) a' = Some v.
Proof.
  intros Hs Hv Hcp. pose proof (copies_new h a v (reads_mono _ _ _ _ Hs Hv)) as [Hs' Hv'].
  rewrite Hcp in Hs', Hv'. cbn in *. split_and!; [by etransitivity|done|].
  eapply reads_mono; [|exact Hv']. by apply difference_anti.
Qed.

#[export] Instance plain_reads {A} : Reads (@val_plain A).
Proof. by intros h h' a v _ [= ->]. Qed.
#[export] Instance plain_copies {A} : Copies (@copy_plain A) val_plain.
Proof. by intros h a v [= ->]. Qed.

Lemma copy_entries_spec entries out :
  NoDup entries.*1 → (∀ k, k ∈ entries.*1 → out !! k = None) →
  copy_entries entries out = list_to_map entries ∪ out.
Proof.
  revert out. induction entries as [|[k x] entries IH]; intros out Hnd Hout; cbn.
  - by rewrite map_empty_union.
  - apply NoDup_cons in Hnd as [Hk Hnd]. rewrite IH; [|done|].
    + rewrite insert_union_singleton_l, (insert_union_singleton_l (list_to_map entries)).
      rewrite map_union_assoc. f_equal. apply map_union_comm, map_disjoint_singleton_r.
      by apply not_elem_of_list_to_map_1.
    + intros k' Hk'. rewrite lookup_insert_ne by (by intros ->). apply Hout. by right.
Qed.

Lemma copy_map_same m h : copy_map m h = (m, h).
Proof.
  unfold copy_map. rewrite copy_entries_spec.
  - by rewrite list_to_map_to_list, map_union_empty.
  - apply NoDup_fst_map_to_list.
  - intros k _. apply lookup_empty.
Qed.
#[export] Instance map_copies : Copies copy_map val_plain.
Proof. intros h a v [= ->]. by rewrite copy_map_same. Qed.

Lemma load_mono {A} `{Stored A} (h h' : heap) l (a : A) :
  h ⊆ h' → load h l = Some a → load h' l = Some a.
Proof.
  unfold load. intros Hs (c & Hl & Hc)%bind_Some. by rewrite (lookup_weaken _ _ _ _ Hl Hs).
Qed.

#[export] Instance ref_reads {A B} `{Stored A} (rd : heap → A → option B) :
  Reads rd → Reads (val_ref rd).
Proof.
  intros Hrd h h' [l|] v Hs; cbn; [|done].
  intros (a & Hl & (b & Hb & Hv)%bind_Some)%bind_Some.
  rewrite (load_mono _ _ _ _ Hs Hl). cbn. by rewrite (Hrd _ _ _ _ Hs Hb).
Qed.
#[export] Instance ref_copies {A B} `{Stored A} cp (rd : heap → A → option B) :
  Reads rd → Copies cp rd → Copies (copy_ref cp) (val_ref rd).
Proof.
  intros Hrd Hcp h [l|] v; cbn; [|done].
  intros (a & Hl & (b & Hb & [= <-])%bind_Some)%bind_Some. rewrite Hl.
  destruct (Hcp h a b Hb) as [Hs Hv]. destruct (cp a h) as [a' h1]. cbn in *.
  set (l' := fresh (dom h1)).
  assert (h1 !! l' = None) as Hf by (apply not_elem_of_dom, is_fresh).
  assert (h1 ⊆ <[l' := to_cell a']> h1) as Hs1 by (by apply insert_subseteq).
  split; [by etransitivity|].
  assert ((<[l' := to_cell a']> h1 ∖ h) !! l' = Some (to_cell a')) as Hl'.
  { rewrite lookup_difference_Some, lookup_insert_eq. split; [done|].
    by eapply lookup_weaken_None. }
  unfold load. rewrite Hl'. cbn. rewrite of_to_cell. cbn.
  by rewrite (Hrd _ _ _ _ (difference_mono h _ _ Hs1) Hv).
Qed.

#[export] Instance items_reads {A B} (rd : heap → A → option B) : Reads rd → Reads (val_items rd).
Proof.
  intros Hrd h h' l v Hs. unfold val_items. rewrite !mapM_Some. intros Hl.
  eapply Forall2_impl; [exact Hl|]. intros a b. by apply Hrd.
Qed.
#[export] Instance items_copies {A B} cp (rd : heap → A → option B) :
  Reads rd → Copies cp rd → Copies (copy_items cp) (val_items rd).
Proof.
  intros Hrd Hcp h l v. unfold val_items. rewrite mapM_Some. intros Hl. revert h Hl.
  assert (∀ h0 h, h0 ⊆ h → Forall2 (λ a b, rd h0 a = Some b) l v →
    h ⊆ (copy_items cp l h).2 ∧
    mapM (rd ((copy_items cp l h).2 ∖ h0)) (copy_items cp l h).1 = Some v) as Hgen.
  2: { intros h Hl. by apply Hgen. }
  revert v. induction l as [|a l IH]; intros v h0 h Hs Hl.
  - by apply Forall2_nil_inv_l in Hl as ->.
  - apply Forall2_cons_inv_l in Hl as (b & v' & Hb & Hl & ->). cbn.
    destruct (cp a h) as [a' h1] eqn:Ea.
    destruct (copies_run cp rd _ _ _ _ _ _ Hs Hb Ea) as (Hs1 & Hh1 & Hv1).
    specialize (IH v' h0 h1 Hs1 Hl). destruct (copy_items cp l h1) as [l' h2]. cbn in *.
    destruct IH as [Hh2 Hv2]. split; [by etransitivity|].
    rewrite (reads_mono _ _ _ _ (difference_mono h0 _ _ Hh2) Hv1). cbn. by rewrite Hv2.
Qed.

(** Structs, field by field. *)
Ltac fields := repeat match goal with
  | H : (_ ≫= _) = Some _ |- _ => apply bind_Some in H as (? & ? & H)
  end.
Ltac within := first [ eassumption | reflexivity | etransitivity; [eassumption|within] ].

Ltac struct_reads X :=
  intros h h' x v Hs Hv; unfold X in *; fields; injection Hv as <-;
  repeat (apply bind_Some; eexists; split; [eapply reads_mono; [exact Hs|eassumption]|]);
  reflexivity.

(** One field: run its copy, and keep what it reads as. *)
Ltac copy_field h0 := match goal with
  | H : ?rd h0 ?f = Some _ |- context [let '(_, _) := ?cp ?f ?h in _] =>
      let r := fresh "r" in let h1 := fresh "h" in let E := fresh "E" in
      let H1 := fresh "Hsub" in let H2 := fresh "Hstep" in let H3 := fresh "Hval" in
      destruct (cp f h) as [r h1] eqn:E;
      destruct (copies_run cp rd h0 h f _ r h1 ltac:(within) H E) as (H1 & H2 & H3);
      clear H E
  end.
Ltac struct_copies X Y :=
  intros h x v Hv; unfold X in Hv; fields; injection Hv as <-;
  unfold Y; repeat (copy_field h);
  cbn [fst snd]; split; [within|];
  unfold X; cbn;
  repeat (apply bind_Some; eexists; split;
          [eapply reads_mono; [|eassumption]; apply difference_mono; within|]);
  reflexivity.

#[export] Instance OwnerReference_reads : Reads OwnerReference_val.
Proof. struct_reads OwnerReference_val. Qed.
#[export] Instance OwnerReference_copies : Copies OwnerReference_DeepCopyInto OwnerReference_val.
Proof. struct_copies OwnerReference_val OwnerReference_DeepCopyInto. Qed.
#[export] Instance FieldsV1_reads : Reads FieldsV1_val.
Proof. struct_reads FieldsV1_val. Qed.
#[export] Instance FieldsV1_copies : Copies FieldsV1_DeepCopyInto FieldsV1_val.
Proof. struct_copies FieldsV1_val FieldsV1_DeepCopyInto. Qed.
#[export] Instance ManagedFieldsEntry_reads : Reads ManagedFieldsEntry_val.
Proof. struct_reads ManagedFieldsEntry_val. Qed.
#[export] Instance ManagedFieldsEntry_copies : Copies ManagedFieldsEntry_DeepCopyInto ManagedFieldsEntry_val.
Proof. struct_copies ManagedFieldsEntry_val ManagedFieldsEntry_DeepCopyInto. Qed.
#[export] Instance ObjectMeta_reads : Reads ObjectMeta_val.
Proof. struct_reads ObjectMeta_val. Qed.
#[export] Instance ObjectMeta_copies : Copies ObjectMeta_DeepCopyInto ObjectMeta_val.
Proof. struct_copies ObjectMeta_val ObjectMeta_DeepCopyInto. Qed.
#[export] Instance ListMeta_reads : Reads ListMeta_val.
Proof. struct_reads ListMeta_val. Qed.
#[export] Instance ListMeta_copies : Copies ListMeta_DeepCopyInto ListMeta_val.
Proof. struct_copies ListMeta_val ListMeta_DeepCopyInto. Qed.
#[export] Instance TimestampedError_reads : Reads TimestampedError_val.
Proof. struct_reads TimestampedError_val. Qed.
#[export] Instance TimestampedError_copies : Copies TimestampedError_DeepCopyInto TimestampedError_val.
Proof. struct_copies TimestampedError_val TimestampedError_DeepCopyInto. Qed.
#[export] Instance BucketSpec_reads : Reads BucketSpec_val.
Proof. struct_reads BucketSpec_val. Qed.
#[export] Instance BucketSpec_copies : Copies BucketSpec_DeepCopyInto BucketSpec_val.
Proof. struct_copies BucketSpec_val BucketSpec_DeepCopyInto. Qed.
#[export] Instance BucketStatus_reads : Reads BucketStatus_val.
Proof. struct_reads BucketStatus_val. Qed.
#[export] Instance BucketStatus_copies : Copies BucketStatus_DeepCopyInto BucketStatus_val.
Proof. struct_copies BucketStatus_val BucketStatus_DeepCopyInto. Qed.
#[export] Instance Bucket_reads : Reads Bucket_val.
Proof. struct_reads Bucket_val. Qed.
#[export] Instance Bucket_copies : Copies Bucket_DeepCopyInto Bucket_val.
Proof. struct_copies Bucket_val Bucket_DeepCopyInto. Qed.
#[export] Instance BucketClaimSpec_reads : Reads BucketClaimSpec_val.
Proof. struct_reads BucketClaimSpec_val. Qed.
#[export] Instance BucketClaimSpec_copies : Copies BucketClaimSpec_DeepCopyInto BucketClaimSpec_val.
Proof. struct_copies BucketClaimSpec_val BucketClaimSpec_DeepCopyInto. Qed.
#[export] Instance BucketClaimStatus_reads : Reads BucketClaimStatus_val.
Proof. struct_reads BucketClaimStatus_val. Qed.
#[export] Instance BucketClaimStatus_copies : Copies BucketClaimStatus_DeepCopyInto BucketClaimStatus_val.
Proof. struct_copies BucketClaimStatus_val BucketClaimStatus_DeepCopyInto. Qed.
#[export] Instance BucketClaim_reads : Reads BucketClaim_val.
Proof. struct_reads BucketClaim_val. Qed.
#[export] Instance BucketClaim_copies : Copies BucketClaim_DeepCopyInto BucketClaim_val.
Proof. struct_copies BucketClaim_val BucketClaim_DeepCopyInto. Qed.
#[export] Instance BucketClassSpec_reads : Reads BucketClassSpec_val.
Proof. struct_reads BucketClassSpec_val. Qed.
#[export] Instance BucketClassSpec_copies : Copies BucketClassSpec_DeepCopyInto BucketClassSpec_val.
Proof. struct_copies BucketClassSpec_val BucketClassSpec_DeepCopyInto. Qed.
#[export] Instance BucketClass_reads : Reads BucketClass_val.
Proof. struct_reads BucketClass_val. Qed.
#[export] Instance BucketClass_copies : Copies BucketClass_DeepCopyInto BucketClass_val.
Proof. struct_copies BucketClass_val BucketClass_DeepCopyInto. Qed.
#[export] Instance BucketAccessClassSpec_reads : Reads BucketAccessClassSpec_val.
Proof. struct_reads BucketAccessClassSpec_val. Qed.
#[export] Instance BucketAccessClassSpec_copies : Copies BucketAccessClassSpec_DeepCopyInto BucketAccessClassSpec_val.
Proof. struct_copies BucketAccessClassSpec_val BucketAccessClassSpec_DeepCopyInto. Qed.
#[export] Instance BucketAccessClass_reads : Reads BucketAccessClass_val.
Proof. struct_reads BucketAccessClass_val. Qed.
#[export] Instance BucketAccessClass_copies : Copies BucketAccessClass_DeepCopyInto BucketAccessClass_val.
Proof. struct_copies BucketAccessClass_val BucketAccessClass_DeepCopyInto. Qed.
#[export] Instance BucketAccessSpec_reads : Reads BucketAccessSpec_val.
Proof. struct_reads BucketAccessSpec_val. Qed.
#[export] Instance BucketAccessSpec_copies : Copies BucketAccessSpec_DeepCopyInto BucketAccessSpec_val.
Proof. struct_copies BucketAccessSpec_val BucketAccessSpec_DeepCopyInto. Qed.
#[export] Instance BucketAccessStatus_reads : Reads BucketAccessStatus_val.
Proof. struct_reads BucketAccessStatus_val. Qed.
#[export] Instance BucketAccessStatus_copies : Copies BucketAccessStatus_DeepCopyInto BucketAccessStatus_val.
Proof. struct_copies BucketAccessStatus_val BucketAccessStatus_DeepCopyInto. Qed.
#[export] Instance BucketAccess_reads : Reads BucketAccess_val.
Proof. struct_reads BucketAccess_val. Qed.
#[export] Instance BucketAccess_copies : Copies BucketAccess_DeepCopyInto BucketAccess_val.
Proof. struct_copies BucketAccess_val BucketAccess_DeepCopyInto. Qed.
#[export] Instance List_reads {T V} `{Stored (list T)} (rd : heap → T → option V) :
  Reads rd → Reads (List_val rd).
Proof. intros Hrd. struct_reads @List_val. Qed.
#[export] Instance List_copies {T V} `{Stored (list T)} cp (rd : heap → T → option V) :
  Reads rd → Copies cp rd → Copies (List_DeepCopyInto cp) (List_val rd).
Proof. intros Hrd Hcp. struct_copies @List_val @List_DeepCopyInto. Qed.

(** ** Independence *)

(** [dc] is a deep copy of what a pointer refers to: nil exactly for nil, and otherwise a
    copy that reads as the original does; whatever happens to cells that did not exist
    before the copy, the copy's among them, leaves the original as it was, and whatever
    happens to the cells that existed before leaves the copy. *)
Definition deep {A V} `{Stored A} (rd : heap → A → option V)
    (dc : option loc → heap → option loc * heap) : Prop :=
  ∀ h p v, val_ref rd h p = Some v →
    let '(q, h') := dc p h in
    (q = None ↔ p = None) ∧ val_ref rd h' q = Some v ∧
    (∀ h'', h ⊆ h'' → val_ref rd h'' p = Some v) ∧
    (∀ h'', h' ∖ h ⊆ h'' → val_ref rd h'' q = Some v).

Lemma deep_copy_ref {A V} `{Stored A} cp (rd : heap → A → option V) :
  Reads rd → Copies cp rd → deep rd (copy_ref cp).
Proof.
  intros Hrd Hcp h p v Hv.
  assert ((copy_ref cp p h).1 = None ↔ p = None) as Hnil.
  { destruct p as [l|]; [|done]. cbn. destruct (load h l) as [a|]; [|done].
    by destruct (cp a h) as [a' h1]. }
  destruct (copies_new (cp:=copy_ref cp) h p v Hv) as [Hs Hn].
  destruct (copy_ref cp p h) as [q h']. cbn in *. split_and!; [done..| | |].
  - eapply reads_mono; [|exact Hn]. by apply map_subseteq_difference_l.
  - intros h'' Hs''. by eapply reads_mono.
  - intros h'' Hs''. by eapply reads_mono.
Qed.

Lemma deep_object {A V} `{Stored A} (rd : heap → A → option V) dc :
  deep rd dc → deep rd (λ p h, deep_copy_object (dc p h)).
Proof. intros Hd h p v Hv. specialize (Hd h p v Hv). by destruct (dc p h) as [[l|] h']. Qed.

(** C30: Deep copies are copies, and deep. For every kind of object and list of the API,
    [DeepCopyObject] returns nil for nil and otherwise an object that reads as the original
    does, its metadata with labels and managed fields included, nil and empty maps and slices
    distinguished, and that shares no cell with it: no change of the copy can be seen
    through the original, and none of the original through the copy. *)
Theorem deep_copies_are_independent :
  deep Bucket_val Bucket_DeepCopyObject ∧
  deep BucketAccess_val BucketAccess_DeepCopyObject ∧
  deep BucketAccessClass_val BucketAccessClass_DeepCopyObject ∧
  deep (List_val BucketAccessClass_val) BucketAccessClassList_DeepCopyObject ∧
  deep (List_val BucketAccess_val) BucketAccessList_DeepCopyObject ∧
  deep BucketClaim_val BucketClaim_DeepCopyObject ∧
  deep (List_val BucketClaim_val) BucketClaimList_DeepCopyObject ∧
  deep BucketClass_val BucketClass_DeepCopyObject ∧
  deep (List_val BucketClass_val) BucketClassList_DeepCopyObject ∧
  deep (List_val Bucket_val) BucketList_DeepCopyObject.
Proof.
  split_and!; apply deep_object, deep_copy_ref; apply _.
Qed.

(** The other types with a [DeepCopy] of their own. *)
Lemma struct_copies_are_independent :
  deep (@val_plain AccessedBucket) AccessedBucket_DeepCopy ∧
  deep BucketAccessClassSpec_val BucketAccessClassSpec_DeepCopy ∧
  deep BucketAccessSpec_val BucketAccessSpec_DeepCopy ∧
  deep BucketAccessStatus_val BucketAccessStatus_DeepCopy ∧
  deep (@val_plain BucketClaimAccess) BucketClaimAccess_DeepCopy ∧
  deep (@val_plain BucketClaimReference) BucketClaimReference_DeepCopy ∧
  deep BucketClaimSpec_val BucketClaimSpec_DeepCopy ∧
  deep BucketClaimStatus_val BucketClaimStatus_DeepCopy ∧
  deep BucketClassSpec_val BucketClassSpec_DeepCopy ∧
  deep BucketSpec_val BucketSpec_DeepCopy ∧
  deep BucketStatus_val BucketStatus_DeepCopy ∧
  deep TimestampedError_val TimestampedError_DeepCopy.
Proof. split_and!; apply deep_copy_ref; apply _. Qed.

(** ** An example: the parameters of a class *)

Definition demo_class_heap : heap :=
  {[ 0 := CClass {| classF_TypeMeta := {| typeMeta_Kind := "BucketClass"; typeMeta_APIVersion := "" |};
       classF_ObjectMeta := {| metaF_Name := "gold"; metaF_GenerateName := ""; metaF_Namespace := "";
         metaF_SelfLink := ""; metaF_UID := "u"; metaF_ResourceVersion := "1"; metaF_Generation := 1;
         metaF_CreationTimestamp := 1700000000; metaF_DeletionTimestamp := None;
         metaF_DeletionGracePeriodSeconds := None; metaF_Labels := None; metaF_Annotations := None;
         metaF_OwnerReferences := None; metaF_Finalizers := None; metaF_ManagedFields := None |};
       classF_Spec := {| classSpecF_DriverName := "d"; classSpecF_DeletionPolicy := "Delete";
                         classSpecF_Parameters := Some 1 |} |};
     1 := CMap {[ "tier" := "gold" ]} ]}.

(** The address and the content of the parameters, seen through a pointer to the class. *)
Definition parameters (h : heap) (p : option loc) : option (loc * gmap string string) :=
  match p with
  | Some l =>
      match load h l with
      | Some (Build_BucketClassF _ _ _ (Build_BucketClassSpecF _ _ _ (Some m))) =>
          match load h m with Some e => Some (m, e) | None => None end
      | _ => None
      end
  | None => None
  end.
Definition parameter (h : heap) (p : option loc) (k : string) : option string :=
  match parameters h p with Some (_, e) => e !! k | None => None end.
(** [p.Spec.Parameters[k] = v]. *)
Definition set_parameter (p : option loc) (k v : string) (h : heap) : heap :=
  match parameters h p with Some (m, e) => <[m := CMap (<[k := v]> e)]> h | None => h end.

Example copy_not_shared :
  let '(q, h) := BucketClass_DeepCopy (Some 0) demo_class_heap in
  let h' := set_parameter q "tier" "lead" h in
  parameter h' (Some 0) "tier" = Some "gold" ∧ parameter h' q "tier" = Some "lead".
Proof. by vm_compute. Qed.
