(* ===== verification/ProtoTypes.v ===== *)
(** * The messages of the driver RPC

    Models the message types and enums of [src/proto/cosi.pb.go] that the sidecar
    exchanges with a driver. A proto3 enum is open, so a field of enum type holds any
    int32; it is a [Z] with the declared numbers as constants. A singular message
    field is a pointer and may be nil ([option]); the elements of a repeated message
    field that was decoded from the wire are never nil. *)

From stdpp Require Import base gmap strings list.
From S2P Require Import Prelude.

Definition ObjectProtocol_UNKNOWN : Z := 0.
Definition ObjectProtocol_S3 : Z := 1.
Definition ObjectProtocol_AZURE : Z := 2.
Definition ObjectProtocol_GCS : Z := 3.

(** [ObjectProtocol_Type_name]. *)
Definition ObjectProtocol_Type_name (t : Z) : option string :=
  match t with
  | 0%Z => Some "UNKNOWN"
  | 1%Z => Some "S3"
  | 2%Z => Some "AZURE"
  | 3%Z => Some "GCS"
  | _ => None
  end.

(** [(x ObjectProtocol_Type) String()]: the name, or the number when there is none. *)
Definition ObjectProtocol_Type_String (t : Z) : string :=
  match ObjectProtocol_Type_name t with Some n => n | None => fmt_int t end.

Definition S3AddressingStyle_UNKNOWN : Z := 0.
Definition S3AddressingStyle_PATH : Z := 1.
Definition S3AddressingStyle_VIRTUAL : Z := 2.

Definition AuthenticationType_UNKNOWN : Z := 0.
Definition AuthenticationType_KEY : Z := 1.
Definition AuthenticationType_SERVICE_ACCOUNT : Z := 2.

Definition AccessMode_UNKNOWN : Z := 0.
Definition AccessMode_READ_WRITE : Z := 1.
Definition AccessMode_READ_ONLY : Z := 2.
Definition AccessMode_WRITE_ONLY : Z := 3.

Record ObjectProtocol : Type := { proto_Type : Z }.

(** The messages that wrap the other two enums. *)
Record AuthenticationType : Type := { authType_Type : Z }.
Record AccessMode : Type := { accessMode_Mode : Z }.

Record DriverGetInfoResponse : Type := {
  info_Name : string;
  info_SupportedProtocols : list ObjectProtocol
}.

Record S3AddressingStyle : Type := { s3Style_Style : Z }.

Record S3BucketInfo : Type := {
  s3Info_BucketId : string;
  s3Info_Endpoint : string;
  s3Info_Region : string;
  s3Info_AddressingStyle : option S3AddressingStyle
}.

Record S3CredentialInfo : Type := {
  s3Cred_AccessKeyId : string;
  s3Cred_AccessSecretKey : string
}.

Record AzureBucketInfo : Type := { azureInfo_StorageAccount : string }.

Record AzureCredentialInfo : Type := {
  azureCred_AccessToken : string;
  azureCred_ExpiryTimestamp : string
}.

Record GcsBucketInfo : Type := {
  gcsInfo_ProjectId : string;
  gcsInfo_BucketName : string
}.

Record GcsCredentialInfo : Type := {
  gcsCred_AccessId : string;
  gcsCred_AccessSecret : string;
  gcsCred_PrivateKeyName : string;
  gcsCred_ServiceAccount : string
}.

Record ObjectProtocolAndBucketInfo : Type := {
  bucketInfo_S3 : option S3BucketInfo;
  bucketInfo_Azure : option AzureBucketInfo;
  bucketInfo_Gcs : option GcsBucketInfo
}.

Record CredentialInfo : Type := {
  cred_S3 : option S3CredentialInfo;
  cred_Azure : option AzureCredentialInfo;
  cred_Gcs : option GcsCredentialInfo
}.

Record DriverCreateBucketRequest : Type := {
  createReq_Name : string;
  createReq_Protocols : list ObjectProtocol;
  createReq_Parameters : gmap string string
}.

Record DriverCreateBucketResponse : Type := {
  createResp_BucketId : string;
  createResp_Protocols : option ObjectProtocolAndBucketInfo
}.

Record DriverGetExistingBucketRequest : Type := {
  getReq_ExistingBucketId : string;
  getReq_Protocols : list ObjectProtocol;
  getReq_Parameters : gmap string string
}.

Record DriverGetExistingBucketResponse : Type := {
  getResp_BucketId : string;
  getResp_Protocols : option ObjectProtocolAndBucketInfo
}.

Record DriverGrantBucketAccessRequest_AccessedBucket : Type := {
  grantReqBucket_BucketId : string;
  grantReqBucket_AccessMode : option AccessMode
}.

Record DriverGrantBucketAccessRequest : Type := {
  grantReq_AccountName : string;
  grantReq_Protocol : option ObjectProtocol;
  grantReq_AuthenticationType : option AuthenticationType;
  grantReq_ServiceAccountName : string;
  grantReq_Parameters : gmap string string;
  grantReq_Buckets : list DriverGrantBucketAccessRequest_AccessedBucket
}.

Record DriverGrantBucketAccessResponse_BucketInfo : Type := {
  grantRespBucket_BucketId : string;
  grantRespBucket_BucketInfo : option ObjectProtocolAndBucketInfo
}.

Record DriverGrantBucketAccessResponse : Type := {
  grantResp_AccountId : string;
  grantResp_Buckets : list DriverGrantBucketAccessResponse_BucketInfo;
  grantResp_Credentials : option CredentialInfo
}.

Record DriverRevokeBucketAccessRequest_AccessedBucket : Type := {
  revokeReqBucket_BucketId : string
}.

Record DriverRevokeBucketAccessRequest : Type := {
  revokeReq_AccountId : string;
  revokeReq_Protocol : option ObjectProtocol;
  revokeReq_AuthenticationType : option AuthenticationType;
  revokeReq_ServiceAccountName : string;
  revokeReq_Parameters : gmap string string;
  revokeReq_Buckets : list DriverRevokeBucketAccessRequest_AccessedBucket
}.

(** The messages without fields, and the deletion of a bucket, which no RPC of the Sidecar
    sends yet. *)
Inductive DriverGetInfoRequest : Type := mkDriverGetInfoRequest.
Inductive DriverDeleteBucketResponse : Type := mkDriverDeleteBucketResponse.
Inductive DriverRevokeBucketAccessResponse : Type := mkDriverRevokeBucketAccessResponse.

Record DriverDeleteBucketRequest : Type := {
  deleteReq_BucketId : string;
  deleteReq_Parameters : gmap string string
}.
