(* ===== verification/ProtoDesc.v ===== *)
(** * Descriptors of messages

    Models what the codecs of the driver protocol know of a message: the names, numbers and
    kinds of its fields, as [src/proto/cosi.proto] declares them and the vendored package
    [protoreflect] presents them, and the Go values of a message with such fields. The fields of
    the driver protocol are strings, open enums, messages, lists of messages and maps of
    strings. [ProtoJson] and [ProtoWire] are the two codecs. *)

From Stdlib Require Import Ascii.
From stdpp Require Import base gmap strings list.
From S2P Require Import Prelude.

#[local] Set Warnings "-register-all".

(** ** UTF-8 *)

(** [utf8.ValidString]: the accepted ranges of the second byte, and the number of bytes that
    follow it, by the first byte. *)
Definition utf8_lead (b : N) : option (N * N * nat) :=
  if (b <? 128)%N then None
  else if (b <? 194)%N then None
  else if (b <? 224)%N then Some (128%N, 191%N, 0)
  else if (b =? 224)%N then Some (160%N, 191%N, 1)
  else if (b =? 237)%N then Some (128%N, 159%N, 1)
  else if (b <? 240)%N then Some (128%N, 191%N, 1)
  else if (b =? 240)%N then Some (144%N, 191%N, 2)
  else if (b <? 244)%N then Some (128%N, 191%N, 2)
  else if (b =? 244)%N then Some (128%N, 143%N, 2)
  else None.

(** [pending] is the range of the next byte and how many follow, inside a sequence. *)
Fixpoint utf8_from (pending : option (N * N * nat)) (s : string) : bool :=
  match s, pending with
  | EmptyString, None => true
  | EmptyString, Some _ => false
  | String c s', None =>
      let b := N_of_ascii c in
      if (b <? 128)%N then utf8_from None s'
      else match utf8_lead b with
           | None => false
           | Some p => utf8_from (Some p) s'
           end
  | String c s', Some (lo, hi, more) =>
      let b := N_of_ascii c in
      if (b <? lo)%N || (hi <? b)%N then false
      else utf8_from (match more with 0 => None | S more' => Some (128%N, 191%N, more') end) s'
  end.
Definition utf8_ValidString (s : string) : bool := utf8_from None s.

Example utf8_examples :
  utf8_ValidString "plain" = true ∧ utf8_ValidString "Zürich €" = true ∧
  utf8_ValidString (String (ascii_of_N 195) "x") = false ∧
  utf8_ValidString (String (ascii_of_N 237) (String (ascii_of_N 160) (String (ascii_of_N 128) ""))) = false.
Proof. by vm_compute. Qed.

(** ** Descriptors *)

(** [JSONCamelCase]: the JSON name of a field. *)
Fixpoint JSONCamelCase_from (wasUnderscore : bool) (s : string) : string :=
  match s with
  | EmptyString => EmptyString
  | String c s' =>
      if Ascii.eqb c "_" then JSONCamelCase_from true s'
      else
        let b := N_of_ascii c in
        let c' := if wasUnderscore && (97 <=? b)%N && (b <=? 122)%N then ascii_of_N (b - 32) else c in
        String c' (JSONCamelCase_from false s')
  end.
Definition JSONCamelCase (s : string) : string := JSONCamelCase_from false s.

(** A field by its name and number in the protocol file. *)
Record field_id : Type := Field { fd_Name :> string; fd_Number : Z }.

(** The kind of a field, and the fields of a message. *)
Inductive kind : Type :=
| KString
| KEnum (values : list (string * Z))
| KMessage (fields : list (field_id * kind))
| KRepeated (fields : list (field_id * kind))
| KMap.
Abbreviation fields := (list (field_id * kind)).

(** The Go values of a field and of a message; behind the fields, the bytes of [unknownFields]. *)
Fixpoint val (k : kind) : Type :=
  match k with
  | KString => string
  | KEnum _ => Z
  | KMessage fs => option ((fix tup (fs : fields) : Type := match fs with [] => string | (_, k) :: fs' => val k * tup fs' end) fs)
  | KRepeated fs => list ((fix tup (fs : fields) : Type := match fs with [] => string | (_, k) :: fs' => val k * tup fs' end) fs)
  | KMap => gmap string string
  end%type.
Fixpoint tup (fs : fields) : Type :=
  match fs with
  | [] => string
  | (_, k) :: fs' => val k * tup fs'
  end%type.

Definition zero_val (k : kind) : val k :=
  match k with
  | KString => ""
  | KEnum _ => 0%Z
  | KMessage _ => None
  | KRepeated _ => []
  | KMap => ∅
  end.
Fixpoint zero_tup (fs : fields) : tup fs :=
  match fs with
  | [] => EmptyString
  | (_, k) :: fs' => (zero_val k, zero_tup fs')
  end.

(** The bytes of the unknown fields, and more of them behind. *)
Fixpoint unknownFields (fs : fields) : tup fs → string :=
  match fs with
  | [] => λ u, u
  | (_, k) :: fs' => λ t, unknownFields fs' t.2
  end.
Fixpoint append_unknown (fs : fields) (raw : string) : tup fs → tup fs :=
  match fs with
  | [] => λ u, u +:+ raw
  | (_, k) :: fs' => λ t, (t.1, append_unknown fs' raw t.2)
  end.

(** [Message.Has]: a field that is not its zero value. *)
Definition populated (k : kind) : val k → bool :=
  match k with
  | KString => λ s, s <>s ""
  | KEnum _ => λ z, negb (z =? 0)%Z
  | KMessage _ => λ m, match m with Some _ => true | None => false end
  | KRepeated _ => λ l, match l with [] => false | _ :: _ => true end
  | KMap => λ m, negb (size m =? 0)
  end.

(** [EnumValueDescriptors.ByNumber] and [ByName]. *)
Definition enum_name (values : list (string * Z)) (z : Z) : option string :=
  fst <$> List.find (λ v, (v.2 =? z)%Z) values.
Definition enum_number (values : list (string * Z)) (name : string) : option Z :=
  snd <$> List.find (λ v, v.1 =s name) values.

(** [FieldDescriptors.ByJSONName], then [ByTextName]: the index of the field. *)
Definition index_of (f : string → string) (fs : fields) (name : string) : option nat :=
  fst <$> list_find (λ nk : field_id * kind, (f nk.1 =s name) = true) fs.
Definition find_field (fs : fields) (name : string) : option nat :=
  match index_of JSONCamelCase fs name with
  | Some i => Some i
  | None => index_of id fs name
  end.

(** The limit of the nesting that both codecs set. *)
Definition DefaultRecursionLimit : Z := 10000.

Definition int32 (z : Z) : bool := (-2147483648 <=? z)%Z && (z <=? 2147483647)%Z.

(** ** Well-formed descriptors *)

(** Induction over kinds and lists of fields. *)
Lemma kind_fields_ind (P : kind → Prop) (Q : fields → Prop) :
  P KString → (∀ vs, P (KEnum vs)) → (∀ fs, Q fs → P (KMessage fs)) →
  (∀ fs, Q fs → P (KRepeated fs)) → P KMap →
  Q [] → (∀ n k fs, P k → Q fs → Q ((n, k) :: fs)) → (∀ k, P k) ∧ ∀ fs, Q fs.
Proof.
  intros HS HE HM HR Hm Hn Hc.
  assert (∀ k, P k) as HP.
  { refine (fix go k := _). destruct k as [|vs|fs|fs|]; [exact HS|apply HE| | |exact Hm].
    - apply HM. induction fs as [|[n k] fs IH]; [exact Hn|]. apply Hc; [apply go|exact IH].
    - apply HR. induction fs as [|[n k] fs IH]; [exact Hn|]. apply Hc; [apply go|exact IH]. }
  split; [exact HP|]. induction fs as [|[n k] fs IH]; [exact Hn|]. by apply Hc.
Qed.

(** A name finds the field it belongs to; a value of an enum is found by its name; names are
    valid UTF-8. *)
Definition names_ok (fs : fields) : bool :=
  forallb id (imap (λ i (nk : field_id * kind),
    bool_decide (find_field fs (JSONCamelCase nk.1) = Some i) &&
    bool_decide (find_field fs nk.1 = Some i) &&
    (utf8_ValidString (JSONCamelCase nk.1) && utf8_ValidString nk.1)) fs).
Definition enum_ok (values : list (string * Z)) : bool :=
  forallb (λ v, bool_decide (enum_number values v.1 = Some v.2) && utf8_ValidString v.1) values.

Fixpoint kind_ok (k : kind) : bool :=
  match k with
  | KString | KMap => true
  | KEnum values => enum_ok values
  | KMessage fs | KRepeated fs => names_ok fs && forallb (λ nk, kind_ok nk.2) fs
  end.
Definition fields_ok (fs : fields) : bool := names_ok fs && forallb (λ nk, kind_ok nk.2) fs.

(** How deep the messages of a field are nested. *)
Fixpoint depth (k : kind) : Z :=
  match k with
  | KString | KEnum _ | KMap => 0
  | KMessage fs | KRepeated fs => 1 + foldr (λ nk d, Z.max (depth nk.2) d) 0 fs
  end%Z.
Definition fields_depth (fs : fields) : Z := foldr (λ nk d, Z.max (depth nk.2) d) 0%Z fs.
Lemma fields_depth_nonneg fs : (0 ≤ fields_depth fs)%Z.
Proof. unfold fields_depth. induction fs as [|[] fs IH]; cbn [foldr]; lia. Qed.

(** A value as a program makes it: its enum fields are int32, as their Go type says, and there are
    no bytes of unknown fields. *)
Fixpoint in_range (k : kind) : val k → Prop :=
  let range := fix range (fs : fields) : tup fs → Prop :=
    match fs with
    | [] => λ u, u = EmptyString
    | (_, k) :: fs' => λ t, in_range k t.1 ∧ range fs' t.2
    end in
  match k with
  | KString | KMap => λ _, True
  | KEnum _ => λ z, int32 z = true
  | KMessage fs => λ m, match m with None => True | Some t => range fs t end
  | KRepeated fs => λ l, Forall (range fs) l
  end.
Fixpoint fields_range (fs : fields) : tup fs → Prop :=
  match fs with
  | [] => λ u, u = EmptyString
  | (_, k) :: fs' => λ t, in_range k t.1 ∧ fields_range fs' t.2
  end.

(** The strings of a value are valid UTF-8. *)
Definition entries_valid (m : gmap string string) : Prop :=
  ∀ k v, m !! k = Some v → utf8_ValidString k = true ∧ utf8_ValidString v = true.
Fixpoint strings_valid (k : kind) : val k → Prop :=
  let valid := fix valid (fs : fields) : tup fs → Prop :=
    match fs with
    | [] => λ _, True
    | (_, k) :: fs' => λ t, strings_valid k t.1 ∧ valid fs' t.2
    end in
  match k with
  | KString => λ s, utf8_ValidString s = true
  | KEnum _ => λ _, True
  | KMessage fs => λ m, match m with None => True | Some t => valid fs t end
  | KRepeated fs => λ l, Forall (valid fs) l
  | KMap => entries_valid
  end.
Fixpoint fields_valid (fs : fields) : tup fs → Prop :=
  match fs with
  | [] => λ _, True
  | (_, k) :: fs' => λ t, strings_valid k t.1 ∧ fields_valid fs' t.2
  end.

Lemma enum_ok_number values z name :
  enum_ok values = true → enum_name values z = Some name →
  enum_number values name = Some z ∧ utf8_ValidString name = true.
Proof.
  unfold enum_ok, enum_name. rewrite forallb_forall. intros Hall Hf.
  destruct (List.find _ values) as [[n z']|] eqn:E; [|done]. injection Hf as <-.
  apply List.find_some in E as [Hin Hz%Z.eqb_eq]. cbn in Hz. subst z'.
  by apply Hall, andb_true_iff in Hin as [Hn%bool_decide_eq_true Hu].
Qed.

Lemma unpopulated_zero k v : populated k v = false → v = zero_val k.
Proof.
  destruct k; cbn; intros H.
  - by apply neqs_false in H.
  - by apply negb_false_iff, Z.eqb_eq in H.
  - by destruct v.
  - by destruct v.
  - by apply negb_false_iff, Nat.eqb_eq, map_size_empty_iff in H.
Qed.

Lemma zero_valid k : strings_valid k (zero_val k).
Proof. destruct k; cbn; try done; by intros k v ?%lookup_empty_Some. Qed.

(** ** Numbers of fields *)

Definition MinValidNumber : Z := 1.
Definition MaxValidNumber : Z := 536870911.

(** The numbers of the fields are valid and increase, so the order of the declarations is that of
    the numbers. *)
Fixpoint kind_numbered (k : kind) : bool :=
  match k with
  | KString | KEnum _ | KMap => true
  | KMessage fs | KRepeated fs =>
      (fix numbered (last : Z) (fs : fields) : bool :=
        match fs with
        | [] => true
        | (f, k) :: fs' =>
            (last <? fd_Number f)%Z && (fd_Number f <=? MaxValidNumber)%Z && kind_numbered k &&
            numbered (fd_Number f) fs'
        end) 0%Z fs
  end.
Definition fields_numbered : Z → fields → bool :=
  fix numbered (last : Z) (fs : fields) : bool :=
    match fs with
    | [] => true
    | (f, k) :: fs' =>
        (last <? fd_Number f)%Z && (fd_Number f <=? MaxValidNumber)%Z && kind_numbered k &&
        numbered (fd_Number f) fs'
    end.
