(* ===== verification/CosiDesc.v ===== *)
(** * The messages of the driver protocol

    The descriptors of the 27 messages of [src/proto/cosi.proto], which [src/proto/cosi.pb.go]
    carries: the fields of each message in the order of their declaration. A message has a Go
    struct, here a record, and a tuple of its fields; that the two are the same is a law of the
    class [ProtoMessage]. The tuple also holds the bytes of [unknownFields], a member of the Go
    struct that the records leave out: no code of the repository reads or sets it. *)

From stdpp Require Import base gmap strings list.
From S2P Require Import Prelude ProtoTypes ProtoDesc.

(** ** Messages *)

Class ProtoMessage (M : Type) : Type := {
  descriptor : fields;
  to_fields : M → tup descriptor;
  of_fields : tup descriptor → M
}.

(** The struct is its fields, unknown ones apart, a name belongs to one field, the numbers increase, and the nesting
    is shallow. *)
Class ProtoMessageLaws (M : Type) `{ProtoMessage M} : Prop := {
  of_to_fields : ∀ m, of_fields (to_fields m) = m;
  of_unknown : ∀ raw t, of_fields (append_unknown descriptor raw t) = of_fields t;
  to_known : ∀ m, unknownFields descriptor (to_fields m) = ""%string;
  descriptor_ok : fields_ok descriptor = true;
  descriptor_numbered : fields_numbered 0 descriptor = true;
  descriptor_depth : (1 + fields_depth descriptor ≤ DefaultRecursionLimit)%Z
}.

(** Fields that are messages and lists of messages. *)
Definition opt_to {M} `{ProtoMessage M} : option M → option (tup descriptor) := fmap to_fields.
Definition opt_of {M} `{ProtoMessage M} : option (tup descriptor) → option M := fmap of_fields.
Definition list_to {M} `{ProtoMessage M} : list M → list (tup descriptor) := fmap to_fields.
Definition list_of {M} `{ProtoMessage M} : list (tup descriptor) → list M := fmap of_fields.

Lemma of_to_option {M} `{ProtoMessageLaws M} (o : option M) : opt_of (opt_to o) = o.
Proof. destruct o as [m|]; cbn; [by rewrite of_to_fields|done]. Qed.
Lemma of_to_list {M} `{ProtoMessageLaws M} (l : list M) : list_of (list_to l) = l.
Proof. unfold list_of, list_to. induction l as [|m l IH]; cbn; [done|]. by rewrite of_to_fields, IH. Qed.

Ltac message_laws :=
  split;
  [intros []; cbn -[opt_to opt_of list_to list_of]; try done; f_equal;
     (done || apply of_to_option || apply of_to_list)
  |reflexivity
  |reflexivity
  |by vm_compute
  |by vm_compute
  |by vm_compute].

(** The values of the enums. *)
Definition ObjectProtocol_Type_values : list (string * Z) :=
  [("UNKNOWN", ObjectProtocol_UNKNOWN); ("S3", ObjectProtocol_S3);
   ("AZURE", ObjectProtocol_AZURE); ("GCS", ObjectProtocol_GCS)].
Definition S3AddressingStyle_Style_values : list (string * Z) :=
  [("UNKNOWN", S3AddressingStyle_UNKNOWN); ("PATH", S3AddressingStyle_PATH);
   ("VIRTUAL", S3AddressingStyle_VIRTUAL)].
Definition AuthenticationType_Type_values : list (string * Z) :=
  [("UNKNOWN", AuthenticationType_UNKNOWN); ("KEY", AuthenticationType_KEY);
   ("SERVICE_ACCOUNT", AuthenticationType_SERVICE_ACCOUNT)].
Definition AccessMode_Mode_values : list (string * Z) :=
  [("UNKNOWN", AccessMode_UNKNOWN); ("READ_WRITE", AccessMode_READ_WRITE);
   ("READ_ONLY", AccessMode_READ_ONLY); ("WRITE_ONLY", AccessMode_WRITE_ONLY)].

Definition DriverGetInfoRequest_fields : fields :=
  [].
#[export] Instance DriverGetInfoRequest_message : ProtoMessage DriverGetInfoRequest := {|
  descriptor := DriverGetInfoRequest_fields;
  to_fields m := EmptyString;
  of_fields t := mkDriverGetInfoRequest |}.
#[export] Instance DriverGetInfoRequest_laws : ProtoMessageLaws DriverGetInfoRequest.
Proof. message_laws. Qed.

Definition ObjectProtocol_fields : fields :=
  [(Field "type" 1, KEnum ObjectProtocol_Type_values)].
#[export] Instance ObjectProtocol_message : ProtoMessage ObjectProtocol := {|
  descriptor := ObjectProtocol_fields;
  to_fields m := (proto_Type m, EmptyString);
  of_fields t := {| proto_Type := t.1 |} |}.
#[export] Instance ObjectProtocol_laws : ProtoMessageLaws ObjectProtocol.
Proof. message_laws. Qed.

Definition DriverGetInfoResponse_fields : fields :=
  [(Field "name" 1, KString);
   (Field "supported_protocols" 2, KRepeated ObjectProtocol_fields)].
#[export] Instance DriverGetInfoResponse_message : ProtoMessage DriverGetInfoResponse := {|
  descriptor := DriverGetInfoResponse_fields;
  to_fields m := (info_Name m,
                 (list_to (info_SupportedProtocols m), EmptyString));
  of_fields t := {| info_Name := t.1;
                  info_SupportedProtocols := list_of (M := ObjectProtocol) t.2.1 |} |}.
#[export] Instance DriverGetInfoResponse_laws : ProtoMessageLaws DriverGetInfoResponse.
Proof. message_laws. Qed.

Definition S3AddressingStyle_fields : fields :=
  [(Field "style" 1, KEnum S3AddressingStyle_Style_values)].
#[export] Instance S3AddressingStyle_message : ProtoMessage S3AddressingStyle := {|
  descriptor := S3AddressingStyle_fields;
  to_fields m := (s3Style_Style m, EmptyString);
  of_fields t := {| s3Style_Style := t.1 |} |}.
#[export] Instance S3AddressingStyle_laws : ProtoMessageLaws S3AddressingStyle.
Proof. message_laws. Qed.

Definition S3BucketInfo_fields : fields :=
  [(Field "bucket_id" 1, KString);
   (Field "endpoint" 2, KString);
   (Field "region" 3, KString);
   (Field "addressing_style" 4, KMessage S3AddressingStyle_fields)].
#[export] Instance S3BucketInfo_message : ProtoMessage S3BucketInfo := {|
  descriptor := S3BucketInfo_fields;
  to_fields m := (s3Info_BucketId m,
                 (s3Info_Endpoint m,
                 (s3Info_Region m,
                 (opt_to (s3Info_AddressingStyle m), EmptyString))));
  of_fields t := {| s3Info_BucketId := t.1;
                  s3Info_Endpoint := t.2.1;
                  s3Info_Region := t.2.2.1;
                  s3Info_AddressingStyle := opt_of (M := S3AddressingStyle) t.2.2.2.1 |} |}.
#[export] Instance S3BucketInfo_laws : ProtoMessageLaws S3BucketInfo.
Proof. message_laws. Qed.

Definition AzureBucketInfo_fields : fields :=
  [(Field "storage_account" 1, KString)].
#[export] Instance AzureBucketInfo_message : ProtoMessage AzureBucketInfo := {|
  descriptor := AzureBucketInfo_fields;
  to_fields m := (azureInfo_StorageAccount m, EmptyString);
  of_fields t := {| azureInfo_StorageAccount := t.1 |} |}.
#[export] Instance AzureBucketInfo_laws : ProtoMessageLaws AzureBucketInfo.
Proof. message_laws. Qed.

Definition GcsBucketInfo_fields : fields :=
  [(Field "project_id" 1, KString);
   (Field "bucket_name" 2, KString)].
#[export] Instance GcsBucketInfo_message : ProtoMessage GcsBucketInfo := {|
  descriptor := GcsBucketInfo_fields;
  to_fields m := (gcsInfo_ProjectId m,
                 (gcsInfo_BucketName m, EmptyString));
  of_fields t := {| gcsInfo_ProjectId := t.1;
                  gcsInfo_BucketName := t.2.1 |} |}.
#[export] Instance GcsBucketInfo_laws : ProtoMessageLaws GcsBucketInfo.
Proof. message_laws. Qed.

Definition ObjectProtocolAndBucketInfo_fields : fields :=
  [(Field "s3" 1, KMessage S3BucketInfo_fields);
   (Field "azure" 2, KMessage AzureBucketInfo_fields);
   (Field "gcs" 3, KMessage GcsBucketInfo_fields)].
#[export] Instance ObjectProtocolAndBucketInfo_message : ProtoMessage ObjectProtocolAndBucketInfo := {|
  descriptor := ObjectProtocolAndBucketInfo_fields;
  to_fields m := (opt_to (bucketInfo_S3 m),
                 (opt_to (bucketInfo_Azure m),
                 (opt_to (bucketInfo_Gcs m), EmptyString)));
  of_fields t := {| bucketInfo_S3 := opt_of (M := S3BucketInfo) t.1;
                  bucketInfo_Azure := opt_of (M := AzureBucketInfo) t.2.1;
                  bucketInfo_Gcs := opt_of (M := GcsBucketInfo) t.2.2.1 |} |}.
#[export] Instance ObjectProtocolAndBucketInfo_laws : ProtoMessageLaws ObjectProtocolAndBucketInfo.
Proof. message_laws. Qed.

Definition S3CredentialInfo_fields : fields :=
  [(Field "access_key_id" 1, KString);
   (Field "access_secret_key" 2, KString)].
#[export] Instance S3CredentialInfo_message : ProtoMessage S3CredentialInfo := {|
  descriptor := S3CredentialInfo_fields;
  to_fields m := (s3Cred_AccessKeyId m,
                 (s3Cred_AccessSecretKey m, EmptyString));
  of_fields t := {| s3Cred_AccessKeyId := t.1;
                  s3Cred_AccessSecretKey := t.2.1 |} |}.
#[export] Instance S3CredentialInfo_laws : ProtoMessageLaws S3CredentialInfo.
Proof. message_laws. Qed.

Definition AzureCredentialInfo_fields : fields :=
  [(Field "access_token" 1, KString);
   (Field "expiry_timestamp" 2, KString)].
#[export] Instance AzureCredentialInfo_message : ProtoMessage AzureCredentialInfo := {|
  descriptor := AzureCredentialInfo_fields;
  to_fields m := (azureCred_AccessToken m,
                 (azureCred_ExpiryTimestamp m, EmptyString));
  of_fields t := {| azureCred_AccessToken := t.1;
                  azureCred_ExpiryTimestamp := t.2.1 |} |}.
#[export] Instance AzureCredentialInfo_laws : ProtoMessageLaws AzureCredentialInfo.
Proof. message_laws. Qed.

Definition GcsCredentialInfo_fields : fields :=
  [(Field "access_id" 1, KString);
   (Field "access_secret" 2, KString);
   (Field "private_key_name" 3, KString);
   (Field "service_account" 4, KString)].
#[export] Instance GcsCredentialInfo_message : ProtoMessage GcsCredentialInfo := {|
  descriptor := GcsCredentialInfo_fields;
  to_fields m := (gcsCred_AccessId m,
                 (gcsCred_AccessSecret m,
                 (gcsCred_PrivateKeyName m,
                 (gcsCred_ServiceAccount m, EmptyString))));
  of_fields t := {| gcsCred_AccessId := t.1;
                  gcsCred_AccessSecret := t.2.1;
                  gcsCred_PrivateKeyName := t.2.2.1;
                  gcsCred_ServiceAccount := t.2.2.2.1 |} |}.
#[export] Instance GcsCredentialInfo_laws : ProtoMessageLaws GcsCredentialInfo.
Proof. message_laws. Qed.

Definition CredentialInfo_fields : fields :=
  [(Field "s3" 1, KMessage S3CredentialInfo_fields);
   (Field "azure" 2, KMessage AzureCredentialInfo_fields);
   (Field "gcs" 3, KMessage GcsCredentialInfo_fields)].
#[export] Instance CredentialInfo_message : ProtoMessage CredentialInfo := {|
  descriptor := CredentialInfo_fields;
  to_fields m := (opt_to (cred_S3 m),
                 (opt_to (cred_Azure m),
                 (opt_to (cred_Gcs m), EmptyString)));
  of_fields t := {| cred_S3 := opt_of (M := S3CredentialInfo) t.1;
                  cred_Azure := opt_of (M := AzureCredentialInfo) t.2.1;
                  cred_Gcs := opt_of (M := GcsCredentialInfo) t.2.2.1 |} |}.
#[export] Instance CredentialInfo_laws : ProtoMessageLaws CredentialInfo.
Proof. message_laws. Qed.

Definition AuthenticationType_fields : fields :=
  [(Field "type" 1, KEnum AuthenticationType_Type_values)].
#[export] Instance AuthenticationType_message : ProtoMessage AuthenticationType := {|
  descriptor := AuthenticationType_fields;
  to_fields m := (authType_Type m, EmptyString);
  of_fields t := {| authType_Type := t.1 |} |}.
#[export] Instance AuthenticationType_laws : ProtoMessageLaws AuthenticationType.
Proof. message_laws. Qed.

Definition AccessMode_fields : fields :=
  [(Field "mode" 1, KEnum AccessMode_Mode_values)].
#[export] Instance AccessMode_message : ProtoMessage AccessMode := {|
  descriptor := AccessMode_fields;
  to_fields m := (accessMode_Mode m, EmptyString);
  of_fields t := {| accessMode_Mode := t.1 |} |}.
#[export] Instance AccessMode_laws : ProtoMessageLaws AccessMode.
Proof. message_laws. Qed.

Definition DriverCreateBucketRequest_fields : fields :=
  [(Field "name" 1, KString);
   (Field "protocols" 2, KRepeated ObjectProtocol_fields);
   (Field "parameters" 4, KMap)].
#[export] Instance DriverCreateBucketRequest_message : ProtoMessage DriverCreateBucketRequest := {|
  descriptor := DriverCreateBucketRequest_fields;
  to_fields m := (createReq_Name m,
                 (list_to (createReq_Protocols m),
                 (createReq_Parameters m, EmptyString)));
  of_fields t := {| createReq_Name := t.1;
                  createReq_Protocols := list_of (M := ObjectProtocol) t.2.1;
                  createReq_Parameters := t.2.2.1 |} |}.
#[export] Instance DriverCreateBucketRequest_laws : ProtoMessageLaws DriverCreateBucketRequest.
Proof. message_laws. Qed.

Definition DriverCreateBucketResponse_fields : fields :=
  [(Field "bucket_id" 1, KString);
   (Field "protocols" 2, KMessage ObjectProtocolAndBucketInfo_fields)].
#[export] Instance DriverCreateBucketResponse_message : ProtoMessage DriverCreateBucketResponse := {|
  descriptor := DriverCreateBucketResponse_fields;
  to_fields m := (createResp_BucketId m,
                 (opt_to (createResp_Protocols m), EmptyString));
  of_fields t := {| createResp_BucketId := t.1;
                  createResp_Protocols := opt_of (M := ObjectProtocolAndBucketInfo) t.2.1 |} |}.
#[export] Instance DriverCreateBucketResponse_laws : ProtoMessageLaws DriverCreateBucketResponse.
Proof. message_laws. Qed.

Definition DriverGetExistingBucketRequest_fields : fields :=
  [(Field "existing_bucket_id" 1, KString);
   (Field "protocols" 2, KRepeated ObjectProtocol_fields);
   (Field "parameters" 4, KMap)].
#[export] Instance DriverGetExistingBucketRequest_message : ProtoMessage DriverGetExistingBucketRequest := {|
  descriptor := DriverGetExistingBucketRequest_fields;
  to_fields m := (getReq_ExistingBucketId m,
                 (list_to (getReq_Protocols m),
                 (getReq_Parameters m, EmptyString)));
  of_fields t := {| getReq_ExistingBucketId := t.1;
                  getReq_Protocols := list_of (M := ObjectProtocol) t.2.1;
                  getReq_Parameters := t.2.2.1 |} |}.
#[export] Instance DriverGetExistingBucketRequest_laws : ProtoMessageLaws DriverGetExistingBucketRequest.
Proof. message_laws. Qed.

Definition DriverGetExistingBucketResponse_fields : fields :=
  [(Field "bucket_id" 1, KString);
   (Field "protocols" 2, KMessage ObjectProtocolAndBucketInfo_fields)].
#[export] Instance DriverGetExistingBucketResponse_message : ProtoMessage DriverGetExistingBucketResponse := {|
  descriptor := DriverGetExistingBucketResponse_fields;
  to_fields m := (getResp_BucketId m,
                 (opt_to (getResp_Protocols m), EmptyString));
  of_fields t := {| getResp_BucketId := t.1;
                  getResp_Protocols := opt_of (M := ObjectProtocolAndBucketInfo) t.2.1 |} |}.
#[export] Instance DriverGetExistingBucketResponse_laws : ProtoMessageLaws DriverGetExistingBucketResponse.
Proof. message_laws. Qed.

Definition DriverDeleteBucketRequest_fields : fields :=
  [(Field "bucket_id" 1, KString);
   (Field "parameters" 4, KMap)].
#[export] Instance DriverDeleteBucketRequest_message : ProtoMessage DriverDeleteBucketRequest := {|
  descriptor := DriverDeleteBucketRequest_fields;
  to_fields m := (deleteReq_BucketId m,
                 (deleteReq_Parameters m, EmptyString));
  of_fields t := {| deleteReq_BucketId := t.1;
                  deleteReq_Parameters := t.2.1 |} |}.
#[export] Instance DriverDeleteBucketRequest_laws : ProtoMessageLaws DriverDeleteBucketRequest.
Proof. message_laws. Qed.

Definition DriverDeleteBucketResponse_fields : fields :=
  [].
#[export] Instance DriverDeleteBucketResponse_message : ProtoMessage DriverDeleteBucketResponse := {|
  descriptor := DriverDeleteBucketResponse_fields;
  to_fields m := EmptyString;
  of_fields t := mkDriverDeleteBucketResponse |}.
#[export] Instance DriverDeleteBucketResponse_laws : ProtoMessageLaws DriverDeleteBucketResponse.
Proof. message_laws. Qed.

Definition DriverGrantBucketAccessRequest_AccessedBucket_fields : fields :=
  [(Field "bucket_id" 1, KString);
   (Field "access_mode" 2, KMessage AccessMode_fields)].
#[export] Instance DriverGrantBucketAccessRequest_AccessedBucket_message : ProtoMessage DriverGrantBucketAccessRequest_AccessedBucket := {|
  descriptor := DriverGrantBucketAccessRequest_AccessedBucket_fields;
  to_fields m := (grantReqBucket_BucketId m,
                 (opt_to (grantReqBucket_AccessMode m), EmptyString));
  of_fields t := {| grantReqBucket_BucketId := t.1;
                  grantReqBucket_AccessMode := opt_of (M := AccessMode) t.2.1 |} |}.
#[export] Instance DriverGrantBucketAccessRequest_AccessedBucket_laws : ProtoMessageLaws DriverGrantBucketAccessRequest_AccessedBucket.
Proof. message_laws. Qed.

Definition DriverGrantBucketAccessRequest_fields : fields :=
  [(Field "account_name" 1, KString);
   (Field "protocol" 2, KMessage ObjectProtocol_fields);
   (Field "authentication_type" 3, KMessage AuthenticationType_fields);
   (Field "service_account_name" 4, KString);
   (Field "parameters" 5, KMap);
   (Field "buckets" 6, KRepeated DriverGrantBucketAccessRequest_AccessedBucket_fields)].
#[export] Instance DriverGrantBucketAccessRequest_message : ProtoMessage DriverGrantBucketAccessRequest := {|
  descriptor := DriverGrantBucketAccessRequest_fields;
  to_fields m := (grantReq_AccountName m,
                 (opt_to (grantReq_Protocol m),
                 (opt_to (grantReq_AuthenticationType m),
                 (grantReq_ServiceAccountName m,
                 (grantReq_Parameters m,
                 (list_to (grantReq_Buckets m), EmptyString))))));
  of_fields t := {| grantReq_AccountName := t.1;
                  grantReq_Protocol := opt_of (M := ObjectProtocol) t.2.1;
                  grantReq_AuthenticationType := opt_of (M := AuthenticationType) t.2.2.1;
                  grantReq_ServiceAccountName := t.2.2.2.1;
                  grantReq_Parameters := t.2.2.2.2.1;
                  grantReq_Buckets := list_of (M := DriverGrantBucketAccessRequest_AccessedBucket) t.2.2.2.2.2.1 |} |}.
#[export] Instance DriverGrantBucketAccessRequest_laws : ProtoMessageLaws DriverGrantBucketAccessRequest.
Proof. message_laws. Qed.

Definition DriverGrantBucketAccessResponse_BucketInfo_fields : fields :=
  [(Field "bucket_id" 1, KString);
   (Field "bucket_info" 2, KMessage ObjectProtocolAndBucketInfo_fields)].
#[export] Instance DriverGrantBucketAccessResponse_BucketInfo_message : ProtoMessage DriverGrantBucketAccessResponse_BucketInfo := {|
  descriptor := DriverGrantBucketAccessResponse_BucketInfo_fields;
  to_fields m := (grantRespBucket_BucketId m,
                 (opt_to (grantRespBucket_BucketInfo m), EmptyString));
  of_fields t := {| grantRespBucket_BucketId := t.1;
                  grantRespBucket_BucketInfo := opt_of (M := ObjectProtocolAndBucketInfo) t.2.1 |} |}.
#[export] Instance DriverGrantBucketAccessResponse_BucketInfo_laws : ProtoMessageLaws DriverGrantBucketAccessResponse_BucketInfo.
Proof. message_laws. Qed.

Definition DriverGrantBucketAccessResponse_fields : fields :=
  [(Field "account_id" 1, KString);
   (Field "buckets" 2, KRepeated DriverGrantBucketAccessResponse_BucketInfo_fields);
   (Field "credentials" 3, KMessage CredentialInfo_fields)].
#[export] Instance DriverGrantBucketAccessResponse_message : ProtoMessage DriverGrantBucketAccessResponse := {|
  descriptor := DriverGrantBucketAccessResponse_fields;
  to_fields m := (grantResp_AccountId m,
                 (list_to (grantResp_Buckets m),
                 (opt_to (grantResp_Credentials m), EmptyString)));
  of_fields t := {| grantResp_AccountId := t.1;
                  grantResp_Buckets := list_of (M := DriverGrantBucketAccessResponse_BucketInfo) t.2.1;
                  grantResp_Credentials := opt_of (M := CredentialInfo) t.2.2.1 |} |}.
#[export] Instance DriverGrantBucketAccessResponse_laws : ProtoMessageLaws DriverGrantBucketAccessResponse.
Proof. message_laws. Qed.

Definition DriverRevokeBucketAccessRequest_AccessedBucket_fields : fields :=
  [(Field "bucket_id" 1, KString)].
#[export] Instance DriverRevokeBucketAccessRequest_AccessedBucket_message : ProtoMessage DriverRevokeBucketAccessRequest_AccessedBucket := {|
  descriptor := DriverRevokeBucketAccessRequest_AccessedBucket_fields;
  to_fields m := (revokeReqBucket_BucketId m, EmptyString);
  of_fields t := {| revokeReqBucket_BucketId := t.1 |} |}.
#[export] Instance DriverRevokeBucketAccessRequest_AccessedBucket_laws : ProtoMessageLaws DriverRevokeBucketAccessRequest_AccessedBucket.
Proof. message_laws. Qed.

Definition DriverRevokeBucketAccessRequest_fields : fields :=
  [(Field "account_id" 1, KString);
   (Field "protocol" 2, KMessage ObjectProtocol_fields);
   (Field "authentication_type" 3, KMessage AuthenticationType_fields);
   (Field "service_account_name" 4, KString);
   (Field "parameters" 5, KMap);
   (Field "buckets" 6, KRepeated DriverRevokeBucketAccessRequest_AccessedBucket_fields)].
#[export] Instance DriverRevokeBucketAccessRequest_message : ProtoMessage DriverRevokeBucketAccessRequest := {|
  descriptor := DriverRevokeBucketAccessRequest_fields;
  to_fields m := (revokeReq_AccountId m,
                 (opt_to (revokeReq_Protocol m),
                 (opt_to (revokeReq_AuthenticationType m),
                 (revokeReq_ServiceAccountName m,
                 (revokeReq_Parameters m,
                 (list_to (revokeReq_Buckets m), EmptyString))))));
  of_fields t := {| revokeReq_AccountId := t.1;
                  revokeReq_Protocol := opt_of (M := ObjectProtocol) t.2.1;
                  revokeReq_AuthenticationType := opt_of (M := AuthenticationType) t.2.2.1;
                  revokeReq_ServiceAccountName := t.2.2.2.1;
                  revokeReq_Parameters := t.2.2.2.2.1;
                  revokeReq_Buckets := list_of (M := DriverRevokeBucketAccessRequest_AccessedBucket) t.2.2.2.2.2.1 |} |}.
#[export] Instance DriverRevokeBucketAccessRequest_laws : ProtoMessageLaws DriverRevokeBucketAccessRequest.
Proof. message_laws. Qed.

Definition DriverRevokeBucketAccessResponse_fields : fields :=
  [].
#[export] Instance DriverRevokeBucketAccessResponse_message : ProtoMessage DriverRevokeBucketAccessResponse := {|
  descriptor := DriverRevokeBucketAccessResponse_fields;
  to_fields m := EmptyString;
  of_fields t := mkDriverRevokeBucketAccessResponse |}.
#[export] Instance DriverRevokeBucketAccessResponse_laws : ProtoMessageLaws DriverRevokeBucketAccessResponse.
Proof. message_laws. Qed.
