(* ===== verification/JsonText.v ===== *)
(** * The text of JSON values

    Models the vendored package [internal/encoding/json] of the protobuf library, which
    [protojson] writes and reads text with: the encoder as a buffer with the kind of the last
    token, the decoder as a state machine over tokens.

    The reader of a message ([protojson]) asks the decoder for one token after the other. Here
    [json_read] collects the tokens to a value and [ProtoJson] reads the value, so a text with two
    errors may be reported with another one of the two; whether there is an error is the same.
    Positions in error texts are left out. The encoder writes on one line, as the JSON methods of
    the driver messages ask it to; [detrand] is the constant of the binary by which it puts a
    space behind commas or not. *)

From Stdlib Require Import Ascii.
From stdpp Require Import base strings list.
From S2P Require Import Prelude ProtoDesc.

#[local] Set Warnings "-register-all".

Inductive json : Type :=
| JNull
| JBool (b : bool)
| JNumber (n : option Z)      (* the value of the number, when it is an integer *)
| JString (s : string)
| JArray (l : list json)
| JObject (l : list (string * json)).

Inductive json_error : Type :=
| SyntaxError
| UnexpectedToken
| InvalidUTF8
| UnknownField (name : string)
| DuplicateField (name : string)
| DuplicateKey (key : string)
| InvalidValue
| RecursionDepth
| TextOutOfFuel.

#[local] Abbreviation code c := (N_of_ascii c).

(** ** The encoder *)

(** The kinds of what was written last. *)
Inductive enc_kind : Type :=
| EncStart | EncName | EncScalar | EncObjectOpen | EncObjectClose | EncArrayOpen | EncArrayClose.

Record Encoder : Type := { enc_lastKind : enc_kind; enc_out : string }.
Definition NewEncoder : Encoder := {| enc_lastKind := EncStart; enc_out := "" |}.

Definition hex_digit (n : N) : ascii := ascii_of_N (if (n <? 10)%N then 48 + n else 87 + n).

(** The loop of [appendString] on one byte: what needs escaping is one byte long. *)
Definition escape_byte (c : ascii) : string :=
  let n := code c in
  let escaped x := String "\" (String x "") in
  if (n =? 34)%N || (n =? 92)%N then escaped c
  else if (n =? 8)%N then escaped "b"%char
  else if (n =? 12)%N then escaped "f"%char
  else if (n =? 10)%N then escaped "n"%char
  else if (n =? 13)%N then escaped "r"%char
  else if (n =? 9)%N then escaped "t"%char
  else if (n <? 32)%N then
    String "\" (String "u" (String "0" (String "0" (String (hex_digit (n / 16)) (String (hex_digit (n mod 16)) "")))))
  else String c "".
Fixpoint escape (s : string) : string :=
  match s with
  | EmptyString => ""
  | String c s' => escape_byte c +:+ escape s'
  end.
(** [appendString]; that the string is valid UTF-8 is checked by [ProtoJson.marshalString]. *)
Definition appendString (s : string) : string := dquote +:+ escape s +:+ dquote.

(** [strconv.AppendInt]: the digits, from the last one. *)
Fixpoint append_digits (fuel : nat) (n : Z) (acc : string) : string :=
  match fuel with
  | 0 => acc
  | S fuel' =>
      let acc' := String (ascii_of_N (48 + Z.to_N (n mod 10))) acc in
      if (n <? 10)%Z then acc' else append_digits fuel' (n / 10) acc'
  end.
Definition AppendInt (n : Z) : string :=
  if (n <? 0)%Z then String "-" (append_digits 20 (- n) "") else append_digits 20 n "".

Section encoder.
Context (detrand : bool).

(** What [prepareNext] adds without an indent. *)
Definition separator (last next : enc_kind) : string :=
  match last with
  | EncScalar | EncObjectClose | EncArrayClose =>
      match next with
      | EncName | EncScalar | EncObjectOpen | EncArrayOpen => String "," (if detrand then " " else "")
      | _ => ""
      end
  | _ => ""
  end.
Definition prepareNext (next : enc_kind) (e : Encoder) : Encoder :=
  {| enc_lastKind := next; enc_out := enc_out e +:+ separator (enc_lastKind e) next |}.
Definition emit (next : enc_kind) (text : string) (e : Encoder) : Encoder :=
  let e := prepareNext next e in
  {| enc_lastKind := enc_lastKind e; enc_out := enc_out e +:+ text |}.

Definition WriteNull : Encoder → Encoder := emit EncScalar "null".
Definition WriteBool (b : bool) : Encoder → Encoder := emit EncScalar (if b then "true" else "false").
Definition WriteString (s : string) : Encoder → Encoder := emit EncScalar (appendString s).
Definition WriteInt (n : Z) : Encoder → Encoder := emit EncScalar (AppendInt n).
Definition StartObject : Encoder → Encoder := emit EncObjectOpen "{".
Definition EndObject : Encoder → Encoder := emit EncObjectClose "}".
Definition WriteName (s : string) : Encoder → Encoder := emit EncName (appendString s +:+ ":").
Definition StartArray : Encoder → Encoder := emit EncArrayOpen "[".
Definition EndArray : Encoder → Encoder := emit EncArrayClose "]".

(** The calls of [protojson] for a value. A number that is no integer is never written. *)
Fixpoint write_value (j : json) (e : Encoder) : Encoder :=
  match j with
  | JNull => WriteNull e
  | JBool b => WriteBool b e
  | JNumber n => WriteInt (default 0%Z n) e
  | JString s => WriteString s e
  | JArray l => EndArray (foldl (λ e j, write_value j e) (StartArray e) l)
  | JObject l => EndObject (foldl (λ e nj, write_value nj.2 (WriteName nj.1 e)) (StartObject e) l)
  end.
Definition json_write (j : json) : string := enc_out (write_value j NewEncoder).
End encoder.

(** ** The decoder: tokens *)

Inductive Kind : Type :=
| TInvalid | TEOF | TNull | TBool | TNumber | TString | TName
| TObjectOpen | TObjectClose | TArrayOpen | TArrayClose | TComma.

#[export] Instance Kind_eq_dec : EqDecision Kind.
Proof. solve_decision. Defined.

Record Token : Type := { tok_kind : Kind; tok_raw : string; tok_boo : bool; tok_str : string }.
Definition token (k : Kind) (raw : string) : Token :=
  {| tok_kind := k; tok_raw := raw; tok_boo := false; tok_str := "" |}.

(** White space at the start of the input, which [consume] skips behind every token. *)
Fixpoint skip_spaces (b : string) : string :=
  match b with
  | String c b' =>
      let n := code c in
      if (n =? 32)%N || (n =? 10)%N || (n =? 13)%N || (n =? 9)%N then skip_spaces b' else b
  | EmptyString => ""
  end.

Definition isNotDelim (c : ascii) : bool :=
  Ascii.eqb c "-" || Ascii.eqb c "+" || Ascii.eqb c "." || Ascii.eqb c "_" ||
  between "a" c "z" || between "A" c "Z" || is_digit c.
(** The input ends here or goes on with a delimiter. *)
Definition delim_next (b : string) : bool :=
  match b with EmptyString => true | String c _ => negb (isNotDelim c) end.

(** The input without a prefix. *)
Fixpoint strip_prefix (s b : string) : option string :=
  match s, b with
  | EmptyString, _ => Some b
  | String c s', String c' b' => if Ascii.eqb c c' then strip_prefix s' b' else None
  | String _ _, EmptyString => None
  end.
Definition matchWithDelim (s b : string) : option string :=
  match strip_prefix s b with
  | Some rest => if delim_next rest then Some rest else None
  | None => None
  end.

(** *** Numbers *)

Fixpoint take_digits (b : string) : string * string :=
  match b with
  | String c b' => if is_digit c then let '(d, rest) := take_digits b' in (String c d, rest) else ("", b)
  | EmptyString => ("", "")
  end.

Record numberParts : Type := { num_neg : bool; num_intp : string; num_frac : string; num_exp : string }.

(** The scan that [parseNumber] and [parseNumberParts] share: the parts and what follows. *)
Definition scan_int (s : string) : option (string * string) :=
  match s with
  | EmptyString => None
  | String c s' =>
      if Ascii.eqb c "0" then Some ("", s')
      else if between "1" c "9" then Some (take_digits s)
      else None
  end.
Definition scan_frac (s : string) : string * string :=
  match s with
  | String c ((String d _) as s') =>
      if Ascii.eqb c "." && is_digit d then take_digits s' else ("", s)
  | _ => ("", s)
  end.
Definition scan_exp (s : string) : option (string * string) :=
  match s with
  | String c ((String d s'') as s') =>
      if Ascii.eqb c "e" || Ascii.eqb c "E" then
        if Ascii.eqb d "+" || Ascii.eqb d "-" then
          match s'' with
          | EmptyString => None
          | String _ _ => let '(ds, rest) := take_digits s'' in Some (String d ds, rest)
          end
        else Some (take_digits s')
      else Some ("", s)
  | _ => Some ("", s)
  end.
Definition scan_parts (neg : bool) (s : string) : option (numberParts * string) :=
  match scan_int s with
  | None => None
  | Some (intp, s) =>
      let '(frac, s) := scan_frac s in
      match scan_exp s with
      | None => None
      | Some (exp, s) => Some ({| num_neg := neg; num_intp := intp; num_frac := frac; num_exp := exp |}, s)
      end
  end.
Definition scan_number (input : string) : option (numberParts * string) :=
  match input with
  | String c s' => if Ascii.eqb c "-" then scan_parts true s' else scan_parts false input
  | EmptyString => None
  end.

Definition str_prefix (b rest : string) : string :=
  String.substring 0 (String.length b - String.length rest) b.

(** The bytes of the number and what follows. *)
Definition parseNumber (input : string) : option (string * string) :=
  match scan_number input with
  | Some (_, rest) => if delim_next rest then Some (str_prefix input rest, rest) else None
  | None => None
  end.

(** [bytes.TrimRight(frac, "0")]. *)
Fixpoint trim_zeros (s : string) : string :=
  match s with
  | EmptyString => ""
  | String c s' =>
      match trim_zeros s' with
      | EmptyString => if Ascii.eqb c "0" then "" else String c ""
      | t => String c t
      end
  end.
Definition parseNumberParts (input : string) : option numberParts :=
  match scan_number input with
  | Some (p, _) =>
      Some {| num_neg := num_neg p; num_intp := num_intp p; num_frac := trim_zeros (num_frac p);
              num_exp := num_exp p |}
  | None => None
  end.

(** The value of digits, behind the value of the digits before. *)
Fixpoint digits_from (v : Z) (s : string) : option Z :=
  match s with
  | EmptyString => Some v
  | String c s' => if is_digit c then digits_from (10 * v + (Z.of_N (code c) - 48)) s' else None
  end.
(** [strconv.ParseInt] in base 10, without the limit of the bit size. *)
Definition ParseInt (s : string) : option Z :=
  let '(neg, ds) := match s with
                    | String c s' => if Ascii.eqb c "-" then (true, s')
                                     else if Ascii.eqb c "+" then (false, s') else (false, s)
                    | EmptyString => (false, s)
                    end in
  match ds with
  | EmptyString => None
  | String _ _ => (λ v, if neg : bool then (- v)%Z else v) <$> digits_from 0 ds
  end.

Fixpoint zeros (n : nat) : string := match n with 0 => "" | S n' => String "0" (zeros n') end.
Definition all_zeros (s : string) : bool := s =s zeros (String.length s).

Definition normalizeToIntString (n : numberParts) : option string :=
  let intpSize := Z.of_nat (String.length (num_intp n)) in
  let fracSize := Z.of_nat (String.length (num_frac n)) in
  if (intpSize =? 0)%Z && (fracSize =? 0)%Z then Some "0"
  else
    match (if num_exp n =s "" then Some 0%Z
           else match ParseInt (num_exp n) with
                | Some e => if int32 e then Some e else None
                | None => None
                end) with
    | None => None
    | Some exp =>
        let num :=
          if (0 <=? exp)%Z then
            if (exp <? fracSize)%Z then None
            else if (20 <? intpSize + exp)%Z then None
            else Some (num_intp n +:+ num_frac n +:+ zeros (Z.to_nat (exp - fracSize)))
          else if (0 <? fracSize)%Z then None
          else
            let index := (intpSize + exp)%Z in
            if (index <? 0)%Z then None
            else
              let i := Z.to_nat index in
              if all_zeros (String.substring i (String.length (num_intp n) - i) (num_intp n))
              then Some (String.substring 0 i (num_intp n)) else None in
        (λ d, if num_neg n then String "-" d else d) <$> num
    end.

(** [Token.Int], without the limit of the bit size, which [ProtoJson.unmarshalEnum] checks. *)
Definition Token_Int (t : Token) : option Z :=
  match parseNumberParts (tok_raw t) with
  | Some p => match normalizeToIntString p with Some s => ParseInt s | None => None end
  | None => None
  end.

(** *** Strings *)

(** [strconv.ParseUint] of four hexadecimal digits. *)
Definition hex4 (a b c d : ascii) : option N :=
  match hex_value a, hex_value b, hex_value c, hex_value d with
  | Some a, Some b, Some c, Some d => Some (((a * 16 + b) * 16 + c) * 16 + d)%N
  | _, _, _, _ => None
  end.

(** [string(r)] for a rune that is not a surrogate. *)
Definition utf8_encode (r : N) : string :=
  let cont n := ascii_of_N (128 + n mod 64) in
  if (r <? 128)%N then String (ascii_of_N r) ""
  else if (r <? 2048)%N then String (ascii_of_N (192 + r / 64)) (String (cont r) "")
  else if (r <? 65536)%N then
    String (ascii_of_N (224 + r / 4096)) (String (cont (r / 64)%N) (String (cont r) ""))
  else
    String (ascii_of_N (240 + r / 262144))
      (String (cont (r / 4096)%N) (String (cont (r / 64)%N) (String (cont r) ""))).

Definition IsSurrogate (r : N) : bool := (55296 <=? r)%N && (r <? 57344)%N.
(** [utf16.DecodeRune]; [None] is the replacement character. *)
Definition DecodeRune (r1 r2 : N) : option N :=
  if (55296 <=? r1)%N && (r1 <? 56320)%N && (56320 <=? r2)%N && (r2 <? 57344)%N
  then Some (65536 + (r1 - 55296) * 1024 + (r2 - 56320))%N
  else None.

Definition simple_escape (c : ascii) : option ascii :=
  let n := code c in
  if (n =? 34)%N || (n =? 92)%N || (n =? 47)%N then Some c
  else if (n =? 98)%N then Some (ascii_of_N 8)
  else if (n =? 102)%N then Some (ascii_of_N 12)
  else if (n =? 110)%N then Some (ascii_of_N 10)
  else if (n =? 114)%N then Some (ascii_of_N 13)
  else if (n =? 116)%N then Some (ascii_of_N 9)
  else None.

Definition prepend (a : string) (r : result json_error (string * string)) :
    result json_error (string * string) :=
  match r with Ok (s, rest) => Ok (a +:+ s, rest) | Err e => Err e end.

(** The loop of [parseString], behind the first quotation mark: the string and what follows it.
    The source decodes a rune at a time; [pending] says what may follow inside of one, as in
    [utf8_from]. *)
Fixpoint parseString_from (pending : option (N * N * nat)) (b : string) :
    result json_error (string * string) :=
  match b with
  | EmptyString => Err SyntaxError
  | String c b1 =>
      let n := code c in
      match pending with
      | Some (lo, hi, more) =>
          if (n <? lo)%N || (hi <? n)%N then Err SyntaxError
          else prepend (String c "")
                 (parseString_from (match more with 0 => None | S more' => Some (128%N, 191%N, more') end) b1)
      | None =>
          if (n <? 32)%N then Err SyntaxError
          else if (n =? 34)%N then Ok ("", b1)
          else if (n =? 92)%N then
            match b1 with
            | EmptyString => Err SyntaxError
            | String e b2 =>
                match simple_escape e with
                | Some x => prepend (String x "") (parseString_from None b2)
                | None =>
                    if Ascii.eqb e "u" then
                      match b2 with
                      | String h1 (String h2 (String h3 (String h4 b6))) =>
                          match hex4 h1 h2 h3 h4 with
                          | None => Err SyntaxError
                          | Some r =>
                              if IsSurrogate r then
                                match b6 with
                                | String s (String u (String g1 (String g2 (String g3 (String g4 b12))))) =>
                                    match hex4 g1 g2 g3 g4 with
                                    | None => Err SyntaxError
                                    | Some r2 =>
                                        match DecodeRune r r2 with
                                        | Some r' =>
                                            if Ascii.eqb s "\" && Ascii.eqb u "u"
                                            then prepend (utf8_encode r') (parseString_from None b12)
                                            else Err SyntaxError
                                        | None => Err SyntaxError
                                        end
                                    end
                                | _ => Err SyntaxError
                                end
                              else prepend (utf8_encode r) (parseString_from None b6)
                          end
                      | _ => Err SyntaxError
                      end
                    else Err SyntaxError
                end
            end
          else if (n <? 128)%N then prepend (String c "") (parseString_from None b1)
          else
            match utf8_lead n with
            | None => Err SyntaxError
            | Some p => prepend (String c "") (parseString_from (Some p) b1)
            end
      end
  end.

(** ** The decoder: the state machine *)

Record Decoder : Type := { dec_last : Kind; dec_open : list Kind; dec_in : string }.
Definition NewDecoder (b : string) : Decoder := {| dec_last := TInvalid; dec_open := []; dec_in := b |}.

(** [parseNext] on an input without spaces in front: the token and the input behind it. *)
Definition keyword (word : string) (t : Token) (b : string) : result json_error (Token * string) :=
  match matchWithDelim word b with Some rest => Ok (t, rest) | None => Err SyntaxError end.
Definition parseNext (b : string) : result json_error (Token * string) :=
  match b with
  | EmptyString => Ok (token TEOF "", "")
  | String c b' =>
      if Ascii.eqb c "n" then keyword "null" (token TNull "null") b
      else if Ascii.eqb c "t" then
        keyword "true" {| tok_kind := TBool; tok_raw := "true"; tok_boo := true; tok_str := "" |} b
      else if Ascii.eqb c "f" then keyword "false" (token TBool "false") b
      else if Ascii.eqb c "-" || is_digit c then
        match parseNumber b with Some (raw, rest) => Ok (token TNumber raw, rest) | None => Err SyntaxError end
      else if (code c =? 34)%N then
        match parseString_from None b' with
        | Ok (s, rest) =>
            Ok ({| tok_kind := TString; tok_raw := str_prefix b rest; tok_boo := false; tok_str := s |}, rest)
        | Err e => Err e
        end
      else if Ascii.eqb c "{" then Ok (token TObjectOpen "{", b')
      else if Ascii.eqb c "}" then Ok (token TObjectClose "}", b')
      else if Ascii.eqb c "[" then Ok (token TArrayOpen "[", b')
      else if Ascii.eqb c "]" then Ok (token TArrayClose "]", b')
      else if Ascii.eqb c "," then Ok (token TComma ",", b')
      else Err SyntaxError
  end.

Definition isValueNext (d : Decoder) : bool :=
  match dec_open d with
  | [] => match dec_last d with TInvalid => true | _ => false end
  | TObjectOpen :: _ => match dec_last d with TName => true | _ => false end
  | _ => match dec_last d with TArrayOpen | TComma => true | _ => false end
  end.

(** A token in its place: the decoder behind it. At the end of the text only open values matter: the
    source's second condition, [lastToken.kind&scalar|ObjectClose|ArrayClose == 0], never holds, since
    [==] binds weaker than [&] and [|]. *)
Definition accept (d : Decoder) (t : Token) (rest : string) : result json_error (Token * Decoder) :=
  let next open := {| dec_last := tok_kind t; dec_open := open; dec_in := rest |} in
  match tok_kind t with
  | TEOF => if bool_decide (dec_open d = []) then Ok (t, next []) else Err SyntaxError
  | TNull | TBool | TNumber => if isValueNext d then Ok (t, next (dec_open d)) else Err SyntaxError
  | TString =>
      if isValueNext d then Ok (t, next (dec_open d))
      else
        match dec_last d with
        | TObjectOpen | TComma =>
            match rest with
            | String c rest' =>
                if Ascii.eqb c ":" then
                  Ok ({| tok_kind := TName; tok_raw := tok_raw t; tok_boo := tok_boo t; tok_str := tok_str t |},
                      {| dec_last := TName; dec_open := dec_open d; dec_in := skip_spaces rest' |})
                else Err SyntaxError
            | EmptyString => Err SyntaxError
            end
        | _ => Err SyntaxError
        end
  | TObjectOpen | TArrayOpen =>
      if isValueNext d then Ok (t, next (tok_kind t :: dec_open d)) else Err SyntaxError
  | TObjectClose =>
      match dec_open d, dec_last d with
      | _, (TName | TComma) => Err SyntaxError
      | TObjectOpen :: outer, _ => Ok (t, next outer)
      | _, _ => Err SyntaxError
      end
  | TArrayClose =>
      match dec_open d, dec_last d with
      | _, TComma => Err SyntaxError
      | TArrayOpen :: outer, _ => Ok (t, next outer)
      | _, _ => Err SyntaxError
      end
  | TComma =>
      match dec_open d, dec_last d with
      | _ :: _, (TNull | TBool | TNumber | TString | TObjectClose | TArrayClose) => Ok (t, next (dec_open d))
      | _, _ => Err SyntaxError
      end
  | TInvalid | TName => Ok (t, next (dec_open d))
  end.

(** [Read] up to the recursive call. *)
Definition read_once (d : Decoder) : result json_error (Token * Decoder) :=
  '(t, rest) ← parseNext (skip_spaces (dec_in d));
  accept d t (skip_spaces rest).
(** [Read]: behind a comma it reads again, and no second comma is accepted there. *)
Definition Read (d : Decoder) : result json_error (Token * Decoder) :=
  '(t, d') ← read_once d;
  match tok_kind t with TComma => read_once d' | _ => Ok (t, d') end.

(** ** Values *)

(** The value that begins with a token, the rest of an object and the rest of an array. *)
Fixpoint read_value (fuel : nat) (t : Token) (d : Decoder) : result json_error (json * Decoder) :=
  match fuel with
  | 0 => Err TextOutOfFuel
  | S fuel' =>
      match tok_kind t with
      | TNull => Ok (JNull, d)
      | TBool => Ok (JBool (tok_boo t), d)
      | TNumber => Ok (JNumber (Token_Int t), d)
      | TString => Ok (JString (tok_str t), d)
      | TObjectOpen => '(l, d) ← read_members fuel' d; Ok (JObject l, d)
      | TArrayOpen => '(l, d) ← read_elements fuel' d; Ok (JArray l, d)
      | _ => Err UnexpectedToken
      end
  end
with read_members (fuel : nat) (d : Decoder) : result json_error (list (string * json) * Decoder) :=
  match fuel with
  | 0 => Err TextOutOfFuel
  | S fuel' =>
      '(t, d) ← Read d;
      match tok_kind t with
      | TObjectClose => Ok ([], d)
      | TName =>
          '(t', d) ← Read d;
          '(j, d) ← read_value fuel' t' d;
          '(l, d) ← read_members fuel' d;
          Ok ((tok_str t, j) :: l, d)
      | _ => Err UnexpectedToken
      end
  end
with read_elements (fuel : nat) (d : Decoder) : result json_error (list json * Decoder) :=
  match fuel with
  | 0 => Err TextOutOfFuel
  | S fuel' =>
      '(t, d) ← Read d;
      match tok_kind t with
      | TArrayClose => Ok ([], d)
      | _ =>
          '(j, d) ← read_value fuel' t d;
          '(l, d) ← read_elements fuel' d;
          Ok (j :: l, d)
      end
  end.

(** The whole text: one value, then the end. *)
Definition json_read (b : string) : result json_error json :=
  '(t, d) ← Read (NewDecoder b);
  '(j, d) ← read_value (2 * String.length b + 2) t d;
  '(t', _) ← Read d;
  match tok_kind t' with TEOF => Ok j | _ => Err UnexpectedToken end.

Example json_texts :
  json_read " [1, -2.50e2 ,null,[ ],1.5,0e7] " =
    Ok (JArray [JNumber (Some 1%Z); JNumber (Some (-250)%Z); JNull; JArray []; JNumber None; JNumber (Some 0%Z)]) ∧
  is_ok (json_read "[1,]") = false ∧ is_ok (json_read "[01]") = false ∧ is_ok (json_read "[}") = false ∧
  is_ok (json_read "") = false ∧ is_ok (json_read "nullx") = false ∧ is_ok (json_read "null null") = false.
Proof. vm_compute. by split_and!. Qed.

(** ** The reader comes to an end *)

Lemma skip_spaces_length b : String.length (skip_spaces b) ≤ String.length b.
Proof. induction b as [|c b IH]; cbn; [lia|]. case_match; cbn; lia. Qed.

Lemma strip_prefix_length s b rest :
  strip_prefix s b = Some rest → String.length b = String.length s + String.length rest.
Proof.
  revert b. induction s as [|c s IH]; intros b; cbn; [by intros [= ->]|]. destruct b as [|c' b]; [done|].
  case_match; [|done]. intros Hl%IH. cbn. lia.
Qed.

Lemma take_digits_length b d rest :
  take_digits b = (d, rest) → String.length b = String.length d + String.length rest.
Proof.
  revert d. induction b as [|c b IH]; intros d; cbn; [by intros [= <- <-]|].
  case_match; [|by intros [= <- <-]]. destruct (take_digits b) as [d' rest'] eqn:E. intros [= <- <-].
  cbn. by rewrite (IH d' eq_refl).
Qed.

Lemma scan_int_length s i rest : scan_int s = Some (i, rest) → String.length rest < String.length s.
Proof.
  destruct s as [|c s]; cbn [scan_int]; [done|]. case_match; [intros [= <- <-]; cbn; lia|].
  case_match; [|done]. intros [= E]. assert (is_digit c = true) as Hd.
  { unfold is_digit, between in *. apply andb_true_iff in H0 as [H1 H2]. rewrite H2, andb_true_r.
    apply N.leb_le in H1. apply N.leb_le. cbn in *. lia. }
  rewrite Hd in E. destruct (take_digits s) as [d r] eqn:Es. injection E as <- <-.
  apply take_digits_length in Es. cbn. lia.
Qed.
Lemma scan_frac_length s f rest : scan_frac s = (f, rest) → String.length rest ≤ String.length s.
Proof.
  destruct s as [|c [|d s]]; cbn [scan_frac]; try (intros [= <- <-]; cbn; lia).
  case_match; [|intros [= <- <-]; cbn; lia]. intros E.
  pose proof (take_digits_length (String d s) f rest E) as Hl. cbn in *. lia.
Qed.
Lemma scan_exp_length s e rest : scan_exp s = Some (e, rest) → String.length rest ≤ String.length s.
Proof.
  destruct s as [|c [|d s]]; cbn [scan_exp]; try (intros [= <- <-]; cbn; lia).
  case_match; [|intros [= <- <-]; cbn; lia]. case_match.
  - destruct s as [|c' s]; [done|]. destruct (take_digits (String c' s)) as [ds r] eqn:E.
    intros [= <- <-]. apply take_digits_length in E. cbn in *. lia.
  - intros [= E]. pose proof (take_digits_length (String d s) e rest E) as Hl. cbn in *. lia.
Qed.
Lemma scan_parts_length neg s p rest :
  scan_parts neg s = Some (p, rest) → String.length rest < String.length s.
Proof.
  unfold scan_parts. destruct (scan_int s) as [[i s1]|] eqn:Ei; [|done]. apply scan_int_length in Ei.
  destruct (scan_frac s1) as [f s2] eqn:Ef. apply scan_frac_length in Ef.
  destruct (scan_exp s2) as [[e s3]|] eqn:Ee; [|done]. apply scan_exp_length in Ee.
  intros [= <- <-]. lia.
Qed.
Lemma parseNumber_length b raw rest : parseNumber b = Some (raw, rest) → String.length rest < String.length b.
Proof.
  unfold parseNumber. destruct (scan_number b) as [[p r]|] eqn:E; [|done].
  destruct (delim_next r); [|done]. intros [= _ <-]. destruct b as [|c b]; cbn [scan_number] in E; [done|].
  case_match; apply scan_parts_length in E; cbn in *; lia.
Qed.

Lemma prepend_Ok a r s rest : prepend a r = Ok (s, rest) ↔ ∃ s', s = a +:+ s' ∧ r = Ok (s', rest).
Proof.
  destruct r as [[s' r']|e]; cbn.
  - split; [intros [= <- <-]; by eexists|]. intros (x & -> & Hx). by injection Hx as -> ->.
  - split; [done|by intros (? & _ & ?)].
Qed.

Lemma parseString_length b : ∀ pending s rest,
  parseString_from pending b = Ok (s, rest) → String.length rest < String.length b.
Proof.
  induction b as [b IH] using (induction_ltof1 _ String.length). unfold ltof in IH.
  intros pending s rest. destruct b as [|c b1]; cbn [parseString_from]; [done|].
  repeat case_match; try done; subst; rewrite ?prepend_Ok; try (intros (s' & _ & Hr));
    try (apply IH in Hr; cbn in *; lia).
  intros [= <- <-]. cbn. lia.
Qed.

Lemma keyword_length w t b t' rest :
  keyword w t b = Ok (t', rest) → t' = t ∧ String.length b = String.length w + String.length rest.
Proof.
  unfold keyword, matchWithDelim. destruct (strip_prefix w b) as [r|] eqn:E; [|done].
  destruct (delim_next r); [|done]. intros [= <- <-]. split; [done|by apply strip_prefix_length].
Qed.

Lemma parseNext_length b t rest :
  parseNext b = Ok (t, rest) → tok_kind t = TEOF ∨ String.length rest < String.length b.
Proof.
  destruct b as [|c b]; cbn [parseNext]; [intros [= <- <-]; by left|]. intros H. right.
  repeat case_match; try done; simplify_eq; cbn; try lia.
  all: try (apply keyword_length in H as [_ H]; cbn in H; lia).
  - match goal with H : parseNumber _ = _ |- _ => apply parseNumber_length in H; cbn in H; lia end.
  - match goal with H : parseString_from _ _ = _ |- _ => apply parseString_length in H; lia end.
Qed.

Lemma accept_length d t rest t' d' :
  accept d t rest = Ok (t', d') →
  String.length (dec_in d') ≤ String.length rest ∧ (tok_kind t' = TEOF ↔ tok_kind t = TEOF).
Proof.
  unfold accept. destruct t as [k raw boo str]; cbn [tok_kind].
  destruct k; repeat case_match; intros; simplify_eq; cbn; split; try done; try lia.
  all: match goal with |- context [skip_spaces ?x] => pose proof (skip_spaces_length x); lia end.
Qed.

Lemma read_once_length d t d' :
  read_once d = Ok (t, d') → tok_kind t = TEOF ∨ String.length (dec_in d') < String.length (dec_in d).
Proof.
  unfold read_once. rewrite result_bind_Ok. intros ([t1 rest] & Hp & [Hl Hk]%accept_length).
  pose proof (skip_spaces_length rest). pose proof (skip_spaces_length (dec_in d)).
  destruct (parseNext_length _ _ _ Hp) as [He|Hlt]; [left; by apply Hk|right; lia].
Qed.

Lemma Read_length d t d' :
  Read d = Ok (t, d') → tok_kind t = TEOF ∨ String.length (dec_in d') < String.length (dec_in d).
Proof.
  unfold Read. rewrite result_bind_Ok. intros ([t1 d1] & H1 & H).
  pose proof (read_once_length _ _ _ H1) as Hl. destruct (decide (tok_kind t1 = TComma)) as [Hc|Hc].
  - rewrite Hc in H, Hl. destruct Hl as [Hl|Hl]; [done|].
    destruct (read_once_length _ _ _ H); [by left|right; lia].
  - assert (Ok (t1, d1) = Ok (t, d')) as [= -> ->] by (by destruct (tok_kind t1)). done.
Qed.

Lemma parseString_err b : ∀ pending e, parseString_from pending b = Err e → e = SyntaxError.
Proof.
  induction b as [b IH] using (induction_ltof1 _ String.length). unfold ltof in IH.
  intros pending e. destruct b as [|c b1]; cbn [parseString_from]; [by intros [= <-]|].
  assert (∀ a p b', String.length b' < String.length (String c b1) →
    prepend a (parseString_from p b') = Err e → e = SyntaxError) as Hp.
  { intros a p b' Hl. destruct (parseString_from p b') as [[]|e'] eqn:E; cbn; [done|].
    intros [= ->]. by apply (IH b' Hl p). }
  repeat case_match; intros H'; try (by injection H' as <-); subst; try done;
    eapply Hp; try exact H'; cbn; lia.
Qed.

Lemma read_once_err d e : read_once d = Err e → e = SyntaxError.
Proof.
  unfold read_once. destruct (parseNext (skip_spaces (dec_in d))) as [[t rest]|e'] eqn:E; cbn.
  - unfold accept. destruct (tok_kind t); repeat case_match; intros; simplify_eq; done.
  - intros [= ->]. revert E. destruct (skip_spaces (dec_in d)) as [|c b]; cbn [parseNext]; [done|].
    unfold keyword. repeat case_match; intros; simplify_eq; try done. by eapply parseString_err.
Qed.
Lemma Read_err d e : Read d = Err e → e = SyntaxError.
Proof.
  unfold Read. destruct (read_once d) as [[t d']|e'] eqn:E; cbn.
  - destruct (tok_kind t); try done. apply read_once_err.
  - intros [= ->]. by eapply read_once_err.
Qed.

(** A reading step that came to an end, with at most [n] bytes left. *)
Definition ends {A} (n : nat) (r : result json_error (A * Decoder)) : Prop :=
  match r with Ok (_, d) => String.length (dec_in d) ≤ n | Err e => e ≠ TextOutOfFuel end.

Lemma ends_bind {A B} n m (r : result json_error (A * Decoder)) (f : A → Decoder → result json_error (B * Decoder)) :
  ends n r → (∀ a d, String.length (dec_in d) ≤ n → ends m (f a d)) → ends m ('(a, d) ← r; f a d).
Proof. destruct r as [[a d]|e]; cbn; auto. Qed.
Lemma ends_Read {B} m d (f : Token → Decoder → result json_error (B * Decoder)) :
  (∀ t d', tok_kind t = TEOF ∨ String.length (dec_in d') < String.length (dec_in d) → ends m (f t d')) →
  ends m ('(t, d') ← Read d; f t d').
Proof.
  intros H. destruct (Read d) as [[t d']|e] eqn:E; cbn; [eapply H, Read_length, E|].
  by apply Read_err in E as ->.
Qed.
Lemma ends_mono {A} n m (r : result json_error (A * Decoder)) : n ≤ m → ends n r → ends m r.
Proof. destruct r as [[a d]|e]; cbn; [lia|done]. Qed.

Lemma readers_end fuel :
  (∀ t d, 1 ≤ fuel → (tok_kind t = TEOF ∨ 2 * String.length (dec_in d) + 3 ≤ fuel) →
     ends (String.length (dec_in d)) (read_value fuel t d)) ∧
  (∀ d, 2 * String.length (dec_in d) + 2 ≤ fuel → ends (String.length (dec_in d)) (read_members fuel d)) ∧
  (∀ d, 2 * String.length (dec_in d) + 2 ≤ fuel → ends (String.length (dec_in d)) (read_elements fuel d)).
Proof.
  induction fuel as [|fuel (IHv & IHm & IHe)]; [split_and!; intros; lia|]. split_and!.
  - intros t d _ Hf. cbn [read_value]. destruct (tok_kind t) eqn:Ek; cbn; try done.
    + eapply ends_bind; [apply IHm; destruct Hf; [done|lia]|done].
    + eapply ends_bind; [apply IHe; destruct Hf; [done|lia]|done].
  - intros d Hf. cbn [read_members]. apply ends_Read. intros t d1 H1.
    destruct (tok_kind t) eqn:Ek; try done; [|cbn; destruct H1; [done|lia]].
    destruct H1 as [?|H1]; [done|]. apply ends_Read. intros t' d2 H2.
    destruct H2 as [H2|H2].
    { destruct fuel; [lia|]. cbn [read_value]. by rewrite H2. }
    eapply ends_bind; [apply IHv; [lia|right; lia]|]. cbv beta. intros j d3 H3.
    eapply ends_bind; [apply IHm; lia|]. cbn. intros; lia.
  - intros d Hf. cbn [read_elements]. apply ends_Read. intros t d1 [H1|H1].
    { rewrite H1. destruct fuel; [lia|]. cbn [read_value]. by rewrite H1. }
    assert (ends (String.length (dec_in d)) ('(j, d2) ← read_value fuel t d1; '(l, d3) ← read_elements fuel d2; Ok (j :: l, d3))) as Hv.
    { eapply ends_bind; [apply IHv; [lia|right; lia]|]. cbv beta. intros j d2 H2.
      eapply ends_bind; [apply IHe; lia|]. cbn. intros; lia. }
    destruct (tok_kind t); try exact Hv. cbn. lia.
Qed.

(** The fuel of [json_read] is enough for every text. *)
Theorem json_read_ends b : json_read b ≠ Err TextOutOfFuel.
Proof.
  unfold json_read. destruct (Read (NewDecoder b)) as [[t d]|e] eqn:E; cbn [mbind result_bind].
  2: { by apply Read_err in E as ->. }
  destruct (readers_end (2 * String.length b + 2)) as (Hv & _ & _).
  specialize (Hv t d ltac:(lia)). apply Read_length in E. cbn in E.
  destruct (read_value _ t d) as [[j d']|e]; cbn in *.
  - destruct (Read d') as [[t' d2]|e] eqn:E'; cbn; [by destruct (tok_kind t')|]. by apply Read_err in E' as ->.
  - intros [= ->]. apply Hv; [|done]. destruct E; [by left|right; lia].
Qed.

(** ** What was written is read back *)

(** A value that can be written: its strings are valid UTF-8, its numbers those of an enum. *)
Fixpoint json_valid (j : json) : bool :=
  match j with
  | JNull | JBool _ => true
  | JNumber n => match n with Some z => int32 z | None => false end
  | JString s => utf8_ValidString s
  | JArray l => forallb json_valid l
  | JObject l => forallb (λ nj, utf8_ValidString nj.1 && json_valid nj.2) l
  end.

Section json_induction.
Context (P : json → Prop).
Context (Hnull : P JNull) (Hbool : ∀ b, P (JBool b)) (Hnumber : ∀ n, P (JNumber n)).
Context (Hstring : ∀ s, P (JString s)) (Harray : ∀ l, Forall P l → P (JArray l)).
Context (Hobject : ∀ l, Forall (λ nj : string * json, P nj.2) l → P (JObject l)).

Fixpoint json_nested_ind (j : json) : P j :=
  match j with
  | JNull => Hnull
  | JBool b => Hbool b
  | JNumber n => Hnumber n
  | JString s => Hstring s
  | JArray l =>
      Harray l ((fix go l : Forall P l :=
                   match l with
                   | [] => List.Forall_nil _
                   | j :: l => @List.Forall_cons _ _ j l (json_nested_ind j) (go l)
                   end) l)
  | JObject l =>
      Hobject l ((fix go l : Forall (λ nj : string * json, P nj.2) l :=
                    match l with
                    | [] => List.Forall_nil _
                    | nj :: l => @List.Forall_cons _ _ nj l (json_nested_ind nj.2) (go l)
                    end) l)
  end.
End json_induction.

(** *** Numbers *)

Fixpoint all_digits (s : string) : bool :=
  match s with EmptyString => true | String c s' => is_digit c && all_digits s' end.

Definition decimal_digit (n : Z) : ascii := ascii_of_N (48 + Z.to_N (n mod 10)).

Lemma decimal_digit_spec n :
  is_digit (decimal_digit n) = true ∧ (Z.of_N (code (decimal_digit n)) - 48 = n mod 10)%Z ∧
  ((n mod 10 ≠ 0)%Z → between "1" (decimal_digit n) "9" = true).
Proof.
  unfold decimal_digit, is_digit, between.
  assert (0 ≤ n mod 10 < 10)%Z as Hn by (apply Z.mod_pos_bound; lia).
  rewrite N_ascii_embedding by lia. cbn. rewrite !andb_true_iff, !N.leb_le.
  split_and!; lia.
Qed.

Lemma append_digits_value fuel n acc :
  (0 ≤ n < 10 ^ Z.of_nat fuel)%Z → digits_from 0 (append_digits fuel n acc) = digits_from n acc.
Proof.
  revert n acc. induction fuel as [|fuel IH]; intros n acc Hn; cbn [append_digits].
  { by replace n with 0%Z by (cbn in Hn; lia). }
  fold (decimal_digit n). destruct (decimal_digit_spec n) as (Hd & Hv & _).
  destruct (Z.ltb_spec n 10) as [Hlt|Hge].
  - cbn [digits_from]. rewrite Hd, Hv. f_equal. rewrite Z.mod_small; lia.
  - rewrite IH.
    + cbn [digits_from]. rewrite Hd, Hv. f_equal. pose proof (Z.div_mod n 10). lia.
    + split; [apply Z.div_pos; lia|]. apply Z.div_lt_upper_bound; [lia|].
      rewrite Nat2Z.inj_succ, Z.pow_succ_r in Hn; lia.
Qed.

Lemma append_digits_all fuel n acc : all_digits acc = true → all_digits (append_digits fuel n acc) = true.
Proof.
  revert n acc. induction fuel as [|fuel IH]; intros n acc Ha; cbn [append_digits]; [done|].
  fold (decimal_digit n). destruct (decimal_digit_spec n) as (Hd & _).
  case_match; [|apply IH]; cbn; by rewrite Hd.
Qed.

Lemma append_digits_length fuel n acc :
  String.length (append_digits fuel n acc) ≤ fuel + String.length acc.
Proof.
  revert n acc. induction fuel as [|fuel IH]; intros n acc; cbn [append_digits]; [done|].
  case_match; [cbn; lia|]. etransitivity; [apply IH|]. cbn. lia.
Qed.

Lemma append_digits_head fuel n acc :
  (0 < n < 10 ^ Z.of_nat fuel)%Z →
  ∃ c s, append_digits fuel n acc = String c s ∧ between "1" c "9" = true.
Proof.
  revert n acc. induction fuel as [|fuel IH]; intros n acc Hn; cbn [append_digits]; [cbn in Hn; lia|].
  fold (decimal_digit n). destruct (decimal_digit_spec n) as (_ & _ & Hd).
  destruct (Z.ltb_spec n 10) as [Hlt|Hge].
  - eexists _, _. split; [done|]. apply Hd. rewrite Z.mod_small; lia.
  - apply IH. split; [apply Z.div_str_pos; lia|]. apply Z.div_lt_upper_bound; [lia|].
    rewrite Nat2Z.inj_succ, Z.pow_succ_r in Hn; lia.
Qed.

Lemma take_digits_app ds rest :
  all_digits ds = true → delim_next rest = true → take_digits (ds +:+ rest) = (ds, rest).
Proof.
  intros Hds Hr. induction ds as [|c ds IH].
  - rewrite str_nil_app. destruct rest as [|c rest]; [done|]. cbn in Hr |- *.
    unfold isNotDelim in Hr. destruct (is_digit c); [|done]. by rewrite orb_true_r in Hr.
  - cbn in Hds. apply andb_true_iff in Hds as [Hc Hds]. rewrite str_app_cons. cbn.
    by rewrite Hc, (IH Hds).
Qed.

Lemma delim_frac_exp rest :
  delim_next rest = true → scan_frac rest = ("", rest) ∧ scan_exp rest = Some ("", rest).
Proof.
  destruct rest as [|c [|d rest]]; [done|done|]. cbn. intros Hc. destruct c as [[] [] [] [] [] [] [] []]; try done.
Qed.

(** The digits of a positive number are scanned as its integer part. *)
Lemma scan_int_digits n rest :
  (0 < n < 10 ^ 20)%Z → delim_next rest = true →
  scan_int (append_digits 20 n "" +:+ rest) = Some (append_digits 20 n "", rest).
Proof.
  intros Hn Hr. destruct (append_digits_head 20 n "" Hn) as (c & s & E & Hc).
  pose proof (append_digits_all 20 n "" eq_refl) as Ha.
  pose proof (take_digits_app _ rest Ha Hr) as Ht. rewrite E in *. rewrite str_app_cons in *. cbn [scan_int].
  rewrite Hc, Ht. destruct (Ascii.eqb_spec c "0") as [->|]; [done|done].
Qed.

Definition int_parts (z : Z) : numberParts :=
  {| num_neg := (z <? 0)%Z; num_intp := if (z =? 0)%Z then "" else append_digits 20 (Z.abs z) "";
     num_frac := ""; num_exp := "" |}.

Lemma int32_bound z : int32 z = true → (Z.abs z < 10 ^ 20)%Z.
Proof. unfold int32. rewrite andb_true_iff, !Z.leb_le. lia. Qed.

Lemma scan_number_AppendInt z rest :
  int32 z = true → delim_next rest = true → scan_number (AppendInt z +:+ rest) = Some (int_parts z, rest).
Proof.
  intros Hz%int32_bound Hr. destruct (delim_frac_exp rest Hr) as [Hf He].
  assert (∀ n b, (0 < n < 10 ^ 20)%Z → scan_parts b (append_digits 20 n "" +:+ rest) =
    Some ({| num_neg := b; num_intp := append_digits 20 n ""; num_frac := ""; num_exp := "" |}, rest)) as Hpos.
  { intros n b Hn. unfold scan_parts. by rewrite scan_int_digits, Hf, He. }
  unfold AppendInt, int_parts. destruct (Z.ltb_spec z 0) as [Hneg|Hneg].
  - rewrite str_app_cons. cbn [scan_number]. change (Ascii.eqb "-" "-") with true. cbv iota.
    rewrite Hpos by lia. destruct (Z.eqb_spec z 0); [lia|]. by rewrite Z.abs_neq by lia.
  - destruct (Z.eqb_spec z 0) as [->|Hne].
    + change (append_digits 20 0 "") with "0"%string. rewrite str_app_cons, str_nil_app.
      cbn. unfold scan_parts. cbn. by rewrite Hf, He.
    + specialize (Hpos z false ltac:(lia)). rewrite Z.abs_eq by lia. revert Hpos.
      destruct (append_digits_head 20 z "") as (c & s & -> & Hc); [lia|]. rewrite str_app_cons.
      cbn [scan_number]. destruct (Ascii.eqb_spec c "-") as [->|]; [done|]. done.
Qed.

Lemma str_prefix_app a b : str_prefix (a +:+ b) b = a.
Proof.
  unfold str_prefix. rewrite str_length_app. replace (_ + _ - _) with (String.length a) by lia.
  induction a as [|c a IH]; [by destruct b|]. rewrite str_app_cons. cbn. by rewrite IH.
Qed.

Lemma AppendInt_read z : int32 z = true → Token_Int (token TNumber (AppendInt z)) = Some z.
Proof.
  intros Hz. unfold Token_Int, parseNumberParts. cbn [tok_raw token].
  rewrite <-(str_app_nil (AppendInt z)), scan_number_AppendInt by done. apply int32_bound in Hz.
  unfold normalizeToIntString, int_parts. cbn [num_neg num_intp num_frac num_exp trim_zeros].
  destruct (Z.eqb_spec z 0) as [->|Hne]; [done|].
  destruct (append_digits_head 20 (Z.abs z) "") as (c & s & E & Hc); [lia|].
  pose proof (append_digits_length 20 (Z.abs z) "") as Hl. pose proof (append_digits_value 20 (Z.abs z) "") as Hv.
  rewrite E in *. cbn [String.length] in *. cbn [String.eqb andb].
  destruct (Z.eqb_spec (Z.of_nat (S (String.length s))) 0); [lia|]. cbn [andb].
  destruct (Z.ltb_spec 0 (Z.of_nat 0)); [lia|]. cbn [Z.leb Z.compare].
  destruct (Z.ltb_spec 20 (Z.of_nat (S (String.length s)) + 0)); [lia|]. cbn [Z.to_nat Z.sub zeros].
  rewrite !str_app_nil. cbn [fmap option_fmap option_map]. unfold ParseInt.
  destruct (Z.ltb_spec z 0).
  - cbn [Ascii.eqb Bool.eqb]. rewrite Hv by lia. cbn. f_equal. lia.
  - destruct (Ascii.eqb_spec c "-") as [->|]; [done|]. destruct (Ascii.eqb_spec c "+") as [->|]; [done|].
    rewrite Hv by lia. cbn. f_equal. lia.
Qed.

Lemma AppendInt_head z :
  int32 z = true → ∃ c s, AppendInt z = String c s ∧ (c = "-"%char ∨ is_digit c = true).
Proof.
  intros Hz. unfold AppendInt. destruct (Z.ltb_spec z 0); [by eexists _, _; split; [done|left]|].
  pose proof (append_digits_all 20 z "" eq_refl) as Ha.
  destruct (Z.eqb_spec z 0) as [->|]; [by eexists _, _; split; [done|right]|].
  destruct (append_digits_head 20 z "") as (c & s & E & _); [apply int32_bound in Hz; lia|].
  exists c, s. split; [done|]. rewrite E in Ha. by apply andb_true_iff in Ha as [? _]; right.
Qed.
Lemma parseNext_AppendInt z rest :
  int32 z = true → delim_next rest = true →
  parseNext (AppendInt z +:+ rest) = Ok (token TNumber (AppendInt z), rest).
Proof.
  intros Hz Hr. assert (parseNumber (AppendInt z +:+ rest) = Some (AppendInt z, rest)) as Hp.
  { unfold parseNumber. by rewrite scan_number_AppendInt, Hr, str_prefix_app. }
  destruct (AppendInt_head z Hz) as (c & s & E & Hc).
  rewrite E in *. rewrite str_app_cons in *. cbn [parseNext]. rewrite Hp. clear Hp.
  destruct Hc as [->|Hc]; [done|].
  destruct (Ascii.eqb_spec c "n") as [->|]; [done|]. destruct (Ascii.eqb_spec c "t") as [->|]; [done|].
  destruct (Ascii.eqb_spec c "f") as [->|]; [done|]. by rewrite Hc, orb_true_r.
Qed.

(** *** Strings *)

Lemma escape_ascii c b :
  (code c < 128)%N →
  parseString_from None (escape_byte c +:+ b) = prepend (String c "") (parseString_from None b).
Proof. destruct c as [[] [] [] [] [] [] [] []]; intros H; [..|]; first [exfalso; vm_compute in H; done|reflexivity]. Qed.

Lemma utf8_lead_range n lo hi more : utf8_lead n = Some (lo, hi, more) → (128 ≤ lo)%N.
Proof. unfold utf8_lead. repeat case_match; intros; simplify_eq; lia. Qed.

Lemma escape_other c : (128 ≤ code c)%N → escape_byte c = String c "".
Proof.
  intros H. unfold escape_byte. repeat case_match; try done;
    rewrite ?orb_true_iff, ?N.eqb_eq, ?N.ltb_lt in *; lia.
Qed.

Lemma parseString_escape s rest : ∀ pending,
  match pending with Some (lo, _, _) => (128 ≤ lo)%N | None => True end →
  utf8_from pending s = true →
  parseString_from pending (escape s +:+ dquote +:+ rest) = Ok (s, rest).
Proof.
  induction s as [|c s IH]; intros pending Hp Hu; cbn [utf8_from escape] in *.
  { destruct pending; [done|]. reflexivity. }
  rewrite <-str_app_assoc. destruct pending as [[[lo hi] more]|].
  - destruct (N.ltb_spec (code c) lo); [done|]. destruct (N.ltb_spec hi (code c)); [done|]. cbn [orb] in Hu.
    rewrite escape_other by lia. rewrite str_app_cons, str_nil_app. cbn [parseString_from].
    destruct (N.ltb_spec (code c) lo); [lia|]. destruct (N.ltb_spec hi (code c)); [lia|]. cbn [orb].
    rewrite IH; [done| |done]. by destruct more.
  - destruct (N.ltb_spec (code c) 128).
    + by rewrite escape_ascii, IH.
    + destruct (utf8_lead (code c)) as [[[lo hi] more]|] eqn:E; [|done].
      rewrite escape_other by done. rewrite str_app_cons, str_nil_app. cbn [parseString_from].
      destruct (N.ltb_spec (code c) 32); [lia|]. destruct (N.eqb_spec (code c) 34); [lia|].
      destruct (N.eqb_spec (code c) 92); [lia|]. destruct (N.ltb_spec (code c) 128); [lia|].
      rewrite E, IH; [done| |done]. by eapply utf8_lead_range.
Qed.

Lemma parseNext_appendString s rest :
  utf8_ValidString s = true →
  parseNext (appendString s +:+ rest) =
    Ok ({| tok_kind := TString; tok_raw := appendString s; tok_boo := false; tok_str := s |}, rest).
Proof.
  intros Hs. unfold appendString. rewrite <-!str_app_assoc. unfold dquote at 1. rewrite str_app_cons, str_nil_app.
  cbn [parseNext]. rewrite (parseString_escape s rest None I Hs).
  change (String (ascii_of_nat 34) (escape s +:+ dquote +:+ rest)) with (dquote +:+ escape s +:+ dquote +:+ rest).
  rewrite !str_app_assoc, str_prefix_app. done.
Qed.

(** *** The text of a value *)

Section text.
Context (detrand : bool).

Definition comma : string := String "," (if detrand then " " else "").
(** Texts behind one another, with [g] in front of the first. *)
Fixpoint elements (g : string) (l : list string) : string :=
  match l with
  | [] => ""
  | x :: l' => g +:+ x +:+ elements comma l'
  end.
Fixpoint jtext (j : json) : string :=
  match j with
  | JNull => "null"
  | JBool b => if b then "true" else "false"
  | JNumber n => AppendInt (default 0%Z n)
  | JString s => appendString s
  | JArray l => "[" +:+ elements "" (jtext <$> l) +:+ "]"
  | JObject l => "{" +:+ elements "" ((λ nj : string * json, (appendString nj.1 +:+ ":") +:+ jtext nj.2) <$> l) +:+ "}"
  end.

Definition end_kind (j : json) : enc_kind :=
  match j with JArray _ => EncArrayClose | JObject _ => EncObjectClose | _ => EncScalar end.

Lemma emit_out next text e :
  emit detrand next text e =
    {| enc_lastKind := next; enc_out := enc_out e +:+ separator detrand (enc_lastKind e) next +:+ text |}.
Proof. unfold emit, prepareNext. cbn. by rewrite <-str_app_assoc. Qed.

(** A loop that writes the elements of a list, each behind the comma it needs. *)
Lemma foldl_elements {A} (f : Encoder → A → Encoder) (text : A → string) (last : A → enc_kind) (l : list A) e :
  (∀ k x, k ∈ l → separator detrand (last k) x = separator detrand EncScalar x) →
  (∀ x e, x ∈ l → f e x = {| enc_lastKind := last x;
     enc_out := enc_out e +:+ separator detrand (enc_lastKind e) EncScalar +:+ text x |}) →
  enc_out (foldl f e l) = enc_out e +:+ elements (separator detrand (enc_lastKind e) EncScalar) (text <$> l).
Proof.
  revert e. induction l as [|x l IH]; intros e Hlast Hf; cbn [foldl fmap list_fmap elements].
  { by rewrite str_app_nil. }
  rewrite IH; [|intros; apply Hlast; by right|intros; apply Hf; by right].
  rewrite Hf by by left. cbn [enc_out enc_lastKind]. rewrite Hlast by by left.
  change (separator detrand EncScalar EncScalar) with comma. by rewrite <-!str_app_assoc.
Qed.

Lemma write_value_text j : ∀ e,
  write_value detrand j e =
    {| enc_lastKind := end_kind j;
       enc_out := enc_out e +:+ separator detrand (enc_lastKind e) EncScalar +:+ jtext j |}.
Proof.
  induction j as [|b|n|s|l IH|l IH] using json_nested_ind; intros e;
    try (cbn [write_value]; apply emit_out); cbn [write_value];
    unfold EndArray, EndObject, StartArray, StartObject; rewrite emit_out; cbn [end_kind]; f_equal.
  - rewrite (foldl_elements _ jtext end_kind).
    + rewrite emit_out. cbn [enc_out enc_lastKind jtext].
      assert (∀ k, separator detrand k EncArrayClose = "") as -> by (by intros []). rewrite str_nil_app.
      change (separator detrand EncArrayOpen EncScalar) with "".
      assert (∀ k, separator detrand k EncArrayOpen = separator detrand k EncScalar) as -> by done.
      by rewrite <-!str_app_assoc.
    + by intros [] x _.
    + intros j e' Hj. rewrite List.Forall_forall in IH. apply IH. by apply list_elem_of_In.
  - rewrite (foldl_elements _ (λ nj, (appendString nj.1 +:+ ":") +:+ jtext nj.2) (λ nj, end_kind nj.2)).
    + rewrite emit_out. cbn [enc_out enc_lastKind jtext].
      assert (∀ k, separator detrand k EncObjectClose = "") as -> by (by intros []). rewrite str_nil_app.
      change (separator detrand EncObjectOpen EncScalar) with "".
      assert (∀ k, separator detrand k EncObjectOpen = separator detrand k EncScalar) as -> by done.
      by rewrite <-!str_app_assoc.
    + by intros [? []] x _.
    + intros [n j] e' Hj. rewrite List.Forall_forall in IH. cbn [fst snd].
      specialize (IH (n, j)). cbn [snd] in IH. rewrite IH by by apply list_elem_of_In.
      unfold WriteName. rewrite emit_out. cbn [enc_out enc_lastKind].
      change (separator detrand EncName EncScalar) with "".
      assert (∀ k, separator detrand k EncName = separator detrand k EncScalar) as -> by done.
      by rewrite str_nil_app, <-!str_app_assoc.
Qed.

Lemma json_write_text j : json_write detrand j = jtext j.
Proof. unfold json_write. rewrite write_value_text. reflexivity. Qed.

(** *** Reading the text *)

Definition value_kind (j : json) : Kind :=
  match j with
  | JNull => TNull | JBool _ => TBool | JNumber _ => TNumber | JString _ => TString
  | JArray _ => TArrayClose | JObject _ => TObjectClose
  end.
(** The decoder behind a value. *)
Definition behind (j : json) (open : list Kind) (rest : string) : Decoder :=
  {| dec_last := value_kind j; dec_open := open; dec_in := skip_spaces rest |}.
(** The kind of the token a value begins with. *)
Definition begins_value (t : Token) : Prop :=
  match tok_kind t with
  | TNull | TBool | TNumber | TString | TObjectOpen | TArrayOpen => True
  | _ => False
  end.

(** Where a value is due, its text is read as the value. *)
Definition read_back (j : json) : Prop :=
  json_valid j = true → ∀ d rest fuel,
    isValueNext d = true → skip_spaces (dec_in d) = jtext j +:+ rest → delim_next rest = true →
    String.length (jtext j) ≤ fuel →
    ∃ t d', read_once d = Ok (t, d') ∧ begins_value t ∧
      read_value fuel t d' = Ok (j, behind j (dec_open d) rest).

Lemma skip_spaces_idem b : skip_spaces (skip_spaces b) = skip_spaces b.
Proof. induction b as [|c b IH]; cbn; [done|]. destruct (_ || _) eqn:E; [done|]. cbn. by rewrite E. Qed.

Lemma begins_value_Read d t d' : read_once d = Ok (t, d') → begins_value t → Read d = Ok (t, d').
Proof. unfold Read, begins_value. intros ->. cbn. by destruct (tok_kind t). Qed.

(** Behind a value of an array or object, a comma leads to what comes next. *)
Lemma Read_comma j k open text :
  Read {| dec_last := value_kind j; dec_open := k :: open; dec_in := comma +:+ text |} =
    read_once {| dec_last := TComma; dec_open := k :: open; dec_in := text |}.
Proof.
  assert (read_once {| dec_last := value_kind j; dec_open := k :: open; dec_in := comma +:+ text |} =
    Ok (token TComma ",", {| dec_last := TComma; dec_open := k :: open; dec_in := skip_spaces text |})) as E
    by (unfold comma; destruct j, detrand; reflexivity).
  unfold Read. rewrite E. cbn [mbind result_bind tok_kind token]. unfold read_once. cbn [dec_in].
  by rewrite skip_spaces_idem.
Qed.

Lemma jtext_head j : json_valid j = true → ∃ c s, jtext j = String c s ∧ ∀ s', skip_spaces (String c s') = String c s'.
Proof.
  destruct j as [|[]|[z|]|s|l|l]; cbn [json_valid jtext]; intros Hv; try done; try (by eexists _, _).
  destruct (AppendInt_head z Hv) as (c & s & E & Hc). exists c, s. split; [done|]. intros s'.
  destruct Hc as [->|Hc]; [done|]. unfold is_digit, between in Hc. apply andb_true_iff in Hc as [Hc _].
  apply N.leb_le in Hc. cbn [skip_spaces]. change (code "0") with 48%N in Hc.
  destruct (_ || _) eqn:E'; [|done]. rewrite !orb_true_iff, !N.eqb_eq in E'. lia.
Qed.
Lemma jtext_start j r : json_valid j = true → skip_spaces (jtext j +:+ r) = jtext j +:+ r.
Proof. intros (c & s & -> & H)%jtext_head. rewrite str_app_cons. apply H. Qed.
Lemma jtext_length j : json_valid j = true → 1 ≤ String.length (jtext j).
Proof. intros (c & s & -> & _)%jtext_head. cbn. lia. Qed.

Lemma elements_delim l e rest : e ∈ ["]"; "}"]%string → delim_next (elements comma l +:+ e +:+ rest) = true.
Proof. rewrite !elem_of_cons, elem_of_nil. intros [->|[->|[]]]; by destruct l. Qed.

Lemma read_scalar j t :
  begins_value t → tok_kind t = value_kind j → (∀ fuel d, read_value (S fuel) t d = Ok (j, d)) →
  (json_valid j = true → ∀ rest, delim_next rest = true → parseNext (jtext j +:+ rest) = Ok (t, rest)) →
  read_back j.
Proof.
  intros Ht Hk Hr Hp Hv d rest fuel Hd Hin Hrest Hf. exists t, (behind j (dec_open d) rest).
  pose proof (jtext_length j Hv). destruct fuel as [|fuel]; [lia|].
  split_and!; [|done|apply Hr]. unfold read_once. rewrite Hin, (Hp Hv rest Hrest). cbn [mbind result_bind].
  unfold accept, behind. rewrite Hd, <-Hk. unfold begins_value in Ht.
  destruct j, (tok_kind t); done.
Qed.

(** The elements of an array, from the first one or from a comma on. *)
Lemma read_elements_back l :
  Forall read_back l → forallb json_valid l = true → ∀ g last open rest fuel,
  (g = ""%string ∧ last = TArrayOpen ∨ g = comma ∧ ∃ j, last = value_kind j) →
  1 + String.length (elements g (jtext <$> l)) ≤ fuel →
  read_elements fuel {| dec_last := last; dec_open := TArrayOpen :: open;
                        dec_in := skip_spaces (elements g (jtext <$> l) +:+ "]" +:+ rest) |} =
    Ok (l, {| dec_last := TArrayClose; dec_open := open; dec_in := skip_spaces rest |}).
Proof.
  induction 1 as [|j l Hj Hl IH]; intros Hv g last open rest fuel Hg Hf; (destruct fuel as [|fuel]; [lia|]).
  { destruct Hg as [[-> ->]|[-> [j ->]]]; [done|by destruct j]. }
  cbn [forallb] in Hv. apply andb_true_iff in Hv as [Hvj Hvl]. cbn [fmap list_fmap elements] in Hf |- *.
  rewrite !str_length_app in Hf. pose proof (jtext_length j Hvj). rewrite <-!str_app_assoc.
  set (rest' := elements comma (jtext <$> l) +:+ "]" +:+ rest).
  assert (delim_next rest' = true) as Hr' by (apply elements_delim; by left).
  assert (∀ d, isValueNext d = true → dec_open d = TArrayOpen :: open → skip_spaces (dec_in d) = jtext j +:+ rest' →
    ∀ d0, (∀ t d', read_once d = Ok (t, d') → begins_value t → Read d0 = Ok (t, d')) → read_elements (S fuel) d0 =
    Ok (j :: l, {| dec_last := TArrayClose; dec_open := open; dec_in := skip_spaces rest |})) as Hread.
  { intros d Hd Ho Hin d0 HR. destruct (Hj Hvj d rest' fuel) as (t & d' & E & Ht & Hval); [done..|lia|].
    cbn [read_elements]. rewrite (HR t d' E Ht). cbn [mbind result_bind]. rewrite Ho in Hval. unfold behind in Hval.
    rewrite Hval. cbn [mbind result_bind]. unfold rest'. rewrite IH by (done || lia || eauto).
    unfold begins_value in Ht. by destruct (tok_kind t). }
  destruct Hg as [[-> ->]|[-> [j' ->]]].
  - rewrite str_nil_app. apply (Hread {| dec_last := TArrayOpen; dec_open := TArrayOpen :: open;
      dec_in := skip_spaces (jtext j +:+ rest') |}); [done|done| |apply begins_value_Read].
    cbn [dec_in]. by rewrite skip_spaces_idem, jtext_start.
  - apply (Hread {| dec_last := TComma; dec_open := TArrayOpen :: open; dec_in := jtext j +:+ rest' |});
      [done|done|by apply jtext_start|]. intros t d' <- _. apply Read_comma.
Qed.

(** The members of an object. *)
Abbreviation member := (λ nj : string * json, (appendString nj.1 +:+ ":") +:+ jtext nj.2).

Lemma read_name n last open b r :
  utf8_ValidString n = true → (last = TObjectOpen ∨ last = TComma) →
  skip_spaces b = (appendString n +:+ ":") +:+ r →
  read_once {| dec_last := last; dec_open := TObjectOpen :: open; dec_in := b |} =
    Ok ({| tok_kind := TName; tok_raw := appendString n; tok_boo := false; tok_str := n |},
        {| dec_last := TName; dec_open := TObjectOpen :: open; dec_in := skip_spaces r |}).
Proof.
  intros Hn Hl Hb. unfold read_once. cbn [dec_in]. rewrite Hb, <-str_app_assoc, parseNext_appendString by done.
  by destruct Hl as [->| ->].
Qed.

Lemma read_members_back l :
  Forall (λ nj : string * json, read_back nj.2) l →
  forallb (λ nj, utf8_ValidString nj.1 && json_valid nj.2) l = true → ∀ g last open rest fuel,
  (g = ""%string ∧ last = TObjectOpen ∨ g = comma ∧ ∃ j, last = value_kind j) →
  1 + String.length (elements g (member <$> l)) ≤ fuel →
  read_members fuel {| dec_last := last; dec_open := TObjectOpen :: open;
                       dec_in := skip_spaces (elements g (member <$> l) +:+ "}" +:+ rest) |} =
    Ok (l, {| dec_last := TObjectClose; dec_open := open; dec_in := skip_spaces rest |}).
Proof.
  induction 1 as [|[n j] l Hj Hl IH]; intros Hv g last open rest fuel Hg Hf; (destruct fuel as [|fuel]; [lia|]).
  { destruct Hg as [[-> ->]|[-> [j ->]]]; [done|by destruct j]. }
  cbn [forallb fst snd] in Hv, Hj. apply andb_true_iff in Hv as [[Hvn Hvj]%andb_true_iff Hvl].
  cbn [fmap list_fmap elements fst snd] in Hf |- *. rewrite !str_length_app in Hf. cbn [String.length] in Hf.
  pose proof (jtext_length j Hvj). rewrite <-!(str_app_assoc g).
  set (rest' := elements comma (member <$> l) +:+ "}" +:+ rest).
  assert (delim_next rest' = true) as Hr' by (apply elements_delim; right; by left).
  assert (∀ d, Read d = Ok ({| tok_kind := TName; tok_raw := appendString n; tok_boo := false; tok_str := n |},
      {| dec_last := TName; dec_open := TObjectOpen :: open; dec_in := skip_spaces (jtext j +:+ rest') |}) →
    read_members (S fuel) d =
    Ok ((n, j) :: l, {| dec_last := TObjectClose; dec_open := open; dec_in := skip_spaces rest |})) as Hread.
  { intros d HR. cbn [read_members]. rewrite HR. cbn [mbind result_bind tok_kind tok_str].
    destruct (Hj Hvj {| dec_last := TName; dec_open := TObjectOpen :: open; dec_in := skip_spaces (jtext j +:+ rest') |}
      rest' fuel) as (t & d' & E & Ht & Hval); [done|cbn [dec_in]; by rewrite skip_spaces_idem, jtext_start|done|lia|].
    rewrite (begins_value_Read _ _ _ E Ht). cbn [mbind result_bind]. unfold behind in Hval.
    rewrite Hval. cbn [mbind result_bind dec_open]. unfold rest'. by rewrite IH by (done || lia || eauto). }
  assert ((((appendString n +:+ ":") +:+ jtext j) +:+ elements comma (member <$> l)) +:+ "}" +:+ rest =
    (appendString n +:+ ":") +:+ jtext j +:+ rest') as Htext by (unfold rest'; by rewrite <-!str_app_assoc).
  rewrite Htext. apply Hread. destruct Hg as [[-> ->]|[-> [j' ->]]].
  - unfold Read. rewrite str_nil_app. erewrite read_name; [|done|by left|by rewrite skip_spaces_idem]. done.
  - change (skip_spaces (comma +:+ ?x)) with (comma +:+ x). rewrite Read_comma.
    by erewrite read_name; [|done|by right|].
Qed.

Lemma keyword_app w t rest : delim_next rest = true → keyword w t (w +:+ rest) = Ok (t, rest).
Proof.
  intros Hr. unfold keyword, matchWithDelim. assert (strip_prefix w (w +:+ rest) = Some rest) as ->; [|by rewrite Hr].
  induction w as [|c w IH]; [done|]. rewrite str_app_cons. cbn. by rewrite Ascii.eqb_refl.
Qed.

Lemma accept_open d k raw rest :
  (k = TArrayOpen ∨ k = TObjectOpen) → isValueNext d = true →
  accept d (token k raw) rest = Ok (token k raw, {| dec_last := k; dec_open := k :: dec_open d; dec_in := rest |}).
Proof. unfold accept. intros [->| ->] Hd; cbn; by rewrite Hd. Qed.

Lemma read_back_all j : read_back j.
Proof.
  induction j as [|b|n|s|l IH|l IH] using json_nested_ind.
  - eapply (read_scalar _ (token TNull "null")); try done. intros _ rest. apply (keyword_app "null").
  - eapply (read_scalar _ {| tok_kind := TBool; tok_raw := if b then "true" else "false"; tok_boo := b; tok_str := "" |});
      try done. intros _ rest. destruct b; [apply (keyword_app "true")|apply (keyword_app "false")].
  - intros Hv. destruct n as [z|]; [|done]. cbn [json_valid] in Hv.
    refine (read_scalar (JNumber (Some z)) (token TNumber (AppendInt z)) I eq_refl _ _ Hv).
    + intros fuel d. cbn [read_value tok_kind token]. by rewrite AppendInt_read.
    + intros _ rest Hr. by apply parseNext_AppendInt.
  - eapply (read_scalar _ {| tok_kind := TString; tok_raw := appendString s; tok_boo := false; tok_str := s |});
      try done. intros Hv rest _. by apply parseNext_appendString.
  - intros Hv d rest fuel Hd Hin Hr Hf. cbn [json_valid jtext] in Hv, Hin, Hf.
    rewrite !str_length_app in Hf. cbn [String.length] in Hf. destruct fuel as [|fuel]; [lia|].
    exists (token TArrayOpen "["). eexists. split_and!; [|done|].
    + unfold read_once. rewrite Hin, <-!str_app_assoc. apply (accept_open d TArrayOpen "["); [by left|done].
    + cbn [read_value tok_kind token]. rewrite read_elements_back; [done|done|done|by left|lia].
  - intros Hv d rest fuel Hd Hin Hr Hf. cbn [json_valid jtext] in Hv, Hin, Hf.
    rewrite !str_length_app in Hf. cbn [String.length] in Hf. destruct fuel as [|fuel]; [lia|].
    exists (token TObjectOpen "{"). eexists. split_and!; [|done|].
    + unfold read_once. rewrite Hin, <-!str_app_assoc. apply (accept_open d TObjectOpen "{"); [by right|done].
    + cbn [read_value tok_kind token]. rewrite read_members_back; [done|done|done|by left|lia].
Qed.

Theorem json_read_write j : json_valid j = true → json_read (json_write detrand j) = Ok j.
Proof.
  intros Hv. rewrite json_write_text. unfold json_read.
  destruct (read_back_all j Hv (NewDecoder (jtext j)) "" (2 * String.length (jtext j) + 2))
    as (t & d & E & Ht & Hval); [done|cbn [dec_in NewDecoder]; rewrite <-(str_app_nil (jtext j)) at 1; by apply jtext_start|done|lia|].
  rewrite (begins_value_Read _ _ _ E Ht). cbn [mbind result_bind]. rewrite Hval.
  cbn. done.
Qed.
End text.
