(* ===== verification/ProtoJson.v ===== *)
(** * Messages as JSON

    Models what [src/proto/cosi.pb.json.go] uses of the vendored package [protojson]: the
    translation between a message and a JSON value, driven by the descriptor of the message.

    The text of a JSON value is the business of [JsonText]. The errors of the reader carry
    positions in the text; here they are reasons. The reader of the source works token by token, so
    a text with two errors may be reported with another one of the two; whether there is an error
    is the same. Unknown fields are not written, as in the source. *)

From Stdlib Require Import Ascii.
From stdpp Require Import base gmap strings list.
From S2P Require Import Prelude ProtoDesc JsonText.

#[local] Set Warnings "-register-all".

Record MarshalOptions : Type := {
  UseEnumNumbers : bool;
  EmitUnpopulated : bool;
  UseProtoNames : bool
}.
Record UnmarshalOptions : Type := { DiscardUnknown : bool }.

(** ** Marshalling *)

(** [MarshalOptions.Marshal]: the fields of a message in the order of their declaration, the
    entries of a map in the order of their keys. *)
Definition marshalString (s : string) : result json_error json :=
  if utf8_ValidString s then Ok (JString s) else Err InvalidUTF8.

Definition marshalEnum (o : MarshalOptions) (values : list (string * Z)) (z : Z) : json :=
  match enum_name values z with
  | Some name => if UseEnumNumbers o then JNumber (Some z) else JString name
  | None => JNumber (Some z)
  end.

Fixpoint marshalEntries (l : list (string * string)) : result json_error (list (string * json)) :=
  match l with
  | [] => Ok []
  | (key, value) :: l' =>
      if negb (utf8_ValidString key) then Err InvalidUTF8
      else
        match marshalString value with
        | Err e => Err e
        | Ok j =>
            match marshalEntries l' with
            | Err e => Err e
            | Ok out => Ok ((key, j) :: out)
            end
        end
  end.

Definition field_name (o : MarshalOptions) (name : string) : string :=
  if UseProtoNames o then name else JSONCamelCase name.

(** The elements of a list, with the function for one. *)
Definition marshalList {A} (f : A → result json_error json) : list A → result json_error (list json) :=
  fix go l :=
    match l with
    | [] => Ok []
    | x :: l' =>
        match f x with
        | Err e => Err e
        | Ok j => match go l' with Err e => Err e | Ok out => Ok (j :: out) end
        end
    end.

Fixpoint marshalValue (o : MarshalOptions) (k : kind) : val k → result json_error json :=
  let marshalFields :=
    fix go (fs : fields) : tup fs → result json_error (list (string * json)) :=
      match fs with
      | [] => λ _, Ok []
      | (name, k) :: fs' => λ t,
          if EmitUnpopulated o || populated k t.1 then
            match marshalValue o k t.1 with
            | Err e => Err e
            | Ok j =>
                match go fs' t.2 with
                | Err e => Err e
                | Ok out => Ok ((field_name o name, j) :: out)
                end
            end
          else go fs' t.2
      end in
  let marshalMessage fs t :=
    match marshalFields fs t with Err e => Err e | Ok out => Ok (JObject out) end in
  match k with
  | KString => marshalString
  | KEnum values => λ z, Ok (marshalEnum o values z)
  | KMessage fs => λ m, match m with None => Ok JNull | Some t => marshalMessage fs t end
  | KRepeated fs => λ l,
      match marshalList (marshalMessage fs) l with Err e => Err e | Ok out => Ok (JArray out) end
  | KMap => λ m,
      match marshalEntries (sort_by_key (map_to_list m)) with
      | Err e => Err e
      | Ok out => Ok (JObject out)
      end
  end.

(** The functions for messages, which [marshalValue] has inside. *)
Definition marshalFields (o : MarshalOptions) : ∀ fs : fields, tup fs → result json_error (list (string * json)) :=
  fix marshalFields (fs : fields) : tup fs → result json_error (list (string * json)) :=
  match fs with
  | [] => λ _, Ok []
  | (name, k) :: fs' => λ t,
      if EmitUnpopulated o || populated k t.1 then
        match marshalValue o k t.1 with
        | Err e => Err e
        | Ok j =>
            match marshalFields fs' t.2 with
            | Err e => Err e
            | Ok out => Ok ((field_name o name, j) :: out)
            end
        end
      else marshalFields fs' t.2
  end.
Definition marshalMessage (o : MarshalOptions) (fs : fields) (t : tup fs) : result json_error json :=
  match marshalFields o fs t with Err e => Err e | Ok out => Ok (JObject out) end.

(** ** Unmarshalling *)

(** [unmarshalEnum]; without a value, the field is left as it is. *)
Definition unmarshalEnum (o : UnmarshalOptions) (values : list (string * Z)) (j : json) :
    result json_error (option Z) :=
  match j with
  | JString s =>
      match enum_number values s with
      | Some z => Ok (Some z)
      | None => if DiscardUnknown o then Ok None else Err InvalidValue
      end
  | JNumber (Some z) => if int32 z then Ok (Some z) else Err InvalidValue
  | _ => Err InvalidValue
  end.

(** The loop of [unmarshalMap]. *)
Fixpoint unmarshalEntries (l : list (string * json)) (m : gmap string string) :
    result json_error (gmap string string) :=
  match l with
  | [] => Ok m
  | (key, j) :: l' =>
      if has_key key m then Err (DuplicateKey key)
      else
        match j with
        | JString s => unmarshalEntries l' (<[key := s]> m)
        | _ => Err InvalidValue
        end
  end.

(** The loop of [unmarshalList], with the function for one message. *)
Definition unmarshalList {A} (f : json → result json_error A) : list json → result json_error (list A) :=
  fix go l :=
    match l with
    | [] => Ok []
    | j :: l' =>
        match f j with
        | Err e => Err e
        | Ok x => match go l' with Err e => Err e | Ok out => Ok (x :: out) end
        end
    end.

(** The loop of [unmarshalMessage] over the members of an object. [find] gives the index of
    a field, [set i j t] sets it, and [seen] holds the indices of the fields seen before. *)
Definition unmarshalMembers {T} (o : UnmarshalOptions) (find : string → option nat)
    (set : nat → json → T → result json_error T) :
    list (string * json) → T → list nat → result json_error T :=
  fix go members t seen :=
    match members with
    | [] => Ok t
    | (name, j) :: rest =>
        match find name with
        | None => if DiscardUnknown o then go rest t seen else Err (UnknownField name)
        | Some i =>
            if bool_decide (i ∈ seen) then Err (DuplicateField name)
            else
              match j with
              | JNull => go rest t (i :: seen)
              | _ =>
                  match set i j t with
                  | Err e => Err e
                  | Ok t' => go rest t' (i :: seen)
                  end
              end
        end
    end.

(** [unmarshalSingular], [unmarshalList] and [unmarshalMap] by the kind of the field. *)
Fixpoint unmarshalValue (o : UnmarshalOptions) (limit : Z) (k : kind) (j : json) :
    result json_error (option (val k)) :=
  let set limit :=
    fix set (fs : fields) (i : nat) (j : json) : tup fs → result json_error (tup fs) :=
      match fs with
      | [] => Ok
      | (_, k) :: fs' => λ t,
          match i with
          | 0 =>
              match unmarshalValue o limit k j with
              | Err e => Err e
              | Ok v => Ok (default t.1 v, t.2)
              end
          | S i' =>
              match set fs' i' j t.2 with
              | Err e => Err e
              | Ok t' => Ok (t.1, t')
              end
          end
      end in
  let unmarshalMessage (fs : fields) (j : json) : result json_error (tup fs) :=
    if (limit - 1 <? 0)%Z then Err RecursionDepth
    else
      match j with
      | JObject members =>
          unmarshalMembers o (find_field fs) (set (limit - 1)%Z fs) members (zero_tup fs) []
      | _ => Err UnexpectedToken
      end in
  match k return result json_error (option (val k)) with
  | KString => match j with JString s => Ok (Some s) | _ => Err InvalidValue end
  | KEnum values => unmarshalEnum o values j
  | KMessage fs =>
      match unmarshalMessage fs j with Err e => Err e | Ok t => Ok (Some (Some t)) end
  | KRepeated fs =>
      match j with
      | JArray l =>
          match unmarshalList (unmarshalMessage fs) l with Err e => Err e | Ok l => Ok (Some l) end
      | _ => Err UnexpectedToken
      end
  | KMap =>
      match j with
      | JObject l =>
          match unmarshalEntries l ∅ with Err e => Err e | Ok m => Ok (Some m) end
      | _ => Err UnexpectedToken
      end
  end.

Definition set_field (o : UnmarshalOptions) (limit : Z) :
    ∀ (fs : fields) (i : nat) (j : json), tup fs → result json_error (tup fs) :=
  fix set_field (fs : fields) (i : nat) (j : json) : tup fs → result json_error (tup fs) :=
  match fs with
  | [] => Ok
  | (_, k) :: fs' => λ t,
      match i with
      | 0 =>
          match unmarshalValue o limit k j with
          | Err e => Err e
          | Ok v => Ok (default t.1 v, t.2)
          end
      | S i' =>
          match set_field fs' i' j t.2 with
          | Err e => Err e
          | Ok t' => Ok (t.1, t')
          end
      end
  end.
Definition unmarshalMessage (o : UnmarshalOptions) (limit : Z) (fs : fields) (j : json) :
    result json_error (tup fs) :=
  if (limit - 1 <? 0)%Z then Err RecursionDepth
  else
    match j with
    | JObject members =>
        unmarshalMembers o (find_field fs) (set_field o (limit - 1) fs) members (zero_tup fs) []
    | _ => Err UnexpectedToken
    end.

(** The equations of the two functions on values, in terms of those on messages. *)
Lemma marshalValue_message o fs m :
  marshalValue o (KMessage fs) m = match m with None => Ok JNull | Some t => marshalMessage o fs t end.
Proof. reflexivity. Qed.
Lemma marshalValue_repeated o fs l :
  marshalValue o (KRepeated fs) l =
    match marshalList (marshalMessage o fs) l with Err e => Err e | Ok out => Ok (JArray out) end.
Proof. reflexivity. Qed.
Lemma unmarshalValue_message o limit fs j :
  unmarshalValue o limit (KMessage fs) j =
    match unmarshalMessage o limit fs j with Err e => Err e | Ok t => Ok (Some (Some t)) end.
Proof. reflexivity. Qed.
Lemma unmarshalValue_repeated o limit fs l :
  unmarshalValue o limit (KRepeated fs) (JArray l) =
    match unmarshalList (unmarshalMessage o limit fs) l with Err e => Err e | Ok l => Ok (Some l) end.
Proof. reflexivity. Qed.

(** ** Names of fields *)

Lemma names_ok_find o fs i (nk : field_id * kind) :
  names_ok fs = true → fs !! i = Some nk →
  find_field fs (field_name o nk.1) = Some i ∧ utf8_ValidString (field_name o nk.1) = true.
Proof.
  unfold names_ok. rewrite forallb_forall. intros Hall Hl.
  assert (bool_decide (find_field fs (JSONCamelCase nk.1) = Some i) &&
          bool_decide (find_field fs nk.1 = Some i) &&
          (utf8_ValidString (JSONCamelCase nk.1) && utf8_ValidString nk.1) = true) as Hb.
  { apply (Hall _). apply list_elem_of_In, list_elem_of_lookup. exists i. by rewrite list_lookup_imap, Hl. }
  apply andb_true_iff in Hb as [[H1%bool_decide_eq_true H2%bool_decide_eq_true]%andb_true_iff [H3 H4]%andb_true_iff].
  unfold field_name. by destruct (UseProtoNames o).
Qed.

(** ** Maps of strings *)

Lemma insert_by_key_perm {A} (x : string * A) l : insert_by_key x l ≡ₚ x :: l.
Proof. induction l as [|y l IH]; cbn; [done|]. case_match; [done|]. rewrite IH. apply Permutation_swap. Qed.
Lemma sort_by_key_perm {A} (l : list (string * A)) : sort_by_key l ≡ₚ l.
Proof. induction l as [|x l IH]; cbn; [done|]. by rewrite insert_by_key_perm, IH. Qed.

Lemma marshalEntries_Ok l out :
  marshalEntries l = Ok out ↔
  out = (λ kv, (kv.1, JString kv.2)) <$> l ∧
  ∀ kv, kv ∈ l → utf8_ValidString kv.1 = true ∧ utf8_ValidString kv.2 = true.
Proof.
  revert out. induction l as [|[k v] l IH]; intros out; cbn.
  { split; [intros [= <-]|intros [-> _]; done]. split; [done|]. by intros kv ?%elem_of_nil. }
  setoid_rewrite elem_of_cons.
  destruct (utf8_ValidString k) eqn:Ek; cbn;
    [|split; [done|intros [_ H]; destruct (H (k, v)) as [? _]; [by left|cbn [fst snd] in *; congruence]]].
  unfold marshalString. destruct (utf8_ValidString v) eqn:Ev;
    [|split; [done|intros [_ H]; destruct (H (k, v)) as [_ ?]; [by left|cbn [fst snd] in *; congruence]]].
  destruct (marshalEntries l) as [out'|e].
  - destruct (proj1 (IH out') eq_refl) as [-> Hall]. split.
    + intros [= <-]. split; [done|]. intros kv [->|Hin]; [done|by apply Hall].
    + by intros [-> _].
  - split; [done|]. intros [-> Hall]. destruct (IH ((λ kv, (kv.1, JString kv.2)) <$> l)) as [_ H].
    discriminate H. split; [done|]. intros kv Hin. apply Hall. by right.
Qed.

Lemma unmarshalEntries_strings l m :
  NoDup l.*1 → (∀ k, k ∈ l.*1 → m !! k = None) →
  unmarshalEntries ((λ kv, (kv.1, JString kv.2)) <$> l) m = Ok (list_to_map l ∪ m).
Proof.
  revert m. induction l as [|[k v] l IH]; intros m Hnd Hm; cbn in *; [by rewrite (left_id_L ∅ (∪))|].
  apply NoDup_cons in Hnd as [Hni Hnd]. unfold has_key. rewrite (Hm k) by by left. cbn.
  rewrite IH; [|done|].
  - f_equal. rewrite <-insert_union_r, insert_union_l; [done|]. by apply not_elem_of_list_to_map.
  - intros k' Hk'. rewrite lookup_insert_ne by by intros ->. apply Hm. by right.
Qed.

Lemma map_roundtrip (m : gmap string string) out :
  marshalEntries (sort_by_key (map_to_list m)) = Ok out → unmarshalEntries out ∅ = Ok m.
Proof.
  intros [-> _]%marshalEntries_Ok. rewrite unmarshalEntries_strings.
  - rewrite (right_id_L ∅ (∪)). f_equal. rewrite <-(list_to_map_to_list m) at 2.
    apply list_to_map_proper; [|apply sort_by_key_perm].
    rewrite sort_by_key_perm. apply NoDup_fst_map_to_list.
  - rewrite sort_by_key_perm. apply NoDup_fst_map_to_list.
  - intros k _. apply lookup_empty.
Qed.

(** ** The loop over members *)

Section members.
Context (o : UnmarshalOptions) (limit : Z).

Definition shift (find : string → option nat) (name : string) : option nat :=
  match find name with Some (S i) => Some i | _ => None end.

(** Members that leave the first field alone. *)
Lemma unmarshalMembers_shift find n k fs members v (t : tup fs) seen seen' :
  (∀ nj, nj ∈ members → ∃ i, find nj.1 = Some (S i)) → (∀ i, i ∈ seen' ↔ S i ∈ seen) →
  unmarshalMembers o find (set_field o limit ((n, k) :: fs)) members (v, t) seen =
    match unmarshalMembers o (shift find) (set_field o limit fs) members t seen' with
    | Err e => Err e
    | Ok t' => Ok (v, t')
    end.
Proof.
  revert t seen seen'. induction members as [|[name j] rest IH]; intros t seen seen' Hf Hs; cbn; [done|].
  destruct (Hf (name, j)) as [i Hi]; [by left|]. cbn in Hi. unfold shift at 1. rewrite Hi.
  rewrite (bool_decide_ext (S i ∈ seen) (i ∈ seen')) by (by rewrite Hs).
  destruct (bool_decide (i ∈ seen')); [done|].
  assert (∀ t1, unmarshalMembers o find (set_field o limit ((n, k) :: fs)) rest (v, t1) (S i :: seen) =
    match unmarshalMembers o (shift find) (set_field o limit fs) rest t1 (i :: seen') with
    | Err e => Err e
    | Ok t' => Ok (v, t')
    end) as Hgo.
  { intros t1. apply IH; [intros nj Hin; apply Hf; by right|]. intros i'. rewrite !elem_of_cons, Hs.
    by rewrite (inj_iff S). }
  destruct j; try apply Hgo; (destruct (set_field o limit fs i _ t); [apply Hgo|done]).
Qed.
End members.

Lemma marshalFields_names o fs t members nj :
  marshalFields o fs t = Ok members → nj ∈ members → ∃ i (nk : field_id * kind), fs !! i = Some nk ∧ nj.1 = field_name o nk.1.
Proof.
  revert t members. induction fs as [|[n k] fs IH]; intros t members; cbn.
  { intros [= <-] ?%elem_of_nil. done. }
  destruct (EmitUnpopulated o || populated k t.1).
  - destruct (marshalValue o k t.1) as [j|]; [|done].
    destruct (marshalFields o fs t.2) as [out|] eqn:E; [|done]. intros [= <-] [->|Hin]%elem_of_cons.
    + by exists 0, (n, k).
    + destruct (IH t.2 out E Hin) as (i & nk & ? & ?). by exists (S i), nk.
  - intros H Hin. destruct (IH t.2 members H Hin) as (i & nk & ? & ?). by exists (S i), nk.
Qed.

(** ** Round trip *)

Section roundtrip.
Context (o : MarshalOptions) (o' : UnmarshalOptions).

Definition value_roundtrip (k : kind) : Prop :=
  ∀ limit v j, kind_ok k = true → in_range k v → (depth k ≤ limit)%Z → marshalValue o k v = Ok j →
    (j = JNull ∧ v = zero_val k) ∨ (j ≠ JNull ∧ unmarshalValue o' limit k j = Ok (Some v)).

Definition fields_roundtrip (fs : fields) : Prop :=
  ∀ limit t members find seen, forallb (λ nk, kind_ok nk.2) fs = true → fields_range fs t →
    (fields_depth fs ≤ limit)%Z → marshalFields o fs t = Ok members →
    (∀ i (nk : field_id * kind), fs !! i = Some nk → find (field_name o nk.1) = Some i) →
    (∀ i, i ∈ seen → length fs ≤ i) →
    unmarshalMembers o' find (set_field o' limit fs) members (zero_tup fs) seen = Ok t.

Lemma message_roundtrip_from fs limit t j :
  fields_roundtrip fs → fields_ok fs = true → fields_range fs t → (1 + fields_depth fs ≤ limit)%Z →
  marshalMessage o fs t = Ok j → unmarshalMessage o' limit fs j = Ok t ∧ j ≠ JNull.
Proof.
  intros Hrt [Hn Hk]%andb_true_iff Hr Hd. unfold marshalMessage.
  destruct (marshalFields o fs t) as [members|] eqn:E; [|done]. intros [= <-]. split; [|done].
  pose proof (fields_depth_nonneg fs).
  unfold unmarshalMessage. destruct (Z.ltb_spec (limit - 1) 0); [lia|].
  apply Hrt; [done|done|lia|done| |by intros i ?%elem_of_nil]. intros i nk. by apply names_ok_find.
Qed.

Lemma list_roundtrip fs limit l out :
  fields_roundtrip fs → fields_ok fs = true → Forall (fields_range fs) l →
  (1 + fields_depth fs ≤ limit)%Z → marshalList (marshalMessage o fs) l = Ok out →
  unmarshalList (unmarshalMessage o' limit fs) out = Ok l.
Proof.
  intros Hrt Hok Hall Hd. revert out. induction Hall as [|t l Ht Hall IH]; intros out; cbn; [by intros [= <-]|].
  destruct (marshalMessage o fs t) as [j|] eqn:Ej; [|done].
  destruct (marshalList _ l) as [out'|] eqn:El; [|done]. intros [= <-]. cbn.
  destruct (message_roundtrip_from fs limit t j Hrt Hok Ht Hd Ej) as [-> _]. by rewrite (IH out').
Qed.

Lemma enum_roundtrip values : value_roundtrip (KEnum values).
Proof.
  intros limit z j Hok Hr _ [= <-]. right. unfold marshalEnum. cbn in Hok, Hr.
  destruct (enum_name values z) as [name|] eqn:E; [destruct (UseEnumNumbers o)|]; (split; [done|]); cbn.
  - by rewrite Hr.
  - by rewrite (proj1 (enum_ok_number values z name Hok E)).
  - by rewrite Hr.
Qed.

Lemma fields_roundtrip_cons n k fs :
  value_roundtrip k → fields_roundtrip fs → fields_roundtrip ((n, k) :: fs).
Proof.
  intros Hv Hf limit [v t] members find seen Hok [Hrv Hrt] Hd Hm Hfind Hseen.
  cbn [forallb snd] in Hok. apply andb_true_iff in Hok as [Hokv Hokf]. cbn [fields_depth foldr snd] in Hd.
  fold (fields_depth fs) in Hd.
  (* the members of the other fields, once the first field is [v] *)
  assert (∀ out seen1, marshalFields o fs t = Ok out →
    (∀ i, S i ∈ seen1 → length fs ≤ i) →
    unmarshalMembers o' find (set_field o' limit ((n, k) :: fs)) out (v, zero_tup fs) seen1 = Ok (v, t)) as Hrest.
  { intros out seen1 Hout Hs1.
    rewrite (unmarshalMembers_shift o' limit find n k fs out v (zero_tup fs) seen1
               (pred <$> List.filter (λ i, negb (i =? 0)) seen1)).
    - erewrite Hf; [done|done|exact Hrt|lia|exact Hout| |].
      + intros i nk Hi. unfold shift. by rewrite (Hfind (S i) nk).
      + intros i (i' & -> & Hi')%list_elem_of_fmap. apply list_elem_of_In, filter_In in Hi' as [Hin Hne].
        apply list_elem_of_In in Hin. destruct i'; [done|]. cbn. by apply Hs1.
    - intros nj Hin. destruct (marshalFields_names o fs t out nj Hout Hin) as (i & nk & Hi & ->).
      exists i. by apply (Hfind (S i) nk).
    - intros i. rewrite list_elem_of_fmap. split.
      + intros (i' & -> & Hi')%id. apply list_elem_of_In, filter_In in Hi' as [Hin Hne].
        apply list_elem_of_In in Hin. by destruct i'.
      + intros Hin. exists (S i). split; [done|]. by apply list_elem_of_In, filter_In; rewrite <-list_elem_of_In. }
  assert (∀ i, S i ∈ seen → length fs ≤ i) as Hs by (intros i Hi; apply Hseen in Hi; cbn in Hi; lia).
  cbn [marshalFields fst snd] in Hm. destruct (EmitUnpopulated o || populated k v) eqn:Ep.
  - destruct (marshalValue o k v) as [j|] eqn:Ej; [|done].
    fold (marshalFields o) in Hm. destruct (marshalFields o fs t) as [out|] eqn:Eo; [|done]. injection Hm as <-.
    pose proof (Hfind 0 (n, k) eq_refl) as Hf0. cbn [fst] in Hf0.
    cbn [unmarshalMembers]. rewrite Hf0.
    rewrite bool_decide_eq_false_2 by (intros Hi; apply Hseen in Hi; cbn in Hi; lia).
    destruct (Hv limit v j) as [[-> ->]|[Hne Hu]]; [done|done|lia|done|..].
    + apply Hrest; [done|]. intros i [?|Hi]%elem_of_cons; [done|by apply Hs].
    + assert (set_field o' limit ((n, k) :: fs) 0 j (zero_tup ((n, k) :: fs)) = Ok (v, zero_tup fs)) as Hset
        by (cbn; by rewrite Hu).
      fold (unmarshalMembers o' find (set_field o' limit ((n, k) :: fs))).
      destruct j; [done|rewrite Hset..]; (apply Hrest; [done|]; intros i [?|Hi]%elem_of_cons; [done|by apply Hs]).
  - apply orb_false_iff in Ep as [_ Hz%unpopulated_zero]. subst v. by apply Hrest.
Qed.

Lemma roundtrips : (∀ k, value_roundtrip k) ∧ ∀ fs, fields_roundtrip fs.
Proof.
  apply kind_fields_ind.
  - intros limit s j _ _ _. cbn. unfold marshalString. case_match; [|done]. intros [= <-]. by right.
  - apply enum_roundtrip.
  - intros fs Hfs limit [t|] j Hok Hr Hd Hj; [|left; by injection Hj as <-].
    rewrite marshalValue_message in Hj. right.
    destruct (message_roundtrip_from fs limit t j Hfs Hok Hr Hd Hj) as [Hu Hne]. split; [done|].
    by rewrite unmarshalValue_message, Hu.
  - intros fs Hfs limit l j Hok Hr Hd Hj. rewrite marshalValue_repeated in Hj. right.
    destruct (marshalList (marshalMessage o fs) l) as [out|] eqn:E; [|done]. injection Hj as <-. split; [done|].
    rewrite unmarshalValue_repeated. by rewrite (list_roundtrip fs limit l out).
  - intros limit m j _ _ _. cbn. destruct (marshalEntries _) as [out|] eqn:E; [|done]. intros [= <-].
    right. split; [done|]. by rewrite (map_roundtrip m out).
  - intros limit t members find seen _ Ht _ Hm _ _. cbn in Ht. subst t. by injection Hm as <-.
  - apply fields_roundtrip_cons.
Qed.

Lemma message_roundtrip fs limit t j :
  fields_ok fs = true → fields_range fs t → (1 + fields_depth fs ≤ limit)%Z →
  marshalMessage o fs t = Ok j → unmarshalMessage o' limit fs j = Ok t.
Proof. intros. eapply message_roundtrip_from; try done. apply roundtrips. Qed.
End roundtrip.

(** ** When marshalling fails *)

Lemma marshalList_ok {A} (f : A → result json_error json) l :
  is_ok (marshalList f l) = true ↔ Forall (λ x, is_ok (f x) = true) l.
Proof.
  induction l as [|x l IH]; cbn; [by split; [constructor|]|]. rewrite Forall_cons, <-IH.
  destruct (f x); [|naive_solver]. destruct (marshalList f l); naive_solver.
Qed.

Lemma marshalMessage_ok o fs t : is_ok (marshalMessage o fs t) = is_ok (marshalFields o fs t).
Proof. unfold marshalMessage. by destruct (marshalFields o fs t). Qed.

Lemma entries_ok m : is_ok (marshalEntries (sort_by_key (map_to_list m))) = true ↔ entries_valid m.
Proof.
  assert ((∃ out, marshalEntries (sort_by_key (map_to_list m)) = Ok out) ↔ entries_valid m) as H.
  { setoid_rewrite marshalEntries_Ok. unfold entries_valid. split.
    - intros (out & _ & Hall) k v Hl. apply (Hall (k, v)). by rewrite sort_by_key_perm, elem_of_map_to_list.
    - intros Hall. eexists. split; [done|]. intros [k v]. rewrite sort_by_key_perm, elem_of_map_to_list. apply Hall. }
  rewrite <-H. destruct (marshalEntries _); cbn; [naive_solver|]. split; [done|by intros [? [=]]].
Qed.

(** Marshalling succeeds exactly when all strings are valid UTF-8. *)
Lemma marshal_ok o :
  (∀ k v, is_ok (marshalValue o k v) = true ↔ strings_valid k v) ∧
  ∀ fs t, is_ok (marshalFields o fs t) = true ↔ fields_valid fs t.
Proof.
  apply (kind_fields_ind (λ k, ∀ v, is_ok (marshalValue o k v) = true ↔ strings_valid k v)
           (λ fs, ∀ t, is_ok (marshalFields o fs t) = true ↔ fields_valid fs t)).
  - intros s. cbn. unfold marshalString. by destruct (utf8_ValidString s).
  - done.
  - intros fs IH [t|]; [|done]. rewrite marshalValue_message, marshalMessage_ok. apply IH.
  - intros fs IH l. rewrite marshalValue_repeated.
    transitivity (is_ok (marshalList (marshalMessage o fs) l) = true).
    { by destruct (marshalList (marshalMessage o fs) l). }
    rewrite marshalList_ok. apply Forall_iff. intros t. rewrite marshalMessage_ok. apply IH.
  - intros m. cbn. rewrite <-entries_ok. by destruct (marshalEntries _).
  - done.
  - intros n k fs IHk IHfs [v t]. cbn. rewrite <-IHfs, <-IHk.
    destruct (EmitUnpopulated o || populated k v) eqn:Ep.
    + destruct (marshalValue o k v); cbn; [|naive_solver]. destruct (marshalFields o fs t); naive_solver.
    + apply orb_false_iff in Ep as [_ ->%unpopulated_zero]. rewrite (proj2 (IHk _) (zero_valid k)). naive_solver.
Qed.

(** ** What unmarshalling accepts *)

(** Without [DiscardUnknown], every member names a field, and no two name the same. *)
Definition members_known (find : string → option nat) (members : list (string * json)) : Prop :=
  ∃ idx, Forall2 (λ nj i, find nj.1 = Some i) members idx ∧ NoDup idx.

Lemma unmarshalMembers_known {T} o find (set : nat → json → T → result json_error T) members t seen t' :
  DiscardUnknown o = false → unmarshalMembers o find set members t seen = Ok t' →
  ∃ idx, Forall2 (λ nj i, find nj.1 = Some i) members idx ∧ NoDup idx ∧ ∀ i, i ∈ idx → i ∉ seen.
Proof.
  intros Ho. revert t seen. induction members as [|[name j] rest IH]; intros t seen; cbn.
  { intros _. exists []. split; [constructor|]. split; [constructor|]. by intros i ?%elem_of_nil. }
  destruct (find name) as [i|] eqn:Ef; [|by rewrite Ho].
  destruct (bool_decide (i ∈ seen)) eqn:Es; [done|]. apply bool_decide_eq_false in Es. intros H.
  assert (∃ t1, unmarshalMembers o find set rest t1 (i :: seen) = Ok t') as [t1 H1].
  { destruct j; [by eexists|destruct (set i _ t); [by eexists|done]..]. }
  destruct (IH t1 (i :: seen) H1) as (idx & HF & Hnd & Hns). exists (i :: idx). split_and!.
  - by constructor.
  - constructor; [|done]. intros Hin. apply (Hns i Hin). by left.
  - intros i' [->|Hin]%elem_of_cons; [done|]. intros Hs. apply (Hns i' Hin). by right.
Qed.

Lemma unmarshalMessage_known o limit fs j t :
  DiscardUnknown o = false → unmarshalMessage o limit fs j = Ok t →
  ∃ members, j = JObject members ∧ members_known (find_field fs) members.
Proof.
  intros Ho. unfold unmarshalMessage. case_match; [done|]. destruct j; try done. intros H1.
  eexists. split; [done|]. apply unmarshalMembers_known in H1 as (idx & HF & Hnd & _); [|done]. by exists idx.
Qed.

(** ** What is written can be written *)

Lemma marshalList_valid {A} (f : A → result json_error json) l out :
  Forall (λ x, ∀ j, f x = Ok j → json_valid j = true) l → marshalList f l = Ok out → forallb json_valid out = true.
Proof.
  intros Hf. revert out. induction Hf as [|x l Hx Hl IH]; intros out; cbn; [by intros [= <-]|].
  destruct (f x) as [j|] eqn:Ej; [|done]. destruct (marshalList f l) as [out'|]; [|done].
  intros [= <-]. cbn. by rewrite (Hx j eq_refl), IH.
Qed.

Definition members_valid (l : list (string * json)) : bool :=
  forallb (λ nj, utf8_ValidString nj.1 && json_valid nj.2) l.

Lemma marshalEntries_valid l out : marshalEntries l = Ok out → members_valid out = true.
Proof.
  intros [-> Hall]%marshalEntries_Ok. unfold members_valid. apply forallb_forall.
  intros nj Hin%list_elem_of_In%list_elem_of_fmap. destruct Hin as (kv & -> & Hin). cbn.
  by apply andb_true_iff, Hall.
Qed.

Lemma marshal_valid o :
  (∀ k v j, kind_ok k = true → in_range k v → marshalValue o k v = Ok j → json_valid j = true) ∧
  ∀ fs t out, (∀ nk : field_id * kind, nk ∈ fs → utf8_ValidString (field_name o nk.1) = true) →
    forallb (λ nk, kind_ok nk.2) fs = true → fields_range fs t →
    marshalFields o fs t = Ok out → members_valid out = true.
Proof.
  assert (∀ fs t j, (∀ t out, (∀ nk : field_id * kind, nk ∈ fs → utf8_ValidString (field_name o nk.1) = true) →
    forallb (λ nk, kind_ok nk.2) fs = true → fields_range fs t → marshalFields o fs t = Ok out → members_valid out = true) →
    fields_ok fs = true → fields_range fs t → marshalMessage o fs t = Ok j → json_valid j = true) as Hmsg.
  { intros fs t j IH [Hn Hk]%andb_true_iff Hr. unfold marshalMessage.
    destruct (marshalFields o fs t) as [out|] eqn:E; [|done]. intros [= <-]. eapply IH; [|done|done|done].
    intros nk [i Hi]%list_elem_of_lookup. by eapply names_ok_find. }
  apply (kind_fields_ind (λ k, ∀ v j, kind_ok k = true → in_range k v → marshalValue o k v = Ok j → json_valid j = true)
    (λ fs, ∀ t out, (∀ nk : field_id * kind, nk ∈ fs → utf8_ValidString (field_name o nk.1) = true) →
       forallb (λ nk, kind_ok nk.2) fs = true → fields_range fs t →
       marshalFields o fs t = Ok out → members_valid out = true)).
  - intros s j _ _. cbn. unfold marshalString. case_match; [|done]. by intros [= <-].
  - intros vs z j Hok Hr [= <-]. unfold marshalEnum. destruct (enum_name vs z) as [n|] eqn:E; [|done].
    case_match; [done|]. by eapply enum_ok_number.
  - intros fs IH [t|] j Hok Hr; [|by intros [= <-]]. rewrite marshalValue_message. by apply Hmsg.
  - intros fs IH l j Hok Hr. rewrite marshalValue_repeated.
    destruct (marshalList (marshalMessage o fs) l) as [out|] eqn:E; [|done]. intros [= <-]. cbn.
    eapply marshalList_valid; [|exact E]. eapply Forall_impl; [exact Hr|]. intros t Ht j. by apply Hmsg.
  - intros m j _ _. cbn. destruct (marshalEntries _) as [out|] eqn:E; [|done]. intros [= <-].
    by eapply marshalEntries_valid.
  - by intros t out _ _ _ [= <-].
  - intros n k fs IHk IHfs [v t] out Hn [Hk Hks]%andb_true_iff [Hrv Hrt]. cbn [marshalFields fst snd].
    fold (marshalFields o).
    assert (∀ out', marshalFields o fs t = Ok out' → members_valid out' = true) as Hrest.
    { intros out' E. eapply IHfs; [|done|done|done]. intros nk Hin. apply Hn. by right. }
    case_match; [|by apply Hrest]. destruct (marshalValue o k v) as [j|] eqn:Ej; [|done].
    destruct (marshalFields o fs t) as [out'|] eqn:E; [|done]. intros [= <-].
    pose proof (Hn (n, k) (list_elem_of_here _ _)) as Hu. cbn [fst] in Hu.
    unfold members_valid. cbn [forallb fst snd]. rewrite (IHk v j Hk Hrv Ej), Hu. by apply Hrest.
Qed.

Lemma marshalMessage_valid o fs t j :
  fields_ok fs = true → fields_range fs t → marshalMessage o fs t = Ok j → json_valid j = true.
Proof.
  intros [Hn Hk]%andb_true_iff Hr. unfold marshalMessage.
  destruct (marshalFields o fs t) as [out|] eqn:E; [|done]. intros [= <-].
  eapply (proj2 (marshal_valid o)); [|done|done|done]. intros nk [i Hi]%list_elem_of_lookup. by eapply names_ok_find.
Qed.
