(* ===== verification/CosiJson.v ===== *)
(** * The messages of the driver protocol as JSON

    Models [src/proto/cosi.pb.json.go], the JSON methods of the 27 messages of the driver
    protocol, on the codec of [ProtoJson] with the descriptors of [CosiDesc] and the text of
    [JsonText]. *)

From Stdlib Require Import Ascii.
From stdpp Require Import base gmap strings list.
From S2P Require Import Prelude ProtoTypes ProtoDesc JsonText ProtoJson CosiDesc.

(** ** The methods *)

Section methods.
(** The constant of the binary by which there is a space behind commas. *)
Context (detrand : bool).

(** [protojson.MarshalOptions.Marshal] and [protojson.UnmarshalOptions.Unmarshal], which
    resets the message it fills. *)
Definition Marshal {M} `{ProtoMessage M} (o : MarshalOptions) (m : M) : result json_error string :=
  match marshalMessage o descriptor (to_fields m) with
  | Err e => Err e
  | Ok j => Ok (json_write detrand j)
  end.
Definition Unmarshal {M} `{ProtoMessage M} (o : UnmarshalOptions) (b : string) : result json_error M :=
  match json_read b with
  | Err e => Err e
  | Ok j =>
      match unmarshalMessage o DefaultRecursionLimit descriptor j with
      | Err e => Err e
      | Ok t => Ok (of_fields t)
      end
  end.

Definition DriverGetInfoRequest_MarshalJSON (msg : DriverGetInfoRequest) : result json_error string :=
  Marshal {| UseEnumNumbers := false; EmitUnpopulated := true; UseProtoNames := false |} msg.
Definition DriverGetInfoRequest_UnmarshalJSON (b : string) : result json_error DriverGetInfoRequest :=
  Unmarshal {| DiscardUnknown := false |} b.

Definition DriverGetInfoResponse_MarshalJSON (msg : DriverGetInfoResponse) : result json_error string :=
  Marshal {| UseEnumNumbers := false; EmitUnpopulated := true; UseProtoNames := false |} msg.
Definition DriverGetInfoResponse_UnmarshalJSON (b : string) : result json_error DriverGetInfoResponse :=
  Unmarshal {| DiscardUnknown := false |} b.

Definition ObjectProtocol_MarshalJSON (msg : ObjectProtocol) : result json_error string :=
  Marshal {| UseEnumNumbers := false; EmitUnpopulated := true; UseProtoNames := false |} msg.
Definition ObjectProtocol_UnmarshalJSON (b : string) : result json_error ObjectProtocol :=
  Unmarshal {| DiscardUnknown := false |} b.

Definition ObjectProtocolAndBucketInfo_MarshalJSON (msg : ObjectProtocolAndBucketInfo) : result json_error string :=
  Marshal {| UseEnumNumbers := false; EmitUnpopulated := true; UseProtoNames := false |} msg.
Definition ObjectProtocolAndBucketInfo_UnmarshalJSON (b : string) : result json_error ObjectProtocolAndBucketInfo :=
  Unmarshal {| DiscardUnknown := false |} b.

Definition CredentialInfo_MarshalJSON (msg : CredentialInfo) : result json_error string :=
  Marshal {| UseEnumNumbers := false; EmitUnpopulated := true; UseProtoNames := false |} msg.
Definition CredentialInfo_UnmarshalJSON (b : string) : result json_error CredentialInfo :=
  Unmarshal {| DiscardUnknown := false |} b.

Definition S3BucketInfo_MarshalJSON (msg : S3BucketInfo) : result json_error string :=
  Marshal {| UseEnumNumbers := false; EmitUnpopulated := true; UseProtoNames := false |} msg.
Definition S3BucketInfo_UnmarshalJSON (b : string) : result json_error S3BucketInfo :=
  Unmarshal {| DiscardUnknown := false |} b.

Definition S3CredentialInfo_MarshalJSON (msg : S3CredentialInfo) : result json_error string :=
  Marshal {| UseEnumNumbers := false; EmitUnpopulated := true; UseProtoNames := false |} msg.
Definition S3CredentialInfo_UnmarshalJSON (b : string) : result json_error S3CredentialInfo :=
  Unmarshal {| DiscardUnknown := false |} b.

Definition S3AddressingStyle_MarshalJSON (msg : S3AddressingStyle) : result json_error string :=
  Marshal {| UseEnumNumbers := false; EmitUnpopulated := true; UseProtoNames := false |} msg.
Definition S3AddressingStyle_UnmarshalJSON (b : string) : result json_error S3AddressingStyle :=
  Unmarshal {| DiscardUnknown := false |} b.

Definition AzureBucketInfo_MarshalJSON (msg : AzureBucketInfo) : result json_error string :=
  Marshal {| UseEnumNumbers := false; EmitUnpopulated := true; UseProtoNames := false |} msg.
Definition AzureBucketInfo_UnmarshalJSON (b : string) : result json_error AzureBucketInfo :=
  Unmarshal {| DiscardUnknown := false |} b.

Definition AzureCredentialInfo_MarshalJSON (msg : AzureCredentialInfo) : result json_error string :=
  Marshal {| UseEnumNumbers := false; EmitUnpopulated := true; UseProtoNames := false |} msg.
Definition AzureCredentialInfo_UnmarshalJSON (b : string) : result json_error AzureCredentialInfo :=
  Unmarshal {| DiscardUnknown := false |} b.

Definition GcsBucketInfo_MarshalJSON (msg : GcsBucketInfo) : result json_error string :=
  Marshal {| UseEnumNumbers := false; EmitUnpopulated := true; UseProtoNames := false |} msg.
Definition GcsBucketInfo_UnmarshalJSON (b : string) : result json_error GcsBucketInfo :=
  Unmarshal {| DiscardUnknown := false |} b.

Definition GcsCredentialInfo_MarshalJSON (msg : GcsCredentialInfo) : result json_error string :=
  Marshal {| UseEnumNumbers := false; EmitUnpopulated := true; UseProtoNames := false |} msg.
Definition GcsCredentialInfo_UnmarshalJSON (b : string) : result json_error GcsCredentialInfo :=
  Unmarshal {| DiscardUnknown := false |} b.

Definition AuthenticationType_MarshalJSON (msg : AuthenticationType) : result json_error string :=
  Marshal {| UseEnumNumbers := false; EmitUnpopulated := true; UseProtoNames := false |} msg.
Definition AuthenticationType_UnmarshalJSON (b : string) : result json_error AuthenticationType :=
  Unmarshal {| DiscardUnknown := false |} b.

Definition AccessMode_MarshalJSON (msg : AccessMode) : result json_error string :=
  Marshal {| UseEnumNumbers := false; EmitUnpopulated := true; UseProtoNames := false |} msg.
Definition AccessMode_UnmarshalJSON (b : string) : result json_error AccessMode :=
  Unmarshal {| DiscardUnknown := false |} b.

Definition DriverCreateBucketRequest_MarshalJSON (msg : DriverCreateBucketRequest) : result json_error string :=
  Marshal {| UseEnumNumbers := false; EmitUnpopulated := true; UseProtoNames := false |} msg.
Definition DriverCreateBucketRequest_UnmarshalJSON (b : string) : result json_error DriverCreateBucketRequest :=
  Unmarshal {| DiscardUnknown := false |} b.

Definition DriverCreateBucketResponse_MarshalJSON (msg : DriverCreateBucketResponse) : result json_error string :=
  Marshal {| UseEnumNumbers := false; EmitUnpopulated := true; UseProtoNames := false |} msg.
Definition DriverCreateBucketResponse_UnmarshalJSON (b : string) : result json_error DriverCreateBucketResponse :=
  Unmarshal {| DiscardUnknown := false |} b.

Definition DriverGetExistingBucketRequest_MarshalJSON (msg : DriverGetExistingBucketRequest) : result json_error string :=
  Marshal {| UseEnumNumbers := false; EmitUnpopulated := true; UseProtoNames := false |} msg.
Definition DriverGetExistingBucketRequest_UnmarshalJSON (b : string) : result json_error DriverGetExistingBucketRequest :=
  Unmarshal {| DiscardUnknown := false |} b.

Definition DriverGetExistingBucketResponse_MarshalJSON (msg : DriverGetExistingBucketResponse) : result json_error string :=
  Marshal {| UseEnumNumbers := false; EmitUnpopulated := true; UseProtoNames := false |} msg.
Definition DriverGetExistingBucketResponse_UnmarshalJSON (b : string) : result json_error DriverGetExistingBucketResponse :=
  Unmarshal {| DiscardUnknown := false |} b.

Definition DriverDeleteBucketRequest_MarshalJSON (msg : DriverDeleteBucketRequest) : result json_error string :=
  Marshal {| UseEnumNumbers := false; EmitUnpopulated := true; UseProtoNames := false |} msg.
Definition DriverDeleteBucketRequest_UnmarshalJSON (b : string) : result json_error DriverDeleteBucketRequest :=
  Unmarshal {| DiscardUnknown := false |} b.

Definition DriverDeleteBucketResponse_MarshalJSON (msg : DriverDeleteBucketResponse) : result json_error string :=
  Marshal {| UseEnumNumbers := false; EmitUnpopulated := true; UseProtoNames := false |} msg.
Definition DriverDeleteBucketResponse_UnmarshalJSON (b : string) : result json_error DriverDeleteBucketResponse :=
  Unmarshal {| DiscardUnknown := false |} b.

Definition DriverGrantBucketAccessRequest_MarshalJSON (msg : DriverGrantBucketAccessRequest) : result json_error string :=
  Marshal {| UseEnumNumbers := false; EmitUnpopulated := true; UseProtoNames := false |} msg.
Definition DriverGrantBucketAccessRequest_UnmarshalJSON (b : string) : result json_error DriverGrantBucketAccessRequest :=
  Unmarshal {| DiscardUnknown := false |} b.

Definition DriverGrantBucketAccessRequest_AccessedBucket_MarshalJSON (msg : DriverGrantBucketAccessRequest_AccessedBucket) : result json_error string :=
  Marshal {| UseEnumNumbers := false; EmitUnpopulated := true; UseProtoNames := false |} msg.
Definition DriverGrantBucketAccessRequest_AccessedBucket_UnmarshalJSON (b : string) : result json_error DriverGrantBucketAccessRequest_AccessedBucket :=
  Unmarshal {| DiscardUnknown := false |} b.

Definition DriverGrantBucketAccessResponse_MarshalJSON (msg : DriverGrantBucketAccessResponse) : result json_error string :=
  Marshal {| UseEnumNumbers := false; EmitUnpopulated := true; UseProtoNames := false |} msg.
Definition DriverGrantBucketAccessResponse_UnmarshalJSON (b : string) : result json_error DriverGrantBucketAccessResponse :=
  Unmarshal {| DiscardUnknown := false |} b.

Definition DriverGrantBucketAccessResponse_BucketInfo_MarshalJSON (msg : DriverGrantBucketAccessResponse_BucketInfo) : result json_error string :=
  Marshal {| UseEnumNumbers := false; EmitUnpopulated := true; UseProtoNames := false |} msg.
Definition DriverGrantBucketAccessResponse_BucketInfo_UnmarshalJSON (b : string) : result json_error DriverGrantBucketAccessResponse_BucketInfo :=
  Unmarshal {| DiscardUnknown := false |} b.

Definition DriverRevokeBucketAccessRequest_MarshalJSON (msg : DriverRevokeBucketAccessRequest) : result json_error string :=
  Marshal {| UseEnumNumbers := false; EmitUnpopulated := true; UseProtoNames := false |} msg.
Definition DriverRevokeBucketAccessRequest_UnmarshalJSON (b : string) : result json_error DriverRevokeBucketAccessRequest :=
  Unmarshal {| DiscardUnknown := false |} b.

Definition DriverRevokeBucketAccessRequest_AccessedBucket_MarshalJSON (msg : DriverRevokeBucketAccessRequest_AccessedBucket) : result json_error string :=
  Marshal {| UseEnumNumbers := false; EmitUnpopulated := true; UseProtoNames := false |} msg.
Definition DriverRevokeBucketAccessRequest_AccessedBucket_UnmarshalJSON (b : string) : result json_error DriverRevokeBucketAccessRequest_AccessedBucket :=
  Unmarshal {| DiscardUnknown := false |} b.

Definition DriverRevokeBucketAccessResponse_MarshalJSON (msg : DriverRevokeBucketAccessResponse) : result json_error string :=
  Marshal {| UseEnumNumbers := false; EmitUnpopulated := true; UseProtoNames := false |} msg.
Definition DriverRevokeBucketAccessResponse_UnmarshalJSON (b : string) : result json_error DriverRevokeBucketAccessResponse :=
  Unmarshal {| DiscardUnknown := false |} b.


(** ** Properties *)

Section message.
Context {M : Type} `{ProtoMessage M}.

(** A message whose enums are int32, as Go types them, comes back from its JSON text; there is
    a text exactly when all strings are valid UTF-8. *)
Definition json_faithful (marshal : M → result json_error string)
    (unmarshal : string → result json_error M) : Prop :=
  ∀ m, fields_range descriptor (to_fields m) →
    (is_ok (marshal m) = true ↔ fields_valid descriptor (to_fields m)) ∧
    ∀ b, marshal m = Ok b → unmarshal b = Ok m.

(** The text has every field, in the order of the declarations and by its camel-case name,
    also the unset ones; a text is accepted only when each member names a field, by either of
    its names, and no two members name the same field. *)
Definition json_strict (marshal : M → result json_error string)
    (unmarshal : string → result json_error M) : Prop :=
  (∀ m b, marshal m = Ok b → ∃ members, b = json_write detrand (JObject members) ∧
     members.*1 = (λ nk : field_id * kind, JSONCamelCase nk.1) <$> descriptor) ∧
  ∀ b m, unmarshal b = Ok m → ∃ members, json_read b = Ok (JObject members) ∧
     members_known (find_field descriptor) members.

Lemma Marshal_faithful `{!ProtoMessageLaws M} o o' :
  json_faithful (Marshal o) (Unmarshal o').
Proof.
  intros m Hr. split.
  - rewrite <-(proj2 (marshal_ok o)), <-marshalMessage_ok. unfold Marshal.
    by destruct (marshalMessage o descriptor (to_fields m)).
  - intros b. unfold Marshal, Unmarshal.
    destruct (marshalMessage o descriptor (to_fields m)) as [j|] eqn:E; [|done]. intros [= <-].
    rewrite json_read_write by (eapply marshalMessage_valid; [apply descriptor_ok|exact Hr|exact E]).
    rewrite (message_roundtrip o o' _ _ (to_fields m) j);
      [by rewrite of_to_fields|apply descriptor_ok|done|apply descriptor_depth|done].
Qed.

Lemma marshalFields_all o fs t members :
  EmitUnpopulated o = true → UseProtoNames o = false → marshalFields o fs t = Ok members →
  members.*1 = (λ nk : field_id * kind, JSONCamelCase nk.1) <$> fs.
Proof.
  intros He Hn. revert t members. induction fs as [|[n k] fs IH]; intros t members; cbn; [by intros [= <-]|].
  rewrite He. cbn. destruct (marshalValue o k t.1); [|done].
  destruct (marshalFields o fs t.2) as [out|] eqn:E; [|done]. intros [= <-]. cbn.
  unfold field_name. by rewrite Hn, (IH t.2 out).
Qed.

Lemma Marshal_strict o o' :
  EmitUnpopulated o = true → UseProtoNames o = false → DiscardUnknown o' = false →
  json_strict (Marshal o) (Unmarshal o').
Proof.
  intros He Hn Hd. split.
  - intros m b. unfold Marshal, marshalMessage.
    destruct (marshalFields o descriptor (to_fields m)) as [members|] eqn:E; [|done]. intros [= <-].
    exists members. split; [done|]. by eapply marshalFields_all.
  - intros b m. unfold Unmarshal. destruct (json_read b) as [j|]; [|done].
    destruct (unmarshalMessage o' _ descriptor j) as [t|] eqn:E; [|done]. intros _.
    destruct (unmarshalMessage_known _ _ _ _ _ Hd E) as (members & -> & Hk). by exists members.
Qed.

Definition json_exact (marshal : M → result json_error string)
    (unmarshal : string → result json_error M) : Prop :=
  json_faithful marshal unmarshal ∧ json_strict marshal unmarshal.
End message.
End methods.

(** C37: JSON round trip. Each of the 27 messages of the driver protocol, with enum fields that
    hold any int32, is written to JSON text exactly when its strings are valid UTF-8, and what is
    written, with a space behind commas or without, is read back as the same message: escapes in
    strings and the digits of numbers included, no field is lost, an unset message stays apart
    from an empty one, numbers of unknown enum values survive, and maps and lists keep their
    entries. The text has all the fields, set or not, under their camel-case names and in the
    order of the protocol file; a text is accepted only when it is an object whose members name
    fields of the message, in camel case or as in the protocol file, and no field twice. *)
Theorem json_roundtrip detrand :
  json_exact detrand (DriverGetInfoRequest_MarshalJSON detrand) DriverGetInfoRequest_UnmarshalJSON ∧
  json_exact detrand (DriverGetInfoResponse_MarshalJSON detrand) DriverGetInfoResponse_UnmarshalJSON ∧
  json_exact detrand (ObjectProtocol_MarshalJSON detrand) ObjectProtocol_UnmarshalJSON ∧
  json_exact detrand (ObjectProtocolAndBucketInfo_MarshalJSON detrand) ObjectProtocolAndBucketInfo_UnmarshalJSON ∧
  json_exact detrand (CredentialInfo_MarshalJSON detrand) CredentialInfo_UnmarshalJSON ∧
  json_exact detrand (S3BucketInfo_MarshalJSON detrand) S3BucketInfo_UnmarshalJSON ∧
  json_exact detrand (S3CredentialInfo_MarshalJSON detrand) S3CredentialInfo_UnmarshalJSON ∧
  json_exact detrand (S3AddressingStyle_MarshalJSON detrand) S3AddressingStyle_UnmarshalJSON ∧
  json_exact detrand (AzureBucketInfo_MarshalJSON detrand) AzureBucketInfo_UnmarshalJSON ∧
  json_exact detrand (AzureCredentialInfo_MarshalJSON detrand) AzureCredentialInfo_UnmarshalJSON ∧
  json_exact detrand (GcsBucketInfo_MarshalJSON detrand) GcsBucketInfo_UnmarshalJSON ∧
  json_exact detrand (GcsCredentialInfo_MarshalJSON detrand) GcsCredentialInfo_UnmarshalJSON ∧
  json_exact detrand (AuthenticationType_MarshalJSON detrand) AuthenticationType_UnmarshalJSON ∧
  json_exact detrand (AccessMode_MarshalJSON detrand) AccessMode_UnmarshalJSON ∧
  json_exact detrand (DriverCreateBucketRequest_MarshalJSON detrand) DriverCreateBucketRequest_UnmarshalJSON ∧
  json_exact detrand (DriverCreateBucketResponse_MarshalJSON detrand) DriverCreateBucketResponse_UnmarshalJSON ∧
  json_exact detrand (DriverGetExistingBucketRequest_MarshalJSON detrand) DriverGetExistingBucketRequest_UnmarshalJSON ∧
  json_exact detrand (DriverGetExistingBucketResponse_MarshalJSON detrand) DriverGetExistingBucketResponse_UnmarshalJSON ∧
  json_exact detrand (DriverDeleteBucketRequest_MarshalJSON detrand) DriverDeleteBucketRequest_UnmarshalJSON ∧
  json_exact detrand (DriverDeleteBucketResponse_MarshalJSON detrand) DriverDeleteBucketResponse_UnmarshalJSON ∧
  json_exact detrand (DriverGrantBucketAccessRequest_MarshalJSON detrand) DriverGrantBucketAccessRequest_UnmarshalJSON ∧
  json_exact detrand (DriverGrantBucketAccessRequest_AccessedBucket_MarshalJSON detrand) DriverGrantBucketAccessRequest_AccessedBucket_UnmarshalJSON ∧
  json_exact detrand (DriverGrantBucketAccessResponse_MarshalJSON detrand) DriverGrantBucketAccessResponse_UnmarshalJSON ∧
  json_exact detrand (DriverGrantBucketAccessResponse_BucketInfo_MarshalJSON detrand) DriverGrantBucketAccessResponse_BucketInfo_UnmarshalJSON ∧
  json_exact detrand (DriverRevokeBucketAccessRequest_MarshalJSON detrand) DriverRevokeBucketAccessRequest_UnmarshalJSON ∧
  json_exact detrand (DriverRevokeBucketAccessRequest_AccessedBucket_MarshalJSON detrand) DriverRevokeBucketAccessRequest_AccessedBucket_UnmarshalJSON ∧
  json_exact detrand (DriverRevokeBucketAccessResponse_MarshalJSON detrand) DriverRevokeBucketAccessResponse_UnmarshalJSON.
Proof. by split_and!; (split; [apply Marshal_faithful; apply _|apply Marshal_strict]). Qed.

Definition demo_response : DriverCreateBucketResponse := {|
  createResp_BucketId := "backend";
  createResp_Protocols := Some {|
    bucketInfo_S3 := Some {| s3Info_BucketId := "b"; s3Info_Endpoint := "https://s3"; s3Info_Region := "";
      s3Info_AddressingStyle := Some {| s3Style_Style := S3AddressingStyle_PATH |} |};
    bucketInfo_Azure := None; bucketInfo_Gcs := None |} |}.
(** A text with apostrophes for quotation marks. *)
Fixpoint quotes (s : string) : string :=
  match s with
  | EmptyString => EmptyString
  | String c s' => (if Ascii.eqb c "'"%char then dquote else String c "") +:+ quotes s'
  end.
Definition demo_response_text : string :=
  quotes "{'bucketId':'backend', 'protocols':{'s3':{'bucketId':'b', 'endpoint':'https://s3', 'region':'', 'addressingStyle':{'style':'PATH'}}, 'azure':null, 'gcs':null}}".

Lemma json_roundtrip_witness :
  DriverCreateBucketResponse_MarshalJSON true demo_response = Ok demo_response_text ∧
  DriverCreateBucketResponse_UnmarshalJSON demo_response_text = Ok demo_response.
Proof.
  split; [vm_compute; reflexivity|].
  destruct (json_roundtrip true) as (_ & _ & _ & _ & _ & _ & _ & _ & _ & _ & _ & _ & _ & _ & _ & Hresp & _).
  apply (proj1 Hresp demo_response); [by vm_compute|vm_compute; reflexivity].
Defined.
