(* ===== verification/ProtoWire.v ===== *)
(** * Messages on the wire

    Models the binary encoding of messages, as the vendored packages [protowire] and
    [internal/impl] of the protobuf library do it for the fields of the driver protocol. The
    codec of gRPC uses it for every call of a driver.

    A message is a sequence of records, each a field number with a value. The source reads a
    record and stores it in the message in one loop; here [parse_records] reads all records and
    [set_records] stores them. An input with two errors may thus be reported with another one of
    the two; whether there is an error is the same. A record that no field takes, because its
    number or its type is another one, is kept in [unknownFields] and written again behind the
    fields. A Go map is written in an order that the language does not fix: the parameter [order]
    of [map_order]. *)

From Stdlib Require Import Ascii.
From stdpp Require Import base gmap strings list.
From S2P Require Import Prelude ProtoDesc.

#[local] Set Warnings "-register-all".
#[local] Open Scope Z_scope.

Inductive wire_error : Type :=
| ErrTruncated
| ErrFieldNumber
| ErrOverflow
| ErrReserved
| ErrEndGroup
| ErrRecursionDepth
| ErrInvalidUTF8
| OutOfFuel.

(** ** Bytes *)

Definition byte_of (z : Z) : ascii := ascii_of_N (Z.to_N z).
Definition of_byte (c : ascii) : Z := Z.of_N (N_of_ascii c).

Definition len (b : string) : Z := Z.of_nat (String.length b).

(** [b[:n]] and [b[n:]]. *)
Fixpoint str_take (n : nat) (b : string) : string :=
  match n, b with
  | S n', String c b' => String c (str_take n' b')
  | _, _ => ""
  end.
Fixpoint str_drop (n : nat) (b : string) : string :=
  match n, b with
  | 0%nat, _ => b
  | S n', String _ b' => str_drop n' b'
  | S _, EmptyString => ""
  end.

(** ** Variable-length integers *)

(** The bytes that [AppendVarint] appends; after nine of them one bit is left. *)
Fixpoint AppendVarint_from (n : nat) (v : Z) : string :=
  match n with
  | 0%nat => String (byte_of v) ""
  | S n' =>
      if v <? 128 then String (byte_of v) ""
      else String (byte_of (Z.lor (Z.land v 127) 128)) (AppendVarint_from n' (Z.shiftr v 7))
  end.
Definition AppendVarint (v : Z) : string := AppendVarint_from 9 v.

(** [v] is what the first [i] bytes give. *)
Fixpoint ConsumeVarint_from (i : nat) (v : Z) (b : string) : result wire_error (Z * string) :=
  match b with
  | EmptyString => Err ErrTruncated
  | String c b' =>
      let y := of_byte c in
      if (i =? 9)%nat then
        if y <? 2 then Ok (v + Z.shiftl y 63, b') else Err ErrOverflow
      else if y <? 128 then Ok (v + Z.shiftl y (7 * Z.of_nat i), b')
      else ConsumeVarint_from (S i) (v + Z.shiftl (y - 128) (7 * Z.of_nat i)) b'
  end.
Definition ConsumeVarint (b : string) : result wire_error (Z * string) := ConsumeVarint_from 0 0 b.

(** ** Records *)

Definition VarintType : Z := 0.
Definition Fixed64Type : Z := 1.
Definition BytesType : Z := 2.
Definition StartGroupType : Z := 3.
Definition EndGroupType : Z := 4.
Definition Fixed32Type : Z := 5.

Definition EncodeTag (num typ : Z) : Z := Z.lor (Z.shiftl num 3) (Z.land typ 7).
Definition DecodeTag (x : Z) : Z * Z :=
  if 2147483647 <? Z.shiftr x 3 then (-1, 0) else (Z.shiftr x 3, Z.land x 7).

Definition AppendTag (num typ : Z) : string := AppendVarint (EncodeTag num typ).
Definition ConsumeTag (b : string) : result wire_error (Z * Z * string) :=
  '(v, b') ← ConsumeVarint b;
  let '(num, typ) := DecodeTag v in
  if num <? MinValidNumber then Err ErrFieldNumber else Ok (num, typ, b').

Definition AppendBytes (v : string) : string := AppendVarint (len v) +:+ v.
Definition ConsumeBytes (b : string) : result wire_error (string * string) :=
  '(m, b') ← ConsumeVarint b;
  if len b' <? m then Err ErrTruncated
  else Ok (str_take (Z.to_nat m) b', str_drop (Z.to_nat m) b').

(** [ConsumeFixed32] and [ConsumeFixed64], of which only the length is used. *)
Definition ConsumeFixed (n : nat) (b : string) : result wire_error string :=
  if len b <? Z.of_nat n then Err ErrTruncated else Ok (str_drop n b).

(** The value of a record; the driver protocol has no fields of the last three kinds. *)
Inductive wire_content : Type :=
| WVarint (v : Z)
| WBytes (b : string)
| WFixed32
| WFixed64
| WGroup.
(** A value, and the bytes that keep the record in [unknownFields]. *)
Record wire_value : Type := Wire { w_content : wire_content; w_raw : string }.

(** [consumeFieldValueD] for the types without nesting. *)
Definition consume_scalar (typ : Z) (b : string) : result wire_error (wire_content * string) :=
  if typ =? VarintType then '(v, b') ← ConsumeVarint b; Ok (WVarint v, b')
  else if typ =? Fixed32Type then b' ← ConsumeFixed 4 b; Ok (WFixed32, b')
  else if typ =? Fixed64Type then b' ← ConsumeFixed 8 b; Ok (WFixed64, b')
  else if typ =? BytesType then '(v, b') ← ConsumeBytes b; Ok (WBytes v, b')
  else if typ =? EndGroupType then Err ErrEndGroup
  else Err ErrReserved.

(** [consumeFieldValueD] inside groups: [open] holds the numbers of the groups that are open, the
    innermost first. Each round takes at least the byte of a tag. *)
Fixpoint consume_group (fuel : nat) (open : list Z) (b : string) : result wire_error string :=
  match fuel with
  | 0%nat => Err OutOfFuel
  | S fuel' =>
      '(num2, typ2, b') ← ConsumeTag b;
      if typ2 =? EndGroupType then
        match open with
        | num :: ((_ :: _) as outer) =>
            if num =? num2 then consume_group fuel' outer b' else Err ErrEndGroup
        | num :: [] => if num =? num2 then Ok b' else Err ErrEndGroup
        | [] => Err ErrEndGroup
        end
      else if typ2 =? StartGroupType then
        if DefaultRecursionLimit - Z.of_nat (length open) <? 0 then Err ErrRecursionDepth
        else consume_group fuel' (num2 :: open) b'
      else
        '(_, b'') ← consume_scalar typ2 b';
        consume_group fuel' open b''
  end.

Definition ConsumeFieldValue (num typ : Z) (b : string) : result wire_error (wire_content * string) :=
  if typ =? StartGroupType then
    b' ← consume_group (S (String.length b)) [num] b; Ok (WGroup, b')
  else consume_scalar typ b.

(** The loop of [unmarshalPointerEager] over the input. *)
Fixpoint parse_records_from (fuel : nat) (b : string) : result wire_error (list (Z * wire_value)) :=
  match b with
  | EmptyString => Ok []
  | String _ _ =>
      match fuel with
      | 0%nat => Err OutOfFuel
      | S fuel' =>
          '(tag, b') ← ConsumeVarint b;
          let num := Z.shiftr tag 3 in
          let wtyp := Z.land tag 7 in
          if (num <? MinValidNumber) || (MaxValidNumber <? num) then Err ErrFieldNumber
          else
            '(v, b'') ← ConsumeFieldValue num wtyp b';
            let n := (String.length b' - String.length b'')%nat in
            rest ← parse_records_from fuel' b'';
            Ok ((num, Wire v (AppendTag num wtyp +:+ str_take n b')) :: rest)
      end
  end.
Definition parse_records (b : string) : result wire_error (list (Z * wire_value)) :=
  parse_records_from (String.length b) b.

(** ** Marshalling *)

(** [appendStringNoZeroValidateUTF8], without the test for the empty string. *)
Definition append_string (num : Z) (s : string) : result wire_error string :=
  if utf8_ValidString s then Ok (AppendTag num BytesType +:+ AppendBytes s) else Err ErrInvalidUTF8.

(** [appendMapItem]: key and value are written also when they are empty. *)
Definition append_entry (num : Z) (kv : string * string) : result wire_error string :=
  key ← append_string 1 kv.1;
  value ← append_string 2 kv.2;
  Ok (AppendTag num BytesType +:+ AppendBytes (key +:+ value)).

(** One function on all elements, one after the other. *)
Definition append_all {A} (f : A → result wire_error string) : list A → result wire_error string :=
  fix go l :=
    match l with
    | [] => Ok ""
    | x :: l' => b ← f x; b' ← go l'; Ok (b +:+ b')
    end.

Section marshal.
Context (order : list string).

(** The [marshal] function of a field, by its kind: a field that is not populated is not
    written. *)
Fixpoint append_field (k : kind) (num : Z) : val k → result wire_error string :=
  let append_fields :=
    fix go (fs : fields) : tup fs → result wire_error string :=
      match fs with
      | [] => Ok
      | (f, k) :: fs' => λ t, b ← append_field k (fd_Number f) t.1; b' ← go fs' t.2; Ok (b +:+ b')
      end in
  let append_message fs t :=
    b ← append_fields fs t; Ok (AppendTag num BytesType +:+ AppendBytes b) in
  match k with
  | KString => λ s, if s =s "" then Ok "" else append_string num s
  | KEnum _ => λ z, if z =? 0 then Ok "" else Ok (AppendTag num VarintType +:+ AppendVarint (z mod 2 ^ 64))
  | KMessage fs => λ m, match m with None => Ok "" | Some t => append_message fs t end
  | KRepeated fs => λ l, append_all (append_message fs) l
  | KMap => λ m, append_all (append_entry num) (map_order order m)
  end.

(** [marshalAppendPointer]: the fields in the order of their numbers, then the unknown ones. *)
Fixpoint marshalAppendPointer (fs : fields) : tup fs → result wire_error string :=
  match fs with
  | [] => Ok
  | (f, k) :: fs' => λ t,
      b ← append_field k (fd_Number f) t.1; b' ← marshalAppendPointer fs' t.2; Ok (b +:+ b')
  end.

(** [appendMessageInfo]: a message inside a message. *)
Definition append_message (num : Z) (fs : fields) (t : tup fs) : result wire_error string :=
  b ← marshalAppendPointer fs t; Ok (AppendTag num BytesType +:+ AppendBytes b).
End marshal.

(** ** Unmarshalling *)

(** [int32(v)]. *)
Definition to_int32 (v : Z) : Z := (v + 2 ^ 31) mod 2 ^ 32 - 2 ^ 31.

(** [consumeStringValidateUTF8]; [None] is [errUnknown], for a record of another type. *)
Definition consume_string (v : wire_value) : result wire_error (option string) :=
  match w_content v with
  | WBytes s => if utf8_ValidString s then Ok (Some s) else Err ErrInvalidUTF8
  | _ => Ok None
  end.

(** The loop of [consumeMap] over the records of an entry. *)
Fixpoint consume_entry (rs : list (Z * wire_value)) (kv : string * string) :
    result wire_error (string * string) :=
  match rs with
  | [] => Ok kv
  | (num, v) :: rs' =>
      if num =? 1 then s ← consume_string v; consume_entry rs' (default kv.1 s, kv.2)
      else if num =? 2 then s ← consume_string v; consume_entry rs' (kv.1, default kv.2 s)
      else consume_entry rs' kv
  end.

(** The records of a message, one after the other, with the function for one. *)
Definition set_records {T} (set : Z → wire_value → T → result wire_error T) :
    list (Z * wire_value) → T → result wire_error T :=
  fix go rs t :=
    match rs with
    | [] => Ok t
    | (num, v) :: rs' => t' ← set num v t; go rs' t'
    end.

(** The [unmarshal] function of a field, by its kind, with the value so far: a string or a number
    is replaced, a message is filled further, a list is extended and an entry of a map is set.
    [None] is [errUnknown], for a record of another type; [set] keeps such a record, and one with
    a number that no field has, with the unknown fields. *)
Fixpoint consume_field (limit : Z) (k : kind) (v : wire_value) : val k → result wire_error (option (val k)) :=
  let set limit :=
    fix set (fs : fields) (num : Z) (v : wire_value) : tup fs → result wire_error (tup fs) :=
      match fs with
      | [] => λ u, Ok (u +:+ w_raw v)
      | (f, k) :: fs' => λ t,
          if num =? fd_Number f then
            x ← consume_field limit k v t.1;
            Ok match x with Some x => (x, t.2) | None => (t.1, append_unknown fs' (w_raw v) t.2) end
          else t' ← set fs' num v t.2; Ok (t.1, t')
      end in
  let unmarshal (fs : fields) (b : string) (t : tup fs) : result wire_error (tup fs) :=
    if limit - 1 <? 0 then Err ErrRecursionDepth
    else rs ← parse_records b; set_records (set (limit - 1) fs) rs t in
  match k return val k → result wire_error (option (val k)) with
  | KString => λ _, consume_string v
  | KEnum _ => λ _, match w_content v with WVarint n => Ok (Some (to_int32 n)) | _ => Ok None end
  | KMessage fs => λ old,
      match w_content v with
      | WBytes b => t ← unmarshal fs b (default (zero_tup fs) old); Ok (Some (Some t))
      | _ => Ok None
      end
  | KRepeated fs => λ old,
      match w_content v with
      | WBytes b => t ← unmarshal fs b (zero_tup fs); Ok (Some (old ++ [t]))
      | _ => Ok None
      end
  | KMap => λ old,
      match w_content v with
      | WBytes b =>
          rs ← parse_records b; kv ← consume_entry rs (EmptyString, EmptyString); Ok (Some (<[kv.1 := kv.2]> old))
      | _ => Ok None
      end
  end.

(** The functions for messages, which [consume_field] has inside. *)
Definition set_field (limit : Z) :
    ∀ (fs : fields) (num : Z) (v : wire_value), tup fs → result wire_error (tup fs) :=
  fix set (fs : fields) (num : Z) (v : wire_value) : tup fs → result wire_error (tup fs) :=
  match fs with
  | [] => λ u, Ok (u +:+ w_raw v)
  | (f, k) :: fs' => λ t,
      if num =? fd_Number f then
        x ← consume_field limit k v t.1;
        Ok match x with Some x => (x, t.2) | None => (t.1, append_unknown fs' (w_raw v) t.2) end
      else t' ← set fs' num v t.2; Ok (t.1, t')
  end.
Definition unmarshalPointer (limit : Z) (fs : fields) (b : string) (t : tup fs) : result wire_error (tup fs) :=
  if limit - 1 <? 0 then Err ErrRecursionDepth
  else rs ← parse_records b; set_records (set_field (limit - 1) fs) rs t.

Lemma consume_field_message limit fs b raw old :
  consume_field limit (KMessage fs) (Wire (WBytes b) raw) old =
    (t ← unmarshalPointer limit fs b (default (zero_tup fs) old); Ok (Some (Some t))).
Proof. reflexivity. Qed.
Lemma consume_field_repeated limit fs b raw old :
  consume_field limit (KRepeated fs) (Wire (WBytes b) raw) old =
    (t ← unmarshalPointer limit fs b (zero_tup fs); Ok (Some (old ++ [t]))).
Proof. reflexivity. Qed.
Lemma append_field_message order num fs m :
  append_field order (KMessage fs) num m =
    match m with None => Ok "" | Some t => append_message order num fs t end.
Proof. reflexivity. Qed.
Lemma append_field_repeated order num fs l :
  append_field order (KRepeated fs) num l = append_all (append_message order num fs) l.
Proof. reflexivity. Qed.

(** ** Lemmas on bytes *)

Lemma len_app a b : len (a +:+ b) = len a + len b.
Proof. unfold len. rewrite str_length_app. lia. Qed.
Lemma len_nonneg b : 0 ≤ len b.
Proof. unfold len. lia. Qed.

Lemma str_take_app a b : str_take (String.length a) (a +:+ b) = a.
Proof. induction a as [|c a IH]; [by destruct b|]. rewrite str_app_cons. cbn. by rewrite IH. Qed.
Lemma str_drop_app a b : str_drop (String.length a) (a +:+ b) = b.
Proof. induction a as [|c a IH]; [by destruct b|]. rewrite str_app_cons. cbn. by rewrite IH. Qed.
Lemma length_str_drop n b : (String.length (str_drop n b) = String.length b - n)%nat.
Proof. revert n. induction b as [|c b IH]; intros [|n]; cbn; try lia. apply IH. Qed.

Lemma of_byte_range c : 0 ≤ of_byte c < 256.
Proof. unfold of_byte. pose proof (N_ascii_bounded c). lia. Qed.
Lemma of_byte_of z : 0 ≤ z < 256 → of_byte (byte_of z) = z.
Proof. intros. unfold of_byte, byte_of. rewrite N_ascii_embedding by lia. lia. Qed.

Lemma low_bits v : Z.lor (Z.land v 127) 128 = v mod 128 + 128.
Proof.
  change 127 with (Z.ones 7). rewrite Z.land_ones by lia. change (2 ^ 7) with 128.
  rewrite <-Z.add_lor_land. cut (Z.land (v mod 128) 128 = 0); [lia|].
  apply Z.bits_inj'. intros n Hn. rewrite Z.land_spec, Z.bits_0.
  change 128 with (2 ^ 7). rewrite Z.pow2_bits_eqb by lia. destruct (Z.eqb_spec 7 n) as [<-|].
  - rewrite Z.mod_pow2_bits_high by lia. done.
  - apply andb_false_r.
Qed.

(** ** Variable-length integers *)

Lemma varint_from n i v acc rest :
  (i + n = 9)%nat → 0 ≤ v < 2 ^ (64 - 7 * Z.of_nat i) →
  ConsumeVarint_from i acc (AppendVarint_from n v +:+ rest) = Ok (acc + Z.shiftl v (7 * Z.of_nat i), rest).
Proof.
  revert i v acc. induction n as [|n IH]; intros i v acc Hi Hv.
  - replace i with 9%nat in * by lia. change (64 - 7 * Z.of_nat 9) with 1 in Hv.
    cbn [AppendVarint_from]. rewrite str_app_cons. cbn [ConsumeVarint_from].
    rewrite of_byte_of by lia. change (9 =? 9)%nat with true. cbv zeta.
    destruct (Z.ltb_spec v 2); [done|lia].
  - cbn [AppendVarint_from]. assert ((i =? 9)%nat = false) as Hi9 by (apply Nat.eqb_neq; lia).
    destruct (Z.ltb_spec v 128); rewrite str_app_cons; cbn [ConsumeVarint_from].
    + rewrite Hi9, of_byte_of by lia. cbv zeta. destruct (Z.ltb_spec v 128); [done|lia].
    + cbv zeta.
      pose proof (Z.mod_pos_bound v 128 ltac:(lia)) as Hm.
      rewrite Hi9, low_bits, of_byte_of by lia. destruct (Z.ltb_spec (v mod 128 + 128) 128); [lia|].
      rewrite Z.shiftr_div_pow2 by lia. change (2 ^ 7) with 128. rewrite IH; [|lia|].
      * f_equal. f_equal. rewrite !Z.shiftl_mul_pow2 by lia.
        replace (7 * Z.of_nat (S i)) with (7 + 7 * Z.of_nat i) by lia. rewrite Z.pow_add_r by lia.
        change (2 ^ 7) with 128. rewrite (Z.div_mod v 128) at 3 by lia. ring.
      * split; [apply Z.div_pos; lia|]. apply Z.div_lt_upper_bound; [lia|].
        change 128 with (2 ^ 7). rewrite <-Z.pow_add_r by lia.
        replace (7 + (64 - 7 * Z.of_nat (S i))) with (64 - 7 * Z.of_nat i) by lia. lia.
Qed.

Lemma ConsumeVarint_Append v rest :
  0 ≤ v < 2 ^ 64 → ConsumeVarint (AppendVarint v +:+ rest) = Ok (v, rest).
Proof.
  intros Hv. unfold ConsumeVarint, AppendVarint. rewrite varint_from by (cbn; lia).
  by rewrite Z.shiftl_0_r.
Qed.

Example varint_examples :
  AppendVarint 300 = String (byte_of 172) (String (byte_of 2) "") ∧
  String.length (AppendVarint (2 ^ 64 - 1)) = 10%nat ∧
  ConsumeVarint (String (byte_of 128) "") = Err ErrTruncated.
Proof. by vm_compute. Qed.

Lemma ConsumeVarint_from_shorter i acc b v b' :
  ConsumeVarint_from i acc b = Ok (v, b') → (String.length b' < String.length b)%nat.
Proof.
  revert i acc. induction b as [|c b IH]; intros i acc; cbn -[Z.shiftl Nat.eqb]; [done|].
  repeat case_match; intros H1; simplify_eq; try lia. apply IH in H1. lia.
Qed.
Lemma ConsumeVarint_shorter b v b' : ConsumeVarint b = Ok (v, b') → (String.length b' < String.length b)%nat.
Proof. apply ConsumeVarint_from_shorter. Qed.

Lemma ConsumeBytes_Append s rest :
  len s < 2 ^ 64 → ConsumeBytes (AppendBytes s +:+ rest) = Ok (s, rest).
Proof.
  intros Hs. pose proof (len_nonneg s). pose proof (len_nonneg rest).
  unfold ConsumeBytes, AppendBytes. rewrite <-str_app_assoc, ConsumeVarint_Append by lia.
  cbn -[str_take str_drop]. rewrite len_app. destruct (Z.ltb_spec (len s + len rest) (len s)); [lia|].
  unfold len. by rewrite Nat2Z.id, str_take_app, str_drop_app.
Qed.

(** ** The fuel of the two loops is enough *)

Lemma ConsumeBytes_shorter b v b' : ConsumeBytes b = Ok (v, b') → (String.length b' < String.length b)%nat.
Proof.
  unfold ConsumeBytes. rewrite result_bind_Ok. intros ([m b1] & H1%ConsumeVarint_shorter & H2).
  case_match; [done|]. injection H2 as <- <-. rewrite length_str_drop. lia.
Qed.
Lemma ConsumeFixed_shorter n b b' :
  (0 < n)%nat → ConsumeFixed n b = Ok b' → (String.length b' < String.length b)%nat.
Proof.
  intros Hn. unfold ConsumeFixed, len. destruct (Z.ltb_spec (Z.of_nat (String.length b)) (Z.of_nat n)); [done|].
  intros [= <-]. rewrite length_str_drop. lia.
Qed.
Lemma ConsumeTag_shorter b num typ b' : ConsumeTag b = Ok (num, typ, b') → (String.length b' < String.length b)%nat.
Proof.
  unfold ConsumeTag. rewrite result_bind_Ok. intros ([v b1] & H1%ConsumeVarint_shorter & H2).
  destruct (DecodeTag v). case_match; [done|]. by injection H2 as <- <- <-.
Qed.
Lemma consume_scalar_shorter typ b v b' :
  consume_scalar typ b = Ok (v, b') → (String.length b' < String.length b)%nat.
Proof.
  unfold consume_scalar. repeat case_match; try done; rewrite result_bind_Ok.
  - intros ([] & ?%ConsumeVarint_shorter & [= <- <-]). done.
  - intros (? & ?%ConsumeFixed_shorter & [= <- <-]); lia.
  - intros (? & ?%ConsumeFixed_shorter & [= <- <-]); lia.
  - intros ([] & ?%ConsumeBytes_shorter & [= <- <-]). done.
Qed.
Lemma consume_group_shorter fuel opened b b' :
  consume_group fuel opened b = Ok b' → (String.length b' < String.length b)%nat.
Proof.
  revert opened b. induction fuel as [|fuel IH]; intros opened b; cbn [consume_group]; [done|].
  rewrite result_bind_Ok. intros ([[num2 typ2] b1] & H1%ConsumeTag_shorter & H2).
  repeat case_match; simplify_eq; try done; try (apply IH in H2; lia).
  apply result_bind_Ok in H2 as ([v b2] & H3%consume_scalar_shorter & H4%IH). lia.
Qed.
Lemma ConsumeFieldValue_shorter num typ b v b' :
  ConsumeFieldValue num typ b = Ok (v, b') → (String.length b' < String.length b)%nat.
Proof.
  unfold ConsumeFieldValue. case_match; [|apply consume_scalar_shorter].
  rewrite result_bind_Ok. intros (b1 & ?%consume_group_shorter & [= <- <-]). done.
Qed.

(** No reader of one value runs out of fuel: only the two loops have any. *)
Lemma result_bind_Err {E A B} (f : A → result E B) r e :
  r ≫= f = Err e ↔ r = Err e ∨ ∃ a, r = Ok a ∧ f a = Err e.
Proof. destruct r as [a|e']; cbn; naive_solver. Qed.

Lemma ConsumeVarint_fueled b : ConsumeVarint b ≠ Err OutOfFuel.
Proof.
  unfold ConsumeVarint. generalize 0%nat, 0. induction b as [|c b IH]; intros i acc; [done|].
  cbn [ConsumeVarint_from]. cbv zeta. repeat case_match; (done || apply IH).
Qed.
Lemma ConsumeTag_fueled b : ConsumeTag b ≠ Err OutOfFuel.
Proof.
  unfold ConsumeTag. rewrite result_bind_Err. intros [H|([v b'] & _ & H)].
  - by apply ConsumeVarint_fueled in H.
  - destruct (DecodeTag v). by case_match.
Qed.
Lemma consume_scalar_fueled typ b : consume_scalar typ b ≠ Err OutOfFuel.
Proof.
  unfold consume_scalar, ConsumeFixed, ConsumeBytes. intros H.
  repeat case_match; try done;
    repeat match goal with
    | H : _ ≫= _ = Err _ |- _ => apply result_bind_Err in H as [H|(? & ? & H)]
    | H : ConsumeVarint _ = Err OutOfFuel |- _ => by apply ConsumeVarint_fueled in H
    | H : (if ?b then _ else _) = _ |- _ => destruct b
    | x : (_ * _)%type |- _ => destruct x
    end; done.
Qed.
Lemma consume_group_fueled fuel opened b :
  (String.length b < fuel)%nat → consume_group fuel opened b ≠ Err OutOfFuel.
Proof.
  revert opened b. induction fuel as [|fuel IH]; intros opened b Hf; [lia|]. cbn [consume_group].
  rewrite result_bind_Err. intros [H|([[num2 typ2] b1] & H1%ConsumeTag_shorter & H)];
    [by apply ConsumeTag_fueled in H|].
  repeat case_match; try done; try (revert H; apply IH; lia).
  apply result_bind_Err in H as [H|([v b2] & Hs%consume_scalar_shorter & H)];
    [by apply consume_scalar_fueled in H|revert H; apply IH; lia].
Qed.
Lemma ConsumeFieldValue_fueled num typ b : ConsumeFieldValue num typ b ≠ Err OutOfFuel.
Proof.
  unfold ConsumeFieldValue. case_match; [|apply consume_scalar_fueled].
  rewrite result_bind_Err. intros [Hg|(? & _ & Hg)]; [|done]. revert Hg. apply consume_group_fueled. lia.
Qed.

(** [parse_records] never runs out of fuel, and more fuel gives the same. *)
Lemma parse_records_fueled b : parse_records b ≠ Err OutOfFuel.
Proof.
  unfold parse_records. assert (String.length b ≤ String.length b)%nat as Hle by lia. revert Hle.
  generalize (String.length b) at 2 3 as fuel. intros fuel. revert b.
  induction fuel as [|fuel IH]; intros [|c b] Hf; try done; [cbn in Hf; lia|].
  cbn [parse_records_from]. rewrite result_bind_Err.
  intros [H|([tag b1] & H1%ConsumeVarint_shorter & H)]; [by apply ConsumeVarint_fueled in H|].
  case_match; [done|].
  apply result_bind_Err in H as [H|([v b2] & H2%ConsumeFieldValue_shorter & H)];
    [by apply ConsumeFieldValue_fueled in H|].
  apply result_bind_Err in H as [H|(? & _ & H)]; [|done]. revert H. apply IH. lia.
Qed.

Lemma parse_records_more fuel b :
  (String.length b ≤ fuel)%nat → parse_records_from fuel b = parse_records b.
Proof.
  unfold parse_records. cut (∀ n m, (String.length b ≤ n)%nat → (String.length b ≤ m)%nat →
    parse_records_from n b = parse_records_from m b); [intros H Hf; apply H; lia|].
  intros n. revert b. induction n as [|n IH]; intros [|c b] [|m] Hn Hm; try done; try (cbn in Hn, Hm; lia).
  cbn [parse_records_from]. destruct (ConsumeVarint (String c b)) as [[tag b1]|] eqn:E1; [|done].
  apply ConsumeVarint_shorter in E1. cbn -[parse_records_from ConsumeFieldValue].
  case_match; [done|]. destruct (ConsumeFieldValue _ _ b1) as [[v b2]|] eqn:E2; [|done].
  apply ConsumeFieldValue_shorter in E2. cbn -[parse_records_from]. by rewrite (IH b2 m) by lia.
Qed.

(** ** Numbers of fields *)

Lemma kind_numbered_message fs : kind_numbered (KMessage fs) = fields_numbered 0 fs.
Proof. reflexivity. Qed.
Lemma kind_numbered_repeated fs : kind_numbered (KRepeated fs) = fields_numbered 0 fs.
Proof. reflexivity. Qed.

Definition number_valid (num : Z) : Prop := MinValidNumber ≤ num ≤ MaxValidNumber.

(** ** Records that are written are read *)

(** The bytes [b] are the records [rs], whatever follows them. *)
Definition encodes (b : string) (rs : list (Z * wire_value)) : Prop :=
  ∀ rest, parse_records (b +:+ rest) = (rs' ← parse_records rest; Ok (rs ++ rs')).

Lemma encodes_nil : encodes "" [].
Proof. intros rest. rewrite str_nil_app. by destruct (parse_records rest). Qed.
Lemma encodes_app b1 rs1 b2 rs2 : encodes b1 rs1 → encodes b2 rs2 → encodes (b1 +:+ b2) (rs1 ++ rs2).
Proof.
  intros H1 H2 rest. rewrite <-str_app_assoc, H1, H2. destruct (parse_records rest); cbn; [|done].
  by rewrite <-app_assoc.
Qed.
Lemma encodes_parse b rs : encodes b rs → parse_records b = Ok rs.
Proof. intros H. rewrite <-(str_app_nil b), H. cbn. by rewrite app_nil_r. Qed.

Lemma EncodeTag_parts num typ :
  0 ≤ typ < 8 → Z.shiftr (EncodeTag num typ) 3 = num ∧ Z.land (EncodeTag num typ) 7 = typ.
Proof.
  intros Ht. unfold EncodeTag. change 7 with (Z.ones 3). rewrite Z.land_ones by lia.
  rewrite Z.mod_small by lia. split.
  - rewrite Z.shiftr_lor, Z.shiftr_shiftl_l by lia. rewrite (Z.shiftr_div_pow2 typ) by lia.
    rewrite Z.div_small by lia. by rewrite Z.lor_0_r, Z.shiftl_0_r.
  - rewrite Z.land_lor_distr_l, !Z.land_ones by lia. rewrite Z.shiftl_mul_pow2 by lia.
    rewrite Z.mod_mul by lia. rewrite Z.lor_0_l. apply Z.mod_small. lia.
Qed.
Lemma EncodeTag_range num typ : number_valid num → 0 ≤ typ < 8 → 0 ≤ EncodeTag num typ < 2 ^ 64.
Proof.
  intros [Hn1 Hn2] Ht. destruct (EncodeTag_parts num typ Ht) as [Hs _].
  unfold MinValidNumber, MaxValidNumber in *.
  assert (0 ≤ EncodeTag num typ) as H0.
  { unfold EncodeTag. apply Z.lor_nonneg. split; [apply Z.shiftl_nonneg; lia|apply Z.land_nonneg; lia]. }
  split; [done|]. rewrite Z.shiftr_div_pow2 in Hs by lia.
  pose proof (Z.div_mod (EncodeTag num typ) (2 ^ 3) ltac:(lia)).
  pose proof (Z.mod_pos_bound (EncodeTag num typ) (2 ^ 3) ltac:(lia)). lia.
Qed.

(** One record, with the bytes of a value. *)
Lemma encodes_value num typ bytes v :
  number_valid num → 0 ≤ typ < 8 →
  (∀ rest, ConsumeFieldValue num typ (bytes +:+ rest) = Ok (v, rest)) →
  encodes (AppendTag num typ +:+ bytes) [(num, Wire v (AppendTag num typ +:+ bytes))].
Proof.
  intros Hn Ht Hv rest. rewrite <-str_app_assoc.
  destruct (EncodeTag_parts num typ Ht) as [Hs Hl].
  assert (parse_records (AppendTag num typ +:+ (bytes +:+ rest)) =
    parse_records_from (S (String.length (bytes +:+ rest) + String.length (AppendTag num typ)))
      (AppendTag num typ +:+ (bytes +:+ rest))) as ->.
  { symmetry. apply parse_records_more. rewrite str_length_app. lia. }
  pose proof (ConsumeVarint_Append (EncodeTag num typ) (bytes +:+ rest) (EncodeTag_range num typ Hn Ht)) as Htag.
  fold (AppendTag num typ) in Htag. pose proof (ConsumeVarint_shorter _ _ _ Htag) as Hlen.
  destruct (AppendTag num typ +:+ (bytes +:+ rest)) as [|c s] eqn:E; [cbn in Hlen; lia|].
  cbn [parse_records_from]. rewrite Htag. cbn [mbind result_bind]. rewrite Hs, Hl.
  destruct Hn as [Hn1 Hn2]. destruct (Z.ltb_spec num MinValidNumber); [lia|].
  destruct (Z.ltb_spec MaxValidNumber num); [lia|]. cbn [orb]. rewrite Hv. cbn [mbind result_bind].
  rewrite str_length_app, Nat.add_sub, str_take_app.
  rewrite parse_records_more; [done|]. lia.
Qed.

Lemma encodes_varint num v :
  number_valid num → 0 ≤ v < 2 ^ 64 → 
  encodes (AppendTag num VarintType +:+ AppendVarint v)
    [(num, Wire (WVarint v) (AppendTag num VarintType +:+ AppendVarint v))].
Proof.
  intros Hn Hv. apply encodes_value; [done|by unfold VarintType|]. intros rest.
  unfold ConsumeFieldValue, consume_scalar. cbn [Z.eqb VarintType StartGroupType].
  by rewrite ConsumeVarint_Append.
Qed.
Lemma encodes_bytes num s :
  number_valid num → len s < 2 ^ 64 → 
  encodes (AppendTag num BytesType +:+ AppendBytes s)
    [(num, Wire (WBytes s) (AppendTag num BytesType +:+ AppendBytes s))].
Proof.
  intros Hn Hs. apply encodes_value; [done|by unfold BytesType|]. intros rest.
  unfold ConsumeFieldValue, consume_scalar. cbn. by rewrite ConsumeBytes_Append.
Qed.

Lemma len_AppendBytes pre s : len s ≤ len (pre +:+ AppendBytes s).
Proof.
  unfold AppendBytes. rewrite !len_app. pose proof (len_nonneg pre).
  pose proof (len_nonneg (AppendVarint (len s))). lia.
Qed.

(** ** Round trip *)

Lemma set_records_app {T} (set : Z → wire_value → T → result wire_error T) rs1 rs2 t :
  set_records set (rs1 ++ rs2) t = (t' ← set_records set rs1 t; set_records set rs2 t').
Proof.
  revert t. induction rs1 as [|[num v] rs1 IH]; intros t; [done|].
  change (set_records set (((num, v) :: rs1) ++ rs2) t) with (t' ← set num v t; set_records set (rs1 ++ rs2) t').
  change (set_records set ((num, v) :: rs1) t) with (t' ← set num v t; set_records set rs1 t').
  destruct (set num v t) as [t'|]; cbn -[set_records]; [apply IH|done].
Qed.

(** The records of the first field change the first field only, and those of other fields the
    others only. *)
Definition consume_some (limit : Z) (k : kind) (w : wire_value) (old : val k) : result wire_error (val k) :=
  match consume_field limit k w old with Ok (Some x) => Ok x | Ok None => Err ErrTruncated | Err e => Err e end.

Lemma set_records_here limit f k fs rs v t v' :
  Forall (λ r, r.1 = fd_Number f) rs →
  set_records (λ _, consume_some limit k) rs v = Ok v' →
  set_records (set_field limit ((f, k) :: fs)) rs (v, t) = Ok (v', t).
Proof.
  intros Hrs. revert v. induction Hrs as [|[num w] rs Hn Hrs IH]; intros v; [by intros [= ->]|].
  cbn in Hn. subst num. cbn -[consume_field consume_some]. rewrite Z.eqb_refl.
  change (consume_some limit k w v) with
    (match consume_field limit k w v with Ok (Some x) => Ok x | Ok None => Err ErrTruncated | Err e => Err e end).
  destruct (consume_field limit k w v) as [[v1|]|]; cbn -[consume_field consume_some]; [|done..]. apply IH.
Qed.
Lemma set_records_there limit f k fs rs v t t' :
  Forall (λ r, r.1 ≠ fd_Number f) rs →
  set_records (set_field limit fs) rs t = Ok t' →
  set_records (set_field limit ((f, k) :: fs)) rs (v, t) = Ok (v, t').
Proof.
  intros Hrs. revert t. induction Hrs as [|[num w] rs Hn Hrs IH]; intros t; [by intros [= ->]|].
  cbn in Hn. cbn -[consume_field]. destruct (Z.eqb_spec num (fd_Number f)); [done|].
  fold (set_field limit fs num w t). destruct (set_field limit fs num w t) as [t1|]; cbn -[consume_field]; [|done].
  apply IH.
Qed.

Lemma int32_varint z : int32 z = true → to_int32 (z mod 2 ^ 64) = z.
Proof.
  unfold int32, to_int32. intros [H1%Z.leb_le H2%Z.leb_le]%andb_true_iff.
  rewrite <-Z.add_mod_idemp_l by lia.
  replace ((z mod 2 ^ 64) mod 2 ^ 32) with (z mod 2 ^ 32).
  - rewrite Z.add_mod_idemp_l by lia. rewrite Z.mod_small; lia.
  - rewrite Z.mod_mod_divide; [done|]. by exists (2 ^ 32).
Qed.

Lemma append_string_Ok num s b :
  append_string num s = Ok b ↔ utf8_ValidString s = true ∧ b = AppendTag num BytesType +:+ AppendBytes s.
Proof. unfold append_string. case_match; naive_solver. Qed.

Section roundtrip.
Context (order : list string).

(** The records [rs] of the bytes [b] of a field turn the value [old] into [new]. *)
Definition field_read (limit : Z) (k : kind) (num : Z) (b : string) (old new : val k) : Prop :=
  ∃ rs, encodes b rs ∧ Forall (λ r, r.1 = num) rs ∧
    set_records (λ _, consume_some limit k) rs old = Ok new.

Definition value_read (k : kind) : Prop :=
  ∀ limit num v b, kind_numbered k = true → in_range k v → depth k ≤ limit → number_valid num →
    append_field order k num v = Ok b → len b < 2 ^ 63 → field_read limit k num b (zero_val k) v.

Definition fields_read (fs : fields) : Prop :=
  ∀ limit last t b, 0 ≤ last → fields_numbered last fs = true → fields_range fs t → fields_depth fs ≤ limit →
    marshalAppendPointer order fs t = Ok b → len b < 2 ^ 63 →
    ∃ rs, encodes b rs ∧ Forall (λ r, last < r.1) rs ∧
      set_records (set_field limit fs) rs (zero_tup fs) = Ok t.

Lemma field_read_none limit k num v : field_read limit k num "" v v.
Proof. exists []. split; [apply encodes_nil|]. split; [by apply Forall_nil|done]. Qed.
Lemma field_read_one limit k num bytes w old new :
  encodes bytes [(num, w)] → consume_field limit k w old = Ok (Some new) → field_read limit k num bytes old new.
Proof.
  intros He Hc. exists [(num, w)]. split; [done|]. split; [by apply Forall_singleton|].
  cbn -[consume_field]. unfold consume_some. by rewrite Hc.
Qed.
Lemma field_read_app limit k num b1 b2 v1 v2 v3 :
  field_read limit k num b1 v1 v2 → field_read limit k num b2 v2 v3 → field_read limit k num (b1 +:+ b2) v1 v3.
Proof.
  intros (rs1 & He1 & Hn1 & Hs1) (rs2 & He2 & Hn2 & Hs2). exists (rs1 ++ rs2).
  split; [by apply encodes_app|]. split; [by apply Forall_app|]. by rewrite set_records_app, Hs1.
Qed.

(** A message inside a message. *)
Lemma message_read fs limit num t b :
  fields_read fs → fields_numbered 0 fs = true → fields_range fs t → 1 + fields_depth fs ≤ limit →
  number_valid num → append_message order num fs t = Ok b → len b < 2 ^ 63 →
  ∃ s raw, encodes b [(num, Wire (WBytes s) raw)] ∧ unmarshalPointer limit fs s (zero_tup fs) = Ok t.
Proof.
  intros Hfs Hn Hr Hd Hnum. unfold append_message. rewrite result_bind_Ok. intros (s & Hs & [= <-]) Hlen.
  pose proof (len_AppendBytes (AppendTag num BytesType) s).
  pose proof (fields_depth_nonneg fs).
  exists s. eexists. split; [apply encodes_bytes; [done|lia]|]. unfold unmarshalPointer.
  destruct (Z.ltb_spec (limit - 1) 0); [lia|].
  destruct (Hfs (limit - 1) 0 t s) as (rs & He & _ & Hset); [lia..|done|done|lia|done|lia|].
  by rewrite (encodes_parse _ _ He).
Qed.

Lemma list_read fs limit num l b old :
  fields_read fs → fields_numbered 0 fs = true → Forall (fields_range fs) l → 1 + fields_depth fs ≤ limit →
  number_valid num → append_all (append_message order num fs) l = Ok b → len b < 2 ^ 63 →
  field_read limit (KRepeated fs) num b old (old ++ l).
Proof.
  intros Hfs Hn Hall Hd Hnum. revert b old. induction Hall as [|t l Ht Hall IH]; intros b old.
  { intros [= <-] _. rewrite app_nil_r. apply field_read_none. }
  cbn [append_all]. rewrite result_bind_Ok. intros (b1 & H1 & (b2 & H2 & [= <-])%result_bind_Ok) Hlen.
  rewrite len_app in Hlen. pose proof (len_nonneg b1). pose proof (len_nonneg b2).
  destruct (message_read fs limit num t b1) as (s & raw & He & Hu); [done..|lia|].
  apply (field_read_app _ (KRepeated fs) _ _ _ _ (old ++ [t])).
  - eapply field_read_one; [exact He|]. by rewrite consume_field_repeated, Hu.
  - replace (old ++ t :: l) with ((old ++ [t]) ++ l) by by rewrite <-app_assoc.
    apply IH; [done|lia].
Qed.

Lemma entry_read limit num kv b old :
  number_valid num → append_entry num kv = Ok b → len b < 2 ^ 63 →
  field_read limit KMap num b old (<[kv.1 := kv.2]> (old : gmap string string)).
Proof.
  intros Hnum. unfold append_entry. rewrite result_bind_Ok.
  intros (b1 & [Hu1 ->]%append_string_Ok & (b2 & [Hu2 ->]%append_string_Ok & [= <-])%result_bind_Ok) Hlen.
  pose proof (len_AppendBytes (AppendTag num BytesType)
    ((AppendTag 1 BytesType +:+ AppendBytes kv.1) +:+ AppendTag 2 BytesType +:+ AppendBytes kv.2)) as Hl.
  eapply field_read_one; [apply encodes_bytes; [done|lia]|].
  cbn [consume_field]. apply (Z.le_lt_trans _ _ _ Hl) in Hlen. rewrite len_app in Hlen.
  pose proof (len_AppendBytes (AppendTag 1 BytesType) kv.1). pose proof (len_nonneg kv.1).
  pose proof (len_AppendBytes (AppendTag 2 BytesType) kv.2). pose proof (len_nonneg kv.2).
  cbn [w_content]. erewrite encodes_parse by (apply encodes_app; (apply encodes_bytes; [done|lia])).
  unfold consume_entry, consume_string. cbn. rewrite Hu1. cbn. by rewrite Hu2.
Qed.

Lemma entries_read limit num l b old :
  number_valid num → append_all (append_entry num) l = Ok b → len b < 2 ^ 63 →
  field_read limit KMap num b old (foldl (λ m kv, <[kv.1 := kv.2]> m) (old : gmap string string) l).
Proof.
  intros Hnum. revert b old. induction l as [|kv l IH]; intros b old.
  { intros [= <-] _. apply field_read_none. }
  cbn [append_all]. rewrite result_bind_Ok. intros (b1 & H1 & (b2 & H2 & [= <-])%result_bind_Ok) Hlen.
  rewrite len_app in Hlen. pose proof (len_nonneg b1). pose proof (len_nonneg b2).
  eapply field_read_app; [apply entry_read; [done|exact H1|lia]|]. apply IH; [done|lia].
Qed.

Lemma foldl_insert (l : list (string * string)) (m : gmap string string) :
  NoDup l.*1 → (∀ k, k ∈ l.*1 → m !! k = None) →
  foldl (λ m kv, <[kv.1 := kv.2]> m) m l = list_to_map l ∪ m.
Proof.
  revert m. induction l as [|[k v] l IH]; intros m Hnd Hm; cbn in *; [by rewrite (left_id_L ∅ (∪))|].
  apply NoDup_cons in Hnd as [Hni Hnd]. rewrite IH; [|done|].
  - rewrite <-insert_union_r, insert_union_l; [done|]. by apply not_elem_of_list_to_map.
  - intros k' Hk'. rewrite lookup_insert_ne by by intros ->. apply Hm. by right.
Qed.

Lemma foldl_insert_order (m : gmap string string) :
  foldl (λ m kv, <[kv.1 := kv.2]> m) ∅ (map_order order m) = m.
Proof.
  rewrite foldl_insert; [|apply map_order_NoDup|by intros k _; apply lookup_empty].
  rewrite (right_id_L ∅ (∪)). transitivity (list_to_map (map_to_list m) : gmap string string);
    [|apply list_to_map_to_list].
  apply list_to_map_proper; [apply map_order_NoDup|apply map_order_perm].
Qed.

Lemma map_read limit num m b :
  number_valid num → append_field order KMap num m = Ok b → len b < 2 ^ 63 →
  field_read limit KMap num b (zero_val KMap) m.
Proof.
  intros Hnum Hb Hlen. pose proof (entries_read limit num _ b ∅ Hnum Hb Hlen) as Hr.
  by rewrite foldl_insert_order in Hr.
Qed.

Lemma fields_read_cons f k fs : value_read k → fields_read fs → fields_read ((f, k) :: fs).
Proof.
  intros Hk Hfs limit last [v t] b Hlast Hn [Hrv Hrt] Hd Hb Hlen.
  cbn [fields_numbered] in Hn. fold fields_numbered in Hn.
  apply andb_true_iff in Hn as [[[H1%Z.ltb_lt H2%Z.leb_le]%andb_true_iff Hkn]%andb_true_iff Hfn].
  cbn [fields_depth foldr snd] in Hd. fold (fields_depth fs) in Hd.
  cbn [marshalAppendPointer fst snd] in Hb.
  apply result_bind_Ok in Hb as (b1 & Hb1 & (b2 & Hb2 & [= <-])%result_bind_Ok).
  rewrite len_app in Hlen. pose proof (len_nonneg b1). pose proof (len_nonneg b2).
  destruct (Hk limit (fd_Number f) v b1) as (rs1 & He1 & Hn1 & Hs1);
    [done|done|lia|unfold number_valid, MinValidNumber; lia|done|lia|].
  destruct (Hfs limit (fd_Number f) t b2) as (rs2 & He2 & Hn2 & Hs2); [lia|done|done|lia|done|lia|].
  exists (rs1 ++ rs2). split; [by apply encodes_app|]. split.
  - apply Forall_app. split; [eapply Forall_impl; [exact Hn1|]|eapply Forall_impl; [exact Hn2|]]; cbn; lia.
  - rewrite set_records_app. cbn [zero_tup].
    rewrite (set_records_here _ _ _ _ _ _ _ v Hn1 Hs1). cbn [mbind result_bind].
    apply set_records_there; [|done]. eapply Forall_impl; [exact Hn2|]. cbn. lia.
Qed.

Lemma all_read : (∀ k, value_read k) ∧ ∀ fs, fields_read fs.
Proof.
  apply kind_fields_ind.
  - intros limit num s b _ _ _ Hnum Hb Hlen. cbn [append_field] in Hb. destruct (s =s "") eqn:Es.
    + apply eqs_true in Es as ->. injection Hb as <-. apply field_read_none.
    + apply append_string_Ok in Hb as [Hu ->]. pose proof (len_AppendBytes (AppendTag num BytesType) s).
      eapply field_read_one; [apply encodes_bytes; [done|lia]|]. cbn. by rewrite Hu.
  - intros vs limit num z b _ Hr _ Hnum Hb Hlen. cbn [append_field] in Hb. destruct (Z.eqb_spec z 0) as [->|].
    + injection Hb as <-. apply field_read_none.
    + injection Hb as <-. eapply field_read_one; [apply encodes_varint; [done|apply Z.mod_pos_bound; lia]|].
      cbn [consume_field w_content]. by rewrite int32_varint.
  - intros fs Hfs limit num [t|] b Hn Hr Hd Hnum Hb Hlen.
    + rewrite append_field_message in Hb. rewrite kind_numbered_message in Hn.
      destruct (message_read fs limit num t b Hfs Hn Hr Hd Hnum Hb Hlen) as (s & raw & He & Hu).
      eapply field_read_one; [exact He|]. rewrite consume_field_message. cbn [default zero_val]. by rewrite Hu.
    + injection Hb as <-. apply field_read_none.
  - intros fs Hfs limit num l b Hn Hr Hd Hnum Hb Hlen. rewrite append_field_repeated in Hb.
    rewrite kind_numbered_repeated in Hn. exact (list_read fs limit num l b [] Hfs Hn Hr Hd Hnum Hb Hlen).
  - intros limit num m b _ _ _. apply map_read.
  - intros limit last t b _ _ Ht _ Hb _. cbn in Ht. subst t. injection Hb as <-. exists []. split; [apply encodes_nil|]. split; [by apply Forall_nil|done].
  - apply fields_read_cons.
Qed.

(** What is written is a sequence of records, and it is read back. *)
Lemma pointer_roundtrip fs limit t b :
  fields_numbered 0 fs = true → fields_range fs t → 1 + fields_depth fs ≤ limit →
  marshalAppendPointer order fs t = Ok b → len b < 2 ^ 63 →
  (∃ rs, encodes b rs) ∧ unmarshalPointer limit fs b (zero_tup fs) = Ok t.
Proof.
  intros Hn Hr Hd Hb Hlen. pose proof (fields_depth_nonneg fs).
  destruct (proj2 all_read fs (limit - 1) 0 t b) as (rs & He & _ & Hs); [lia|done|done|lia|done|done|].
  split; [by exists rs|]. unfold unmarshalPointer. destruct (Z.ltb_spec (limit - 1) 0); [lia|].
  by rewrite (encodes_parse _ _ He).
Qed.
End roundtrip.

(** ** When marshalling fails *)

Lemma append_all_ok {A} (f : A → result wire_error string) l :
  is_ok (append_all f l) = true ↔ Forall (λ x, is_ok (f x) = true) l.
Proof.
  induction l as [|x l IH]; cbn [append_all]; [by split; [constructor|]|]. rewrite Forall_cons, <-IH.
  destruct (f x); cbn; [|naive_solver]. destruct (append_all f l); naive_solver.
Qed.

Lemma append_string_ok num s : is_ok (append_string num s) = utf8_ValidString s.
Proof. unfold append_string. by case_match. Qed.
Lemma append_entry_ok num kv :
  is_ok (append_entry num kv) = true ↔ utf8_ValidString kv.1 = true ∧ utf8_ValidString kv.2 = true.
Proof.
  rewrite <-(append_string_ok 1 kv.1), <-(append_string_ok 2 kv.2). unfold append_entry.
  destruct (append_string 1 kv.1); cbn; [|naive_solver]. destruct (append_string 2 kv.2); naive_solver.
Qed.
Lemma append_message_ok order num fs t :
  is_ok (append_message order num fs t) = is_ok (marshalAppendPointer order fs t).
Proof. unfold append_message. by destruct (marshalAppendPointer order fs t). Qed.

(** Marshalling succeeds exactly when all strings are valid UTF-8. *)
Lemma wire_ok order :
  (∀ k num v, is_ok (append_field order k num v) = true ↔ strings_valid k v) ∧
  ∀ fs t, is_ok (marshalAppendPointer order fs t) = true ↔ fields_valid fs t.
Proof.
  apply (kind_fields_ind (λ k, ∀ num v, is_ok (append_field order k num v) = true ↔ strings_valid k v)
           (λ fs, ∀ t, is_ok (marshalAppendPointer order fs t) = true ↔ fields_valid fs t)).
  - intros num s. cbn [append_field strings_valid]. destruct (s =s "") eqn:E; [by apply eqs_true in E as ->|].
    by rewrite append_string_ok.
  - intros vs num z. cbn [append_field]. by case_match.
  - intros fs IH num [t|]; [|done]. rewrite append_field_message, append_message_ok. apply IH.
  - intros fs IH num l. rewrite append_field_repeated, append_all_ok. apply Forall_iff. intros t.
    rewrite append_message_ok. apply IH.
  - intros num m. cbn [append_field strings_valid]. rewrite append_all_ok, Forall_forall. unfold entries_valid.
    setoid_rewrite append_entry_ok. split.
    + intros H k v Hl. apply (H (k, v)). by apply elem_of_map_order.
    + intros H [k v] Hin%elem_of_map_order. by apply H.
  - done.
  - intros f k fs IHk IHfs [v t]. cbn [fields_valid fst snd marshalAppendPointer].
    rewrite <-IHfs, <-(IHk (fd_Number f)).
    destruct (append_field order k (fd_Number f) v); cbn; [|naive_solver].
    destruct (marshalAppendPointer order fs t); naive_solver.
Qed.

(** ** Unknown fields *)

Lemma set_field_unknown limit fs num v t :
  Forall (λ nk : field_id * kind, fd_Number nk.1 ≠ num) fs →
  set_field limit fs num v t = Ok (append_unknown fs (w_raw v) t).
Proof.
  intros Hfs. induction Hfs as [|[f k] fs Hf Hfs IH]; [done|]. destruct t as [x t]. cbn in Hf.
  cbn -[consume_field]. destruct (Z.eqb_spec num (fd_Number f)); [by destruct Hf|].
  fold (set_field limit fs num v t). by rewrite IH.
Qed.

Lemma append_unknown_app fs a b t : append_unknown fs b (append_unknown fs a t) = append_unknown fs (a +:+ b) t.
Proof.
  induction fs as [|[f k] fs IH]; [symmetry; apply str_app_assoc|]. destruct t as [x t].
  cbn. by rewrite IH.
Qed.
Lemma append_unknown_nil fs t : append_unknown fs "" t = t.
Proof. induction fs as [|[f k] fs IH]; [apply str_app_nil|]. destruct t as [x t]. cbn. by rewrite IH. Qed.
Lemma unknown_append fs raw t : unknownFields fs (append_unknown fs raw t) = unknownFields fs t +:+ raw.
Proof. induction fs as [|[f k] fs IH]; [done|]. destruct t as [x t]. apply IH. Qed.

(** The bytes in which records are kept. *)
Definition raw_bytes (rs : list (Z * wire_value)) : string := foldr (λ r b, w_raw r.2 +:+ b) "" rs.

(** Records of fields that the message does not have are kept behind the unknown fields it had. *)
Lemma unknown_records limit fs b1 rs1 u rs t t1 :
  encodes b1 rs1 → encodes u rs →
  Forall (λ r : Z * wire_value, Forall (λ nk : field_id * kind, fd_Number nk.1 ≠ r.1) fs) rs →
  unmarshalPointer limit fs b1 t = Ok t1 →
  unmarshalPointer limit fs (b1 +:+ u) t = Ok (append_unknown fs (raw_bytes rs) t1).
Proof.
  intros He1 He Hu. unfold unmarshalPointer. case_match; [done|].
  rewrite He1, (encodes_parse _ _ He), (encodes_parse _ _ He1). cbn [mbind result_bind].
  rewrite set_records_app. intros ->. cbn [mbind result_bind].
  clear -Hu. revert t1. induction Hu as [|[num v] rs Hn Hu IH]; intros t1; [by rewrite append_unknown_nil|].
  cbn [set_records]. rewrite set_field_unknown by done. cbn [mbind result_bind].
  fold (set_records (set_field (limit - 1) fs)). rewrite IH. by rewrite append_unknown_app.
Qed.

(** Unknown fields are written behind the fields. *)
Lemma marshal_unknown order fs raw t b :
  marshalAppendPointer order fs t = Ok b →
  marshalAppendPointer order fs (append_unknown fs raw t) = Ok (b +:+ raw).
Proof.
  revert b. induction fs as [|[f k] fs IH]; intros b; [by intros [= <-]|]. destruct t as [x t].
  cbn [marshalAppendPointer append_unknown fst snd]. rewrite !result_bind_Ok.
  intros (b1 & -> & (b2 & Hb2 & [= <-])%result_bind_Ok). exists b1. split; [done|].
  rewrite (IH t b2 Hb2). cbn. by rewrite str_app_assoc.
Qed.
