(* ===== verification/CosiRaw.v ===== *)
(** * The raw descriptor of the driver protocol

    [src/proto/cosi.pb.go] carries the compiled form of [src/proto/cosi.proto] as the constant
    [file_cosi_proto_rawDesc]: the encoding of a FileDescriptorProto, from which the protobuf
    library takes the fields of all messages. This file decodes it with the model of the codec
    and compares the result with what the development uses: the descriptors of [CosiDesc]. *)

From Stdlib Require Import Ascii.
From stdpp Require Import base gmap strings list.
From S2P Require Import Prelude ProtoTypes ProtoDesc ProtoWire CosiDesc.

#[local] Set Warnings "-register-all".

(** ** Go string literals *)

Definition hex_value (c : ascii) : nat :=
  let n := nat_of_ascii c in if (n <? 58)%nat then n - 48 else n - 87.

(** An interpreted string literal without Unicode escapes. *)
Fixpoint unquote (s : string) : string :=
  match s with
  | EmptyString => ""
  | String c s1 =>
      if Ascii.eqb c (ascii_of_nat 92) then
        match s1 with
        | EmptyString => ""
        | String e s2 =>
            if Ascii.eqb e "x" then
              match s2 with
              | String h (String l s3) => String (ascii_of_nat (16 * hex_value h + hex_value l)) (unquote s3)
              | _ => ""
              end
            else
              let c' := if Ascii.eqb e "n" then ascii_of_nat 10 else if Ascii.eqb e "t" then ascii_of_nat 9
                else if Ascii.eqb e "a" then ascii_of_nat 7 else if Ascii.eqb e "b" then ascii_of_nat 8
                else if Ascii.eqb e "v" then ascii_of_nat 11 else if Ascii.eqb e "f" then ascii_of_nat 12
                else if Ascii.eqb e "r" then ascii_of_nat 13 else e in
              String c' (unquote s2)
        end
      else String c (unquote s1)
  end.

(** The literals of the constant, line by line; a quotation mark is written [\x22]. *)
Definition file_cosi_proto_rawDesc_literals : list string :=
  ["";
   "\n";
   "\n";
   "cosi.proto\x12\x19sigs.k8s.io.cosi.v1alpha2\x1a google/protobuf/descriptor.proto\x22\x16\n";
   "\x14DriverGetInfoRequest\x22\x87\x01\n";
   "\x15DriverGetInfoResponse\x12\x12\n";
   "\x04name\x18\x01 \x01(\tR\x04name\x12Z\n";
   "\x13supported_protocols\x18\x02 \x03(\v2).sigs.k8s.io.cosi.v1alpha2.ObjectProtocolR\x12supportedProtocols\x22\x85\x01\n";
   "\x0eObjectProtocol\x12B\n";
   "\x04type\x18\x01 \x01(\x0e2..sigs.k8s.io.cosi.v1alpha2.ObjectProtocol.TypeR\x04type\x22/\n";
   "\x04Type\x12\v\n";
   "\aUNKNOWN\x10\x00\x12\x06\n";
   "\x02S3\x10\x01\x12\t\n";
   "\x05AZURE\x10\x02\x12\a\n";
   "\x03GCS\x10\x03\x22\xd4\x01\n";
   "\x1bObjectProtocolAndBucketInfo\x127\n";
   "\x02s3\x18\x01 \x01(\v2'.sigs.k8s.io.cosi.v1alpha2.S3BucketInfoR\x02s3\x12@\n";
   "\x05azure\x18\x02 \x01(\v2*.sigs.k8s.io.cosi.v1alpha2.AzureBucketInfoR\x05azure\x12:\n";
   "\x03gcs\x18\x03 \x01(\v2(.sigs.k8s.io.cosi.v1alpha2.GcsBucketInfoR\x03gcs\x22\xd3\x01\n";
   "\x0eCredentialInfo\x12;\n";
   "\x02s3\x18\x01 \x01(\v2+.sigs.k8s.io.cosi.v1alpha2.S3CredentialInfoR\x02s3\x12D\n";
   "\x05azure\x18\x02 \x01(\v2..sigs.k8s.io.cosi.v1alpha2.AzureCredentialInfoR\x05azure\x12>\n";
   "\x03gcs\x18\x03 \x01(\v2,.sigs.k8s.io.cosi.v1alpha2.GcsCredentialInfoR\x03gcs\x22\xb8\x01\n";
   "\fS3BucketInfo\x12\x1b\n";
   "\tbucket_id\x18\x01 \x01(\tR\bbucketId\x12\x1a\n";
   "\bendpoint\x18\x02 \x01(\tR\bendpoint\x12\x16\n";
   "\x06region\x18\x03 \x01(\tR\x06region\x12W\n";
   "\x10addressing_style\x18\x04 \x01(\v2,.sigs.k8s.io.cosi.v1alpha2.S3AddressingStyleR\x0faddressingStyle\x22b\n";
   "\x10S3CredentialInfo\x12\x22\n";
   "\raccess_key_id\x18\x01 \x01(\tR\vaccessKeyId\x12*\n";
   "\x11access_secret_key\x18\x02 \x01(\tR\x0faccessSecretKey\x22\x8a\x01\n";
   "\x11S3AddressingStyle\x12H\n";
   "\x05style\x18\x01 \x01(\x0e22.sigs.k8s.io.cosi.v1alpha2.S3AddressingStyle.StyleR\x05style\x22+\n";
   "\x05Style\x12\v\n";
   "\aUNKNOWN\x10\x00\x12\b\n";
   "\x04PATH\x10\x01\x12\v\n";
   "\aVIRTUAL\x10\x02\x22:\n";
   "\x0fAzureBucketInfo\x12'\n";
   "\x0fstorage_account\x18\x01 \x01(\tR\x0estorageAccount\x22c\n";
   "\x13AzureCredentialInfo\x12!\n";
   "\faccess_token\x18\x01 \x01(\tR\vaccessToken\x12)\n";
   "\x10expiry_timestamp\x18\x02 \x01(\tR\x0fexpiryTimestamp\x22O\n";
   "\rGcsBucketInfo\x12\x1d\n";
   "\n";
   "project_id\x18\x01 \x01(\tR\tprojectId\x12\x1f\n";
   "\vbucket_name\x18\x02 \x01(\tR\n";
   "bucketName\x22\xa8\x01\n";
   "\x11GcsCredentialInfo\x12\x1b\n";
   "\taccess_id\x18\x01 \x01(\tR\baccessId\x12#\n";
   "\raccess_secret\x18\x02 \x01(\tR\faccessSecret\x12(\n";
   "\x10private_key_name\x18\x03 \x01(\tR\x0eprivateKeyName\x12'\n";
   "\x0fservice_account\x18\x04 \x01(\tR\x0eserviceAccount\x22\x8f\x01\n";
   "\x12AuthenticationType\x12F\n";
   "\x04type\x18\x01 \x01(\x0e22.sigs.k8s.io.cosi.v1alpha2.AuthenticationType.TypeR\x04type\x221\n";
   "\x04Type\x12\v\n";
   "\aUNKNOWN\x10\x00\x12\a\n";
   "\x03KEY\x10\x01\x12\x13\n";
   "\x0fSERVICE_ACCOUNT\x10\x02\x22\x90\x01\n";
   "\n";
   "AccessMode\x12>\n";
   "\x04mode\x18\x01 \x01(\x0e2*.sigs.k8s.io.cosi.v1alpha2.AccessMode.ModeR\x04mode\x22B\n";
   "\x04Mode\x12\v\n";
   "\aUNKNOWN\x10\x00\x12\x0e\n";
   "\n";
   "READ_WRITE\x10\x01\x12\r\n";
   "\tREAD_ONLY\x10\x02\x12\x0e\n";
   "\n";
   "WRITE_ONLY\x10\x03\x22\x9d\x02\n";
   "\x19DriverCreateBucketRequest\x12\x12\n";
   "\x04name\x18\x01 \x01(\tR\x04name\x12G\n";
   "\tprotocols\x18\x02 \x03(\v2).sigs.k8s.io.cosi.v1alpha2.ObjectProtocolR\tprotocols\x12d\n";
   "\n";
   "parameters\x18\x04 \x03(\v2D.sigs.k8s.io.cosi.v1alpha2.DriverCreateBucketRequest.ParametersEntryR\n";
   "parameters\x1a=\n";
   "\x0fParametersEntry\x12\x10\n";
   "\x03key\x18\x01 \x01(\tR\x03key\x12\x14\n";
   "\x05value\x18\x02 \x01(\tR\x05value:\x028\x01\x22\x8f\x01\n";
   "\x1aDriverCreateBucketResponse\x12\x1b\n";
   "\tbucket_id\x18\x01 \x01(\tR\bbucketId\x12T\n";
   "\tprotocols\x18\x02 \x01(\v26.sigs.k8s.io.cosi.v1alpha2.ObjectProtocolAndBucketInfoR\tprotocols\x22\xc1\x02\n";
   "\x1eDriverGetExistingBucketRequest\x12,\n";
   "\x12existing_bucket_id\x18\x01 \x01(\tR\x10existingBucketId\x12G\n";
   "\tprotocols\x18\x02 \x03(\v2).sigs.k8s.io.cosi.v1alpha2.ObjectProtocolR\tprotocols\x12i\n";
   "\n";
   "parameters\x18\x04 \x03(\v2I.sigs.k8s.io.cosi.v1alpha2.DriverGetExistingBucketRequest.ParametersEntryR\n";
   "parameters\x1a=\n";
   "\x0fParametersEntry\x12\x10\n";
   "\x03key\x18\x01 \x01(\tR\x03key\x12\x14\n";
   "\x05value\x18\x02 \x01(\tR\x05value:\x028\x01\x22\x94\x01\n";
   "\x1fDriverGetExistingBucketResponse\x12\x1b\n";
   "\tbucket_id\x18\x01 \x01(\tR\bbucketId\x12T\n";
   "\tprotocols\x18\x02 \x01(\v26.sigs.k8s.io.cosi.v1alpha2.ObjectProtocolAndBucketInfoR\tprotocols\x22\xdd\x01\n";
   "\x19DriverDeleteBucketRequest\x12\x1b\n";
   "\tbucket_id\x18\x01 \x01(\tR\bbucketId\x12d\n";
   "\n";
   "parameters\x18\x04 \x03(\v2D.sigs.k8s.io.cosi.v1alpha2.DriverDeleteBucketRequest.ParametersEntryR\n";
   "parameters\x1a=\n";
   "\x0fParametersEntry\x12\x10\n";
   "\x03key\x18\x01 \x01(\tR\x03key\x12\x14\n";
   "\x05value\x18\x02 \x01(\tR\x05value:\x028\x01\x22\x1c\n";
   "\x1aDriverDeleteBucketResponse\x22\xa1\x05\n";
   "\x1eDriverGrantBucketAccessRequest\x12!\n";
   "\faccount_name\x18\x01 \x01(\tR\vaccountName\x12E\n";
   "\bprotocol\x18\x02 \x01(\v2).sigs.k8s.io.cosi.v1alpha2.ObjectProtocolR\bprotocol\x12^\n";
   "\x13authentication_type\x18\x03 \x01(\v2-.sigs.k8s.io.cosi.v1alpha2.AuthenticationTypeR\x12authenticationType\x120\n";
   "\x14service_account_name\x18\x04 \x01(\tR\x12serviceAccountName\x12i\n";
   "\n";
   "parameters\x18\x05 \x03(\v2I.sigs.k8s.io.cosi.v1alpha2.DriverGrantBucketAccessRequest.ParametersEntryR\n";
   "parameters\x12b\n";
   "\abuckets\x18\x06 \x03(\v2H.sigs.k8s.io.cosi.v1alpha2.DriverGrantBucketAccessRequest.AccessedBucketR\abuckets\x1a=\n";
   "\x0fParametersEntry\x12\x10\n";
   "\x03key\x18\x01 \x01(\tR\x03key\x12\x14\n";
   "\x05value\x18\x02 \x01(\tR\x05value:\x028\x01\x1au\n";
   "\x0eAccessedBucket\x12\x1b\n";
   "\tbucket_id\x18\x01 \x01(\tR\bbucketId\x12F\n";
   "\vaccess_mode\x18\x02 \x01(\v2%.sigs.k8s.io.cosi.v1alpha2.AccessModeR\n";
   "accessMode\x22\xf3\x02\n";
   "\x1fDriverGrantBucketAccessResponse\x12\x1d\n";
   "\n";
   "account_id\x18\x01 \x01(\tR\taccountId\x12_\n";
   "\abuckets\x18\x02 \x03(\v2E.sigs.k8s.io.cosi.v1alpha2.DriverGrantBucketAccessResponse.BucketInfoR\abuckets\x12K\n";
   "\vcredentials\x18\x03 \x01(\v2).sigs.k8s.io.cosi.v1alpha2.CredentialInfoR\vcredentials\x1a\x82\x01\n";
   "\n";
   "BucketInfo\x12\x1b\n";
   "\tbucket_id\x18\x01 \x01(\tR\bbucketId\x12W\n";
   "\vbucket_info\x18\x02 \x01(\v26.sigs.k8s.io.cosi.v1alpha2.ObjectProtocolAndBucketInfoR\n";
   "bucketInfo\x22\xd8\x04\n";
   "\x1fDriverRevokeBucketAccessRequest\x12\x1d\n";
   "\n";
   "account_id\x18\x01 \x01(\tR\taccountId\x12E\n";
   "\bprotocol\x18\x02 \x01(\v2).sigs.k8s.io.cosi.v1alpha2.ObjectProtocolR\bprotocol\x12^\n";
   "\x13authentication_type\x18\x03 \x01(\v2-.sigs.k8s.io.cosi.v1alpha2.AuthenticationTypeR\x12authenticationType\x120\n";
   "\x14service_account_name\x18\x04 \x01(\tR\x12serviceAccountName\x12j\n";
   "\n";
   "parameters\x18\x05 \x03(\v2J.sigs.k8s.io.cosi.v1alpha2.DriverRevokeBucketAccessRequest.ParametersEntryR\n";
   "parameters\x12c\n";
   "\abuckets\x18\x06 \x03(\v2I.sigs.k8s.io.cosi.v1alpha2.DriverRevokeBucketAccessRequest.AccessedBucketR\abuckets\x1a=\n";
   "\x0fParametersEntry\x12\x10\n";
   "\x03key\x18\x01 \x01(\tR\x03key\x12\x14\n";
   "\x05value\x18\x02 \x01(\tR\x05value:\x028\x01\x1a-\n";
   "\x0eAccessedBucket\x12\x1b\n";
   "\tbucket_id\x18\x01 \x01(\tR\bbucketId\x22\x22\n";
   " DriverRevokeBucketAccessResponse2\x80\x01\n";
   "\bIdentity\x12t\n";
   "\rDriverGetInfo\x12/.sigs.k8s.io.cosi.v1alpha2.DriverGetInfoRequest\x1a0.sigs.k8s.io.cosi.v1alpha2.DriverGetInfoResponse\x22\x002\xd7\x05\n";
   "\vProvisioner\x12\x83\x01\n";
   "\x12DriverCreateBucket\x124.sigs.k8s.io.cosi.v1alpha2.DriverCreateBucketRequest\x1a5.sigs.k8s.io.cosi.v1alpha2.DriverCreateBucketResponse\x22\x00\x12\x92\x01\n";
   "\x17DriverGetExistingBucket\x129.sigs.k8s.io.cosi.v1alpha2.DriverGetExistingBucketRequest\x1a:.sigs.k8s.io.cosi.v1alpha2.DriverGetExistingBucketResponse\x22\x00\x12\x83\x01\n";
   "\x12DriverDeleteBucket\x124.sigs.k8s.io.cosi.v1alpha2.DriverDeleteBucketRequest\x1a5.sigs.k8s.io.cosi.v1alpha2.DriverDeleteBucketResponse\x22\x00\x12\x90\x01\n";
   "\x17DriverGrantBucketAccess\x129.sigs.k8s.io.cosi.v1alpha2.DriverGrantBucketAccessRequest\x1a:.sigs.k8s.io.cosi.v1alpha2.DriverGrantBucketAccessResponse\x12\x93\x01\n";
   "\x18DriverRevokeBucketAccess\x12:.sigs.k8s.io.cosi.v1alpha2.DriverRevokeBucketAccessRequest\x1a;.sigs.k8s.io.cosi.v1alpha2.DriverRevokeBucketAccessResponse:<\n";
   "\n";
   "alpha_enum\x12\x1c.google.protobuf.EnumOptions\x18\xdc\b \x01(\bR\talphaEnum:L\n";
   "\x10alpha_enum_value\x12!.google.protobuf.EnumValueOptions\x18\xdc\b \x01(\bR\x0ealphaEnumValue:?\n";
   "\vcosi_secret\x12\x1d.google.protobuf.FieldOptions\x18\xdb\b \x01(\bR\n";
   "cosiSecret:?\n";
   "\valpha_field\x12\x1d.google.protobuf.FieldOptions\x18\xdc\b \x01(\bR\n";
   "alphaField:E\n";
   "\ralpha_message\x12\x1f.google.protobuf.MessageOptions\x18\xdc\b \x01(\bR\falphaMessage:B\n";
   "\falpha_method\x12\x1e.google.protobuf.MethodOptions\x18\xdc\b \x01(\bR\valphaMethod:E\n";
   "\ralpha_service\x12\x1f.google.protobuf.ServiceOptions\x18\xdc\b \x01(\bR\falphaServiceB;Z9sigs.k8s.io/container-object-storage-interface/proto;cosib\x06proto3"].
Definition file_cosi_proto_rawDesc : string :=
  foldr (λ s acc, unquote s +:+ acc) "" file_cosi_proto_rawDesc_literals.

(** ** The messages of [descriptor.proto] *)

(** The fields of the descriptors that are used here, by the vendored [descriptor.pb.go]; numbers
    and flags are varints, read like enums. A message is nested at most once in the protocol. *)
Definition FieldDescriptorProto_fields : fields :=
  [(Field "name" 1, KString); (Field "number" 3, KEnum []); (Field "label" 4, KEnum []);
   (Field "type" 5, KEnum []); (Field "type_name" 6, KString); (Field "json_name" 10, KString)].
Definition EnumValueDescriptorProto_fields : fields :=
  [(Field "name" 1, KString); (Field "number" 2, KEnum [])].
Definition EnumDescriptorProto_fields : fields :=
  [(Field "name" 1, KString); (Field "value" 2, KRepeated EnumValueDescriptorProto_fields)].
Definition MessageOptions_fields : fields := [(Field "map_entry" 7, KEnum [])].
Definition nested_DescriptorProto_fields : fields :=
  [(Field "name" 1, KString); (Field "field" 2, KRepeated FieldDescriptorProto_fields);
   (Field "enum_type" 4, KRepeated EnumDescriptorProto_fields);
   (Field "options" 7, KMessage MessageOptions_fields)].
Definition DescriptorProto_fields : fields :=
  [(Field "name" 1, KString); (Field "field" 2, KRepeated FieldDescriptorProto_fields);
   (Field "nested_type" 3, KRepeated nested_DescriptorProto_fields);
   (Field "enum_type" 4, KRepeated EnumDescriptorProto_fields)].
Definition MethodDescriptorProto_fields : fields :=
  [(Field "name" 1, KString); (Field "input_type" 2, KString); (Field "output_type" 3, KString)].
Definition ServiceDescriptorProto_fields : fields :=
  [(Field "name" 1, KString); (Field "method" 2, KRepeated MethodDescriptorProto_fields)].
Definition FileDescriptorProto_fields : fields :=
  [(Field "name" 1, KString); (Field "package" 2, KString);
   (Field "message_type" 4, KRepeated DescriptorProto_fields);
   (Field "service" 6, KRepeated ServiceDescriptorProto_fields);
   (Field "syntax" 12, KString)].

(** ** Declarations *)

Record raw_field : Type := {
  raw_Name : string; raw_Number : Z; raw_Label : Z; raw_Type : Z; raw_TypeName : string; raw_JsonName : string
}.
Record raw_message : Type := { raw_Fields : list raw_field; raw_MapEntry : bool }.
Record raw_file : Type := {
  raw_Messages : list (string * raw_message);      (* by their full names *)
  raw_Enums : list (string * list (string * Z));
  raw_Services : list (string * list (string * string * string))
}.

Definition field_of (t : tup FieldDescriptorProto_fields) : raw_field :=
  let '(name, (number, (label, (type, (type_name, (json_name, _)))))) := t in
  {| raw_Name := name; raw_Number := number; raw_Label := label; raw_Type := type;
     raw_TypeName := type_name; raw_JsonName := json_name |}.
Definition enum_of (prefix : string) (t : tup EnumDescriptorProto_fields) : string * list (string * Z) :=
  let '(name, (values, _)) := t in
  (prefix +:+ "." +:+ name, (λ v : tup EnumValueDescriptorProto_fields, (v.1, v.2.1)) <$> values).
Definition nested_of (prefix : string) (t : tup nested_DescriptorProto_fields) :
    list (string * raw_message) * list (string * list (string * Z)) :=
  let '(name, (flds, (enums, (options, _)))) := t in
  let full := prefix +:+ "." +:+ name in
  ([(full, {| raw_Fields := field_of <$> flds;
              raw_MapEntry := match options with Some (e, _) => negb (e =? 0)%Z | None => false end |})],
   enum_of full <$> enums).
Definition message_of (prefix : string) (t : tup DescriptorProto_fields) :
    list (string * raw_message) * list (string * list (string * Z)) :=
  let '(name, (flds, (nested, (enums, _)))) := t in
  let full := prefix +:+ "." +:+ name in
  let inner := nested_of full <$> nested in
  ((full, {| raw_Fields := field_of <$> flds; raw_MapEntry := false |}) :: flat_map fst inner,
   (enum_of full <$> enums) ++ flat_map snd inner).
Definition service_of (prefix : string) (t : tup ServiceDescriptorProto_fields) :
    string * list (string * string * string) :=
  let '(name, (methods, _)) := t in
  (prefix +:+ name,
   (λ m : tup MethodDescriptorProto_fields, let '(n, (i, (o, _))) := m in (n, i, o)) <$> methods).
Definition file_of (t : tup FileDescriptorProto_fields) : raw_file :=
  let '(_, (package, (messages, (services, _)))) := t in
  let all := message_of ("." +:+ package) <$> messages in
  {| raw_Messages := flat_map fst all; raw_Enums := flat_map snd all;
     raw_Services := service_of (package +:+ ".") <$> services |}.

Definition lookup_name {A} (name : string) (l : list (string * A)) : option A :=
  snd <$> List.find (λ x, x.1 =s name) l.

(** The fields of a message, with the types they refer to; [fuel] bounds the nesting. The numbers
    of types and labels are those of [descriptor.proto]: 9 string, 11 message, 14 enum; 1 optional,
    3 repeated. *)
Fixpoint resolve (fuel : nat) (file : raw_file) (name : string) : option fields :=
  match fuel with
  | 0 => None
  | S fuel' =>
      m ← lookup_name name (raw_Messages file);
      mapM (λ f,
        k ← (if (raw_Label f =? 1)%Z && (raw_Type f =? 9)%Z then Some KString
             else if (raw_Label f =? 1)%Z && (raw_Type f =? 14)%Z then
               KEnum <$> lookup_name (raw_TypeName f) (raw_Enums file)
             else if (raw_Type f =? 11)%Z then
               if (raw_Label f =? 1)%Z then KMessage <$> resolve fuel' file (raw_TypeName f)
               else if (raw_Label f =? 3)%Z then
                 m' ← lookup_name (raw_TypeName f) (raw_Messages file);
                 fs' ← resolve fuel' file (raw_TypeName f);
                 if raw_MapEntry m' then
                   match fs' with
                   | [(Field "key" 1, KString); (Field "value" 2, KString)] => Some KMap
                   | _ => None
                   end
                 else Some (KRepeated fs')
               else None
             else None);
        Some (Field (raw_Name f) (raw_Number f), k)) (raw_Fields m)
  end.

Definition File_cosi_proto : result wire_error raw_file :=
  t ← unmarshalPointer DefaultRecursionLimit FileDescriptorProto_fields file_cosi_proto_rawDesc (zero_tup _);
  Ok (file_of t).

(** The messages of the driver protocol and the descriptors that [CosiDesc] gives them. *)
Definition messages : list (string * fields) :=
  [("DriverGetInfoRequest", DriverGetInfoRequest_fields);
   ("DriverGetInfoResponse", DriverGetInfoResponse_fields);
   ("ObjectProtocol", ObjectProtocol_fields);
   ("ObjectProtocolAndBucketInfo", ObjectProtocolAndBucketInfo_fields);
   ("CredentialInfo", CredentialInfo_fields);
   ("S3BucketInfo", S3BucketInfo_fields);
   ("S3CredentialInfo", S3CredentialInfo_fields);
   ("S3AddressingStyle", S3AddressingStyle_fields);
   ("AzureBucketInfo", AzureBucketInfo_fields);
   ("AzureCredentialInfo", AzureCredentialInfo_fields);
   ("GcsBucketInfo", GcsBucketInfo_fields);
   ("GcsCredentialInfo", GcsCredentialInfo_fields);
   ("AuthenticationType", AuthenticationType_fields);
   ("AccessMode", AccessMode_fields);
   ("DriverCreateBucketRequest", DriverCreateBucketRequest_fields);
   ("DriverCreateBucketResponse", DriverCreateBucketResponse_fields);
   ("DriverGetExistingBucketRequest", DriverGetExistingBucketRequest_fields);
   ("DriverGetExistingBucketResponse", DriverGetExistingBucketResponse_fields);
   ("DriverDeleteBucketRequest", DriverDeleteBucketRequest_fields);
   ("DriverDeleteBucketResponse", DriverDeleteBucketResponse_fields);
   ("DriverGrantBucketAccessRequest", DriverGrantBucketAccessRequest_fields);
   ("DriverGrantBucketAccessRequest.AccessedBucket", DriverGrantBucketAccessRequest_AccessedBucket_fields);
   ("DriverGrantBucketAccessResponse", DriverGrantBucketAccessResponse_fields);
   ("DriverGrantBucketAccessResponse.BucketInfo", DriverGrantBucketAccessResponse_BucketInfo_fields);
   ("DriverRevokeBucketAccessRequest", DriverRevokeBucketAccessRequest_fields);
   ("DriverRevokeBucketAccessRequest.AccessedBucket", DriverRevokeBucketAccessRequest_AccessedBucket_fields);
   ("DriverRevokeBucketAccessResponse", DriverRevokeBucketAccessResponse_fields)].
Definition full_name (name : string) : string := ".sigs.k8s.io.cosi.v1alpha2." +:+ name.

(** ** What the raw descriptor says *)

Definition cosi_file : raw_file :=
  match File_cosi_proto with
  | Ok file => file
  | Err _ => {| raw_Messages := []; raw_Enums := []; raw_Services := [] |}
  end.

Lemma raw_decodes : File_cosi_proto = Ok cosi_file.
Proof. vm_compute. reflexivity. Qed.

Lemma raw_fields_all :
  (λ nf, resolve 5 cosi_file (full_name nf.1)) <$> messages = (λ nf, Some nf.2) <$> messages.
Proof. vm_compute. reflexivity. Qed.

Lemma fmap_eq_elem {A B} (f g : A → B) (l : list A) x : f <$> l = g <$> l → x ∈ l → f x = g x.
Proof.
  induction l as [|y l IH]; [by intros _ ?%elem_of_nil|]. cbn. intros [= Hy Hl] [->|Hin]%elem_of_cons; [done|].
  by apply IH.
Qed.

(** Every message of the protocol has the descriptor that the codecs use. *)
Lemma raw_fields name fs : (name, fs) ∈ messages → resolve 5 cosi_file (full_name name) = Some fs.
Proof. exact (fmap_eq_elem _ _ _ (name, fs) raw_fields_all). Qed.

(** There are no other messages, but for the entries of maps. *)
Lemma raw_messages_all :
  (List.filter (λ m, negb (raw_MapEntry m.2)) (raw_Messages cosi_file)).*1 =
  (λ nf, full_name nf.1) <$> messages.
Proof. vm_compute. reflexivity. Qed.

(** The JSON names that the compiler recorded are those that the JSON codec computes. *)
Lemma raw_json_names :
  forallb (λ m : string * raw_message,
    forallb (λ f, raw_JsonName f =s JSONCamelCase (raw_Name f)) (raw_Fields m.2)) (raw_Messages cosi_file) = true.
Proof. vm_compute. reflexivity. Qed.

#[local] Opaque cosi_file.
Lemma raw_json_name m f :
  m ∈ raw_Messages cosi_file → f ∈ raw_Fields m.2 → raw_JsonName f = JSONCamelCase (raw_Name f).
Proof.
  intros Hm%list_elem_of_In Hf%list_elem_of_In. pose proof raw_json_names as Hall.
  rewrite forallb_forall in Hall. apply Hall in Hm. rewrite forallb_forall in Hm. by apply eqs_true, Hm.
Qed.
