(* ===== verification/Grpc.v ===== *)
(** * Unary calls of gRPC

    Models what [src/proto/cosi_grpc.pb.go] uses of the vendored gRPC library: the codec, the
    registration and the dispatch of methods on the server, the conversion of errors to statuses,
    the header field that carries the message of a status, the size limits, and [Invoke] on the
    client. The rest of HTTP/2 is left out: a call has a [fate], by which the request or the answer
    may be lost. Compression, tracing, statistics and deadlines are left
    out; the error texts of the codec are a parameter. *)

From Stdlib Require Import Ascii.
From stdpp Require Import base gmap strings list.
From S2P Require Import Prelude GoErrors ProtoTypes ProtoDesc ProtoWire CosiDesc.

#[local] Set Warnings "-register-all".

(** ** The codec *)

(** [proto.Marshal] and [proto.Unmarshal], which resets the message it fills, on the fields and
    unknown fields of a message. *)
Definition proto_Marshal (order : list string) (fs : fields) (t : tup fs) : result wire_error string :=
  marshalAppendPointer order fs t.
Definition proto_Unmarshal (fs : fields) (b : string) : result wire_error (tup fs) :=
  unmarshalPointer DefaultRecursionLimit fs b (zero_tup fs).

(** [codecV2]: a message that the program has made is sent, and of a message that has come the
    program uses the fields. *)
Definition codec_Marshal {M} `{ProtoMessage M} (order : list string) (m : M) : result wire_error string :=
  proto_Marshal order descriptor (to_fields m).
Definition codec_Unmarshal {M} `{ProtoMessage M} (b : string) : result wire_error M :=
  t ← proto_Unmarshal descriptor b;
  Ok (of_fields t).

(** ** Statuses *)

(** An error of a method: one of [GoErrors], or one that is an error of the context. *)
Inductive app_error : Type :=
| AppError (err : error)
| ContextError (deadline : bool) (msg : string).

(** [status.FromError], and [status.FromContextError] where that finds no status. *)
Definition status_of (err : app_error) : rpc_error :=
  match err with
  | AppError (grpcError c s) => {| rpc_code := c; rpc_msg := s |}
  | AppError e =>
      match as_grpc e with
      | Some c => {| rpc_code := c; rpc_msg := Error e |}
      | None => {| rpc_code := CodeUnknown; rpc_msg := Error e |}
      end
  | ContextError true msg => {| rpc_code := DeadlineExceeded; rpc_msg := msg |}
  | ContextError false msg => {| rpc_code := Canceled; rpc_msg := msg |}
  end.

Definition status_Errorf (c : Code) (msg : string) : rpc_error := {| rpc_code := c; rpc_msg := msg |}.

(** ** The message of a status *)

(** [c >= spaceByte && c <= tildeByte && c != percentByte]. *)
Definition plain_byte (c : ascii) : bool := between " " c "~" && negb (Ascii.eqb c "%").

(** The verb %%%02X on a byte. *)
Definition upper_hex (n : N) : ascii := ascii_of_N (if (n <? 10)%N then 48 + n else 55 + n).
Definition percent (c : ascii) : string :=
  let n := N_of_ascii c in String "%" (String (upper_hex (n / 16)) (String (upper_hex (n mod 16)) "")).

(** [utf8.DecodeRuneInString]: how many bytes follow the first one of a rune; [None] is
    [utf8.RuneError], of size 1. *)
Fixpoint follows (lo hi : N) (more : nat) (s : string) {struct s} : bool :=
  match s with
  | EmptyString => false
  | String c s' =>
      negb ((N_of_ascii c <? lo)%N || (hi <? N_of_ascii c)%N) &&
      match more with 0 => true | S more' => follows 128 191 more' s' end
  end.
Definition DecodeRuneInString (c : ascii) (s : string) : option nat :=
  if (N_of_ascii c <? 128)%N then Some 0
  else
    match utf8_lead (N_of_ascii c) with
    | Some (lo, hi, more) => if follows lo hi more s then Some (S more) else None
    | None => None
    end.

(** The bytes of [utf8.RuneError] as a string. *)
Definition replacement : string := String (ascii_of_N 239) (String (ascii_of_N 191) (String (ascii_of_N 189) "")).
Fixpoint percent_all (s : string) : string :=
  match s with EmptyString => "" | String c s' => percent c +:+ percent_all s' end.

(** The loop over the runes; [inside] counts the bytes that are left of the rune. *)
Fixpoint encodeGrpcMessageUnchecked (inside : nat) (msg : string) : string :=
  match msg with
  | EmptyString => ""
  | String c msg' =>
      match inside with
      | S n => percent c +:+ encodeGrpcMessageUnchecked n msg'
      | 0 =>
          match DecodeRuneInString c msg' with
          | Some 0 => (if plain_byte c then String c "" else percent c) +:+ encodeGrpcMessageUnchecked 0 msg'
          | Some n => percent c +:+ encodeGrpcMessageUnchecked n msg'
          | None => percent_all replacement +:+ encodeGrpcMessageUnchecked 0 msg'
          end
      end
  end.
Fixpoint all_plain (msg : string) : bool :=
  match msg with EmptyString => true | String c msg' => plain_byte c && all_plain msg' end.
Definition encodeGrpcMessage (msg : string) : string :=
  if all_plain msg then msg else encodeGrpcMessageUnchecked 0 msg.

Fixpoint decodeGrpcMessageUnchecked (msg : string) : string :=
  match msg with
  | EmptyString => ""
  | String c msg' =>
      if Ascii.eqb c "%" then
        match msg' with
        | String h (String l msg'') =>
            match hex_value h, hex_value l with
            | Some h, Some l => String (ascii_of_N (16 * h + l)) (decodeGrpcMessageUnchecked msg'')
            | _, _ => String c (decodeGrpcMessageUnchecked msg')
            end
        | _ => String c (decodeGrpcMessageUnchecked msg')
        end
      else String c (decodeGrpcMessageUnchecked msg')
  end.
(** There is a percent sign with two bytes behind it. *)
Fixpoint has_escape (msg : string) : bool :=
  match msg with
  | String c ((String _ (String _ _)) as msg') => Ascii.eqb c "%" || has_escape msg'
  | _ => false
  end.
Definition decodeGrpcMessage (msg : string) : string :=
  if has_escape msg then decodeGrpcMessageUnchecked msg else msg.

(** The header fields [grpc-status] and [grpc-message], as the server writes them and the client
    reads them. *)
Definition writeStatus (st : rpc_error) : rpc_error :=
  {| rpc_code := rpc_code st; rpc_msg := encodeGrpcMessage (rpc_msg st) |}.
Definition operateHeaders (hf : rpc_error) : rpc_error :=
  {| rpc_code := rpc_code hf; rpc_msg := decodeGrpcMessage (rpc_msg hf) |}.

(** ** Services *)

(** [strings.LastIndex] with a byte, and the parts before and after it. *)
Fixpoint split_last (c : ascii) (s : string) : option (string * string) :=
  match s with
  | EmptyString => None
  | String x s' =>
      match split_last c s' with
      | Some (a, b) => Some (String x a, b)
      | None => if Ascii.eqb x c then Some ("", s') else None
      end
  end.

Section server.
(** The state of the process that serves, what a handler may return as [interface{}], and the
    registered implementations. *)
Context {St Any Srv : Type}.
Context (describe : wire_error → string).

Inductive outcome : Type :=
| Returned (r : result app_error Any)
| Panicked.

Record UnaryServerInfo : Type := { info_Server : Srv; info_FullMethod : string }.
Definition UnaryHandler : Type := Any → St → outcome * St.
Definition UnaryServerInterceptor : Type := Any → UnaryServerInfo → UnaryHandler → St → outcome * St.

(** [dec func(interface{}) error], which fills a new message of any type. *)
Definition Decoder : Type := ∀ M, ProtoMessage M → result app_error M.
Definition methodHandler : Type := Srv → Decoder → option UnaryServerInterceptor → St → outcome * St.

Record MethodDesc : Type := { MethodName : string; Handler : methodHandler }.
Record ServiceDesc : Type := { ServiceName : string; Methods : list MethodDesc }.

Record serviceInfo : Type := { serviceImpl : Srv; methods : gmap string methodHandler }.
Record Server : Type := {
  services : gmap string serviceInfo;
  unaryInt : option UnaryServerInterceptor
}.

(** [register]; a second registration of a service is fatal. *)
Definition RegisterService (sd : ServiceDesc) (ss : Srv) (s : Server) : option Server :=
  if has_key (ServiceName sd) (services s) then None
  else
    let info := {| serviceImpl := ss;
                   methods := foldl (λ m d, <[MethodName d := Handler d]> m) ∅ (Methods sd) |} in
    Some {| services := <[ServiceName sd := info]> (services s); unaryInt := unaryInt s |}.

(** ** The server *)

Definition defaultServerMaxReceiveMessageSize : Z := 4194304.
Definition maxSendMessageSize : Z := 2147483647.

(** [recvMsg]: the limit on the length of a message. *)
Definition check_received (max : Z) (b : string) : result rpc_error string :=
  if (max <? len b)%Z then
    Err (status_Errorf ResourceExhausted
      ("grpc: received message larger than max (" +:+ fmt_int (len b) +:+ " vs. " +:+ fmt_int max +:+ ")"))
  else Ok b.

(** [encode], then the limit on the length; [prefix] is that of the message in the source. *)
Definition check_sent (prefix : string) (b : result wire_error string) : result rpc_error string :=
  match b with
  | Err e => Err (status_Errorf CodeInternal ("grpc: error while marshaling: " +:+ describe e))
  | Ok b =>
      if (4294967295 <? len b)%Z then
        Err (status_Errorf ResourceExhausted ("grpc: message too large (" +:+ fmt_int (len b) +:+ " bytes)"))
      else if (maxSendMessageSize <? len b)%Z then
        Err (status_Errorf ResourceExhausted
          (prefix +:+ "trying to send message larger than max (" +:+ fmt_int (len b) +:+ " vs. " +:+
           fmt_int maxSendMessageSize +:+ ")"))
      else Ok b
  end.

Context (marshal_any : Any → result wire_error string).

Definition decoder (d : string) : Decoder := λ M _,
  match codec_Unmarshal d with
  | Ok m => Ok m
  | Err e => Err (AppError (grpcError CodeInternal ("grpc: error unmarshalling request: " +:+ describe e)))
  end.

(** [processUnaryRPC]: the header fields of a status or the message of the answer; [None] when the
    handler panics, which ends the process. *)
Definition processUnaryRPC (s : Server) (info : serviceInfo) (md : methodHandler) (data : string) (st : St) :
    option (result rpc_error string) * St :=
  match check_received defaultServerMaxReceiveMessageSize data with
  | Err e => (Some (Err (writeStatus e)), st)
  | Ok d =>
      let '(out, st') := md (serviceImpl info) (decoder d) (unaryInt s) st in
      (match out with
       | Panicked => None
       | Returned (Err appErr) => Some (Err (writeStatus (status_of appErr)))
       | Returned (Ok reply) =>
           Some match check_sent "grpc: " (marshal_any reply) with Err e => Err (writeStatus e) | Ok b => Ok b end
       end, st')
  end.

(** [handleStream]. *)
Definition handleStream (s : Server) (stream_Method data : string) (st : St) :
    option (result rpc_error string) * St :=
  let sm := match stream_Method with
            | String c rest => if Ascii.eqb c "/" then rest else stream_Method
            | EmptyString => stream_Method
            end in
  match split_last "/" sm with
  | None => (Some (Err (writeStatus (status_Errorf Unimplemented ("malformed method name: " +:+ quote stream_Method)))), st)
  | Some (service, method) =>
      match services s !! service with
      | Some info =>
          match methods info !! method with
          | Some md => processUnaryRPC s info md data st
          | None =>
              (Some (Err (writeStatus (status_Errorf Unimplemented
                 ("unknown method " +:+ method +:+ " for service " +:+ service)))), st)
          end
      | None => (Some (Err (writeStatus (status_Errorf Unimplemented ("unknown service " +:+ service)))), st)
      end
  end.

(** ** The client *)

(** What the network does to a call: whether the request arrives, whether the answer arrives, and
    the status that the client reports when one does not. *)
Record fate : Type := { delivered : bool; answered : bool; failure : rpc_error }.

(** [ClientConn.Invoke] on a connection to the server [s]: [SendMsg] and [RecvMsg]. *)
Definition Invoke (s : Server) (order : list string) (f : fate) {Req Reply}
    `{ProtoMessage Req, ProtoMessage Reply} (method : string) (args : Req) (st : St) :
    result rpc_error Reply * St :=
  match check_sent "" (codec_Marshal order args) with
  | Err e => (Err e, st)
  | Ok b =>
      if negb (delivered f) then (Err (failure f), st)
      else
        let '(answer, st') := handleStream s method b st in
        (if negb (answered f) then Err (failure f)
         else
           match answer with
           | None => Err (failure f)
           | Some (Err e) =>
               if bool_decide (rpc_code e = CodeOK) then
                 Err (status_Errorf CodeInternal
                   "cardinality violation: received no response message from non-server-streaming RPC")
               else Err (operateHeaders e)
           | Some (Ok d) =>
               match check_received defaultServerMaxReceiveMessageSize d with
               | Err e => Err e
               | Ok d =>
                   match codec_Unmarshal d with
                   | Ok m => Ok m
                   | Err e =>
                       Err (status_Errorf CodeInternal
                         ("grpc: failed to unmarshal the received message: " +:+ describe e))
                   end
               end
           end, st')
  end.
End server.

(** ** Lemmas *)

Lemma split_last_app c a b :
  ¬ (∃ b1 b2, b = b1 +:+ String c b2) → split_last c (a +:+ String c b) = Some (a, b).
Proof.
  intros Hb. assert (∀ b, ¬ (∃ b1 b2, b = b1 +:+ String c b2) → split_last c b = None) as Hnone.
  { clear. intros b. induction b as [|x b IH]; [done|]. intros Hb. cbn. rewrite IH.
    - destruct (Ascii.eqb_spec x c) as [->|]; [|done]. destruct Hb. by exists "", b.
    - intros (b1 & b2 & ->). apply Hb. by exists (String x b1), b2. }
  induction a as [|x a IH].
  - rewrite str_nil_app. cbn. by rewrite (Hnone b Hb), Ascii.eqb_refl.
  - rewrite str_app_cons. cbn. by rewrite IH.
Qed.

(** A string with every byte that is not part of a valid rune replaced. *)
Fixpoint repaired_from (inside : nat) (msg : string) : string :=
  match msg with
  | EmptyString => ""
  | String c msg' =>
      match inside with
      | S n => String c (repaired_from n msg')
      | 0 =>
          match DecodeRuneInString c msg' with
          | Some n => String c (repaired_from n msg')
          | None => replacement +:+ repaired_from 0 msg'
          end
      end
  end.
Definition repaired (msg : string) : string := repaired_from 0 msg.

Lemma repaired_valid_from s : ∀ pending, utf8_from pending s = true →
  match pending with
  | None => repaired_from 0 s = s
  | Some (lo, hi, more) => follows lo hi more s = true ∧ repaired_from (S more) s = s
  end.
Proof.
  induction s as [|c s IH]; intros [[[lo hi] more]|] Hu; cbn [utf8_from follows repaired_from] in *; try done.
  - destruct (_ || _); [done|]. apply IH in Hu. destruct more as [|more]; cbn [negb andb].
    + by rewrite Hu.
    + destruct Hu as [-> ->]. done.
  - unfold DecodeRuneInString. destruct (_ <? _)%N; [by rewrite (IH None Hu)|].
    destruct (utf8_lead _) as [[[lo hi] more]|]; [|done]. destruct (IH _ Hu) as [-> ->]. done.
Qed.
Lemma repaired_valid s : utf8_ValidString s = true → repaired s = s.
Proof. apply (repaired_valid_from s None). Qed.

Lemma decode_percent c r :
  decodeGrpcMessageUnchecked (percent c +:+ r) = String c (decodeGrpcMessageUnchecked r).
Proof. destruct c as [[] [] [] [] [] [] [] []]; reflexivity. Qed.
Lemma decode_plain c r :
  plain_byte c = true → decodeGrpcMessageUnchecked (String c r) = String c (decodeGrpcMessageUnchecked r).
Proof.
  unfold plain_byte. rewrite andb_true_iff, negb_true_iff. intros [_ Hc].
  cbn [decodeGrpcMessageUnchecked]. by rewrite Hc.
Qed.

Lemma decode_encode_unchecked msg inside :
  decodeGrpcMessageUnchecked (encodeGrpcMessageUnchecked inside msg) = repaired_from inside msg.
Proof.
  revert inside. induction msg as [|c msg IH]; intros inside; [done|].
  cbn [encodeGrpcMessageUnchecked repaired_from]. destruct inside as [|n]; [|by rewrite decode_percent, IH].
  destruct (DecodeRuneInString c msg) as [[|n]|].
  - destruct (plain_byte c) eqn:E; [|by rewrite decode_percent, IH].
    by rewrite str_app_cons, str_nil_app, decode_plain, IH.
  - by rewrite decode_percent, IH.
  - cbn [percent_all replacement]. rewrite <-!str_app_assoc, !decode_percent, str_nil_app, IH. done.
Qed.

Lemma decode_unescaped msg : has_escape msg = false → decodeGrpcMessageUnchecked msg = msg.
Proof.
  induction msg as [|c msg IH]; [done|]. cbn [has_escape decodeGrpcMessageUnchecked].
  destruct msg as [|h [|l msg]]; [by destruct (Ascii.eqb c "%")| |].
  - intros _. destruct (Ascii.eqb c "%"); by rewrite IH.
  - intros [-> Hm]%orb_false_iff. by rewrite IH.
Qed.
Lemma all_plain_unescaped msg : all_plain msg = true → has_escape msg = false ∧ repaired msg = msg.
Proof.
  induction msg as [|c msg IH]; [done|]. cbn [all_plain]. intros [Hc Hm]%andb_true_iff.
  apply IH in Hm as [He Hr]. unfold plain_byte in Hc. apply andb_true_iff in Hc as [Hc Hp%negb_true_iff]. split.
  - destruct msg as [|h [|l msg]]; [done|done|]. cbn [has_escape] in *. by rewrite Hp.
  - unfold repaired, between in *. cbn [repaired_from]. apply andb_true_iff in Hc as [_ Hc%N.leb_le].
    unfold DecodeRuneInString. destruct (N.ltb_spec (N_of_ascii c) 128) as [_|Hge]; [by rewrite Hr|].
    change (N_of_ascii "~") with 126%N in Hc. lia.
Qed.

(** The client reads the message that the server wrote, with invalid bytes replaced. *)
Lemma decode_encode msg : decodeGrpcMessage (encodeGrpcMessage msg) = repaired msg.
Proof.
  unfold encodeGrpcMessage. destruct (all_plain msg) eqn:E.
  - apply all_plain_unescaped in E as [He Hr]. unfold decodeGrpcMessage. by rewrite He.
  - unfold repaired, decodeGrpcMessage. rewrite <-(decode_encode_unchecked msg 0).
    destruct (has_escape _) eqn:E'; [done|]. by rewrite decode_unescaped.
Qed.

Definition repaired_status (st : rpc_error) : rpc_error :=
  {| rpc_code := rpc_code st; rpc_msg := repaired (rpc_msg st) |}.
Lemma status_travels st : operateHeaders (writeStatus st) = repaired_status st.
Proof. unfold operateHeaders, writeStatus, repaired_status. cbn. by rewrite decode_encode. Qed.

Example grpc_messages :
  encodeGrpcMessage "50% done, Zürich" = "50%25 done, Z%C3%BCrich"%string ∧
  decodeGrpcMessage "50%25 done, Z%C3%BCrich" = "50% done, Zürich"%string ∧
  encodeGrpcMessage (String (ascii_of_N 195) "x") = "%EF%BF%BDx"%string.
Proof. by vm_compute. Qed.

(** A message that travels: its enums are int32, its strings valid UTF-8, and it is not longer than
    what a server or a client accepts. *)
Definition travels {M} `{ProtoMessage M} (order : list string) (m : M) : Prop :=
  fields_range descriptor (to_fields m) ∧ fields_valid descriptor (to_fields m) ∧
  ∀ b, codec_Marshal order m = Ok b → (len b ≤ defaultServerMaxReceiveMessageSize)%Z.

(** The codec of a message. *)
Lemma codec_roundtrip {M} `{ProtoMessageLaws M} order (m : M) b :
  fields_range descriptor (to_fields m) → codec_Marshal order m = Ok b → (len b < 2 ^ 63)%Z →
  (∃ rs, encodes b rs) ∧ codec_Unmarshal b = Ok m.
Proof.
  intros Hr Hb Hlen. unfold codec_Unmarshal, proto_Unmarshal.
  destruct (pointer_roundtrip order _ DefaultRecursionLimit (to_fields m) b) as [He Hu];
    [apply descriptor_numbered|done|apply descriptor_depth|done|done|].
  split; [done|]. rewrite Hu. cbn. by rewrite of_to_fields.
Qed.
Lemma codec_Marshal_ok {M} `{ProtoMessage M} order (m : M) :
  is_ok (codec_Marshal order m) = true ↔ fields_valid descriptor (to_fields m).
Proof. apply (proj2 (wire_ok order)). Qed.

(** Such a message is written, passes the limits, and is read back. *)
Lemma travels_roundtrip {M} `{ProtoMessageLaws M} order (m : M) :
  travels order m → ∃ b, codec_Marshal order m = Ok b ∧
    (len b ≤ defaultServerMaxReceiveMessageSize)%Z ∧ codec_Unmarshal b = Ok m.
Proof.
  intros (Hr & Hv%(codec_Marshal_ok order) & Hlen).
  destruct (codec_Marshal order m) as [b|e] eqn:E; [|done]. specialize (Hlen b eq_refl).
  exists b. split; [done|]. split; [done|]. eapply codec_roundtrip; [done|done|].
  unfold defaultServerMaxReceiveMessageSize in Hlen. lia.
Qed.

Lemma check_sent_Ok describe prefix b :
  (len b ≤ defaultServerMaxReceiveMessageSize)%Z → check_sent describe prefix (Ok b) = Ok b.
Proof.
  unfold check_sent, maxSendMessageSize, defaultServerMaxReceiveMessageSize. intros Hb.
  destruct (Z.ltb_spec 4294967295 (len b)); [lia|]. destruct (Z.ltb_spec 2147483647 (len b)); [lia|done].
Qed.
Lemma check_received_Ok max b : (len b ≤ max)%Z → check_received max b = Ok b.
Proof. unfold check_received. intros Hb. destruct (Z.ltb_spec max (len b)); [lia|done]. Qed.

(** ** The codec *)

(** C29: Round trip on the wire. A message of the driver protocol, with enum fields that hold any
    int32 and without unknown fields, is encoded exactly when its strings are valid UTF-8, in
    whatever order Go visits its maps, and what is encoded decodes to the same message: no field is
    lost, an unset message stays apart from an empty one, negative and unknown enum values survive,
    and lists and maps keep their entries. Records of fields that the message does not declare, as a
    newer peer may append, leave the declared fields as they are; they are kept as the message's
    unknown fields, and the message that holds them is encoded with the same fields and those
    records behind them. The length limit is that of a Go slice. *)
Theorem wire_roundtrip {M} `{ProtoMessageLaws M} order (m : M) :
  fields_range descriptor (to_fields m) →
  (is_ok (codec_Marshal order m) = true ↔ fields_valid descriptor (to_fields m)) ∧
  ∀ b, codec_Marshal order m = Ok b → (len b < 2 ^ 63)%Z →
    codec_Unmarshal b = Ok m ∧
    ∀ u rs, encodes u rs →
      Forall (λ r : Z * wire_value, Forall (λ nk : field_id * kind, fd_Number nk.1 ≠ r.1) descriptor) rs →
      ∃ t, proto_Unmarshal descriptor (b +:+ u) = Ok t ∧ of_fields t = m ∧
        unknownFields descriptor t = raw_bytes rs ∧
        proto_Marshal order descriptor t = Ok (b +:+ raw_bytes rs).
Proof.
  intros Hr. split; [apply codec_Marshal_ok|]. intros b Hb Hlen.
  destruct (pointer_roundtrip order _ DefaultRecursionLimit (to_fields m) b) as [[rs1 He1] Hu];
    [apply descriptor_numbered|done|apply descriptor_depth|done|done|].
  split; [by apply (codec_roundtrip order m b)|]. intros u rs He Hunk.
  exists (append_unknown descriptor (raw_bytes rs) (to_fields m)). split_and!.
  - by eapply unknown_records.
  - by rewrite of_unknown, of_to_fields.
  - by rewrite unknown_append, to_known.
  - by apply marshal_unknown.
Qed.

(** A request with an enum value that is not declared, and its bytes. *)
Definition demo_wire_request : DriverCreateBucketRequest := {|
  createReq_Name := "bc-1";
  createReq_Protocols := [{| proto_Type := ObjectProtocol_S3 |}; {| proto_Type := -2 |}];
  createReq_Parameters := {["tier" := "gold"]} |}.
Definition demo_wire_bytes : string :=
  match codec_Marshal [] demo_wire_request with Ok b => b | Err _ => "" end.

(** A record of a field 9 that the request does not have. *)
Definition demo_unknown : string := AppendTag 9 BytesType +:+ AppendBytes "new".

Lemma wire_roundtrip_witness :
  String.length demo_wire_bytes = 37 ∧ codec_Unmarshal demo_wire_bytes = Ok demo_wire_request ∧
  ∃ t, proto_Unmarshal descriptor (demo_wire_bytes +:+ demo_unknown) = Ok t ∧
    of_fields t = demo_wire_request ∧ unknownFields descriptor t = demo_unknown ∧
    proto_Marshal [] descriptor t = Ok (demo_wire_bytes +:+ demo_unknown).
Proof.
  split; [vm_compute; reflexivity|].
  destruct (wire_roundtrip [] demo_wire_request) as [_ H]; [repeat constructor|].
  destruct (H demo_wire_bytes) as [Hu Hx]; [vm_compute; reflexivity|vm_compute; reflexivity|].
  split; [exact Hu|].
  apply (Hx demo_unknown [(9%Z, Wire (WBytes "new") demo_unknown)]).
  - apply encodes_bytes; [by split|done].
  - repeat constructor; discriminate.
Defined.
