(* ===== verification/CosiGrpc.v ===== *)
(** * The generated clients and servers of the driver protocol

    Models [src/proto/cosi_grpc.pb.go] on the gRPC library of [Grpc]: the clients, which the
    Sidecar calls, the handlers and service descriptors, which a driver registers, and the servers
    that implement nothing. A method of a server acts on the state of the driver's process. *)

From Stdlib Require Import Ascii.
From stdpp Require Import base gmap strings list.
From S2P Require Import Prelude GoErrors ProtoTypes ProtoDesc ProtoWire CosiDesc Grpc.

#[local] Set Warnings "-register-all".

Definition Identity_DriverGetInfo_FullMethodName : string := "/sigs.k8s.io.cosi.v1alpha2.Identity/DriverGetInfo".
Definition Provisioner_DriverCreateBucket_FullMethodName : string := "/sigs.k8s.io.cosi.v1alpha2.Provisioner/DriverCreateBucket".
Definition Provisioner_DriverGetExistingBucket_FullMethodName : string := "/sigs.k8s.io.cosi.v1alpha2.Provisioner/DriverGetExistingBucket".
Definition Provisioner_DriverDeleteBucket_FullMethodName : string := "/sigs.k8s.io.cosi.v1alpha2.Provisioner/DriverDeleteBucket".
Definition Provisioner_DriverGrantBucketAccess_FullMethodName : string := "/sigs.k8s.io.cosi.v1alpha2.Provisioner/DriverGrantBucketAccess".
Definition Provisioner_DriverRevokeBucketAccess_FullMethodName : string := "/sigs.k8s.io.cosi.v1alpha2.Provisioner/DriverRevokeBucketAccess".

(** What the handlers pass as [interface{}]. *)
Inductive any_message : Type :=
| AnyDriverGetInfoRequest (m : DriverGetInfoRequest)
| AnyDriverGetInfoResponse (m : DriverGetInfoResponse)
| AnyDriverCreateBucketRequest (m : DriverCreateBucketRequest)
| AnyDriverCreateBucketResponse (m : DriverCreateBucketResponse)
| AnyDriverGetExistingBucketRequest (m : DriverGetExistingBucketRequest)
| AnyDriverGetExistingBucketResponse (m : DriverGetExistingBucketResponse)
| AnyDriverDeleteBucketRequest (m : DriverDeleteBucketRequest)
| AnyDriverDeleteBucketResponse (m : DriverDeleteBucketResponse)
| AnyDriverGrantBucketAccessRequest (m : DriverGrantBucketAccessRequest)
| AnyDriverGrantBucketAccessResponse (m : DriverGrantBucketAccessResponse)
| AnyDriverRevokeBucketAccessRequest (m : DriverRevokeBucketAccessRequest)
| AnyDriverRevokeBucketAccessResponse (m : DriverRevokeBucketAccessResponse).

Definition marshal_any (order : list string) (a : any_message) : result wire_error string :=
  match a with
  | AnyDriverGetInfoRequest m => codec_Marshal order m
  | AnyDriverGetInfoResponse m => codec_Marshal order m
  | AnyDriverCreateBucketRequest m => codec_Marshal order m
  | AnyDriverCreateBucketResponse m => codec_Marshal order m
  | AnyDriverGetExistingBucketRequest m => codec_Marshal order m
  | AnyDriverGetExistingBucketResponse m => codec_Marshal order m
  | AnyDriverDeleteBucketRequest m => codec_Marshal order m
  | AnyDriverDeleteBucketResponse m => codec_Marshal order m
  | AnyDriverGrantBucketAccessRequest m => codec_Marshal order m
  | AnyDriverGrantBucketAccessResponse m => codec_Marshal order m
  | AnyDriverRevokeBucketAccessRequest m => codec_Marshal order m
  | AnyDriverRevokeBucketAccessResponse m => codec_Marshal order m
  end.

(** The type assertions of the handlers. *)
Definition as_DriverGetInfoRequest (a : any_message) : option DriverGetInfoRequest :=
  match a with AnyDriverGetInfoRequest m => Some m | _ => None end.
Definition as_DriverCreateBucketRequest (a : any_message) : option DriverCreateBucketRequest :=
  match a with AnyDriverCreateBucketRequest m => Some m | _ => None end.
Definition as_DriverGetExistingBucketRequest (a : any_message) : option DriverGetExistingBucketRequest :=
  match a with AnyDriverGetExistingBucketRequest m => Some m | _ => None end.
Definition as_DriverDeleteBucketRequest (a : any_message) : option DriverDeleteBucketRequest :=
  match a with AnyDriverDeleteBucketRequest m => Some m | _ => None end.
Definition as_DriverGrantBucketAccessRequest (a : any_message) : option DriverGrantBucketAccessRequest :=
  match a with AnyDriverGrantBucketAccessRequest m => Some m | _ => None end.
Definition as_DriverRevokeBucketAccessRequest (a : any_message) : option DriverRevokeBucketAccessRequest :=
  match a with AnyDriverRevokeBucketAccessRequest m => Some m | _ => None end.

(** ** Servers *)

Section servers.
Context {St : Type}.

(** A method with its effect on the state of the process. *)
Definition method (Req Resp : Type) : Type := Req → St → result app_error Resp * St.

Record IdentityServer : Type := {
  srv_DriverGetInfo : method DriverGetInfoRequest DriverGetInfoResponse
}.
Record ProvisionerServer : Type := {
  srv_DriverCreateBucket : method DriverCreateBucketRequest DriverCreateBucketResponse;
  srv_DriverGetExistingBucket : method DriverGetExistingBucketRequest DriverGetExistingBucketResponse;
  srv_DriverDeleteBucket : method DriverDeleteBucketRequest DriverDeleteBucketResponse;
  srv_DriverGrantBucketAccess : method DriverGrantBucketAccessRequest DriverGrantBucketAccessResponse;
  srv_DriverRevokeBucketAccess : method DriverRevokeBucketAccessRequest DriverRevokeBucketAccessResponse
}.

Definition unimplemented {Req Resp} (name : string) : method Req Resp := λ _ st,
  (Err (AppError (grpcError Unimplemented ("method " +:+ name +:+ " not implemented"))), st).
Definition UnimplementedIdentityServer : IdentityServer := {|
  srv_DriverGetInfo := unimplemented "DriverGetInfo" |}.
Definition UnimplementedProvisionerServer : ProvisionerServer := {|
  srv_DriverCreateBucket := unimplemented "DriverCreateBucket";
  srv_DriverGetExistingBucket := unimplemented "DriverGetExistingBucket";
  srv_DriverDeleteBucket := unimplemented "DriverDeleteBucket";
  srv_DriverGrantBucketAccess := unimplemented "DriverGrantBucketAccess";
  srv_DriverRevokeBucketAccess := unimplemented "DriverRevokeBucketAccess" |}.

(** The registered implementations, [srv interface{}]. *)
Inductive any_server : Type :=
| AnyIdentityServer (srv : IdentityServer)
| AnyProvisionerServer (srv : ProvisionerServer).
Definition as_IdentityServer (srv : any_server) : option IdentityServer :=
  match srv with AnyIdentityServer srv => Some srv | _ => None end.
Definition as_ProvisionerServer (srv : any_server) : option ProvisionerServer :=
  match srv with AnyProvisionerServer srv => Some srv | _ => None end.

(** ** Handlers *)

Abbreviation outcome := (outcome (Any := any_message)).
Abbreviation methodHandler := (methodHandler (St := St) (Any := any_message) (Srv := any_server)).

(** The body that the handlers share: [call] is the assertion on the server with the method. *)
Definition unary_handler {Req Resp} `{ProtoMessage Req} (FullMethod : string)
    (call : any_server → option (method Req Resp))
    (as_request : any_message → option Req) (any_request : Req → any_message)
    (any_response : Resp → any_message) : methodHandler :=
  λ srv dec interceptor st,
    match dec Req _ with
    | Err err => (Returned (Err err), st)
    | Ok in_ =>
        let invoke (req : Req) (st : St) : outcome * St :=
          match call srv with
          | None => (Panicked, st)
          | Some f =>
              let '(r, st') := f req st in
              (Returned (match r with Ok m => Ok (any_response m) | Err e => Err e end), st')
          end in
        match interceptor with
        | None => invoke in_ st
        | Some intercept =>
            intercept (any_request in_) {| info_Server := srv; info_FullMethod := FullMethod |}
              (λ req st, match as_request req with Some q => invoke q st | None => (Panicked, st) end) st
        end
    end.

Definition _Identity_DriverGetInfo_Handler : methodHandler :=
  unary_handler Identity_DriverGetInfo_FullMethodName
    (λ srv, srv_DriverGetInfo <$> as_IdentityServer srv) as_DriverGetInfoRequest AnyDriverGetInfoRequest AnyDriverGetInfoResponse.
Definition _Provisioner_DriverCreateBucket_Handler : methodHandler :=
  unary_handler Provisioner_DriverCreateBucket_FullMethodName
    (λ srv, srv_DriverCreateBucket <$> as_ProvisionerServer srv) as_DriverCreateBucketRequest AnyDriverCreateBucketRequest AnyDriverCreateBucketResponse.
Definition _Provisioner_DriverGetExistingBucket_Handler : methodHandler :=
  unary_handler Provisioner_DriverGetExistingBucket_FullMethodName
    (λ srv, srv_DriverGetExistingBucket <$> as_ProvisionerServer srv) as_DriverGetExistingBucketRequest AnyDriverGetExistingBucketRequest AnyDriverGetExistingBucketResponse.
Definition _Provisioner_DriverDeleteBucket_Handler : methodHandler :=
  unary_handler Provisioner_DriverDeleteBucket_FullMethodName
    (λ srv, srv_DriverDeleteBucket <$> as_ProvisionerServer srv) as_DriverDeleteBucketRequest AnyDriverDeleteBucketRequest AnyDriverDeleteBucketResponse.
Definition _Provisioner_DriverGrantBucketAccess_Handler : methodHandler :=
  unary_handler Provisioner_DriverGrantBucketAccess_FullMethodName
    (λ srv, srv_DriverGrantBucketAccess <$> as_ProvisionerServer srv) as_DriverGrantBucketAccessRequest AnyDriverGrantBucketAccessRequest AnyDriverGrantBucketAccessResponse.
Definition _Provisioner_DriverRevokeBucketAccess_Handler : methodHandler :=
  unary_handler Provisioner_DriverRevokeBucketAccess_FullMethodName
    (λ srv, srv_DriverRevokeBucketAccess <$> as_ProvisionerServer srv) as_DriverRevokeBucketAccessRequest AnyDriverRevokeBucketAccessRequest AnyDriverRevokeBucketAccessResponse.

Definition Identity_ServiceDesc : ServiceDesc (St := St) (Any := any_message) (Srv := any_server) := {|
  ServiceName := "sigs.k8s.io.cosi.v1alpha2.Identity";
  Methods := [
    {| MethodName := "DriverGetInfo"; Handler := _Identity_DriverGetInfo_Handler |}] |}.
Definition Provisioner_ServiceDesc : ServiceDesc (St := St) (Any := any_message) (Srv := any_server) := {|
  ServiceName := "sigs.k8s.io.cosi.v1alpha2.Provisioner";
  Methods := [
    {| MethodName := "DriverCreateBucket"; Handler := _Provisioner_DriverCreateBucket_Handler |};
    {| MethodName := "DriverGetExistingBucket"; Handler := _Provisioner_DriverGetExistingBucket_Handler |};
    {| MethodName := "DriverDeleteBucket"; Handler := _Provisioner_DriverDeleteBucket_Handler |};
    {| MethodName := "DriverGrantBucketAccess"; Handler := _Provisioner_DriverGrantBucketAccess_Handler |};
    {| MethodName := "DriverRevokeBucketAccess"; Handler := _Provisioner_DriverRevokeBucketAccess_Handler |}] |}.

Abbreviation Server := (Server (St := St) (Any := any_message) (Srv := any_server)).
Definition RegisterIdentityServer (s : Server) (srv : IdentityServer) : option Server :=
  RegisterService Identity_ServiceDesc (AnyIdentityServer srv) s.
Definition RegisterProvisionerServer (s : Server) (srv : ProvisionerServer) : option Server :=
  RegisterService Provisioner_ServiceDesc (AnyProvisionerServer srv) s.

(** ** Clients *)

(** [grpc.ClientConnInterface]. *)
Definition ClientConnInterface : Type :=
  ∀ Req Reply, ProtoMessage Req → ProtoMessage Reply → string → Req → St → result rpc_error Reply * St.

(** The body that the clients share: the reply is returned only without an error. *)
Definition unary_client {Req Reply} `{ProtoMessage Req, ProtoMessage Reply} (cc : ClientConnInterface)
    (FullMethod : string) (in_ : Req) (st : St) : result rpc_error Reply * St :=
  match cc Req Reply _ _ FullMethod in_ st with
  | (Err err, st') => (Err err, st')
  | (Ok out, st') => (Ok out, st')
  end.

Definition identityClient_DriverGetInfo (cc : ClientConnInterface) (in_ : DriverGetInfoRequest) (st : St) :
    result rpc_error DriverGetInfoResponse * St :=
  unary_client cc Identity_DriverGetInfo_FullMethodName in_ st.
Definition provisionerClient_DriverCreateBucket (cc : ClientConnInterface) (in_ : DriverCreateBucketRequest) (st : St) :
    result rpc_error DriverCreateBucketResponse * St :=
  unary_client cc Provisioner_DriverCreateBucket_FullMethodName in_ st.
Definition provisionerClient_DriverGetExistingBucket (cc : ClientConnInterface) (in_ : DriverGetExistingBucketRequest) (st : St) :
    result rpc_error DriverGetExistingBucketResponse * St :=
  unary_client cc Provisioner_DriverGetExistingBucket_FullMethodName in_ st.
Definition provisionerClient_DriverDeleteBucket (cc : ClientConnInterface) (in_ : DriverDeleteBucketRequest) (st : St) :
    result rpc_error DriverDeleteBucketResponse * St :=
  unary_client cc Provisioner_DriverDeleteBucket_FullMethodName in_ st.
Definition provisionerClient_DriverGrantBucketAccess (cc : ClientConnInterface) (in_ : DriverGrantBucketAccessRequest) (st : St) :
    result rpc_error DriverGrantBucketAccessResponse * St :=
  unary_client cc Provisioner_DriverGrantBucketAccess_FullMethodName in_ st.
Definition provisionerClient_DriverRevokeBucketAccess (cc : ClientConnInterface) (in_ : DriverRevokeBucketAccessRequest) (st : St) :
    result rpc_error DriverRevokeBucketAccessResponse * St :=
  unary_client cc Provisioner_DriverRevokeBucketAccess_FullMethodName in_ st.
End servers.

(** ** A call of a driver *)

Section calls.
Context {St : Type}.
Context (describe : wire_error → string) (order_req order_rep : list string).

Abbreviation grpc_Server := (Server (St := St) (Any := any_message) (Srv := any_server (St := St))).

(** The connection to a server, for a call with the given fate. *)
Definition conn (s : grpc_Server) (f : fate) : ClientConnInterface (St := St) :=
  λ Req Reply _ _ FullMethod args st,
    Invoke describe (marshal_any order_rep) s order_req f FullMethod args st.

(** A driver registers its two servers, without interceptors. *)
Definition driver_server (identity : IdentityServer) (provisioner : ProvisionerServer) :
    option grpc_Server :=
  s ← RegisterIdentityServer {| services := ∅; unaryInt := None |} identity;
  RegisterProvisionerServer s provisioner.

(** The error of the client for an error of the server: its status, in which bytes of the message
    that are not valid UTF-8 are replaced. A status OK is no error of gRPC. *)
Definition client_error_of (e : app_error) : rpc_error :=
  let st := status_of e in
  if bool_decide (rpc_code st = CodeOK) then
    status_Errorf CodeInternal "cardinality violation: received no response message from non-server-streaming RPC"
  else repaired_status st.

(** The client's method is the server's method: when the request arrives and the messages can
    travel, the method runs once, on the very request, and the client returns its response or the
    status of its error; when the answer is lost, the method has run and the client reports the
    failure; when the request is lost, nothing has happened. *)
Definition reaches {Req Resp} `{ProtoMessage Req, ProtoMessage Resp}
    (client : fate → Req → St → result rpc_error Resp * St) (srv : method (St := St) Req Resp) : Prop :=
  ∀ f in_ st, travels order_req in_ →
    (delivered f = false → client f in_ st = (Err (failure f), st)) ∧
    (delivered f = true → (∀ out, (srv in_ st).1 = Ok out → travels order_rep out) →
      client f in_ st =
        (if answered f then
           match (srv in_ st).1 with Ok out => Ok out | Err e => Err (client_error_of e) end
         else Err (failure f), (srv in_ st).2)).

Lemma invoke_unary {Req Resp} `{ProtoMessageLaws Req, ProtoMessageLaws Resp} s service name rest info
    call as_request any_request (any_response : Resp → any_message) (srv : method (St := St) Req Resp) :
  let full := String "/" rest in
  split_last "/" rest = Some (service, name) →
  services s !! service = Some info →
  methods info !! name = Some (unary_handler full call as_request any_request any_response) →
  call (serviceImpl info) = Some srv → unaryInt s = None →
  (∀ out, marshal_any order_rep (any_response out) = codec_Marshal order_rep out) →
  reaches (λ f in_ st, unary_client (conn s f) full in_ st) srv.
Proof.
  intros full Hsplit Hinfo Hmd Hcall Hint Hany f in_ st Htr.
  destruct (travels_roundtrip order_req in_ Htr) as (b & Hb & Hlen & Hu).
  unfold unary_client, conn, Invoke. rewrite Hb, check_sent_Ok by done.
  split; intros Hdel; rewrite Hdel; cbn [negb]; [done|]. intros Hout.
  unfold handleStream, full. rewrite Ascii.eqb_refl, Hsplit, Hinfo, Hmd.
  unfold processUnaryRPC. rewrite check_received_Ok by done. unfold unary_handler, decoder.
  rewrite Hu, Hint, Hcall. destruct (srv in_ st) as [r st'] eqn:Er. cbn [fst snd] in *.
  destruct (answered f); cbn [negb]; [|done]. destruct r as [out|e].
  - rewrite Hany. destruct (travels_roundtrip order_rep out (Hout out eq_refl)) as (b' & -> & Hlen' & Hu').
    by rewrite check_sent_Ok, check_received_Ok, Hu' by done.
  - unfold client_error_of. cbn [rpc_code writeStatus].
    destruct (bool_decide (rpc_code (status_of e) = CodeOK)); [done|]. by rewrite status_travels.
Qed.

(** All six methods. *)
Definition driver_reached (s : grpc_Server) (identity : IdentityServer) (provisioner : ProvisionerServer) : Prop :=
  reaches (λ f, identityClient_DriverGetInfo (conn s f)) (srv_DriverGetInfo identity) ∧
  reaches (λ f, provisionerClient_DriverCreateBucket (conn s f)) (srv_DriverCreateBucket provisioner) ∧
  reaches (λ f, provisionerClient_DriverGetExistingBucket (conn s f)) (srv_DriverGetExistingBucket provisioner) ∧
  reaches (λ f, provisionerClient_DriverDeleteBucket (conn s f)) (srv_DriverDeleteBucket provisioner) ∧
  reaches (λ f, provisionerClient_DriverGrantBucketAccess (conn s f)) (srv_DriverGrantBucketAccess provisioner) ∧
  reaches (λ f, provisionerClient_DriverRevokeBucketAccess (conn s f)) (srv_DriverRevokeBucketAccess provisioner).

Lemma driver_server_reached identity provisioner s :
  driver_server identity provisioner = Some s → driver_reached s identity provisioner.
Proof. intros [= <-]. split_and!; by eapply invoke_unary. Qed.

(** The status of an error arrives unchanged when its message is valid UTF-8. *)
Lemma client_error_valid e :
  rpc_code (status_of e) ≠ CodeOK → utf8_ValidString (rpc_msg (status_of e)) = true →
  client_error_of e = status_of e.
Proof.
  intros Hc Hu. unfold client_error_of. rewrite bool_decide_eq_false_2 by done.
  unfold repaired_status. rewrite repaired_valid by done. by destruct (status_of e).
Qed.

(** C28: A call of the driver reaches it. A driver can register its two servers; then each of the six
    methods of the generated clients, on a connection to it, is the method of the server, for
    requests and responses that can travel: their strings are valid UTF-8, their enums int32, and
    they are at most four mebibytes long. The request is encoded, routed by its full method name,
    decoded and handed to that method, once, and the response comes back the same way. An error
    comes back as its gRPC status, with the code that the Sidecar's error scheme looks at and with
    its text, in which bytes that are not valid UTF-8 are replaced, so a text in valid UTF-8 comes
    back unchanged; an error with the status OK comes back as an internal one. A lost request leaves
    the driver untouched, and after a lost answer the driver has acted all the same. *)
Theorem calls_reach_the_driver identity provisioner :
  (∃ s, driver_server identity provisioner = Some s ∧ driver_reached s identity provisioner) ∧
  ∀ e, rpc_code (status_of e) ≠ CodeOK → utf8_ValidString (rpc_msg (status_of e)) = true →
    client_error_of e = status_of e.
Proof. split; [|apply client_error_valid]. eexists. split; [done|]. by apply driver_server_reached. Qed.

(** ** What a driver does not implement *)

(** A call of a service that is not registered is answered [Unimplemented]; nothing runs. *)
Lemma unregistered_service {Req Resp} `{ProtoMessageLaws Req, ProtoMessage Resp} s service name rest f (in_ : Req) st :
  split_last "/" rest = Some (service, name) → services s !! service = None →
  travels order_req in_ → delivered f = true → answered f = true →
  unary_client (Reply := Resp) (conn s f) (String "/" rest) in_ st =
    (Err (repaired_status (status_Errorf Unimplemented ("unknown service " +:+ service))), st).
Proof.
  intros Hsplit Hnone Htr Hdel Hans. destruct (travels_roundtrip order_req in_ Htr) as (b & Hb & Hlen & _).
  unfold unary_client, conn, Invoke. rewrite Hb, check_sent_Ok, Hdel by done. cbn [negb].
  unfold handleStream. rewrite Ascii.eqb_refl, Hsplit, Hnone, Hans. by rewrite <-status_travels.
Qed.

(** A driver that embeds the unimplemented server answers the same way. *)
Lemma unimplemented_delete identity s f (q : DriverDeleteBucketRequest) st :
  driver_server identity UnimplementedProvisionerServer = Some s →
  travels order_req q → delivered f = true → answered f = true →
  provisionerClient_DriverDeleteBucket (conn s f) q st =
    (Err (status_Errorf Unimplemented "method DriverDeleteBucket not implemented"), st).
Proof.
  intros Hs Hq Hdel Hans. destruct (driver_server_reached _ _ _ Hs) as (_ & _ & _ & Hd & _).
  destruct (Hd f q st Hq) as [_ H]. rewrite H by done. by rewrite Hans.
Qed.
End calls.
