(* ===== verification/Effects.v ===== *)
(** * Reconcilers as programs over an API server and a driver

    A reconciler is sequential Go code between calls to its environment: the
    Kubernetes API (through the controller-runtime client), the driver (through
    gRPC), the clock, and the runtime's choice of a map iteration order. A [prog] is
    that code, with one [Call] node per environment call.

    The environment is a parameter. [exec p tr a] holds when [p] can make exactly the
    calls of the trace [tr], with the answers recorded in it, and return [a]: any
    answer of the right type is allowed, so stale caches, conflicts, lost connections,
    other controllers acting between two calls and misbehaving drivers are all
    covered. [wp] is the program logic for statements over all such executions, and
    [interp] runs a program against a concrete environment. *)

From stdpp Require Import base gmap strings list.
From S2P Require Import Prelude GoErrors ApiTypes ProtoTypes.

(** ** Requests and their answers *)

Inductive req : Type :=
| GetClaim (key : NamespacedName)
| GetBucket (key : NamespacedName)
| GetBucketClass (key : NamespacedName)
| GetAccess (key : NamespacedName)
| GetAccessClass (key : NamespacedName)
| GetSecret (key : NamespacedName)
| ListAccesses (namespace : string)
| UpdateClaim (c : BucketClaim)
| UpdateBucket (b : Bucket)
| UpdateAccess (a : BucketAccess)
| UpdateSecret (s : Secret)
| StatusUpdateClaim (c : BucketClaim)
| StatusUpdateBucket (b : Bucket)
| StatusUpdateAccess (a : BucketAccess)
| CreateBucket (b : Bucket)
| CreateSecret (s : Secret)
| DeleteBucket (b : Bucket)
| DeleteSecret (s : Secret)
| DriverCreateBucket (r : DriverCreateBucketRequest)
| DriverGetExistingBucket (r : DriverGetExistingBucketRequest)
| DriverGrantBucketAccess (r : DriverGrantBucketAccessRequest)
| DriverRevokeBucketAccess (r : DriverRevokeBucketAccessRequest)
| TimeNow
| MapOrder.

(** A successful write answers with the object as the server stored it, which the
    client decodes into the caller's object. *)
Definition resp (r : req) : Type :=
  match r with
  | GetClaim _ => result client_error BucketClaim
  | GetBucket _ => result client_error Bucket
  | GetBucketClass _ => result client_error BucketClass
  | GetAccess _ => result client_error BucketAccess
  | GetAccessClass _ => result client_error BucketAccessClass
  | GetSecret _ => result client_error Secret
  | ListAccesses _ => result client_error (list BucketAccess)
  | UpdateClaim _ | StatusUpdateClaim _ => result client_error BucketClaim
  | UpdateBucket _ | StatusUpdateBucket _ | CreateBucket _ => result client_error Bucket
  | UpdateAccess _ | StatusUpdateAccess _ => result client_error BucketAccess
  | UpdateSecret _ | CreateSecret _ => result client_error Secret
  | DeleteBucket _ | DeleteSecret _ => result client_error unit
  | DriverCreateBucket _ => result rpc_error DriverCreateBucketResponse
  | DriverGetExistingBucket _ => result rpc_error DriverGetExistingBucketResponse
  | DriverGrantBucketAccess _ => result rpc_error DriverGrantBucketAccessResponse
  | DriverRevokeBucketAccess _ => result rpc_error unit
  | TimeNow => Z
  | MapOrder => list string
  end.

Inductive event : Type := Ev (r : req) (x : resp r).

Definition ev_req (e : event) : req := match e with Ev r _ => r end.

(** ** Programs *)

Inductive prog (A : Type) : Type :=
| Ret (a : A)
| Call (r : req) (k : resp r → prog A).

Arguments Ret {A} a.
Arguments Call {A} r k.

Fixpoint prog_bind {A B} (f : A → prog B) (p : prog A) : prog B :=
  match p with
  | Ret a => f a
  | Call r k => Call r (λ x, prog_bind f (k x))
  end.

#[export] Instance prog_mret : MRet prog := @Ret.
#[export] Instance prog_mbind : MBind prog := @prog_bind.

Definition perform (r : req) : prog (resp r) := Call r Ret.

(** The client's methods return Go errors. *)
Definition go_result {A} (x : result client_error A) : result error A :=
  match x with Ok a => Ok a | Err e => Err (of_client_error e) end.

Definition api {A} (p : prog (result client_error A)) : prog (result error A) :=
  x ← p; Ret (go_result x).

Definition rpc {A} (p : prog (result rpc_error A)) : prog (result error A) :=
  x ← p; Ret (match x with Ok a => Ok a | Err e => Err (of_rpc_error e) end).

Definition time_Now : prog Z := perform TimeNow.
Definition map_iteration : prog (list string) := perform MapOrder.

(** ** Executions *)

Fixpoint exec {A} (p : prog A) (tr : list event) (a : A) : Prop :=
  match p with
  | Ret b => tr = [] ∧ a = b
  | Call r k => ∃ x tr', tr = Ev r x :: tr' ∧ exec (k x) tr' a
  end.

(** ** Weakest preconditions

    [wp I p h Q]: started after the calls [h], every call [r] that [p] makes after the
    calls [h'] satisfies [I h' r], whatever the answers are, and [p] ends in a result
    that satisfies [Q] with the calls made so far. *)

Section wp.
Context {A : Type}.

Fixpoint wp (I : list event → req → Prop) (p : prog A) (h : list event)
    (Q : list event → A → Prop) : Prop :=
  match p with
  | Ret a => Q h a
  | Call r k => I h r ∧ ∀ x, wp I (k x) (h ++ [Ev r x]) Q
  end.

Lemma wp_mono (I J : list event → req → Prop) p h (Q R : list event → A → Prop) :
  (∀ h' r, I h' r → J h' r) → (∀ h' a, Q h' a → R h' a) →
  wp I p h Q → wp J p h R.
Proof.
  intros HI HQ. revert h. induction p as [a|r k IH]; intros h; simpl; [auto|].
  intros [Hr Hk]. eauto.
Qed.

(** The calls of [tr], made after [h], each satisfy [I]. *)
Definition guarded (I : list event → req → Prop) (h tr : list event) : Prop :=
  ∀ pre r x post, tr = pre ++ Ev r x :: post → I (h ++ pre) r.

Lemma wp_sound I p h Q tr a :
  wp I p h Q → exec p tr a → Q (h ++ tr) a ∧ guarded I h tr.
Proof.
  revert h tr. induction p as [b|r k IH]; intros h tr; simpl.
  - intros HQ [-> ->]. rewrite app_nil_r. split; [done|].
    intros pre r x post Heq. by destruct pre.
  - intros [Hr Hk] (x & tr' & -> & Hexec).
    destruct (IH x (h ++ [Ev r x]) tr' (Hk x) Hexec) as [HQ HG].
    rewrite <-app_assoc in HQ. split; [done|].
    intros [|e pre] r' x' post Heq.
    + rewrite app_nil_r. apply (f_equal (fmap ev_req)) in Heq.
      cbn in Heq. by injection Heq as <- _.
    + simpl in Heq. injection Heq as <- Heq.
      specialize (HG pre r' x' post Heq). by rewrite <-app_assoc in HG.
Qed.
End wp.

Lemma wp_bind {A B} I (p : prog A) (f : A → prog B) h Q :
  wp I (p ≫= f) h Q ↔ wp I p h (λ h' a, wp I (f a) h' Q).
Proof.
  revert h. induction p as [a|r k IH]; intros h; simpl; [done|].
  change (prog_bind f) with (mbind (M:=prog) f). by setoid_rewrite IH.
Qed.

(** Histories only grow. *)
Lemma wp_extends {A} I (p : prog A) h Q :
  wp I p h Q → wp I p h (λ h' a, (∃ t, h' = h ++ t) ∧ Q h' a).
Proof.
  assert (∀ h0, (∃ t, h = h0 ++ t) → wp I p h Q → wp I p h (λ h' a, (∃ t, h' = h0 ++ t) ∧ Q h' a))
    as Hgen.
  { revert h. induction p as [a|r k IH]; intros h h0 [t ->]; simpl; [by eauto|].
    intros [Hr Hk]. split; [done|]. intros x. apply IH; [|done].
    exists (t ++ [Ev r x]). by rewrite app_assoc. }
  apply Hgen. exists []. by rewrite app_nil_r.
Qed.

(** The rule for sequencing: the continuation starts from a history that extends the
    one before the first program. *)
Lemma wp_seq {A B} I (p : prog A) (f : A → prog B) h Q R :
  wp I p h Q → (∀ t a, Q (h ++ t) a → wp I (f a) (h ++ t) R) → wp I (p ≫= f) h R.
Proof.
  intros Hp Hf. apply wp_bind. eapply wp_mono; [| |apply wp_extends, Hp]; [done|].
  intros h' a [[t ->] HQ]. by apply Hf.
Qed.

Lemma wp_ret {A} I (a : A) h (Q : list event → A → Prop) : Q h a → wp I (Ret a) h Q.
Proof. done. Qed.

Lemma wp_call I r h (Q : list event → resp r → Prop) :
  I h r → (∀ x, Q (h ++ [Ev r x]) x) → wp I (perform r) h Q.
Proof. intros; by split. Qed.

(** A statement about every execution from the empty history. *)
Lemma wp_exec {A} I (p : prog A) Q tr a :
  wp I p [] Q → exec p tr a → Q tr a ∧ guarded I [] tr.
Proof. apply wp_sound. Qed.

(** The [n]-th call of an execution; the calls before it are [take n tr]. *)
Definition nth_call (tr : list event) (n : nat) : option req := ev_req <$> tr !! n.

Lemma wp_nth_call {A} I (p : prog A) Q tr a n r :
  wp I p [] Q → exec p tr a → nth_call tr n = Some r → I (take n tr) r.
Proof.
  intros Hwp Hex Hn. destruct (wp_exec _ _ _ _ _ Hwp Hex) as [_ Hg].
  unfold nth_call in Hn. destruct (tr !! n) as [[r' x]|] eqn:E; [|done].
  injection Hn as <-. apply (Hg (take n tr) r' x (drop (S n) tr)). by rewrite take_drop_middle.
Qed.

Lemma exec_bind {A B} (p : prog A) (f : A → prog B) tr b :
  exec (p ≫= f) tr b ↔ ∃ tr1 tr2 a, tr = tr1 ++ tr2 ∧ exec p tr1 a ∧ exec (f a) tr2 b.
Proof.
  revert tr. induction p as [a|r k IH]; intros tr; simpl.
  - split.
    + intros. by exists [], tr, a.
    + by intros (? & tr2 & a' & -> & [-> ->] & ?).
  - split.
    + intros (x & tr' & -> & (tr1 & tr2 & a & -> & H1 & H2)%IH).
      exists (Ev r x :: tr1), tr2, a. split; [done|]. split; [|done].
      by exists x, tr1.
    + intros (tr1 & tr2 & a & -> & (x & tr' & -> & H1) & H2).
      exists x, (tr' ++ tr2). split; [done|]. apply IH. by exists tr', tr2, a.
Qed.

(** ** Running against a concrete environment *)

Section interp.
Context {S : Type} (handler : S → ∀ r : req, S * resp r).

Fixpoint interp {A} (p : prog A) (s : S) : S * list event * A :=
  match p with
  | Ret a => (s, [], a)
  | Call r k =>
      let '(s1, x) := handler s r in
      let '(s2, tr, a) := interp (k x) s1 in
      (s2, Ev r x :: tr, a)
  end.

(** What a concrete environment produces is one of the executions. *)
Lemma interp_exec {A} (p : prog A) s : exec p (interp p s).1.2 (interp p s).2.
Proof.
  revert s. induction p as [a|r k IH]; intros s; simpl; [done|].
  destruct (handler s r) as [s1 x]. specialize (IH x s1).
  destruct (interp (k x) s1) as [[s2 tr] a] eqn:E. simpl in *. eauto.
Qed.

(** A program always returns, against every environment. *)
Lemma interp_total {A} (p : prog A) s : ∃ s' tr a, interp p s = (s', tr, a).
Proof. destruct (interp p s) as [[s' tr] a]. eauto. Qed.

Lemma interp_bind {A B} (p : prog A) (f : A → prog B) s :
  interp (p ≫= f) s =
    let '(s1, tr1, a) := interp p s in
    let '(s2, tr2, b) := interp (f a) s1 in
    (s2, tr1 ++ tr2, b).
Proof.
  revert s. induction p as [a|r k IH]; intros s; simpl.
  - by destruct (interp (f a) s) as [[??]?].
  - destruct (handler s r) as [s1 x].
    change (prog_bind f (k x)) with (k x ≫= f). rewrite IH.
    destruct (interp (k x) s1) as [[s2 tr] a].
    by destruct (interp (f a) s2) as [[??]?].
Qed.
End interp.

(** ** Automation *)

Lemma hist_here (h : list event) e : e ∈ h ++ [e].
Proof. set_solver. Qed.
Lemma hist_there (h : list event) e e' : e ∈ h → e ∈ h ++ [e'].
Proof. set_solver. Qed.
Lemma hist_app (h h' : list event) e : e ∈ h → e ∈ h ++ h'.
Proof. set_solver. Qed.

#[export] Hint Resolve hist_here hist_there hist_app : cosi.

(** One step of a [wp] goal: run to the next call, or split the next match. *)
Ltac wp_simpl := cbn [wp prog_bind mbind prog_mbind perform api rpc go_result
  mret prog_mret time_Now map_iteration].

(** Run a [wp] goal to its leaves: one goal per call (the invariant) and one per result. *)
Ltac wp_case x :=
  let E := fresh "E" in
  first [ is_var x; destruct x | destruct x eqn:E ];
  try discriminate.

Ltac wp_step :=
  wp_simpl;
  lazymatch goal with
  | |- wp _ (if ?b then _ else _) _ _ => wp_case b
  | |- wp _ (match ?x with _ => _ end) _ _ => wp_case x
  | |- wp _ (prog_bind _ (if ?b then _ else _)) _ _ => wp_case b
  | |- wp _ (prog_bind _ (match ?x with _ => _ end)) _ _ => wp_case x
  | |- _ ∧ (∀ _ : resp TimeNow, _) => split; [|intros ?]
  | |- _ ∧ (∀ _ : resp MapOrder, _) => split; [|intros ?]
  | |- _ ∧ (∀ _ : resp _, wp _ _ _ _) => split; [|intros [?|?]]
  end.

Ltac wp_run := repeat wp_step; wp_simpl.

(** Membership of an event in a history that grew. *)
Ltac hist := first [ assumption | apply hist_here | apply hist_there; hist | apply hist_app; hist ].
