(* ===== verification/ApiServer.v ===== *)
(** * A concrete environment

    An in-memory API server with the documented semantics of the Kubernetes API that the
    reconcilers rely on (optimistic concurrency by resource version, a status subresource,
    finalizers and graceful deletion; the generation, which no reconciler reads, changes on
    deletion only), a driver given by four functions, a clock, and
    objects of a small installation. The theorems about reconcilers hold for every
    environment; this one shows that their hypotheses can be met, and their programs can
    be run against it with [run]. *)

From stdpp Require Import base gmap strings list pretty.
From S2P Require Import Prelude GoErrors ApiTypes ProtoTypes Effects.

(** ** Stores *)

Abbreviation store A := (gmap (string * string) A).

(** The version counter of the server, written as the opaque string of the API. *)
Definition version_string (v : N) : string := pretty v.

Definition meta_with_server (rv : string) (uid : string) (gen : Z) (del : option Z)
    (m : ObjectMeta) : ObjectMeta := {|
  meta_Name := meta_Name m; meta_Namespace := meta_Namespace m; meta_UID := uid;
  meta_ResourceVersion := rv; meta_Generation := gen; meta_DeletionTimestamp := del;
  meta_Annotations := meta_Annotations m; meta_Finalizers := meta_Finalizers m;
  meta_OwnerReferences := meta_OwnerReferences m |}.

Section store.
Context {A : Type} `{ClientObject A}.
(** [with_status s a]: the object [a] with the status of [s]. *)
Context (with_status : A → A → A).

Definition key_of (a : A) : string * string := (GetNamespace a, GetName a).

Definition store_get (m : store A) (k : NamespacedName) : result client_error A :=
  match m !! (nn_Namespace k, nn_Name k) with
  | Some a => Ok a
  | None => Err (NotFoundErr (quote (nn_Name k) +:+ " not found"))
  end.

(** The stored object, when the writer saw its latest version. *)
Definition store_current (m : store A) (a : A) : result client_error A :=
  match m !! key_of a with
  | None => Err (NotFoundErr (quote (GetName a) +:+ " not found"))
  | Some old =>
      if meta_ResourceVersion (GetMeta a) =s meta_ResourceVersion (GetMeta old) then Ok old
      else Err (ConflictErr (quote (GetName a) +:+ ": the object has been modified"))
  end.

(** The object that a write leaves in the store; a deleted object without finalizers goes. *)
Definition store_put (m : store A) (a : A) : store A :=
  if IsDeleting a && (length (GetFinalizers a) =? 0) then delete (key_of a) m
  else <[key_of a := a]> m.

Definition store_update (v : N) (m : store A) (a : A) : store A * result client_error A :=
  match store_current m a with
  | Err e => (m, Err e)
  | Ok old =>
      let o := GetMeta old in
      let a := SetMeta (meta_with_server (version_string v) (meta_UID o)
                          (meta_Generation o) (meta_DeletionTimestamp o) (GetMeta a))
                 (with_status old a) in
      (store_put m a, Ok a)
  end.

Definition store_update_status (v : N) (m : store A) (a : A) : store A * result client_error A :=
  match store_current m a with
  | Err e => (m, Err e)
  | Ok old =>
      let o := GetMeta old in
      let a := SetMeta (meta_with_server (version_string v) (meta_UID o)
                          (meta_Generation o) (meta_DeletionTimestamp o) o)
                 (with_status a old) in
      (store_put m a, Ok a)
  end.

Definition store_create (v : N) (m : store A) (a : A) : store A * result client_error A :=
  match m !! key_of a with
  | Some _ => (m, Err (AlreadyExistsErr (quote (GetName a) +:+ " already exists")))
  | None =>
      let a := SetMeta (meta_with_server (version_string v) ("uid-" +:+ version_string v)
                          1 None (GetMeta a)) a in
      (<[key_of a := a]> m, Ok a)
  end.

Definition store_delete (v : N) (now : Z) (m : store A) (a : A) :
    store A * result client_error unit :=
  match m !! key_of a with
  | None => (m, Err (NotFoundErr (quote (GetName a) +:+ " not found")))
  | Some old =>
      let o := GetMeta old in
      let a := SetMeta (meta_with_server (version_string v) (meta_UID o)
                          (meta_Generation o + 1) (Some now) o) old in
      (store_put m a, Ok tt)
  end.
End store.

(** ** The world *)

Record Driver : Type := {
  driver_create : DriverCreateBucketRequest → result rpc_error DriverCreateBucketResponse;
  driver_get : DriverGetExistingBucketRequest → result rpc_error DriverGetExistingBucketResponse;
  driver_grant : DriverGrantBucketAccessRequest → result rpc_error DriverGrantBucketAccessResponse;
  driver_revoke : DriverRevokeBucketAccessRequest → result rpc_error unit
}.

Record World : Type := {
  w_claims : store BucketClaim;
  w_buckets : store Bucket;
  w_classes : store BucketClass;
  w_accesses : store BucketAccess;
  w_accessClasses : store BucketAccessClass;
  w_secrets : store Secret;
  w_version : N;
  w_now : Z;
  w_driver : Driver
}.

Definition with_claims (m : store BucketClaim) (w : World) : World := {|
  w_claims := m; w_buckets := w_buckets w; w_classes := w_classes w;
  w_accesses := w_accesses w; w_accessClasses := w_accessClasses w; w_secrets := w_secrets w;
  w_version := w_version w + 1; w_now := w_now w; w_driver := w_driver w |}.
Definition with_buckets (m : store Bucket) (w : World) : World := {|
  w_claims := w_claims w; w_buckets := m; w_classes := w_classes w;
  w_accesses := w_accesses w; w_accessClasses := w_accessClasses w; w_secrets := w_secrets w;
  w_version := w_version w + 1; w_now := w_now w; w_driver := w_driver w |}.
Definition with_accesses (m : store BucketAccess) (w : World) : World := {|
  w_claims := w_claims w; w_buckets := w_buckets w; w_classes := w_classes w;
  w_accesses := m; w_accessClasses := w_accessClasses w; w_secrets := w_secrets w;
  w_version := w_version w + 1; w_now := w_now w; w_driver := w_driver w |}.
Definition with_secrets (m : store Secret) (w : World) : World := {|
  w_claims := w_claims w; w_buckets := w_buckets w; w_classes := w_classes w;
  w_accesses := w_accesses w; w_accessClasses := w_accessClasses w; w_secrets := m;
  w_version := w_version w + 1; w_now := w_now w; w_driver := w_driver w |}.

Definition claim_status_of (s c : BucketClaim) : BucketClaim := claim_with_Status (claim_Status s) c.
Definition bucket_status_of (s b : Bucket) : Bucket := bucket_with_Status (bucket_Status s) b.
Definition access_status_of (s a : BucketAccess) : BucketAccess :=
  access_with_Status (access_Status s) a.

(** The API server stores [stringData] of a Secret under [data]. *)
Definition secret_stored (s : Secret) : Secret := {|
  secret_ObjectMeta := secret_ObjectMeta s;
  secret_Data := secret_StringData s ∪ secret_Data s;
  secret_StringData := ∅;
  secret_Type := secret_Type s |}.
Definition secret_no_status (_ s : Secret) : Secret := secret_stored s.

Definition write {A R : Type} (put : store A → World → World) (w : World) (r : store A * R) : World * R :=
  (put r.1 w, r.2).

(** One call. Every class read is of a class that exists or not; a list returns the
    accesses of one namespace. *)
Definition handle (w : World) (r : req) : World * resp r :=
  match r with
  | GetClaim k => (w, store_get (w_claims w) k)
  | GetBucket k => (w, store_get (w_buckets w) k)
  | GetBucketClass k =>
      (w, match w_classes w !! (nn_Namespace k, nn_Name k) with
          | Some c => Ok c
          | None => Err (NotFoundErr (quote (nn_Name k) +:+ " not found"))
          end)
  | GetAccess k => (w, store_get (w_accesses w) k)
  | GetAccessClass k =>
      (w, match w_accessClasses w !! (nn_Namespace k, nn_Name k) with
          | Some c => Ok c
          | None => Err (NotFoundErr (quote (nn_Name k) +:+ " not found"))
          end)
  | GetSecret k => (w, store_get (w_secrets w) k)
  | ListAccesses ns =>
      (w, Ok (snd <$> List.filter (λ ka, ka.1.1 =s ns) (map_to_list (w_accesses w))))
  | UpdateClaim c => write with_claims w (store_update claim_status_of (w_version w) (w_claims w) c)
  | UpdateBucket b => write with_buckets w (store_update bucket_status_of (w_version w) (w_buckets w) b)
  | UpdateAccess a => write with_accesses w (store_update access_status_of (w_version w) (w_accesses w) a)
  | UpdateSecret s => write with_secrets w (store_update secret_no_status (w_version w) (w_secrets w) s)
  | StatusUpdateClaim c =>
      write with_claims w (store_update_status claim_status_of (w_version w) (w_claims w) c)
  | StatusUpdateBucket b =>
      write with_buckets w (store_update_status bucket_status_of (w_version w) (w_buckets w) b)
  | StatusUpdateAccess a =>
      write with_accesses w (store_update_status access_status_of (w_version w) (w_accesses w) a)
  | CreateBucket b => write with_buckets w (store_create (w_version w) (w_buckets w) b)
  | CreateSecret s => write with_secrets w (store_create (w_version w) (w_secrets w) (secret_stored s))
  | DeleteBucket b => write with_buckets w (store_delete (w_version w) (w_now w) (w_buckets w) b)
  | DeleteSecret s => write with_secrets w (store_delete (w_version w) (w_now w) (w_secrets w) s)
  | DriverCreateBucket q => (w, driver_create (w_driver w) q)
  | DriverGetExistingBucket q => (w, driver_get (w_driver w) q)
  | DriverGrantBucketAccess q => (w, driver_grant (w_driver w) q)
  | DriverRevokeBucketAccess q => (w, driver_revoke (w_driver w) q)
  | TimeNow => (w, w_now w)
  | MapOrder => (w, [])
  end.

(** A program run to its end: the world after it, the calls it made and its result. *)
Definition run {A} (p : prog A) (w : World) : World * list event * A := interp handle p w.

Definition run_world {A} (p : prog A) (w : World) : World := (run p w).1.1.
Definition run_trace {A} (p : prog A) (w : World) : list event := (run p w).1.2.
Definition run_result {A} (p : prog A) (w : World) : A := (run p w).2.

Lemma run_exec {A} (p : prog A) (w : World) : exec p (run_trace p w) (run_result p w).
Proof. apply interp_exec. Qed.

(** ** A small installation *)

Definition demo_driver_name : string := "cosi.example.com".

Definition demo_bucket_info (id : string) : ObjectProtocolAndBucketInfo := {|
  bucketInfo_S3 := Some {| s3Info_BucketId := id; s3Info_Endpoint := "https://s3.example.com";
    s3Info_Region := "eu"; s3Info_AddressingStyle := Some {| s3Style_Style := 1%Z |} |};
  bucketInfo_Azure := None; bucketInfo_Gcs := None |}.

(** A driver of S3 buckets that names a backend bucket after the Bucket. *)
Definition demo_driver : Driver := {|
  driver_create q := Ok {|
    createResp_BucketId := "backend-" +:+ createReq_Name q;
    createResp_Protocols := Some (demo_bucket_info ("backend-" +:+ createReq_Name q)) |};
  driver_get q := Ok {|
    getResp_BucketId := getReq_ExistingBucketId q;
    getResp_Protocols := Some (demo_bucket_info (getReq_ExistingBucketId q)) |};
  driver_grant q := Ok {|
    grantResp_AccountId := "account-" +:+ grantReq_AccountName q;
    grantResp_Buckets :=
      (λ ab, {| grantRespBucket_BucketId := grantReqBucket_BucketId ab;
                grantRespBucket_BucketInfo := Some (demo_bucket_info (grantReqBucket_BucketId ab)) |})
        <$> grantReq_Buckets q;
    grantResp_Credentials := Some {|
      cred_S3 := Some {| s3Cred_AccessKeyId := "AK"; s3Cred_AccessSecretKey := "SK" |};
      cred_Azure := None; cred_Gcs := None |} |};
  driver_revoke _ := Ok tt |}.

Definition demo_meta (ns name uid : string) : ObjectMeta := {|
  meta_Name := name; meta_Namespace := ns; meta_UID := uid; meta_ResourceVersion := "1";
  meta_Generation := 1%Z; meta_DeletionTimestamp := None; meta_Annotations := ∅;
  meta_Finalizers := []; meta_OwnerReferences := [] |}.

(** The same object, protected and under deletion. *)
Definition deleting {A} `{ClientObject A} (a : A) : A :=
  SetMeta {| meta_Name := GetName a; meta_Namespace := GetNamespace a; meta_UID := GetUID a;
             meta_ResourceVersion := meta_ResourceVersion (GetMeta a);
             meta_Generation := GetGeneration a + 1; meta_DeletionTimestamp := Some 7%Z;
             meta_Annotations := GetAnnotations a;
             meta_Finalizers := [ProtectionFinalizer];
             meta_OwnerReferences := meta_OwnerReferences (GetMeta a) |} a.

Definition demo_class : BucketClass := {|
  class_ObjectMeta := demo_meta "" "gold" "uid-class";
  class_Spec := {| classSpec_DriverName := demo_driver_name;
                   classSpec_DeletionPolicy := BucketDeletionPolicyDelete;
                   classSpec_Parameters := {[ "tier" := "gold" ]} |} |}.

Definition demo_access_class : BucketAccessClass := {|
  accessClass_ObjectMeta := demo_meta "" "reader" "uid-aclass";
  accessClass_Spec := {| accessClassSpec_DriverName := demo_driver_name;
    accessClassSpec_AuthenticationType := BucketAccessAuthenticationTypeKey;
    accessClassSpec_Parameters := ∅;
    accessClassSpec_DisallowedBucketAccessModes := [BucketAccessModeWriteOnly];
    accessClassSpec_MultiBucketAccess := MultiBucketAccessMultipleBuckets |} |}.

Definition demo_claim_key : NamespacedName := {| nn_Namespace := "app"; nn_Name := "data" |}.

Definition empty_claim_status : BucketClaimStatus := {|
  claimStatus_BoundBucketName := ""; claimStatus_ReadyToUse := None;
  claimStatus_Protocols := []; claimStatus_Error := None |}.

(** A claim for dynamic provisioning, and one for the existing Bucket "archive". *)
Definition demo_claim : BucketClaim := {|
  claim_ObjectMeta := demo_meta "app" "data" "u1";
  claim_Spec := {| claimSpec_BucketClassName := "gold"; claimSpec_Protocols := ["S3"];
                   claimSpec_ExistingBucketName := "" |};
  claim_Status := empty_claim_status |}.

Definition demo_static_claim : BucketClaim := {|
  claim_ObjectMeta := demo_meta "app" "data" "u1";
  claim_Spec := {| claimSpec_BucketClassName := ""; claimSpec_Protocols := ["S3"];
                   claimSpec_ExistingBucketName := "archive" |};
  claim_Status := empty_claim_status |}.

(** The claim bound to its provisioned Bucket. *)
Definition demo_bound_claim : BucketClaim :=
  claim_with_Status {| claimStatus_BoundBucketName := "bc-u1";
    claimStatus_ReadyToUse := Some true; claimStatus_Protocols := ["S3"];
    claimStatus_Error := None |} demo_claim.

Definition demo_bucket : Bucket := {|
  bucket_ObjectMeta := demo_meta "" "bc-u1" "u2";
  bucket_Spec := {| bucketSpec_DriverName := demo_driver_name;
    bucketSpec_DeletionPolicy := BucketDeletionPolicyDelete;
    bucketSpec_Parameters := {[ "tier" := "gold" ]}; bucketSpec_Protocols := ["S3"];
    bucketSpec_BucketClaimRef := {| claimRef_Name := "data"; claimRef_Namespace := "app";
                                    claimRef_UID := "u1" |};
    bucketSpec_ExistingBucketID := "" |};
  bucket_Status := empty_BucketStatus |}.

Definition demo_ready_bucket : Bucket :=
  bucket_with_Status {| bucketStatus_ReadyToUse := Some true;
    bucketStatus_BucketID := "backend-bc-u1"; bucketStatus_Protocols := ["S3"];
    bucketStatus_BucketInfo := ∅; bucketStatus_Error := None |} demo_bucket.

(** An administrator's Bucket for an existing backend bucket, not bound yet. *)
Definition demo_static_bucket : Bucket := {|
  bucket_ObjectMeta := demo_meta "" "archive" "u3";
  bucket_Spec := {| bucketSpec_DriverName := demo_driver_name;
    bucketSpec_DeletionPolicy := BucketDeletionPolicyRetain;
    bucketSpec_Parameters := ∅; bucketSpec_Protocols := [];
    bucketSpec_BucketClaimRef := {| claimRef_Name := "data"; claimRef_Namespace := "app";
                                    claimRef_UID := "" |};
    bucketSpec_ExistingBucketID := "backend-archive" |};
  bucket_Status := empty_BucketStatus |}.

Definition demo_access_key : NamespacedName := {| nn_Namespace := "app"; nn_Name := "acc" |}.

Definition empty_access_status : BucketAccessStatus := {|
  accessStatus_ReadyToUse := None; accessStatus_AccountID := "";
  accessStatus_AccessedBuckets := []; accessStatus_DriverName := "";
  accessStatus_AuthenticationType := ""; accessStatus_Parameters := ∅;
  accessStatus_Error := None |}.

Definition demo_access : BucketAccess := {|
  access_ObjectMeta := demo_meta "app" "acc" "u9";
  access_Spec := {|
    accessSpec_BucketClaims := [{| claimAccess_BucketClaimName := "data";
      claimAccess_AccessMode := BucketAccessModeReadWrite;
      claimAccess_AccessSecretName := "data-secret" |}];
    accessSpec_BucketAccessClassName := "reader"; accessSpec_Protocol := "S3";
    accessSpec_ServiceAccountName := "" |};
  access_Status := empty_access_status |}.

(** The access as the Controller hands it to the Sidecar, and once it is granted. *)
Definition demo_initialized_access : BucketAccess :=
  access_with_Status {| accessStatus_ReadyToUse := Some false; accessStatus_AccountID := "";
    accessStatus_AccessedBuckets := [{| accessed_BucketName := "bc-u1";
      accessed_BucketID := "backend-bc-u1"; accessed_BucketClaimName := "data" |}];
    accessStatus_DriverName := demo_driver_name;
    accessStatus_AuthenticationType := BucketAccessAuthenticationTypeKey;
    accessStatus_Parameters := ∅; accessStatus_Error := None |} demo_access.

Definition demo_granted_access : BucketAccess :=
  access_with_Status (accessStatus_with_AccountID "account-ba-u9"
    (access_Status demo_initialized_access)) demo_initialized_access.

Definition store_of {A} `{ClientObject A} (l : list A) : store A :=
  list_to_map ((λ a, (key_of a, a)) <$> l).

Definition demo_world (claims : list BucketClaim) (buckets : list Bucket)
    (accesses : list BucketAccess) (secrets : list Secret) : World := {|
  w_claims := store_of claims; w_buckets := store_of buckets;
  w_classes := {[ ("", "gold") := demo_class ]}; w_accesses := store_of accesses;
  w_accessClasses := {[ ("", "reader") := demo_access_class ]}; w_secrets := store_of secrets;
  w_version := 100; w_now := 42%Z; w_driver := demo_driver |}.

(** The object a call carries. *)
Definition bucket_of (r : option req) : Bucket :=
  match r with
  | Some (CreateBucket b) | Some (UpdateBucket b) | Some (DeleteBucket b)
  | Some (StatusUpdateBucket b) => b
  | _ => demo_bucket
  end.
Definition claim_of (r : option req) : BucketClaim :=
  match r with
  | Some (UpdateClaim c) | Some (StatusUpdateClaim c) => c
  | _ => demo_claim
  end.
Definition access_of (r : option req) : BucketAccess :=
  match r with
  | Some (UpdateAccess a) | Some (StatusUpdateAccess a) => a
  | _ => demo_access
  end.
