(* ===== verification/History.v ===== *)
(** * The history of a store

    The API server numbers the versions of the objects it stores with one counter. This
    file relates a store of [ApiServer] to the list of all versions that it ever held or
    returned, for any kind of object: versions are unique, a UID belongs to one key, and
    a write that passes the version check replaces exactly the version its author saw.
    The invariants of a store are then statements about one write ([change]): a relation
    that holds between the version before and after every write, and that is a
    preorder, holds between any two versions of one object ([evolution]). *)

From stdpp Require Import base gmap strings list pretty.
From S2P Require Import Prelude GoErrors ApiTypes ProtoTypes Effects ApiServer.

Lemma version_string_inj v v' : version_string v = version_string v' → v = v'.
Proof. apply (inj pretty). Qed.

Definition uid_string (v : N) : string := "uid-" +:+ version_string v.

Lemma uid_string_inj v v' : uid_string v = uid_string v' → v = v'.
Proof. unfold uid_string. cbn. intros [= ?]. by apply version_string_inj. Qed.

Lemma uid_string_nonempty v : uid_string v ≠ "".
Proof. done. Qed.

Section history.
Context {A : Type} `{ClientObject A}.
Implicit Types (a b old : A) (m : store A) (log : list A) (v : N).

Definition rv a : string := meta_ResourceVersion (GetMeta a).

(** The objects in a store. *)
Definition versions m : list A := snd <$> map_to_list m.

Lemma elem_of_versions m a : a ∈ versions m ↔ ∃ k, m !! k = Some a.
Proof.
  unfold versions. rewrite list_elem_of_fmap. split.
  - intros ([k a'] & -> & Hin%elem_of_map_to_list). eauto.
  - intros [k Hk]. exists (k, a). split; [done|]. by apply elem_of_map_to_list.
Qed.

(** What the log of a server with the counter [v] and the store [m] satisfies. *)
Record history_ok v m log : Prop := {
  stored_key k a : m !! k = Some a → key_of a = k;
  stored_logged k a : m !! k = Some a → a ∈ log;
  logged_version a : a ∈ log → ∃ n, (n < v)%N ∧ rv a = version_string n;
  logged_uid a : a ∈ log → ∃ n, (n < v)%N ∧ GetUID a = uid_string n;
  version_unique a b : a ∈ log → b ∈ log → rv a = rv b → a = b;
  uid_key a b : a ∈ log → b ∈ log → GetUID a = GetUID b → key_of a = key_of b
}.

Lemma history_empty v : history_ok v ∅ [].
Proof. split; try (intros k a; by rewrite lookup_empty); intros a *; by intros ?%elem_of_nil. Qed.

Lemma history_later v v' m log : (v ≤ v')%N → history_ok v m log → history_ok v' m log.
Proof.
  intros Hv [H1 H2 H3 H4 H5 H6]. split; try done.
  - intros a Ha. destruct (H3 a Ha) as (n & ? & ?). exists n. split; [lia|done].
  - intros a Ha. destruct (H4 a Ha) as (n & ? & ?). exists n. split; [lia|done].
Qed.

(** The history is a property of the set of logged versions. *)
Lemma history_smaller v m log log' :
  log' ⊆ log → versions m ⊆ log' → history_ok v m log → history_ok v m log'.
Proof.
  intros Hl Hm [H1 H2 H3 H4 H5 H6]. split; eauto.
  intros k a Hk. apply Hm, elem_of_versions. eauto.
Qed.

Lemma history_uid v m log a : history_ok v m log → a ∈ log → GetUID a ≠ "".
Proof. intros Hh Ha. destruct (logged_uid _ _ _ Hh a Ha) as (n & _ & ->). apply uid_string_nonempty. Qed.

(** ** One write

    [change R v m m' new]: at the counter [v], the store became [m'], with the versions
    [new], of which there is at most one; [R] relates the version that was replaced to
    the new one. *)
Inductive change (R : A → A → Prop) (C : A → Prop) v m : store A → list A → Prop :=
| change_none : change R C v m m []
| change_write old a :
    m !! key_of a = Some old → GetUID a = GetUID old → rv a = version_string v →
    R old a → change R C v m (store_put m a) [a]
| change_create a :
    m !! key_of a = None → GetUID a = uid_string v → rv a = version_string v →
    C a → change R C v m (<[key_of a := a]> m) [a].

Lemma change_mono (R R' : A → A → Prop) (C C' : A → Prop) v m m' new :
  (∀ old a, m !! key_of a = Some old → R old a → R' old a) → (∀ a, C a → C' a) →
  change R C v m m' new → change R' C' v m m' new.
Proof.
  intros HR HC [|old a ?? ? ?|a ????]; [by constructor|econstructor; eauto|constructor; eauto].
Qed.

Lemma store_put_lookup m a k x :
  store_put m a !! k = Some x → x = a ∧ k = key_of a ∨ m !! k = Some x ∧ k ≠ key_of a.
Proof.
  unfold store_put. case_match.
  - rewrite lookup_delete_Some. intros [? ?]. right. done.
  - rewrite lookup_insert_Some. intros [[<- <-]|[? ?]]; [by left|right]. done.
Qed.

Lemma change_lookup R C v m m' new k x :
  change R C v m m' new → m' !! k = Some x → x ∈ new ∨ m !! k = Some x.
Proof.
  intros [|old a _ _ _ _|a _ _ _ _].
  - by right.
  - intros [[-> _]|[? _]]%store_put_lookup; [left; by apply list_elem_of_singleton|by right].
  - intros [[_ <-]|[_ ?]]%lookup_insert_Some; [left; by apply list_elem_of_singleton|by right].
Qed.

Lemma logged_before v m log a :
  history_ok v m log → a ∈ log → rv a ≠ version_string v ∧ GetUID a ≠ uid_string v.
Proof.
  intros Hh Ha. split.
  - destruct (logged_version _ _ _ Hh a Ha) as (n & ? & ->). intros ?%version_string_inj. lia.
  - destruct (logged_uid _ _ _ Hh a Ha) as (n & ? & ->). intros ?%uid_string_inj. lia.
Qed.

(** A version with the number of the counter is new. *)
Lemma history_new v m log m' a :
  history_ok v m log → rv a = version_string v →
  (∃ n, (n < v + 1)%N ∧ GetUID a = uid_string n) →
  (∀ b, b ∈ log → GetUID a = GetUID b → key_of a = key_of b) →
  (∀ k x, m' !! k = Some x → x = a ∧ k = key_of a ∨ m !! k = Some x) →
  history_ok (v + 1) m' (a :: log).
Proof.
  intros Hh Hr Hu Hkey Hm'.
  pose proof (history_later v (v + 1) _ _ ltac:(lia) Hh) as Hh'.
  split.
  - intros k x [[-> ->]|Hx]%Hm'; [done|]. by apply (stored_key _ _ _ Hh).
  - intros k x [[-> ->]|Hx]%Hm'; [left|right]. by eapply (stored_logged _ _ _ Hh).
  - intros x [->|Hx]%elem_of_cons; [exists v; split; [lia|done]|by apply (logged_version _ _ _ Hh')].
  - intros x [->|Hx]%elem_of_cons; [done|by apply (logged_uid _ _ _ Hh')].
  - intros x y [->|Hx]%elem_of_cons [->|Hy]%elem_of_cons; rewrite ?Hr; [done| | |].
    + intros He. by destruct (logged_before _ _ _ _ Hh Hy).
    + intros He. by destruct (logged_before _ _ _ _ Hh Hx).
    + by apply (version_unique _ _ _ Hh).
  - intros x y [->|Hx]%elem_of_cons [->|Hy]%elem_of_cons; [done|by apply Hkey| |].
    + intros He. symmetry. by apply Hkey.
    + by apply (uid_key _ _ _ Hh).
Qed.

Lemma history_change R C v m m' new log :
  history_ok v m log → change R C v m m' new → history_ok (v + 1) m' (new ++ log).
Proof.
  intros Hh [|old a Hk Hu Hr _|a Hk Hu Hr _].
  - apply (history_later v); [lia|done].
  - pose proof (stored_logged _ _ _ Hh _ _ Hk) as Hold.
    apply (history_new v m); try done.
    + rewrite Hu. destruct (logged_uid _ _ _ Hh _ Hold) as (n & ? & ?). exists n. split; [lia|done].
    + intros b Hb He. rewrite <-(stored_key _ _ _ Hh _ _ Hk).
      apply (uid_key _ _ _ Hh); [done..|congruence].
    + intros k x [?|[? _]]%store_put_lookup; auto.
  - apply (history_new v m); try done.
    + exists v. split; [lia|done].
    + intros b Hb He. destruct (logged_before _ _ _ _ Hh Hb). congruence.
    + intros k x [[<- <-]|[_ ?]]%lookup_insert_Some; auto.
Qed.

(** The version check: a write that is accepted, made on a version of the log, replaces
    that version. *)
Lemma current_version v m log k old a :
  history_ok v m log → m !! k = Some old → a ∈ log → rv a = rv old → old = a.
Proof.
  intros Hh Hk Ha Hr. apply (version_unique _ _ _ Hh); [|done..].
  by eapply (stored_logged _ _ _ Hh).
Qed.

(** ** Evolution of an object *)

Section evolution.
Context (R : A → A → Prop) `{!PreOrder R}.

(** The stored version of an object is later than every version of the log, and any two
    versions of an object in the log are ordered. *)
Definition evolution m log : Prop :=
  (∀ a k b, a ∈ log → m !! k = Some b → GetUID a = GetUID b → R a b) ∧
  (∀ a b, a ∈ log → b ∈ log → GetUID a = GetUID b → R a b ∨ R b a).

Lemma evolution_empty : evolution ∅ [].
Proof. split; intros a *; by intros ?%elem_of_nil. Qed.

Lemma evolution_smaller m log log' : log' ⊆ log → evolution m log → evolution m log'.
Proof. intros Hl [H1 H2]. split; eauto. Qed.

Lemma evolution_change C v m m' new log :
  history_ok v m log → evolution m log → change R C v m m' new → evolution m' (new ++ log).
Proof.
  intros Hh [He1 He2] [|old a Hk Hu Hr HR|a Hk Hu Hr _]; [done| |].
  - assert (∀ x, x ∈ log → GetUID x = GetUID a → R x a) as Hpast.
    { intros x Hx Hxa. transitivity old; [|done]. eapply He1; [done..|congruence]. }
    assert (∀ x k, m !! k = Some x → GetUID x = GetUID a → k = key_of a) as Huniq.
    { intros x k Hx Hxa. rewrite <-(stored_key _ _ _ Hh _ _ Hx), <-(stored_key _ _ _ Hh _ _ Hk).
      apply (uid_key _ _ _ Hh); [by eapply (stored_logged _ _ _ Hh)..|congruence]. }
    split.
    + intros x k y [->|Hx]%elem_of_cons [[-> ->]|[Hy Hn]]%store_put_lookup Hxy; [done| |auto|eauto].
      destruct Hn. eapply Huniq; [done|congruence].
    + intros x y [->|Hx]%elem_of_cons [->|Hy]%elem_of_cons Hxy; [by left|right|left|]; auto.
  - assert (∀ x, x ∈ log → GetUID x ≠ GetUID a) as Hnew.
    { intros x Hx. rewrite Hu. by destruct (logged_before _ _ _ _ Hh Hx). }
    split.
    + intros x k y [->|Hx]%elem_of_cons [[<- <-]|[Hn Hy]]%lookup_insert_Some Hxy; [done| | |eauto].
      * destruct (Hnew y); [by eapply (stored_logged _ _ _ Hh)|done].
      * by destruct (Hnew x Hx).
    + intros x y [->|Hx]%elem_of_cons [->|Hy]%elem_of_cons Hxy; [by left| | |auto].
      * by destruct (Hnew y Hy).
      * by destruct (Hnew x Hx).
Qed.
End evolution.

(** ** The operations of a store as changes *)

(** The object that a call returned. *)
Definition answered (x : result client_error A) : list A :=
  match x with Ok a => [a] | Err _ => [] end.

Section operations.
Context (with_status : A → A → A) (v : N) (m : store A).

Definition as_updated a old : A :=
  SetMeta (meta_with_server (version_string v) (meta_UID (GetMeta old))
    (meta_Generation (GetMeta old)) (meta_DeletionTimestamp (GetMeta old)) (GetMeta a))
    (with_status old a).
Definition as_status_updated a old : A :=
  SetMeta (meta_with_server (version_string v) (meta_UID (GetMeta old))
    (meta_Generation (GetMeta old)) (meta_DeletionTimestamp (GetMeta old)) (GetMeta old))
    (with_status a old).
Definition as_created a : A :=
  SetMeta (meta_with_server (version_string v) (uid_string v) 1 None (GetMeta a)) a.
Definition as_deleted (now : Z) old : A :=
  SetMeta (meta_with_server (version_string v) (meta_UID (GetMeta old))
    (meta_Generation (GetMeta old) + 1) (Some now) (GetMeta old)) old.

Lemma store_current_Ok a old :
  store_current m a = Ok old ↔ m !! key_of a = Some old ∧ rv a = rv old.
Proof.
  unfold store_current, rv. destruct (m !! key_of a) as [o|]; [|by split; [|intros [? _]]].
  destruct (_ =s _) eqn:E; [apply eqs_true in E|apply eqs_false in E].
  - split; [by intros [= ->]|by intros [[= ->] _]].
  - split; [done|]. by intros [[= ->] ?].
Qed.

Lemma store_update_Ok a a' :
  (store_update with_status v m a).2 = Ok a' →
  ∃ old, m !! key_of a = Some old ∧ rv a = rv old ∧ a' = as_updated a old.
Proof.
  unfold store_update. destruct (store_current m a) as [old|e] eqn:E; [|done].
  apply store_current_Ok in E as [??]. intros [= <-]. by exists old.
Qed.
Lemma store_update_status_Ok a a' :
  (store_update_status with_status v m a).2 = Ok a' →
  ∃ old, m !! key_of a = Some old ∧ rv a = rv old ∧ a' = as_status_updated a old.
Proof.
  unfold store_update_status. destruct (store_current m a) as [old|e] eqn:E; [|done].
  apply store_current_Ok in E as [??]. intros [= <-]. by exists old.
Qed.
Lemma store_create_Ok a a' : (store_create v m a).2 = Ok a' → a' = as_created a.
Proof. unfold store_create. case_match; [done|]. by intros [= <-]. Qed.

Lemma key_of_updated a old : key_of (as_updated a old) = key_of a.
Proof. unfold key_of, GetName, GetNamespace, as_updated. by rewrite GetMeta_SetMeta. Qed.
Lemma key_of_status_updated a old : key_of (as_status_updated a old) = key_of old.
Proof. unfold key_of, GetName, GetNamespace, as_status_updated. by rewrite GetMeta_SetMeta. Qed.
Lemma key_of_deleted now old : key_of (as_deleted now old) = key_of old.
Proof. unfold key_of, GetName, GetNamespace, as_deleted. by rewrite GetMeta_SetMeta. Qed.
Lemma key_of_created a : key_of (as_created a) = key_of a.
Proof. unfold key_of, GetName, GetNamespace, as_created. by rewrite GetMeta_SetMeta. Qed.

Context (Hkeyed : ∀ k x, m !! k = Some x → key_of x = k).

Ltac meta := unfold key_of, rv, GetName, GetNamespace, GetUID; rewrite ?GetMeta_SetMeta; cbn.

Lemma store_update_change a :
  change (λ old new, rv a = rv old ∧ new = as_updated a old) (λ _, False)
    v m (store_update with_status v m a).1 (answered (store_update with_status v m a).2).
Proof.
  unfold store_update. destruct (store_current m a) as [old|e] eqn:E; [|constructor].
  apply store_current_Ok in E as [Hk Hr]. cbn.
  apply (change_write _ _ _ _ old); [|by meta..|done].
  rewrite <-Hk. by meta.
Qed.

Lemma store_update_status_change a :
  change (λ old new, rv a = rv old ∧ new = as_status_updated a old) (λ _, False)
    v m (store_update_status with_status v m a).1
    (answered (store_update_status with_status v m a).2).
Proof.
  unfold store_update_status. destruct (store_current m a) as [old|e] eqn:E; [|constructor].
  apply store_current_Ok in E as [Hk Hr]. cbn.
  apply (change_write _ _ _ _ old); [|by meta..|done].
  rewrite <-Hk, <-(Hkeyed _ _ Hk). by meta.
Qed.

Lemma store_create_change a :
  change (λ _ _, False) (λ new, new = as_created a)
    v m (store_create v m a).1 (answered (store_create v m a).2).
Proof.
  unfold store_create. destruct (m !! key_of a) eqn:E; [constructor|]. cbn.
  apply change_create; [|by meta..|done]. rewrite <-E. by meta.
Qed.

Lemma store_delete_change now a :
  ∃ new, change (λ old new, key_of old = key_of a ∧ new = as_deleted now old) (λ _, False)
    v m (store_delete v now m a).1 new.
Proof.
  unfold store_delete. destruct (m !! key_of a) as [old|] eqn:E; [|exists []; constructor]. cbn.
  eexists. apply (change_write _ _ _ _ old); [|by meta..|split; [by apply Hkeyed|done]].
  rewrite <-E, <-(Hkeyed _ _ E). by meta.
Qed.
End operations.
End history.
