(* ===== verification/Honest.v ===== *)
(** * Programs on the honest server

    The API server of [ApiServer] answers every call from its stores and accepts every write
    of the latest version. This file has the logic of programs on it, [runs], and its rules
    for the writes of the reconcilers. It is the basis of the theorems about progress, which
    need answers that are not errors. *)

From stdpp Require Import base gmap strings list.
From S2P Require Import Prelude GoErrors ApiTypes ProtoTypes Effects ApiServer History.

(** ** Programs on the honest server *)

(** [p] run from [w] ends in a world and with a result that satisfy [Q]. *)
Fixpoint runs {A} (p : prog A) (w : World) (Q : World → A → Prop) : Prop :=
  match p with
  | Ret a => Q w a
  | Call r k => runs (k (handle w r).2) (handle w r).1 Q
  end.

Lemma runs_run {A} (p : prog A) w Q : runs p w Q ↔ Q (run_world p w) (run_result p w).
Proof.
  unfold run_world, run_result, run. revert w. induction p as [a|r k IH]; intros w; cbn; [done|].
  destruct (handle w r) as [w1 x]; cbn. rewrite IH.
  by destruct (interp handle (k x) w1) as [[w2 tr] a].
Qed.

Lemma runs_bind {A B} (p : prog A) (f : A → prog B) w Q R :
  runs p w Q → (∀ w' a, Q w' a → runs (f a) w' R) → runs (p ≫= f) w R.
Proof. intros Hp Hf. revert w Hp. induction p as [a|r k IH]; intros w; cbn; [auto|]. apply IH. Qed.

Lemma runs_mono {A} (p : prog A) w (Q R : World → A → Prop) :
  runs p w Q → (∀ w' a, Q w' a → R w' a) → runs p w R.
Proof. intros Hp HQ. revert w Hp. induction p as [a|r k IH]; intros w; cbn; auto. Qed.

Lemma runs_call {A} r (k : resp r → prog A) w Q :
  runs (k (handle w r).2) (handle w r).1 Q → runs (Call r k) w Q.
Proof. done. Qed.

(** To the next call. *)
Ltac rs := cbn [prog_bind mbind prog_mbind perform api rpc go_result mret prog_mret time_Now].

(** ** Writes of the latest version *)

Section store.
Context {A : Type} `{ClientObject A} (with_status : A → A → A).

(** [a] is the stored version of an object that a write keeps: an object under deletion
    has finalizers. *)
Definition stored (m : store A) (a : A) : Prop :=
  m !! key_of a = Some a ∧ (IsDeleting a = true → GetFinalizers a ≠ []).
(** [a] is the stored version of a live object. *)
Definition current (m : store A) (a : A) : Prop := m !! key_of a = Some a ∧ IsDeleting a = false.

Lemma current_stored m a : current m a → stored m a.
Proof. intros [Hl Hd]. split; [done|]. by rewrite Hd. Qed.

Lemma same_version_key a b : same_version a b → key_of a = key_of b.
Proof. intros (? & ? & _). unfold key_of. congruence. Qed.

Lemma store_current_same m a old :
  m !! key_of old = Some old → same_version a old → store_current m a = Ok old.
Proof.
  intros Hl Hv. apply store_current_Ok. rewrite (same_version_key _ _ Hv). split; [done|apply Hv].
Qed.

Lemma IsDeleting_updated v a old : IsDeleting (as_updated with_status v a old) = IsDeleting old.
Proof. unfold IsDeleting, as_updated. by rewrite GetMeta_SetMeta. Qed.
Lemma GetFinalizers_updated v a old :
  GetFinalizers (as_updated with_status v a old) = GetFinalizers a.
Proof. unfold GetFinalizers, as_updated. by rewrite GetMeta_SetMeta. Qed.

Lemma IsDeleting_status_updated v a old :
  IsDeleting (as_status_updated with_status v a old) = IsDeleting old.
Proof. unfold IsDeleting, as_status_updated. by rewrite GetMeta_SetMeta. Qed.
Lemma GetFinalizers_status_updated v a old :
  GetFinalizers (as_status_updated with_status v a old) = GetFinalizers old.
Proof. unfold GetFinalizers, as_status_updated. by rewrite GetMeta_SetMeta. Qed.

Lemma store_put_kept m a : (IsDeleting a = true → GetFinalizers a ≠ []) → store_put m a = <[key_of a := a]> m.
Proof.
  intros Hf. unfold store_put. destruct (IsDeleting a) eqn:Ed; [|done].
  destruct (GetFinalizers a); [by destruct (Hf eq_refl)|done].
Qed.

Lemma stored_update (v : N) (m : store A) a old :
  m !! key_of old = Some old → same_version a old → (IsDeleting old = true → GetFinalizers a ≠ []) →
  store_update with_status v m a =
    (<[key_of old := as_updated with_status v a old]> m, Ok (as_updated with_status v a old)).
Proof.
  intros Hl Hv Hf. unfold store_update. rewrite (store_current_same _ _ _ Hl Hv).
  fold (as_updated with_status v a old). rewrite store_put_kept.
  - by rewrite key_of_updated, (same_version_key _ _ Hv).
  - by rewrite IsDeleting_updated, GetFinalizers_updated.
Qed.

(** The last finalizer of an object under deletion: the object goes. *)
Lemma stored_released (v : N) (m : store A) a old :
  m !! key_of old = Some old → same_version a old → IsDeleting old = true → GetFinalizers a = [] →
  store_update with_status v m a = (delete (key_of old) m, Ok (as_updated with_status v a old)).
Proof.
  intros Hl Hv Hd Hf. unfold store_update. rewrite (store_current_same _ _ _ Hl Hv).
  fold (as_updated with_status v a old). unfold store_put.
  by rewrite IsDeleting_updated, GetFinalizers_updated, Hd, Hf, key_of_updated, (same_version_key _ _ Hv).
Qed.

Lemma stored_update_status (v : N) (m : store A) a old :
  stored m old → same_version a old →
  store_update_status with_status v m a =
    (<[key_of old := as_status_updated with_status v a old]> m,
     Ok (as_status_updated with_status v a old)).
Proof.
  intros [Hl Hf] Hv. unfold store_update_status. rewrite (store_current_same _ _ _ Hl Hv).
  fold (as_status_updated with_status v a old). rewrite store_put_kept.
  - by rewrite key_of_status_updated.
  - by rewrite IsDeleting_status_updated, GetFinalizers_status_updated.
Qed.

Lemma current_update (v : N) (m : store A) a old :
  current m old → same_version a old →
  store_update with_status v m a =
    (<[key_of old := as_updated with_status v a old]> m, Ok (as_updated with_status v a old)).
Proof. intros [Hl Hd] Hv. apply stored_update; [done..|]. by rewrite Hd. Qed.

Lemma current_update_status (v : N) (m : store A) a old :
  current m old → same_version a old →
  store_update_status with_status v m a =
    (<[key_of old := as_status_updated with_status v a old]> m,
     Ok (as_status_updated with_status v a old)).
Proof. intros Hc. by apply stored_update_status, current_stored. Qed.

(** The deletion of an object without finalizers. *)
Lemma stored_delete (v : N) (now : Z) (m : store A) a old :
  m !! key_of a = Some old → key_of old = key_of a → GetFinalizers old = [] → now ≠ 0%Z →
  store_delete v now m a = (delete (key_of a) m, Ok tt).
Proof.
  intros Hl Hk Hf Hnow. unfold store_delete. rewrite Hl. fold (as_deleted v now old).
  unfold store_put. rewrite key_of_deleted, Hk.
  assert (IsDeleting (as_deleted v now old) = true) as ->.
  { unfold IsDeleting, as_deleted. rewrite GetMeta_SetMeta. cbn. apply Z.eqb_neq in Hnow as ->. done. }
  assert (GetFinalizers (as_deleted v now old) = []) as ->; [|done].
  unfold GetFinalizers, as_deleted. rewrite GetMeta_SetMeta. exact Hf.
Qed.
End store.

(** What a write of claims leaves alone, and a write of Buckets. *)
Definition claims_written (w w' : World) : Prop :=
  w_buckets w' = w_buckets w ∧ w_classes w' = w_classes w ∧ w_driver w' = w_driver w.
Definition buckets_written (w w' : World) : Prop :=
  w_claims w' = w_claims w ∧ w_classes w' = w_classes w ∧ w_driver w' = w_driver w.

Lemma claims_written_trans w1 w2 w3 :
  claims_written w1 w2 → claims_written w2 w3 → claims_written w1 w3.
Proof. unfold claims_written. intuition congruence. Qed.
Lemma buckets_written_trans w1 w2 w3 :
  buckets_written w1 w2 → buckets_written w2 w3 → buckets_written w1 w3.
Proof. unfold buckets_written. intuition congruence. Qed.

(** The same object with another status and other finalizers. *)
Definition claim_kept (c c' : BucketClaim) : Prop :=
  key_of c' = key_of c ∧ GetUID c' = GetUID c ∧ claim_Spec c' = claim_Spec c.
Definition bucket_kept (b b' : Bucket) : Prop :=
  key_of b' = key_of b ∧ GetUID b' = GetUID b ∧ bucket_Spec b' = bucket_Spec b.

(** The rules for the four writes of a live object: the writer's version is the stored one. *)
Lemma runs_UpdateClaim {A} c c1 (k : _ → prog A) w Q :
  current (w_claims w) c → same_version c1 c → claim_Spec c1 = claim_Spec c →
  (∀ w' c2, current (w_claims w') c2 → claims_written w w' → claim_kept c c2 →
     claim_Status c2 = claim_Status c → runs (k (Ok c2)) w' Q) →
  runs (Call (UpdateClaim c1) k) w Q.
Proof.
  intros Hc Hv Hs Hk. cbn [runs handle]. rewrite (current_update _ _ _ _ _ Hc Hv).
  pose proof Hv as (Hn & Hns & _ & _). apply Hk; [|done| |done].
  - split; [|exact (proj2 Hc)].
    cbn [write with_claims with_buckets w_claims w_buckets fst snd]. rewrite key_of_updated.
    replace (key_of c1) with (key_of c) by (unfold key_of; congruence). apply lookup_insert_eq.
  - split_and!; [rewrite key_of_updated; unfold key_of; congruence|done|exact Hs].
Qed.

Lemma runs_StatusUpdateClaim {A} c c1 (k : _ → prog A) w Q :
  current (w_claims w) c → same_version c1 c →
  (∀ w' c2, current (w_claims w') c2 → claims_written w w' → claim_kept c c2 →
     claim_Status c2 = claim_Status c1 → runs (k (Ok c2)) w' Q) →
  runs (Call (StatusUpdateClaim c1) k) w Q.
Proof.
  intros Hc Hv Hk. cbn [runs handle]. rewrite (current_update_status _ _ _ _ _ Hc Hv).
  apply Hk; [|done| |done].
  - split; [|exact (proj2 Hc)].
    cbn [write with_claims with_buckets w_claims w_buckets fst snd]. rewrite key_of_status_updated. apply lookup_insert_eq.
  - split_and!; [apply key_of_status_updated|done..].
Qed.

Lemma runs_UpdateBucket {A} b b1 (k : _ → prog A) w Q :
  current (w_buckets w) b → same_version b1 b → bucket_Spec b1 = bucket_Spec b →
  (∀ w' b2, current (w_buckets w') b2 → buckets_written w w' → bucket_kept b b2 →
     bucket_Status b2 = bucket_Status b → runs (k (Ok b2)) w' Q) →
  runs (Call (UpdateBucket b1) k) w Q.
Proof.
  intros Hc Hv Hs Hk. cbn [runs handle]. rewrite (current_update _ _ _ _ _ Hc Hv).
  pose proof Hv as (Hn & Hns & _ & _). apply Hk; [|done| |done].
  - split; [|exact (proj2 Hc)].
    cbn [write with_claims with_buckets w_claims w_buckets fst snd]. rewrite key_of_updated.
    replace (key_of b1) with (key_of b) by (unfold key_of; congruence). apply lookup_insert_eq.
  - split_and!; [rewrite key_of_updated; unfold key_of; congruence|done|exact Hs].
Qed.

(** The same with another spec. *)
Lemma runs_UpdateBucket_spec {A} b b1 (k : _ → prog A) w Q :
  current (w_buckets w) b → same_version b1 b →
  (∀ w' b2, current (w_buckets w') b2 → buckets_written w w' → key_of b2 = key_of b →
     bucket_Spec b2 = bucket_Spec b1 → bucket_Status b2 = bucket_Status b → runs (k (Ok b2)) w' Q) →
  runs (Call (UpdateBucket b1) k) w Q.
Proof.
  intros Hc Hv Hk. cbn [runs handle]. rewrite (current_update _ _ _ _ _ Hc Hv).
  pose proof Hv as (Hn & Hns & _ & _). apply Hk; [|done| |done|done].
  - split; [|exact (proj2 Hc)].
    cbn [write with_claims with_buckets w_claims w_buckets fst snd]. rewrite key_of_updated.
    replace (key_of b1) with (key_of b) by (unfold key_of; congruence). apply lookup_insert_eq.
  - rewrite key_of_updated. unfold key_of. congruence.
Qed.

Lemma runs_StatusUpdateBucket {A} b b1 (k : _ → prog A) w Q :
  current (w_buckets w) b → same_version b1 b →
  (∀ w' b2, current (w_buckets w') b2 → buckets_written w w' → bucket_kept b b2 →
     bucket_Status b2 = bucket_Status b1 → runs (k (Ok b2)) w' Q) →
  runs (Call (StatusUpdateBucket b1) k) w Q.
Proof.
  intros Hc Hv Hk. cbn [runs handle]. rewrite (current_update_status _ _ _ _ _ Hc Hv).
  apply Hk; [|done| |done].
  - split; [|exact (proj2 Hc)].
    cbn [write with_claims with_buckets w_claims w_buckets fst snd]. rewrite key_of_status_updated. apply lookup_insert_eq.
  - split_and!; [apply key_of_status_updated|done..].
Qed.

(** ** Writes of accesses, claims and Secrets *)

Definition put_access (w : World) (a : BucketAccess) : World :=
  with_accesses (<[key_of a := a]> (w_accesses w)) w.
Definition put_claim (w : World) (c : BucketClaim) : World :=
  with_claims (<[key_of c := c]> (w_claims w)) w.
Definition put_secret (w : World) (s : Secret) : World :=
  with_secrets (<[key_of s := s]> (w_secrets w)) w.

(** The access that the server stores and answers with: the metadata that belongs to the
    user and to the controllers is the writer's. *)
Definition access_written (a1 a : BucketAccess) (status : BucketAccessStatus) (a2 : BucketAccess) : Prop :=
  key_of a2 = key_of a1 ∧ GetUID a2 = GetUID a ∧ access_Spec a2 = access_Spec a1 ∧
  GetAnnotations a2 = GetAnnotations a1 ∧ GetFinalizers a2 = GetFinalizers a1 ∧
  IsDeleting a2 = IsDeleting a ∧ access_Status a2 = status.

Lemma runs_UpdateAccess {A} a a1 (k : _ → prog A) w Q :
  w_accesses w !! key_of a = Some a → same_version a1 a →
  (IsDeleting a = true → GetFinalizers a1 ≠ []) →
  (∀ a2, access_written a1 a (access_Status a) a2 → runs (k (Ok a2)) (put_access w a2) Q) →
  runs (Call (UpdateAccess a1) k) w Q.
Proof.
  intros Hl Hv Hf Hk. cbn [runs handle]. rewrite (stored_update _ _ _ _ _ Hl Hv Hf).
  rewrite <-(same_version_key _ _ Hv), <-(key_of_updated access_status_of (w_version w) a1 a).
  by apply Hk.
Qed.

Lemma runs_StatusUpdateAccess {A} a a1 (k : _ → prog A) w Q :
  stored (w_accesses w) a → same_version a1 a →
  (∀ a2, access_written a a (access_Status a1) a2 → runs (k (Ok a2)) (put_access w a2) Q) →
  runs (Call (StatusUpdateAccess a1) k) w Q.
Proof.
  intros Hl Hv Hk. cbn [runs handle]. rewrite (stored_update_status _ _ _ _ _ Hl Hv).
  rewrite <-(key_of_status_updated access_status_of (w_version w) a1 a). by apply Hk.
Qed.

(** The last finalizer of an access under deletion is removed. *)
Lemma runs_release {A} a1 a (k : _ → prog A) w Q :
  w_accesses w !! key_of a = Some a ∧ IsDeleting a = true → same_version a1 a → GetFinalizers a1 = [] →
  (∀ a2, runs (k (Ok a2)) (with_accesses (delete (key_of a) (w_accesses w)) w) Q) →
  runs (Call (UpdateAccess a1) k) w Q.
Proof.
  intros [Hl Hd] Hv Hf Hk. cbn [runs handle]. rewrite (stored_released _ _ _ _ _ Hl Hv Hd Hf). by apply Hk.
Qed.

Lemma runs_UpdateClaim_stored {A} c c1 (k : _ → prog A) w Q :
  w_claims w !! key_of c = Some c → same_version c1 c →
  (IsDeleting c = true → GetFinalizers c1 ≠ []) →
  (∀ c2, key_of c2 = key_of c1 → claim_Status c2 = claim_Status c → IsDeleting c2 = IsDeleting c →
     GetFinalizers c2 = GetFinalizers c1 → GetAnnotations c2 = GetAnnotations c1 →
     runs (k (Ok c2)) (put_claim w c2) Q) →
  runs (Call (UpdateClaim c1) k) w Q.
Proof.
  intros Hl Hv Hf Hk. cbn [runs handle]. rewrite (stored_update _ _ _ _ _ Hl Hv Hf).
  rewrite <-(same_version_key _ _ Hv), <-(key_of_updated claim_status_of (w_version w) c1 c).
  by apply Hk.
Qed.

(** A Secret as the server stores it: [stringData] is moved to [data]. *)
Definition secret_written (s1 s2 : Secret) : Prop :=
  key_of s2 = key_of s1 ∧ meta_OwnerReferences (GetMeta s2) = meta_OwnerReferences (GetMeta s1) ∧
  GetFinalizers s2 = GetFinalizers s1 ∧ IsDeleting s2 = false ∧
  secret_Data s2 = secret_StringData s1 ∪ secret_Data s1.

Lemma runs_UpdateSecret {A} s s1 (k : _ → prog A) w Q :
  current (w_secrets w) s → same_version s1 s →
  (∀ s2, secret_written s1 s2 → runs (k (Ok s2)) (put_secret w s2) Q) →
  runs (Call (UpdateSecret s1) k) w Q.
Proof.
  intros Hc Hv Hk. cbn [runs handle]. rewrite (current_update _ _ _ _ _ Hc Hv).
  rewrite <-(same_version_key _ _ Hv), <-(key_of_updated secret_no_status (w_version w) s1 s).
  apply Hk. split_and!; try done. exact (proj2 Hc).
Qed.

Lemma runs_CreateSecret {A} s1 (k : _ → prog A) w Q :
  w_secrets w !! key_of s1 = None →
  (∀ s2, secret_written s1 s2 → runs (k (Ok s2)) (put_secret w s2) Q) →
  runs (Call (CreateSecret s1) k) w Q.
Proof.
  intros Hl Hk. cbn [runs handle]. unfold store_create.
  change (key_of (secret_stored s1)) with (key_of s1). rewrite Hl.
  apply (Hk (as_created (w_version w) (secret_stored s1))). by split_and!.
Qed.

Lemma runs_DeleteSecret {A} s old (k : _ → prog A) w Q :
  w_secrets w !! key_of s = Some old → key_of old = key_of s → GetFinalizers old = [] →
  w_now w ≠ 0%Z →
  runs (k (Ok tt)) (with_secrets (delete (key_of s) (w_secrets w)) w) Q →
  runs (Call (DeleteSecret s) k) w Q.
Proof.
  intros Hl Hk Hf Hn HQ. cbn [runs handle]. by rewrite (stored_delete _ _ _ _ _ Hl Hk Hf Hn).
Qed.

(** Reads. *)
Lemma runs_GetAccess {A} key a (k : _ → prog A) w Q :
  w_accesses w !! (nn_Namespace key, nn_Name key) = Some a →
  runs (k (Ok a)) w Q → runs (Call (GetAccess key) k) w Q.
Proof. intros Hl HQ. cbn [runs handle]. unfold store_get. by rewrite Hl. Qed.
Lemma runs_GetClaim {A} key c (k : _ → prog A) w Q :
  w_claims w !! (nn_Namespace key, nn_Name key) = Some c →
  runs (k (Ok c)) w Q → runs (Call (GetClaim key) k) w Q.
Proof. intros Hl HQ. cbn [runs handle]. unfold store_get. by rewrite Hl. Qed.
Lemma runs_GetBucket {A} key b (k : _ → prog A) w Q :
  w_buckets w !! (nn_Namespace key, nn_Name key) = Some b →
  runs (k (Ok b)) w Q → runs (Call (GetBucket key) k) w Q.
Proof. intros Hl HQ. cbn [runs handle]. unfold store_get. by rewrite Hl. Qed.
Lemma runs_GetSecret {A} key s (k : _ → prog A) w Q :
  w_secrets w !! (nn_Namespace key, nn_Name key) = Some s →
  runs (k (Ok s)) w Q → runs (Call (GetSecret key) k) w Q.
Proof. intros Hl HQ. cbn [runs handle]. unfold store_get. by rewrite Hl. Qed.
Lemma runs_GetSecret_None {A} key (k : _ → prog A) w Q :
  w_secrets w !! (nn_Namespace key, nn_Name key) = None →
  (∀ msg, runs (k (Err (NotFoundErr msg))) w Q) → runs (Call (GetSecret key) k) w Q.
Proof. intros Hl HQ. cbn [runs handle]. unfold store_get. rewrite Hl. apply HQ. Qed.
Lemma runs_GetClaim_None {A} key (k : _ → prog A) w Q :
  w_claims w !! (nn_Namespace key, nn_Name key) = None →
  (∀ msg, runs (k (Err (NotFoundErr msg))) w Q) → runs (Call (GetClaim key) k) w Q.
Proof. intros Hl HQ. cbn [runs handle]. unfold store_get. rewrite Hl. apply HQ. Qed.
Lemma runs_GetAccess_None {A} key (k : _ → prog A) w Q :
  w_accesses w !! (nn_Namespace key, nn_Name key) = None →
  (∀ msg, runs (k (Err (NotFoundErr msg))) w Q) → runs (Call (GetAccess key) k) w Q.
Proof. intros Hl HQ. cbn [runs handle]. unfold store_get. rewrite Hl. apply HQ. Qed.

(** ** Plans of turns

    The Controller and the Sidecar take turns. A plan is the list of turns that something
    needs; each turn that is the next of the plan advances it by one stage, every other
    turn leaves it where it is. *)

Inductive turn : Type := ControllerTurn | SidecarTurn.
#[export] Instance turn_eq_dec : EqDecision turn.
Proof. solve_decision. Defined.

Definition advance (plan : list turn) (n : nat) (t : turn) : nat :=
  if decide (plan !! n = Some t) then S n else n.

Lemma advance_plan plan ts n :
  n ≤ length plan → drop n plan `sublist_of` ts → foldl (advance plan) n ts = length plan.
Proof.
  revert n. induction ts as [|t ts IH]; intros n Hn Hsub; cbn.
  - apply sublist_nil_r, (f_equal length) in Hsub. rewrite length_drop in Hsub. cbn in Hsub. lia.
  - unfold advance at 2. destruct (decide _) as [Ht|Ht].
    + pose proof (lookup_lt_Some _ _ _ Ht). apply IH; [lia|]. rewrite (drop_S plan t n Ht) in Hsub.
      apply sublist_cons_r in Hsub as [Hsub|(l & [= <-] & Hsub)]; [|done].
      etrans; [|exact Hsub]. by apply sublist_cons.
    + apply IH; [done|]. apply sublist_cons_r in Hsub as [Hsub|(l & Hl & _)]; [done|].
      destruct Ht. rewrite <-(Nat.add_0_r n), <-lookup_drop. by rewrite Hl.
Qed.

(** The whole plan is carried out by every sequence of turns that it is a part of. *)
Lemma plan_carried_out plan (take : World → turn → World) (stage : nat → World → Prop) w ts :
  (∀ n w t, stage n w → stage (advance plan n t) (take w t)) →
  stage 0 w → plan `sublist_of` ts → stage (length plan) (foldl take w ts).
Proof.
  intros Hstep Hst Hsub. rewrite <-(advance_plan plan ts 0); [|lia|done].
  generalize 0 Hst. clear Hst Hsub. intros n. revert n w.
  induction ts as [|t ts IH]; intros n w Hst; cbn; [done|]. by apply IH, Hstep.
Qed.
