(* ===== verification/Protocol.v ===== *)
(** * Translation between driver messages and user-facing variables

    Models [src/internal/protocol]: the object protocol translator and the
    [RpcApiTranslator] interface with its six implementations (bucket info and
    credentials for S3, Azure and GCS). [RpcApiTranslator] is the record of the
    interface's methods and [TranslatorLaws] its documented contract; the clients in
    Translator.v rely on the laws only. *)

From stdpp Require Import base gmap strings list.
From S2P Require Import Prelude GoErrors ApiTypes ProtoTypes.

(** A Go map that may be nil; [len] and reads do not tell nil from empty. *)
Definition go_map : Type := option (gmap string string).

Definition map_of (m : go_map) : gmap string string := default ∅ m.

(** [m[k]]. *)
Definition var (m : go_map) (k : string) : string := go_get (map_of m) k.

(** [len(m) == 0]. *)
Definition map_is_empty (m : go_map) : bool := size (map_of m) =? 0.

(** ** Object protocols ([protocol.go]) *)

(** One byte of a UTF-8 encoding. *)
Definition utf8_byte (z : Z) : string :=
  String (Ascii.ascii_of_N (Z.to_N z)) EmptyString.

(** Go's conversion [string(x)] of an integer: the UTF-8 encoding of the code point,
    or of U+FFFD when it is none. *)
Definition rune_string (x : Z) : string :=
  let r := if (x <? 0)%Z || (1114111 <? x)%Z || ((55296 <=? x)%Z && (x <=? 57343)%Z)
           then 65533%Z else x in
  let cont (k : Z) := utf8_byte (128 + Z.land (Z.shiftr r k) 63) in
  if (r <? 128)%Z then utf8_byte r
  else if (r <? 2048)%Z then utf8_byte (192 + Z.shiftr r 6) +:+ cont 0%Z
  else if (r <? 65536)%Z then utf8_byte (224 + Z.shiftr r 12) +:+ cont 6%Z +:+ cont 0%Z
  else utf8_byte (240 + Z.shiftr r 18) +:+ cont 12%Z +:+ cont 6%Z +:+ cont 0%Z.

Definition objectProtocolProtoApiMapping : list (Z * string) :=
  [(ObjectProtocol_S3, ObjectProtocolS3);
   (ObjectProtocol_AZURE, ObjectProtocolAzure);
   (ObjectProtocol_GCS, ObjectProtocolGcs)].

Definition ObjectProtocol_RpcToApi (inp : Z) : result error string :=
  match List.find (λ pa, (pa.1 =? inp)%Z) objectProtocolProtoApiMapping with
  | Some pa => Ok pa.2
  | None => Err (Errorf ("unknown driver protocol " +:+ quote (rune_string inp)))
  end.

(** The range loop of [ApiToRpc] over the mapping in the order [l]. *)
Definition ObjectProtocol_ApiToRpc_loop (l : list (Z * string)) (inp : string) : result error Z :=
  match List.find (λ pa, pa.2 =s inp) l with
  | Some pa => Ok pa.1
  | None => Err (Errorf ("unknown api protocol " +:+ quote inp))
  end.

Definition ObjectProtocol_ApiToRpc (inp : string) : result error Z :=
  ObjectProtocol_ApiToRpc_loop objectProtocolProtoApiMapping inp.

(** ** The [RpcApiTranslator] interface *)

Record RpcApiTranslator (M : Type) : Type := {
  ApiProtocol : string;
  RpcToApi : option M → go_map;
  ApiToRpc : go_map → option M;
  Validate : go_map → string → option error
}.

Arguments ApiProtocol {M} _.
Arguments RpcToApi {M} _ _.
Arguments ApiToRpc {M} _ _.
Arguments Validate {M} _ _ _.

(** ** S3 ([s3.go]) *)

Definition s3AddressingStylePath : string := "path".
Definition s3AddressingStyleVirtual : string := "virtual".
Definition validS3AddressingStyles : list string :=
  [s3AddressingStylePath; s3AddressingStyleVirtual].

Definition S3BucketInfo_RpcToApi (b : option S3BucketInfo) : go_map :=
  match b with
  | None => None
  | Some b =>
      let out : gmap string string :=
        {[ BucketInfoVar_S3_BucketId := s3Info_BucketId b;
           BucketInfoVar_S3_Endpoint := s3Info_Endpoint b;
           BucketInfoVar_S3_Region := s3Info_Region b;
           BucketInfoVar_S3_AddressingStyle := "" ]} in
      match s3Info_AddressingStyle b with
      | None => Some out
      | Some style =>
          if (s3Style_Style style =? S3AddressingStyle_PATH)%Z then
            Some (<[BucketInfoVar_S3_AddressingStyle := s3AddressingStylePath]> out)
          else if (s3Style_Style style =? S3AddressingStyle_VIRTUAL)%Z then
            Some (<[BucketInfoVar_S3_AddressingStyle := s3AddressingStyleVirtual]> out)
          else Some out
      end
  end.

Definition S3BucketInfo_ApiToRpc (vars : go_map) : option S3BucketInfo :=
  if map_is_empty vars then None
  else
    let addrStyle := var vars BucketInfoVar_S3_AddressingStyle in
    Some {| s3Info_BucketId := var vars BucketInfoVar_S3_BucketId;
            s3Info_Endpoint := var vars BucketInfoVar_S3_Endpoint;
            s3Info_Region := var vars BucketInfoVar_S3_Region;
            s3Info_AddressingStyle :=
              Some {| s3Style_Style :=
                        if addrStyle =s s3AddressingStylePath then S3AddressingStyle_PATH
                        else if addrStyle =s s3AddressingStyleVirtual
                             then S3AddressingStyle_VIRTUAL
                             else S3AddressingStyle_UNKNOWN |} |}.

Definition S3BucketInfo_Validate (vars : go_map) (_ : string) : option error :=
  let id := var vars BucketInfoVar_S3_BucketId in
  let ep := var vars BucketInfoVar_S3_Endpoint in
  let rg := var vars BucketInfoVar_S3_Region in
  let as_ := var vars BucketInfoVar_S3_AddressingStyle in
  let errs :=
    when_err (id =s "") (Errorf "S3 bucket ID cannot be unset") ++
    when_err (ep =s "") (Errorf "S3 endpoint cannot be unset") ++
    when_err (rg =s "") (Errorf "S3 region cannot be unset") ++
    when_err (negb (slices_Contains validS3AddressingStyles as_))
      (Errorf ("S3 addressing style " +:+ quote as_ +:+ " must be one of " +:+
               fmt_slice validS3AddressingStyles)) in
  report "S3 bucket info is invalid" errs.

Definition S3BucketInfoTranslator : RpcApiTranslator S3BucketInfo := {|
  ApiProtocol := ObjectProtocolS3;
  RpcToApi := S3BucketInfo_RpcToApi;
  ApiToRpc := S3BucketInfo_ApiToRpc;
  Validate := S3BucketInfo_Validate |}.

Definition S3Credential_RpcToApi (c : option S3CredentialInfo) : go_map :=
  match c with
  | None => None
  | Some c =>
      Some {[ CredentialVar_S3_AccessKeyId := s3Cred_AccessKeyId c;
              CredentialVar_S3_AccessSecretKey := s3Cred_AccessSecretKey c ]}
  end.

Definition S3Credential_ApiToRpc (vars : go_map) : option S3CredentialInfo :=
  if map_is_empty vars then None
  else
    Some {| s3Cred_AccessKeyId := var vars CredentialVar_S3_AccessKeyId;
            s3Cred_AccessSecretKey := var vars CredentialVar_S3_AccessSecretKey |}.

Definition S3Credential_Validate (vars : go_map) (authType : string) : option error :=
  if authType <>s BucketAccessAuthenticationTypeKey then None
  else
    let errs :=
      when_err (var vars CredentialVar_S3_AccessKeyId =s "")
        (Errorf "S3 access key ID cannot be unset") ++
      when_err (var vars CredentialVar_S3_AccessSecretKey =s "")
        (Errorf "S3 access secret key cannot be unset") in
    report "S3 credential info is invalid" errs.

Definition S3CredentialTranslator : RpcApiTranslator S3CredentialInfo := {|
  ApiProtocol := ObjectProtocolS3;
  RpcToApi := S3Credential_RpcToApi;
  ApiToRpc := S3Credential_ApiToRpc;
  Validate := S3Credential_Validate |}.

(** ** Azure ([azure.go]) *)

Definition AzureBucketInfo_RpcToApi (b : option AzureBucketInfo) : go_map :=
  match b with
  | None => None
  | Some b => Some {[ BucketInfoVar_Azure_StorageAccount := azureInfo_StorageAccount b ]}
  end.

Definition AzureBucketInfo_ApiToRpc (vars : go_map) : option AzureBucketInfo :=
  if map_is_empty vars then None
  else Some {| azureInfo_StorageAccount := var vars BucketInfoVar_Azure_StorageAccount |}.

Definition AzureBucketInfo_Validate (vars : go_map) (_ : string) : option error :=
  let errs :=
    when_err (var vars BucketInfoVar_Azure_StorageAccount =s "")
      (Errorf "azure storage account cannot be unset") in
  report "azure bucket info is invalid" errs.

Definition AzureBucketInfoTranslator : RpcApiTranslator AzureBucketInfo := {|
  ApiProtocol := ObjectProtocolAzure;
  RpcToApi := AzureBucketInfo_RpcToApi;
  ApiToRpc := AzureBucketInfo_ApiToRpc;
  Validate := AzureBucketInfo_Validate |}.

Definition AzureCredential_RpcToApi (c : option AzureCredentialInfo) : go_map :=
  match c with
  | None => None
  | Some c =>
      Some {[ CredentialVar_Azure_AccessToken := azureCred_AccessToken c;
              CredentialVar_Azure_ExpiryTimestamp := azureCred_ExpiryTimestamp c ]}
  end.

Definition AzureCredential_ApiToRpc (vars : go_map) : option AzureCredentialInfo :=
  if map_is_empty vars then None
  else
    Some {| azureCred_AccessToken := var vars CredentialVar_Azure_AccessToken;
            azureCred_ExpiryTimestamp := var vars CredentialVar_Azure_ExpiryTimestamp |}.

Definition AzureCredential_Validate (vars : go_map) (authType : string) : option error :=
  if authType <>s BucketAccessAuthenticationTypeKey then None
  else
    let errs :=
      when_err (var vars CredentialVar_Azure_AccessToken =s "")
        (Errorf "azure access token cannot be unset") in
    report "azure credential info is invalid" errs.

Definition AzureCredentialTranslator : RpcApiTranslator AzureCredentialInfo := {|
  ApiProtocol := ObjectProtocolAzure;
  RpcToApi := AzureCredential_RpcToApi;
  ApiToRpc := AzureCredential_ApiToRpc;
  Validate := AzureCredential_Validate |}.

(** ** GCS ([gcs.go]) *)

Definition GcsBucketInfo_RpcToApi (b : option GcsBucketInfo) : go_map :=
  match b with
  | None => None
  | Some b =>
      Some {[ BucketInfoVar_GCS_BucketName := gcsInfo_BucketName b;
              BucketInfoVar_GCS_ProjectId := gcsInfo_ProjectId b ]}
  end.

Definition GcsBucketInfo_ApiToRpc (vars : go_map) : option GcsBucketInfo :=
  if map_is_empty vars then None
  else
    Some {| gcsInfo_ProjectId := var vars BucketInfoVar_GCS_ProjectId;
            gcsInfo_BucketName := var vars BucketInfoVar_GCS_BucketName |}.

Definition GcsBucketInfo_Validate (vars : go_map) (_ : string) : option error :=
  let errs :=
    when_err (var vars BucketInfoVar_GCS_BucketName =s "")
      (Errorf "GCS bucket name cannot be unset") ++
    when_err (var vars BucketInfoVar_GCS_ProjectId =s "")
      (Errorf "GCS project ID cannot be unset") in
  report "GCS bucket info is invalid" errs.

Definition GcsBucketInfoTranslator : RpcApiTranslator GcsBucketInfo := {|
  ApiProtocol := ObjectProtocolGcs;
  RpcToApi := GcsBucketInfo_RpcToApi;
  ApiToRpc := GcsBucketInfo_ApiToRpc;
  Validate := GcsBucketInfo_Validate |}.

Definition GcsCredential_RpcToApi (c : option GcsCredentialInfo) : go_map :=
  match c with
  | None => None
  | Some c =>
      Some {[ CredentialVar_GCS_AccessId := gcsCred_AccessId c;
              CredentialVar_GCS_AccessSecret := gcsCred_AccessSecret c;
              CredentialVar_GCS_PrivateKeyName := gcsCred_PrivateKeyName c;
              CredentialVar_GCS_ServiceAccount := gcsCred_ServiceAccount c ]}
  end.

Definition GcsCredential_ApiToRpc (vars : go_map) : option GcsCredentialInfo :=
  if map_is_empty vars then None
  else
    Some {| gcsCred_AccessId := var vars CredentialVar_GCS_AccessId;
            gcsCred_AccessSecret := var vars CredentialVar_GCS_AccessSecret;
            gcsCred_PrivateKeyName := var vars CredentialVar_GCS_PrivateKeyName;
            gcsCred_ServiceAccount := var vars CredentialVar_GCS_ServiceAccount |}.

Definition GcsCredential_Validate (vars : go_map) (authType : string) : option error :=
  let errs :=
    if authType =s BucketAccessAuthenticationTypeKey then
      when_err (var vars CredentialVar_GCS_AccessId =s "")
        (Errorf "GCS access ID cannot be unset") ++
      when_err (var vars CredentialVar_GCS_AccessSecret =s "")
        (Errorf "GCS access secret cannot be unset")
    else if authType =s BucketAccessAuthenticationTypeServiceAccount then
      when_err (var vars CredentialVar_GCS_PrivateKeyName =s "")
        (Errorf "GCS private key name cannot be unset") ++
      when_err (var vars CredentialVar_GCS_ServiceAccount =s "")
        (Errorf "GCS service account cannot be unset")
    else [] in
  report "GCS credential info is invalid" errs.

Definition GcsCredentialTranslator : RpcApiTranslator GcsCredentialInfo := {|
  ApiProtocol := ObjectProtocolGcs;
  RpcToApi := GcsCredential_RpcToApi;
  ApiToRpc := GcsCredential_ApiToRpc;
  Validate := GcsCredential_Validate |}.

(** ** The contract of the interface *)

(** What a translator says about its message type: the variables it uses, which
    messages a round trip keeps, which variable maps it keeps, and which messages
    pass validation for an authentication type. *)
Record TranslatorSpec (M : Type) : Type := {
  spec_keys : gset string;
  spec_canonical : M → Prop;
  spec_wf : gmap string string → Prop;
  spec_required : string → M → Prop
}.

Arguments spec_keys {M} _.
Arguments spec_canonical {M} _ _.
Arguments spec_wf {M} _ _.
Arguments spec_required {M} _ _ _.

Class TranslatorLaws {M} (T : RpcApiTranslator M) (S : TranslatorSpec M) : Prop := {
  law_nil : RpcToApi T None = None;
  law_empty m : map_is_empty m = true → ApiToRpc T m = None;
  law_keys b : ∃ m, RpcToApi T (Some b) = Some m ∧ dom m = spec_keys S;
  law_rpc_roundtrip b : spec_canonical S b → ApiToRpc T (RpcToApi T (Some b)) = Some b;
  law_api_roundtrip m :
    dom m = spec_keys S → spec_wf S m → RpcToApi T (ApiToRpc T (Some m)) = Some m;
  law_validate b auth :
    Validate T (RpcToApi T (Some b)) auth = None ↔ spec_required S auth b
}.

Definition S3BucketInfo_spec : TranslatorSpec S3BucketInfo := {|
  spec_keys := {[ BucketInfoVar_S3_BucketId; BucketInfoVar_S3_Endpoint;
                  BucketInfoVar_S3_Region; BucketInfoVar_S3_AddressingStyle ]};
  spec_canonical b := ∃ s, s3Info_AddressingStyle b = Some {| s3Style_Style := s |} ∧
    (s = S3AddressingStyle_UNKNOWN ∨ s = S3AddressingStyle_PATH ∨ s = S3AddressingStyle_VIRTUAL);
  spec_wf m := go_get m BucketInfoVar_S3_AddressingStyle ∈ "" :: validS3AddressingStyles;
  spec_required _ b :=
    s3Info_BucketId b ≠ "" ∧ s3Info_Endpoint b ≠ "" ∧ s3Info_Region b ≠ "" ∧
    ∃ s, s3Info_AddressingStyle b = Some {| s3Style_Style := s |} ∧
         (s = S3AddressingStyle_PATH ∨ s = S3AddressingStyle_VIRTUAL) |}.

Definition S3Credential_spec : TranslatorSpec S3CredentialInfo := {|
  spec_keys := {[ CredentialVar_S3_AccessKeyId; CredentialVar_S3_AccessSecretKey ]};
  spec_canonical _ := True;
  spec_wf _ := True;
  spec_required auth c := auth = BucketAccessAuthenticationTypeKey →
    s3Cred_AccessKeyId c ≠ "" ∧ s3Cred_AccessSecretKey c ≠ "" |}.

Definition AzureBucketInfo_spec : TranslatorSpec AzureBucketInfo := {|
  spec_keys := {[ BucketInfoVar_Azure_StorageAccount ]};
  spec_canonical _ := True;
  spec_wf _ := True;
  spec_required _ b := azureInfo_StorageAccount b ≠ "" |}.

Definition AzureCredential_spec : TranslatorSpec AzureCredentialInfo := {|
  spec_keys := {[ CredentialVar_Azure_AccessToken; CredentialVar_Azure_ExpiryTimestamp ]};
  spec_canonical _ := True;
  spec_wf _ := True;
  spec_required auth c :=
    auth = BucketAccessAuthenticationTypeKey → azureCred_AccessToken c ≠ "" |}.

Definition GcsBucketInfo_spec : TranslatorSpec GcsBucketInfo := {|
  spec_keys := {[ BucketInfoVar_GCS_ProjectId; BucketInfoVar_GCS_BucketName ]};
  spec_canonical _ := True;
  spec_wf _ := True;
  spec_required _ b := gcsInfo_BucketName b ≠ "" ∧ gcsInfo_ProjectId b ≠ "" |}.

Definition GcsCredential_spec : TranslatorSpec GcsCredentialInfo := {|
  spec_keys := {[ CredentialVar_GCS_AccessId; CredentialVar_GCS_AccessSecret;
                  CredentialVar_GCS_PrivateKeyName; CredentialVar_GCS_ServiceAccount ]};
  spec_canonical _ := True;
  spec_wf _ := True;
  spec_required auth c :=
    (auth = BucketAccessAuthenticationTypeKey →
       gcsCred_AccessId c ≠ "" ∧ gcsCred_AccessSecret c ≠ "") ∧
    (auth = BucketAccessAuthenticationTypeServiceAccount →
       gcsCred_PrivateKeyName c ≠ "" ∧ gcsCred_ServiceAccount c ≠ "") |}.

(** *** Generic steps of the law proofs *)

Lemma ApiToRpc_nonempty (m : gmap string string) k :
  k ∈ dom m → map_is_empty (Some m) = false.
Proof.
  intros [v Hv]%elem_of_dom. apply Nat.eqb_neq. cbn. intros Hs%map_size_empty_inv.
  rewrite Hs in Hv. by rewrite lookup_empty in Hv.
Qed.

(** Two maps over the same variables are equal when they agree on each of them. *)
Lemma map_eq_on_keys (keys : gset string) (m1 m2 : gmap string string) :
  dom m1 = keys → dom m2 = keys →
  (∀ k, k ∈ keys → go_get m1 k = go_get m2 k) → m1 = m2.
Proof.
  intros H1 H2 Hk. apply map_eq. intros i.
  destruct (decide (i ∈ keys)) as [Hi|Hi].
  - specialize (Hk i Hi). unfold go_get in Hk.
    rewrite <-H1 in Hi. apply elem_of_dom in Hi as [v1 E1].
    assert (is_Some (m2 !! i)) as [v2 E2].
    { apply elem_of_dom. rewrite H2, <-H1. apply elem_of_dom. eauto. }
    rewrite E1, E2 in *. simpl in Hk. congruence.
  - assert (m1 !! i = None) as -> by (apply not_elem_of_dom; congruence).
    by assert (m2 !! i = None) as -> by (apply not_elem_of_dom; congruence).
Qed.

Ltac solve_keys := eexists; split; [reflexivity | apply leibniz_equiv; set_solver].

Ltac solve_api_roundtrip Hdom key :=
  match goal with |- context [map_is_empty (Some ?m)] =>
    rewrite (ApiToRpc_nonempty m key) by (rewrite Hdom; set_solver)
  end;
  cbn; f_equal;
  match type of Hdom with _ = ?K => apply (map_eq_on_keys K); [ | exact Hdom | ] end;
  [ apply leibniz_equiv; set_solver
  | intros k; cbn; rewrite ?elem_of_union, ?elem_of_singleton;
    intros ?; destruct_or?; subst k; reflexivity ].

(** The verdict of a report over tests of empty fields. *)
Lemma impl_iff_true (P Q : Prop) : P → (Q ↔ (P → Q)).
Proof. tauto. Qed.

Ltac reflect_report :=
  rewrite ?report_None, ?app_nil, ?when_err_nil; cbn; rewrite ?eqs_false.

#[export] Instance S3Credential_laws : TranslatorLaws S3CredentialTranslator S3Credential_spec.
Proof.
  split; unfold S3CredentialTranslator; cbn [RpcToApi ApiToRpc Validate].
  - done.
  - intros m Hm. unfold S3Credential_ApiToRpc. by rewrite Hm.
  - intros b. solve_keys.
  - by intros [] _.
  - intros m Hdom _. unfold S3Credential_ApiToRpc.
    solve_api_roundtrip Hdom CredentialVar_S3_AccessKeyId.
  - intros [i s] auth. unfold S3Credential_Validate. cbn [spec_required S3Credential_spec].
    destruct (auth =s _) eqn:E; cbn; reflect_bools; [|tauto].
    reflect_report. by apply impl_iff_true.
Qed.

#[export] Instance AzureBucketInfo_laws :
  TranslatorLaws AzureBucketInfoTranslator AzureBucketInfo_spec.
Proof.
  split; unfold AzureBucketInfoTranslator; cbn [RpcToApi ApiToRpc Validate].
  - done.
  - intros m Hm. unfold AzureBucketInfo_ApiToRpc. by rewrite Hm.
  - intros b. solve_keys.
  - by intros [] _.
  - intros m Hdom _. unfold AzureBucketInfo_ApiToRpc.
    solve_api_roundtrip Hdom BucketInfoVar_Azure_StorageAccount.
  - intros [a] auth. unfold AzureBucketInfo_Validate. by reflect_report.
Qed.

#[export] Instance AzureCredential_laws :
  TranslatorLaws AzureCredentialTranslator AzureCredential_spec.
Proof.
  split; unfold AzureCredentialTranslator; cbn [RpcToApi ApiToRpc Validate].
  - done.
  - intros m Hm. unfold AzureCredential_ApiToRpc. by rewrite Hm.
  - intros b. solve_keys.
  - by intros [] _.
  - intros m Hdom _. unfold AzureCredential_ApiToRpc.
    solve_api_roundtrip Hdom CredentialVar_Azure_AccessToken.
  - intros [t x] auth. unfold AzureCredential_Validate. cbn [spec_required AzureCredential_spec].
    destruct (auth =s _) eqn:E; cbn; reflect_bools; [|tauto].
    reflect_report. by apply impl_iff_true.
Qed.

#[export] Instance GcsBucketInfo_laws : TranslatorLaws GcsBucketInfoTranslator GcsBucketInfo_spec.
Proof.
  split; unfold GcsBucketInfoTranslator; cbn [RpcToApi ApiToRpc Validate].
  - done.
  - intros m Hm. unfold GcsBucketInfo_ApiToRpc. by rewrite Hm.
  - intros b. solve_keys.
  - by intros [] _.
  - intros m Hdom _. unfold GcsBucketInfo_ApiToRpc.
    solve_api_roundtrip Hdom BucketInfoVar_GCS_ProjectId.
  - intros [p n] auth. unfold GcsBucketInfo_Validate. by reflect_report.
Qed.

#[export] Instance GcsCredential_laws : TranslatorLaws GcsCredentialTranslator GcsCredential_spec.
Proof.
  split; unfold GcsCredentialTranslator; cbn [RpcToApi ApiToRpc Validate].
  - done.
  - intros m Hm. unfold GcsCredential_ApiToRpc. by rewrite Hm.
  - intros b. solve_keys.
  - by intros [] _.
  - intros m Hdom _. unfold GcsCredential_ApiToRpc.
    solve_api_roundtrip Hdom CredentialVar_GCS_AccessId.
  - intros [i s k a] auth. unfold GcsCredential_Validate. cbn [spec_required GcsCredential_spec].
    destruct (auth =s BucketAccessAuthenticationTypeKey) eqn:E1; reflect_bools;
      [|destruct (auth =s _) eqn:E2; reflect_bools]; try (subst auth); reflect_report;
      unfold BucketAccessAuthenticationTypeKey, BucketAccessAuthenticationTypeServiceAccount in *;
      intuition congruence.
Qed.

(** The addressing style is the one field of the six messages that is not copied. *)
Lemma S3BucketInfo_RpcToApi_style b :
  var (S3BucketInfo_RpcToApi (Some b)) BucketInfoVar_S3_AddressingStyle =
    match s3Info_AddressingStyle b with
    | None => ""
    | Some st =>
        if (s3Style_Style st =? S3AddressingStyle_PATH)%Z then s3AddressingStylePath
        else if (s3Style_Style st =? S3AddressingStyle_VIRTUAL)%Z then s3AddressingStyleVirtual
        else ""
    end.
Proof. destruct b as [? ? ? [[s]|]]; cbn; [|done]. by repeat case_match. Qed.

Lemma S3BucketInfo_RpcToApi_fields b :
  var (S3BucketInfo_RpcToApi (Some b)) BucketInfoVar_S3_BucketId = s3Info_BucketId b ∧
  var (S3BucketInfo_RpcToApi (Some b)) BucketInfoVar_S3_Endpoint = s3Info_Endpoint b ∧
  var (S3BucketInfo_RpcToApi (Some b)) BucketInfoVar_S3_Region = s3Info_Region b.
Proof. destruct b as [? ? ? [[s]|]]; cbn; repeat case_match; done. Qed.

#[export] Instance S3BucketInfo_laws : TranslatorLaws S3BucketInfoTranslator S3BucketInfo_spec.
Proof.
  split; unfold S3BucketInfoTranslator; cbn [RpcToApi ApiToRpc Validate].
  - done.
  - intros m Hm. unfold S3BucketInfo_ApiToRpc. by rewrite Hm.
  - intros [i e r [[s]|]]; cbn; repeat case_match; solve_keys.
  - intros [i e r st] (s & Hs & [->|[->| ->]]); cbn in Hs; by subst st.
  - intros m Hdom Hwf. unfold S3BucketInfo_ApiToRpc.
    rewrite (ApiToRpc_nonempty m BucketInfoVar_S3_BucketId) by (rewrite Hdom; set_solver).
    unfold var, map_of. cbn [default from_option id]. cbn [spec_wf S3BucketInfo_spec] in Hwf.
    remember (go_get m BucketInfoVar_S3_AddressingStyle) as st eqn:Hst.
    unfold validS3AddressingStyles in Hwf. rewrite !elem_of_cons, elem_of_nil in Hwf.
    destruct Hwf as [Hw|[Hw|[Hw|[]]]]; rewrite Hw; cbn; f_equal;
      (apply (map_eq_on_keys (spec_keys S3BucketInfo_spec));
       [ apply leibniz_equiv; set_solver | exact Hdom
       | intros k; cbn [spec_keys S3BucketInfo_spec]; rewrite !elem_of_union, !elem_of_singleton; intros ?;
         destruct_or?; subst k; try reflexivity;
         transitivity st; [by rewrite Hw | by rewrite Hst] ]).
  - intros b auth. unfold S3BucketInfo_Validate.
    destruct (S3BucketInfo_RpcToApi_fields b) as (-> & -> & ->).
    rewrite S3BucketInfo_RpcToApi_style.
    rewrite report_None, !app_nil, !when_err_nil, !eqs_false, negb_false_iff.
    cbn [spec_required S3BucketInfo_spec]. do 3 f_equiv.
    destruct (s3Info_AddressingStyle b) as [[s]|]; cbn; [|naive_solver].
    destruct (Z.eqb_spec s S3AddressingStyle_PATH) as [->|];
      [|destruct (Z.eqb_spec s S3AddressingStyle_VIRTUAL) as [->|]]; naive_solver.
Qed.

(** ** Properties *)

(** Object protocols. Whatever order Go iterates the mapping table in, an API
    protocol translates to an RPC protocol exactly when that RPC protocol translates
    back to it: the two directions are inverse partial functions, and every failure is
    an unknown protocol on one side. *)
Theorem object_protocol_translation_inverse (order : list (Z * string)) a p :
  order ≡ₚ objectProtocolProtoApiMapping →
  (ObjectProtocol_ApiToRpc_loop order a = Ok p ↔ ObjectProtocol_RpcToApi p = Ok a).
Proof.
  intros Hperm.
  assert (∀ q b, ObjectProtocol_RpcToApi q = Ok b ↔ (q, b) ∈ objectProtocolProtoApiMapping) as Hrpc.
  { intros q b. unfold objectProtocolProtoApiMapping at 1.
    rewrite !elem_of_cons, elem_of_nil. split.
    - unfold ObjectProtocol_RpcToApi. cbn [List.find objectProtocolProtoApiMapping fst snd].
      destruct (Z.eqb_spec ObjectProtocol_S3 q) as [<-|]; [intros [= <-]; auto|].
      destruct (Z.eqb_spec ObjectProtocol_AZURE q) as [<-|]; [intros [= <-]; auto|].
      destruct (Z.eqb_spec ObjectProtocol_GCS q) as [<-|]; [intros [= <-]; auto|done].
    - intros [[= -> ->]|[[= -> ->]|[[= -> ->]|[]]]]; reflexivity. }
  rewrite Hrpc, <-Hperm. unfold ObjectProtocol_ApiToRpc_loop.
  destruct (List.find _ order) as [[q b]|] eqn:E.
  - apply find_some in E as [Hin Heq]. simpl in Heq. reflect_bools. subst b.
    apply list_elem_of_In in Hin. split; [by intros [= <-]|].
    rewrite Hperm in Hin |- *. intros Hp. f_equal.
    unfold objectProtocolProtoApiMapping, ObjectProtocolS3, ObjectProtocolAzure,
      ObjectProtocolGcs in *.
    rewrite !elem_of_cons, elem_of_nil in *. naive_solver.
  - split; [done|]. intros Hin. apply list_elem_of_In in Hin.
    pose proof (find_none _ _ E _ Hin) as Hn. simpl in Hn. by rewrite eqs_refl in Hn.
Qed.

Lemma object_protocol_translation_inverse_witness :
  ObjectProtocol_ApiToRpc_loop (rev objectProtocolProtoApiMapping) ObjectProtocolGcs =
    Ok ObjectProtocol_GCS.
Proof.
  apply (object_protocol_translation_inverse (rev objectProtocolProtoApiMapping)
           ObjectProtocolGcs ObjectProtocol_GCS).
  - apply Permutation_sym, Permutation_rev.
  - reflexivity.
Defined.

(** Bucket info round trip. A driver's bucket info for any of the three protocols
    survives translation to user variables and back; for S3 this needs an addressing
    style with a declared number (a nil or undeclared style comes back as UNKNOWN,
    which is what the last clause says). *)
Theorem bucket_info_rpc_roundtrip :
  (∀ b, spec_canonical S3BucketInfo_spec b →
     S3BucketInfo_ApiToRpc (S3BucketInfo_RpcToApi (Some b)) = Some b) ∧
  (∀ b, AzureBucketInfo_ApiToRpc (AzureBucketInfo_RpcToApi (Some b)) = Some b) ∧
  (∀ b, GcsBucketInfo_ApiToRpc (GcsBucketInfo_RpcToApi (Some b)) = Some b) ∧
  (∀ i e r, S3BucketInfo_ApiToRpc (S3BucketInfo_RpcToApi
       (Some {| s3Info_BucketId := i; s3Info_Endpoint := e; s3Info_Region := r;
                s3Info_AddressingStyle := None |})) =
     Some {| s3Info_BucketId := i; s3Info_Endpoint := e; s3Info_Region := r;
             s3Info_AddressingStyle := Some {| s3Style_Style := S3AddressingStyle_UNKNOWN |} |}).
Proof.
  split; [|split; [|split]].
  - apply (law_rpc_roundtrip (T := S3BucketInfoTranslator)).
  - intros b. by apply (law_rpc_roundtrip (T := AzureBucketInfoTranslator)).
  - intros b. by apply (law_rpc_roundtrip (T := GcsBucketInfoTranslator)).
  - done.
Qed.

(** A map that holds exactly the variables of its kind survives translation to the driver
    message and back. *)
Lemma api_vars_roundtrip (m : gmap string string) :
  (dom m = spec_keys S3BucketInfo_spec →
   go_get m BucketInfoVar_S3_AddressingStyle ∈ "" :: validS3AddressingStyles →
   S3BucketInfo_RpcToApi (S3BucketInfo_ApiToRpc (Some m)) = Some m) ∧
  (dom m = spec_keys S3Credential_spec →
   S3Credential_RpcToApi (S3Credential_ApiToRpc (Some m)) = Some m) ∧
  (dom m = spec_keys AzureBucketInfo_spec →
   AzureBucketInfo_RpcToApi (AzureBucketInfo_ApiToRpc (Some m)) = Some m) ∧
  (dom m = spec_keys AzureCredential_spec →
   AzureCredential_RpcToApi (AzureCredential_ApiToRpc (Some m)) = Some m) ∧
  (dom m = spec_keys GcsBucketInfo_spec →
   GcsBucketInfo_RpcToApi (GcsBucketInfo_ApiToRpc (Some m)) = Some m) ∧
  (dom m = spec_keys GcsCredential_spec →
   GcsCredential_RpcToApi (GcsCredential_ApiToRpc (Some m)) = Some m).
Proof.
  split; [|split; [|split; [|split; [|split]]]].
  - apply (law_api_roundtrip (T := S3BucketInfoTranslator) (S := S3BucketInfo_spec)).
  - intros H. by apply (law_api_roundtrip (T := S3CredentialTranslator)).
  - intros H. by apply (law_api_roundtrip (T := AzureBucketInfoTranslator)).
  - intros H. by apply (law_api_roundtrip (T := AzureCredentialTranslator)).
  - intros H. by apply (law_api_roundtrip (T := GcsBucketInfoTranslator)).
  - intros H. by apply (law_api_roundtrip (T := GcsCredentialTranslator)).
Qed.

Lemma validate_accepts_exactly_required auth :
  (∀ b, S3BucketInfo_Validate (S3BucketInfo_RpcToApi (Some b)) auth = None ↔
        spec_required S3BucketInfo_spec auth b) ∧
  (∀ c, S3Credential_Validate (S3Credential_RpcToApi (Some c)) auth = None ↔
        spec_required S3Credential_spec auth c) ∧
  (∀ b, AzureBucketInfo_Validate (AzureBucketInfo_RpcToApi (Some b)) auth = None ↔
        spec_required AzureBucketInfo_spec auth b) ∧
  (∀ c, AzureCredential_Validate (AzureCredential_RpcToApi (Some c)) auth = None ↔
        spec_required AzureCredential_spec auth c) ∧
  (∀ b, GcsBucketInfo_Validate (GcsBucketInfo_RpcToApi (Some b)) auth = None ↔
        spec_required GcsBucketInfo_spec auth b) ∧
  (∀ c, GcsCredential_Validate (GcsCredential_RpcToApi (Some c)) auth = None ↔
        spec_required GcsCredential_spec auth c).
Proof.
  split; [|split; [|split; [|split; [|split]]]]; intros x.
  - apply (law_validate (T := S3BucketInfoTranslator)).
  - apply (law_validate (T := S3CredentialTranslator)).
  - apply (law_validate (T := AzureBucketInfoTranslator)).
  - apply (law_validate (T := AzureCredentialTranslator)).
  - apply (law_validate (T := GcsBucketInfoTranslator)).
  - apply (law_validate (T := GcsCredentialTranslator)).
Qed.

(** C40: The translators lose nothing. A map that holds exactly the variables of its kind
    (for S3 bucket info with a known or empty addressing style) survives translation to the
    driver message and back, for all six translators. And after the translation of a message,
    validation accepts exactly those whose required fields are set: S3 needs bucket ID,
    endpoint, region and a declared addressing style; the key credentials are required for Key
    authentication only, and GCS needs its private key name and service account for
    ServiceAccount. *)
Theorem translators_exact :
  (∀ m : gmap string string,
    (dom m = spec_keys S3BucketInfo_spec →
     go_get m BucketInfoVar_S3_AddressingStyle ∈ "" :: validS3AddressingStyles →
     S3BucketInfo_RpcToApi (S3BucketInfo_ApiToRpc (Some m)) = Some m) ∧
    (dom m = spec_keys S3Credential_spec →
     S3Credential_RpcToApi (S3Credential_ApiToRpc (Some m)) = Some m) ∧
    (dom m = spec_keys AzureBucketInfo_spec →
     AzureBucketInfo_RpcToApi (AzureBucketInfo_ApiToRpc (Some m)) = Some m) ∧
    (dom m = spec_keys AzureCredential_spec →
     AzureCredential_RpcToApi (AzureCredential_ApiToRpc (Some m)) = Some m) ∧
    (dom m = spec_keys GcsBucketInfo_spec →
     GcsBucketInfo_RpcToApi (GcsBucketInfo_ApiToRpc (Some m)) = Some m) ∧
    (dom m = spec_keys GcsCredential_spec →
     GcsCredential_RpcToApi (GcsCredential_ApiToRpc (Some m)) = Some m)) ∧
  (∀ auth,
    (∀ b, S3BucketInfo_Validate (S3BucketInfo_RpcToApi (Some b)) auth = None ↔
          spec_required S3BucketInfo_spec auth b) ∧
    (∀ c, S3Credential_Validate (S3Credential_RpcToApi (Some c)) auth = None ↔
          spec_required S3Credential_spec auth c) ∧
    (∀ b, AzureBucketInfo_Validate (AzureBucketInfo_RpcToApi (Some b)) auth = None ↔
          spec_required AzureBucketInfo_spec auth b) ∧
    (∀ c, AzureCredential_Validate (AzureCredential_RpcToApi (Some c)) auth = None ↔
          spec_required AzureCredential_spec auth c) ∧
    (∀ b, GcsBucketInfo_Validate (GcsBucketInfo_RpcToApi (Some b)) auth = None ↔
          spec_required GcsBucketInfo_spec auth b) ∧
    (∀ c, GcsCredential_Validate (GcsCredential_RpcToApi (Some c)) auth = None ↔
          spec_required GcsCredential_spec auth c)).
Proof. split; [apply api_vars_roundtrip|apply validate_accepts_exactly_required]. Qed.
