(* ===== verification/Translator.v ===== *)
(** * Translation of driver responses

    Models [src/sidecar/internal/translator/translator.go]: translation of bucket
    info and credentials for all protocols at once, with the optional validation
    that only the expected protocol answered, and the translation of authentication
    types and access modes. The theorems are proved from the contract of
    [RpcApiTranslator] ([TranslatorLaws]). *)

From stdpp Require Import base gmap strings list.
From S2P Require Import Prelude GoErrors ApiTypes ProtoTypes Protocol.

Record ValidationConfig : Type := {
  ExpectedProtocol : string;
  ValidationAuthType : string
}.

(** The range loop of [MergeApiInfoIntoStringMap], over entries in some order. *)
Definition merge_loop (entries : list (string * string)) (target : gmap string string) :
    gmap string string :=
  foldl (λ t kv, <[kv.1 := kv.2]> t) target entries.

(** [MergeApiInfoIntoStringMap(varKey, target)] for a non-nil [target]. *)
Definition MergeApiInfoIntoStringMap (varKey : go_map) (target : gmap string string) :
    gmap string string :=
  merge_loop (map_to_list (map_of varKey)) target.

(** The translators are struct values and every [RpcType] is a pointer type, so the
    reflective checks of [translate] for a nil translator and for a non-pointer message
    are always passed. *)
Definition translate {M} (T : RpcApiTranslator M) (rpcInfo : option M)
    (validation : option ValidationConfig) : result error go_map :=
  let thisProto := ApiProtocol T in
  match validation with
  | None => Ok (RpcToApi T rpcInfo)
  | Some v =>
      if ExpectedProtocol v <>s thisProto then
        match rpcInfo with
        | None => Ok (Some ∅)
        | Some _ =>
            Err (Errorf ("received " +:+ quote thisProto +:+
                         " protocol response when only " +:+ quote (ExpectedProtocol v) +:+
                         " protocol is expected"))
        end
      else
        match rpcInfo with
        | None => Err (Errorf ("missing response for expected " +:+ quote thisProto +:+ " protocol"))
        | Some _ =>
            let out := RpcToApi T rpcInfo in
            match Validate T out (ValidationAuthType v) with
            | Some err => Err err
            | None => Ok out
            end
        end
  end.

(** One protocol's step of the two translations below: the map merged so far and the
    errors so far. *)
Definition merge_step (what : string) (info : result error go_map)
    (acc : gmap string string * list error) : gmap string string * list error :=
  match info with
  | Err err => (acc.1, acc.2 ++ [Errorf_w ("errors translating " +:+ what) err])
  | Ok m => (MergeApiInfoIntoStringMap m acc.1, acc.2)
  end.

Definition when_some {A B} (o : option A) (x : B) : list B :=
  match o with Some _ => [x] | None => [] end.

Definition BucketInfoToApi (bi : option ObjectProtocolAndBucketInfo)
    (validation : option ValidationConfig) :
    result error (list string * gmap string string) :=
  match bi with
  | None => Err (Errorf "bucket info response is nil")
  | Some bi =>
      let returnedProtos :=
        when_some (bucketInfo_S3 bi) ObjectProtocolS3 ++
        when_some (bucketInfo_Azure bi) ObjectProtocolAzure ++
        when_some (bucketInfo_Gcs bi) ObjectProtocolGcs in
      let acc0 := (∅, []) in
      let acc1 := merge_step (ObjectProtocolS3 +:+ " bucket info")
                    (translate S3BucketInfoTranslator (bucketInfo_S3 bi) validation) acc0 in
      let acc2 := merge_step (ObjectProtocolAzure +:+ " bucket info")
                    (translate AzureBucketInfoTranslator (bucketInfo_Azure bi) validation) acc1 in
      let acc3 := merge_step (ObjectProtocolGcs +:+ " bucket info")
                    (translate GcsBucketInfoTranslator (bucketInfo_Gcs bi) validation) acc2 in
      match acc3.2 with
      | [] => Ok (returnedProtos, acc3.1)
      | errs => Err (Errorf_join "errors translating bucket info" errs)
      end
  end.

Definition CredentialsToApi (ci : option CredentialInfo) (validation : ValidationConfig) :
    result error (gmap string string) :=
  match ci with
  | None => Err (Errorf "credential info is nil")
  | Some ci =>
      let acc0 := (∅, []) in
      let acc1 := merge_step "S3 bucket credentials"
                    (translate S3CredentialTranslator (cred_S3 ci) (Some validation)) acc0 in
      let acc2 := merge_step "Azure bucket credentials"
                    (translate AzureCredentialTranslator (cred_Azure ci) (Some validation)) acc1 in
      let acc3 := merge_step "GCS bucket credentials"
                    (translate GcsCredentialTranslator (cred_Gcs ci) (Some validation)) acc2 in
      match acc3.2 with
      | [] => Ok acc3.1
      | errs => Err (Errorf_join "errors translating access credentials" errs)
      end
  end.

Definition AuthenticationTypeToRpc (a : string) : result error Z :=
  if a =s BucketAccessAuthenticationTypeKey then Ok AuthenticationType_KEY
  else if a =s BucketAccessAuthenticationTypeServiceAccount
       then Ok AuthenticationType_SERVICE_ACCOUNT
       else Err (Errorf ("unknown authentication type " +:+ quote a)).

Definition AccessModeToRpc (m : string) : result error Z :=
  if m =s BucketAccessModeReadOnly then Ok AccessMode_READ_ONLY
  else if m =s BucketAccessModeReadWrite then Ok AccessMode_READ_WRITE
  else if m =s BucketAccessModeWriteOnly then Ok AccessMode_WRITE_ONLY
  else Err (Errorf ("unknown access mode " +:+ quote m)).

(** ** Merging *)

Lemma merge_loop_lookup entries target k :
  NoDup entries.*1 →
  merge_loop entries target !! k =
    match (list_to_map entries : gmap string string) !! k with
    | Some v => Some v
    | None => target !! k
    end.
Proof.
  unfold merge_loop. revert target.
  induction entries as [|[k' v] l IH]; intros target Hnd; [done|].
  cbn in *. apply NoDup_cons in Hnd as [Hk' Hnd]. rewrite IH by done.
  rewrite !lookup_insert. case_decide; [subst k'|done].
  by rewrite not_elem_of_list_to_map_1.
Qed.

(** Merging is left-biased union, whatever order Go iterates in. *)
Lemma merge_loop_union (m target : gmap string string) entries :
  entries ≡ₚ map_to_list m → merge_loop entries target = m ∪ target.
Proof.
  intros Hp. apply map_eq. intros k.
  assert (NoDup entries.*1) by (rewrite Hp; apply NoDup_fst_map_to_list).
  rewrite merge_loop_lookup by done.
  rewrite (list_to_map_proper entries (map_to_list m)) by done.
  rewrite list_to_map_to_list, lookup_union.
  destruct (m !! k), (target !! k); done.
Qed.

Lemma Merge_union varKey target :
  MergeApiInfoIntoStringMap varKey target = map_of varKey ∪ target.
Proof. by apply merge_loop_union. Qed.

(** ** One translator against its contract *)

Section translate.
Context {M : Type} (T : RpcApiTranslator M) {S : TranslatorSpec M} `{!TranslatorLaws T S}.

(** The variables [translate] contributes on success. *)
Definition contribution (x : option M) : gmap string string := map_of (RpcToApi T x).

Lemma contribution_None : contribution None = ∅.
Proof. unfold contribution. by rewrite law_nil. Qed.

Lemma contribution_dom x : dom (contribution x) =
  match x with Some _ => spec_keys S | None => ∅ end.
Proof.
  destruct x as [b|]; [|rewrite contribution_None; apply dom_empty_L].
  unfold contribution. destruct (law_keys (T := T) (S := S) b) as (m & -> & Hm). done.
Qed.

(** What the validation accepts: the expected protocol answered with all it must,
    the others did not answer. *)
Definition accepted (v : ValidationConfig) (x : option M) : Prop :=
  match x with
  | None => ExpectedProtocol v ≠ ApiProtocol T
  | Some b => ExpectedProtocol v = ApiProtocol T ∧ spec_required S (ValidationAuthType v) b
  end.

Lemma translate_no_validation x : translate T x None = Ok (RpcToApi T x).
Proof. done. Qed.

Lemma translate_validated v x :
  (accepted v x ∧ ∃ m, translate T x (Some v) = Ok m ∧ map_of m = contribution x) ∨
  (¬ accepted v x ∧ ∃ e, translate T x (Some v) = Err e).
Proof.
  unfold translate, accepted.
  destruct (ExpectedProtocol v =s ApiProtocol T) eqn:E; cbn; reflect_bools;
    destruct x as [b|].
  - pose proof (law_validate (T := T) (S := S) b (ValidationAuthType v)) as Hv.
    destruct (Validate T _ _) as [e|].
    + right. split; [intros [_ Hr]; by apply Hv in Hr|eauto].
    + left. split; [by split; [|apply Hv]|eauto].
  - right. eauto.
  - right. split; [by intros []|eauto].
  - left. split; [done|]. exists (Some ∅). by rewrite contribution_None.
Qed.

Lemma merge_step_validated what v x acc :
  accepted v x →
  merge_step what (translate T x (Some v)) acc = (contribution x ∪ acc.1, acc.2).
Proof.
  intros Ha. destruct (translate_validated v x) as [(_ & m & -> & Hm)|[? _]]; [|done].
  cbn. by rewrite Merge_union, Hm.
Qed.

Lemma merge_step_rejected what v x acc :
  ¬ accepted v x → (merge_step what (translate T x (Some v)) acc).2 ≠ [].
Proof.
  intros Ha. destruct (translate_validated v x) as [[? _]|(_ & e & ->)]; [done|].
  cbn. by destruct acc.2.
Qed.

Lemma merge_step_unvalidated what x acc :
  merge_step what (translate T x None) acc = (contribution x ∪ acc.1, acc.2).
Proof. cbn. by rewrite Merge_union. Qed.
End translate.

(** An earlier error is never lost. *)
Lemma merge_step_keeps_errors what info acc :
  acc.2 ≠ [] → (merge_step what info acc).2 ≠ [].
Proof. destruct info; cbn; [done|]. by destruct acc.2. Qed.

(** The variables a bucket info message stands for, and those of credentials. *)
Definition bucket_info_vars (bi : ObjectProtocolAndBucketInfo) : gmap string string :=
  contribution GcsBucketInfoTranslator (bucketInfo_Gcs bi) ∪
  (contribution AzureBucketInfoTranslator (bucketInfo_Azure bi) ∪
   (contribution S3BucketInfoTranslator (bucketInfo_S3 bi) ∪ ∅)).

Definition credential_vars (ci : CredentialInfo) : gmap string string :=
  contribution GcsCredentialTranslator (cred_Gcs ci) ∪
  (contribution AzureCredentialTranslator (cred_Azure ci) ∪
   (contribution S3CredentialTranslator (cred_S3 ci) ∪ ∅)).

Definition bucket_info_protocols (bi : ObjectProtocolAndBucketInfo) : list string :=
  when_some (bucketInfo_S3 bi) ObjectProtocolS3 ++
  when_some (bucketInfo_Azure bi) ObjectProtocolAzure ++
  when_some (bucketInfo_Gcs bi) ObjectProtocolGcs.

Definition bucket_info_accepted (v : ValidationConfig) (bi : ObjectProtocolAndBucketInfo) : Prop :=
  accepted S3BucketInfoTranslator (S := S3BucketInfo_spec) v (bucketInfo_S3 bi) ∧
  accepted AzureBucketInfoTranslator (S := AzureBucketInfo_spec) v (bucketInfo_Azure bi) ∧
  accepted GcsBucketInfoTranslator (S := GcsBucketInfo_spec) v (bucketInfo_Gcs bi).

Definition credentials_accepted (v : ValidationConfig) (ci : CredentialInfo) : Prop :=
  accepted S3CredentialTranslator (S := S3Credential_spec) v (cred_S3 ci) ∧
  accepted AzureCredentialTranslator (S := AzureCredential_spec) v (cred_Azure ci) ∧
  accepted GcsCredentialTranslator (S := GcsCredential_spec) v (cred_Gcs ci).

Lemma BucketInfoToApi_unvalidated bi :
  BucketInfoToApi (Some bi) None = Ok (bucket_info_protocols bi, bucket_info_vars bi).
Proof.
  unfold BucketInfoToApi. by rewrite !merge_step_unvalidated.
Qed.

(** Whether a translator accepts is decidable: [translate] decides it. *)
Lemma accepted_dec {M} (T : RpcApiTranslator M) S `{!TranslatorLaws T S} v x :
  accepted T (S := S) v x ∨ ¬ accepted T (S := S) v x.
Proof. destruct (translate_validated T v x) as [[? _]|[? _]]; tauto. Qed.

Lemma BucketInfoToApi_validated v bi :
  (bucket_info_accepted v bi ∧
   BucketInfoToApi (Some bi) (Some v) = Ok (bucket_info_protocols bi, bucket_info_vars bi)) ∨
  (¬ bucket_info_accepted v bi ∧ ∃ e, BucketInfoToApi (Some bi) (Some v) = Err e).
Proof.
  unfold BucketInfoToApi, bucket_info_accepted, bucket_info_vars.
  destruct (accepted_dec S3BucketInfoTranslator S3BucketInfo_spec v (bucketInfo_S3 bi)) as [H1|H1];
    [destruct (accepted_dec AzureBucketInfoTranslator AzureBucketInfo_spec v
                 (bucketInfo_Azure bi)) as [H2|H2];
     [destruct (accepted_dec GcsBucketInfoTranslator GcsBucketInfo_spec v
                  (bucketInfo_Gcs bi)) as [H3|H3]|]|].
  1: { left. split; [done|].
       by rewrite (merge_step_validated S3BucketInfoTranslator _ _ _ _ H1),
         (merge_step_validated AzureBucketInfoTranslator _ _ _ _ H2),
         (merge_step_validated GcsBucketInfoTranslator _ _ _ _ H3). }
  all: right; split; [tauto|].
  all: match goal with |- context [(merge_step ?w ?i ?a).2] =>
         assert ((merge_step w i a).2 ≠ []) as Hne;
         [|by destruct (merge_step w i a).2; [|eauto]] end.
  - by apply merge_step_rejected with (S := GcsBucketInfo_spec); [apply _|].
  - apply merge_step_keeps_errors.
    by apply merge_step_rejected with (S := AzureBucketInfo_spec); [apply _|].
  - do 2 apply merge_step_keeps_errors.
    by apply merge_step_rejected with (S := S3BucketInfo_spec); [apply _|].
Qed.

Lemma CredentialsToApi_validated v ci :
  (credentials_accepted v ci ∧ CredentialsToApi (Some ci) v = Ok (credential_vars ci)) ∨
  (¬ credentials_accepted v ci ∧ ∃ e, CredentialsToApi (Some ci) v = Err e).
Proof.
  unfold CredentialsToApi, credentials_accepted, credential_vars.
  destruct (accepted_dec S3CredentialTranslator S3Credential_spec v (cred_S3 ci)) as [H1|H1];
    [destruct (accepted_dec AzureCredentialTranslator AzureCredential_spec v
                 (cred_Azure ci)) as [H2|H2];
     [destruct (accepted_dec GcsCredentialTranslator GcsCredential_spec v
                  (cred_Gcs ci)) as [H3|H3]|]|].
  1: { left. split; [done|].
       by rewrite (merge_step_validated S3CredentialTranslator _ _ _ _ H1),
         (merge_step_validated AzureCredentialTranslator _ _ _ _ H2),
         (merge_step_validated GcsCredentialTranslator _ _ _ _ H3). }
  all: right; split; [tauto|].
  all: match goal with |- context [(merge_step ?w ?i ?a).2] =>
         assert ((merge_step w i a).2 ≠ []) as Hne;
         [|by destruct (merge_step w i a).2; [|eauto]] end.
  - by apply merge_step_rejected with (S := GcsCredential_spec); [apply _|].
  - apply merge_step_keeps_errors.
    by apply merge_step_rejected with (S := AzureCredential_spec); [apply _|].
  - do 2 apply merge_step_keeps_errors.
    by apply merge_step_rejected with (S := S3Credential_spec); [apply _|].
Qed.

(** ** Properties *)

(** The variables of the six kinds of message are pairwise different, so merging never
    overwrites one protocol's variable with another's. *)
Lemma bucket_info_keys_disjoint :
  spec_keys S3BucketInfo_spec ## spec_keys AzureBucketInfo_spec ∧
  spec_keys S3BucketInfo_spec ## spec_keys GcsBucketInfo_spec ∧
  spec_keys AzureBucketInfo_spec ## spec_keys GcsBucketInfo_spec.
Proof. repeat split; apply (bool_decide_unpack _); vm_compute; exact I. Qed.

Lemma contribution_outside {M} (T : RpcApiTranslator M) S `{!TranslatorLaws T S} x k :
  k ∉ spec_keys S → contribution T x !! k = None.
Proof.
  intros Hk. apply not_elem_of_dom. rewrite (contribution_dom T (S := S)).
  destruct x; set_solver.
Qed.

Lemma bucket_info_vars_lookup bi k :
  (k ∈ spec_keys S3BucketInfo_spec →
     bucket_info_vars bi !! k = contribution S3BucketInfoTranslator (bucketInfo_S3 bi) !! k) ∧
  (k ∈ spec_keys AzureBucketInfo_spec →
     bucket_info_vars bi !! k = contribution AzureBucketInfoTranslator (bucketInfo_Azure bi) !! k) ∧
  (k ∈ spec_keys GcsBucketInfo_spec →
     bucket_info_vars bi !! k = contribution GcsBucketInfoTranslator (bucketInfo_Gcs bi) !! k).
Proof.
  destruct bucket_info_keys_disjoint as (D1 & D2 & D3).
  unfold bucket_info_vars. rewrite !lookup_union, lookup_empty.
  split; [|split]; intros Hk.
  - rewrite (contribution_outside GcsBucketInfoTranslator GcsBucketInfo_spec),
      (contribution_outside AzureBucketInfoTranslator AzureBucketInfo_spec) by set_solver.
    by destruct (contribution _ _ !! _).
  - rewrite (contribution_outside GcsBucketInfoTranslator GcsBucketInfo_spec),
      (contribution_outside S3BucketInfoTranslator S3BucketInfo_spec) by set_solver.
    by destruct (contribution _ _ !! _).
  - rewrite (contribution_outside AzureBucketInfoTranslator AzureBucketInfo_spec),
      (contribution_outside S3BucketInfoTranslator S3BucketInfo_spec) by set_solver.
    by destruct (contribution _ _ !! _).
Qed.

(** Bucket info without validation (the provisioning path). Translation of a
    non-nil response never fails; the supported protocols are exactly those the driver
    answered for, each once, and every variable of a protocol has the value of that
    protocol's own translation: merging the three maps loses and overwrites nothing. *)
Theorem bucket_info_all_protocols (bi : ObjectProtocolAndBucketInfo) :
  ∃ ps m, BucketInfoToApi (Some bi) None = Ok (ps, m) ∧ NoDup ps ∧
    (ObjectProtocolS3 ∈ ps ↔ is_Some (bucketInfo_S3 bi)) ∧
    (ObjectProtocolAzure ∈ ps ↔ is_Some (bucketInfo_Azure bi)) ∧
    (ObjectProtocolGcs ∈ ps ↔ is_Some (bucketInfo_Gcs bi)) ∧
    (∀ k, k ∈ spec_keys S3BucketInfo_spec →
       m !! k = map_of (S3BucketInfo_RpcToApi (bucketInfo_S3 bi)) !! k) ∧
    (∀ k, k ∈ spec_keys AzureBucketInfo_spec →
       m !! k = map_of (AzureBucketInfo_RpcToApi (bucketInfo_Azure bi)) !! k) ∧
    (∀ k, k ∈ spec_keys GcsBucketInfo_spec →
       m !! k = map_of (GcsBucketInfo_RpcToApi (bucketInfo_Gcs bi)) !! k).
Proof.
  exists (bucket_info_protocols bi), (bucket_info_vars bi).
  split; [apply BucketInfoToApi_unvalidated|].
  assert (∀ {A} (o : option A) (s x : string), x ∈ when_some o s ↔ x = s ∧ is_Some o) as Hws.
  { intros A [a|] s x; cbn; rewrite ?elem_of_cons, ?elem_of_nil; split;
      [intros [->|[]]; eauto | intros [-> _]; auto | done | by intros [_ [? [=]]]]. }
  unfold bucket_info_protocols. rewrite !elem_of_app, !Hws.
  split; [destruct bi as [[?|] [?|] [?|]]; apply (bool_decide_unpack _); vm_compute; exact I|].
  split; [|split; [|split]];
    try (split; [intros [[? ?]|[[? ?]|[? ?]]]; done | by auto]).
  split; [|split]; intros k Hk; destruct (bucket_info_vars_lookup bi k) as (L1 & L2 & L3);
    [exact (L1 Hk) | exact (L2 Hk) | exact (L3 Hk)].
Qed.

(** Bucket info with validation (the access path). Translation succeeds exactly
    when the expected protocol answered with all its required fields and no other
    protocol answered; for a known expected protocol the result then names that protocol
    alone and holds exactly its variables. *)
Theorem bucket_info_expected_protocol_only v bi :
  ((∃ ps m, BucketInfoToApi (Some bi) (Some v) = Ok (ps, m)) ↔ bucket_info_accepted v bi) ∧
  (∀ ps m, BucketInfoToApi (Some bi) (Some v) = Ok (ps, m) →
     ExpectedProtocol v ∈ [ObjectProtocolS3; ObjectProtocolAzure; ObjectProtocolGcs] →
     ps = [ExpectedProtocol v] ∧
     dom m = if ExpectedProtocol v =s ObjectProtocolS3 then spec_keys S3BucketInfo_spec
             else if ExpectedProtocol v =s ObjectProtocolAzure then spec_keys AzureBucketInfo_spec
             else spec_keys GcsBucketInfo_spec).
Proof.
  destruct (BucketInfoToApi_validated v bi) as [[Ha Heq]|[Ha [e Heq]]]; rewrite Heq.
  - split; [naive_solver|]. intros ps m [= <- <-] Hexp.
    unfold bucket_info_protocols, bucket_info_vars. rewrite !dom_union_L, dom_empty_L.
    rewrite (contribution_dom GcsBucketInfoTranslator), (contribution_dom AzureBucketInfoTranslator),
      (contribution_dom S3BucketInfoTranslator).
    destruct Ha as (H1 & H2 & H3). rewrite !elem_of_cons, elem_of_nil in Hexp.
    unfold accepted in *.
    destruct bi as [[?|] [?|] [?|]]; cbn [bucketInfo_S3 bucketInfo_Azure bucketInfo_Gcs] in *;
      cbn [ApiProtocol S3BucketInfoTranslator AzureBucketInfoTranslator GcsBucketInfoTranslator] in *;
      destruct_and?; repeat match goal with
        | E1 : ExpectedProtocol v = ?p, E2 : ExpectedProtocol v = ?q |- _ =>
            first [unify p q; clear E2 | exfalso; rewrite E1 in E2; discriminate E2]
        end; try (exfalso; tauto);
      match goal with E : ExpectedProtocol v = _ |- _ => rewrite E end;
      (split; [done|]); cbn; set_solver.
  - split; [|done]. split; [intros (? & ? & [=])|done].
Qed.

(** Credentials. Translation succeeds exactly when credentials are present for the
    expected protocol alone and hold what the authentication type requires; the variables
    are then exactly those of the message. *)
Theorem credentials_expected_protocol_only v ci m :
  CredentialsToApi ci v = Ok m ↔
  ∃ ci', ci = Some ci' ∧ credentials_accepted v ci' ∧ m = credential_vars ci'.
Proof.
  destruct ci as [ci|]; [|split; [done|by intros (? & [=] & _)]].
  destruct (CredentialsToApi_validated v ci) as [[Ha Heq]|[Ha [e Heq]]]; rewrite Heq.
  - split; [intros [= <-]; eauto|]. by intros (? & [= <-] & _ & ->).
  - split; [done|]. by intros (? & [= <-] & ? & _).
Qed.

(** No translator writes the variable that names the protocol. *)
Lemma protocol_var_never_set bi ci :
  bucket_info_vars bi !! BucketInfoVar_Protocol = None ∧ credential_vars ci !! BucketInfoVar_Protocol = None.
Proof.
  assert (∀ (M : Type) (T : RpcApiTranslator M) (S : TranslatorSpec M) (L : TranslatorLaws T S) x,
    bool_decide (BucketInfoVar_Protocol ∈ spec_keys S) = false →
    contribution T x !! BucketInfoVar_Protocol = None) as Hx.
  { intros M T S L x Hn%bool_decide_eq_false. apply not_elem_of_dom. rewrite (contribution_dom T).
    by destruct x; [|apply not_elem_of_empty]. }
  unfold bucket_info_vars, credential_vars. rewrite !lookup_union_None.
  split_and!; first [apply lookup_empty | eapply Hx; [apply _|by vm_compute]].
Qed.

(** What may be returned on the access path, value by value: the variables of the expected
    protocol, or nothing for an expected protocol that is none of the three. *)
Inductive expected_info (v : ValidationConfig) :
    ObjectProtocolAndBucketInfo → list string → gmap string string → Prop :=
| info_S3 b s style :
    ExpectedProtocol v = ObjectProtocolS3 →
    s3Info_BucketId b ≠ "" → s3Info_Endpoint b ≠ "" → s3Info_Region b ≠ "" →
    s3Info_AddressingStyle b = Some {| s3Style_Style := s |} →
    (s = S3AddressingStyle_PATH ∧ style = "path"%string ∨ s = S3AddressingStyle_VIRTUAL ∧ style = "virtual"%string) →
    expected_info v {| bucketInfo_S3 := Some b; bucketInfo_Azure := None; bucketInfo_Gcs := None |}
      [ObjectProtocolS3]
      {[ BucketInfoVar_S3_BucketId := s3Info_BucketId b; BucketInfoVar_S3_Endpoint := s3Info_Endpoint b;
         BucketInfoVar_S3_Region := s3Info_Region b; BucketInfoVar_S3_AddressingStyle := style ]}
| info_Azure b :
    ExpectedProtocol v = ObjectProtocolAzure → azureInfo_StorageAccount b ≠ "" →
    expected_info v {| bucketInfo_S3 := None; bucketInfo_Azure := Some b; bucketInfo_Gcs := None |}
      [ObjectProtocolAzure] {[ BucketInfoVar_Azure_StorageAccount := azureInfo_StorageAccount b ]}
| info_Gcs b :
    ExpectedProtocol v = ObjectProtocolGcs → gcsInfo_BucketName b ≠ "" → gcsInfo_ProjectId b ≠ "" →
    expected_info v {| bucketInfo_S3 := None; bucketInfo_Azure := None; bucketInfo_Gcs := Some b |}
      [ObjectProtocolGcs]
      {[ BucketInfoVar_GCS_BucketName := gcsInfo_BucketName b; BucketInfoVar_GCS_ProjectId := gcsInfo_ProjectId b ]}
| info_none :
    ExpectedProtocol v ∉ [ObjectProtocolS3; ObjectProtocolAzure; ObjectProtocolGcs] →
    expected_info v {| bucketInfo_S3 := None; bucketInfo_Azure := None; bucketInfo_Gcs := None |} [] ∅.

Inductive expected_credentials (v : ValidationConfig) : CredentialInfo → gmap string string → Prop :=
| credentials_S3 c :
    ExpectedProtocol v = ObjectProtocolS3 →
    (ValidationAuthType v = BucketAccessAuthenticationTypeKey →
      s3Cred_AccessKeyId c ≠ "" ∧ s3Cred_AccessSecretKey c ≠ "") →
    expected_credentials v {| cred_S3 := Some c; cred_Azure := None; cred_Gcs := None |}
      {[ CredentialVar_S3_AccessKeyId := s3Cred_AccessKeyId c;
         CredentialVar_S3_AccessSecretKey := s3Cred_AccessSecretKey c ]}
| credentials_Azure c :
    ExpectedProtocol v = ObjectProtocolAzure →
    (ValidationAuthType v = BucketAccessAuthenticationTypeKey → azureCred_AccessToken c ≠ "") →
    expected_credentials v {| cred_S3 := None; cred_Azure := Some c; cred_Gcs := None |}
      {[ CredentialVar_Azure_AccessToken := azureCred_AccessToken c;
         CredentialVar_Azure_ExpiryTimestamp := azureCred_ExpiryTimestamp c ]}
| credentials_Gcs c :
    ExpectedProtocol v = ObjectProtocolGcs →
    (ValidationAuthType v = BucketAccessAuthenticationTypeKey →
      gcsCred_AccessId c ≠ "" ∧ gcsCred_AccessSecret c ≠ "") →
    (ValidationAuthType v = BucketAccessAuthenticationTypeServiceAccount →
      gcsCred_PrivateKeyName c ≠ "" ∧ gcsCred_ServiceAccount c ≠ "") →
    expected_credentials v {| cred_S3 := None; cred_Azure := None; cred_Gcs := Some c |}
      {[ CredentialVar_GCS_AccessId := gcsCred_AccessId c; CredentialVar_GCS_AccessSecret := gcsCred_AccessSecret c;
         CredentialVar_GCS_PrivateKeyName := gcsCred_PrivateKeyName c;
         CredentialVar_GCS_ServiceAccount := gcsCred_ServiceAccount c ]}
| credentials_none :
    ExpectedProtocol v ∉ [ObjectProtocolS3; ObjectProtocolAzure; ObjectProtocolGcs] →
    expected_credentials v {| cred_S3 := None; cred_Azure := None; cred_Gcs := None |} ∅.

Lemma not_a_protocol (p : string) :
  p ∉ [ObjectProtocolS3; ObjectProtocolAzure; ObjectProtocolGcs] ↔
  p ≠ ObjectProtocolS3 ∧ p ≠ ObjectProtocolAzure ∧ p ≠ ObjectProtocolGcs.
Proof. rewrite !not_elem_of_cons. split; [tauto|]. intros (? & ? & ?). split_and!; try done. apply not_elem_of_nil. Qed.

(** Two protocols that are expected at once. *)
Ltac one_expected :=
  exfalso; repeat match goal with H : _ ∧ _ |- _ => destruct H end;
  match goal with E1 : ExpectedProtocol ?v = _, E2 : ExpectedProtocol ?v = _ |- _ =>
    rewrite E1 in E2; discriminate E2 end.

(** The variables of a message with one part. *)
Ltac one_part := unfold bucket_info_vars, credential_vars; cbn [bucketInfo_S3 bucketInfo_Azure bucketInfo_Gcs cred_S3 cred_Azure cred_Gcs];
  rewrite ?(contribution_None S3BucketInfoTranslator), ?(contribution_None AzureBucketInfoTranslator),
    ?(contribution_None GcsBucketInfoTranslator), ?(contribution_None S3CredentialTranslator),
    ?(contribution_None AzureCredentialTranslator), ?(contribution_None GcsCredentialTranslator),
    ?(left_id_L ∅ (∪)), ?(right_id_L ∅ (∪)).
Lemma info_vars_S3 b :
  bucket_info_vars {| bucketInfo_S3 := Some b; bucketInfo_Azure := None; bucketInfo_Gcs := None |} =
    contribution S3BucketInfoTranslator (Some b).
Proof. one_part. reflexivity. Qed.
Lemma info_vars_Azure b :
  bucket_info_vars {| bucketInfo_S3 := None; bucketInfo_Azure := Some b; bucketInfo_Gcs := None |} =
    contribution AzureBucketInfoTranslator (Some b).
Proof. one_part. reflexivity. Qed.
Lemma info_vars_Gcs b :
  bucket_info_vars {| bucketInfo_S3 := None; bucketInfo_Azure := None; bucketInfo_Gcs := Some b |} =
    contribution GcsBucketInfoTranslator (Some b).
Proof. one_part. reflexivity. Qed.
Lemma credential_vars_S3 c :
  credential_vars {| cred_S3 := Some c; cred_Azure := None; cred_Gcs := None |} = contribution S3CredentialTranslator (Some c).
Proof. one_part. reflexivity. Qed.
Lemma credential_vars_Azure c :
  credential_vars {| cred_S3 := None; cred_Azure := Some c; cred_Gcs := None |} = contribution AzureCredentialTranslator (Some c).
Proof. one_part. reflexivity. Qed.
Lemma credential_vars_Gcs c :
  credential_vars {| cred_S3 := None; cred_Azure := None; cred_Gcs := Some c |} = contribution GcsCredentialTranslator (Some c).
Proof. one_part. reflexivity. Qed.

Lemma S3_vars b s style :
  s3Info_AddressingStyle b = Some {| s3Style_Style := s |} →
  (s = S3AddressingStyle_PATH ∧ style = "path"%string ∨ s = S3AddressingStyle_VIRTUAL ∧ style = "virtual"%string) →
  contribution S3BucketInfoTranslator (Some b) =
    {[ BucketInfoVar_S3_BucketId := s3Info_BucketId b; BucketInfoVar_S3_Endpoint := s3Info_Endpoint b;
       BucketInfoVar_S3_Region := s3Info_Region b; BucketInfoVar_S3_AddressingStyle := style ]}.
Proof.
  intros Hs Hst. unfold contribution. cbn [RpcToApi S3BucketInfoTranslator S3BucketInfo_RpcToApi]. rewrite Hs.
  assert (∀ x y : string, <[BucketInfoVar_S3_AddressingStyle := x]>
    {[ BucketInfoVar_S3_BucketId := s3Info_BucketId b; BucketInfoVar_S3_Endpoint := s3Info_Endpoint b;
       BucketInfoVar_S3_Region := s3Info_Region b; BucketInfoVar_S3_AddressingStyle := y ]} =
    ({[ BucketInfoVar_S3_BucketId := s3Info_BucketId b; BucketInfoVar_S3_Endpoint := s3Info_Endpoint b;
       BucketInfoVar_S3_Region := s3Info_Region b; BucketInfoVar_S3_AddressingStyle := x ]} : gmap string string)) as Hi.
  { intros x y. rewrite 3!(insert_insert_ne _ BucketInfoVar_S3_AddressingStyle) by done.
    by rewrite insert_singleton. }
  destruct Hst as [[-> ->]|[-> ->]]; apply Hi.
Qed.

Lemma expected_info_same v bi ps m m' : m' = m → expected_info v bi ps m → expected_info v bi ps m'.
Proof. by intros ->. Qed.
Lemma expected_credentials_same v ci m m' : m' = m → expected_credentials v ci m → expected_credentials v ci m'.
Proof. by intros ->. Qed.

Lemma expected_info_iff v bi ps m :
  expected_info v bi ps m ↔
  bucket_info_accepted v bi ∧ ps = bucket_info_protocols bi ∧ m = bucket_info_vars bi.
Proof.
  unfold bucket_info_accepted, accepted. split.
  - intros [b s style Hp Hi He Hr Hs Hst|b Hp Hb|b Hp Hb Hi|Hp]; cbn [bucketInfo_S3 bucketInfo_Azure bucketInfo_Gcs].
    + rewrite Hp. split; [|split; [done|]].
      * split; [|done]. split; [done|]. cbn. split_and!; [done..|]. exists s. split; [done|]. tauto.
      * symmetry. rewrite info_vars_S3. by eapply S3_vars.
    + rewrite Hp. split; [split_and!; try done|split; [done|by rewrite info_vars_Azure]].
    + rewrite Hp. split; [split_and!; try done|split; [done|by rewrite info_vars_Gcs]].
    + apply not_a_protocol in Hp as (? & ? & ?). by split_and!.
  - intros ((H1 & H2 & H3) & -> & ->). destruct bi as [[b|] [b'|] [b''|]];
      cbn [bucketInfo_S3 bucketInfo_Azure bucketInfo_Gcs] in *; try one_expected.
    + destruct H1 as [Hp (Hi & He & Hr & s & Hs & Hst)]. eapply expected_info_same.
      2: { apply (info_S3 _ b s (if (s =? S3AddressingStyle_PATH)%Z then "path" else "virtual")); try done.
           destruct Hst as [-> | ->]; [by left|by right]. }
      rewrite info_vars_S3. eapply S3_vars; [done|]. destruct Hst as [-> | ->]; [by left|by right].
    + destruct H2 as [Hp Hb]. eapply expected_info_same; [|by apply info_Azure]. by rewrite info_vars_Azure.
    + destruct H3 as [Hp [Hb Hi]]. eapply expected_info_same; [|by apply info_Gcs]. by rewrite info_vars_Gcs.
    + apply info_none. by apply not_a_protocol.
Qed.

Lemma expected_credentials_iff v ci m :
  expected_credentials v ci m ↔ credentials_accepted v ci ∧ m = credential_vars ci.
Proof.
  unfold credentials_accepted, accepted. split.
  - intros [c Hp Hk|c Hp Hk|c Hp Hk Hs|Hp]; cbn [cred_S3 cred_Azure cred_Gcs].
    1-3: rewrite Hp; split; [by split_and!|by rewrite ?credential_vars_S3, ?credential_vars_Azure, ?credential_vars_Gcs].
    apply not_a_protocol in Hp as (? & ? & ?). by split_and!.
  - intros ((H1 & H2 & H3) & ->). destruct ci as [[c|] [c'|] [c''|]];
      cbn [cred_S3 cred_Azure cred_Gcs] in *; try one_expected.
    + destruct H1 as [Hp Hk]. eapply expected_credentials_same; [|by apply credentials_S3]. by rewrite credential_vars_S3.
    + destruct H2 as [Hp Hk]. eapply expected_credentials_same; [|by apply credentials_Azure]. by rewrite credential_vars_Azure.
    + destruct H3 as [Hp [Hk Hs]]. eapply expected_credentials_same; [|by apply credentials_Gcs]. by rewrite credential_vars_Gcs.
    + apply credentials_none. by apply not_a_protocol.
Qed.

Lemma protocol_var_absent v bi ps m ci vars :
  (expected_info v bi ps m → m !! BucketInfoVar_Protocol = None) ∧
  (expected_credentials v ci vars → vars !! BucketInfoVar_Protocol = None).
Proof.
  rewrite expected_info_iff, expected_credentials_iff. destruct (protocol_var_never_set bi ci). naive_solver.
Qed.

(** C36: Only what was expected, and all of it. With validation (the access path), the translation
    of bucket info returns protocols and variables exactly as follows. For one of the three
    protocols as the expected one: when the message has the part of that protocol alone, with all
    fields that are required of it, the result is that protocol and its variables, each with the
    value of its field. For any other expected protocol: when the message has no part at all, the
    result is empty. In every other case, and for no message, it is an error. The translation of
    credentials does the same, with the fields that the authentication type requires. The variable
    COSI_PROTOCOL is in neither result. *)
Theorem info_expected_protocol_only v bi ci ps m vars :
  (BucketInfoToApi bi (Some v) = Ok (ps, m) ↔ ∃ bi', bi = Some bi' ∧ expected_info v bi' ps m) ∧
  (CredentialsToApi ci v = Ok vars ↔ ∃ ci', ci = Some ci' ∧ expected_credentials v ci' vars) ∧
  (BucketInfoToApi bi (Some v) = Ok (ps, m) → m !! BucketInfoVar_Protocol = None) ∧
  (CredentialsToApi ci v = Ok vars → vars !! BucketInfoVar_Protocol = None).
Proof.
  assert (BucketInfoToApi bi (Some v) = Ok (ps, m) ↔ ∃ bi', bi = Some bi' ∧ expected_info v bi' ps m) as H1.
  { destruct bi as [bi|]; [|split; [done|by intros (? & [=] & _)]]. setoid_rewrite expected_info_iff.
    destruct (BucketInfoToApi_validated v bi) as [[Ha ->]|[Ha [e ->]]]; naive_solver. }
  assert (CredentialsToApi ci v = Ok vars ↔ ∃ ci', ci = Some ci' ∧ expected_credentials v ci' vars) as H2.
  { setoid_rewrite expected_credentials_iff. rewrite credentials_expected_protocol_only. naive_solver. }
  split_and!; [done|done| |].
  - intros (bi' & _ & H)%H1. revert H. by apply (protocol_var_absent v bi' ps m {| cred_S3 := None; cred_Azure := None; cred_Gcs := None |} ∅).
  - intros (ci' & _ & H)%H2. revert H. by apply (protocol_var_absent v {| bucketInfo_S3 := None; bucketInfo_Azure := None; bucketInfo_Gcs := None |} [] ∅ ci' vars).
Qed.
