(* ===== verification/Ownership.v ===== *)
(** * Which component manages a BucketAccess

    Models [src/internal/bucketaccess/bucketaccess.go], the logic that the COSI
    Controller and the Sidecars share to hand a BucketAccess over to each other. *)

From stdpp Require Import base gmap strings list.
From S2P Require Import Prelude GoErrors ApiTypes.

Definition ManagedBySidecar (ba : BucketAccess) : bool :=
  if has_annotation ControllerManagementOverrideAnnotation ba then false
  else if accessStatus_DriverName (access_Status ba) =s "" then false
  else if IsDeleting ba then negb (has_annotation SidecarCleanupFinishedAnnotation ba)
  else true.

(** The fields the Sidecar needs, by name, and whether each is set. *)
Definition requiredFields (s : BucketAccessStatus) : list (string * bool) :=
  [("status.accessedBuckets", 0 <? length (accessStatus_AccessedBuckets s));
   ("status.driverName", accessStatus_DriverName s <>s "");
   ("status.authenticationType", accessStatus_AuthenticationType s <>s "")].

Definition SidecarRequirementsPresent (s : BucketAccessStatus) : result error bool :=
  let set_ := List.filter snd (requiredFields s) in
  if length set_ =? 0 then Ok false
  else if length set_ =? length (requiredFields s) then Ok true
  else Err (Errorf ("fields required for sidecar provisioning are only partially set: " +:+
                    fmt_map fmt_bool (list_to_map (requiredFields s)))).

(** All three, and none of the three, required fields are set. *)
Definition requirements_set (s : BucketAccessStatus) : Prop :=
  accessStatus_AccessedBuckets s ≠ [] ∧ accessStatus_DriverName s ≠ "" ∧
  accessStatus_AuthenticationType s ≠ "".
Definition requirements_unset (s : BucketAccessStatus) : Prop :=
  accessStatus_AccessedBuckets s = [] ∧ accessStatus_DriverName s = "" ∧
  accessStatus_AuthenticationType s = "".

Lemma SidecarRequirementsPresent_cases s :
  (requirements_set s ∧ SidecarRequirementsPresent s = Ok true) ∨
  (requirements_unset s ∧ SidecarRequirementsPresent s = Ok false) ∨
  (¬ requirements_set s ∧ ¬ requirements_unset s ∧
   ∃ msg, SidecarRequirementsPresent s = Err (Errorf msg)).
Proof.
  unfold requirements_set, requirements_unset, SidecarRequirementsPresent, requiredFields.
  destruct (accessStatus_AccessedBuckets s) as [|ab l];
    destruct (accessStatus_DriverName s =s "") eqn:E1;
    destruct (accessStatus_AuthenticationType s =s "") eqn:E2; reflect_bools; cbn;
    (right; left; by eauto) || (left; by eauto) ||
    (right; right; split; [by intros (? & ? & ?)|split; [by intros (? & ? & ?)|eauto]]).
Qed.

Lemma ManagedBySidecar_driver ba :
  ManagedBySidecar ba = true → accessStatus_DriverName (access_Status ba) ≠ "".
Proof. unfold ManagedBySidecar. repeat case_match; intros; by reflect_bools. Qed.

Lemma ManagedBySidecar_true ba :
  ManagedBySidecar ba = true ↔
  has_annotation ControllerManagementOverrideAnnotation ba = false ∧
  accessStatus_DriverName (access_Status ba) ≠ "" ∧
  (IsDeleting ba = true → has_annotation SidecarCleanupFinishedAnnotation ba = false).
Proof.
  unfold ManagedBySidecar.
  destruct (has_annotation ControllerManagementOverrideAnnotation ba) eqn:E1;
    [naive_solver|].
  destruct (accessStatus_DriverName _ =s "") eqn:E2; reflect_bools; [naive_solver|].
  destruct (IsDeleting ba) eqn:E3; [|naive_solver].
  rewrite negb_true_iff. naive_solver.
Qed.

(** Sidecar requirements. The check answers yes exactly when accessed buckets,
    driver name and authentication type are all set, no exactly when none of them is, and
    an error, which is not marked non-retryable, exactly for a partial initialisation. *)
Theorem sidecar_requirements_exact s :
  (SidecarRequirementsPresent s = Ok true ↔ requirements_set s) ∧
  (SidecarRequirementsPresent s = Ok false ↔ requirements_unset s) ∧
  ((∃ e, SidecarRequirementsPresent s = Err e) ↔
     ¬ requirements_set s ∧ ¬ requirements_unset s) ∧
  (∀ e, SidecarRequirementsPresent s = Err e → is_nonRetryable e = false).
Proof.
  assert (requirements_set s → requirements_unset s → False) as Hx.
  { intros (? & _) (? & _). done. }
  destruct (SidecarRequirementsPresent_cases s) as [[H ->]|[[H ->]|(H1 & H2 & msg & ->)]].
  - split; [done|]. split; [split; [done|tauto]|]. split; [|by intros e [=]].
    split; [by intros [e [=]]|tauto].
  - split; [split; [done|tauto]|]. split; [done|]. split; [|by intros e [=]].
    split; [by intros [e [=]]|tauto].
  - split; [split; [done|tauto]|]. split; [split; [done|tauto]|].
    split; [split; eauto|]. by intros e [= <-].
Qed.

(** Life cycle of ownership. An access without a recorded driver is the Controller's;
    recording a driver name hands it to the Sidecar, which keeps it through deletion until
    it sets the cleanup annotation, which hands it back; the override annotation always
    gives it to the Controller. *)
Theorem ownership_lifecycle ba :
  (accessStatus_DriverName (access_Status ba) = "" → ManagedBySidecar ba = false) ∧
  (∀ st, accessStatus_DriverName st ≠ "" →
     has_annotation ControllerManagementOverrideAnnotation ba = false →
     IsDeleting ba = false → ManagedBySidecar (access_with_Status st ba) = true) ∧
  (IsDeleting ba = true →
     ManagedBySidecar (set_annotation SidecarCleanupFinishedAnnotation "" ba) = false) ∧
  ManagedBySidecar (set_annotation ControllerManagementOverrideAnnotation "" ba) = false.
Proof.
  split; [|split; [|split]].
  - intros Hd. apply not_true_is_false. intros Hm%ManagedBySidecar_driver. done.
  - intros st Hst Ho Hdel. apply ManagedBySidecar_true. split; [exact Ho|].
    split; [exact Hst|]. intros Hd. change (IsDeleting (access_with_Status st ba)) with
      (IsDeleting ba) in Hd. congruence.
  - intros Hdel. apply not_true_is_false. intros (_ & _ & Hc)%ManagedBySidecar_true.
    rewrite set_annotation_present in Hc. specialize (Hc Hdel). done.
  - apply not_true_is_false. intros (Hc & _)%ManagedBySidecar_true.
    by rewrite set_annotation_present in Hc.
Qed.
