(* ===== verification/Predicates.v ===== *)
(** * Event filters

    Models [src/internal/predicate/predicate.go], the driver-name predicate of
    [src/sidecar/pkg/reconciler/driver.go], the combinators they use of the vendored
    controller-runtime [predicate] package, and the filters that the
    [SetupWithManager] methods of the reconcilers install. Only an event that the filter
    accepts enqueues a reconcile. *)

From stdpp Require Import base gmap strings list.
From S2P Require Import Prelude GoErrors ApiTypes Ownership ApiServer.

(** The objects events are about. *)
Inductive client_object : Type :=
| ObjBucket (b : Bucket)
| ObjBucketClaim (c : BucketClaim)
| ObjBucketAccess (a : BucketAccess)
| ObjSecret (s : Secret).

#[export] Program Instance client_object_object : ClientObject client_object := {|
  GetMeta o := match o with
               | ObjBucket b => GetMeta b | ObjBucketClaim c => GetMeta c
               | ObjBucketAccess a => GetMeta a | ObjSecret s => GetMeta s
               end;
  SetMeta m o := match o with
                 | ObjBucket b => ObjBucket (SetMeta m b)
                 | ObjBucketClaim c => ObjBucketClaim (SetMeta m c)
                 | ObjBucketAccess a => ObjBucketAccess (SetMeta m a)
                 | ObjSecret s => ObjSecret (SetMeta m s)
                 end |}.
Next Obligation. by intros m []. Qed.
Next Obligation. by intros [[]|[]|[]|[]]. Qed.

(** ** [predicate.Funcs] *)

Record Funcs : Type := {
  CreateFunc : client_object → bool;
  UpdateFunc : client_object → client_object → bool;   (** old object, new object *)
  DeleteFunc : client_object → bool;
  GenericFunc : client_object → bool
}.

Definition NewPredicateFuncs (filter : client_object → bool) : Funcs := {|
  CreateFunc := filter;
  UpdateFunc := λ _ new, filter new;
  DeleteFunc := filter;
  GenericFunc := filter |}.

Definition predicate_And (ps : list Funcs) : Funcs := {|
  CreateFunc o := forallb (λ p, CreateFunc p o) ps;
  UpdateFunc old new := forallb (λ p, UpdateFunc p old new) ps;
  DeleteFunc o := forallb (λ p, DeleteFunc p o) ps;
  GenericFunc o := forallb (λ p, GenericFunc p o) ps |}.

Definition predicate_Or (ps : list Funcs) : Funcs := {|
  CreateFunc o := existsb (λ p, CreateFunc p o) ps;
  UpdateFunc old new := existsb (λ p, UpdateFunc p old new) ps;
  DeleteFunc o := existsb (λ p, DeleteFunc p o) ps;
  GenericFunc o := existsb (λ p, GenericFunc p o) ps |}.

(** ** [predicate.go] *)

Definition allFalseFuncs : Funcs := {|
  CreateFunc _ := false; UpdateFunc _ _ := false;
  DeleteFunc _ := false; GenericFunc _ := false |}.

Definition AnyCreate : Funcs := {|
  CreateFunc _ := true;
  UpdateFunc := UpdateFunc allFalseFuncs;
  DeleteFunc := DeleteFunc allFalseFuncs;
  GenericFunc := GenericFunc allFalseFuncs |}.

Definition AnyDelete : Funcs := {|
  CreateFunc := CreateFunc allFalseFuncs;
  UpdateFunc := UpdateFunc allFalseFuncs;
  DeleteFunc _ := true;
  GenericFunc := GenericFunc allFalseFuncs |}.

Definition AnyGeneric : Funcs := {|
  CreateFunc := CreateFunc allFalseFuncs;
  UpdateFunc := UpdateFunc allFalseFuncs;
  DeleteFunc := DeleteFunc allFalseFuncs;
  GenericFunc _ := true |}.

Definition with_UpdateFunc (f : client_object → client_object → bool) : Funcs := {|
  CreateFunc := CreateFunc allFalseFuncs;
  UpdateFunc := f;
  DeleteFunc := DeleteFunc allFalseFuncs;
  GenericFunc := GenericFunc allFalseFuncs |}.

(** [GenerationChangedPredicate{}.Update] on an event that has both objects. *)
Definition GenerationChangedInUpdateOnly : Funcs :=
  with_UpdateFunc (λ old new, negb (GetGeneration new =? GetGeneration old)%Z).

Definition ProtectionFinalizerRemoved : Funcs :=
  with_UpdateFunc (λ old new,
    if IsDeleting new then false
    else
      let oldHas := ContainsFinalizer old ProtectionFinalizer in
      let newHas := ContainsFinalizer new ProtectionFinalizer in
      oldHas && negb newHas).

(** [toTypedOrLogError[*cosiapi.BucketAccess]]; the log entry is not modelled. *)
Definition toTyped_BucketAccess (o : client_object) : option BucketAccess :=
  match o with ObjBucketAccess a => Some a | _ => None end.

Definition handoffOccurred (old new : BucketAccess) : bool :=
  let oldIsSidecar := ManagedBySidecar old in
  let newIsSidecar := ManagedBySidecar new in
  if negb (Bool.eqb oldIsSidecar newIsSidecar) then true else false.

Definition BucketAccessHandoffOccurred : Funcs :=
  with_UpdateFunc (λ old new,
    match toTyped_BucketAccess old with
    | None => false
    | Some oldBa =>
        match toTyped_BucketAccess new with
        | None => false
        | Some newBa => handoffOccurred oldBa newBa
        end
    end).

Definition BucketAccessManagedBySidecar : Funcs :=
  NewPredicateFuncs (λ o,
    match toTyped_BucketAccess o with
    | None => false
    | Some ba => ManagedBySidecar ba
    end).

Definition BucketAccessManagedByController : Funcs :=
  NewPredicateFuncs (λ o,
    match toTyped_BucketAccess o with
    | None => false
    | Some ba => negb (ManagedBySidecar ba)
    end).

(** [driverNameMatchesPredicate] of the sidecar. *)
Definition driverNameMatchesPredicate (driverName : string) : Funcs :=
  NewPredicateFuncs (λ o,
    match o with
    | ObjBucket b => bucketSpec_DriverName (bucket_Spec b) =s driverName
    | ObjBucketAccess a => accessStatus_DriverName (access_Status a) =s driverName
    | _ => false
    end).

(** ** The filters of the reconcilers *)

(** [BucketClaimReconciler.SetupWithManager] (controller). *)
Definition claim_filter : Funcs :=
  predicate_Or [AnyCreate; AnyDelete; AnyGeneric;
                GenerationChangedInUpdateOnly; ProtectionFinalizerRemoved].

(** [BucketReconciler.SetupWithManager] (controller), which installs no filter. *)
Definition controller_bucket_filter : Funcs := predicate_And [].

(** [BucketAccessReconciler.SetupWithManager] (controller). *)
Definition controller_access_filter : Funcs :=
  predicate_And [BucketAccessManagedByController;
    predicate_Or [AnyCreate; AnyDelete; AnyGeneric;
                  BucketAccessHandoffOccurred; ProtectionFinalizerRemoved]].

(** [BucketReconciler.SetupWithManager] (sidecar). *)
Definition sidecar_bucket_filter (driverName : string) : Funcs :=
  predicate_And [driverNameMatchesPredicate driverName;
    predicate_Or [AnyCreate; AnyDelete; AnyGeneric;
                  GenerationChangedInUpdateOnly; ProtectionFinalizerRemoved]].

(** [BucketAccessReconciler.SetupWithManager] (sidecar). *)
Definition sidecar_access_filter (driverName : string) : Funcs :=
  predicate_And [driverNameMatchesPredicate driverName;
    predicate_Or [AnyCreate; AnyDelete; AnyGeneric;
                  BucketAccessHandoffOccurred; ProtectionFinalizerRemoved]].

(** ** Facts *)

Lemma handoffOccurred_spec old new :
  handoffOccurred old new = true ↔ ManagedBySidecar old ≠ ManagedBySidecar new.
Proof.
  unfold handoffOccurred.
  destruct (ManagedBySidecar old), (ManagedBySidecar new); cbn; split; done.
Qed.

Lemma or_update_access old new :
  UpdateFunc (predicate_Or [AnyCreate; AnyDelete; AnyGeneric;
      BucketAccessHandoffOccurred; ProtectionFinalizerRemoved])
    (ObjBucketAccess old) (ObjBucketAccess new) =
  handoffOccurred old new || UpdateFunc ProtectionFinalizerRemoved
                               (ObjBucketAccess old) (ObjBucketAccess new).
Proof. cbn. by rewrite orb_false_r. Qed.

Lemma controller_access_update old new :
  UpdateFunc controller_access_filter (ObjBucketAccess old) (ObjBucketAccess new) =
  negb (ManagedBySidecar new) &&
  (handoffOccurred old new || UpdateFunc ProtectionFinalizerRemoved
                                (ObjBucketAccess old) (ObjBucketAccess new)).
Proof. cbn. by rewrite orb_false_r, andb_true_r. Qed.

Lemma sidecar_access_update d old new :
  UpdateFunc (sidecar_access_filter d) (ObjBucketAccess old) (ObjBucketAccess new) =
  (accessStatus_DriverName (access_Status new) =s d) &&
  (handoffOccurred old new || UpdateFunc ProtectionFinalizerRemoved
                                (ObjBucketAccess old) (ObjBucketAccess new)).
Proof. cbn. by rewrite orb_false_r, andb_true_r. Qed.

(** The API server marks an object for deletion: it sets the deletion timestamp and
    increments the generation, and changes nothing else. *)
Definition marked_for_deletion {A} `{ClientObject A} (t : Z) (a : A) : A :=
  SetMeta {| meta_Name := meta_Name (GetMeta a); meta_Namespace := meta_Namespace (GetMeta a);
             meta_UID := meta_UID (GetMeta a);
             meta_ResourceVersion := meta_ResourceVersion (GetMeta a);
             meta_Generation := meta_Generation (GetMeta a) + 1;
             meta_DeletionTimestamp := Some t;
             meta_Annotations := meta_Annotations (GetMeta a);
             meta_Finalizers := meta_Finalizers (GetMeta a);
             meta_OwnerReferences := meta_OwnerReferences (GetMeta a) |} a.

Lemma marked_ManagedBySidecar t (a : BucketAccess) :
  has_annotation SidecarCleanupFinishedAnnotation a = false → IsDeleting a = false →
  ManagedBySidecar (marked_for_deletion t a) = ManagedBySidecar a.
Proof.
  intros Hc Hd. unfold ManagedBySidecar. rewrite Hd.
  change (has_annotation ?k (marked_for_deletion t a)) with (has_annotation k a).
  change (access_Status (marked_for_deletion t a)) with (access_Status a).
  rewrite Hc. cbn [negb]. destruct (IsDeleting (marked_for_deletion t a)); done.
Qed.

Lemma marked_GenerationChanged t (o : client_object) :
  UpdateFunc GenerationChangedInUpdateOnly o (marked_for_deletion t o) = true.
Proof.
  unfold GenerationChangedInUpdateOnly, with_UpdateFunc. cbn [UpdateFunc].
  unfold GetGeneration, marked_for_deletion. rewrite GetMeta_SetMeta. cbn [meta_Generation].
  apply negb_true_iff, Z.eqb_neq. lia.
Qed.

(** ** Properties *)

(** A change of manager is never missed. For every update event in which the
    managing component of a BucketAccess changes, the filter of the new manager accepts
    the event: the Controller's when the Controller takes over, and the Sidecar's of the
    recorded driver when the Sidecar does. *)
Lemma handoff_reaches_new_manager old new :
  ManagedBySidecar old ≠ ManagedBySidecar new →
  (ManagedBySidecar new = false →
     UpdateFunc controller_access_filter (ObjBucketAccess old) (ObjBucketAccess new) = true) ∧
  (ManagedBySidecar new = true →
     UpdateFunc (sidecar_access_filter (accessStatus_DriverName (access_Status new)))
       (ObjBucketAccess old) (ObjBucketAccess new) = true).
Proof.
  intros Hh%handoffOccurred_spec.
  rewrite controller_access_update, sidecar_access_update, Hh, eqs_refl.
  split; [by intros ->|done].
Qed.

(** Create, Delete and Generic events. Of the two BucketAccess reconcilers, the
    Controller's accepts such an event exactly when it manages the object; the Sidecar's
    accepts it exactly when the object records its driver. The Sidecar's BucketAccess
    filter does not ask who manages the object, so after hand-back both accept it. *)
Theorem access_filters_on_creation a d :
  (CreateFunc controller_access_filter (ObjBucketAccess a) = negb (ManagedBySidecar a)) ∧
  (CreateFunc (sidecar_access_filter d) (ObjBucketAccess a) =
     (accessStatus_DriverName (access_Status a) =s d)) ∧
  (ManagedBySidecar a = true →
     CreateFunc controller_access_filter (ObjBucketAccess a) = false ∧
     CreateFunc (sidecar_access_filter (accessStatus_DriverName (access_Status a)))
       (ObjBucketAccess a) = true).
Proof.
  cbn. rewrite !andb_true_r, eqs_refl. split; [done|]. split; [done|]. by intros ->.
Qed.

(** The protection finalizer. An update that removes the protection finalizer from a
    live object is accepted by the claim filter and by the filters of the two sidecar
    reconcilers of the object's driver, so that the finalizer is put back; once the object
    is being deleted, losing the finalizer alone is no reason to reconcile. *)
Theorem finalizer_removal_accepted (old new : client_object) d :
  ContainsFinalizer old ProtectionFinalizer = true →
  ContainsFinalizer new ProtectionFinalizer = false →
  UpdateFunc ProtectionFinalizerRemoved old new = negb (IsDeleting new) ∧
  (IsDeleting new = false →
     UpdateFunc claim_filter old new = true ∧
     UpdateFunc (sidecar_bucket_filter d) old new =
       UpdateFunc (driverNameMatchesPredicate d) old new ∧
     UpdateFunc (sidecar_access_filter d) old new =
       UpdateFunc (driverNameMatchesPredicate d) old new).
Proof.
  intros Hold Hnew.
  assert (UpdateFunc ProtectionFinalizerRemoved old new = negb (IsDeleting new)) as Hp.
  { cbn. rewrite Hold, Hnew. by destruct (IsDeleting new). }
  split; [exact Hp|]. intros Hd. rewrite Hd in Hp.
  assert (∀ ps, existsb (λ p, UpdateFunc p old new) (ps ++ [ProtectionFinalizerRemoved]) = true) as He.
  { intros ps. rewrite existsb_app. cbn [existsb]. rewrite Hp. by rewrite orb_true_r. }
  split; [exact (He [AnyCreate; AnyDelete; AnyGeneric; GenerationChangedInUpdateOnly])|].
  pose proof (He [AnyCreate; AnyDelete; AnyGeneric; GenerationChangedInUpdateOnly]) as Hb.
  pose proof (He [AnyCreate; AnyDelete; AnyGeneric; BucketAccessHandoffOccurred]) as Ha.
  cbn [app] in Ha, Hb.
  unfold sidecar_bucket_filter, sidecar_access_filter, predicate_And, predicate_Or.
  cbn [UpdateFunc forallb]. rewrite Ha, Hb. by rewrite !andb_true_r.
Qed.

(** C26: Deletion of a BucketAccess is not observed. When a live BucketAccess that has not
    been cleaned up is marked for deletion, the update event is rejected by the
    Controller's filter and by every Sidecar's filter, whoever manages the access: neither
    filter includes a test for the deletion timestamp or the generation, and the managing
    component does not change. The filters of BucketClaims and of Buckets do accept the
    event that marks their object for deletion, by its generation. *)
Theorem access_deletion_not_enqueued (a : BucketAccess) t d :
  IsDeleting a = false →
  has_annotation SidecarCleanupFinishedAnnotation a = false →
  UpdateFunc controller_access_filter (ObjBucketAccess a)
    (ObjBucketAccess (marked_for_deletion t a)) = false ∧
  UpdateFunc (sidecar_access_filter d) (ObjBucketAccess a)
    (ObjBucketAccess (marked_for_deletion t a)) = false ∧
  (∀ c : BucketClaim, UpdateFunc claim_filter (ObjBucketClaim c)
     (ObjBucketClaim (marked_for_deletion t c)) = true) ∧
  (∀ b : Bucket, UpdateFunc (sidecar_bucket_filter (bucketSpec_DriverName (bucket_Spec b)))
     (ObjBucket b) (ObjBucket (marked_for_deletion t b)) = true).
Proof.
  intros Hd Hc.
  assert (handoffOccurred a (marked_for_deletion t a) = false) as Hh.
  { apply not_true_is_false. intros Hh%handoffOccurred_spec. apply Hh.
    symmetry. by apply marked_ManagedBySidecar. }
  assert (UpdateFunc ProtectionFinalizerRemoved (ObjBucketAccess a)
            (ObjBucketAccess (marked_for_deletion t a)) = false) as Hf.
  { unfold ProtectionFinalizerRemoved, with_UpdateFunc. cbn [UpdateFunc].
    destruct (IsDeleting (ObjBucketAccess (marked_for_deletion t a))); [done|].
    change (ContainsFinalizer (ObjBucketAccess (marked_for_deletion t a)) ProtectionFinalizer)
      with (ContainsFinalizer (ObjBucketAccess a) ProtectionFinalizer).
    apply andb_negb_r. }
  rewrite controller_access_update, sidecar_access_update, Hh, Hf.
  split; [apply andb_false_r|]. split; [apply andb_false_r|].
  unfold claim_filter, sidecar_bucket_filter, predicate_And, predicate_Or.
  cbn [UpdateFunc existsb forallb]. split; intros o.
  - pose proof (marked_GenerationChanged t (ObjBucketClaim o)) as Hg.
    change (marked_for_deletion t (ObjBucketClaim o))
      with (ObjBucketClaim (marked_for_deletion t o)) in Hg. by rewrite Hg.
  - pose proof (marked_GenerationChanged t (ObjBucket o)) as Hg.
    change (marked_for_deletion t (ObjBucket o))
      with (ObjBucket (marked_for_deletion t o)) in Hg. rewrite Hg.
    cbn. by rewrite eqs_refl.
Qed.

(** ** Witnesses *)

Lemma access_filters_on_creation_witness :
  CreateFunc controller_access_filter (ObjBucketAccess demo_granted_access) = false.
Proof.
  exact (proj1 (proj2 (proj2 (access_filters_on_creation demo_granted_access demo_driver_name))
                  eq_refl)).
Defined.

(** A protected claim, and the same claim after someone removed the finalizer. *)
Definition demo_protected_claim : BucketClaim :=
  (AddFinalizer demo_bound_claim ProtectionFinalizer).1.

Definition demo_unprotected_claim : BucketClaim :=
  RemoveFinalizer demo_protected_claim ProtectionFinalizer.

Lemma finalizer_removal_accepted_witness :
  UpdateFunc claim_filter (ObjBucketClaim demo_protected_claim)
    (ObjBucketClaim demo_unprotected_claim) = true.
Proof.
  exact (proj1 (proj2 (finalizer_removal_accepted (ObjBucketClaim demo_protected_claim)
    (ObjBucketClaim demo_unprotected_claim) demo_driver_name eq_refl eq_refl) eq_refl)).
Defined.

Lemma access_deletion_not_enqueued_witness :
  UpdateFunc (sidecar_access_filter demo_driver_name) (ObjBucketAccess demo_granted_access)
    (ObjBucketAccess (marked_for_deletion 7 demo_granted_access)) = false.
Proof.
  exact (proj1 (proj2 (access_deletion_not_enqueued demo_granted_access 7 demo_driver_name
                         eq_refl eq_refl))).
Defined.
