(* ===== verification/Driver.v ===== *)
(** * Driver information and the baseline RPC error scheme

    Models [src/sidecar/pkg/reconciler/driver.go] (the predicate of that file is in the
    file of event filters) and what it uses of [strings] and of the vendored
    [k8s.io/apimachinery/pkg/util/validation]. *)

From stdpp Require Import base gmap strings list.
From Stdlib Require Import Ascii.
From S2P Require Import Prelude GoErrors ApiTypes ProtoTypes Effects ApiServer.

(** ** Driver names *)

Definition dot : ascii := "."%char.

(** [strings.Split(s, ".")]. *)
Fixpoint strings_Split (s : string) : list string :=
  match s with
  | EmptyString => [""]
  | String c s' =>
      if Ascii.eqb c dot then "" :: strings_Split s'
      else match strings_Split s' with
           | l :: ls => String c l :: ls
           | [] => [String c ""]
           end
  end.

Definition is_lower (c : ascii) : bool :=
  let n := nat_of_ascii c in (97 <=? n) && (n <=? 122).
Definition is_digit (c : ascii) : bool :=
  let n := nat_of_ascii c in (48 <=? n) && (n <=? 57).
Definition is_alnum (c : ascii) : bool := is_lower c || is_digit c.

(** The rest of a label after its first letter, [([-a-z0-9]*[a-z0-9])?$]: made of
    letters, digits and dashes, and not ending in a dash. *)
Fixpoint label_rest (s : string) : bool :=
  match s with
  | EmptyString => true
  | String c EmptyString => is_alnum c
  | String c s' => (is_alnum c || Ascii.eqb c "-"%char) && label_rest s'
  end.

(** [dns1035LabelRegexp.MatchString], the regular expression
    [^[a-z]([-a-z0-9]*[a-z0-9])?$]. *)
Definition dns1035LabelRegexp_MatchString (s : string) : bool :=
  match s with
  | EmptyString => false
  | String c s' => is_lower c && label_rest s'
  end.

Definition DNS1035LabelMaxLength : nat := 63.

Definition dns1035LabelErrText : string :=
  "a DNS-1035 label must consist of lower case alphanumeric characters or '-', start with an alphabetic character, and end with an alphanumeric character (e.g. 'my-name',  or 'abc-123', regex used for validation is '[a-z]([-a-z0-9]*[a-z0-9])?')".

Definition IsDNS1035Label (value : string) : list string :=
  (if DNS1035LabelMaxLength <? String.length value
   then ["must be no more than 63 characters"] else []) ++
  (if negb (dns1035LabelRegexp_MatchString value) then [dns1035LabelErrText] else []).

Definition validateDriverName (n : string) : option error :=
  let allErrs :=
    (if 63 <? String.length n
     then ["must be no more than 63 characters: length=" +:+ fmt_int (Z.of_nat (String.length n))]
     else []) ++
    flat_map (λ l,
      let errs := IsDNS1035Label l in
      if 0 <? length errs
      then [quote l +:+ " is not a valid RFC-1035 label: " +:+ fmt_slice errs]
      else []) (strings_Split n) in
  if 0 <? length allErrs
  then Some (Errorf ("driver name " +:+ quote n +:+ " is invalid: " +:+ fmt_slice allErrs))
  else None.

(** ** Supported protocols *)

(** The loop of [validateAndParseProtocols], with the set [seen] and the output so far.
    [op.String()] of a message whose only field has its zero value is empty. *)
Fixpoint parse_protocols_loop (objProtocols : list ObjectProtocol) (seen out : list Z) :
    result error (list Z) :=
  match objProtocols with
  | [] => Ok out
  | op :: rest =>
      let t := proto_Type op in
      if (t =? ObjectProtocol_UNKNOWN)%Z
      then Err (Errorf ("object protocol " +:+ quote "" +:+ " is unknown"))
      else if existsb (Z.eqb t) seen then Err (Errorf "object protocol")
      else parse_protocols_loop rest (t :: seen) (out ++ [t])
  end.

Definition validateAndParseProtocols (objProtocols : list ObjectProtocol) :
    result error (list Z) :=
  if length objProtocols =? 0
  then Err (Errorf "at least one object protocol must be supported")
  else parse_protocols_loop objProtocols [] [].

(** ** Driver info

    The [ProvisionerClient] field is the connection that driver calls go to; the
    programs of the reconcilers make those calls to their environment. *)

Record DriverInfo : Type := {
  driver_Name : string;
  driver_SupportedProtocols : list Z
}.

Definition SupportsProtocol (d : DriverInfo) (p : Z) : bool :=
  existsb (λ sp, (sp =? p)%Z) (driver_SupportedProtocols d).

Definition ValidateAndSetDriverConnectionInfo (driverReportedInfo : DriverGetInfoResponse) :
    result error DriverInfo :=
  match validateDriverName (info_Name driverReportedInfo) with
  | Some err => Err (Errorf_w "driver name is invalid" err)
  | None =>
      match validateAndParseProtocols (info_SupportedProtocols driverReportedInfo) with
      | Err err => Err (Errorf_w "supported protocols list is invalid" err)
      | Ok parsedProtocols =>
          Ok {| driver_Name := info_Name driverReportedInfo;
                driver_SupportedProtocols := parsedProtocols |}
      end
  end.

(** The info of the driver of the example installation. *)
Definition demo_driver_info : DriverInfo :=
  {| driver_Name := demo_driver_name; driver_SupportedProtocols := [ObjectProtocol_S3] |}.

(** ** The baseline error scheme *)

Definition rpcErrorIsRetryable (c : Code) : bool :=
  match c with
  | InvalidArgument => false
  | PermissionDenied => true
  | CodeAlreadyExists => false
  | Aborted => true
  | Unimplemented => false
  | Unauthenticated => true
  | _ => true
  end.

(** ** Specifications *)

(** A label of RFC 1035: a letter, or a letter, a middle part and a last character. *)
Definition in_middle (c : ascii) : Prop := is_alnum c = true ∨ c = "-"%char.

Inductive rfc1035_label : string → Prop :=
| label_one c : is_lower c = true → rfc1035_label (String c "")
| label_more c (mid : string) d :
    is_lower c = true → Forall in_middle (String.list_ascii_of_string mid) →
    is_alnum d = true → rfc1035_label (String c (mid +:+ String d "")).

(** A driver name: dot-separated labels, at most 63 bytes in all. *)
Definition valid_driver_name (n : string) : Prop :=
  String.length n ≤ 63 ∧
  ∃ labels, labels ≠ [] ∧ Forall rfc1035_label labels ∧ n = join "." labels.

(** ** Facts *)

Lemma label_rest_cons c d s :
  label_rest (String c (String d s)) =
  (is_alnum c || Ascii.eqb c "-"%char) && label_rest (String d s).
Proof. done. Qed.

Lemma middle_spec c : is_alnum c || Ascii.eqb c "-"%char = true ↔ in_middle c.
Proof. unfold in_middle. by rewrite orb_true_iff, Ascii.eqb_eq. Qed.

Lemma label_rest_app mid d :
  label_rest (mid +:+ String d "") = true ↔
  Forall in_middle (String.list_ascii_of_string mid) ∧ is_alnum d = true.
Proof.
  induction mid as [|c mid IH]; simpl.
  - split; [intros; split; [constructor|done]|tauto].
  - change (String.append mid (String d "")) with (mid +:+ String d "") in *.
    assert (∃ e s, mid +:+ String d "" = String e s) as (e & s & Hes).
    { destruct mid; simpl; eauto. }
    rewrite Hes in *. rewrite Forall_cons, <-middle_spec, andb_true_iff, IH. tauto.
Qed.

Lemma string_snoc (s : string) : s = "" ∨ ∃ mid d, s = mid +:+ String d "".
Proof.
  induction s as [|c s [->|(mid & d & ->)]]; [by left| |]; right.
  - by exists "", c.
  - by exists (String c mid), d.
Qed.

(** The regular expression matches exactly the labels of RFC 1035. *)
Lemma dns1035_match_label s : dns1035LabelRegexp_MatchString s = true ↔ rfc1035_label s.
Proof.
  destruct s as [|c s]; simpl.
  - split; [done|]. inversion 1.
  - rewrite andb_true_iff. destruct (string_snoc s) as [->|(mid & d & ->)].
    + split; [intros [? _]; by constructor|]. inversion 1; subst; [done|].
      by destruct mid.
    + rewrite label_rest_app. split; [intros (? & ? & ?); by constructor|].
      inversion 1 as [|c' mid' d' ? ? ? [Hc Heq]]; subst.
      * by destruct mid.
      * assert (Forall in_middle (String.list_ascii_of_string mid) ∧ is_alnum d = true)
          as [??]; [|done].
        apply label_rest_app. rewrite <-Heq. by apply label_rest_app.
Qed.

(** Characters of a label are never the separator. *)
Definition dot_free (s : string) : Prop := dot ∉ String.list_ascii_of_string s.

Lemma list_ascii_app s t :
  String.list_ascii_of_string (s +:+ t) =
  String.list_ascii_of_string s ++ String.list_ascii_of_string t.
Proof. induction s as [|c s IH]; simpl; [done|]. by f_equal. Qed.

Lemma label_dot_free s : rfc1035_label s → dot_free s.
Proof.
  assert (is_lower dot = false ∧ is_alnum dot = false ∧ dot ≠ "-"%char) as (Hl & Ha & Hm)
    by by vm_compute.
  unfold dot_free. intros [c Hc|c mid d Hc Hmid Hd].
  - simpl. intros Hin%list_elem_of_singleton. congruence.
  - cbn [String.list_ascii_of_string]. rewrite list_ascii_app.
    intros [Hx|[Hx|Hx%list_elem_of_singleton]%elem_of_app]%elem_of_cons; [congruence| |congruence].
    rewrite Forall_forall in Hmid. destruct (Hmid _ Hx); congruence.
Qed.

Lemma strings_Split_not_nil s : strings_Split s ≠ [].
Proof.
  destruct s as [|c s]; simpl; [done|].
  destruct (Ascii.eqb c dot); [done|]. by destruct (strings_Split s).
Qed.

Lemma join_strings_Split s : join "." (strings_Split s) = s.
Proof.
  induction s as [|c s IH]; [done|]. cbn [strings_Split].
  pose proof (strings_Split_not_nil s) as Hn.
  destruct (Ascii.eqb c dot) eqn:E; destruct (strings_Split s) as [|l ls]; [done| |done|].
  - apply Ascii.eqb_eq in E as ->. change (String dot (join "." (l :: ls)) = String dot s). by rewrite IH.
  - rewrite <-IH. by destruct ls.
Qed.

Lemma strings_Split_dot_free s : dot_free s → strings_Split s = [s].
Proof.
  unfold dot_free. induction s as [|c s IH]; [done|].
  cbn [String.list_ascii_of_string strings_Split]. rewrite not_elem_of_cons. intros [Hc Hs].
  rewrite (proj2 (Ascii.eqb_neq c dot)) by done. by rewrite IH.
Qed.

Lemma strings_Split_app l s :
  dot_free l → strings_Split (l +:+ "." +:+ s) = l :: strings_Split s.
Proof.
  unfold dot_free. induction l as [|c l IH]; [done|].
  cbn [String.list_ascii_of_string]. rewrite not_elem_of_cons. intros [Hc Hl].
  change (String c l +:+ "." +:+ s) with (String c (l +:+ "." +:+ s)).
  cbn [strings_Split]. rewrite (proj2 (Ascii.eqb_neq c dot)) by done. by rewrite IH.
Qed.

Lemma strings_Split_join ls :
  ls ≠ [] → Forall dot_free ls → strings_Split (join "." ls) = ls.
Proof.
  induction ls as [|l ls IH]; [done|]. intros _ [Hl Hls]%Forall_cons.
  destruct ls as [|l' ls]; [by apply strings_Split_dot_free|].
  change (join "." (l :: l' :: ls)) with (l +:+ "." +:+ join "." (l' :: ls)).
  rewrite strings_Split_app by done. by rewrite IH.
Qed.

(** A label that splits off a short name is short itself. *)
Lemma length_join_elem l ls : l ∈ ls → String.length l ≤ String.length (join "." ls).
Proof.
  assert (∀ s t, String.length (s +:+ t) = String.length s + String.length t) as Happ.
  { induction s; intros t; simpl; [done|]. by f_equal. }
  induction ls as [|x ls IH]; [by intros ?%elem_of_nil|].
  intros Hin. destruct ls as [|y ls]; [apply list_elem_of_singleton in Hin as ->; simpl; lia|].
  change (join "." (x :: y :: ls)) with (x +:+ "." +:+ join "." (y :: ls)).
  rewrite !Happ. apply elem_of_cons in Hin as [->|Hin]; [lia|].
  specialize (IH Hin). lia.
Qed.

Lemma IsDNS1035Label_nil l :
  IsDNS1035Label l = [] ↔ String.length l ≤ 63 ∧ rfc1035_label l.
Proof.
  unfold IsDNS1035Label. rewrite app_nil, <-dns1035_match_label.
  unfold DNS1035LabelMaxLength.
  destruct (63 <? String.length l) eqn:E; destruct (dns1035LabelRegexp_MatchString l);
    simpl; rewrite ?Nat.ltb_lt, ?Nat.ltb_ge in E; (split; [intros [??]|intros [??]]); try done; lia.
Qed.

Lemma validateDriverName_None n :
  validateDriverName n = None ↔
  String.length n ≤ 63 ∧ Forall (λ l, IsDNS1035Label l = []) (strings_Split n).
Proof.
  unfold validateDriverName. rewrite Forall_forall.
  destruct (0 <? length _) eqn:E.
  - apply not_false_iff_true in E. rewrite ltb_0_length, app_nil, flat_map_nil in E.
    split; [done|]. intros [Hl HF]. destruct E.
    split; [by rewrite (proj2 (Nat.ltb_ge _ _))|]. intros l Hin. by rewrite (HF l Hin).
  - rewrite ltb_0_length, app_nil, flat_map_nil in E. destruct E as [E1 E2].
    split; [intros _|done].
    split; [destruct (63 <? String.length n) eqn:El; [done|by apply Nat.ltb_ge]|].
    intros l Hin. specialize (E2 l Hin). apply ltb_0_length. simpl in E2. by case_match.
Qed.

(** A name passes validation exactly when it is a series of RFC-1035 labels separated by
    dots and at most 63 bytes long. *)
Lemma driver_name_valid_spec n : validateDriverName n = None ↔ valid_driver_name n.
Proof.
  rewrite validateDriverName_None. unfold valid_driver_name. split; intros [Hl H]; (split; [done|]).
  - exists (strings_Split n). split; [apply strings_Split_not_nil|].
    split; [|by rewrite join_strings_Split].
    eapply Forall_impl; [exact H|]. by intros l [_ ?]%IsDNS1035Label_nil.
  - destruct H as (labels & Hn & HF & ->). rewrite strings_Split_join; [|done|].
    + rewrite Forall_forall in *. intros l Hin. apply IsDNS1035Label_nil. split; [|by apply HF].
      pose proof (length_join_elem l labels Hin). lia.
    + eapply Forall_impl; [exact HF|]. apply label_dot_free.
Qed.

Lemma parse_protocols_loop_Ok ops seen out r :
  parse_protocols_loop ops seen out = Ok r ↔
  (r = out ++ (proto_Type <$> ops)) ∧ (ObjectProtocol_UNKNOWN ∉ (proto_Type <$> ops)) ∧
  NoDup (proto_Type <$> ops) ∧ ∀ t, t ∈ (proto_Type <$> ops) → t ∉ seen.
Proof.
  revert seen out. induction ops as [|op ops IH]; intros seen out; cbn.
  - rewrite app_nil_r. split.
    + intros [= ->]. split; [done|]. split; [apply not_elem_of_nil|].
      split; [constructor|]. by intros t ?%elem_of_nil.
    + by intros (-> & _).
  - rewrite not_elem_of_cons, NoDup_cons.
    destruct (proto_Type op =? ObjectProtocol_UNKNOWN)%Z eqn:Et.
    { apply Z.eqb_eq in Et. split; [done|]. intros (_ & [? _] & _). congruence. }
    apply Z.eqb_neq in Et.
    assert ((existsb (Z.eqb (proto_Type op)) seen = true) ↔ (proto_Type op ∈ seen)) as Hex.
    { rewrite existsb_exists, list_elem_of_In. split.
      - by intros (y & Hy & ->%Z.eqb_eq).
      - intros ?. exists (proto_Type op). by rewrite Z.eqb_refl. }
    destruct (existsb _ seen) eqn:Es.
    { split; [done|]. intros (_ & _ & _ & Hs). destruct (Hs (proto_Type op)); [left|tauto]. }
    assert (proto_Type op ∉ seen) as Hns by (intros Hin%Hex; congruence).
    rewrite IH, <-app_assoc. cbn. set_solver.
Qed.

(** A driver error is retried unless its code is one of the three codes that ask the user
    or the administrator for a change. *)
Lemma rpcErrorIsRetryable_false c :
  rpcErrorIsRetryable c = false ↔
  c = InvalidArgument ∨ c = CodeAlreadyExists ∨ c = Unimplemented.
Proof. destruct c; simpl; intuition congruence. Qed.

Lemma SupportsProtocol_spec d p :
  SupportsProtocol d p = true ↔ p ∈ driver_SupportedProtocols d.
Proof.
  unfold SupportsProtocol. rewrite existsb_exists, list_elem_of_In. split.
  - by intros (y & Hy & ->%Z.eqb_eq).
  - intros ?. exists p. by rewrite Z.eqb_refl.
Qed.

(** ** Properties *)

(** The info a driver reports is accepted exactly when its name is valid
    and its protocol list is non-empty, known and free of duplicates; the accepted info
    keeps the name and the protocols in their order, and answers for exactly those. *)
Lemma driver_info_accepted_iff info d :
  ValidateAndSetDriverConnectionInfo info = Ok d ↔
  let ts := proto_Type <$> info_SupportedProtocols info in
  valid_driver_name (info_Name info) ∧
  ts ≠ [] ∧ (ObjectProtocol_UNKNOWN ∉ ts) ∧ NoDup ts ∧
  d = {| driver_Name := info_Name info; driver_SupportedProtocols := ts |} ∧
  ∀ p, SupportsProtocol d p = true ↔ p ∈ ts.
Proof.
  cbn zeta. rewrite <-driver_name_valid_spec. unfold ValidateAndSetDriverConnectionInfo.
  destruct (validateDriverName (info_Name info)) as [e|]; [by split; [|intros [? _]]|].
  pose proof (parse_protocols_loop_Ok (info_SupportedProtocols info) [] []) as Hp.
  unfold validateAndParseProtocols.
  destruct (length (info_SupportedProtocols info) =? 0) eqn:El.
  { apply is_nil_length in El as ->. split; [done|]. by intros (_ & ? & _). }
  assert (proto_Type <$> info_SupportedProtocols info ≠ []) as Hne.
  { intros Hn%fmap_nil_inv. by rewrite Hn in El. }
  destruct (parse_protocols_loop (info_SupportedProtocols info) [] []) as [ts|e]; split.
  - intros [= <-]. destruct (proj1 (Hp ts) eq_refl) as (-> & Hu & Hd & _).
    split_and!; try done. apply SupportsProtocol_spec.
  - intros (_ & _ & _ & _ & -> & _). by destruct (proj1 (Hp ts) eq_refl) as (-> & _).
  - done.
  - intros (_ & _ & Hu & Hd & _).
    assert (Err e = Ok (proto_Type <$> info_SupportedProtocols info)) as [=].
    apply Hp. split_and!; try done. intros t _. apply not_elem_of_nil.
Qed.
