(* ===== verification/Rpc.v ===== *)
(** * Connecting the Sidecar to its driver

    Models [src/sidecar/cmd/rpc.go]: the checks on the endpoint, the wait for the gRPC
    connection to become ready, and the retrieval and validation of the driver's info.
    The gRPC library and the driver behind it are a parameter, the record [Grpc]: what its
    calls return in one start of the Sidecar. A run is the list of the calls made, in order, and
    what is returned. *)

From stdpp Require Import base gmap strings list.
From Stdlib Require Import Ascii.
From S2P Require Import Prelude GoErrors ApiTypes ProtoTypes ApiServer Driver.

(** ** [strings.HasPrefix] and [strings.HasSuffix] *)

Definition HasPrefix (s prefix : string) : bool := String.prefix prefix s.

Fixpoint HasSuffix (s suffix : string) : bool :=
  (s =s suffix) || match s with EmptyString => false | String _ s' => HasSuffix s' suffix end.

(** ** The gRPC library *)

(** [connectivity.State]. *)
Inductive State : Type := Idle | Connecting | Ready | TransientFailure | Shutdown.

#[export] Instance State_eq_dec : EqDecision State.
Proof. solve_decision. Defined.

Definition State_String (s : State) : string :=
  match s with
  | Idle => "IDLE" | Connecting => "CONNECTING" | Ready => "READY"
  | TransientFailure => "TRANSIENT_FAILURE" | Shutdown => "SHUTDOWN"
  end.

(** What the library's calls return. [WaitForStateChange] returns false once the deadline
    of its context has passed, so the states observed after its successive true answers
    form a finite list; when the list is used up, it returns false. *)
Record Grpc : Type := {
  NewClient : string → option error;       (** [grpc.NewClient], [None] for success *)
  GetState : State;                        (** [conn.GetState()] of the new client *)
  StateChanges : list State;               (** [conn.GetState()] after each state change *)
  DriverGetInfo : result rpc_error DriverGetInfoResponse
}.

(** The calls of the library. *)
Inductive grpc_call : Type :=
| CallNewClient (target : string)
| CallGetState
| CallConnect
| CallWaitForStateChange (state : State)
| CallDriverGetInfo.

(** ** [rpc.go] *)

(** The loop that waits for the client to become ready. *)
Fixpoint wait_ready (state : State) (changes : list State) : list grpc_call * option error :=
  match changes with
  | [] => ([CallWaitForStateChange state], Some (Errorf "timed out waiting for RPC client to connect"))
  | state' :: changes' =>
      let calls := [CallWaitForStateChange state; CallGetState] in
      if decide (state' = Ready) then (calls, None)
      else let '(calls', err) := wait_ready state' changes' in (calls ++ calls', err)
  end.

Definition connectRpc (g : Grpc) (rpcEndpoint : string) : list grpc_call * option error :=
  let calls := [CallNewClient rpcEndpoint] in
  match NewClient g rpcEndpoint with
  | Some err => (calls, Some (Errorf_w "unable to create gRPC client" err))
  | None =>
      let state := GetState g in
      let calls := calls ++ [CallGetState] in
      if bool_decide (state ≠ Idle)
      then (calls, Some (Errorf ("gRPC client is not idle: " +:+ State_String state)))
      else
        let '(calls', err) := wait_ready state (StateChanges g) in
        (calls ++ [CallConnect] ++ calls', err)
  end.

Definition connectRpcAndGetDriverInfo (g : Grpc) (rpcEndpoint : string) :
    list grpc_call * result error DriverInfo :=
  if negb (HasPrefix rpcEndpoint "unix://")
  then ([], Err (Errorf ("rpc endpoint must be a unix socket prefix 'unix://': " +:+ rpcEndpoint)))
  else if negb (HasSuffix rpcEndpoint ".sock")
  then ([], Err (Errorf ("rpc endpoint must be a unix socket with extension '.sock': " +:+ rpcEndpoint)))
  else
    match connectRpc g rpcEndpoint with
    | (calls, Some err) =>
        (calls, Err (Errorf_w ("unable to connect to RPC endpoint " +:+ quote rpcEndpoint) err))
    | (calls, None) =>
        (calls ++ [CallDriverGetInfo],
         match DriverGetInfo g with
         | Err err => Err (Errorf_w "unable to get driver info" (of_rpc_error err))
         | Ok driverResponse =>
             match ValidateAndSetDriverConnectionInfo driverResponse with
             | Err err => Err (Errorf_w "driver info is invalid" err)
             | Ok validatedInfo => Ok validatedInfo
             end
         end)
    end.

(** ** Facts *)

Lemma HasPrefix_spec s p : HasPrefix s p = true ↔ ∃ t, s = p +:+ t.
Proof.
  unfold HasPrefix. revert s. induction p as [|c p IH]; intros s; simpl.
  - split; [by exists s|by destruct s].
  - destruct s as [|d s]; [split; [done|by intros [t [=]]]|].
    cbn [String.prefix String.append]. destruct (ascii_dec c d) as [->|Hn].
    + rewrite IH. split; intros [t Ht]; exists t; [by rewrite Ht|by injection Ht].
    + split; [done|]. intros [t Ht]. by injection Ht.
Qed.

Lemma HasSuffix_spec s p : HasSuffix s p = true ↔ ∃ t, s = t +:+ p.
Proof.
  induction s as [|c s IH]; cbn [HasSuffix].
  - rewrite orb_false_r, eqs_true. split; [intros <-; by exists ""|].
    by intros [[|d t] Ht].
  - rewrite orb_true_iff, eqs_true, IH. split.
    + intros [<-|[t ->]]; [by exists ""|by exists (String c t)].
    + intros [[|d t] Ht]; [by left|]. right. exists t. by injection Ht.
Qed.

Lemma wait_ready_None state changes : (wait_ready state changes).2 = None ↔ Ready ∈ changes.
Proof.
  revert state. induction changes as [|s changes IH]; intros state; simpl.
  - split; [done|by intros ?%elem_of_nil].
  - rewrite elem_of_cons, <-(IH s). destruct (decide (s = Ready)) as [->|Hn]; [naive_solver|].
    destruct (wait_ready s changes). naive_solver.
Qed.
Lemma wait_ready_calls state changes c :
  c ∈ (wait_ready state changes).1 → c = CallGetState ∨ ∃ s, c = CallWaitForStateChange s.
Proof.
  revert state. induction changes as [|s changes IH]; intros state; cbn [wait_ready fst].
  { intros ->%list_elem_of_singleton. eauto. }
  specialize (IH s). destruct (wait_ready s changes) as [calls err]. cbn [fst] in IH.
  destruct (decide (s = Ready)); cbn [fst app]; rewrite !elem_of_cons; [rewrite elem_of_nil|]; naive_solver.
Qed.

Lemma connectRpc_None g e :
  (connectRpc g e).2 = None ↔ NewClient g e = None ∧ GetState g = Idle ∧ Ready ∈ StateChanges g.
Proof.
  unfold connectRpc. rewrite <-(wait_ready_None (GetState g)).
  destruct (NewClient g e); cbn; [naive_solver|].
  destruct (wait_ready (GetState g) (StateChanges g)). case_bool_decide; naive_solver.
Qed.
Lemma connectRpc_calls g e c :
  c ∈ (connectRpc g e).1 → c = CallNewClient e ∨ c = CallGetState ∨ c = CallConnect ∨ ∃ s, c = CallWaitForStateChange s.
Proof.
  unfold connectRpc. pose proof (wait_ready_calls (GetState g) (StateChanges g) c) as Hw.
  destruct (NewClient g e); cbn [fst]; [intros ->%list_elem_of_singleton; by left|].
  destruct (wait_ready (GetState g) (StateChanges g)) as [calls err]. cbn [fst] in Hw.
  case_bool_decide; cbn [fst app]; rewrite !elem_of_cons, ?elem_of_nil; naive_solver.
Qed.

(** ** Properties *)

Lemma connect_Ok g endpoint d :
  (connectRpcAndGetDriverInfo g endpoint).2 = Ok d ↔
  (∃ path, endpoint = "unix://" +:+ path) ∧ (∃ path, endpoint = path +:+ ".sock") ∧
  NewClient g endpoint = None ∧ GetState g = Idle ∧ (Ready ∈ StateChanges g) ∧
  ∃ info, DriverGetInfo g = Ok info ∧ ValidateAndSetDriverConnectionInfo info = Ok d.
Proof.
  unfold connectRpcAndGetDriverInfo. rewrite <-HasPrefix_spec, <-HasSuffix_spec.
  pose proof (connectRpc_None g endpoint) as Hc.
  destruct (HasPrefix _ _); [|by split; [|intros [? _]]].
  destruct (HasSuffix _ _); [|by split; [|intros (_ & ? & _)]].
  cbn [negb]. destruct (connectRpc g endpoint) as [calls [e|]] eqn:E; cbn [snd] in *.
  { split; [done|]. intros (_ & _ & ? & ? & ? & _).
    by assert (Some e = None) by by apply Hc. }
  destruct (proj1 Hc eq_refl) as (-> & -> & Hr).
  destruct (DriverGetInfo g) as [info|e].
  - destruct (ValidateAndSetDriverConnectionInfo info) eqn:Ev; split.
    + intros [= <-]. split_and!; eauto.
    + intros (_ & _ & _ & _ & _ & info' & [= <-] & <-). by rewrite Ev.
    + done.
    + intros (_ & _ & _ & _ & _ & info' & [= <-] & H). congruence.
  - split; [done|]. by intros (_ & _ & _ & _ & _ & info' & [=] & _).
Qed.

Lemma connect_calls g endpoint c :
  c ∈ (connectRpcAndGetDriverInfo g endpoint).1 →
  (∃ path, endpoint = "unix://" +:+ path) ∧ (∃ path, endpoint = path +:+ ".sock") ∧
  (∀ target, c = CallNewClient target → target = endpoint) ∧
  (c = CallDriverGetInfo → NewClient g endpoint = None ∧ GetState g = Idle ∧ Ready ∈ StateChanges g).
Proof.
  unfold connectRpcAndGetDriverInfo. rewrite <-HasPrefix_spec, <-HasSuffix_spec.
  pose proof (connectRpc_None g endpoint) as Hc. pose proof (connectRpc_calls g endpoint c) as Hcalls.
  destruct (HasPrefix _ _); [|by intros ?%elem_of_nil].
  destruct (HasSuffix _ _); [|by intros ?%elem_of_nil]. cbn [negb].
  destruct (connectRpc g endpoint) as [calls [e|]]; cbn [fst snd] in *.
  - intros Hin. naive_solver.
  - rewrite elem_of_app, list_elem_of_singleton. intros [Hin| ->]; naive_solver.
Qed.

(** C27: Start of the Sidecar. The Sidecar starts with a driver exactly when its endpoint
    names a unix socket, the gRPC client can be created, starts out idle and becomes ready
    before the deadline, and the driver answers with info whose name is valid and whose
    protocol list is non-empty, free of duplicates and without the number 0, which stands for
    an unknown protocol; other numbers that the protocol does not define are accepted. It then
    runs with that name and those protocols in their order, and answers for exactly those. In
    every other case it ends with an error. For an endpoint that does not name a unix socket no
    client is created and no other call of the library is made; the only client is one for the
    endpoint, and the driver is asked for its info only over a client that became ready. *)
Theorem sidecar_connects_iff g endpoint :
  (∀ d, (connectRpcAndGetDriverInfo g endpoint).2 = Ok d ↔
    (∃ path, endpoint = "unix://" +:+ path) ∧ (∃ path, endpoint = path +:+ ".sock") ∧
    NewClient g endpoint = None ∧ GetState g = Idle ∧ (Ready ∈ StateChanges g) ∧
    ∃ info, DriverGetInfo g = Ok info ∧
      let ts := proto_Type <$> info_SupportedProtocols info in
      valid_driver_name (info_Name info) ∧
      ts ≠ [] ∧ (ObjectProtocol_UNKNOWN ∉ ts) ∧ NoDup ts ∧
      d = {| driver_Name := info_Name info; driver_SupportedProtocols := ts |} ∧
      ∀ p, SupportsProtocol d p = true ↔ p ∈ ts) ∧
  ∀ c, c ∈ (connectRpcAndGetDriverInfo g endpoint).1 →
    (∃ path, endpoint = "unix://" +:+ path) ∧ (∃ path, endpoint = path +:+ ".sock") ∧
    (∀ target, c = CallNewClient target → target = endpoint) ∧
    (c = CallDriverGetInfo → NewClient g endpoint = None ∧ GetState g = Idle ∧ Ready ∈ StateChanges g).
Proof.
  split; [|apply connect_calls]. intros d. rewrite connect_Ok. by setoid_rewrite driver_info_accepted_iff.
Qed.

(** A start against the demo driver, with the states a connection goes through. *)
Definition demo_grpc : Grpc := {|
  NewClient _ := None;
  GetState := Idle;
  StateChanges := [Connecting; TransientFailure; Connecting; Ready];
  DriverGetInfo := Ok {| info_Name := demo_driver_name;
    info_SupportedProtocols := [{| proto_Type := ObjectProtocol_S3 |}] |}
|}.

Example demo_start :
  (connectRpcAndGetDriverInfo demo_grpc "unix:///var/lib/cosi/cosi.sock").2 = Ok demo_driver_info ∧
  length (connectRpcAndGetDriverInfo demo_grpc "unix:///var/lib/cosi/cosi.sock").1 = 12.
Proof. by vm_compute. Qed.

Example demo_start_tcp :
  (connectRpcAndGetDriverInfo demo_grpc "tcp://localhost/cosi.sock").1 = [] ∧
  is_ok (connectRpcAndGetDriverInfo demo_grpc "tcp://localhost/cosi.sock").2 = false.
Proof. by vm_compute. Qed.
