(* ===== verification/ClaimController.v ===== *)
(** * The BucketClaim reconciler of the COSI Controller

    Models [src/controller/pkg/reconciler/bucketclaim.go]. The Go code mutates the claim
    it was handed; the model passes it on, so that a function that may change it returns
    it along with its error ([None] is a nil error). A [ctrl.Result] is always empty and
    is left out. Log entries are not modelled. *)

From stdpp Require Import base gmap strings list.
From S2P Require Import Prelude GoErrors ApiTypes ProtoTypes Effects ApiServer.

(** ** Naming and binding *)

Definition determineBucketName (claim : BucketClaim) : result error string :=
  let name :=
    if claimSpec_ExistingBucketName (claim_Spec claim) <>s ""
    then claimSpec_ExistingBucketName (claim_Spec claim)
    else "bc-" +:+ GetUID claim in
  if name =s ""
  then Err (Errorf "internal error: determined bucket name is empty")
  else
    let bound := claimStatus_BoundBucketName (claim_Status claim) in
    if (bound <>s "") && (bound <>s name)
    then Err (Errorf ("unrecoverable degradation: boundBucketName " +:+ quote bound +:+
                      " does not match determined name " +:+ quote name))
    else Ok name.

Definition bucketIsBoundToClaim (bucket : Bucket) (claim : BucketClaim) : result error bool :=
  let claimRef := bucketSpec_BucketClaimRef (bucket_Spec bucket) in
  let errs :=
    when_err (claimRef_Namespace claimRef <>s GetNamespace claim)
      (Errorf ("Bucket claim ref namespace " +:+ quote (claimRef_Namespace claimRef) +:+
               " does not match BucketClaim namespace " +:+ quote (GetNamespace claim))) ++
    when_err (claimRef_Name claimRef <>s GetName claim)
      (Errorf ("Bucket claim ref name " +:+ quote (claimRef_Name claimRef) +:+
               " does not match BucketClaim name " +:+ quote (GetName claim))) in
  if claimRef_UID claimRef =s "" then
    match report "unbound Bucket does not match BucketClaim" errs with
    | Some e => Err e
    | None => Ok false
    end
  else
    let errs := errs ++
      when_err (claimRef_UID claimRef <>s GetUID claim)
        (Errorf ("Bucket claim ref UID " +:+ quote (claimRef_UID claimRef) +:+
                 " does not match BucketClaim UID " +:+ quote (GetUID claim))) in
    match report "bound Bucket does not match BucketClaim" errs with
    | Some e => Err e
    | None => Ok true
    end.

Definition generateIntermediateBucket
    (claim : BucketClaim) (class : BucketClass) (bucketName : string) : Bucket := {|
  bucket_ObjectMeta := {|
    meta_Name := bucketName; meta_Namespace := ""; meta_UID := ""; meta_ResourceVersion := "";
    meta_Generation := 0; meta_DeletionTimestamp := None; meta_Annotations := ∅;
    meta_Finalizers := []; meta_OwnerReferences := [] |};
  bucket_Spec := {|
    bucketSpec_DriverName := classSpec_DriverName (class_Spec class);
    bucketSpec_DeletionPolicy := classSpec_DeletionPolicy (class_Spec class);
    bucketSpec_Parameters := classSpec_Parameters (class_Spec class);
    bucketSpec_Protocols := claimSpec_Protocols (claim_Spec claim);
    bucketSpec_BucketClaimRef := {|
      claimRef_Name := GetName claim;
      claimRef_Namespace := GetNamespace claim;
      claimRef_UID := GetUID claim |};
    bucketSpec_ExistingBucketID := "" |};
  bucket_Status := empty_BucketStatus |}.

Definition createIntermediateBucket (claim : BucketClaim) (bucketName : string) :
    prog (result error Bucket) :=
  let className := claimSpec_BucketClassName (claim_Spec claim) in
  if className =s ""
  then Ret (Err (NonRetryable (Errorf "BucketClaim cannot have empty bucketClassName")))
  else
    rclass ← api (perform (GetBucketClass (global className)));
    match rclass with
    | Err err => Ret (Err err)
    | Ok class =>
        let bucket := generateIntermediateBucket claim class bucketName in
        rbucket ← api (perform (CreateBucket bucket));
        match rbucket with
        | Err err => Ret (Err err)
        | Ok bucket => Ret (Ok bucket)
        end
    end.

Definition ensureStaticBucketBound (bucket : Bucket) (claimUID : string) :
    prog (result error Bucket) :=
  let claimRef := bucketSpec_BucketClaimRef (bucket_Spec bucket) in
  if claimRef_UID claimRef =s claimUID then Ret (Ok bucket)
  else if (claimRef_UID claimRef <>s "") && (claimRef_UID claimRef <>s claimUID)
  then Ret (Err (NonRetryable (Errorf
         ("Bucket claim ref UID " +:+ quote (claimRef_UID claimRef) +:+
          " does not match BucketClaim UID " +:+ quote claimUID))))
  else
    rupd ← api (perform (UpdateBucket (bucket_with_claimRef_UID claimUID bucket)));
    match rupd with
    | Err err => Ret (Err (Errorf_w "failed to set bucketClaimRef.UID on Bucket" err))
    | Ok bucket => Ret (Ok bucket)
    end.

(** ** Deletion *)

Definition removeClaimFinalizer (claim : BucketClaim) : prog (BucketClaim * option error) :=
  let claim := RemoveFinalizer claim ProtectionFinalizer in
  rupd ← api (perform (UpdateClaim claim));
  match rupd with
  | Err err => Ret (claim, Some (Errorf_w "failed to remove finalizer" err))
  | Ok claim => Ret (claim, None)
  end.

Definition applyBucketClaimIsDeletingAnnotation (bucket : Bucket) :
    prog (result error Bucket) :=
  let bucket := set_annotation BucketClaimBeingDeletedAnnotation "" bucket in
  rupd ← api (perform (UpdateBucket bucket));
  match rupd with
  | Err err =>
      Ret (Err (Errorf_w "failed to annotate Bucket to indicate BucketClaim is being deleted" err))
  | Ok bucket => Ret (Ok bucket)
  end.

Definition reconcileDelete (claim : BucketClaim) (bucketName : string)
    (isStaticProvisioning : bool) : prog (BucketClaim * option error) :=
  let claim := claim_with_Status
    (claimStatus_with_Error None
       (claimStatus_with_ReadyToUse (Some false) (claim_Status claim))) claim in
  rupd ← api (perform (StatusUpdateClaim claim));
  match rupd with
  | Err err =>
      Ret (claim, Some (Errorf_w "failed to update BucketClaim status before deletion" err))
  | Ok claim =>
      rbucket ← api (perform (GetBucket (global bucketName)));
      match rbucket with
      | Err err =>
          if IsNotFound err then removeClaimFinalizer claim
          else Ret (claim, Some err)
      | Ok bucket =>
          match bucketIsBoundToClaim bucket claim with
          | Err err =>
              if isStaticProvisioning then removeClaimFinalizer claim
              else Ret (claim, Some (NonRetryable (Errorf_w
                     "administrator must resolve unexpected error: dynamic Bucket does not reference this BucketClaim"
                     err)))
          | Ok isBound =>
              if negb isBound then removeClaimFinalizer claim
              else if bucketSpec_DeletionPolicy (bucket_Spec bucket) =s BucketDeletionPolicyRetain
              then
                rann ← applyBucketClaimIsDeletingAnnotation bucket;
                match rann with
                | Err err => Ret (claim, Some err)
                | Ok _ => removeClaimFinalizer claim
                end
              else if bucketSpec_DeletionPolicy (bucket_Spec bucket) =s BucketDeletionPolicyDelete
              then
                if IsDeleting bucket
                then Ret (claim, Some (Errorf "still waiting for Bucket to be deleted"))
                else
                  rann ← applyBucketClaimIsDeletingAnnotation bucket;
                  match rann with
                  | Err err => Ret (claim, Some err)
                  | Ok bucket =>
                      rdel ← api (perform (DeleteBucket bucket));
                      match rdel with
                      | Err err => Ret (claim, Some (Errorf_w "failed to delete Bucket" err))
                      | Ok _ => Ret (claim, Some (Errorf "waiting for Bucket to be deleted"))
                      end
                  end
              else Ret (claim, Some (NonRetryable (Errorf
                     ("unknown Bucket deletion policy " +:+
                      quote (bucketSpec_DeletionPolicy (bucket_Spec bucket))))))
          end
      end
  end.

(** ** Reconciliation *)

(** From the lookup of the Bucket: the Bucket that exists, or the one just created. *)
Definition getOrCreateBucket (claim : BucketClaim) (bucketName : string)
    (isStaticProvisioning : bool) : prog (result error Bucket) :=
  rbucket ← api (perform (GetBucket (global bucketName)));
  match rbucket with
  | Ok bucket => Ret (Ok bucket)
  | Err err =>
      if negb (IsNotFound err) then Ret (Err err)
      else if claimStatus_BoundBucketName (claim_Status claim) <>s ""
      then Ret (Err (NonRetryable (Errorf
             ("unrecoverable degradation: BucketClaim is bound to Bucket " +:+
              quote (claimStatus_BoundBucketName (claim_Status claim)) +:+
              " that no longer exists"))))
      else if isStaticProvisioning
      then Ret (Err (Errorf ("waiting for statically-provisioned Bucket " +:+
                             quote bucketName +:+ " to exist")))
      else createIntermediateBucket claim bucketName
  end.

(** The check that the Bucket is the claim's, and the binding of a static Bucket. The
    text of [fmt.Errorf("...: %w", err)] with a nil [err] ends in "%!w(<nil>)". *)
Definition bindBucket (claim : BucketClaim) (bucket : Bucket) (isStaticProvisioning : bool) :
    prog (result error Bucket) :=
  match bucketIsBoundToClaim bucket claim with
  | Err err => Ret (Err (NonRetryable err))
  | Ok isBound =>
      if negb isBound then
        if isStaticProvisioning
        then ensureStaticBucketBound bucket (GetUID claim)
        else Ret (Err (NonRetryable (Errorf "dynamic Bucket is malformed: %!w(<nil>)")))
      else Ret (Ok bucket)
  end.

(** [if claim.Status.BoundBucketName == "" { ... }]. *)
Definition bindClaim (claim : BucketClaim) (bucketName : string) :
    prog (BucketClaim * option error) :=
  if claimStatus_BoundBucketName (claim_Status claim) =s "" then
    let claim := claim_with_Status
      (claimStatus_with_BoundBucketName bucketName
         (claimStatus_with_ReadyToUse
            (default_not_ready (claimStatus_ReadyToUse (claim_Status claim)))
            (claim_Status claim))) claim in
    rupd ← api (perform (StatusUpdateClaim claim));
    match rupd with
    | Err err => Ret (claim, Some (Errorf_w "failed to bind BucketClaim to Bucket" err))
    | Ok claim => Ret (claim, None)
    end
  else Ret (claim, None).

(** The end of [reconcile]: the claim's status follows the Bucket's. *)
Definition copyBucketStatus (claim : BucketClaim) (bucket : Bucket) :
    prog (BucketClaim * option error) :=
  if bucketStatus_BucketID (bucket_Status bucket) =s ""
  then Ret (claim, Some (Errorf "waiting for Bucket to be provisioned"))
  else
    let readyToUse := ptr_Deref (bucketStatus_ReadyToUse (bucket_Status bucket)) false in
    if readyToUse && (length (bucketStatus_Protocols (bucket_Status bucket)) =? 0)
    then Ret (claim, Some (NonRetryable (Errorf "provisioned Bucket supports no protocols")))
    else
      let claim := claim_with_Status
        (claimStatus_with_Error None
           (claimStatus_with_Protocols (bucketStatus_Protocols (bucket_Status bucket))
              (claimStatus_with_ReadyToUse (bucketStatus_ReadyToUse (bucket_Status bucket))
                 (claim_Status claim)))) claim in
      rupd ← api (perform (StatusUpdateClaim claim));
      match rupd with
      | Err err => Ret (claim, Some err)
      | Ok claim => Ret (claim, None)
      end.

(** [AddFinalizer] and the update when it changed the claim. *)
Definition ensureClaimFinalizer (claim : BucketClaim) : prog (BucketClaim * option error) :=
  let '(claim, didAdd) := AddFinalizer claim ProtectionFinalizer in
  if didAdd then
    rupd ← api (perform (UpdateClaim claim));
    match rupd with
    | Err err => Ret (claim, Some (Errorf_w "failed to add protection finalizer" err))
    | Ok claim => Ret (claim, None)
    end
  else Ret (claim, None).

Definition reconcile (claim : BucketClaim) : prog (BucketClaim * option error) :=
  match determineBucketName claim with
  | Err err => Ret (claim, Some (NonRetryable err))
  | Ok bucketName =>
      let isStaticProvisioning := claimSpec_ExistingBucketName (claim_Spec claim) <>s "" in
      if IsDeleting claim then reconcileDelete claim bucketName isStaticProvisioning
      else
        '(claim, ferr) ← ensureClaimFinalizer claim;
        match ferr with
        | Some err => Ret (claim, Some err)
        | None =>
            rbucket ← getOrCreateBucket claim bucketName isStaticProvisioning;
            match rbucket with
            | Err err => Ret (claim, Some err)
            | Ok bucket =>
                rbound ← bindBucket claim bucket isStaticProvisioning;
                match rbound with
                | Err err => Ret (claim, Some err)
                | Ok bucket =>
                    '(claim, berr) ← bindClaim claim bucketName;
                    match berr with
                    | Some err => Ret (claim, Some err)
                    | None => copyBucketStatus claim bucket
                    end
                end
            end
        end
  end.

(** [status.Error = NewTimestampedError(now, err.Error())] and the default of
    [ReadyToUse], as the error path of [Reconcile] sets them. *)
Definition claim_with_recorded_error (now : Z) (err : error) (claim : BucketClaim) : BucketClaim :=
  claim_with_Status
    (claimStatus_with_Error (Some (NewTimestampedError now (Error err)))
       (claimStatus_with_ReadyToUse
          (default_not_ready (claimStatus_ReadyToUse (claim_Status claim)))
          (claim_Status claim))) claim.

Definition Reconcile (key : NamespacedName) : prog (option error) :=
  rclaim ← api (perform (GetClaim key));
  match rclaim with
  | Err err => if IsNotFound err then Ret None else Ret (Some err)
  | Ok claim =>
      '(claim, rerr) ← reconcile claim;
      match rerr with
      | Some err =>
          now ← time_Now;
          rupd ← api (perform (StatusUpdateClaim (claim_with_recorded_error now err claim)));
          match rupd with
          | Err _ => Ret (Some err)
          | Ok _ => if is_nonRetryable err then Ret (Some (terminalError err)) else Ret (Some err)
          end
      | None =>
          if match claimStatus_Error (claim_Status claim) with Some _ => true | None => false end
             && IsDeleting claim
          then
            let claim := claim_with_Status
              (claimStatus_with_Error None
                 (claimStatus_with_ReadyToUse
                    (default_not_ready (claimStatus_ReadyToUse (claim_Status claim)))
                    (claim_Status claim))) claim in
            rupd ← api (perform (StatusUpdateClaim claim));
            match rupd with
            | Err err => Ret (Some err)
            | Ok _ => Ret None
            end
          else Ret None
      end
  end.

(** ** Specifications of the pure parts *)

Definition is_static (c : BucketClaim) : Prop :=
  claimSpec_ExistingBucketName (claim_Spec c) ≠ "".

(** The name that identifies a claim's Bucket for the claim's whole life. *)
Definition bucket_name_of (c : BucketClaim) : string :=
  if claimSpec_ExistingBucketName (claim_Spec c) <>s ""
  then claimSpec_ExistingBucketName (claim_Spec c) else "bc-" +:+ GetUID c.

(** The Bucket's reference names the claim. *)
Definition refers_to (b : Bucket) (c : BucketClaim) : Prop :=
  claimRef_Namespace (bucketSpec_BucketClaimRef (bucket_Spec b)) = GetNamespace c ∧
  claimRef_Name (bucketSpec_BucketClaimRef (bucket_Spec b)) = GetName c.

Definition ref_UID (b : Bucket) : string :=
  claimRef_UID (bucketSpec_BucketClaimRef (bucket_Spec b)).

Definition bound_to (b : Bucket) (c : BucketClaim) : Prop :=
  refers_to b c ∧ ref_UID b ≠ "" ∧ ref_UID b = GetUID c.

Lemma determineBucketName_Ok c n :
  determineBucketName c = Ok n ↔
  n = bucket_name_of c ∧
  (claimStatus_BoundBucketName (claim_Status c) = "" ∨
   claimStatus_BoundBucketName (claim_Status c) = n).
Proof.
  unfold determineBucketName. fold (bucket_name_of c). cbn zeta.
  destruct (bucket_name_of c =s "") eqn:E.
  { exfalso. unfold bucket_name_of in E. case_match; reflect_bools; done. }
  destruct (_ && _) eqn:Eb.
  - apply andb_true_iff in Eb as [H1%neqs_true H2%neqs_true].
    split; [done|]. intros [-> [?|?]]; done.
  - split; [intros [= <-]; split; [done|]|by intros [-> _]].
    apply andb_false_iff in Eb as [H%neqs_false|H%neqs_false]; eauto.
Qed.

Lemma bucketIsBoundToClaim_true b c : bucketIsBoundToClaim b c = Ok true ↔ bound_to b c.
Proof.
  unfold bucketIsBoundToClaim, bound_to, refers_to, ref_UID, when_err.
  destruct (_ =s "") eqn:Eu; [|destruct (_ <>s GetUID c) eqn:Ei];
    destruct (_ <>s GetNamespace c) eqn:En; destruct (_ <>s GetName c) eqn:Em;
    cbn; reflect_bools; (split; [intros [=]|intros ((?&?)&?&?)]); done.
Qed.

Lemma bucketIsBoundToClaim_false b c :
  bucketIsBoundToClaim b c = Ok false ↔ refers_to b c ∧ ref_UID b = "".
Proof.
  unfold bucketIsBoundToClaim, refers_to, ref_UID, when_err.
  destruct (_ =s "") eqn:Eu; [|destruct (_ <>s GetUID c) eqn:Ei];
    destruct (_ <>s GetNamespace c) eqn:En; destruct (_ <>s GetName c) eqn:Em;
    cbn; reflect_bools; (split; [intros [=]|intros ((?&?)&?)]); done.
Qed.

(** ** What the reconciler may ask of the API server

    [h] is the history of calls and answers so far; [key] is the claim to reconcile. *)
Section contract.
Context (key : NamespacedName).

(** The claim as first read, and as the server last returned it. *)
Definition claim_read (h : list event) (c : BucketClaim) : Prop :=
  Ev (GetClaim key) (Ok c) ∈ h.
Definition claim_seen (h : list event) (c : BucketClaim) : Prop :=
  claim_read h c ∨ (∃ c', Ev (UpdateClaim c') (Ok c) ∈ h) ∨
  (∃ c', Ev (StatusUpdateClaim c') (Ok c) ∈ h).

Definition bucket_absent (h : list event) (name : string) : Prop :=
  ∃ e, Ev (GetBucket (global name)) (Err e) ∈ h ∧ client_IsNotFound e = true.
Definition bucket_read (h : list event) (name : string) (b : Bucket) : Prop :=
  Ev (GetBucket (global name)) (Ok b) ∈ h.

Definition annotated (b : Bucket) : Bucket :=
  set_annotation BucketClaimBeingDeletedAnnotation "" b.

(** A Bucket is created only for a live, dynamic claim that is not bound yet, after the
    API server answered that no Bucket of the claim's name exists, and from the class
    the claim names. *)
Definition create_allowed (h : list event) (b : Bucket) : Prop :=
  ∃ c0 c class,
    claim_read h c0 ∧ IsDeleting c0 = false ∧ ¬ is_static c0 ∧
    claim_seen h c ∧ claimStatus_BoundBucketName (claim_Status c) = "" ∧
    bucket_absent h (bucket_name_of c0) ∧
    Ev (GetBucketClass (global (claimSpec_BucketClassName (claim_Spec c)))) (Ok class) ∈ h ∧
    b = generateIntermediateBucket c class (bucket_name_of c0).

(** A Bucket is updated either to bind it, when it is the static Bucket that names this
    live claim and has never been bound, or to mark it, when it is bound to this claim
    and the claim is being deleted. *)
Definition bind_allowed (h : list event) (b : Bucket) : Prop :=
  ∃ c0 c b0,
    claim_read h c0 ∧ IsDeleting c0 = false ∧ is_static c0 ∧ claim_seen h c ∧
    bucket_read h (bucket_name_of c0) b0 ∧ refers_to b0 c ∧ ref_UID b0 = "" ∧
    b = bucket_with_claimRef_UID (GetUID c) b0.
Definition mark_allowed (h : list event) (b : Bucket) : Prop :=
  ∃ c0 c b0,
    claim_read h c0 ∧ IsDeleting c0 = true ∧ claim_seen h c ∧
    bucket_read h (bucket_name_of c0) b0 ∧ bound_to b0 c ∧ b = annotated b0.

(** A Bucket is deleted only for a claim under deletion it is bound to, when its policy
    is Delete, and after it was marked. *)
Definition delete_allowed (h : list event) (b : Bucket) : Prop :=
  ∃ c0 c b0,
    claim_read h c0 ∧ IsDeleting c0 = true ∧ claim_seen h c ∧
    bucket_read h (bucket_name_of c0) b0 ∧ bound_to b0 c ∧
    bucketSpec_DeletionPolicy (bucket_Spec b0) = BucketDeletionPolicyDelete ∧
    IsDeleting b0 = false ∧ Ev (UpdateBucket (annotated b0)) (Ok b) ∈ h.

(** When the claim's protection may be given up: its Bucket is gone, was never bound
    to it, or is to be retained and is marked. *)
Definition release_reason (h : list event) (c0 c : BucketClaim) : Prop :=
  bucket_absent h (bucket_name_of c0) ∨
  ∃ b, bucket_read h (bucket_name_of c0) b ∧
    ((is_static c0 ∧ ¬ bound_to b c) ∨
     (refers_to b c ∧ ref_UID b = "") ∨
     (bound_to b c ∧
      bucketSpec_DeletionPolicy (bucket_Spec b) = BucketDeletionPolicyRetain ∧
      ∃ b', Ev (UpdateBucket (annotated b)) (Ok b') ∈ h)).

(** The claim itself is updated to add the finalizer while it is live, and to remove it
    under deletion for one of those reasons. *)
Definition protect_allowed (h : list event) (c : BucketClaim) : Prop :=
  ∃ c0, claim_read h c0 ∧ IsDeleting c0 = false ∧
    ContainsFinalizer c0 ProtectionFinalizer = false ∧
    c = (AddFinalizer c0 ProtectionFinalizer).1.
Definition release_allowed (h : list event) (c : BucketClaim) : Prop :=
  ∃ c0 c1, claim_read h c0 ∧ IsDeleting c0 = true ∧ claim_seen h c1 ∧
    c = RemoveFinalizer c1 ProtectionFinalizer ∧ release_reason h c0 c1.

(** What shows that the claim's Bucket is the claim's own: it was read or created bound
    to the claim, or it was the static Bucket that the reconciler has just bound. A
    stored claim always has a UID. *)
Definition binding_evidence (h : list event) (c0 c : BucketClaim) : Prop :=
  GetUID c ≠ "" →
  (∃ b, (bucket_read h (bucket_name_of c0) b ∨
         ∃ b', Ev (CreateBucket b') (Ok b) ∈ h ∧ key_of b' = ("", bucket_name_of c0)) ∧
        bound_to b c) ∨
  (∃ b0 b', bucket_read h (bucket_name_of c0) b0 ∧ refers_to b0 c ∧ ref_UID b0 = "" ∧
        Ev (UpdateBucket (bucket_with_claimRef_UID (GetUID c) b0)) (Ok b') ∈ h).

(** A status update is made on a version that the server returned, keeps the spec and the
    bound name of that version, or records the claim's own Bucket name for the first
    time, when that Bucket is the claim's. *)
Definition status_allowed (h : list event) (c : BucketClaim) : Prop :=
  ∃ c0 c1, claim_read h c0 ∧ claim_seen h c1 ∧ same_version c c1 ∧
    claim_Spec c = claim_Spec c1 ∧
    (claimStatus_BoundBucketName (claim_Status c) = claimStatus_BoundBucketName (claim_Status c1) ∨
     claimStatus_BoundBucketName (claim_Status c1) = "" ∧
     claimStatus_BoundBucketName (claim_Status c) = bucket_name_of c0 ∧
     binding_evidence h c0 c1).

Definition claim_contract (h : list event) (r : req) : Prop :=
  match r with
  | GetClaim k => k = key
  | GetBucket k | GetBucketClass k => nn_Namespace k = ""
  | CreateBucket b => create_allowed h b
  | UpdateBucket b => bind_allowed h b ∨ mark_allowed h b
  | DeleteBucket b => delete_allowed h b
  | UpdateClaim c => protect_allowed h c ∨ release_allowed h c
  | StatusUpdateClaim c => status_allowed h c
  | TimeNow => True
  | _ => False
  end.

(** ** What a successful reconcile has achieved *)

Definition bucket_seen (h : list event) (b : Bucket) : Prop :=
  (∃ n, bucket_read h n b) ∨ (∃ b', Ev (CreateBucket b') (Ok b) ∈ h) ∨
  (∃ b', Ev (UpdateBucket b') (Ok b) ∈ h).

(** A live claim shows the readiness and the protocols of its provisioned Bucket. *)
Definition provisioned (h : list event) (c : BucketClaim) : Prop :=
  ∃ b c', bucket_seen h b ∧ bucketStatus_BucketID (bucket_Status b) ≠ "" ∧
    (bucketStatus_ReadyToUse (bucket_Status b) = Some true →
     bucketStatus_Protocols (bucket_Status b) ≠ []) ∧
    claimStatus_ReadyToUse (claim_Status c') = bucketStatus_ReadyToUse (bucket_Status b) ∧
    claimStatus_Protocols (claim_Status c') = bucketStatus_Protocols (bucket_Status b) ∧
    claimStatus_Error (claim_Status c') = None ∧
    Ev (StatusUpdateClaim c') (Ok c) ∈ h.

(** A claim under deletion has lost its finalizer for one of the reasons. *)
Definition released (h : list event) (c0 c : BucketClaim) : Prop :=
  ∃ c1, Ev (UpdateClaim (RemoveFinalizer c1 ProtectionFinalizer)) (Ok c) ∈ h ∧
    release_reason h c0 c1.

Definition reconciled (c0 : BucketClaim) (h : list event) (r : BucketClaim * option error) : Prop :=
  status_allowed h r.1 ∧
  (r.2 = None → if IsDeleting c0 then released h c0 r.1 else provisioned h r.1).

(** ** Proofs *)

Lemma claim_seen_app h h' c : claim_seen h c → claim_seen (h ++ h') c.
Proof. unfold claim_seen, claim_read. intros [?|[[? ?]|[? ?]]]; eauto 8 with cosi. Qed.

Lemma claim_read_app h h' c : claim_read h c → claim_read (h ++ h') c.
Proof. unfold claim_read. eauto with cosi. Qed.

Lemma binding_evidence_app h h' c0 c :
  binding_evidence h c0 c → binding_evidence (h ++ h') c0 c.
Proof.
  unfold binding_evidence, bucket_read. intros H Hu.
  destruct (H Hu) as [(b & [?|(b' & ? & ?)] & ?)|(b0 & b' & ? & ? & ? & ?)].
  - left. exists b. split; [left; hist|done].
  - left. exists b. split; [right; exists b'; split; [hist|done]|done].
  - right. exists b0, b'. split_and!; try done; hist.
Qed.

Lemma status_allowed_app h h' c : status_allowed h c → status_allowed (h ++ h') c.
Proof.
  intros (c0 & c1 & H0 & H1 & Hv & Hs & Hb). exists c0, c1.
  split; [by apply claim_read_app|]. split; [by apply claim_seen_app|].
  split; [done|]. split; [done|].
  destruct Hb as [Hb|(? & ? & ?)]; [by left|right]. eauto using binding_evidence_app.
Qed.

(** A change of the other status fields keeps a status allowed. *)
Lemma status_allowed_same h c c' :
  same_version c' c →
  claim_Spec c' = claim_Spec c →
  claimStatus_BoundBucketName (claim_Status c') = claimStatus_BoundBucketName (claim_Status c) →
  status_allowed h c → status_allowed h c'.
Proof.
  intros Hv Hs Hb (c0 & c1 & H0 & H1 & Hv1 & Hs1 & Hb1). exists c0, c1.
  rewrite Hs, Hb. split_and!; eauto using same_version_trans.
Qed.

Lemma release_reason_app h h' c0 c : release_reason h c0 c → release_reason (h ++ h') c0 c.
Proof.
  unfold release_reason, bucket_absent, bucket_read.
  intros [(e & ? & ?)|(b & ? & [?|[?|(? & ? & b' & ?)]])].
  - left. exists e. split; [hist|done].
  - right. exists b. split; [hist|]. by left.
  - right. exists b. split; [hist|]. right; by left.
  - right. exists b. split; [hist|]. right; right. split_and!; try done. exists b'. hist.
Qed.

Lemma bucket_seen_app h h' b : bucket_seen h b → bucket_seen (h ++ h') b.
Proof.
  unfold bucket_seen, bucket_read. intros [[n ?]|[[b' ?]|[b' ?]]].
  - left. exists n. hist.
  - right; left. exists b'. hist.
  - right; right. exists b'. hist.
Qed.

Lemma status_allowed_seen h c0 c : claim_read h c0 → claim_seen h c → status_allowed h c.
Proof. intros. exists c0, c. eauto 8 using same_version_refl. Qed.

Ltac seen := first
  [ eassumption | apply claim_seen_app; seen | apply claim_read_app; seen
  | left; hist | right; left; eexists; hist | right; right; eexists; hist ].

Ltac binding_facts := repeat match goal with
  | H : bucketIsBoundToClaim _ _ = Ok true |- _ => apply bucketIsBoundToClaim_true in H
  | H : bucketIsBoundToClaim _ _ = Ok false |- _ => apply bucketIsBoundToClaim_false in H
  | H : IsNotFound (of_client_error ?e) = ?b |- _ => change (client_IsNotFound e = b) in H
  end.

Lemma claim_reconciled_err h c0 c e : status_allowed h c → reconciled c0 h (c, Some e).
Proof. by split. Qed.

Lemma wp_removeClaimFinalizer h c0 c :
  claim_read h c0 → IsDeleting c0 = true → claim_seen h c → release_reason h c0 c →
  wp claim_contract (removeClaimFinalizer c) h (reconciled c0).
Proof.
  intros Hr Hd Hs Hrel. unfold removeClaimFinalizer. wp_run.
  - right. exists c0, c. done.
  - split; [eapply status_allowed_seen; seen|]. intros _. cbn. rewrite Hd.
    exists c. split; [hist|]. by apply release_reason_app.
  - apply claim_reconciled_err, status_allowed_app, (status_allowed_same _ c); [done..|].
    eapply status_allowed_seen; seen.
Qed.

Lemma wp_claim_reconcileDelete h c0 :
  claim_read h c0 → IsDeleting c0 = true →
  wp claim_contract
    (reconcileDelete c0 (bucket_name_of c0) (claimSpec_ExistingBucketName (claim_Spec c0) <>s ""))
    h (reconciled c0).
Proof.
  intros Hr Hd.
  unfold reconcileDelete, applyBucketClaimIsDeletingAnnotation. wp_run; cbn [claim_contract].
  all: reflect_bools; subst; binding_facts; try done.
  all: try (apply claim_reconciled_err; eapply status_allowed_seen; seen).
  all: try (eapply wp_removeClaimFinalizer; [seen|done|seen|]).
  - apply (status_allowed_same _ c0); [done..|]. eapply status_allowed_seen; [seen|by left].
  - right. exists a0. split; [hist|]. right; by left.
  - right. exists c0, a, a0. split_and!; (done || seen || hist).
  - right. exists a0. split; [hist|]. right; right. split_and!; [done..|]. eexists; hist.
  - right. exists c0, a, a0. split_and!; (done || seen || hist).
  - exists c0, a, a0. split_and!; (done || seen || hist).
  - right. exists a0. split; [hist|]. left. split; [done|].
    intros Hb%bucketIsBoundToClaim_true. congruence.
  - left. eexists. split; [hist|done].
  - apply claim_reconciled_err, status_allowed_app, (status_allowed_same _ c0); [done..|].
    eapply status_allowed_seen; [seen|by left].
Qed.

Abbreviation static c := (claimSpec_ExistingBucketName (claim_Spec c) <>s "").

Lemma is_static_true c : static c = true ↔ is_static c.
Proof. apply neqs_true. Qed.
Lemma is_static_false c : static c = false ↔ ¬ is_static c.
Proof. unfold is_static. rewrite neqs_false. destruct (decide (claimSpec_ExistingBucketName (claim_Spec c) = "")); tauto. Qed.

Lemma wp_ensureClaimFinalizer h c0 :
  claim_read h c0 → IsDeleting c0 = false →
  wp claim_contract (ensureClaimFinalizer c0) h
    (λ h' r, status_allowed h' r.1 ∧ (r.2 = None → claim_seen h' r.1)).
Proof.
  intros Hr Hd. unfold ensureClaimFinalizer, AddFinalizer.
  destruct (slices_Contains (GetFinalizers c0) ProtectionFinalizer) eqn:Ef; wp_run.
  - split; [eapply status_allowed_seen; [seen|by left]|]. intros _. by left.
  - left. exists c0. unfold AddFinalizer, ContainsFinalizer. by rewrite Ef.
  - split; [eapply status_allowed_seen; seen|]. intros _. seen.
  - split; [|done]. apply status_allowed_app, (status_allowed_same _ c0); [done..|].
    eapply status_allowed_seen; [seen|by left].
Qed.

(** Where the Bucket that reconciliation continues with comes from. *)
Definition bucket_found (h : list event) (c0 : BucketClaim) (b : Bucket) : Prop :=
  bucket_read h (bucket_name_of c0) b ∨
  (¬ is_static c0 ∧ ∃ b', Ev (CreateBucket b') (Ok b) ∈ h ∧ key_of b' = ("", bucket_name_of c0)).

Lemma wp_getOrCreateBucket h c0 c :
  claim_read h c0 → IsDeleting c0 = false → claim_seen h c →
  wp claim_contract (getOrCreateBucket c (bucket_name_of c0) (static c0)) h
    (λ h' r, ∀ b, r = Ok b → bucket_found h' c0 b).
Proof.
  intros Hr Hd Hs. unfold getOrCreateBucket, createIntermediateBucket. wp_run.
  all: try (intros b [=]; subst).
  all: binding_facts; try done.
  all: rewrite ?negb_false_iff in *; reflect_bools; binding_facts.
  - left. hist.
  - exists c0, c, a. split_and!; try (done || seen || hist).
    + by intros ?.
    + eexists. split; [hist|done].
  - right. split; [by intros ?|]. eexists. split; [hist|done].
Qed.

Lemma wp_bindBucket h c0 c b :
  claim_read h c0 → IsDeleting c0 = false → claim_seen h c → bucket_found h c0 b →
  wp claim_contract (bindBucket c b (static c0)) h
    (λ h' r, ∀ b', r = Ok b' → bucket_seen h' b' ∧ binding_evidence h' c0 c).
Proof.
  intros Hr Hd Hs Hb.
  assert (bucket_seen h b) as Hseen.
  { destruct Hb as [?|(_ & b' & ? & _)]; [left|right; left]; eauto. }
  unfold bindBucket, ensureStaticBucketBound. wp_run; reflect_bools; subst; binding_facts.
  all: try (intros b' [=]; subst); try done.
  - split; [done|]. intros Hu. destruct E as [_ E]. unfold ref_UID in E. congruence.
  - left. destruct E as [Href Hu]. destruct Hb as [Hb|[Hst _]]; [|done].
    exists c0, c, b. split_and!; try (done || seen).
  - destruct E as [Href Hu]. destruct Hb as [Hb|[Hst _]]; [|done]. split.
    + right; right. eexists. hist.
    + intros _. right. exists b, b'. split_and!; try done; hist.
  - split; [done|]. intros _. left. exists b'. split; [|done].
    destruct Hb as [?|[_ ?]]; eauto.
Qed.

Lemma wp_bindClaim h c0 c :
  claim_read h c0 → claim_seen h c → binding_evidence h c0 c →
  wp claim_contract (bindClaim c (bucket_name_of c0)) h
    (λ h' r, status_allowed h' r.1 ∧ (r.2 = None → claim_seen h' r.1)).
Proof.
  intros Hr Hs Hb. unfold bindClaim.
  set (c1 := claim_with_Status _ c).
  assert (claimStatus_BoundBucketName (claim_Status c) = "" → status_allowed h c1) as Hst.
  { intros He. exists c0, c. split_and!; try done. right. done. }
  wp_run; reflect_bools.
  - by apply Hst.
  - split; [eapply status_allowed_seen; seen|]. intros _. seen.
  - split; [|done]. apply status_allowed_app. auto.
  - split; [by eapply status_allowed_seen|done].
Qed.

Lemma wp_copyBucketStatus h c0 c b :
  claim_read h c0 → IsDeleting c0 = false → claim_seen h c → bucket_seen h b →
  status_allowed h c →
  wp claim_contract (copyBucketStatus c b) h (reconciled c0).
Proof.
  intros Hr Hd Hs Hb Hst. unfold copyBucketStatus.
  set (c1 := claim_with_Status _ c).
  assert (status_allowed h c1) as Hst1 by (apply (status_allowed_same _ c); done).
  wp_run; reflect_bools; try done.
  - split; [eapply status_allowed_seen; seen|]. intros _. rewrite Hd.
    exists b, c1. split_and!; try done; [by apply bucket_seen_app| |hist].
    intros Hready. rewrite Hready in E0. cbn in E0.
    by intros Hn%is_nil_length%not_false_iff_true.
  - apply claim_reconciled_err. by apply status_allowed_app.
Qed.

Lemma wp_claim_reconcile h c0 :
  claim_read h c0 → wp claim_contract (reconcile c0) h (reconciled c0).
Proof.
  intros Hr. unfold reconcile.
  destruct (determineBucketName c0) as [bn|err] eqn:En.
  2: { apply claim_reconciled_err. eapply status_allowed_seen; [seen|by left]. }
  apply determineBucketName_Ok in En as [-> _].
  destruct (IsDeleting c0) eqn:Hd; [by apply wp_claim_reconcileDelete|].
  eapply wp_seq; [by apply wp_ensureClaimFinalizer|].
  intros t1 [c [err|]] [Hst Hs]; cbn in Hst, Hs; [by apply claim_reconciled_err|].
  specialize (Hs eq_refl). eapply wp_seq; [apply wp_getOrCreateBucket; [seen|done|seen]|].
  intros t2 [b|err] Hb; [|apply claim_reconciled_err; by apply status_allowed_app].
  eapply wp_seq; [eapply wp_bindBucket; [seen|done|seen|by apply Hb]|].
  intros t3 [b'|err] Hb'; [|apply claim_reconciled_err; by do 2 apply status_allowed_app].
  destruct (Hb' b' eq_refl) as [Hseen Hev].
  eapply wp_seq; [apply wp_bindClaim; [seen|seen|done]|].
  intros t4 [c' [err|]] [Hst' Hs']; cbn in Hst', Hs'; [by apply claim_reconciled_err|].
  specialize (Hs' eq_refl).
  apply wp_copyBucketStatus; [seen|done|done|by apply bucket_seen_app|done].
Qed.

(** ** The outcome of [Reconcile] *)

Definition achieved (h : list event) (c0 : BucketClaim) : Prop :=
  ∃ c, if IsDeleting c0 then released h c0 c else provisioned h c.

(** The error was recorded by the last call; it is terminal when it is non-retryable
    and the record was stored. *)
Definition error_recorded (h : list event) (res : error) : Prop :=
  ∃ h' now c e x,
    h = h' ++ [Ev TimeNow now; Ev (StatusUpdateClaim (claim_with_recorded_error now e c)) x] ∧
    res = match x with
          | Ok _ => if is_nonRetryable e then terminalError e else e
          | Err _ => e
          end.

Definition claim_outcome (h : list event) (res : option error) : Prop :=
  (∃ e, h = [Ev (GetClaim key) (Err e)] ∧
        res = if client_IsNotFound e then None else Some (of_client_error e)) ∨
  (∃ c0, claim_read h c0 ∧
     match res with
     | None => achieved h c0
     | Some err =>
         error_recorded h err ∨
         (∃ h' c e, h = h' ++ [Ev (StatusUpdateClaim c) (Err e)] ∧
            claimStatus_Error (claim_Status c) = None ∧ err = of_client_error e ∧
            achieved h c0)
     end).

Lemma achieved_app h h' c0 : achieved h c0 → achieved (h ++ h') c0.
Proof.
  intros [c Hc]. exists c. destruct (IsDeleting c0).
  - destruct Hc as (c1 & ? & ?). exists c1. split; [hist|by apply release_reason_app].
  - destruct Hc as (b & c' & Hb & H1 & H2 & H3 & H4 & H5 & H6).
    exists b, c'. split_and!; try done; [by apply bucket_seen_app|hist].
Qed.

Lemma wp_claim_Reconcile : wp claim_contract (Reconcile key) [] claim_outcome.
Proof.
  unfold Reconcile. wp_simpl. split; [done|]. intros [c0|e].
  2: { wp_simpl. destruct (IsNotFound (of_client_error e)) eqn:En; left; exists e;
       (split; [done|]); unfold client_IsNotFound; by rewrite En. }
  assert (claim_read [Ev (GetClaim key) (Ok c0)] c0) as Hr by (unfold claim_read; set_solver).
  change ([] ++ [Ev (GetClaim key) (Ok c0)]) with [Ev (GetClaim key) (Ok c0)].
  eapply wp_seq; [by apply wp_claim_reconcile|].
  intros t [c [err|]] [Hst Ha]; cbn [fst snd] in Hst, Ha.
  - wp_run; cbn [claim_contract]; try done.
    + apply (status_allowed_same _ c); [done..|]. by apply status_allowed_app.
    + right. exists c0. split; [seen|]. left.
      eexists _, _, c, err, _. split; [by rewrite <-app_assoc|]. cbn. by rewrite E.
    + right. exists c0. split; [seen|]. left.
      eexists _, _, c, err, _. split; [by rewrite <-app_assoc|]. cbn. by rewrite E.
    + right. exists c0. split; [seen|]. left.
      eexists _, _, c, err, _. split; [by rewrite <-app_assoc|done].
  - assert (achieved ([Ev (GetClaim key) (Ok c0)] ++ t) c0) as Hach.
    { exists c. by apply Ha. }
    wp_run; cbn [claim_contract].
    + by apply (status_allowed_same _ c).
    + right. exists c0. split; [seen|]. by apply achieved_app.
    + right. exists c0. split; [seen|]. right. eexists _, _, _. split; [done|].
      split; [done|]. split; [done|]. by apply achieved_app.
    + right. exists c0. split; [seen|done].
Qed.
End contract.

(** ** Properties *)

(** C11: A Bucket is never re-created. Whatever the API server answers, the reconciler
    creates a Bucket only for a live claim of dynamic provisioning that is not bound yet,
    after the server answered that no Bucket of the claim's name exists; the Bucket it
    creates is the one derived from the claim and the class it names. A claim that was
    bound to a Bucket that is gone never gets a new one. *)
Theorem claim_creates_only_when_unbound key tr res n b :
  exec (Reconcile key) tr res →
  nth_call tr n = Some (CreateBucket b) →
  create_allowed key (take n tr) b.
Proof. intros Hx Hn. exact (wp_nth_call _ _ _ _ _ _ _ (wp_claim_Reconcile key) Hx Hn). Qed.

Lemma claim_creates_only_when_unbound_witness :
  let tr := run_trace (Reconcile demo_claim_key) (demo_world [demo_claim] [] [] []) in
  create_allowed demo_claim_key (take 4 tr) (bucket_of (nth_call tr 4)).
Proof.
  cbn zeta. eapply claim_creates_only_when_unbound; [apply run_exec|].
  vm_compute. reflexivity.
Defined.

(** C12: A Bucket is changed only for its claim. Every Bucket update of the reconciler either
    sets the claim UID of a static Bucket that names this live claim and has no UID yet,
    or adds the deletion mark to a Bucket that is bound to this claim, which is being
    deleted; all other fields are as they were read, and a Bucket that is bound to another
    claim is never written. A Bucket is deleted only when its claim is being deleted, the
    Bucket as read is bound to that claim, its policy is Delete, it is not being deleted
    already, and the mark that its claim is being deleted was stored. *)
Theorem bucket_changed_only_for_its_claim key tr res n b :
  exec (Reconcile key) tr res →
  (nth_call tr n = Some (UpdateBucket b) →
     bind_allowed key (take n tr) b ∨ mark_allowed key (take n tr) b) ∧
  (nth_call tr n = Some (DeleteBucket b) → delete_allowed key (take n tr) b).
Proof.
  intros Hx. split; intros Hn; exact (wp_nth_call _ _ _ _ _ _ _ (wp_claim_Reconcile key) Hx Hn).
Qed.

Lemma bucket_changed_only_for_its_claim_witness :
  let tr := run_trace (Reconcile demo_claim_key)
              (demo_world [demo_static_claim] [demo_static_bucket] [] []) in
  let b := bucket_of (nth_call tr 3) in
  let tr' := run_trace (Reconcile demo_claim_key)
               (demo_world [deleting demo_bound_claim] [demo_ready_bucket] [] []) in
  (bind_allowed demo_claim_key (take 3 tr) b ∨ mark_allowed demo_claim_key (take 3 tr) b) ∧
  delete_allowed demo_claim_key (take 4 tr') (bucket_of (nth_call tr' 4)).
Proof.
  cbn zeta. split.
  - eapply (proj1 (bucket_changed_only_for_its_claim _ _ _ _ _ (run_exec _ _))). vm_compute. reflexivity.
  - eapply (proj2 (bucket_changed_only_for_its_claim _ _ _ _ _ (run_exec _ _))). vm_compute. reflexivity.
Defined.

(** The protection finalizer of a claim. The reconciler updates a claim only to add
    the finalizer while the claim is live, or to remove it under deletion for a reason:
    its Bucket does not exist, is not its own, was never bound, or is to be retained and
    has been marked. In particular a claim whose Bucket has the policy Delete keeps its
    finalizer until that Bucket is gone. *)
Theorem claim_finalizer_discipline key tr res n c :
  exec (Reconcile key) tr res →
  nth_call tr n = Some (UpdateClaim c) →
  protect_allowed key (take n tr) c ∨ release_allowed key (take n tr) c.
Proof. intros Hx Hn. exact (wp_nth_call _ _ _ _ _ _ _ (wp_claim_Reconcile key) Hx Hn). Qed.

Lemma claim_finalizer_discipline_witness :
  let tr := run_trace (Reconcile demo_claim_key)
              (demo_world [deleting demo_bound_claim] [] [] []) in
  let c := claim_of (nth_call tr 3) in
  protect_allowed demo_claim_key (take 3 tr) c ∨ release_allowed demo_claim_key (take 3 tr) c.
Proof.
  cbn zeta. eapply claim_finalizer_discipline; [apply run_exec|].
  vm_compute. reflexivity.
Defined.

(** The bound name. A status update never changes the claim's spec or a bound name
    the server already knows; it records a bound name for the first time only as the
    claim's own Bucket name, and only after that Bucket was read or created as bound to
    the claim, or was bound by this reconcile. *)
Theorem bound_name_recorded_once key tr res n c :
  exec (Reconcile key) tr res →
  nth_call tr n = Some (StatusUpdateClaim c) →
  status_allowed key (take n tr) c.
Proof. intros Hx Hn. exact (wp_nth_call _ _ _ _ _ _ _ (wp_claim_Reconcile key) Hx Hn). Qed.

Lemma bound_name_recorded_once_witness :
  let tr := run_trace (Reconcile demo_claim_key) (demo_world [demo_claim] [] [] []) in
  status_allowed demo_claim_key (take 5 tr) (claim_of (nth_call tr 5)).
Proof.
  cbn zeta. eapply bound_name_recorded_once; [apply run_exec|].
  vm_compute. reflexivity.
Defined.

(** C22: Outcome of a claim reconcile. It ends without an error only when the claim does
    not exist, when a live claim's stored status shows the readiness and protocols of its
    provisioned Bucket, or when a claim under deletion was released. Any error of the
    reconciliation is recorded in the status by the last call, and is returned as a
    terminal error, which is not retried, exactly when it is marked non-retryable and the
    record was stored. *)
Theorem claim_reconcile_outcome key tr res :
  exec (Reconcile key) tr res → claim_outcome key tr res.
Proof. intros Hx. exact (proj1 (wp_exec _ _ _ _ _ (wp_claim_Reconcile key) Hx)). Qed.

Lemma claim_reconcile_outcome_witness :
  claim_outcome demo_claim_key
    (run_trace (Reconcile demo_claim_key) (demo_world [demo_bound_claim] [demo_ready_bucket] [] []))
    None.
Proof.
  apply claim_reconcile_outcome.
  exact (run_exec (Reconcile demo_claim_key) (demo_world [demo_bound_claim] [demo_ready_bucket] [] [])).
Defined.
