(* ===== verification/Admission.v ===== *)
(** * The validation rules of the API types

    The markers [+kubebuilder:validation] of [src/client/apis/objectstorage/v1alpha2] become
    the schemas and CEL rules that the API server checks before it stores an object. This
    file has them as executable functions: [..._valid] for one object, and
    [..._transition oldSelf self] for an update. [has(self.f)] is [present f]: the fields
    have omitempty, so an empty one is absent; a rule on an absent field does not apply,
    and neither does [self == oldSelf] when the field was absent before. *)

From stdpp Require Import base gmap strings list.
From Stdlib Require Import Ascii.
From S2P Require Import Prelude GoErrors ApiTypes ProtoTypes Effects ApiServer Driver.
From S2P Require Import ClaimController.

(** ** Formats *)

Definition chars (s : string) : list ascii := String.list_ascii_of_string s.
Definition string_forall (f : ascii → bool) (s : string) : bool := forallb f (chars s).

Definition is_upper (c : ascii) : bool := let n := nat_of_ascii c in (65 <=? n) && (n <=? 90).
Definition is_hex (c : ascii) : bool :=
  is_digit c || (let n := nat_of_ascii c in (97 <=? n) && (n <=? 102)).
Definition is_alphanumeric (c : ascii) : bool := is_lower c || is_upper c || is_digit c.
Definition one_of (cs : string) (c : ascii) : bool := existsb (Ascii.eqb c) (chars cs).

Definition length_within (lo hi : nat) (s : string) : bool :=
  (lo <=? String.length s) && (String.length s <=? hi).

(** The first and the last character of a string satisfy [f]. *)
Definition starts_with (f : ascii → bool) (s : string) : bool :=
  match chars s with [] => false | c :: _ => f c end.
Definition ends_with (f : ascii → bool) (s : string) : bool :=
  match last (chars s) with None => false | Some c => f c end.

(** The pattern [^[a-zA-Z0-9]([a-zA-Z0-9\-\.]{0,61}[a-zA-Z0-9])?$] of driver names, with
    the length of 1 to 63. *)
Definition driver_name_valid (s : string) : bool :=
  length_within 1 63 s && starts_with is_alphanumeric s && ends_with is_alphanumeric s &&
  string_forall (λ c, is_alphanumeric c || one_of "-." c) s.

(** The pattern [^[a-zA-Z0-9/._-]+$] of backend identifiers. *)
Definition backend_id_valid (s : string) : bool :=
  length_within 1 2048 s && string_forall (λ c, is_alphanumeric c || one_of "/._-" c) s.

(** [format.dns1123Label()] and [format.dns1123Subdomain()]. *)
Definition dns1123_label (s : string) : bool :=
  length_within 1 63 s && starts_with is_alnum s && ends_with is_alnum s &&
  string_forall (λ c, is_alnum c || one_of "-" c) s.
Definition dns1123_subdomain_label (s : string) : bool :=
  starts_with is_alnum s && ends_with is_alnum s && string_forall (λ c, is_alnum c || one_of "-" c) s.
Definition dns1123_subdomain (s : string) : bool :=
  length_within 1 253 s && forallb dns1123_subdomain_label (strings_Split s).

(** The pattern [^[0-9a-f]{8}-([0-9a-f]{4}\-){3}[0-9a-f]{12}$] of UIDs. *)
Fixpoint matches_groups (groups : list nat) (l : list ascii) : bool :=
  match groups with
  | [] => match l with [] => true | _ => false end
  | [n] => (length l =? n) && forallb is_hex l
  | n :: groups' =>
      (n <=? length l) && forallb is_hex (take n l) &&
      match drop n l with c :: l' => Ascii.eqb c "-"%char && matches_groups groups' l' | [] => false end
  end.
Definition uid_valid (s : string) : bool :=
  (String.length s =? 36) && matches_groups [8; 4; 4; 4; 12] (chars s).

(** ** Presence and immutability *)

Definition present (s : string) : bool := s <>s "".
Definition present_map {A} (m : gmap string A) : bool := negb (bool_decide (m = ∅)).
Definition present_list {A} (l : list A) : bool := negb (length l =? 0).

(** A rule on an optional field. *)
Definition if_present (s : string) (rule : string → bool) : bool := negb (present s) || rule s.
(** [self == oldSelf] applies when the field is present before and after. *)
Definition immutable (oldSelf self : string) : bool :=
  negb (present oldSelf) || negb (present self) || (self =s oldSelf).
(** [!has(oldSelf.f) || has(self.f)] and [has(oldSelf.f) == has(self.f)]. *)
Definition not_removed (had has : bool) : bool := negb had || has.
Definition not_added_or_removed (had has : bool) : bool := Bool.eqb had has.

(** Lists of type set: no duplicates, and equality without order. *)
Fixpoint no_duplicates (l : list string) : bool :=
  match l with [] => true | x :: l' => negb (slices_Contains l' x) && no_duplicates l' end.
Definition same_set (l1 l2 : list string) : bool :=
  forallb (slices_Contains l2) l1 && forallb (slices_Contains l1) l2.

Definition enum (values : list string) (s : string) : bool := slices_Contains values s.
Definition parameters_valid (m : gmap string string) : bool := size m <=? 512.
Definition protocol_valid : string → bool :=
  enum [ObjectProtocolS3; ObjectProtocolAzure; ObjectProtocolGcs].
Definition protocols_valid (l : list string) : bool :=
  forallb protocol_valid l && no_duplicates l && (length l <=? 3).

(** The message of an error has at most 1.5 MB. *)
Definition timestampedError_valid (e : TimestampedError) : bool :=
  match tserr_Message e with
  | None => true
  | Some m => (N.of_nat (String.length m) <=? 1572864)%N
  end.
Definition error_valid (e : option TimestampedError) : bool :=
  match e with None => true | Some e => timestampedError_valid e end.

(** ** Buckets *)

Definition claimRef_valid (r : BucketClaimReference) : bool :=
  dns1123_subdomain (claimRef_Name r) && dns1123_label (claimRef_Namespace r) &&
  if_present (claimRef_UID r) uid_valid.

Definition claimRef_transition (oldSelf self : BucketClaimReference) : bool :=
  not_removed (present (claimRef_Namespace oldSelf)) (present (claimRef_Namespace self)) &&
  not_removed (present (claimRef_UID oldSelf)) (present (claimRef_UID self)) &&
  immutable (claimRef_Name oldSelf) (claimRef_Name self) &&
  immutable (claimRef_Namespace oldSelf) (claimRef_Namespace self) &&
  immutable (claimRef_UID oldSelf) (claimRef_UID self).

Definition bucketSpec_valid (s : BucketSpec) : bool :=
  driver_name_valid (bucketSpec_DriverName s) &&
  enum [BucketDeletionPolicyRetain; BucketDeletionPolicyDelete] (bucketSpec_DeletionPolicy s) &&
  parameters_valid (bucketSpec_Parameters s) && protocols_valid (bucketSpec_Protocols s) &&
  claimRef_valid (bucketSpec_BucketClaimRef s) &&
  if_present (bucketSpec_ExistingBucketID s) backend_id_valid.

Definition bucketSpec_transition (oldSelf self : BucketSpec) : bool :=
  immutable (bucketSpec_DriverName oldSelf) (bucketSpec_DriverName self) &&
  not_added_or_removed (present_map (bucketSpec_Parameters oldSelf))
    (present_map (bucketSpec_Parameters self)) &&
  bool_decide (bucketSpec_Parameters oldSelf = bucketSpec_Parameters self) &&
  not_added_or_removed (present_list (bucketSpec_Protocols oldSelf))
    (present_list (bucketSpec_Protocols self)) &&
  same_set (bucketSpec_Protocols oldSelf) (bucketSpec_Protocols self) &&
  not_added_or_removed (present (bucketSpec_ExistingBucketID oldSelf))
    (present (bucketSpec_ExistingBucketID self)) &&
  immutable (bucketSpec_ExistingBucketID oldSelf) (bucketSpec_ExistingBucketID self) &&
  claimRef_transition (bucketSpec_BucketClaimRef oldSelf) (bucketSpec_BucketClaimRef self).

Definition bucketStatus_valid (s : BucketStatus) : bool :=
  bool_decide (is_Some (bucketStatus_ReadyToUse s)) &&
  if_present (bucketStatus_BucketID s) backend_id_valid &&
  protocols_valid (bucketStatus_Protocols s) && (size (bucketStatus_BucketInfo s) <=? 128) &&
  error_valid (bucketStatus_Error s).

Definition bucketStatus_transition (oldSelf self : BucketStatus) : bool :=
  not_removed (present (bucketStatus_BucketID oldSelf)) (present (bucketStatus_BucketID self)) &&
  not_removed (present_list (bucketStatus_Protocols oldSelf))
    (present_list (bucketStatus_Protocols self)) &&
  immutable (bucketStatus_BucketID oldSelf) (bucketStatus_BucketID self).

(** ** BucketClaims *)

(** [ExactlyOneOf=bucketClassName;existingBucketName]. *)
Definition claimSpec_valid (s : BucketClaimSpec) : bool :=
  xorb (present (claimSpec_BucketClassName s)) (present (claimSpec_ExistingBucketName s)) &&
  if_present (claimSpec_BucketClassName s) dns1123_subdomain &&
  protocols_valid (claimSpec_Protocols s) &&
  if_present (claimSpec_ExistingBucketName s) dns1123_subdomain.

Definition claimSpec_transition (oldSelf self : BucketClaimSpec) : bool :=
  not_added_or_removed (present (claimSpec_BucketClassName oldSelf))
    (present (claimSpec_BucketClassName self)) &&
  immutable (claimSpec_BucketClassName oldSelf) (claimSpec_BucketClassName self) &&
  not_added_or_removed (present_list (claimSpec_Protocols oldSelf))
    (present_list (claimSpec_Protocols self)) &&
  same_set (claimSpec_Protocols oldSelf) (claimSpec_Protocols self) &&
  not_added_or_removed (present (claimSpec_ExistingBucketName oldSelf))
    (present (claimSpec_ExistingBucketName self)) &&
  immutable (claimSpec_ExistingBucketName oldSelf) (claimSpec_ExistingBucketName self).

Definition claimStatus_valid (s : BucketClaimStatus) : bool :=
  if_present (claimStatus_BoundBucketName s) dns1123_subdomain &&
  bool_decide (is_Some (claimStatus_ReadyToUse s)) && protocols_valid (claimStatus_Protocols s) &&
  error_valid (claimStatus_Error s).

Definition claimStatus_transition (oldSelf self : BucketClaimStatus) : bool :=
  not_removed (present (claimStatus_BoundBucketName oldSelf))
    (present (claimStatus_BoundBucketName self)) &&
  immutable (claimStatus_BoundBucketName oldSelf) (claimStatus_BoundBucketName self) &&
  not_removed (present_list (claimStatus_Protocols oldSelf))
    (present_list (claimStatus_Protocols self)).

(** ** Classes *)

Definition classSpec_valid (s : BucketClassSpec) : bool :=
  driver_name_valid (classSpec_DriverName s) &&
  enum [BucketDeletionPolicyRetain; BucketDeletionPolicyDelete] (classSpec_DeletionPolicy s) &&
  parameters_valid (classSpec_Parameters s).

Definition accessClassSpec_valid (s : BucketAccessClassSpec) : bool :=
  driver_name_valid (accessClassSpec_DriverName s) &&
  enum [BucketAccessAuthenticationTypeKey; BucketAccessAuthenticationTypeServiceAccount]
    (accessClassSpec_AuthenticationType s) &&
  parameters_valid (accessClassSpec_Parameters s) &&
  forallb (enum [BucketAccessModeReadWrite; BucketAccessModeReadOnly; BucketAccessModeWriteOnly])
    (accessClassSpec_DisallowedBucketAccessModes s) &&
  no_duplicates (accessClassSpec_DisallowedBucketAccessModes s) &&
  (length (accessClassSpec_DisallowedBucketAccessModes s) <=? 3) &&
  if_present (accessClassSpec_MultiBucketAccess s)
    (enum [MultiBucketAccessSingleBucket; MultiBucketAccessMultipleBuckets]).

(** ** BucketAccesses *)

Definition claimAccess_valid (a : BucketClaimAccess) : bool :=
  dns1123_subdomain (claimAccess_BucketClaimName a) &&
  enum [BucketAccessModeReadWrite; BucketAccessModeReadOnly; BucketAccessModeWriteOnly]
    (claimAccess_AccessMode a) &&
  dns1123_subdomain (claimAccess_AccessSecretName a).

(** The list of claims is a map by [bucketClaimName]. *)
Definition accessSpec_valid (s : BucketAccessSpec) : bool :=
  (1 <=? length (accessSpec_BucketClaims s)) && (length (accessSpec_BucketClaims s) <=? 128) &&
  forallb claimAccess_valid (accessSpec_BucketClaims s) &&
  no_duplicates (claimAccess_BucketClaimName <$> accessSpec_BucketClaims s) &&
  length_within 1 253 (accessSpec_BucketAccessClassName s) &&
  protocol_valid (accessSpec_Protocol s) &&
  if_present (accessSpec_ServiceAccountName s) (length_within 1 253).

Definition accessedBucket_valid (b : AccessedBucket) : bool :=
  dns1123_subdomain (accessed_BucketName b) && backend_id_valid (accessed_BucketID b) &&
  dns1123_subdomain (accessed_BucketClaimName b).

Definition accessStatus_valid (s : BucketAccessStatus) : bool :=
  bool_decide (is_Some (accessStatus_ReadyToUse s)) &&
  if_present (accessStatus_AccountID s) backend_id_valid &&
  forallb accessedBucket_valid (accessStatus_AccessedBuckets s) &&
  no_duplicates (accessed_BucketName <$> accessStatus_AccessedBuckets s) &&
  (length (accessStatus_AccessedBuckets s) <=? 128) &&
  if_present (accessStatus_DriverName s) driver_name_valid &&
  if_present (accessStatus_AuthenticationType s)
    (enum [BucketAccessAuthenticationTypeKey; BucketAccessAuthenticationTypeServiceAccount]) &&
  parameters_valid (accessStatus_Parameters s) && error_valid (accessStatus_Error s).

(** [self == oldSelf] on the lists of type map: the entries are equal up to their order. *)
Definition same_entries {A} `{EqDecision A} (l1 l2 : list A) : bool :=
  (length l1 =? length l2) && forallb (λ x, bool_decide (x ∈ l2)) l1.

#[export] Instance BucketClaimAccess_eq_dec : EqDecision BucketClaimAccess.
Proof. solve_decision. Defined.
#[export] Instance AccessedBucket_eq_dec : EqDecision AccessedBucket.
Proof. solve_decision. Defined.

Definition accessSpec_transition (oldSelf self : BucketAccessSpec) : bool :=
  not_added_or_removed (present (accessSpec_ServiceAccountName oldSelf))
    (present (accessSpec_ServiceAccountName self)) &&
  same_entries (accessSpec_BucketClaims oldSelf) (accessSpec_BucketClaims self) &&
  immutable (accessSpec_BucketAccessClassName oldSelf) (accessSpec_BucketAccessClassName self) &&
  immutable (accessSpec_Protocol oldSelf) (accessSpec_Protocol self) &&
  immutable (accessSpec_ServiceAccountName oldSelf) (accessSpec_ServiceAccountName self).

Definition accessStatus_transition (oldSelf self : BucketAccessStatus) : bool :=
  not_removed (present (accessStatus_AccountID oldSelf)) (present (accessStatus_AccountID self)) &&
  immutable (accessStatus_AccountID oldSelf) (accessStatus_AccountID self) &&
  (negb (present_list (accessStatus_AccessedBuckets oldSelf)) ||
   same_entries (accessStatus_AccessedBuckets oldSelf) (accessStatus_AccessedBuckets self)) &&
  not_removed (present (accessStatus_DriverName oldSelf)) (present (accessStatus_DriverName self)) &&
  immutable (accessStatus_DriverName oldSelf) (accessStatus_DriverName self) &&
  not_removed (present (accessStatus_AuthenticationType oldSelf))
    (present (accessStatus_AuthenticationType self)) &&
  immutable (accessStatus_AuthenticationType oldSelf) (accessStatus_AuthenticationType self) &&
  (negb (present_map (accessStatus_Parameters oldSelf)) ||
   bool_decide (accessStatus_Parameters oldSelf = accessStatus_Parameters self)).

(** ** Facts about the rules *)

(** The claim's UID of a Bucket is set once. *)
Lemma bucketSpec_transition_UID old self :
  bucketSpec_transition old self = true →
  claimRef_UID (bucketSpec_BucketClaimRef old) = "" ∨
  claimRef_UID (bucketSpec_BucketClaimRef self) = claimRef_UID (bucketSpec_BucketClaimRef old).
Proof.
  unfold bucketSpec_transition, claimRef_transition, immutable, not_removed, present.
  rewrite !andb_true_iff. intros H. destruct H as [_ [[[[_ Hrem] _] _] Him]]. revert Hrem Him.
  destruct (claimRef_UID (bucketSpec_BucketClaimRef old) =s "") eqn:E1; [by left; reflect_bools|].
  destruct (claimRef_UID (bucketSpec_BucketClaimRef self) =s "") eqn:E2; [done|].
  cbn. intros _ ?%eqs_true. by right.
Qed.

Lemma chars_app s t : chars (s +:+ t) = chars s ++ chars t.
Proof.
  unfold chars. induction s as [|c s IH]; [done|].
  change (String c s +:+ t) with (String c (s +:+ t)). cbn. by f_equal.
Qed.
Lemma length_chars s : length (chars s) = String.length s.
Proof. unfold chars. induction s as [|c s IH]; cbn; [done|]. by f_equal. Qed.

Lemma matches_groups_chars groups l :
  matches_groups groups l = true →
  forallb (λ c, is_hex c || Ascii.eqb c "-"%char) l = true.
Proof.
  revert l. induction groups as [|n [|n' groups] IH]; intros l.
  - by destruct l.
  - cbn. rewrite andb_true_iff, !forallb_forall. intros [_ H] c Hc. by rewrite H.
  - intros H. change (matches_groups (n :: n' :: groups) l) with
      ((n <=? length l) && forallb is_hex (take n l) &&
       match drop n l with
       | c :: l' => Ascii.eqb c "-"%char && matches_groups (n' :: groups) l'
       | [] => false end) in H.
    apply andb_true_iff in H as [[_ Hh]%andb_true_iff Ht].
    rewrite <-(take_drop n l), forallb_app. apply andb_true_iff. split.
    + rewrite forallb_forall in *. intros c Hc. by rewrite Hh.
    + destruct (drop n l) as [|c l']; [done|]. apply andb_true_iff in Ht as [Hc Hl].
      cbn. rewrite Hc, orb_true_r. by apply IH.
Qed.

Lemma matches_groups_last groups l n :
  last groups = Some (S n) → matches_groups groups l = true →
  ∃ c, last l = Some c ∧ is_hex c = true.
Proof.
  revert l. induction groups as [|k [|k' groups] IH]; intros l; [done| |].
  - cbn. intros [= ->]. rewrite andb_true_iff, Nat.eqb_eq. intros [Hl Hh].
    destruct (last l) as [c|] eqn:E.
    + exists c. split; [done|]. rewrite forallb_forall in Hh. apply Hh, list_elem_of_In.
      by apply last_Some_elem_of.
    + apply last_None in E. by subst.
  - intros Hlast H. change (matches_groups (k :: k' :: groups) l) with
      ((k <=? length l) && forallb is_hex (take k l) &&
       match drop k l with
       | c :: l' => Ascii.eqb c "-"%char && matches_groups (k' :: groups) l'
       | [] => false end) in H.
    apply andb_true_iff in H as [_ Ht]. destruct (drop k l) as [|c l'] eqn:E; [done|].
    apply andb_true_iff in Ht as [_ Hm]. destruct (IH l' Hlast Hm) as (d & Hd & Hh).
    exists d. split; [|done]. rewrite <-(take_drop k l), E, last_app_cons. cbn.
    destruct l'; [done|]. done.
Qed.

Lemma hex_alnum c : is_hex c = true → is_alnum c = true.
Proof.
  unfold is_hex, is_alnum, is_lower, is_digit. rewrite !orb_true_iff, !andb_true_iff, !Nat.leb_le. lia.
Qed.

Lemma uid_chars uid : uid_valid uid = true →
  String.length uid = 36 ∧ string_forall (λ c, is_alnum c || one_of "-" c) uid = true ∧
  ∃ c, last (chars uid) = Some c ∧ is_alnum c = true.
Proof.
  unfold uid_valid. rewrite andb_true_iff, Nat.eqb_eq. intros [Hlen Hm]. split; [done|]. split.
  - apply matches_groups_chars in Hm. unfold string_forall. rewrite forallb_forall in *.
    intros c Hc. specialize (Hm c Hc). apply orb_true_iff in Hm as [Hh|Hd].
    + by rewrite (hex_alnum _ Hh).
    + apply orb_true_iff. right. unfold one_of. cbn. by rewrite Hd.
  - destruct (matches_groups_last [8; 4; 4; 4; 12] _ 11 eq_refl Hm) as (c & ? & ?%hex_alnum). eauto.
Qed.

Lemma label_chars_dot_free s :
  string_forall (λ c, is_alnum c || one_of "-" c) s = true → dot_free s.
Proof.
  unfold string_forall, dot_free. rewrite forallb_forall. intros H Hd%list_elem_of_In. by specialize (H dot Hd).
Qed.

(** The name of a dynamically provisioned Bucket is a valid name. *)
Lemma dynamic_name_valid uid : uid_valid uid = true → dns1123_subdomain ("bc-" +:+ uid) = true.
Proof.
  intros (Hlen & Hch & c & Hl & Hc)%uid_chars.
  assert (string_forall (λ c, is_alnum c || one_of "-" c) ("bc-" +:+ uid) = true) as Hall.
  { unfold string_forall in *. rewrite chars_app, forallb_app. by rewrite Hch. }
  unfold dns1123_subdomain. rewrite strings_Split_dot_free by (by apply label_chars_dot_free).
  unfold length_within. rewrite andb_true_iff. split.
  - by assert (String.length ("bc-" +:+ uid) = 39) as ->
      by (rewrite <-length_chars, chars_app, length_app, (length_chars uid), Hlen; done).
  - cbn [forallb]. rewrite andb_true_r. unfold dns1123_subdomain_label, starts_with, ends_with.
    rewrite chars_app, last_app, Hl, Hc, Hall. done.
Qed.

(** ** Admitted objects

    Objects as an API server that enforces the rules returns them; a status that was never
    written is empty. *)

Definition claim_admitted (c : BucketClaim) : Prop :=
  dns1123_subdomain (GetName c) = true ∧ dns1123_label (GetNamespace c) = true ∧
  uid_valid (GetUID c) = true ∧ claimSpec_valid (claim_Spec c) = true ∧
  (claim_Status c = empty_claim_status ∨ claimStatus_valid (claim_Status c) = true).
Definition bucket_admitted (b : Bucket) : Prop :=
  bucketSpec_valid (bucket_Spec b) = true ∧
  (bucket_Status b = empty_BucketStatus ∨ bucketStatus_valid (bucket_Status b) = true).

(** The answers of such a server. *)
Definition event_admitted (ev : event) : Prop :=
  match ev with
  | Ev (GetClaim _) (Ok c) | Ev (UpdateClaim _) (Ok c) | Ev (StatusUpdateClaim _) (Ok c) =>
      claim_admitted c
  | Ev (GetBucket _) (Ok b) | Ev (CreateBucket _) (Ok b) | Ev (UpdateBucket _) (Ok b) =>
      bucket_admitted b
  | Ev (GetBucketClass _) (Ok c) => classSpec_valid (class_Spec c) = true
  | Ev _ _ => True
  end.

(** The rules, up to the length of the error message: that is the error of another system. *)
Definition status_valid (s : BucketClaimStatus) : Prop :=
  error_valid (claimStatus_Error s) = true → claimStatus_valid s = true.

(** What the claim reconciler sends to be stored passes the rules. *)
Definition request_valid (r : req) : Prop :=
  match r with
  | StatusUpdateClaim c => status_valid (claim_Status c)
  | CreateBucket b => dns1123_subdomain (GetName b) = true ∧ bucketSpec_valid (bucket_Spec b) = true
  | UpdateBucket b => bucketSpec_valid (bucket_Spec b) = true
  | UpdateClaim c => claimSpec_valid (claim_Spec c) = true
  | _ => True
  end.
Definition admitted_contract (h : list event) (r : req) : Prop :=
  Forall event_admitted h → request_valid r.

(** The claim in memory, between two writes: all of it passes the rules but for
    [readyToUse], which is set before a status is written. *)
Definition claim_holds (c : BucketClaim) : Prop :=
  dns1123_subdomain (GetName c) = true ∧ dns1123_label (GetNamespace c) = true ∧
  uid_valid (GetUID c) = true ∧ claimSpec_valid (claim_Spec c) = true ∧
  if_present (claimStatus_BoundBucketName (claim_Status c)) dns1123_subdomain = true ∧
  protocols_valid (claimStatus_Protocols (claim_Status c)) = true.

Lemma claim_admitted_holds c : claim_admitted c → claim_holds c.
Proof.
  intros (? & ? & ? & ? & Hs). split_and!; try done.
  all: destruct Hs as [->|Hs]; [done|]; unfold claimStatus_valid in Hs;
    rewrite !andb_true_iff in Hs; tauto.
Qed.

Lemma default_not_ready_Some r : is_Some (default_not_ready r).
Proof. destruct r; eauto. Qed.

Lemma status_valid_intro c :
  claim_holds c → is_Some (claimStatus_ReadyToUse (claim_Status c)) →
  status_valid (claim_Status c).
Proof.
  intros (_ & _ & _ & _ & Hb & Hp) [b Hr] He. unfold claimStatus_valid.
  by rewrite Hb, Hp, Hr, He.
Qed.

Lemma bucket_name_valid c : claim_holds c → dns1123_subdomain (bucket_name_of c) = true.
Proof.
  intros (_ & _ & Hu & Hs & _). unfold bucket_name_of. destruct (_ <>s "") eqn:E.
  - unfold claimSpec_valid in Hs. rewrite !andb_true_iff in Hs. destruct Hs as [_ Hs].
    unfold if_present, present in Hs. by rewrite E in Hs.
  - by apply dynamic_name_valid.
Qed.

(** The Bucket that is created for a claim. *)
Lemma generated_bucket_valid c class name :
  claim_holds c → classSpec_valid (class_Spec class) = true →
  bucketSpec_valid (bucket_Spec (generateIntermediateBucket c class name)) = true.
Proof.
  intros (Hn & Hns & Hu & Hs & _) Hc.
  unfold claimSpec_valid in Hs. rewrite !andb_true_iff in Hs. destruct Hs as [[_ Hp] _].
  unfold classSpec_valid in Hc. rewrite !andb_true_iff in Hc. destruct Hc as [[Hd Hpol] Hpar].
  unfold bucketSpec_valid, claimRef_valid, if_present.
  cbn [generateIntermediateBucket bucket_with_claimRef_UID bucket_Spec bucketSpec_DriverName
    bucketSpec_DeletionPolicy bucketSpec_Parameters bucketSpec_Protocols bucketSpec_BucketClaimRef
    bucketSpec_ExistingBucketID claimRef_Name claimRef_Namespace claimRef_UID].
  rewrite Hd, Hpol, Hpar, Hp, Hn, Hns, Hu, orb_true_r. done.
Qed.

Lemma bound_bucket_valid c b :
  claim_holds c → bucketSpec_valid (bucket_Spec b) = true →
  bucketSpec_valid (bucket_Spec (bucket_with_claimRef_UID (GetUID c) b)) = true.
Proof.
  intros (_ & _ & Hu & _). unfold bucketSpec_valid, claimRef_valid, if_present.
  cbn [generateIntermediateBucket bucket_with_claimRef_UID bucket_Spec bucketSpec_DriverName
    bucketSpec_DeletionPolicy bucketSpec_Parameters bucketSpec_Protocols bucketSpec_BucketClaimRef
    bucketSpec_ExistingBucketID claimRef_Name claimRef_Namespace claimRef_UID].
  rewrite !andb_true_iff.
  intros [[Hr [[Hn Hns] _]] Hid]. rewrite Hu, orb_true_r. tauto.
Qed.

(** ** The claim reconciler keeps to the rules *)

Lemma bucket_admitted_spec b : bucket_admitted b → bucketSpec_valid (bucket_Spec b) = true.
Proof. by intros [? _]. Qed.
Lemma bucket_admitted_protocols b :
  bucket_admitted b → protocols_valid (bucketStatus_Protocols (bucket_Status b)) = true.
Proof.
  intros [_ [->|Hs]]; [done|]. unfold bucketStatus_valid in Hs. rewrite !andb_true_iff in Hs. tauto.
Qed.

(** A computation on the claim that leaves it in order. *)
Definition kept (h : list event) (r : BucketClaim * option error) : Prop :=
  Forall event_admitted h → claim_holds r.1.

Ltac events := repeat match goal with
  | H : Forall event_admitted (_ ++ _) |- _ => rewrite Forall_app in H; destruct H as [? H]
  | H : Forall event_admitted [_] |- _ => rewrite Forall_singleton in H; cbn [event_admitted] in H
  | H : Forall event_admitted [] |- _ => clear H
  end.

(** The leaves: assume the answers so far are admitted, and use what they say. *)
Ltac admitted_step := unfold admitted_contract, kept; cbn [fst request_valid];
  intros Hadm; events; try done.

Lemma adm_removeClaimFinalizer h c :
  (Forall event_admitted h → claim_holds c) →
  wp admitted_contract (removeClaimFinalizer c) h kept.
Proof.
  intros Hc. unfold removeClaimFinalizer. wp_run; admitted_step.
  - apply Hc; done.
  - by apply claim_admitted_holds.
  - apply Hc; done.
Qed.

Lemma adm_reconcileDelete h c name static :
  (Forall event_admitted h → claim_holds c) →
  wp admitted_contract (reconcileDelete c name static) h kept.
Proof.
  intros Hc. unfold reconcileDelete, applyBucketClaimIsDeletingAnnotation.
  wp_run; try (apply adm_removeClaimFinalizer); admitted_step.
  all: try (by apply claim_admitted_holds).
  - apply status_valid_intro; [by apply Hc|eauto].
  - by apply bucket_admitted_spec.
  - by apply bucket_admitted_spec.
  - by apply Hc.
Qed.

Lemma adm_ensureClaimFinalizer h c :
  (Forall event_admitted h → claim_holds c) →
  wp admitted_contract (ensureClaimFinalizer c) h kept.
Proof.
  intros Hc. unfold ensureClaimFinalizer, AddFinalizer.
  destruct (slices_Contains _ _); wp_run; admitted_step.
  - by apply Hc.
  - by apply Hc.
  - by apply claim_admitted_holds.
  - by apply Hc.
Qed.

(** The Bucket that reconciliation continues with. *)
Definition bucket_kept (h : list event) (r : result error Bucket) : Prop :=
  ∀ b, r = Ok b → Forall event_admitted h → bucket_admitted b.

Lemma adm_getOrCreateBucket h c name static :
  (Forall event_admitted h → claim_holds c ∧ dns1123_subdomain name = true) →
  wp admitted_contract (getOrCreateBucket c name static) h bucket_kept.
Proof.
  intros Hc. unfold getOrCreateBucket, createIntermediateBucket.
  wp_run; try (intros b [= <-]); try done; admitted_step.
  destruct Hc as [Hc Hn]; [done|]. split; [done|]. by apply generated_bucket_valid.
Qed.

Lemma adm_bindBucket h c b static :
  (Forall event_admitted h → claim_holds c) → (Forall event_admitted h → bucket_admitted b) →
  wp admitted_contract (bindBucket c b static) h bucket_kept.
Proof.
  intros Hc Hb. unfold bindBucket, ensureStaticBucketBound.
  wp_run; try (intros b' [= <-]); try done; admitted_step.
  apply bound_bucket_valid; [by apply Hc|]. by apply bucket_admitted_spec, Hb.
Qed.

Lemma adm_bindClaim h c name :
  (Forall event_admitted h → claim_holds c ∧ dns1123_subdomain name = true) →
  wp admitted_contract (bindClaim c name) h kept.
Proof.
  intros Hc. unfold bindClaim. set (c1 := claim_with_Status _ c).
  assert (Forall event_admitted h → claim_holds c1) as Hc1.
  { intros [(? & ? & ? & ? & ? & ?) Hn]%Hc. split_and!; try done.
    unfold if_present. cbn. by rewrite Hn, orb_true_r. }
  wp_run; admitted_step.
  - apply (status_valid_intro c1); [by apply Hc1|apply default_not_ready_Some].
  - by apply claim_admitted_holds.
  - by apply Hc1.
  - by apply Hc.
Qed.

Lemma adm_copyBucketStatus h c b :
  (Forall event_admitted h → claim_holds c) → (Forall event_admitted h → bucket_admitted b) →
  wp admitted_contract (copyBucketStatus c b) h kept.
Proof.
  intros Hc Hb. unfold copyBucketStatus. set (c1 := claim_with_Status _ c).
  assert (Forall event_admitted h → claim_holds c1) as Hc1.
  { intros Hadm. destruct (Hc Hadm) as (? & ? & ? & ? & ? & ?). split_and!; try done.
    by apply bucket_admitted_protocols, Hb. }
  wp_run; reflect_bools; admitted_step; try (by apply Hc); try (by apply Hc1).
  - destruct (Hb Hadm) as [_ [Hs|Hs]]; [by rewrite Hs in *|].
    unfold bucketStatus_valid in Hs. rewrite !andb_true_iff in Hs. destruct Hs as [[[[Hr _] _] _] _].
    apply bool_decide_eq_true in Hr. by apply (status_valid_intro c1); [apply Hc1|].
  - by apply claim_admitted_holds.
Qed.

Lemma adm_reconcile h c :
  (Forall event_admitted h → claim_holds c) → wp admitted_contract (reconcile c) h kept.
Proof.
  intros Hc. unfold reconcile. destruct (determineBucketName c) as [bn|err] eqn:En; [|exact Hc].
  apply determineBucketName_Ok in En as [-> _].
  destruct (IsDeleting c); [by apply adm_reconcileDelete|].
  assert (∀ t, Forall event_admitted (h ++ t) → dns1123_subdomain (bucket_name_of c) = true) as Hn.
  { intros t [Hh _]%Forall_app. by apply bucket_name_valid, Hc. }
  eapply wp_seq; [by apply adm_ensureClaimFinalizer|].
  intros t1 [c1 [err|]] Hc1; [exact Hc1|]. unfold kept in Hc1; cbn in Hc1.
  eapply wp_seq; [apply adm_getOrCreateBucket; intros Ha; split; [auto|by eapply Hn]|].
  intros t2 [b|err] Hb; [|intros [Ha _]%Forall_app; by apply Hc1].
  eapply wp_seq; [apply adm_bindBucket; [intros [Ha _]%Forall_app; by apply Hc1|by apply Hb]|].
  intros t3 [b'|err] Hb'; [|intros [[Ha _]%Forall_app _]%Forall_app; by apply Hc1].
  eapply wp_seq; [apply adm_bindClaim|].
  { intros [[Ha _]%Forall_app _]%Forall_app. split; [by apply Hc1|by eapply Hn]. }
  intros t4 [c2 [err|]] Hc2; [exact Hc2|].
  apply adm_copyBucketStatus; [exact Hc2|]. intros [Ha _]%Forall_app. by apply (Hb' b').
Qed.

Lemma adm_Reconcile key : wp admitted_contract (Reconcile key) [] (λ _ _, True).
Proof.
  unfold Reconcile. wp_simpl. split; [done|]. intros [c|e]; wp_simpl; [|by destruct (IsNotFound _)].
  eapply wp_seq; [apply adm_reconcile; intros Ha; events; by apply claim_admitted_holds|].
  intros t [c' [err|]] Hc; unfold kept in Hc; cbn [fst] in Hc.
  - wp_run; try done; intros Ha; apply status_valid_intro; try apply default_not_ready_Some.
    rewrite Forall_app in Ha. exact (Hc (proj1 Ha)).
  - wp_run; try done; intros Ha; apply status_valid_intro; try apply default_not_ready_Some.
    exact (Hc Ha).
Qed.

(** C31: What the claim reconciler writes is admissible. When every object that the API
    server has returned so far passes the validation rules of its type, then so does what
    the reconciler sends next: a Bucket it creates has a valid name and spec, a Bucket it
    binds or marks keeps a valid spec, and a status it writes has [readyToUse], a valid
    bound name and valid protocols (the length of the error message in it is left open). *)
Theorem claim_writes_are_admissible key tr res n r :
  exec (Reconcile key) tr res → nth_call tr n = Some r →
  Forall event_admitted (take n tr) → request_valid r.
Proof. intros Hx Hn. exact (wp_nth_call _ _ _ _ _ _ _ (adm_Reconcile key) Hx Hn). Qed.

(** A claim and a class with the identities of a real server. *)
Definition demo_uid_claim : BucketClaim := {|
  claim_ObjectMeta := demo_meta "app" "data" "01234567-89ab-cdef-0123-456789abcdef";
  claim_Spec := claim_Spec demo_claim; claim_Status := empty_claim_status |}.

Lemma claim_writes_are_admissible_witness :
  let tr := run_trace (Reconcile demo_claim_key) (demo_world [demo_uid_claim] [] [] []) in
  request_valid (CreateBucket (bucket_of (nth_call tr 4))).
Proof.
  cbn zeta. eapply (claim_writes_are_admissible demo_claim_key
    (run_trace (Reconcile demo_claim_key) (demo_world [demo_uid_claim] [] [] [])) _ 4);
    [apply run_exec| |].
  - vm_compute. reflexivity.
  - match goal with |- Forall _ ?l =>
      let l' := eval vm_compute in l in replace l with l' by (vm_compute; reflexivity) end.
    repeat (apply Forall_cons; split); try apply Forall_nil; cbn [event_admitted]; try exact I.
    all: unfold claim_admitted, bucket_admitted; repeat apply conj.
    all: first [ left; reflexivity | vm_compute; reflexivity ].
Defined.
