(* ===== verification/Startup.v ===== *)
(** * Starting the two processes

    Models [src/controller/cmd/main.go] and [src/sidecar/cmd/main.go], with what they use of
    Go's package [flag]. The libraries behind them are a parameter, the record [Runtime]:
    what each call returns in one start. A run is the list of the calls made, in order, and
    the exit code of the process ([main] that returns exits with 0). Log entries are not
    modelled; neither is the registration of the types in [init], which panics only when a
    type is registered twice. *)

From stdpp Require Import base gmap strings list.
From Stdlib Require Import Ascii.
From S2P Require Import Prelude GoErrors ApiTypes ProtoTypes ApiServer Driver Rpc.
From S2P Require Import ClaimController Admission.

(** ** Flags *)

Record Flags : Type := {
  metricsAddr : string;
  probeAddr : string;
  enableLeaderElection : bool;
  secureMetrics : bool;
  metricsCertPath : string;
  metricsCertName : string;
  metricsCertKey : string;
  enableHTTP2 : bool
}.

(** The defaults given to [flag.StringVar] and [flag.BoolVar]. *)
Definition default_flags : Flags := {|
  metricsAddr := "0"; probeAddr := ":8081"; enableLeaderElection := false;
  secureMetrics := true; metricsCertPath := ""; metricsCertName := "tls.crt";
  metricsCertKey := "tls.key"; enableHTTP2 := false |}.

Definition set_metricsAddr v f : Flags := {|
  metricsAddr := v; probeAddr := probeAddr f; enableLeaderElection := enableLeaderElection f;
  secureMetrics := secureMetrics f; metricsCertPath := metricsCertPath f;
  metricsCertName := metricsCertName f; metricsCertKey := metricsCertKey f;
  enableHTTP2 := enableHTTP2 f |}.
Definition set_probeAddr v f : Flags := {|
  metricsAddr := metricsAddr f; probeAddr := v; enableLeaderElection := enableLeaderElection f;
  secureMetrics := secureMetrics f; metricsCertPath := metricsCertPath f;
  metricsCertName := metricsCertName f; metricsCertKey := metricsCertKey f;
  enableHTTP2 := enableHTTP2 f |}.
Definition set_enableLeaderElection v f : Flags := {|
  metricsAddr := metricsAddr f; probeAddr := probeAddr f; enableLeaderElection := v;
  secureMetrics := secureMetrics f; metricsCertPath := metricsCertPath f;
  metricsCertName := metricsCertName f; metricsCertKey := metricsCertKey f;
  enableHTTP2 := enableHTTP2 f |}.
Definition set_secureMetrics v f : Flags := {|
  metricsAddr := metricsAddr f; probeAddr := probeAddr f;
  enableLeaderElection := enableLeaderElection f; secureMetrics := v;
  metricsCertPath := metricsCertPath f; metricsCertName := metricsCertName f;
  metricsCertKey := metricsCertKey f; enableHTTP2 := enableHTTP2 f |}.
Definition set_metricsCertPath v f : Flags := {|
  metricsAddr := metricsAddr f; probeAddr := probeAddr f;
  enableLeaderElection := enableLeaderElection f; secureMetrics := secureMetrics f;
  metricsCertPath := v; metricsCertName := metricsCertName f;
  metricsCertKey := metricsCertKey f; enableHTTP2 := enableHTTP2 f |}.
Definition set_metricsCertName v f : Flags := {|
  metricsAddr := metricsAddr f; probeAddr := probeAddr f;
  enableLeaderElection := enableLeaderElection f; secureMetrics := secureMetrics f;
  metricsCertPath := metricsCertPath f; metricsCertName := v;
  metricsCertKey := metricsCertKey f; enableHTTP2 := enableHTTP2 f |}.
Definition set_metricsCertKey v f : Flags := {|
  metricsAddr := metricsAddr f; probeAddr := probeAddr f;
  enableLeaderElection := enableLeaderElection f; secureMetrics := secureMetrics f;
  metricsCertPath := metricsCertPath f; metricsCertName := metricsCertName f;
  metricsCertKey := v; enableHTTP2 := enableHTTP2 f |}.
Definition set_enableHTTP2 v f : Flags := {|
  metricsAddr := metricsAddr f; probeAddr := probeAddr f;
  enableLeaderElection := enableLeaderElection f; secureMetrics := secureMetrics f;
  metricsCertPath := metricsCertPath f; metricsCertName := metricsCertName f;
  metricsCertKey := metricsCertKey f; enableHTTP2 := v |}.

(** A registered flag: what its value sets, and, for a boolean flag, that it needs no
    value. The flags that [zap.Options.BindFlags] registers check their value and are for
    the logger only. *)
Inductive flag_kind : Type :=
| StringFlag (set : string → Flags → Flags)
| BoolFlag (set : bool → Flags → Flags)
| ForeignFlag (is_bool : bool) (accepts : string → bool).

(** [strconv.ParseBool]. *)
Definition ParseBool (s : string) : option bool :=
  if slices_Contains ["1"; "t"; "T"; "TRUE"; "true"; "True"] s then Some true
  else if slices_Contains ["0"; "f"; "F"; "FALSE"; "false"; "False"] s then Some false
  else None.

Definition registered (name : string) : option flag_kind :=
  if name =s "metrics-bind-address" then Some (StringFlag set_metricsAddr)
  else if name =s "health-probe-bind-address" then Some (StringFlag set_probeAddr)
  else if name =s "leader-elect" then Some (BoolFlag set_enableLeaderElection)
  else if name =s "metrics-secure" then Some (BoolFlag set_secureMetrics)
  else if name =s "metrics-cert-path" then Some (StringFlag set_metricsCertPath)
  else if name =s "metrics-cert-name" then Some (StringFlag set_metricsCertName)
  else if name =s "metrics-cert-key" then Some (StringFlag set_metricsCertKey)
  else if name =s "enable-http2" then Some (BoolFlag set_enableHTTP2)
  else None.

(** ** [flag.Parse] *)

Inductive parsed : Type :=
| Parsed (f : Flags)
| Help              (* -h or -help without such a flag: exit code 0 *)
| Invalid.          (* [flag.ExitOnError]: exit code 2 *)

(** The name and the value of "name=value"; the first [=] separates them. *)
Fixpoint split_value (s : string) : string * option string :=
  match s with
  | EmptyString => (EmptyString, None)
  | String c s' =>
      if Ascii.eqb c "="%char then (EmptyString, Some s')
      else let '(name, value) := split_value s' in (String c name, value)
  end.

(** The text of a flag without its one or two dashes; [None] for an argument that is not a
    flag, and for the terminator "--". *)
Definition flag_text (s : string) : option string :=
  match s with
  | String "-" (String "-" EmptyString) => None
  | String "-" (String "-" name) => Some name
  | String "-" EmptyString => None
  | String "-" name => Some name
  | _ => None
  end.

Section parse.
Context (zapFlags : string → option flag_kind).

Definition lookup_flag (name : string) : option flag_kind :=
  match registered name with Some k => Some k | None => zapFlags name end.

(** [flag.Set] of a value; [None] when the value is invalid. *)
Definition set_flag (k : flag_kind) (value : string) (f : Flags) : option Flags :=
  match k with
  | StringFlag set => Some (set value f)
  | BoolFlag set => (λ b, set b f) <$> ParseBool value
  | ForeignFlag _ accepts => if accepts value then Some f else None
  end.

Definition is_bool_flag (k : flag_kind) : bool :=
  match k with BoolFlag _ => true | StringFlag _ => false | ForeignFlag b _ => b end.

Fixpoint parse (args : list string) (f : Flags) : parsed :=
  match args with
  | [] => Parsed f
  | s :: args =>
      match flag_text s with
      | None => Parsed f
      | Some text =>
          match text with
          | EmptyString | String "-" _ | String "=" _ => Invalid
          | _ =>
              let '(name, value) := split_value text in
              match lookup_flag name with
              | None => if (name =s "help") || (name =s "h") then Help else Invalid
              | Some k =>
                  match value with
                  | Some value =>
                      match set_flag k value f with Some f => parse args f | None => Invalid end
                  | None =>
                      if is_bool_flag k then
                        match set_flag k "true" f with Some f => parse args f | None => Invalid end
                      else
                        match args with
                        | [] => Invalid
                        | value :: args =>
                            match set_flag k value f with Some f => parse args f | None => Invalid end
                        end
                  end
              end
          end
      end
  end.
End parse.

(** ** Options of the manager *)

Record TLSConfig : Type := { NextProtos : list string }.

Record MetricsOptions : Type := {
  BindAddress : string;
  SecureServing : bool;
  TLSOpts : list (TLSConfig → TLSConfig);
  AuthFilter : bool;   (* [FilterProvider = filters.WithAuthenticationAndAuthorization] *)
  CertDir : string;
  CertName : string;
  KeyName : string
}.

Record ManagerOptions : Type := {
  Metrics : MetricsOptions;
  HealthProbeBindAddress : string;
  LeaderElection : bool;
  LeaderElectionID : string;
  LeaderElectionReleaseOnCancel : bool
}.

Definition disableHTTP2 (c : TLSConfig) : TLSConfig := {| NextProtos := ["http/1.1"] |}.

Definition tlsOpts (f : Flags) : list (TLSConfig → TLSConfig) :=
  if negb (enableHTTP2 f) then [disableHTTP2] else [].

Definition metricsServerOptions (f : Flags) : MetricsOptions :=
  let has_cert := 0 <? String.length (metricsCertPath f) in {|
  BindAddress := metricsAddr f;
  SecureServing := secureMetrics f;
  TLSOpts := tlsOpts f;
  AuthFilter := secureMetrics f;
  CertDir := if has_cert then metricsCertPath f else "";
  CertName := if has_cert then metricsCertName f else "";
  KeyName := if has_cert then metricsCertKey f else "" |}.

Definition managerOptions (f : Flags) (leaderElectionID : string) : ManagerOptions := {|
  Metrics := metricsServerOptions f; HealthProbeBindAddress := probeAddr f;
  LeaderElection := enableLeaderElection f; LeaderElectionID := leaderElectionID;
  LeaderElectionReleaseOnCancel := true |}.

(** ** The libraries *)

Record Runtime : Type := {
  rt_zapFlags : string → option flag_kind;
  rt_LookupEnv : string → option string;
  rt_grpc : Grpc;
  rt_GetConfigOrDie : option error;              (* an error ends the process with 1 *)
  rt_NewManager : ManagerOptions → option error;
  rt_SetupWithManager : string → option error;   (* by the name of the controller *)
  rt_AddHealthzCheck : option error;
  rt_AddReadyzCheck : option error;
  rt_Start : option error
}.

Inductive call : Type :=
| ConnectDriver (endpoint : string)
| GetConfig
| CallNewManager (o : ManagerOptions)
| Setup (controller : string) (d : option DriverInfo)
| AddHealthz
| AddReadyz
| StartManager.

(** [if err := c(); err != nil { os.Exit(1) }], and the rest of [main]. *)
Definition attempt (c : call) (err : option error) (rest : list call * Z) : list call * Z :=
  match err with
  | Some _ => ([c], 1%Z)
  | None => (c :: rest.1, rest.2)
  end.

Section main.
Context (rt : Runtime) (args : list string).

(** [flag.Parse()] on the command line ends the process on its own. *)
Definition with_flags (main : Flags → list call * Z) : list call * Z :=
  match parse (rt_zapFlags rt) args default_flags with
  | Parsed f => main f
  | Help => ([], 0%Z)
  | Invalid => ([], 2%Z)
  end.

(** From the manager's checks to its end, common to both files. *)
Definition serve : list call * Z :=
  attempt AddHealthz (rt_AddHealthzCheck rt)
    (attempt AddReadyz (rt_AddReadyzCheck rt)
       (attempt StartManager (rt_Start rt) ([], 0%Z))).

Definition setup (controller : string) (d : option DriverInfo) (rest : list call * Z) :
    list call * Z :=
  attempt (Setup controller d) (rt_SetupWithManager rt controller) rest.

Definition new_manager (o : ManagerOptions) (rest : list call * Z) : list call * Z :=
  attempt GetConfig (rt_GetConfigOrDie rt) (attempt (CallNewManager o) (rt_NewManager rt o) rest).

(** [main] of the Controller. *)
Definition controller_main : list call * Z :=
  with_flags (λ f,
    new_manager (managerOptions f "cosi-controller-leader")
      (setup "bucketclaim" None
         (setup "bucket" None
            (setup "bucketaccess" None serve)))).

Definition rpcEndpoint : string :=
  match rt_LookupEnv rt RpcEndpointEnvVarName with
  | Some endpoint => endpoint
  | None => RpcEndpointDefault
  end.

Definition sidecarLeaderElectionID (d : DriverInfo) : string :=
  "cosi-sidecar-leader-" +:+ driver_Name d.

(** [main] of the Sidecar. *)
Definition sidecar_main : list call * Z :=
  with_flags (λ f,
    match (connectRpcAndGetDriverInfo (rt_grpc rt) rpcEndpoint).2 with
    | Err err => attempt (ConnectDriver rpcEndpoint) (Some err) ([], 0%Z)
    | Ok d =>
        attempt (ConnectDriver rpcEndpoint) None
          (new_manager (managerOptions f (sidecarLeaderElectionID d))
             (setup "bucket" (Some d)
                (setup "bucketaccess" (Some d) serve)))
    end).
End main.

(** ** Properties of the start *)

(** The calls of a start that gets through. *)
Definition controller_calls (f : Flags) : list call :=
  [GetConfig; CallNewManager (managerOptions f "cosi-controller-leader");
   Setup "bucketclaim" None; Setup "bucket" None; Setup "bucketaccess" None;
   AddHealthz; AddReadyz; StartManager].
Definition sidecar_calls (rt : Runtime) (f : Flags) (d : DriverInfo) : list call :=
  [ConnectDriver (rpcEndpoint rt); GetConfig;
   CallNewManager (managerOptions f (sidecarLeaderElectionID d));
   Setup "bucket" (Some d); Setup "bucketaccess" (Some d); AddHealthz; AddReadyz; StartManager].

(** What a call returns in a start. *)
Definition call_error (rt : Runtime) (c : call) : option error :=
  match c with
  | ConnectDriver endpoint =>
      match (connectRpcAndGetDriverInfo (rt_grpc rt) endpoint).2 with Ok _ => None | Err err => Some err end
  | GetConfig => rt_GetConfigOrDie rt
  | CallNewManager o => rt_NewManager rt o
  | Setup controller _ => rt_SetupWithManager rt controller
  | AddHealthz => rt_AddHealthzCheck rt
  | AddReadyz => rt_AddReadyzCheck rt
  | StartManager => rt_Start rt
  end.

(** A run of a sequence of calls: either all of them are made and succeed, and the exit code is 0,
    or those up to a first one that fails are made, and the exit code is 1. *)
Definition in_sequence (rt : Runtime) (full : list call) (run : list call * Z) : Prop :=
  (run = (full, 0%Z) ∧ Forall (λ c, call_error rt c = None) full) ∨
  ∃ before c after err, full = before ++ c :: after ∧ run = (before ++ [c], 1%Z) ∧
    Forall (λ c, call_error rt c = None) before ∧ call_error rt c = Some err.

Lemma in_sequence_nil rt : in_sequence rt [] ([], 0%Z).
Proof. by left. Qed.

Lemma in_sequence_attempt rt full c run :
  in_sequence rt full run → in_sequence rt (c :: full) (attempt c (call_error rt c) run).
Proof.
  intros Hrun. destruct (call_error rt c) as [err|] eqn:Ec.
  - right. by exists [], c, full, err.
  - destruct Hrun as [[-> Hall]|(before & c' & after & err & -> & -> & Hall & Hc')].
    + left. split; [done|by constructor].
    + right. exists (c :: before), c', after, err. split_and!; [done|done|by constructor|done].
Qed.

Ltac in_order := unfold new_manager, setup, serve;
  repeat match goal with
    | |- in_sequence ?rt (?c :: ?full) (attempt ?c ?err ?run) =>
        change err with (call_error rt c); apply in_sequence_attempt
    end; apply in_sequence_nil.

(** C33: The order of a start. With a valid command line, the Controller and the Sidecar make
    their calls in a fixed order. Either every call succeeds, all of them are made and the process
    exits with 0 after the manager has ended, or one fails: then the calls before it have succeeded,
    none is made after it, and the process exits with 1. The manager is the last to be called,
    behind all controllers and checks, and by the Sidecar only when it has connected to a driver
    whose info is valid: every controller of the Sidecar and its leader election work for that
    driver. *)
Theorem start_is_ordered rt args f :
  parse (rt_zapFlags rt) args default_flags = Parsed f →
  in_sequence rt (controller_calls f) (controller_main rt args) ∧
  match (connectRpcAndGetDriverInfo (rt_grpc rt) (rpcEndpoint rt)).2 with
  | Ok d => in_sequence rt (sidecar_calls rt f d) (sidecar_main rt args)
  | Err _ => sidecar_main rt args = ([ConnectDriver (rpcEndpoint rt)], 1%Z)
  end.
Proof.
  intros Hf. unfold controller_main, sidecar_main, with_flags. rewrite Hf. split.
  - unfold controller_calls. in_order.
  - destruct (connectRpcAndGetDriverInfo _ _).2 as [d|err] eqn:Ed; [|done].
    assert (None = call_error rt (ConnectDriver (rpcEndpoint rt))) as -> by (cbn; by rewrite Ed).
    unfold sidecar_calls. in_order.
Qed.

(** A start with all calls going well. *)
Definition demo_runtime : Runtime := {|
  rt_zapFlags _ := None; rt_LookupEnv _ := None; rt_grpc := demo_grpc;
  rt_GetConfigOrDie := None; rt_NewManager _ := None; rt_SetupWithManager _ := None;
  rt_AddHealthzCheck := None; rt_AddReadyzCheck := None; rt_Start := None |}.

Lemma start_is_ordered_witness :
  in_sequence demo_runtime (controller_calls (set_enableLeaderElection true default_flags))
    (controller_main demo_runtime ["--leader-elect"]).
Proof.
  exact (proj1 (start_is_ordered demo_runtime ["--leader-elect"]
    (set_enableLeaderElection true default_flags) eq_refl)).
Defined.

(** ** The command line *)

Definition show_bool (b : bool) : string := if b then "true" else "false".

(** A command line that sets every flag. *)
Definition print_flags (f : Flags) : list string :=
  ["--metrics-bind-address=" +:+ metricsAddr f; "--health-probe-bind-address=" +:+ probeAddr f;
   "--leader-elect=" +:+ show_bool (enableLeaderElection f);
   "--metrics-secure=" +:+ show_bool (secureMetrics f);
   "--metrics-cert-path=" +:+ metricsCertPath f; "--metrics-cert-name=" +:+ metricsCertName f;
   "--metrics-cert-key=" +:+ metricsCertKey f; "--enable-http2=" +:+ show_bool (enableHTTP2 f)].

(** Every setting can be given on the command line. A command line that sets the flags
    one by one is parsed to exactly these settings, for all values of the string flags,
    also with [=] and dashes in them. *)
Theorem flags_roundtrip zapFlags f : parse zapFlags (print_flags f) default_flags = Parsed f.
Proof. destruct f as [? ? [] [] ? ? ? []]; reflexivity. Qed.

(** The servers are hardened by default. Unless the command line enables it, the TLS
    configuration of the metrics server offers HTTP/1.1 only, whatever it offered before;
    a server with TLS authenticates and authorizes its clients, and own certificates are
    used exactly when a path is given. *)
Theorem metrics_options f c :
  (enableHTTP2 f = false →
   NextProtos (foldl (λ c opt, opt c) c (TLSOpts (metricsServerOptions f))) = ["http/1.1"]) ∧
  (SecureServing (metricsServerOptions f) = true → AuthFilter (metricsServerOptions f) = true) ∧
  (metricsCertPath f = "" ↔ CertDir (metricsServerOptions f) = "").
Proof.
  unfold metricsServerOptions, tlsOpts. cbn. split_and!.
  - by intros ->.
  - done.
  - destruct (metricsCertPath f) as [|ch s]; [done|]. done.
Qed.

(** ** Names of drivers *)

Definition label_char (c : ascii) : bool := is_alnum c || one_of "-" c.

Lemma starts_with_app f s t : s ≠ "" → starts_with f (s +:+ t) = starts_with f s.
Proof. destruct s; [done|]. done. Qed.
Lemma ends_with_app f s t : t ≠ "" → ends_with f (s +:+ t) = ends_with f t.
Proof.
  intros Ht. unfold ends_with. rewrite chars_app, last_app.
  destruct t as [|c t]; [done|]. destruct (last (chars (String c t))) eqn:E; [done|].
  by apply last_None in E.
Qed.
Lemma string_forall_app f s t : string_forall f (s +:+ t) = string_forall f s && string_forall f t.
Proof. unfold string_forall. by rewrite chars_app, forallb_app. Qed.

(** A label of RFC 1035 is a label of RFC 1123. *)
Lemma rfc1035_is_rfc1123 l :
  rfc1035_label l → l ≠ "" ∧ dns1123_subdomain_label l = true.
Proof.
  assert (∀ c, is_lower c = true → is_alnum c = true) as Hlow
    by (intros c Hc; unfold is_alnum; by rewrite Hc).
  unfold dns1123_subdomain_label. intros [c Hc|c mid d Hc Hmid Hd]; (split; [done|]).
  - unfold starts_with, ends_with, string_forall. cbn. by rewrite !Hlow.
  - change (String c (mid +:+ String d "")) with (String c "" +:+ mid +:+ String d "").
    rewrite starts_with_app, ends_with_app, ends_with_app, !string_forall_app by (by destruct mid).
    unfold starts_with, ends_with, string_forall. cbn. rewrite Hlow, Hd by done. cbn.
    rewrite andb_true_r. apply forallb_forall. intros e He%list_elem_of_In.
    rewrite Forall_forall in Hmid. destruct (Hmid e He) as [->| ->]; [done|].
    by rewrite orb_true_r.
Qed.

Lemma joined_labels labels :
  labels ≠ [] → Forall rfc1035_label labels →
  join "." labels ≠ "" ∧ starts_with is_alnum (join "." labels) = true ∧
  ends_with is_alnum (join "." labels) = true ∧
  string_forall (λ c, label_char c || one_of "." c) (join "." labels) = true.
Proof.
  intros Hn HF. induction HF as [|l ls Hl HF IH]; [done|].
  destruct (rfc1035_is_rfc1123 l Hl) as [Hne Hlab]. unfold dns1123_subdomain_label in Hlab.
  rewrite !andb_true_iff in Hlab. destruct Hlab as [[Hs He] Hc].
  assert (string_forall (λ c, label_char c || one_of "." c) l = true) as Hc'.
  { unfold string_forall in *. rewrite forallb_forall in *. intros c Hin.
    unfold label_char. by rewrite (Hc c Hin). }
  destruct ls as [|l' ls]; [by split_and!|].
  destruct IH as (IHn & IHs & IHe & IHc); [done|].
  change (join "." (l :: l' :: ls)) with (l +:+ "." +:+ join "." (l' :: ls)).
  split_and!.
  - by destruct l.
  - by rewrite starts_with_app.
  - rewrite !ends_with_app; [done|done|by destruct (join "." (l' :: ls))].
  - rewrite !string_forall_app, Hc', IHc. done.
Qed.

Lemma is_alphanumeric_alnum c : is_alnum c = true → is_alphanumeric c = true.
Proof. unfold is_alnum, is_alphanumeric. rewrite !orb_true_iff. tauto. Qed.

Lemma string_forall_mono f g s :
  (∀ c, f c = true → g c = true) → string_forall f s = true → string_forall g s = true.
Proof. unfold string_forall. rewrite !forallb_forall. auto. Qed.

Lemma joined_driver_name labels :
  labels ≠ [] → Forall rfc1035_label labels → String.length (join "." labels) ≤ 63 →
  driver_name_valid (join "." labels) = true.
Proof.
  intros Hn HF Hlen. destruct (joined_labels labels Hn HF) as (Hne & Hs & He & Hc).
  unfold driver_name_valid, length_within. rewrite !andb_true_iff, !Nat.leb_le. split_and!.
  - destruct (join "." labels); [done|]. cbn. lia.
  - done.
  - revert Hs. unfold starts_with. destruct (chars _); [done|]. apply is_alphanumeric_alnum.
  - revert He. unfold ends_with. destruct (last _); [|done]. apply is_alphanumeric_alnum.
  - eapply string_forall_mono; [|exact Hc]. unfold label_char, one_of. cbn. intros c.
    rewrite !orb_true_iff. intros [[H|H]|H]; [left; by apply is_alphanumeric_alnum|tauto..].
Qed.

Lemma prefixed_lease_name labels :
  labels ≠ [] → Forall rfc1035_label labels → String.length (join "." labels) ≤ 63 →
  dns1123_subdomain ("cosi-sidecar-leader-" +:+ join "." labels) = true.
Proof.
  intros Hn HF Hlen. destruct labels as [|l ls]; [done|].
  apply Forall_cons in HF as [Hl HF].
  assert ("cosi-sidecar-leader-" +:+ join "." (l :: ls) =
          join "." (("cosi-sidecar-leader-" +:+ l) :: ls)) as Heq by (by destruct ls).
  destruct (rfc1035_is_rfc1123 l Hl) as [Hne Hlab].
  assert (dns1123_subdomain_label ("cosi-sidecar-leader-" +:+ l) = true) as Hlab'.
  { unfold dns1123_subdomain_label in *. rewrite !andb_true_iff in *.
    destruct Hlab as [[_ He] Hc]. rewrite ends_with_app, string_forall_app by done.
    split; [split; [done|exact He]|]. by rewrite Hc. }
  assert (∀ x, dns1123_subdomain_label x = true → dot_free x) as Hdot.
  { intros x Hx. unfold dns1123_subdomain_label in Hx. rewrite !andb_true_iff in Hx.
    by apply label_chars_dot_free, Hx. }
  unfold dns1123_subdomain, length_within. rewrite !andb_true_iff, !Nat.leb_le. split_and!.
  - rewrite <-length_chars, chars_app, length_app. cbn. lia.
  - rewrite <-length_chars, chars_app, length_app, (length_chars (join _ _)). cbn. cbn in Hlen. lia.
  - rewrite Heq, strings_Split_join; [|done|].
    + cbn [forallb]. rewrite Hlab'. apply forallb_forall. intros x Hx%list_elem_of_In.
      rewrite Forall_forall in HF. by apply rfc1035_is_rfc1123, HF.
    + apply Forall_cons. split; [by apply Hdot|]. eapply Forall_impl; [exact HF|]. apply label_dot_free.
Qed.

(** Names of drivers fit where they are used. A driver that the Sidecar accepts has a
    name that the API types allow as [driverName], so that classes and Buckets can refer to
    it, and the name of its leader-election lease is a valid resource name. *)
Theorem accepted_driver_name_usable info d :
  ValidateAndSetDriverConnectionInfo info = Ok d →
  driver_name_valid (driver_Name d) = true ∧
  dns1123_subdomain (sidecarLeaderElectionID d) = true.
Proof.
  unfold ValidateAndSetDriverConnectionInfo.
  destruct (validateDriverName _) eqn:Hv; [done|]. destruct (validateAndParseProtocols _); [|done].
  intros [= <-]. unfold sidecarLeaderElectionID. cbn [driver_Name].
  apply driver_name_valid_spec in Hv as (Hlen & labels & Hn & HF & Heq). rewrite Heq in *.
  split; [by apply joined_driver_name|by apply prefixed_lease_name].
Qed.

Lemma accepted_driver_name_usable_witness :
  driver_name_valid demo_driver_name = true ∧
  dns1123_subdomain (sidecarLeaderElectionID demo_driver_info) = true.
Proof.
  apply (accepted_driver_name_usable {| info_Name := demo_driver_name;
    info_SupportedProtocols := [{| proto_Type := ObjectProtocol_S3 |}] |} demo_driver_info).
  vm_compute. reflexivity.
Defined.

(** The converse fails: the API types allow driver names with capital letters, or with a
    digit in front, which no Sidecar accepts. *)
Example unusable_driver_name :
  driver_name_valid "S3.example.com" = true ∧ validateDriverName "S3.example.com" ≠ None.
Proof. split; [reflexivity|by vm_compute]. Qed.
