(* ===== verification/FakeGen.v ===== *)
(** * The generator of the fake clients

    Models [src/proto/hack/fake-gen/main.go], the protoc plugin that writes the fake clients
    of the driver protocol: the parameters, the services of the request, and the code it
    builds with the package [jennifer], as the sequence of calls on a statement. What jennifer
    prints for a file, the protobuf codec of the plugin's messages and the standard input are
    parameters. Output on the standard error is left out. *)

From Stdlib Require Import Ascii.
From stdpp Require Import base gmap strings list.
From S2P Require Import Prelude.

#[local] Set Warnings "-register-all".

(** ** The strings package *)

(** [strings.Split] with a separator of one byte: there is always a first piece. *)
Fixpoint Split (s : string) (sep : ascii) : list string :=
  match s with
  | EmptyString => [""]
  | String c s' =>
      if Ascii.eqb c sep then "" :: Split s' sep
      else
        match Split s' sep with
        | [] => [String c ""]
        | piece :: rest => String c piece :: rest
        end
  end.

(** [strings.Replace(s, old, new, -1)] for a non-empty [old]; [skip] bytes are left of a
    match. *)
Fixpoint replace_from (skip : nat) (s old new : string) : string :=
  match s with
  | EmptyString => ""
  | String c s' =>
      match skip with
      | S skip' => replace_from skip' s' old new
      | 0 =>
          if String.prefix old s then new +:+ replace_from (pred (String.length old)) s' old new
          else String c (replace_from 0 s' old new)
      end
  end.
Definition Replace (s old new : string) : string := replace_from 0 s old new.

(** ** The request and the response of a plugin *)

Record MethodDescriptorProto : Type := {
  mtd_Name : option string;
  mtd_InputType : option string;
  mtd_OutputType : option string
}.
Record ServiceDescriptorProto : Type := {
  svc_Name : option string;
  svc_Method : list MethodDescriptorProto
}.
Record FileDescriptorProto : Type := {
  file_Name : option string;
  file_Service : list ServiceDescriptorProto
}.
Record CodeGeneratorRequest : Type := {
  req_FileToGenerate : list string;
  req_Parameter : option string;
  req_ProtoFile : list FileDescriptorProto
}.
Record CodeGeneratorResponse_File : Type := {
  out_Name : string;
  out_Content : string
}.
Record CodeGeneratorResponse : Type := { resp_File : list CodeGeneratorResponse_File }.

(** ** jennifer *)

(** One call on a statement. *)
Inductive code : Type :=
| Id (name : string)
| Op (op : string)
| Qual (path name : string)
| Dot (name : string)
| Error_
| Type_
| Func
| Params (l : list (list code))
| List (l : list (list code))
| Struct (l : list (list code))
| Block (l : list (list code))
| Return (l : list (list code))
| Call (l : list (list code)).
Abbreviation Statement := (list code).

(** A file of a package, as the list of its statements. *)
Record File : Type := { file_Package : string; file_Statements : list Statement }.

(** ** The generator *)

Record Method : Type := {
  method_Name : string;
  method_Input : string;
  method_Output : string
}.
Record FakeService : Type := {
  fake_Name : string;
  fake_Methods : list Method
}.

(** A pointer that is nil, or an error that [main] does not handle. *)
Inductive panic : Type := NilDereference | Unhandled (err : string).
Definition deref {A} (p : option A) : result panic A :=
  match p with Some a => Ok a | None => Err NilDereference end.

Definition cleanInput (val : string) : string := List.last (Split val ".") "".

(** The loops of [getLocationMessage]. *)
Fixpoint fake_methods (l : list MethodDescriptorProto) : result panic (list Method) :=
  match l with
  | [] => Ok []
  | mtd :: l' =>
      match deref (mtd_Name mtd) with
      | Err e => Err e
      | Ok name =>
          let method := {| method_Name := name;
                           method_Input := match mtd_InputType mtd with Some t => cleanInput t | None => "" end;
                           method_Output := match mtd_OutputType mtd with Some t => cleanInput t | None => "" end |} in
          match fake_methods l' with Err e => Err e | Ok out => Ok (method :: out) end
      end
  end.
Fixpoint fake_services (l : list ServiceDescriptorProto) : result panic (list FakeService) :=
  match l with
  | [] => Ok []
  | svc :: l' =>
      match deref (svc_Name svc) with
      | Err e => Err e
      | Ok name =>
          match fake_methods (svc_Method svc) with
          | Err e => Err e
          | Ok methods =>
              match fake_services l' with
              | Err e => Err e
              | Ok out => Ok ({| fake_Name := name +:+ "Client"; fake_Methods := methods |} :: out)
              end
          end
      end
  end.
Fixpoint getLocationMessage_loop (l : list FileDescriptorProto) (ret : gmap string (list FakeService)) :
    result panic (gmap string (list FakeService)) :=
  match l with
  | [] => Ok ret
  | protoFile :: l' =>
      match deref (file_Name protoFile) with
      | Err e => Err e
      | Ok name =>
          match fake_services (file_Service protoFile) with
          | Err e => Err e
          | Ok fakeServices => getLocationMessage_loop l' (<[name := fakeServices]> ret)
          end
      end
  end.
Definition getLocationMessage (req : CodeGeneratorRequest) : result panic (gmap string (list FakeService)) :=
  getLocationMessage_loop (req_ProtoFile req) ∅.

(** The parameters and the results of the function of a method. *)
Definition fake_params (pkgPath : string) (mtd : Method) : list Statement :=
  [[Id "ctx"; Qual "context" "Context"];
   [Id "in"; Op "*"; Qual pkgPath (method_Input mtd)];
   [Id "opts"; Op "..."; Qual "google.golang.org/grpc" "CallOption"]].
Definition fake_results (pkgPath : string) (mtd : Method) : list Statement :=
  [[Op "*"; Qual pkgPath (method_Output mtd)]; [Error_]].

Definition fake_field (pkgPath : string) (mtd : Method) : Statement :=
  [Id ("Fake" +:+ method_Name mtd); Func; Params (fake_params pkgPath mtd); Op "(";
   List (fake_results pkgPath mtd); Op ")"].
Definition fake_method (pkgPath : string) (fakeSVC : FakeService) (mtd : Method) : Statement :=
  [Func; Params [[Id "f"; Id ("*Fake" +:+ fake_Name fakeSVC)]]; Id (method_Name mtd);
   Params (fake_params pkgPath mtd); Op "("; List (fake_results pkgPath mtd); Op ")";
   Block [[Return [[Id "f"; Dot ("Fake" +:+ method_Name mtd);
                    Call [[Id "ctx"]; [Id "in"]; [Id "opts"; Op "..."]]]]]]].

(** The statements for one service: the struct, then its methods. *)
Definition fake_service_code (pkgPath : string) (fakeSVC : FakeService) : list Statement :=
  [Type_; Id ("Fake" +:+ fake_Name fakeSVC); Struct (fake_field pkgPath <$> fake_Methods fakeSVC)]
    :: (fake_method pkgPath fakeSVC <$> fake_Methods fakeSVC).

Definition fake_file (pkgPath : string) (fakeSVC : list FakeService) : File :=
  {| file_Package := "fake"; file_Statements := flat_map (fake_service_code pkgPath) fakeSVC |}.

Section generator.
Context {Bytes : Type} (GoString : File → string).
Context (Unmarshal : Bytes → result string CodeGeneratorRequest).
Context (Marshal : CodeGeneratorResponse → result string Bytes).

(** The file that [CreateFakeFile] adds to the response. *)
Definition CreateFakeFile (Parameters : gmap string string) (filename : string)
    (fakeSVC : list FakeService) : CodeGeneratorResponse_File := {|
  out_Name := Replace filename ".proto" ".pb.fake.go";
  out_Content := GoString (fake_file (go_get Parameters "packagePath") fakeSVC) |}.

(** The loop over the map visits the files in the order [order] hints at. *)
Definition generateCode (order : list string) (Parameters : gmap string string)
    (req : CodeGeneratorRequest) : result panic CodeGeneratorResponse :=
  match getLocationMessage req with
  | Err e => Err e
  | Ok locations =>
      Ok {| resp_File := (λ fl, CreateFakeFile Parameters fl.1 fl.2) <$> map_order order locations |}
  end.

Definition parse_parameters (parameters : string) : gmap string string :=
  foldl (λ m element,
    match Split element "=" with
    | key :: value :: _ => <[key := value]> m
    | _ => m
    end) ∅ (Split parameters ",").

Definition main (order : list string) (stdin : result string Bytes) : result panic Bytes :=
  match stdin with
  | Err err => Err (Unhandled err)
  | Ok data =>
      match Unmarshal data with
      | Err err => Err (Unhandled err)
      | Ok req =>
          match generateCode order (parse_parameters (default "" (req_Parameter req))) req with
          | Err e => Err e
          | Ok resp =>
              match Marshal resp with
              | Err err => Err (Unhandled err)
              | Ok out => Ok out
              end
          end
      end
  end.
End generator.

(** ** Parameters *)

(** A text without the separators. *)
Definition free_of (c : ascii) (s : string) : Prop := Forall (λ x, x ≠ c) (String.list_ascii_of_string s).

Lemma Split_free s sep : free_of sep s → Split s sep = [s].
Proof.
  unfold free_of. induction s as [|c s IH]; cbn; [done|]. intros [Hc Hs]%Forall_cons.
  apply Ascii.eqb_neq in Hc as ->. by rewrite IH.
Qed.

Lemma Split_app s sep rest : free_of sep s → Split (s +:+ String sep rest) sep = s :: Split rest sep.
Proof.
  unfold free_of. induction s as [|c s IH]; simpl; [by rewrite Ascii.eqb_refl|].
  intros [Hc Hs]%Forall_cons. apply Ascii.eqb_neq in Hc as ->. by rewrite IH.
Qed.

Lemma Split_join sep l :
  l ≠ [] → (∀ s, s ∈ l → free_of sep s) → Split (join (String sep "") l) sep = l.
Proof.
  induction l as [|s [|s' l] IH]; intros Hne Hall; [done|..].
  - apply Split_free, Hall. by left.
  - change (join (String sep "") (s :: s' :: l)) with (s +:+ String sep (join (String sep "") (s' :: l))).
    rewrite Split_app by (apply Hall; by left). f_equal. apply IH; [done|]. intros x Hx. apply Hall. by right.
Qed.

Definition parameter (kv : string * string) : string := kv.1 +:+ String "=" kv.2.

(** Parameters that are written as [key=value] with commas between them are read back. *)
Lemma parse_parameters_join kvs :
  kvs ≠ [] → NoDup kvs.*1 →
  (∀ kv, kv ∈ kvs → free_of "," (parameter kv) ∧ free_of "=" kv.1 ∧ free_of "=" kv.2) →
  parse_parameters (join "," (parameter <$> kvs)) = list_to_map kvs.
Proof.
  intros Hne Hnd Hall. unfold parse_parameters. change "," with (String "," "").
  rewrite Split_join; [|by destruct kvs|].
  2: { intros s (kv & -> & Hin)%list_elem_of_fmap. by apply Hall. }
  clear Hne. assert (∀ m : gmap string string, foldl (λ m element,
      match Split element "=" with key :: value :: _ => <[key := value]> m | _ => m end)
      m (parameter <$> kvs) = list_to_map kvs ∪ m) as ->; [|by rewrite (right_id_L ∅ (∪))].
  induction kvs as [|kv kvs IH]; intros m; cbn; [by rewrite (left_id_L ∅ (∪))|].
  cbn in Hnd. apply NoDup_cons in Hnd as [Hni Hnd].
  destruct (Hall kv) as (_ & Hk & Hv); [by left|].
  unfold parameter at 1. rewrite Split_app, Split_free by done.
  rewrite IH; [|done|intros kv' Hin; apply Hall; by right].
  destruct kv as [k v]. cbn in *. rewrite <-insert_union_r, insert_union_l; [done|]. by apply not_elem_of_list_to_map.
Qed.

(** ** The services *)

Definition method_for (mtd : MethodDescriptorProto) (m : Method) : Prop :=
  mtd_Name mtd = Some (method_Name m) ∧
  (∀ t, mtd_InputType mtd = Some t → method_Input m = cleanInput t) ∧
  (∀ t, mtd_OutputType mtd = Some t → method_Output m = cleanInput t).
Definition service_for (svc : ServiceDescriptorProto) (s : FakeService) : Prop :=
  ∃ name, svc_Name svc = Some name ∧ fake_Name s = name +:+ "Client" ∧
    Forall2 method_for (svc_Method svc) (fake_Methods s).

(** Everything has a name. *)
Definition methods_named (l : list MethodDescriptorProto) : bool :=
  forallb (λ mtd, bool_decide (is_Some (mtd_Name mtd))) l.
Definition services_named (l : list ServiceDescriptorProto) : bool :=
  forallb (λ svc, bool_decide (is_Some (svc_Name svc)) && methods_named (svc_Method svc)) l.
Definition named (req : CodeGeneratorRequest) : bool :=
  forallb (λ f, bool_decide (is_Some (file_Name f)) && services_named (file_Service f)) (req_ProtoFile req).

Lemma fake_methods_cases l :
  (methods_named l = true ∧ ∃ ms, fake_methods l = Ok ms ∧ Forall2 method_for l ms) ∨
  (methods_named l = false ∧ fake_methods l = Err NilDereference).
Proof.
  unfold methods_named. induction l as [|mtd l IH]; cbn; [left; eauto|].
  destruct (mtd_Name mtd) as [name|] eqn:En; cbn; [|by right].
  destruct IH as [(Hn & ms & -> & HF)|[Hn ->]]; rewrite Hn; [|by right]. left. split; [done|].
  eexists. split; [done|]. constructor; [|done]. unfold method_for. cbn.
  split; [done|]. by split; intros t ->.
Qed.

Lemma fake_services_cases l :
  (services_named l = true ∧ ∃ ss, fake_services l = Ok ss ∧ Forall2 service_for l ss) ∨
  (services_named l = false ∧ fake_services l = Err NilDereference).
Proof.
  unfold services_named. induction l as [|svc l IH]; cbn; [left; eauto|].
  destruct (svc_Name svc) as [name|] eqn:En; cbn; [|by right].
  destruct (fake_methods_cases (svc_Method svc)) as [(Hm & ms & -> & HM)|[Hm ->]]; rewrite Hm; cbn; [|by right].
  destruct IH as [(Hn & ss & -> & HF)|[Hn ->]]; rewrite Hn; [|by right]. left. split; [done|].
  eexists. split; [done|]. constructor; [|done]. by exists name.
Qed.

(** The services of a file in the map. *)
Definition located (m : gmap string (list FakeService)) (f : FileDescriptorProto) : Prop :=
  ∃ name ss, file_Name f = Some name ∧ m !! name = Some ss ∧ Forall2 service_for (file_Service f) ss.

Definition file_names (l : list FileDescriptorProto) : list string :=
  (λ f, default "" (file_Name f)) <$> l.

Lemma getLocationMessage_loop_cases l ret :
  NoDup (file_names l) →
  let ok := forallb (λ f, bool_decide (is_Some (file_Name f)) && services_named (file_Service f)) l in
  (ok = true ∧ ∃ m, getLocationMessage_loop l ret = Ok m ∧ (∀ f, f ∈ l → located m f) ∧
     ∀ n, n ∉ file_names l → m !! n = ret !! n) ∨
  (ok = false ∧ getLocationMessage_loop l ret = Err NilDereference).
Proof.
  revert ret. induction l as [|f l IH]; intros ret Hnd; cbn.
  { left. split; [done|]. exists ret. split; [done|]. split; [by intros f ?%elem_of_nil|done]. }
  cbn in Hnd. apply NoDup_cons in Hnd as [Hni Hnd].
  destruct (file_Name f) as [name|] eqn:En; cbn; [|by right].
  destruct (fake_services_cases (file_Service f)) as [(Hs & ss & -> & HS)|[Hs ->]]; rewrite Hs; cbn; [|by right].
  destruct (IH (<[name := ss]> ret) Hnd) as [(Hok & m & Hm & Hloc & Hout)|[Hok Hm]]; [left|right; by split].
  split; [done|]. exists m. split; [done|]. cbn in Hni. split.
  - intros f' [->|Hin]%elem_of_cons; [|by apply Hloc]. exists name, ss. split; [done|]. split; [|done].
    by rewrite Hout, lookup_insert_eq.
  - intros n [Hne Hn]%not_elem_of_cons. by rewrite Hout, lookup_insert_ne.
Qed.

(** ** What the generated code does *)

(** The function field that a method forwards to: a statement of the form
[[
func (f *T) m(ctx C, in I, opts ...O) (R) { return f.field(ctx, in, opts...) }
]]
    hands its arguments, unchanged, to the field. *)
Definition forwards_to (T m : string) (st : Statement) : option string :=
  match st with
  | [Func; Params [[Id f; Id t]]; Id name; Params ps; Op open; List _; Op close;
     Block [[Return [[Id f'; Dot field; Call [[Id a1]; [Id a2]; [Id a3; Op dots]]]]]]] =>
      if bool_decide (t = "*" +:+ T) && bool_decide (name = m) && bool_decide (f' = f) &&
         bool_decide (open = "(" ∧ close = ")" ∧ dots = "...") &&
         match ps with
         | [Id p1 :: _; Id p2 :: _; Id p3 :: Op dots' :: _] =>
             bool_decide (p1 = a1 ∧ p2 = a2 ∧ p3 = a3 ∧ dots' = "...")
         | _ => false
         end
      then Some field else None
  | _ => None
  end.

(** A call of the method [m] on a fake of type [T], whose function fields are [fake]. *)
Definition call_fake {F} (file : File) (T m : string) (fake : string → F) : option F :=
  fake <$> head (omap (forwards_to T m) (file_Statements file)).

(** The struct [T] has the function field [field], and [T] the method [m], of one type: from
    [in] to [out] of the package at [pkgPath]. *)
Definition declares_field (file : File) (pkgPath T field inp out : string) : Prop :=
  ∃ l, [Type_; Id T; Struct l] ∈ file_Statements file ∧
    let mtd := {| method_Name := ""; method_Input := inp; method_Output := out |} in
    [Id field; Func; Params (fake_params pkgPath mtd); Op "("; List (fake_results pkgPath mtd); Op ")"] ∈ l.
Definition declares_method (file : File) (pkgPath T m inp out : string) : Prop :=
  ∃ recv body, let mtd := {| method_Name := ""; method_Input := inp; method_Output := out |} in
    [Func; Params [[Id recv; Id ("*" +:+ T)]]; Id m; Params (fake_params pkgPath mtd); Op "(";
     List (fake_results pkgPath mtd); Op ")"; body] ∈ file_Statements file.

(** The fake of a service: each of its methods has a field and a method of its type, and a
    call of the method is a call of the field. *)
Definition fakes_service (file : File) (pkgPath : string) (svc : ServiceDescriptorProto) : Prop :=
  ∃ name, svc_Name svc = Some name ∧
    let T := "Fake" +:+ name +:+ "Client" in
    ∀ mtd, mtd ∈ svc_Method svc → ∃ m inp out, mtd_Name mtd = Some m ∧
      (∀ t, mtd_InputType mtd = Some t → inp = cleanInput t) ∧
      (∀ t, mtd_OutputType mtd = Some t → out = cleanInput t) ∧
      declares_field file pkgPath T ("Fake" +:+ m) inp out ∧ declares_method file pkgPath T m inp out ∧
      ∀ (F : Type) (fake : string → F), call_fake file T m fake = Some (fake ("Fake" +:+ m)).

Lemma in_fake_file pkgPath l svc st :
  svc ∈ l → st ∈ fake_service_code pkgPath svc → st ∈ file_Statements (fake_file pkgPath l).
Proof. intros Hsvc Hst. apply list_elem_of_In, in_flat_map. exists svc. by rewrite <-!list_elem_of_In. Qed.

Lemma forwards_in_file pkgPath l T m st field :
  st ∈ file_Statements (fake_file pkgPath l) → forwards_to T m st = Some field → field = "Fake" +:+ m.
Proof.
  intros (svc & _ & Hst)%list_elem_of_In%in_flat_map. apply list_elem_of_In in Hst.
  apply elem_of_cons in Hst as [->|(mtd & -> & _)%list_elem_of_fmap]; [done|].
  unfold forwards_to, fake_method. case_match eqn:E; [|done]. intros [= <-].
  apply andb_true_iff in E as [[[[_ ->%bool_decide_eq_true]%andb_true_iff _]%andb_true_iff _]%andb_true_iff _]. done.
Qed.

Lemma forwards_fake_method pkgPath svc mtd :
  forwards_to ("Fake" +:+ fake_Name svc) (method_Name mtd) (fake_method pkgPath svc mtd) =
    Some ("Fake" +:+ method_Name mtd).
Proof. unfold forwards_to, fake_method, fake_params. by rewrite !bool_decide_eq_true_2. Qed.

Lemma call_fake_file pkgPath l svc mtd F (fake : string → F) :
  svc ∈ l → mtd ∈ fake_Methods svc →
  call_fake (fake_file pkgPath l) ("Fake" +:+ fake_Name svc) (method_Name mtd) fake =
    Some (fake ("Fake" +:+ method_Name mtd)).
Proof.
  intros Hsvc Hmtd. unfold call_fake.
  assert ("Fake" +:+ method_Name mtd ∈ omap (forwards_to ("Fake" +:+ fake_Name svc) (method_Name mtd))
            (file_Statements (fake_file pkgPath l))) as Hin.
  { apply list_elem_of_omap. exists (fake_method pkgPath svc mtd). split; [|apply forwards_fake_method].
    eapply in_fake_file; [done|]. right. apply list_elem_of_fmap. by exists mtd. }
  destruct (omap _ _) as [|field rest] eqn:E; [by apply elem_of_nil in Hin|]. cbn. do 2 f_equal.
  assert (field ∈ field :: rest) as Hf by by left. rewrite <-E in Hf.
  apply list_elem_of_omap in Hf as (st & Hst & Hfw). by eapply forwards_in_file.
Qed.

Lemma fakes_services pkgPath svcs l svc :
  Forall2 service_for svcs l → svc ∈ svcs → fakes_service (fake_file pkgPath l) pkgPath svc.
Proof.
  intros HF [i Hi]%list_elem_of_lookup. destruct (Forall2_lookup_l _ _ _ _ _ HF Hi) as (s & Hs & Hfor).
  apply list_elem_of_lookup_2 in Hs. destruct Hfor as (name & Hn & Hfn & HM). exists name. split; [done|].
  cbn zeta. rewrite <-Hfn. intros mtd [j Hj]%list_elem_of_lookup.
  destruct (Forall2_lookup_l _ _ _ _ _ HM Hj) as (m & Hm & (Hmn & Hin & Hout)). apply list_elem_of_lookup_2 in Hm.
  exists (method_Name m), (method_Input m), (method_Output m). split; [done|]. split; [done|]. split; [done|].
  split; [|split].
  - eexists. split; [eapply in_fake_file; [exact Hs|by left]|]. apply list_elem_of_fmap. by exists m.
  - eexists "f", _. eapply in_fake_file; [exact Hs|]. right. apply list_elem_of_fmap. by exists m.
  - intros F fake. by apply call_fake_file.
Qed.

(** C39: Generated fakes. For a request whose proto files have different names, the generator
    fails exactly when a file, a service or a method has no name (it dereferences a nil
    pointer); otherwise the response has one file for each proto file of the request, the
    imported ones included, in an order that is not fixed, and its code declares for every
    method of every service a function field and a method of the same type, such that a call
    of the method is a call of the field with the same arguments. *)
Theorem fakes_forward GoString order params req :
  NoDup (file_names (req_ProtoFile req)) →
  (named req = false ∧ generateCode GoString order params req = Err NilDereference) ∨
  named req = true ∧ ∃ resp, generateCode GoString order params req = Ok resp ∧
    (out_Name <$> resp_File resp) ≡ₚ
      ((λ n, Replace n ".proto" ".pb.fake.go") <$> file_names (req_ProtoFile req)) ∧
    ∀ f, f ∈ req_ProtoFile req → ∃ out file, out ∈ resp_File resp ∧
      out_Name out = Replace (default "" (file_Name f)) ".proto" ".pb.fake.go" ∧
      out_Content out = GoString file ∧
      ∀ svc, svc ∈ file_Service f → fakes_service file (go_get params "packagePath") svc.
Proof.
  intros Hnd. unfold generateCode, getLocationMessage.
  destruct (getLocationMessage_loop_cases (req_ProtoFile req) ∅ Hnd) as [(Hok & m & -> & Hloc & Hout)|[Hok ->]];
    [right|by left]. split; [done|]. eexists. split; [done|]. cbn [resp_File]. split.
  - rewrite <-list_fmap_compose. change (out_Name ∘ _) with
      ((λ n, Replace n ".proto" ".pb.fake.go") ∘ fst (A := string) (B := list FakeService)).
    rewrite list_fmap_compose. apply fmap_Permutation, NoDup_Permutation; [apply map_order_NoDup|done|].
    intros n. split.
    + intros [ss Hss]%elem_of_map_order_keys. destruct (decide (n ∈ file_names (req_ProtoFile req))); [done|].
      rewrite Hout, lookup_empty in Hss by done. done.
    + intros (f & -> & Hf)%list_elem_of_fmap. destruct (Hloc f Hf) as (name & ss & -> & Hss & _).
      apply list_elem_of_fmap. exists (name, ss). split; [done|]. by apply elem_of_map_order.
  - intros f Hf. destruct (Hloc f Hf) as (name & ss & -> & Hss & HF).
    eexists _, _. split; [apply list_elem_of_fmap; exists (name, ss); split; [done|by apply elem_of_map_order]|].
    split; [done|]. split; [done|]. intros svc Hsvc. by eapply fakes_services.
Qed.

(** The request that protoc makes for the driver protocol: its file, and the file it imports. *)
Definition rpc (name : string) : MethodDescriptorProto := {|
  mtd_Name := Some name;
  mtd_InputType := Some (".sigs.k8s.io.cosi.v1alpha2." +:+ name +:+ "Request");
  mtd_OutputType := Some (".sigs.k8s.io.cosi.v1alpha2." +:+ name +:+ "Response") |}.
Definition cosi_request : CodeGeneratorRequest := {|
  req_FileToGenerate := ["cosi.proto"];
  req_Parameter := Some "package=cosi,packagePath=sigs.k8s.io/container-object-storage-interface/proto";
  req_ProtoFile := [
    {| file_Name := Some "google/protobuf/descriptor.proto"; file_Service := [] |};
    {| file_Name := Some "cosi.proto";
       file_Service := [
         {| svc_Name := Some "Identity"; svc_Method := [rpc "DriverGetInfo"] |};
         {| svc_Name := Some "Provisioner";
            svc_Method := rpc <$> ["DriverCreateBucket"; "DriverGetExistingBucket"; "DriverDeleteBucket";
                                   "DriverGrantBucketAccess"; "DriverRevokeBucketAccess"] |}] |}] |}.

(** The names of the files that are generated for the driver protocol. *)
Lemma fakes_forward_witness :
  ∃ resp, generateCode (λ _, "") [] (parse_parameters (default "" (req_Parameter cosi_request))) cosi_request = Ok resp ∧
    (out_Name <$> resp_File resp) ≡ₚ ["google/protobuf/descriptor.pb.fake.go"; "cosi.pb.fake.go"].
Proof.
  destruct (fakes_forward (λ _, "") [] (parse_parameters (default "" (req_Parameter cosi_request))) cosi_request)
    as [[Hn _]|(_ & resp & Hresp & Hnames & _)].
  - apply (bool_decide_unpack _). by vm_compute.
  - by vm_compute in Hn.
  - exists resp. split; [exact Hresp|]. exact Hnames.
Defined.
