(* ===== verification/CosiFake.v ===== *)
(** * The fakes and the names of the driver protocol

    Models [src/proto/fake/cosi.pb.fake.go], the generated fakes that are checked in, as the
    statements of the file and as the Go code they are; and compares everything that is generated
    from the driver protocol, by different generators, with its raw descriptor: the descriptors of
    the codecs, the service descriptors of gRPC, and the fakes. *)

From stdpp Require Import base gmap strings list.
From S2P Require Import Prelude GoErrors ProtoTypes ProtoDesc ProtoWire CosiDesc CosiRaw Grpc CosiGrpc FakeGen.

(** ** The file *)

Definition protoPath : string := "sigs.k8s.io/container-object-storage-interface/proto".

(** The parameters and the results of a method. *)
Definition signature (req resp : string) : Statement :=
  [Params [[Id "ctx"; Qual "context" "Context"];
           [Id "in"; Op "*"; Qual protoPath req];
           [Id "opts"; Op "..."; Qual "google.golang.org/grpc" "CallOption"]];
   Op "("; List [[Op "*"; Qual protoPath resp]; [Error_]]; Op ")"].

Definition cosi_pb_fake : File := {|
  file_Package := "fake";
  file_Statements := [
   [Type_; Id "FakeIdentityClient"; Struct [
      Id "FakeDriverGetInfo" :: Func :: signature "DriverGetInfoRequest" "DriverGetInfoResponse"]];
   [Func; Params [[Id "f"; Id "*FakeIdentityClient"]]; Id "DriverGetInfo"] ++ signature "DriverGetInfoRequest" "DriverGetInfoResponse" ++
     [Block [[Return [[Id "f"; Dot "FakeDriverGetInfo"; Call [[Id "ctx"]; [Id "in"]; [Id "opts"; Op "..."]]]]]]];
   [Type_; Id "FakeProvisionerClient"; Struct [
      Id "FakeDriverCreateBucket" :: Func :: signature "DriverCreateBucketRequest" "DriverCreateBucketResponse";
      Id "FakeDriverGetExistingBucket" :: Func :: signature "DriverGetExistingBucketRequest" "DriverGetExistingBucketResponse";
      Id "FakeDriverDeleteBucket" :: Func :: signature "DriverDeleteBucketRequest" "DriverDeleteBucketResponse";
      Id "FakeDriverGrantBucketAccess" :: Func :: signature "DriverGrantBucketAccessRequest" "DriverGrantBucketAccessResponse";
      Id "FakeDriverRevokeBucketAccess" :: Func :: signature "DriverRevokeBucketAccessRequest" "DriverRevokeBucketAccessResponse"]];
   [Func; Params [[Id "f"; Id "*FakeProvisionerClient"]]; Id "DriverCreateBucket"] ++ signature "DriverCreateBucketRequest" "DriverCreateBucketResponse" ++
     [Block [[Return [[Id "f"; Dot "FakeDriverCreateBucket"; Call [[Id "ctx"]; [Id "in"]; [Id "opts"; Op "..."]]]]]]];
   [Func; Params [[Id "f"; Id "*FakeProvisionerClient"]]; Id "DriverGetExistingBucket"] ++ signature "DriverGetExistingBucketRequest" "DriverGetExistingBucketResponse" ++
     [Block [[Return [[Id "f"; Dot "FakeDriverGetExistingBucket"; Call [[Id "ctx"]; [Id "in"]; [Id "opts"; Op "..."]]]]]]];
   [Func; Params [[Id "f"; Id "*FakeProvisionerClient"]]; Id "DriverDeleteBucket"] ++ signature "DriverDeleteBucketRequest" "DriverDeleteBucketResponse" ++
     [Block [[Return [[Id "f"; Dot "FakeDriverDeleteBucket"; Call [[Id "ctx"]; [Id "in"]; [Id "opts"; Op "..."]]]]]]];
   [Func; Params [[Id "f"; Id "*FakeProvisionerClient"]]; Id "DriverGrantBucketAccess"] ++ signature "DriverGrantBucketAccessRequest" "DriverGrantBucketAccessResponse" ++
     [Block [[Return [[Id "f"; Dot "FakeDriverGrantBucketAccess"; Call [[Id "ctx"]; [Id "in"]; [Id "opts"; Op "..."]]]]]]];
   [Func; Params [[Id "f"; Id "*FakeProvisionerClient"]]; Id "DriverRevokeBucketAccess"] ++ signature "DriverRevokeBucketAccessRequest" "DriverRevokeBucketAccessResponse" ++
     [Block [[Return [[Id "f"; Dot "FakeDriverRevokeBucketAccess"; Call [[Id "ctx"]; [Id "in"]; [Id "opts"; Op "..."]]]]]]]] |}.

(** ** The fakes as clients *)

(** The function fields; a field that is not set is nil, and calling it panics ([None]). *)
Section fakes.
Context {St : Type}.
Definition fake_func (Req Resp : Type) : Type := option (Req → St → result rpc_error Resp * St).
Record FakeIdentityClient : Type := {
  FakeDriverGetInfo : fake_func DriverGetInfoRequest DriverGetInfoResponse
}.
Record FakeProvisionerClient : Type := {
  FakeDriverCreateBucket : fake_func DriverCreateBucketRequest DriverCreateBucketResponse;
  FakeDriverGetExistingBucket : fake_func DriverGetExistingBucketRequest DriverGetExistingBucketResponse;
  FakeDriverDeleteBucket : fake_func DriverDeleteBucketRequest DriverDeleteBucketResponse;
  FakeDriverGrantBucketAccess : fake_func DriverGrantBucketAccessRequest DriverGrantBucketAccessResponse;
  FakeDriverRevokeBucketAccess : fake_func DriverRevokeBucketAccessRequest DriverRevokeBucketAccessResponse
}.
Definition call_func {Req Resp} (f : fake_func Req Resp) (in_ : Req) (st : St) :
    option (result rpc_error Resp * St) :=
  match f with Some f => Some (f in_ st) | None => None end.

Definition FakeIdentityClient_DriverGetInfo (f : FakeIdentityClient) (in_ : DriverGetInfoRequest) (st : St) :=
  call_func (FakeDriverGetInfo f) in_ st.
Definition FakeProvisionerClient_DriverCreateBucket (f : FakeProvisionerClient) (in_ : DriverCreateBucketRequest) (st : St) :=
  call_func (FakeDriverCreateBucket f) in_ st.
Definition FakeProvisionerClient_DriverGetExistingBucket (f : FakeProvisionerClient) (in_ : DriverGetExistingBucketRequest) (st : St) :=
  call_func (FakeDriverGetExistingBucket f) in_ st.
Definition FakeProvisionerClient_DriverDeleteBucket (f : FakeProvisionerClient) (in_ : DriverDeleteBucketRequest) (st : St) :=
  call_func (FakeDriverDeleteBucket f) in_ st.
Definition FakeProvisionerClient_DriverGrantBucketAccess (f : FakeProvisionerClient) (in_ : DriverGrantBucketAccessRequest) (st : St) :=
  call_func (FakeDriverGrantBucketAccess f) in_ st.
Definition FakeProvisionerClient_DriverRevokeBucketAccess (f : FakeProvisionerClient) (in_ : DriverRevokeBucketAccessRequest) (st : St) :=
  call_func (FakeDriverRevokeBucketAccess f) in_ st.
End fakes.

(** ** What the generators were given *)

(** The services of the raw descriptor, as the generator of the fakes reads them. *)
Definition method_descriptor (m : string * string * string) : MethodDescriptorProto :=
  let '(name, i, o) := m in
  {| mtd_Name := Some name; mtd_InputType := Some i; mtd_OutputType := Some o |}.
Definition service_descriptor (s : string * list (string * string * string)) : ServiceDescriptorProto :=
  {| svc_Name := Some (cleanInput s.1); svc_Method := method_descriptor <$> s.2 |}.

(** The services with their methods, and the paths of the calls, by the raw descriptor. *)
Definition raw_service_names : list (string * list string) :=
  (λ s : string * list (string * string * string), (s.1, (λ m : string * string * string, m.1.1) <$> s.2))
    <$> raw_Services cosi_file.
Definition raw_paths : list string :=
  flat_map (λ s : string * list string, (λ m : string, "/" +:+ s.1 +:+ "/" +:+ m) <$> s.2) raw_service_names.

(** The same by the generated code. *)
Definition service_names (St : Type) : list (string * list string) :=
  (λ sd : ServiceDesc (St := St) (Any := any_message) (Srv := any_server (St := St)),
     (ServiceName sd, MethodName <$> Methods sd)) <$> [Identity_ServiceDesc; Provisioner_ServiceDesc].

Definition full_method_names : list string :=
  [Identity_DriverGetInfo_FullMethodName; Provisioner_DriverCreateBucket_FullMethodName; Provisioner_DriverGetExistingBucket_FullMethodName; Provisioner_DriverDeleteBucket_FullMethodName; Provisioner_DriverGrantBucketAccess_FullMethodName; Provisioner_DriverRevokeBucketAccess_FullMethodName].

Lemma raw_services (St : Type) :
  service_names St = raw_service_names.
Proof. vm_compute. reflexivity. Qed.
Lemma raw_full_names :
  full_method_names = raw_paths.
Proof. vm_compute. reflexivity. Qed.
Definition raw_fake_services : list FakeService :=
  match fake_services (service_descriptor <$> raw_Services cosi_file) with Ok l => l | Err _ => [] end.
Lemma raw_fakes :
  fake_services (service_descriptor <$> raw_Services cosi_file) = Ok raw_fake_services ∧
  fake_file protoPath raw_fake_services = cosi_pb_fake.
Proof. split; vm_compute; reflexivity. Qed.

(** C38: One protocol. The raw descriptor in [cosi.pb.go] decodes, and what the other generators
    made of the protocol agrees with it. It declares the 27 messages, and no others but the
    entries of maps, with exactly the names, numbers and types of fields that the JSON codec and
    the wire codec of the development use, and the JSON names that the JSON codec computes. The
    service descriptors and the full method names of [cosi_grpc.pb.go] name its services and
    methods, in its order, and the fakes that are checked in are what the generator of the fakes
    produces for it. *)
Theorem one_protocol :
  File_cosi_proto = Ok cosi_file ∧
  (∀ name fs, (name, fs) ∈ messages → resolve 5 cosi_file (full_name name) = Some fs) ∧
  (List.filter (λ m, negb (raw_MapEntry m.2)) (raw_Messages cosi_file)).*1 =
    (λ nf, full_name nf.1) <$> messages ∧
  (∀ m f, m ∈ raw_Messages cosi_file → f ∈ raw_Fields m.2 → raw_JsonName f = JSONCamelCase (raw_Name f)) ∧
  (∀ St, service_names St = raw_service_names) ∧
  full_method_names = raw_paths ∧
  ∃ l, fake_services (service_descriptor <$> raw_Services cosi_file) = Ok l ∧ fake_file protoPath l = cosi_pb_fake.
Proof.
  split; [exact raw_decodes|]. split; [exact raw_fields|]. split; [exact raw_messages_all|].
  split; [|split; [exact raw_services|split; [exact raw_full_names|]]].
  - exact raw_json_name.
  - exact (ex_intro _ raw_fake_services raw_fakes).
Qed.
