(* ===== verification/AccessController.v ===== *)
(** * The BucketAccess reconciler of the COSI Controller

    Models [src/controller/pkg/reconciler/bucketaccess.go]. A
    [map[string]*cosiapi.BucketClaim] is a [gmap string (option BucketClaim)], with [None]
    for the nil that stands for a claim that does not exist yet. The claims in the map are
    shared: marking a claim changes the entry that the later steps read, so the marking
    loop returns the map. A range loop over a map asks the environment for its order. *)

From stdpp Require Import base gmap strings list.
From S2P Require Import Prelude GoErrors ApiTypes ProtoTypes Effects ApiServer Ownership.

Abbreviation claims_map := (gmap string (option BucketClaim)).
Abbreviation buckets_map := (gmap string (option Bucket)).

(** ** References to BucketClaims *)

(** The loop of [validateAllBucketClaimReferencesUnique]. *)
Fixpoint count_references (claimAccesses : list BucketClaimAccess)
    (claimCounts : gmap string Z) (doErr : bool) : gmap string Z * bool :=
  match claimAccesses with
  | [] => (claimCounts, doErr)
  | ref :: rest =>
      let name := claimAccess_BucketClaimName ref in
      match claimCounts !! name with
      | None => count_references rest (<[name := 1%Z]> claimCounts) doErr
      | Some count => count_references rest (<[name := (count + 1)%Z]> claimCounts) true
      end
  end.

Definition validateAllBucketClaimReferencesUnique (claimAccesses : list BucketClaimAccess) :
    option error :=
  let '(claimCounts, doErr) := count_references claimAccesses ∅ false in
  if doErr
  then Some (NonRetryable (Errorf
         ("one or more BucketClaims are referenced multiple times, with reference counts: " +:+
          fmt_map fmt_int claimCounts)))
  else None.

Fixpoint getAllBucketClaims_loop (namespace : string) (claimAccesses : list BucketClaimAccess)
    (claims : claims_map) (errs : list error) : prog (claims_map * list error) :=
  match claimAccesses with
  | [] => Ret (claims, errs)
  | ref :: rest =>
      let name := claimAccess_BucketClaimName ref in
      rclaim ← api (perform (GetClaim {| nn_Namespace := namespace; nn_Name := name |}));
      match rclaim with
      | Err err =>
          if IsNotFound err
          then getAllBucketClaims_loop namespace rest (<[name := None]> claims) errs
          else getAllBucketClaims_loop namespace rest claims (errs ++ [err])
      | Ok c => getAllBucketClaims_loop namespace rest (<[name := Some c]> claims) errs
      end
  end.

Definition getAllBucketClaims (namespace : string) (claimAccesses : list BucketClaimAccess) :
    prog (result error claims_map) :=
  '(claims, errs) ← getAllBucketClaims_loop namespace claimAccesses ∅ [];
  match report "could not get one or more BucketClaims" errs with
  | Some err => Ret (Err err)
  | None => Ret (Ok claims)
  end.

(** ** Marking claims *)

Fixpoint mark_loop (entries : list (string * option BucketClaim))
    (claimsByName : claims_map) (errs : list error) : prog (claims_map * list error) :=
  match entries with
  | [] => Ret (claimsByName, errs)
  | (_, None) :: rest => mark_loop rest claimsByName errs
  | (name, Some claim) :: rest =>
      if has_annotation HasBucketAccessReferencesAnnotation claim
      then mark_loop rest claimsByName errs
      else
        let claim := set_annotation HasBucketAccessReferencesAnnotation "" claim in
        rupd ← api (perform (UpdateClaim claim));
        match rupd with
        | Err err => mark_loop rest (<[name := Some claim]> claimsByName) (errs ++ [err])
        | Ok claim => mark_loop rest (<[name := Some claim]> claimsByName) errs
        end
  end.

Definition markAllBucketClaimsAsAccessed (claimsByName : claims_map) :
    prog (result error claims_map) :=
  order ← map_iteration;
  '(claimsByName, errs) ← mark_loop (map_order order claimsByName) claimsByName [];
  match report "failed to mark one or more BucketClaims as having a BucketAccess reference" errs with
  | Some err => Ret (Err err)
  | None => Ret (Ok claimsByName)
  end.

Definition hasBucketAccessReferences (claimName : string) (accesses : list BucketAccess)
    (ignoreReferenceFromAccessName : string) : bool :=
  existsb (λ access,
    if GetName access =s ignoreReferenceFromAccessName then false
    else existsb (λ ref, claimAccess_BucketClaimName ref =s claimName)
           (accessSpec_BucketClaims (access_Spec access)))
    accesses.

Fixpoint unmark_loop (entries : list (string * option BucketClaim))
    (accesses : list BucketAccess) (ignoreReferenceFromAccessName : string)
    (unmarked : list string) (errs : list error) : prog (list string * list error) :=
  match entries with
  | [] => Ret (unmarked, errs)
  | (_, None) :: rest =>
      unmark_loop rest accesses ignoreReferenceFromAccessName unmarked errs
  | (_, Some claim) :: rest =>
      if negb (has_annotation HasBucketAccessReferencesAnnotation claim)
      then unmark_loop rest accesses ignoreReferenceFromAccessName unmarked errs
      else if hasBucketAccessReferences (GetName claim) accesses ignoreReferenceFromAccessName
      then unmark_loop rest accesses ignoreReferenceFromAccessName unmarked errs
      else
        let unmarked := unmarked ++ [GetName claim] in
        rupd ← api (perform (UpdateClaim
                 (delete_annotation HasBucketAccessReferencesAnnotation claim)));
        match rupd with
        | Err err =>
            unmark_loop rest accesses ignoreReferenceFromAccessName unmarked (errs ++ [err])
        | Ok _ => unmark_loop rest accesses ignoreReferenceFromAccessName unmarked errs
        end
  end.

Definition unmarkUnaccessedBucketClaims (claimsByName : claims_map)
    (accesses : list BucketAccess) (ignoreReferenceFromAccessName : string) :
    prog (list string * option error) :=
  order ← map_iteration;
  '(unmarked, errs) ←
    unmark_loop (map_order order claimsByName) accesses ignoreReferenceFromAccessName [] [];
  Ret (unmarked,
       report "failed to unmark one or more BucketClaims without referencing BucketAccesses" errs).

(** ** Checks before initialisation *)

Definition ValidateAccessAgainstClass (class : BucketAccessClassSpec) (access : BucketAccessSpec) :
    option error :=
  let needServiceAccount :=
    accessClassSpec_AuthenticationType class =s BucketAccessAuthenticationTypeServiceAccount in
  let errs :=
    when_err (needServiceAccount && (accessSpec_ServiceAccountName access =s ""))
      (Errorf "serviceAccountName must be specified") ++
    when_err (negb (SupportsMultiBucketAccess class) &&
              (1 <? length (accessSpec_BucketClaims access)))
      (Errorf "multi-bucket access is disallowed") ++
    flat_map (λ claimRef,
      when_err (slices_Contains (accessClassSpec_DisallowedBucketAccessModes class)
                  (claimAccess_AccessMode claimRef))
        (Errorf ("accessMode " +:+ quote (claimAccess_AccessMode claimRef) +:+
                 " requested for BucketClaim " +:+ quote (claimAccess_BucketClaimName claimRef) +:+
                 " is disallowed")))
      (accessSpec_BucketClaims access) in
  report "one or more features are disallowed by the BucketAccessClass" errs.

Fixpoint getBuckets_loop (entries : list (string * option BucketClaim))
    (bucketsByClaimName : buckets_map) (errs : list error) : prog (buckets_map * list error) :=
  match entries with
  | [] => Ret (bucketsByClaimName, errs)
  | (claimName, None) :: rest =>
      getBuckets_loop rest (<[claimName := None]> bucketsByClaimName) errs
  | (claimName, Some claim) :: rest =>
      let bound := claimStatus_BoundBucketName (claim_Status claim) in
      if bound =s "" then getBuckets_loop rest (<[claimName := None]> bucketsByClaimName) errs
      else
        rbucket ← api (perform (GetBucket (global bound)));
        match rbucket with
        | Err err =>
            if IsNotFound err
            then getBuckets_loop rest bucketsByClaimName (errs ++ [NonRetryable (Errorf_w
                   ("unrecoverable degradation: Bucket " +:+ quote bound +:+ " for BucketClaim " +:+
                    quote claimName +:+ " has gone missing") err)])
            else getBuckets_loop rest bucketsByClaimName (errs ++ [err])
        | Ok bucket => getBuckets_loop rest (<[claimName := Some bucket]> bucketsByClaimName) errs
        end
  end.

Definition missing_buckets_error : error :=
  Errorf "did not get one or more Buckets, but no errors observed".

Definition getBucketsForClaims (claimsByName : claims_map) : prog (result error buckets_map) :=
  order ← map_iteration;
  '(bucketsByClaimName, errs) ← getBuckets_loop (map_order order claimsByName) ∅ [];
  match report "could not get one or more Buckets" errs with
  | Some err => Ret (Err err)
  | None =>
      if negb (size bucketsByClaimName =? size claimsByName)
      then Ret (Err missing_buckets_error)
      else Ret (Ok bucketsByClaimName)
  end.

(** The messages for one claim; the functions below collect them in iteration order. *)
Definition claim_blockers (spec : BucketAccessSpec) (entry : string * option BucketClaim) : list string :=
  match entry with
  | (_, None) => []
  | (name, Some claim) =>
      (if IsDeleting claim
       then ["stuck: data integrity for deleting BucketClaim " +:+ quote name +:+ " is not guaranteed"]
       else []) ++
      (if (0 <? length (claimStatus_Protocols (claim_Status claim))) &&
          negb (slices_Contains (claimStatus_Protocols (claim_Status claim)) (accessSpec_Protocol spec))
       then ["BucketClaim " +:+ quote name +:+ " does not support protocol " +:+
             quote (accessSpec_Protocol spec)]
       else [])
  end.

Definition cannotAccessBucketClaims (order : list string) (claimsByName : claims_map)
    (spec : BucketAccessSpec) : list string :=
  flat_map (claim_blockers spec) (map_order order claimsByName).

Definition claim_wait (bucketsByClaimName : buckets_map) (entry : string * option BucketClaim) :
    list string :=
  match entry with
  | (claimName, None) => ["waiting for BucketClaim " +:+ quote claimName +:+ " to exist"]
  | (claimName, Some claim) =>
      let bound := claimStatus_BoundBucketName (claim_Status claim) in
      if bound =s ""
      then ["waiting for BucketClaim " +:+ quote claimName +:+ " to be bound to a Bucket"]
      else
        match bucketsByClaimName !! claimName with
        | None => ["internal error: missing Bucket " +:+ quote bound +:+ " for BucketClaim " +:+
                   quote claimName]
        | Some None => ["waiting for Bucket " +:+ quote bound +:+ " for BucketClaim " +:+
                        quote claimName +:+ " to exist"]
        | Some (Some bucket) =>
            if bucketStatus_BucketID (bucket_Status bucket) =s ""
            then ["waiting for Bucket " +:+ quote bound +:+ " for BucketClaim " +:+
                  quote claimName +:+ " to finish provisioning"]
            else if negb (ptr_Deref (claimStatus_ReadyToUse (claim_Status claim)) false)
            then ["waiting for BucketClaim " +:+ quote claimName +:+
                  " to finish provisioning Bucket " +:+ quote bound]
            else []
        end
  end.

Definition waitingOnBucketClaims (order : list string) (claimsByName : claims_map)
    (bucketsByClaimName : buckets_map) : list string :=
  flat_map (claim_wait bucketsByClaimName) (map_order order claimsByName).

(** The loop of [compileAccessedBuckets]. An entry of the output whose ID is missing stays
    the zero value; the function then returns an error. *)
Fixpoint compile_loop (claimAccesses : list BucketClaimAccess) (bucketsByClaimName : buckets_map)
    (accessedBuckets : list AccessedBucket) (missingIds : list string) :
    result error (list AccessedBucket * list string) :=
  match claimAccesses with
  | [] => Ok (accessedBuckets, missingIds)
  | ref :: rest =>
      let name := claimAccess_BucketClaimName ref in
      match bucketsByClaimName !! name with
      | None | Some None =>
          Err (Errorf ("internal error: missing Bucket for BucketClaim " +:+ quote name))
      | Some (Some bucket) =>
          if bucketStatus_BucketID (bucket_Status bucket) =s ""
          then compile_loop rest bucketsByClaimName
                 (accessedBuckets ++ [{| accessed_BucketName := ""; accessed_BucketID := "";
                                         accessed_BucketClaimName := "" |}])
                 (missingIds ++ [name])
          else compile_loop rest bucketsByClaimName
                 (accessedBuckets ++
                  [{| accessed_BucketName := GetName bucket;
                      accessed_BucketID := bucketStatus_BucketID (bucket_Status bucket);
                      accessed_BucketClaimName := name |}]) missingIds
      end
  end.

Definition compileAccessedBuckets (claimAccesses : list BucketClaimAccess)
    (bucketsByClaimName : buckets_map) : result error (list AccessedBucket) :=
  match compile_loop claimAccesses bucketsByClaimName [] [] with
  | Err err => Err err
  | Ok (accessedBuckets, missingIds) =>
      if 0 <? length missingIds
      then Err (Errorf ("one or more Buckets are missing IDs: " +:+ fmt_slice missingIds))
      else Ok accessedBuckets
  end.

(** ** Reconciliation *)

(** [AddFinalizer] and the update when it changed the access. *)
Definition ensureAccessFinalizer (access : BucketAccess) : prog (BucketAccess * option error) :=
  let '(access, didAdd) := AddFinalizer access ProtectionFinalizer in
  if didAdd then
    rupd ← api (perform (UpdateAccess access));
    match rupd with
    | Err err => Ret (access, Some (Errorf_w "failed to add protection finalizer" err))
    | Ok access => Ret (access, None)
    end
  else Ret (access, None).

(** The status fields that hand the access over to the Sidecar. *)
Definition access_with_initialization (accessedBuckets : list AccessedBucket)
    (class : BucketAccessClass) (access : BucketAccess) : BucketAccess :=
  access_with_Status {|
    accessStatus_ReadyToUse := default_not_ready (accessStatus_ReadyToUse (access_Status access));
    accessStatus_AccountID := accessStatus_AccountID (access_Status access);
    accessStatus_AccessedBuckets := accessedBuckets;
    accessStatus_DriverName := accessClassSpec_DriverName (accessClass_Spec class);
    accessStatus_AuthenticationType := accessClassSpec_AuthenticationType (accessClass_Spec class);
    accessStatus_Parameters := accessClassSpec_Parameters (accessClass_Spec class);
    accessStatus_Error := None |} access.

(** [reconcile] from the BucketAccessClass on, with the claims found and marked. *)
Definition initialize (access : BucketAccess) (claimsByName : claims_map) :
    prog (BucketAccess * option error) :=
  rclass ← api (perform (GetAccessClass
             (global (accessSpec_BucketAccessClassName (access_Spec access)))));
  match rclass with
  | Err err => Ret (access, Some err)
  | Ok class =>
      match ValidateAccessAgainstClass (accessClass_Spec class) (access_Spec access) with
      | Some err => Ret (access, Some (NonRetryable err))
      | None =>
          rbuckets ← getBucketsForClaims claimsByName;
          match rbuckets with
          | Err err => Ret (access, Some err)
          | Ok bucketsByClaimName =>
              border ← map_iteration;
              let blockers := cannotAccessBucketClaims border claimsByName (access_Spec access) in
              if 0 <? length blockers
              then Ret (access, Some (NonRetryable (Errorf
                     ("access cannot be provisioned for one or more BucketClaims: " +:+
                      fmt_slice blockers))))
              else
                worder ← map_iteration;
                let waitlist := waitingOnBucketClaims worder claimsByName bucketsByClaimName in
                if 0 <? length waitlist
                then Ret (access, Some (Errorf
                       ("waiting for prerequisites before provisioning access: " +:+
                        fmt_slice waitlist)))
                else
                  match compileAccessedBuckets (accessSpec_BucketClaims (access_Spec access))
                          bucketsByClaimName with
                  | Err err =>
                      Ret (access, Some (Errorf_w
                        "waiting for BucketClaims to finish provisioning" err))
                  | Ok accessedBuckets =>
                      let access := access_with_initialization accessedBuckets class access in
                      rupd ← api (perform (StatusUpdateAccess access));
                      match rupd with
                      | Err err => Ret (access, Some err)
                      | Ok access => Ret (access, None)
                      end
                  end
          end
      end
  end.

Definition reconcileDelete (access : BucketAccess) : prog (BucketAccess * option error) :=
  rclaims ← getAllBucketClaims (GetNamespace access) (accessSpec_BucketClaims (access_Spec access));
  match rclaims with
  | Err err => Ret (access, Some err)
  | Ok claimsByName =>
      rlist ← api (perform (ListAccesses (GetNamespace access)));
      match rlist with
      | Err err => Ret (access, Some err)
      | Ok accessList =>
          '(_, uerr) ← unmarkUnaccessedBucketClaims claimsByName accessList (GetName access);
          match uerr with
          | Some err => Ret (access, Some err)
          | None =>
              let access := RemoveFinalizer access ProtectionFinalizer in
              rupd ← api (perform (UpdateAccess access));
              match rupd with
              | Err err => Ret (access, Some (Errorf_w "failed to remove finalizer" err))
              | Ok access => Ret (access, None)
              end
          end
      end
  end.

Definition reconcile (access : BucketAccess) : prog (BucketAccess * option error) :=
  if IsDeleting access then reconcileDelete access
  else
    match SidecarRequirementsPresent (access_Status access) with
    | Err err => Ret (access, Some (NonRetryable
                   (Errorf_w "processed a degraded BucketAccess" err)))
    | Ok initialized =>
        if initialized
        then Ret (access, Some (NonRetryable (Errorf
               "processed a BucketAccess that should be managed by COSI Sidecar")))
        else
          '(access, ferr) ← ensureAccessFinalizer access;
          match ferr with
          | Some err => Ret (access, Some err)
          | None =>
              match validateAllBucketClaimReferencesUnique
                      (accessSpec_BucketClaims (access_Spec access)) with
              | Some err => Ret (access, Some err)
              | None =>
                  rclaims ← getAllBucketClaims (GetNamespace access)
                              (accessSpec_BucketClaims (access_Spec access));
                  match rclaims with
                  | Err err => Ret (access, Some err)
                  | Ok claimsByName =>
                      rmark ← markAllBucketClaimsAsAccessed claimsByName;
                      match rmark with
                      | Err err => Ret (access, Some err)
                      | Ok claimsByName =>
                          if 0 <? length (accessStatus_AccessedBuckets (access_Status access))
                          then Ret (access, None)
                          else initialize access claimsByName
                      end
                  end
              end
          end
    end.

Definition access_with_recorded_error (now : Z) (err : error) (access : BucketAccess) : BucketAccess :=
  access_with_Status
    (accessStatus_with_Error (Some (NewTimestampedError now (Error err)))
       (accessStatus_with_ReadyToUse
          (default_not_ready (accessStatus_ReadyToUse (access_Status access)))
          (access_Status access))) access.

Definition Reconcile (key : NamespacedName) : prog (option error) :=
  raccess ← api (perform (GetAccess key));
  match raccess with
  | Err err => if IsNotFound err then Ret None else Ret (Some err)
  | Ok access =>
      if ManagedBySidecar access then Ret None
      else
        '(access, rerr) ← reconcile access;
        match rerr with
        | None => Ret None
        | Some err =>
            let err := Errorf_w "COSI Controller error" err in
            now ← time_Now;
            rupd ← api (perform (StatusUpdateAccess (access_with_recorded_error now err access)));
            match rupd with
            | Err _ => Ret (Some err)
            | Ok _ => if is_nonRetryable err then Ret (Some (terminalError err)) else Ret (Some err)
            end
        end
  end.

(** ** Specifications of the pure parts *)

Abbreviation ref_names l := (claimAccess_BucketClaimName <$> l).

Lemma count_references_dup l m d :
  (count_references l m d).2 = false ↔
  d = false ∧ NoDup (ref_names l) ∧ ∀ n, n ∈ ref_names l → m !! n = None.
Proof.
  revert m d. induction l as [|ref l IH]; intros m d; cbn.
  - split; [intros ->|tauto]. split; [done|]. split; [constructor|].
    by intros n ?%elem_of_nil.
  - rewrite NoDup_cons. setoid_rewrite elem_of_cons.
    destruct (m !! claimAccess_BucketClaimName ref) as [k|] eqn:E.
    + rewrite IH. split; [intros [[=] _]|]. intros (_ & _ & H).
      specialize (H _ (or_introl eq_refl)). congruence.
    + rewrite IH. split.
      * intros (-> & Hnd & H). split_and!; try done.
        -- intros Hin. specialize (H _ Hin). by rewrite lookup_insert_eq in H.
        -- intros n [->|Hin]; [done|]. specialize (H _ Hin).
           by apply lookup_insert_None in H as [??].
      * intros (-> & [Hni Hnd] & H). split_and!; try done.
        intros n Hin. rewrite lookup_insert_ne by (intros <-; done). auto.
Qed.

Lemma references_unique l :
  validateAllBucketClaimReferencesUnique l = None ↔ NoDup (ref_names l).
Proof.
  unfold validateAllBucketClaimReferencesUnique.
  pose proof (count_references_dup l ∅ false) as H.
  destruct (count_references l ∅ false) as [m d]. cbn in H. destruct d.
  - split; [done|]. intros Hnd. assert (true = false) as [=]. apply H.
    split_and!; [done..|]. intros n _. apply lookup_empty.
  - split; [intros _; by apply H|done].
Qed.

Definition class_allows (class : BucketAccessClassSpec) (access : BucketAccessSpec) : Prop :=
  (accessClassSpec_AuthenticationType class = BucketAccessAuthenticationTypeServiceAccount →
   accessSpec_ServiceAccountName access ≠ "") ∧
  (accessClassSpec_MultiBucketAccess class ≠ MultiBucketAccessMultipleBuckets →
   length (accessSpec_BucketClaims access) ≤ 1) ∧
  (∀ ref, ref ∈ accessSpec_BucketClaims access →
     claimAccess_AccessMode ref ∉ accessClassSpec_DisallowedBucketAccessModes class).

Lemma ValidateAccessAgainstClass_None class access :
  ValidateAccessAgainstClass class access = None ↔ class_allows class access.
Proof.
  unfold ValidateAccessAgainstClass, class_allows, SupportsMultiBucketAccess.
  rewrite report_None, !app_nil, !when_err_nil, flat_map_nil, !andb_false_iff.
  setoid_rewrite when_err_nil.
  rewrite !eqs_false, negb_false_iff, Nat.ltb_ge.
  assert (∀ ref, slices_Contains (accessClassSpec_DisallowedBucketAccessModes class)
                   (claimAccess_AccessMode ref) = false ↔
                 claimAccess_AccessMode ref ∉ accessClassSpec_DisallowedBucketAccessModes class) as Hs.
  { intros ref. by rewrite <-slices_Contains_spec, not_true_iff_false. }
  setoid_rewrite Hs.
  destruct (decide (accessClassSpec_AuthenticationType class = BucketAccessAuthenticationTypeServiceAccount));
    destruct (_ =s MultiBucketAccessMultipleBuckets) eqn:Em; reflect_bools;
    intuition (done || congruence).
Qed.

Definition references (access : BucketAccess) (claimName : string) : Prop :=
  claimName ∈ ref_names (accessSpec_BucketClaims (access_Spec access)).

Lemma hasBucketAccessReferences_spec claimName accesses ignore :
  hasBucketAccessReferences claimName accesses ignore = true ↔
  ∃ access, access ∈ accesses ∧ GetName access ≠ ignore ∧ references access claimName.
Proof.
  unfold hasBucketAccessReferences, references. rewrite existsb_elem.
  setoid_rewrite list_elem_of_fmap. split; intros (access & Hin & H); exists access; (split; [done|]).
  - destruct (GetName access =s ignore) eqn:E; [done|]. reflect_bools.
    apply existsb_elem in H as (ref & Href & <-%eqs_true). eauto.
  - destruct H as [Hn (ref & -> & Href)]. rewrite (proj2 (eqs_false _ _) Hn).
    apply existsb_elem. exists ref. by rewrite eqs_refl.
Qed.

(** A claim that neither blocks an access nor has to be waited for, with its Bucket. *)
Definition claim_usable (protocol : string) (buckets : buckets_map) (name : string)
    (c : BucketClaim) (b : Bucket) : Prop :=
  IsDeleting c = false ∧ claimStatus_BoundBucketName (claim_Status c) ≠ "" ∧
  claimStatus_ReadyToUse (claim_Status c) = Some true ∧
  (claimStatus_Protocols (claim_Status c) ≠ [] → protocol ∈ claimStatus_Protocols (claim_Status c)) ∧
  buckets !! name = Some (Some b) ∧ bucketStatus_BucketID (bucket_Status b) ≠ "".

Lemma claims_usable spec claims buckets o1 o2 :
  cannotAccessBucketClaims o1 claims spec = [] →
  waitingOnBucketClaims o2 claims buckets = [] →
  ∀ name oc, claims !! name = Some oc →
    ∃ c b, oc = Some c ∧ claim_usable (accessSpec_Protocol spec) buckets name c b.
Proof.
  unfold cannotAccessBucketClaims, waitingOnBucketClaims. rewrite !flat_map_nil.
  intros Hb Hw name oc Hl.
  specialize (Hb (name, oc) (proj2 (elem_of_map_order _ _ _ _) Hl)).
  specialize (Hw (name, oc) (proj2 (elem_of_map_order _ _ _ _) Hl)).
  destruct oc as [c|]; [|done]. cbn in Hb, Hw. apply app_nil in Hb as [Hb1 Hb2].
  destruct (_ =s "") eqn:E1; [done|]. destruct (buckets !! name) as [[b|]|] eqn:E2; [|done..].
  destruct (_ =s "") eqn:E3 in Hw; [done|].
  destruct (claimStatus_ReadyToUse (claim_Status c)) as [[|]|] eqn:E4; [|done..].
  exists c, b. split; [done|]. reflect_bools. unfold claim_usable. split_and!; try done.
  - by destruct (IsDeleting c).
  - intros Hne. destruct (slices_Contains _ _) eqn:E5; [by apply slices_Contains_spec|].
    by destruct (claimStatus_Protocols (claim_Status c)).
Qed.

Lemma compile_loop_Ok l buckets acc missing :
  (∀ n, n ∈ ref_names l → ∃ b, buckets !! n = Some (Some b) ∧
                               bucketStatus_BucketID (bucket_Status b) ≠ "") →
  ∃ out, compile_loop l buckets acc missing = Ok (acc ++ out, missing) ∧
    Forall2 (λ ref ab, ∃ b, buckets !! claimAccess_BucketClaimName ref = Some (Some b) ∧
               ab = {| accessed_BucketName := GetName b;
                       accessed_BucketID := bucketStatus_BucketID (bucket_Status b);
                       accessed_BucketClaimName := claimAccess_BucketClaimName ref |}) l out.
Proof.
  revert acc. induction l as [|ref l IH]; intros acc Hl; cbn.
  - exists []. rewrite app_nil_r. split; [done|constructor].
  - destruct (Hl (claimAccess_BucketClaimName ref)) as (b & Hb & Hid); [left|].
    rewrite Hb, (proj2 (eqs_false _ _) Hid).
    edestruct IH as (out & -> & HF); [intros n Hin; apply Hl; by right|].
    eexists. rewrite <-app_assoc. split; [done|]. constructor; eauto.
Qed.

Lemma compileAccessedBuckets_Ok l buckets :
  (∀ n, n ∈ ref_names l → ∃ b, buckets !! n = Some (Some b) ∧
                               bucketStatus_BucketID (bucket_Status b) ≠ "") →
  ∃ out, compileAccessedBuckets l buckets = Ok out ∧
    Forall2 (λ ref ab, ref ∈ l ∧
      ∃ b, buckets !! claimAccess_BucketClaimName ref = Some (Some b) ∧
           ab = {| accessed_BucketName := GetName b;
                   accessed_BucketID := bucketStatus_BucketID (bucket_Status b);
                   accessed_BucketClaimName := claimAccess_BucketClaimName ref |}) l out.
Proof.
  intros Hl. unfold compileAccessedBuckets.
  destruct (compile_loop_Ok l buckets [] [] Hl) as (out & -> & HF). exists out. split; [done|].
  rewrite Forall2_same_length_lookup in HF |- *. destruct HF as [Hlen HF]. split; [done|].
  intros i ref ab Hr Ha. split; [by eapply list_elem_of_lookup_2|eauto].
Qed.

(** ** The loops over claims

    [I] is what the calls must satisfy; it may depend on the history, which each loop
    extends. *)

Definition claim_key (ns name : string) : NamespacedName :=
  {| nn_Namespace := ns; nn_Name := name |}.

(** What the API server answered about one claim. *)
Definition claim_answered (h : list event) (ns name : string) (oc : option BucketClaim) : Prop :=
  match oc with
  | Some c => Ev (GetClaim (claim_key ns name)) (Ok c) ∈ h
  | None => ∃ e, Ev (GetClaim (claim_key ns name)) (Err e) ∈ h ∧ client_IsNotFound e = true
  end.

Definition marked (c : BucketClaim) : BucketClaim :=
  set_annotation HasBucketAccessReferencesAnnotation "" c.
Definition unmarked (c : BucketClaim) : BucketClaim :=
  delete_annotation HasBucketAccessReferencesAnnotation c.
Definition is_marked (c : BucketClaim) : bool :=
  has_annotation HasBucketAccessReferencesAnnotation c.

(** The entry [oc] that marking makes of the entry [oc0]. *)
Definition mark_entry (h : list event) (oc0 oc : option BucketClaim) : Prop :=
  match oc0 with
  | None => oc = None
  | Some c0 => ∃ c, oc = Some c ∧
      ((c = c0 ∧ is_marked c0 = true) ∨
       (is_marked c0 = false ∧ Ev (UpdateClaim (marked c0)) (Ok c) ∈ h))
  end.

Definition bucket_entry (h : list event) (oc : option BucketClaim) (ob : option Bucket) : Prop :=
  match ob with
  | Some b => ∃ c, oc = Some c ∧ claimStatus_BoundBucketName (claim_Status c) ≠ "" ∧
      Ev (GetBucket (global (claimStatus_BoundBucketName (claim_Status c)))) (Ok b) ∈ h
  | None => ∀ c, oc = Some c → claimStatus_BoundBucketName (claim_Status c) = ""
  end.

(** A claim that deletion of an access has dealt with. *)
Definition unmark_entry (h : list event) (accesses : list BucketAccess) (ignore : string)
    (c : BucketClaim) : Prop :=
  is_marked c = false ∨
  (∃ other, other ∈ accesses ∧ GetName other ≠ ignore ∧ references other (GetName c)) ∨
  (∃ c', Ev (UpdateClaim (unmarked c)) (Ok c') ∈ h).

Lemma claim_answered_app h h' ns name oc :
  claim_answered h ns name oc → claim_answered (h ++ h') ns name oc.
Proof. destruct oc; cbn; [intros; hist|]. intros (e & ? & ?). exists e. split; [hist|done]. Qed.

Lemma mark_entry_app h h' oc0 oc : mark_entry h oc0 oc → mark_entry (h ++ h') oc0 oc.
Proof.
  destruct oc0; cbn; [|done]. intros (c & -> & [?|[? ?]]); exists c; (split; [done|]); [by left|].
  right. split; [done|hist].
Qed.

Lemma bucket_entry_app h h' oc ob : bucket_entry h oc ob → bucket_entry (h ++ h') oc ob.
Proof. destruct ob; cbn; [|done]. intros (c & ? & ? & ?). exists c. split_and!; try done. hist. Qed.

Lemma unmark_entry_app h h' l i c : unmark_entry h l i c → unmark_entry (h ++ h') l i c.
Proof.
  intros [?|[?|[c' ?]]]; [by left|right; by left|]. right; right. exists c'. hist.
Qed.

Section loops.
Context (I : list event → req → Prop).

Lemma wp_getAllBucketClaims_loop ns refs claims errs h :
  (∀ t name, name ∈ ref_names refs → I (h ++ t) (GetClaim (claim_key ns name))) →
  (∀ name oc, claims !! name = Some oc → claim_answered h ns name oc) →
  wp I (getAllBucketClaims_loop ns refs claims errs) h (λ h' r, r.2 = [] →
    errs = [] ∧ dom r.1 = dom claims ∪ list_to_set (ref_names refs) ∧
    ∀ name oc, r.1 !! name = Some oc → claim_answered h' ns name oc).
Proof.
  revert claims errs h. induction refs as [|ref refs IH]; intros claims errs h HI Hc.
  { cbn. intros ->. split; [done|]. split; [set_solver|done]. }
  set (name := claimAccess_BucketClaimName ref) in *.
  assert (∀ t, I (h ++ t) (GetClaim (claim_key ns name))) as HI0
    by (intros t; apply HI; by left).
  assert (∀ x t name', name' ∈ ref_names refs →
            I ((h ++ [x]) ++ t) (GetClaim (claim_key ns name'))) as HI'.
  { intros x t n Hn. rewrite <-app_assoc. apply HI. by right. }
  assert (∀ x oc, claim_answered (h ++ [x]) ns name oc →
            ∀ n oc', <[name:=oc]> claims !! n = Some oc' → claim_answered (h ++ [x]) ns n oc')
    as Hins.
  { intros x oc Ho n oc' [[-> ->]|[_ Hl]]%lookup_insert_Some; [done|].
    apply claim_answered_app. auto. }
  cbn [getAllBucketClaims_loop]. fold name.
  wp_simpl. split; [specialize (HI0 []); by rewrite app_nil_r in HI0|].
  intros [c|e]; wp_simpl; [|destruct (IsNotFound (of_client_error e)) eqn:Ee].
  - eapply wp_mono; [done| |apply IH; [apply HI'|apply Hins; cbn; hist]].
    intros h' r Hr Hn. destruct (Hr Hn) as (-> & -> & ?). split; [done|].
    split; [rewrite dom_insert_L; cbn; set_solver|done].
  - eapply wp_mono; [done| |apply IH; [apply HI'|apply Hins; exists e; split; [hist|done]]].
    intros h' r Hr Hn. destruct (Hr Hn) as (-> & -> & ?). split; [done|].
    split; [rewrite dom_insert_L; cbn; set_solver|done].
  - eapply wp_mono; [done| |apply IH; [apply HI'|]].
    + intros h' r Hr Hn. destruct (Hr Hn) as (Hx & _). by destruct errs.
    + intros n oc Hl. apply claim_answered_app. auto.
Qed.

Lemma wp_getAllBucketClaims ns refs h :
  (∀ t name, name ∈ ref_names refs → I (h ++ t) (GetClaim (claim_key ns name))) →
  wp I (getAllBucketClaims ns refs) h (λ h' r, ∀ m, r = Ok m →
    dom m = list_to_set (ref_names refs) ∧
    ∀ name oc, m !! name = Some oc → claim_answered h' ns name oc).
Proof.
  intros HI. unfold getAllBucketClaims. eapply wp_seq.
  { apply wp_getAllBucketClaims_loop; [done|]. intros name oc Hl. by rewrite lookup_empty in Hl. }
  intros t [m errs] Hm. cbn in Hm. destruct (report _ errs) eqn:Er; [by cbn|].
  apply report_None in Er. destruct (Hm Er) as (_ & Hd & Ha).
  cbn. intros m' [= <-]. split; [|done]. rewrite Hd. set_solver.
Qed.

Lemma wp_mark_loop entries m errs h :
  NoDup entries.*1 →
  (∀ n oc, (n, oc) ∈ entries → m !! n = Some oc) →
  (∀ t n c, (n, Some c) ∈ entries → is_marked c = false → I (h ++ t) (UpdateClaim (marked c))) →
  wp I (mark_loop entries m errs) h (λ h' r, r.2 = [] →
    errs = [] ∧ (∀ n, n ∉ entries.*1 → r.1 !! n = m !! n) ∧
    (∀ n oc0, (n, oc0) ∈ entries → ∃ oc, r.1 !! n = Some oc ∧ mark_entry h' oc0 oc)).
Proof.
  revert m errs h. induction entries as [|[n oc] entries IH]; intros m errs h.
  { intros _ _ _. cbn. intros ->. split; [done|]. split; [done|]. by intros n oc ?%elem_of_nil. }
  rewrite fmap_cons, NoDup_cons. cbn [fst]. intros [Hn Hnd] Hm HI.
  (* one entry handled, with the map [m1] and the history [h ++ t] *)
  assert (∀ t oc' m1 errs1, m1 !! n = Some oc' → (∀ k, k ≠ n → m1 !! k = m !! k) →
    (errs1 = [] → errs = [] ∧ mark_entry (h ++ t) oc oc') →
    wp I (mark_loop entries m1 errs1) (h ++ t) (λ h' r, r.2 = [] →
      errs = [] ∧ (∀ k, k ∉ n :: entries.*1 → r.1 !! k = m !! k) ∧
      (∀ k oc0, (k, oc0) ∈ (n, oc) :: entries →
         ∃ oc1, r.1 !! k = Some oc1 ∧ mark_entry h' oc0 oc1))) as Hstep.
  { intros t oc' m1 errs1 Hm1 Hm1' He.
    eapply wp_mono; [done| |apply wp_extends, IH; [done| |]].
    - intros h' r [[t' ->] Hr] Hnil. destruct (Hr Hnil) as (-> & Hout & Hin).
      destruct (He eq_refl) as [-> Hent]. split; [done|]. split.
      + intros k [Hk1 Hk2]%not_elem_of_cons. rewrite (Hout k Hk2). by apply Hm1'.
      + intros k oc0 [[= -> ->]|Hk]%elem_of_cons; [|by apply Hin].
        exists oc'. rewrite (Hout n Hn). split; [done|]. by apply mark_entry_app.
    - intros k o Hk. rewrite Hm1'; [apply Hm; by right|]. intros ->.
      apply Hn, list_elem_of_fmap. by exists (n, o).
    - intros t' k c Hk Hu. rewrite <-app_assoc. by apply (HI _ k); [right|]. }
  assert (m !! n = Some oc) as Hmn by (apply Hm; by left).
  assert (∀ oc' k, k ≠ n → <[n := oc']> m !! k = m !! k) as Hins
    by (intros; by apply lookup_insert_ne).
  destruct oc as [c|]; cbn [mark_loop].
  2: { specialize (Hstep [] None m errs). rewrite app_nil_r in Hstep. by apply Hstep. }
  fold (is_marked c). destruct (is_marked c) eqn:Em.
  { specialize (Hstep [] (Some c) m errs). rewrite app_nil_r in Hstep. apply Hstep; [done..|].
    intros ->. split; [done|]. exists c. eauto. }
  wp_simpl. split.
  { specialize (HI [] n c). rewrite app_nil_r in HI. by apply HI; [left|]. }
  intros [c'|e]; wp_simpl.
  - apply (Hstep _ (Some c')); [apply lookup_insert_eq|auto|]. intros ->. split; [done|].
    exists c'. split; [done|]. right. split; [done|hist].
  - apply (Hstep _ (Some (marked c))); [apply lookup_insert_eq|auto|]. intros Hx.
    by destruct errs.
Qed.

Lemma wp_markAllBucketClaimsAsAccessed m h :
  (∀ t, I (h ++ t) MapOrder) →
  (∀ t n c, m !! n = Some (Some c) → is_marked c = false → I (h ++ t) (UpdateClaim (marked c))) →
  wp I (markAllBucketClaimsAsAccessed m) h (λ h' r, ∀ m', r = Ok m' →
    dom m' = dom m ∧
    ∀ n oc', m' !! n = Some oc' → ∃ oc, m !! n = Some oc ∧ mark_entry h' oc oc').
Proof.
  intros Ho HI. unfold markAllBucketClaimsAsAccessed. wp_simpl.
  split; [specialize (Ho []); by rewrite app_nil_r in Ho|]. intros order.
  eapply wp_seq.
  { apply wp_mark_loop; [apply map_order_NoDup| |].
    - intros n oc Hin. by apply elem_of_map_order in Hin.
    - intros t n c Hin. rewrite <-app_assoc. apply (HI _ n). by apply elem_of_map_order in Hin. }
  intros t [m' errs] Hm. cbn in Hm. destruct (report _ errs) eqn:Er; [by cbn|].
  apply report_None in Er. destruct (Hm Er) as (_ & Hout & Hin). cbn. intros m1 [= <-].
  assert (∀ n, m !! n = None → m' !! n = None) as Hnone.
  { intros n Hl. rewrite Hout; [done|]. intros (o & Hin')%elem_of_map_order_keys. congruence. }
  split.
  - apply set_eq. intros n. rewrite !elem_of_dom. destruct (m !! n) as [oc|] eqn:El.
    + destruct (Hin n oc) as (oc' & -> & _); [by apply elem_of_map_order|]. split; eauto.
    + rewrite (Hnone n El). split; intros [? [=]].
  - intros n oc' Hl. destruct (m !! n) as [oc|] eqn:El; [|by rewrite (Hnone n El) in Hl].
    exists oc. split; [done|]. destruct (Hin n oc) as (oc1 & Hl1 & He); [by apply elem_of_map_order|].
    congruence.
Qed.

Lemma wp_getBuckets_loop entries bm errs h :
  NoDup entries.*1 →
  (∀ t n, I (h ++ t) (GetBucket (global n))) →
  wp I (getBuckets_loop entries bm errs) h (λ h' r, r.2 = [] →
    errs = [] ∧ dom r.1 = dom bm ∪ list_to_set entries.*1 ∧
    (∀ n, n ∉ entries.*1 → r.1 !! n = bm !! n) ∧
    (∀ n oc, (n, oc) ∈ entries → ∃ ob, r.1 !! n = Some ob ∧ bucket_entry h' oc ob)).
Proof.
  revert bm errs h. induction entries as [|[n oc] entries IH]; intros bm errs h.
  { intros _ _. cbn. intros ->. split; [done|]. split; [set_solver|].
    split; [done|]. by intros n oc ?%elem_of_nil. }
  rewrite fmap_cons, NoDup_cons. cbn [fst]. intros [Hn Hnd] HI.
  assert (∀ t e errs1, errs1 = errs ++ [e] →
    wp I (getBuckets_loop entries bm errs1) (h ++ t) (λ h' r, r.2 = [] →
      errs = [] ∧ dom r.1 = dom bm ∪ list_to_set (n :: entries.*1) ∧
      (∀ k, k ∉ n :: entries.*1 → r.1 !! k = bm !! k) ∧
      (∀ k o, (k, o) ∈ (n, oc) :: entries → ∃ ob, r.1 !! k = Some ob ∧ bucket_entry h' o ob)))
    as Herr.
  { intros t e errs1 ->. eapply wp_mono; [done| |apply IH; [done|]].
    - intros h' r Hr Hnil. destruct (Hr Hnil) as [Hx _]. by destruct errs.
    - intros t' k. rewrite <-app_assoc. apply HI. }
  assert (∀ t ob, bucket_entry (h ++ t) oc ob →
    wp I (getBuckets_loop entries (<[n := ob]> bm) errs) (h ++ t) (λ h' r, r.2 = [] →
      errs = [] ∧ dom r.1 = dom bm ∪ list_to_set (n :: entries.*1) ∧
      (∀ k, k ∉ n :: entries.*1 → r.1 !! k = bm !! k) ∧
      (∀ k o, (k, o) ∈ (n, oc) :: entries → ∃ ob, r.1 !! k = Some ob ∧ bucket_entry h' o ob)))
    as Hok.
  { intros t ob Hob. eapply wp_mono; [done| |apply wp_extends, IH; [done|]].
    - intros h' r [[t' ->] Hr] Hnil. destruct (Hr Hnil) as (-> & Hd & Hout & Hin).
      split; [done|]. split; [rewrite Hd, dom_insert_L; set_solver|]. split.
      + intros k [Hk1 Hk2]%not_elem_of_cons. rewrite (Hout k Hk2). by apply lookup_insert_ne.
      + intros k o [[= -> ->]|Hk]%elem_of_cons; [|by apply Hin].
        exists ob. rewrite (Hout n Hn). split; [apply lookup_insert_eq|by apply bucket_entry_app].
    - intros t' k. rewrite <-app_assoc. apply HI. }
  assert (∀ k, I h (GetBucket (global k))) as HI0
    by (intros k; specialize (HI [] k); by rewrite app_nil_r in HI).
  destruct oc as [c|]; cbn [getBuckets_loop].
  2: { specialize (Hok [] None). rewrite app_nil_r in Hok. by apply Hok. }
  destruct (claimStatus_BoundBucketName (claim_Status c) =s "") eqn:Eb; reflect_bools.
  { specialize (Hok [] None). rewrite app_nil_r in Hok. apply Hok. by intros c' [= <-]. }
  wp_simpl. split; [apply HI0|]. intros [b|e]; wp_simpl.
  - apply (Hok _ (Some b)). exists c. split_and!; [done..|hist].
  - destruct (IsNotFound (of_client_error e)); by eapply Herr.
Qed.

(** When no lookup fails there is an entry for every claim: the check of the sizes at the
    end of [getBucketsForClaims] never fails. *)
Lemma wp_getBucketsForClaims m h :
  (∀ t, I (h ++ t) MapOrder) → (∀ t n, I (h ++ t) (GetBucket (global n))) →
  wp I (getBucketsForClaims m) h (λ h' r,
    r ≠ Err missing_buckets_error ∧
    ∀ bm, r = Ok bm → dom bm = dom m ∧
      ∀ n ob, bm !! n = Some ob → ∃ oc, m !! n = Some oc ∧ bucket_entry h' oc ob).
Proof.
  intros Ho HI. unfold getBucketsForClaims. wp_simpl.
  split; [specialize (Ho []); by rewrite app_nil_r in Ho|]. intros order.
  eapply wp_seq.
  { apply wp_getBuckets_loop; [apply map_order_NoDup|]. intros t n. rewrite <-app_assoc. apply HI. }
  intros t [bm errs] Hm. cbn in Hm. destruct (report _ errs) as [e|] eqn:Er.
  { cbn. split; [|done]. intros [= ->]. by destruct errs. }
  apply report_None in Er. destruct (Hm Er) as (_ & Hd & _ & Hin).
  assert (dom bm = dom m) as Hdom.
  { rewrite Hd, dom_empty_L, (left_id_L ∅ (∪)). apply set_eq. intros n.
    rewrite elem_of_list_to_set, elem_of_dom. split.
    - by intros [v Hv]%elem_of_map_order_keys.
    - intros [v Hv]. apply list_elem_of_fmap. exists (n, v). split; [done|].
      by apply elem_of_map_order. }
  assert (size bm = size m) as Hsize by (by rewrite <-!size_dom, Hdom).
  rewrite Hsize, Nat.eqb_refl. cbn. split; [done|]. intros bm' [= <-]. split; [done|].
  intros n ob Hl. destruct (m !! n) as [oc|] eqn:Em.
  - exists oc. split; [done|].
    destruct (Hin n oc) as (ob' & Hl' & ?); [by apply elem_of_map_order|]. congruence.
  - apply elem_of_dom_2 in Hl. rewrite Hdom in Hl. apply elem_of_dom in Hl as [? ?]. congruence.
Qed.

Lemma wp_unmark_loop entries accesses ignore acc errs h :
  (∀ t n c, (n, Some c) ∈ entries → is_marked c = true →
     hasBucketAccessReferences (GetName c) accesses ignore = false →
     I (h ++ t) (UpdateClaim (unmarked c))) →
  wp I (unmark_loop entries accesses ignore acc errs) h (λ h' r, r.2 = [] →
    errs = [] ∧ ∀ n c, (n, Some c) ∈ entries → unmark_entry h' accesses ignore c).
Proof.
  revert acc errs h. induction entries as [|[n oc] entries IH]; intros acc errs h HI.
  { cbn. intros ->. split; [done|]. by intros n c ?%elem_of_nil. }
  assert (∀ t acc1 errs1,
    (errs1 = [] → errs = [] ∧ ∀ c, oc = Some c → unmark_entry (h ++ t) accesses ignore c) →
    wp I (unmark_loop entries accesses ignore acc1 errs1) (h ++ t) (λ h' r, r.2 = [] →
      errs = [] ∧ ∀ k c, (k, Some c) ∈ (n, oc) :: entries → unmark_entry h' accesses ignore c))
    as Hstep.
  { intros t acc1 errs1 He. eapply wp_mono; [done| |apply wp_extends, IH].
    - intros h' r [[t' ->] Hr] Hnil. destruct (Hr Hnil) as [Hx Hin].
      destruct (He Hx) as [-> Hent]. split; [done|].
      intros k c [[= -> <-]|Hk]%elem_of_cons; [|by eapply Hin].
      apply unmark_entry_app. by apply Hent.
    - intros t' k c Hk. rewrite <-app_assoc. apply (HI _ k). by right. }
  assert (∀ acc1, (∀ c, oc = Some c → unmark_entry h accesses ignore c) →
    wp I (unmark_loop entries accesses ignore acc1 errs) h (λ h' r, r.2 = [] →
      errs = [] ∧ ∀ k c, (k, Some c) ∈ (n, oc) :: entries → unmark_entry h' accesses ignore c))
    as Hskip.
  { intros acc1 Hc. specialize (Hstep [] acc1 errs). rewrite app_nil_r in Hstep. by apply Hstep. }
  destruct oc as [c|]; cbn [unmark_loop]; [|by apply Hskip].
  fold (is_marked c). destruct (is_marked c) eqn:Em; cbn [negb].
  2: { apply Hskip. intros c' [= <-]. by left. }
  destruct (hasBucketAccessReferences (GetName c) accesses ignore) eqn:Eh.
  { apply Hskip. intros c' [= <-]. right; left. by apply hasBucketAccessReferences_spec. }
  wp_simpl. split.
  { specialize (HI [] n c). rewrite app_nil_r in HI. by apply HI; [left|..]. }
  intros [c'|e]; wp_simpl; apply Hstep.
  - intros ->. split; [done|]. intros c1 [= <-]. right; right. exists c'. hist.
  - intros Hx. by destruct errs.
Qed.

Lemma wp_unmarkUnaccessedBucketClaims m accesses ignore h :
  (∀ t, I (h ++ t) MapOrder) →
  (∀ t n c, m !! n = Some (Some c) → is_marked c = true →
     hasBucketAccessReferences (GetName c) accesses ignore = false →
     I (h ++ t) (UpdateClaim (unmarked c))) →
  wp I (unmarkUnaccessedBucketClaims m accesses ignore) h (λ h' r, r.2 = None →
    ∀ n c, m !! n = Some (Some c) → unmark_entry h' accesses ignore c).
Proof.
  intros Ho HI. unfold unmarkUnaccessedBucketClaims. wp_simpl.
  split; [specialize (Ho []); by rewrite app_nil_r in Ho|]. intros order. eapply wp_seq.
  { apply wp_unmark_loop. intros t n c Hin%elem_of_map_order. rewrite <-app_assoc. eauto. }
  intros t [un errs] Hm. cbn in Hm |- *. intros Er%report_None n c Hl.
  destruct (Hm Er) as [_ Hin]. apply (Hin n). by apply elem_of_map_order.
Qed.
End loops.

(** ** What the reconciler may ask of the API server *)

Section contract.
Context (key : NamespacedName).

Definition access_read (h : list event) (a : BucketAccess) : Prop :=
  Ev (GetAccess key) (Ok a) ∈ h.
Definition access_seen (h : list event) (a : BucketAccess) : Prop :=
  access_read h a ∨ ∃ a', Ev (UpdateAccess a') (Ok a) ∈ h.

(** The access was read as one to initialise, or as one to clean up after. *)
Definition to_initialize (h : list event) (a0 : BucketAccess) : Prop :=
  access_read h a0 ∧ ManagedBySidecar a0 = false ∧ IsDeleting a0 = false ∧
  requirements_unset (access_Status a0).
Definition to_delete (h : list event) (a0 : BucketAccess) : Prop :=
  access_read h a0 ∧ ManagedBySidecar a0 = false ∧ IsDeleting a0 = true.

(** The claim [c] of name [name] carries the mark that protects it from deletion: it was
    read with it, or the server stored it. *)
Definition claim_protected (h : list event) (ns name : string) (c : BucketClaim) : Prop :=
  ∃ c0, claim_answered h ns name (Some c0) ∧ mark_entry h (Some c0) (Some c).

(** What is known of one referenced claim when the access is initialised. *)
Definition accessible (h : list event) (a : BucketAccess)
    (ref : BucketClaimAccess) (ab : AccessedBucket) : Prop :=
  ∃ c b,
    claim_protected h (GetNamespace a) (claimAccess_BucketClaimName ref) c ∧
    IsDeleting c = false ∧ claimStatus_ReadyToUse (claim_Status c) = Some true ∧
    (claimStatus_Protocols (claim_Status c) ≠ [] →
     accessSpec_Protocol (access_Spec a) ∈ claimStatus_Protocols (claim_Status c)) ∧
    claimStatus_BoundBucketName (claim_Status c) ≠ "" ∧
    Ev (GetBucket (global (claimStatus_BoundBucketName (claim_Status c)))) (Ok b) ∈ h ∧
    bucketStatus_BucketID (bucket_Status b) ≠ "" ∧
    ab = {| accessed_BucketName := GetName b;
            accessed_BucketID := bucketStatus_BucketID (bucket_Status b);
            accessed_BucketClaimName := claimAccess_BucketClaimName ref |}.

(** The access with the finalizer: as it was read, or as the server stored it. *)
Definition ensured (h : list event) (a0 a : BucketAccess) : Prop :=
  a = a0 ∨ Ev (UpdateAccess (AddFinalizer a0 ProtectionFinalizer).1) (Ok a) ∈ h.

(** The status that hands the access to the Sidecar. *)
Definition init_allowed (h : list event) (a : BucketAccess) : Prop :=
  ∃ a0 a1 class accessedBuckets,
    to_initialize h a0 ∧ ensured h a0 a1 ∧
    accessStatus_AccessedBuckets (access_Status a1) = [] ∧
    NoDup (ref_names (accessSpec_BucketClaims (access_Spec a1))) ∧
    Ev (GetAccessClass (global (accessSpec_BucketAccessClassName (access_Spec a1)))) (Ok class) ∈ h ∧
    class_allows (accessClass_Spec class) (access_Spec a1) ∧
    Forall2 (accessible h a1) (accessSpec_BucketClaims (access_Spec a1)) accessedBuckets ∧
    a = access_with_initialization accessedBuckets class a1.

(** A state of the access that an error may be recorded on: as the server returned it, or
    initialised by a write that the server refused, with the finalizers changed at most. *)
Definition access_state (h : list event) (a : BucketAccess) : Prop :=
  ∃ a1, (access_seen h a1 ∨ init_allowed h a1 ∧ ∃ e, Ev (StatusUpdateAccess a1) (Err e) ∈ h) ∧
    same_version a a1 ∧
    access_Spec a = access_Spec a1 ∧ access_Status a = access_Status a1.

Definition mark_allowed (h : list event) (c : BucketClaim) : Prop :=
  ∃ a0 a c0 name,
    to_initialize h a0 ∧ access_seen h a ∧ references a name ∧
    claim_answered h (GetNamespace a) name (Some c0) ∧ is_marked c0 = false ∧ c = marked c0.

(** A mark is removed only when no other access in the namespace refers to the claim. *)
Definition unmark_allowed (h : list event) (c : BucketClaim) : Prop :=
  ∃ a0 accesses c0 name,
    to_delete h a0 ∧ Ev (ListAccesses (GetNamespace a0)) (Ok accesses) ∈ h ∧
    references a0 name ∧ claim_answered h (GetNamespace a0) name (Some c0) ∧
    is_marked c0 = true ∧ c = unmarked c0 ∧
    ∀ other, other ∈ accesses → references other (GetName c0) → GetName other = GetName a0.

Definition protect_allowed (h : list event) (a : BucketAccess) : Prop :=
  ∃ a0, to_initialize h a0 ∧ ContainsFinalizer a0 ProtectionFinalizer = false ∧
    a = (AddFinalizer a0 ProtectionFinalizer).1.

(** The access gives up its protection when every claim it refers to is dealt with. *)
Definition release_allowed (h : list event) (a : BucketAccess) : Prop :=
  ∃ a0 accesses,
    to_delete h a0 ∧ Ev (ListAccesses (GetNamespace a0)) (Ok accesses) ∈ h ∧
    a = RemoveFinalizer a0 ProtectionFinalizer ∧
    ∀ name, references a0 name →
      ∃ oc, claim_answered h (GetNamespace a0) name oc ∧
        ∀ c, oc = Some c → unmark_entry h accesses (GetName a0) c.

Definition record_allowed (h : list event) (a : BucketAccess) : Prop :=
  ∃ a1 now err, access_state h a1 ∧ a = access_with_recorded_error now err a1.

Definition access_contract (h : list event) (r : req) : Prop :=
  match r with
  | GetAccess k => k = key
  | GetClaim k => ∃ a, access_seen h a ∧ nn_Namespace k = GetNamespace a ∧ references a (nn_Name k)
  | GetBucket k | GetAccessClass k => nn_Namespace k = ""
  | ListAccesses ns => ∃ a0, to_delete h a0 ∧ ns = GetNamespace a0
  | UpdateClaim c => mark_allowed h c ∨ unmark_allowed h c
  | UpdateAccess a => protect_allowed h a ∨ release_allowed h a
  | StatusUpdateAccess a => init_allowed h a ∨ record_allowed h a
  | TimeNow | MapOrder => True
  | _ => False
  end.

(** ** Proofs *)

Lemma access_seen_app h h' a : access_seen h a → access_seen (h ++ h') a.
Proof. intros [?|[a' ?]]; [left; unfold access_read in *; hist|right; exists a'; hist]. Qed.
Lemma to_initialize_app h h' a : to_initialize h a → to_initialize (h ++ h') a.
Proof. intros (? & ?). split; [unfold access_read in *; hist|done]. Qed.
Lemma to_delete_app h h' a : to_delete h a → to_delete (h ++ h') a.
Proof. intros (? & ?). split; [unfold access_read in *; hist|done]. Qed.

Lemma accessible_app h h' a ref ab : accessible h a ref ab → accessible (h ++ h') a ref ab.
Proof.
  intros (c & b & (c0 & H0 & H1) & H). exists c, b. split.
  - exists c0. split; [by apply claim_answered_app|by apply mark_entry_app].
  - destruct H as (? & ? & ? & ? & ? & ? & ?). split_and!; try done. hist.
Qed.

Lemma ensured_app h h' a0 a : ensured h a0 a → ensured (h ++ h') a0 a.
Proof. intros [?|?]; [by left|right; hist]. Qed.
Lemma ensured_seen h a0 a : to_initialize h a0 → ensured h a0 a → access_seen h a.
Proof. intros [? _] [->|?]; [by left|right; eauto]. Qed.

Lemma init_allowed_app h h' a : init_allowed h a → init_allowed (h ++ h') a.
Proof.
  intros (a0 & a1 & class & abs & H1 & H2 & H3 & H4 & H5 & H6 & H7 & H8).
  exists a0, a1, class, abs. split_and!; try done.
  - by apply to_initialize_app.
  - by apply ensured_app.
  - hist.
  - eapply Forall2_impl; [done|]. intros. by apply accessible_app.
Qed.

Lemma release_allowed_app h h' a : release_allowed h a → release_allowed (h ++ h') a.
Proof.
  intros (a0 & l & H1 & H2 & H3 & H4). exists a0, l. split_and!; try done.
  - by apply to_delete_app.
  - hist.
  - intros name Hr. destruct (H4 name Hr) as (oc & ? & Hc). exists oc.
    split; [by apply claim_answered_app|]. intros c Hoc. by apply unmark_entry_app, Hc.
Qed.

Lemma caccess_access_state_app h h' a : access_state h a → access_state (h ++ h') a.
Proof.
  intros (a1 & [?|[? [e ?]]] & ?); exists a1; (split; [|done]); [left; by apply access_seen_app|].
  right. split; [by apply init_allowed_app|exists e; hist].
Qed.

Lemma access_state_seen h a : access_seen h a → access_state h a.
Proof. intros. exists a. eauto using same_version_refl. Qed.

(** The result of [reconcile]: with an error, the access in memory is one the error may be
    recorded on; without one, its task is done. *)
Definition initialized (h : list event) : Prop :=
  (∃ a a', init_allowed h a ∧ Ev (StatusUpdateAccess a) (Ok a') ∈ h) ∨
  (∃ a a', Ev (UpdateAccess a') (Ok a) ∈ h ∧ accessStatus_AccessedBuckets (access_Status a) ≠ []).
Definition cleaned_up (h : list event) : Prop :=
  ∃ a a', release_allowed h a ∧ Ev (UpdateAccess a) (Ok a') ∈ h.

Definition reconciled (a0 : BucketAccess) (h : list event) (r : BucketAccess * option error) : Prop :=
  match r.2 with
  | Some _ => access_state h r.1
  | None => if IsDeleting a0 then cleaned_up h else initialized h
  end.

Lemma caccess_reconciled_err h a0 a e : access_state h a → reconciled a0 h (a, Some e).
Proof. done. Qed.

Ltac grown := first
  [ eassumption | apply access_seen_app; grown | apply to_initialize_app; grown
  | apply ensured_app; grown
  | apply to_delete_app; grown | apply caccess_access_state_app; grown | hist ].

Lemma wp_caccess_ensureAccessFinalizer h a0 :
  to_initialize h a0 →
  wp access_contract (ensureAccessFinalizer a0) h (λ h' r,
    access_state h' r.1 ∧
    (r.2 = None → ensured h' a0 r.1)).
Proof.
  intros Hi. assert (access_seen h a0) as Hs by (left; apply Hi).
  unfold ensureAccessFinalizer, AddFinalizer.
  destruct (slices_Contains (GetFinalizers a0) ProtectionFinalizer) eqn:Ef; wp_run.
  - split; [by apply access_state_seen|]. by left.
  - left. exists a0. unfold ContainsFinalizer, AddFinalizer. by rewrite Ef.
  - split; [apply access_state_seen; right; eexists; hist|]. intros _. right.
    unfold AddFinalizer. rewrite Ef. hist.
  - split; [|done]. apply caccess_access_state_app. exists a0. by split; [left|].
Qed.

Lemma wp_getAll h a :
  access_seen h a →
  wp access_contract
    (getAllBucketClaims (GetNamespace a) (accessSpec_BucketClaims (access_Spec a))) h
    (λ h' r, ∀ m, r = Ok m →
      dom m = list_to_set (ref_names (accessSpec_BucketClaims (access_Spec a))) ∧
      ∀ name oc, m !! name = Some oc → claim_answered h' (GetNamespace a) name oc).
Proof.
  intros Hs. apply wp_getAllBucketClaims. intros t name Hin.
  exists a. split; [grown|]. split; [done|]. by unfold references.
Qed.

(** From the claims to the claims as they are protected. *)
Definition protected_claims (h : list event) (a : BucketAccess) (m : claims_map) : Prop :=
  dom m = list_to_set (ref_names (accessSpec_BucketClaims (access_Spec a))) ∧
  ∀ name oc, m !! name = Some oc →
    match oc with
    | Some c => claim_protected h (GetNamespace a) name c
    | None => claim_answered h (GetNamespace a) name None
    end.

Lemma wp_markAll h a0 a m :
  to_initialize h a0 → access_seen h a →
  dom m = list_to_set (ref_names (accessSpec_BucketClaims (access_Spec a))) →
  (∀ name oc, m !! name = Some oc → claim_answered h (GetNamespace a) name oc) →
  wp access_contract (markAllBucketClaimsAsAccessed m) h
    (λ h' r, ∀ m', r = Ok m' → protected_claims h' a m').
Proof.
  intros Hi Hs Hd Ha. eapply wp_mono;
    [done| |apply wp_extends, wp_markAllBucketClaimsAsAccessed; [done|]].
  - intros h' r [[t ->] Hr] m' ->. destruct (Hr m' eq_refl) as [Hd' Hm'].
    split; [by rewrite Hd'|]. intros name oc Hl.
    destruct (Hm' name oc Hl) as (oc0 & Hl0 & Hme).
    pose proof (claim_answered_app _ t _ _ _ (Ha _ _ Hl0)) as Hans.
    destruct oc0 as [c0|]; cbn in Hme; [|by rewrite Hme].
    destruct Hme as (c & -> & Hme). exists c0. split; [done|]. exists c. eauto.
  - intros t n c Hl Hu. left. exists a0, a, c, n. split_and!; try done; try grown.
    + unfold references. apply elem_of_dom_2 in Hl. rewrite Hd in Hl.
      by apply elem_of_list_to_set in Hl.
    + by apply claim_answered_app, Ha.
Qed.

Lemma wp_initialize h a0 a m :
  to_initialize h a0 → ensured h a0 a →
  accessStatus_AccessedBuckets (access_Status a) = [] →
  NoDup (ref_names (accessSpec_BucketClaims (access_Spec a))) →
  protected_claims h a m →
  wp access_contract (initialize a m) h (reconciled a0).
Proof.
  intros Hi He Hab Hnd [Hd Hm]. pose proof (ensured_seen _ _ _ Hi He) as Hs.
  unfold initialize. wp_simpl.
  split; [done|]. intros [class|e]; wp_simpl.
  2: { apply caccess_reconciled_err, access_state_seen. grown. }
  destruct (ValidateAccessAgainstClass _ _) as [err|] eqn:Hval.
  { apply caccess_reconciled_err, access_state_seen. grown. }
  apply ValidateAccessAgainstClass_None in Hval.
  eapply wp_seq; [apply wp_getBucketsForClaims; done|].
  intros t [bm|err] [_ Hbm]; [|apply caccess_reconciled_err, access_state_seen; grown].
  destruct (Hbm bm eq_refl) as [Hdb Hb]. clear Hbm.
  wp_simpl. split; [done|]. intros o1.
  destruct (0 <? length (cannotAccessBucketClaims _ _ _)) eqn:E1;
    [apply caccess_reconciled_err, access_state_seen; grown|apply ltb_0_length in E1].
  wp_simpl. split; [done|]. intros o2.
  destruct (0 <? length (waitingOnBucketClaims _ _ _)) eqn:E2;
    [apply caccess_reconciled_err, access_state_seen; grown|apply ltb_0_length in E2].
  pose proof (claims_usable _ _ _ _ _ E1 E2) as Huse.
  assert (∀ n, n ∈ ref_names (accessSpec_BucketClaims (access_Spec a)) →
    ∃ c b, m !! n = Some (Some c) ∧
      claim_usable (accessSpec_Protocol (access_Spec a)) bm n c b) as Hrefs.
  { intros n Hn. assert (n ∈ dom m) as [oc Hl]%elem_of_dom
      by (rewrite Hd; by apply elem_of_list_to_set).
    destruct (Huse n oc Hl) as (c & b & -> & Hu). eauto. }
  destruct (compileAccessedBuckets_Ok (accessSpec_BucketClaims (access_Spec a)) bm)
    as (out & -> & Hout).
  { intros n Hn. destruct (Hrefs n Hn) as (c & b & _ & Hu). exists b. by apply Hu. }
  set (h1 := _ ++ [Ev MapOrder o2]).
  assert (init_allowed h1 (access_with_initialization out class a)) as Hinit.
  { exists a0, a, class, out. subst h1. split_and!; try done; try grown.
    eapply Forall2_impl; [exact Hout|]. intros ref ab (Href & b & Hbl & ->).
    destruct (Hrefs (claimAccess_BucketClaimName ref)) as (c & b' & Hl & Hu);
      [by apply list_elem_of_fmap_2|].
    destruct Hu as (Hu1 & Hu2 & Hu3 & Hu4 & Hu5 & Hu6).
    assert (b' = b) as -> by congruence.
    destruct (Hb _ _ Hbl) as (oc & Hl' & c' & -> & _ & Hget).
    assert (c' = c) as -> by congruence.
    specialize (Hm _ _ Hl). cbn in Hm. destruct Hm as (c0 & Hc0 & Hc1).
    exists c, b. split_and!; try done; [|hist].
    exists c0. split; [by do 4 apply claim_answered_app|by do 4 apply mark_entry_app]. }
  wp_simpl. split; [by left|]. intros [a'|e]; wp_simpl.
  - unfold reconciled. cbn [snd]. rewrite (proj1 (proj2 (proj2 Hi))). left.
    eexists _, a'. split; [by apply init_allowed_app|hist].
  - apply caccess_reconciled_err. exists (access_with_initialization out class a).
    split; [right; split; [by apply init_allowed_app|exists e; hist]|done].
Qed.

Lemma wp_caccess_reconcileDelete h a0 :
  to_delete h a0 → wp access_contract (reconcileDelete a0) h (reconciled a0).
Proof.
  intros Hi. assert (access_seen h a0) as Hs by (left; apply Hi).
  unfold reconcileDelete. eapply wp_seq; [by apply wp_getAll|].
  intros t1 [m|err] Hm; [|apply caccess_reconciled_err, access_state_seen; grown].
  destruct (Hm m eq_refl) as [Hd Ha]. clear Hm.
  wp_simpl. split; [exists a0; split; [grown|done]|].
  intros [accesses|e]; wp_simpl; [|apply caccess_reconciled_err, access_state_seen; grown].
  eapply wp_seq; [apply wp_unmarkUnaccessedBucketClaims; [done|]|].
  { intros t n c Hl Hmk Hno. right. exists a0, accesses, c, n.
    split_and!; try done; try grown.
    - unfold references. apply elem_of_dom_2 in Hl. rewrite Hd in Hl.
      by apply elem_of_list_to_set in Hl.
    - by do 2 apply claim_answered_app; apply Ha.
    - intros other Hin Hr. destruct (decide (GetName other = GetName a0)); [done|].
      apply not_true_iff_false in Hno. destruct Hno. apply hasBucketAccessReferences_spec. eauto. }
  intros t2 [un [err|]] Hun; cbn in Hun; [apply caccess_reconciled_err, access_state_seen; grown|].
  specialize (Hun eq_refl).
  set (h1 := (_ ++ t2)).
  assert (release_allowed h1 (RemoveFinalizer a0 ProtectionFinalizer)) as Hrel.
  { exists a0, accesses. subst h1. split_and!; try done; try grown.
    intros name Hr. unfold references in Hr.
    assert (name ∈ dom m) as [oc Hl]%elem_of_dom by (rewrite Hd; by apply elem_of_list_to_set).
    exists oc. split; [by do 2 apply claim_answered_app; apply Ha|]. intros c ->. by eapply Hun. }
  wp_simpl. split; [by right|]. intros [a'|e]; wp_simpl.
  - unfold reconciled. cbn [snd]. rewrite (proj2 (proj2 Hi)). eexists _, a'.
    split; [|hist]. by apply release_allowed_app.
  - apply caccess_reconciled_err. exists a0. split; [left; subst h1; grown|done].
Qed.

Lemma wp_caccess_reconcile h a0 :
  access_read h a0 → ManagedBySidecar a0 = false →
  wp access_contract (reconcile a0) h (reconciled a0).
Proof.
  intros Hr Hmb. assert (access_seen h a0) as Hs by by left.
  unfold reconcile. destruct (IsDeleting a0) eqn:Hdel.
  { apply wp_caccess_reconcileDelete. by split. }
  destruct (SidecarRequirementsPresent_cases (access_Status a0))
    as [[_ ->]|[[Hun ->]|(_ & _ & msg & ->)]].
  1, 3: by apply caccess_reconciled_err, access_state_seen.
  assert (to_initialize h a0) as Hi by (by split_and!).
  eapply wp_seq; [by apply wp_caccess_ensureAccessFinalizer|].
  intros t1 [a [err|]] [Hst Hsn]; cbn in Hst, Hsn; [done|].
  specialize (Hsn eq_refl). assert (access_seen (h ++ t1) a) as Hseen
    by (eapply ensured_seen; [grown|done]).
  destruct (validateAllBucketClaimReferencesUnique _) as [err|] eqn:Hu.
  { by apply caccess_reconciled_err. }
  apply references_unique in Hu.
  eapply wp_seq; [by apply wp_getAll|].
  intros t2 [m|err] Hm; [|apply caccess_reconciled_err, access_state_seen; grown].
  destruct (Hm m eq_refl) as [Hd Ha].
  eapply wp_seq; [apply (wp_markAll _ a0 a); [grown|grown|done..]|].
  intros t3 [m'|err] Hm'; [|apply caccess_reconciled_err, access_state_seen; grown].
  destruct (0 <? length _) eqn:Eab.
  - unfold reconciled. cbn [snd]. rewrite Hdel. right. destruct Hsn as [->|Ha'].
    { destruct Hun as [Hx _]. by rewrite Hx in Eab. }
    eexists a, _. split; [apply hist_app, hist_app, Ha'|]. intros Hx. by rewrite Hx in Eab.
  - apply ltb_0_length in Eab.
    apply (wp_initialize _ a0); [grown|grown|done|done|by apply Hm'].
Qed.

(** ** The outcome of [Reconcile] *)

Definition controller_error (e : error) : error := Errorf_w "COSI Controller error" e.

Definition error_recorded (h : list event) (res : error) : Prop :=
  ∃ h' now a e x,
    h = h' ++ [Ev TimeNow now;
               Ev (StatusUpdateAccess (access_with_recorded_error now (controller_error e) a)) x] ∧
    res = match x with
          | Ok _ => if is_nonRetryable e then terminalError (controller_error e)
                    else controller_error e
          | Err _ => controller_error e
          end.

Definition access_outcome (h : list event) (res : option error) : Prop :=
  (∃ e, h = [Ev (GetAccess key) (Err e)] ∧
        res = if client_IsNotFound e then None else Some (of_client_error e)) ∨
  (∃ a0, h = [Ev (GetAccess key) (Ok a0)] ∧ ManagedBySidecar a0 = true ∧ res = None) ∨
  (∃ a0, access_read h a0 ∧ ManagedBySidecar a0 = false ∧
     match res with
     | None => if IsDeleting a0 then cleaned_up h else initialized h
     | Some err => error_recorded h err
     end).

Lemma wp_caccess_Reconcile : wp access_contract (Reconcile key) [] access_outcome.
Proof.
  unfold Reconcile. wp_simpl. split; [done|]. intros [a0|e]; wp_simpl.
  2: { destruct (IsNotFound (of_client_error e)) eqn:En; left; exists e;
       (split; [done|]); unfold client_IsNotFound; by rewrite En. }
  change ([] ++ [Ev (GetAccess key) (Ok a0)]) with [Ev (GetAccess key) (Ok a0)].
  destruct (ManagedBySidecar a0) eqn:Hmb.
  { right; left. by exists a0. }
  assert (access_read [Ev (GetAccess key) (Ok a0)] a0) as Hr by (unfold access_read; set_solver).
  eapply wp_seq; [by apply wp_caccess_reconcile|].
  intros t [a [err|]] Hrec; cbn [reconciled fst snd] in Hrec.
  2: { right; right. exists a0. split; [unfold access_read in *; hist|done]. }
  unfold reconciled in Hrec. cbn [fst snd] in Hrec.
  pose proof (is_nonRetryable_Errorf_w "COSI Controller error" err) as Hnr.
  wp_run; cbn [access_contract]; try done.
  - right. exists a, x, (controller_error err). split; [grown|done].
  - right; right. exists a0. split; [unfold access_read in *; hist|]. split; [done|].
    eexists _, _, a, err, _. split; [by rewrite <-app_assoc|].
    cbv beta iota. by rewrite <-Hnr.
  - right; right. exists a0. split; [unfold access_read in *; hist|]. split; [done|].
    eexists _, _, a, err, _. split; [by rewrite <-app_assoc|].
    cbv beta iota. by rewrite <-Hnr.
  - right; right. exists a0. split; [unfold access_read in *; hist|]. split; [done|].
    eexists _, _, a, err, _. split; [by rewrite <-app_assoc|done].
Qed.
End contract.

(** ** Properties *)

(** C18: Initialisation of an access. The Controller writes the status of an access either to
    initialise it, or to record an error: on a state the server returned, or on the initialised
    state when the server has just refused to store it. It initialises the access only when that
    was read uninitialised, live and managed by the Controller, the class that it copies allows
    the request, no claim is referenced twice, and every referenced claim is marked as accessed,
    not under deletion, ready, offers the protocol or lists no protocols at all, and is bound to a
    Bucket that was read with a backend ID. The accessed buckets are listed in the order of the
    spec, one per claim. *)
Theorem access_initialized_when_ready key tr res n a :
  exec (Reconcile key) tr res →
  nth_call tr n = Some (StatusUpdateAccess a) →
  init_allowed key (take n tr) a ∨ record_allowed key (take n tr) a.
Proof. intros Hx Hn. exact (wp_nth_call _ _ _ _ _ _ _ (wp_caccess_Reconcile key) Hx Hn). Qed.

Lemma access_initialized_when_ready_witness :
  let tr := run_trace (Reconcile demo_access_key)
              (demo_world [demo_bound_claim] [demo_ready_bucket] [demo_access] []) in
  let a := access_of (nth_call tr 10) in
  init_allowed demo_access_key (take 10 tr) a ∨ record_allowed demo_access_key (take 10 tr) a.
Proof.
  cbn zeta. eapply access_initialized_when_ready; [apply run_exec|].
  vm_compute. reflexivity.
Defined.

(** C19: Marks on claims. The Controller updates a claim only to add the mark, for an access
    that it is about to initialise and that refers to the claim, or to remove it, for an
    access under deletion, when no other listed access of the namespace refers to the
    claim. Nothing else of the claim is changed. *)
Theorem claim_marks_follow_references key tr res n c :
  exec (Reconcile key) tr res →
  nth_call tr n = Some (UpdateClaim c) →
  mark_allowed key (take n tr) c ∨ unmark_allowed key (take n tr) c.
Proof. intros Hx Hn. exact (wp_nth_call _ _ _ _ _ _ _ (wp_caccess_Reconcile key) Hx Hn). Qed.

Lemma claim_marks_follow_references_witness :
  let tr := run_trace (Reconcile demo_access_key)
              (demo_world [demo_bound_claim] [demo_ready_bucket] [demo_access] []) in
  let c := claim_of (nth_call tr 4) in
  mark_allowed demo_access_key (take 4 tr) c ∨ unmark_allowed demo_access_key (take 4 tr) c.
Proof.
  cbn zeta. eapply claim_marks_follow_references; [apply run_exec|].
  vm_compute. reflexivity.
Defined.

(** The protection finalizer of an access. It is added while the access is live, and removed under
    deletion only after every referenced claim turned out not to exist, to be unmarked or to be
    referenced by another access, or was unmarked. *)
Theorem access_finalizer_discipline key tr res n a :
  exec (Reconcile key) tr res →
  nth_call tr n = Some (UpdateAccess a) →
  protect_allowed key (take n tr) a ∨ release_allowed key (take n tr) a.
Proof. intros Hx Hn. exact (wp_nth_call _ _ _ _ _ _ _ (wp_caccess_Reconcile key) Hx Hn). Qed.

(** The access after the Sidecar has cleaned up, and its claim that is still marked. *)
Definition demo_cleaned_access : BucketAccess :=
  set_annotation SidecarCleanupFinishedAnnotation "" (deleting demo_granted_access).
Definition demo_cleanup_world : World :=
  demo_world [marked demo_bound_claim] [demo_ready_bucket] [demo_cleaned_access] [].

Lemma access_finalizer_discipline_witness :
  let tr := run_trace (Reconcile demo_access_key) demo_cleanup_world in
  let a := access_of (nth_call tr 5) in
  protect_allowed demo_access_key (take 5 tr) a ∨ release_allowed demo_access_key (take 5 tr) a.
Proof.
  cbn zeta. eapply access_finalizer_discipline; [apply run_exec|].
  vm_compute. reflexivity.
Defined.

(** C21: Outcome of an access reconcile in the Controller. An access that the Sidecar
    manages is left alone: it is read and nothing else is called. Otherwise the reconcile
    ends without an error only when the access does not exist, was initialised or was
    cleaned up; any error is recorded by the last call, attributed to the Controller, and
    is terminal exactly when it is non-retryable and the record was stored. *)
Theorem access_reconcile_outcome key tr res :
  exec (Reconcile key) tr res → access_outcome key tr res.
Proof. intros Hx. exact (proj1 (wp_exec _ _ _ _ _ (wp_caccess_Reconcile key) Hx)). Qed.

Lemma access_reconcile_outcome_witness :
  access_outcome demo_access_key (run_trace (Reconcile demo_access_key) demo_cleanup_world) None.
Proof.
  apply access_reconcile_outcome.
  exact (run_exec (Reconcile demo_access_key) demo_cleanup_world).
Defined.

(** Totality of the lookups. When [getAllBucketClaims] returns no error its map has an
    entry for exactly the referenced claims, and when [getBucketsForClaims] returns no
    error its map has an entry for exactly the given claims, so that the error "did not get
    one or more Buckets, but no errors observed" is never returned. *)
Theorem lookups_are_total ns refs m tr1 r1 tr2 r2 :
  exec (getAllBucketClaims ns refs) tr1 r1 →
  exec (getBucketsForClaims m) tr2 r2 →
  (∀ claims, r1 = Ok claims → dom claims = list_to_set (ref_names refs)) ∧
  r2 ≠ Err missing_buckets_error ∧
  (∀ buckets, r2 = Ok buckets → dom buckets = dom m).
Proof.
  intros H1 H2.
  destruct (wp_exec _ _ _ _ _ (wp_getAllBucketClaims (λ _ _, True) ns refs [] ltac:(done)) H1)
    as [Hc _].
  destruct (wp_exec _ _ _ _ _ (wp_getBucketsForClaims (λ _ _, True) m [] ltac:(done) ltac:(done)) H2)
    as [[Hne Hb] _].
  split; [|split; [done|]]; intros ? ?; [by apply Hc|by apply Hb].
Qed.

Lemma lookups_are_total_witness :
  let refs := accessSpec_BucketClaims (access_Spec demo_access) in
  let m : claims_map := {[ "data" := Some demo_bound_claim; "other" := None ]} in
  let p := getBucketsForClaims m in
  run_result p demo_cleanup_world ≠ Err missing_buckets_error ∧
  ∀ buckets, run_result p demo_cleanup_world = Ok buckets → dom buckets = dom m.
Proof.
  cbn zeta.
  exact (proj2 (lookups_are_total "app" (accessSpec_BucketClaims (access_Spec demo_access))
    {[ "data" := Some demo_bound_claim; "other" := None ]} _ _ _ _
    (run_exec _ demo_cleanup_world) (run_exec _ demo_cleanup_world))).
Defined.
