(* ===== verification/SidecarBucket.v ===== *)
(** * The Bucket reconciler of the COSI Sidecar

    Models [src/sidecar/pkg/reconciler/bucket.go], and the Controller's Bucket reconciler
    of [src/controller/pkg/reconciler/bucket.go], which does nothing. A Sidecar serves one
    driver, whose info is a parameter. *)

From stdpp Require Import base gmap strings list.
From S2P Require Import Prelude GoErrors ApiTypes ProtoTypes Effects ApiServer.
From S2P Require Import Protocol Translator Driver.

(** ** Protocol lists *)

Fixpoint objectProtocolList_loop (apiList : list string) (out : list ObjectProtocol)
    (errs : list error) : list ObjectProtocol * list error :=
  match apiList with
  | [] => (out, errs)
  | apiProto :: rest =>
      match ObjectProtocol_ApiToRpc apiProto with
      | Err err => objectProtocolList_loop rest out (errs ++ [err])
      | Ok rpcProto => objectProtocolList_loop rest (out ++ [{| proto_Type := rpcProto |}]) errs
      end
  end.

Definition objectProtocolListFromApiList (apiList : list string) :
    result error (list ObjectProtocol) :=
  let '(out, errs) := objectProtocolList_loop apiList [] [] in
  match report "failed to parse protocol list" errs with
  | Some err => Err err
  | None => Ok out
  end.

Definition validateDriverSupportsProtocols (driver : DriverInfo) (required : list ObjectProtocol) :
    option error :=
  let unsupportedProtos :=
    flat_map (λ proto, if negb (SupportsProtocol driver (proto_Type proto))
                       then [ObjectProtocol_Type_String (proto_Type proto)] else []) required in
  if 0 <? length unsupportedProtos
  then Some (Errorf ("driver " +:+ quote (driver_Name driver) +:+
                     " does not support protocols: " +:+ fmt_slice unsupportedProtos))
  else None.

Definition validateBucketSupportsProtocols (supported required : list string) : option error :=
  let unsupported :=
    flat_map (λ req, if negb (slices_Contains supported req) then [req] else []) required in
  if 0 <? length unsupported
  then Some (Errorf ("required protocols are not supported: " +:+ fmt_slice unsupported))
  else None.

(** ** Provisioning *)

Record provisionedBucketDetails : Type := {
  details_bucketId : string;
  details_supportedProtos : list string;
  details_allProtoBucketInfo : gmap string string
}.

Record dynamicProvisionParams : Type := {
  dynamic_bucketName : string;
  dynamic_requiredProtos : list ObjectProtocol;
  dynamic_parameters : gmap string string;
  dynamic_claimRef : BucketClaimReference
}.

Record staticProvisionParams : Type := {
  static_existingBucketID : string;
  static_requiredProtos : list ObjectProtocol;
  static_parameters : gmap string string;
  static_claimRef : BucketClaimReference
}.

(** [fmt]'s verb %#v on a BucketClaimReference. *)
Definition fmt_claimRef (cr : BucketClaimReference) : string :=
  "v1alpha2.BucketClaimReference{Name:" +:+ quote (claimRef_Name cr) +:+ ", Namespace:" +:+
  quote (claimRef_Namespace cr) +:+ ", UID:" +:+ quote (claimRef_UID cr) +:+ "}".

(** The details from the translated response. *)
Definition details_of (bucketId : string)
    (translated : result error (list string * gmap string string)) :
    result error provisionedBucketDetails :=
  match translated with
  | Err err => Err (NonRetryable err)
  | Ok (supportedProtos, allBucketInfo) =>
      Ok {| details_bucketId := bucketId; details_supportedProtos := supportedProtos;
            details_allProtoBucketInfo := allBucketInfo |}
  end.

Definition dynamicProvision (dynamic : dynamicProvisionParams) :
    prog (result error provisionedBucketDetails) :=
  let cr := dynamic_claimRef dynamic in
  if (claimRef_Name cr =s "") || (claimRef_Namespace cr =s "") || (claimRef_UID cr =s "")
  then Ret (Err (NonRetryable (Errorf
         ("all bucketClaimRef fields must be set for dynamic provisioning: " +:+ fmt_claimRef cr))))
  else
    rresp ← rpc (perform (DriverCreateBucket {|
      createReq_Name := dynamic_bucketName dynamic;
      createReq_Protocols := dynamic_requiredProtos dynamic;
      createReq_Parameters := dynamic_parameters dynamic |}));
    match rresp with
    | Err err =>
        if rpcErrorIsRetryable (status_Code err) then Ret (Err err) else Ret (Err (NonRetryable err))
    | Ok resp =>
        if createResp_BucketId resp =s ""
        then Ret (Err (NonRetryable (Errorf "created bucket ID missing")))
        else
          match createResp_Protocols resp with
          | None => Ret (Err (NonRetryable (Errorf "created bucket protocol response missing")))
          | Some protoResp =>
              Ret (details_of (createResp_BucketId resp) (BucketInfoToApi (Some protoResp) None))
          end
    end.

Definition staticProvision (static : staticProvisionParams) :
    prog (result error provisionedBucketDetails) :=
  let ref := static_claimRef static in
  if (claimRef_Name ref =s "") || (claimRef_Namespace ref =s "")
  then Ret (Err (NonRetryable (Errorf
         ("bucketClaimRef namespace and name must be set for static provisioning: " +:+
          fmt_claimRef ref))))
  else
    rresp ← rpc (perform (DriverGetExistingBucket {|
      getReq_ExistingBucketId := static_existingBucketID static;
      getReq_Protocols := static_requiredProtos static;
      getReq_Parameters := static_parameters static |}));
    match rresp with
    | Err err =>
        if bool_decide (status_Code err = CodeNotFound)
        then Ret (Err (Errorf_w "waiting for backend bucket to exist" err))
        else if rpcErrorIsRetryable (status_Code err) then Ret (Err err)
        else Ret (Err (NonRetryable err))
    | Ok resp =>
        if getResp_BucketId resp =s ""
        then Ret (Err (NonRetryable (Errorf "existing bucket ID missing in response")))
        else
          match getResp_Protocols resp with
          | None => Ret (Err (NonRetryable (Errorf "existing bucket protocol response missing")))
          | Some protoResp =>
              Ret (details_of (getResp_BucketId resp) (BucketInfoToApi (Some protoResp) None))
          end
    end.

(** ** Reconciliation *)

(** [AddFinalizer] and the update when it changed the Bucket. *)
Definition ensureBucketFinalizer (bucket : Bucket) : prog (Bucket * option error) :=
  let '(bucket, didAdd) := AddFinalizer bucket ProtectionFinalizer in
  if didAdd then
    rupd ← api (perform (UpdateBucket bucket));
    match rupd with
    | Err err => Ret (bucket, Some (Errorf_w "failed to add protection finalizer" err))
    | Ok bucket => Ret (bucket, None)
    end
  else Ret (bucket, None).

Definition provision (bucket : Bucket) (isStaticProvisioning : bool)
    (requiredProtos : list ObjectProtocol) : prog (result error provisionedBucketDetails) :=
  if isStaticProvisioning
  then staticProvision {|
         static_existingBucketID := bucketSpec_ExistingBucketID (bucket_Spec bucket);
         static_requiredProtos := requiredProtos;
         static_parameters := bucketSpec_Parameters (bucket_Spec bucket);
         static_claimRef := bucketSpec_BucketClaimRef (bucket_Spec bucket) |}
  else dynamicProvision {|
         dynamic_bucketName := GetName bucket;
         dynamic_requiredProtos := requiredProtos;
         dynamic_parameters := bucketSpec_Parameters (bucket_Spec bucket);
         dynamic_claimRef := bucketSpec_BucketClaimRef (bucket_Spec bucket) |}.

Definition provisioned_status (d : provisionedBucketDetails) : BucketStatus := {|
  bucketStatus_ReadyToUse := Some true;
  bucketStatus_BucketID := details_bucketId d;
  bucketStatus_Protocols := details_supportedProtos d;
  bucketStatus_BucketInfo := details_allProtoBucketInfo d;
  bucketStatus_Error := None |}.

(** The final validation and the status update. *)
Definition finishProvisioning (bucket : Bucket) (provisionedBucket : provisionedBucketDetails) :
    prog (Bucket * option error) :=
  if length (details_supportedProtos provisionedBucket) =? 0
  then Ret (bucket, Some (NonRetryable (Errorf "created bucket supports no protocols")))
  else
    match validateBucketSupportsProtocols (details_supportedProtos provisionedBucket)
            (bucketSpec_Protocols (bucket_Spec bucket)) with
    | Some err => Ret (bucket, Some (NonRetryable
                    (Errorf_w "bucket required protocols missing" err)))
    | None =>
        let bucket := bucket_with_Status (provisioned_status provisionedBucket) bucket in
        rupd ← api (perform (StatusUpdateBucket bucket));
        match rupd with
        | Err err => Ret (bucket, Some (Errorf_w
                       "failed to update Bucket status after successful bucket creation" err))
        | Ok bucket => Ret (bucket, None)
        end
    end.

Definition reconcileDelete (bucket : Bucket) : prog (Bucket * option error) :=
  let bucket := RemoveFinalizer bucket ProtectionFinalizer in
  rupd ← api (perform (UpdateBucket bucket));
  match rupd with
  | Err err => Ret (bucket, Some (Errorf_w "failed to remove finalizer" err))
  | Ok bucket => Ret (bucket, Some (NonRetryable (Errorf "deletion is not yet implemented")))
  end.

Section reconciler.
Context (DriverInfo_ : DriverInfo).

Definition reconcile (bucket : Bucket) : prog (Bucket * option error) :=
  if bucketSpec_DriverName (bucket_Spec bucket) <>s driver_Name DriverInfo_
  then Ret (bucket, None)
  else if IsDeleting bucket then reconcileDelete bucket
  else
    match objectProtocolListFromApiList (bucketSpec_Protocols (bucket_Spec bucket)) with
    | Err err => Ret (bucket, Some (NonRetryable err))
    | Ok requiredProtos =>
        match validateDriverSupportsProtocols DriverInfo_ requiredProtos with
        | Some err => Ret (bucket, Some (NonRetryable err))
        | None =>
            let isStaticProvisioning :=
              bucketSpec_ExistingBucketID (bucket_Spec bucket) <>s "" in
            '(bucket, ferr) ← ensureBucketFinalizer bucket;
            match ferr with
            | Some err => Ret (bucket, Some err)
            | None =>
                rdetails ← provision bucket isStaticProvisioning requiredProtos;
                match rdetails with
                | Err err => Ret (bucket, Some err)
                | Ok provisionedBucket => finishProvisioning bucket provisionedBucket
                end
            end
        end
    end.

Definition bucket_with_recorded_error (now : Z) (err : error) (bucket : Bucket) : Bucket :=
  bucket_with_Status
    (bucketStatus_with_Error (Some (NewTimestampedError now (Error err)))
       (bucketStatus_with_ReadyToUse
          (default_not_ready (bucketStatus_ReadyToUse (bucket_Status bucket)))
          (bucket_Status bucket))) bucket.

Definition bucket_with_cleared_error (bucket : Bucket) : Bucket :=
  bucket_with_Status
    (bucketStatus_with_Error None
       (bucketStatus_with_ReadyToUse
          (default_not_ready (bucketStatus_ReadyToUse (bucket_Status bucket)))
          (bucket_Status bucket))) bucket.

(** [bucket.Status.Error != nil]. *)
Definition bucket_has_error (bucket : Bucket) : bool :=
  match bucketStatus_Error (bucket_Status bucket) with Some _ => true | None => false end.

Definition Reconcile (key : NamespacedName) : prog (option error) :=
  rbucket ← api (perform (GetBucket key));
  match rbucket with
  | Err err => if IsNotFound err then Ret None else Ret (Some err)
  | Ok bucket =>
      '(bucket, rerr) ← reconcile bucket;
      match rerr with
      | Some err =>
          now ← time_Now;
          rupd ← api (perform (StatusUpdateBucket (bucket_with_recorded_error now err bucket)));
          match rupd with
          | Err _ => Ret (Some err)
          | Ok _ => if is_nonRetryable err then Ret (Some (terminalError err)) else Ret (Some err)
          end
      | None =>
          if bucket_has_error bucket && IsDeleting bucket
          then
            rupd ← api (perform (StatusUpdateBucket (bucket_with_cleared_error bucket)));
            match rupd with
            | Err err => Ret (Some err)
            | Ok _ => Ret None
            end
          else Ret None
      end
  end.
End reconciler.

(** The Controller's Bucket reconciler. *)
Definition Controller_Bucket_Reconcile (key : NamespacedName) : prog (option error) := Ret None.

(** ** Specifications of the pure parts *)

(** The protocols of a list, translated one by one. *)
Definition protocols_translated (apiList : list string) (protos : list ObjectProtocol) : Prop :=
  Forall2 (λ a p, ObjectProtocol_ApiToRpc a = Ok (proto_Type p)) apiList protos.

Lemma objectProtocolList_loop_spec l out errs protos :
  objectProtocolList_loop l out errs = (protos, []) →
  errs = [] ∧ ∃ protos', protos = out ++ protos' ∧ protocols_translated l protos'.
Proof.
  revert out errs. induction l as [|a l IH]; intros out errs; cbn.
  - intros [= <- <-]. split; [done|]. exists []. rewrite app_nil_r. split; [done|constructor].
  - destruct (ObjectProtocol_ApiToRpc a) as [p|e] eqn:Ea.
    + intros [-> (protos' & -> & HF)]%IH. split; [done|].
      exists ({| proto_Type := p |} :: protos'). rewrite <-app_assoc. split; [done|].
      by constructor.
    + intros [Hx _]%IH. by destruct errs.
Qed.

Lemma objectProtocolListFromApiList_Ok l protos :
  objectProtocolListFromApiList l = Ok protos → protocols_translated l protos.
Proof.
  unfold objectProtocolListFromApiList.
  destruct (objectProtocolList_loop l [] []) as [out errs] eqn:El.
  destruct (report _ errs) eqn:Er; [done|]. apply report_None in Er as ->.
  intros [= <-]. by apply objectProtocolList_loop_spec in El as [_ (? & -> & ?)].
Qed.

Lemma validateDriverSupportsProtocols_None d protos :
  validateDriverSupportsProtocols d protos = None ↔
  ∀ p, p ∈ protos → proto_Type p ∈ driver_SupportedProtocols d.
Proof.
  unfold validateDriverSupportsProtocols. setoid_rewrite <-SupportsProtocol_spec.
  destruct (0 <? length _) eqn:E.
  - split; [done|]. intros H. apply not_false_iff_true in E. destruct E.
    apply ltb_0_length, flat_map_nil. intros p Hp. by rewrite (H p Hp).
  - apply ltb_0_length in E. rewrite flat_map_nil in E. split; [|done]. intros _ p Hp.
    specialize (E p Hp). by destruct (SupportsProtocol d (proto_Type p)).
Qed.

Lemma validateBucketSupportsProtocols_None supported required :
  validateBucketSupportsProtocols supported required = None ↔
  ∀ p, p ∈ required → p ∈ supported.
Proof.
  unfold validateBucketSupportsProtocols.
  destruct (0 <? length _) eqn:E.
  - split; [done|]. intros H. apply not_false_iff_true in E. destruct E.
    apply ltb_0_length, flat_map_nil. intros p Hp.
    by rewrite (proj2 (slices_Contains_spec _ _) (H p Hp)).
  - apply ltb_0_length in E. rewrite flat_map_nil in E. split; [|done]. intros _ p Hp.
    specialize (E p Hp). apply slices_Contains_spec. by destruct (slices_Contains supported p).
Qed.

(** ** Failures of the driver *)

(** The error of a failed provisioning call, and whether it was for an existing bucket. *)
Definition driver_failure (ev : event) : option (bool * rpc_error) :=
  match ev with
  | Ev (DriverCreateBucket _) (Err e) => Some (false, e)
  | Ev (DriverGetExistingBucket _) (Err e) => Some (true, e)
  | _ => None
  end.

(** How the reconciler classifies it. *)
Definition classified (existing : bool) (e : rpc_error) : error :=
  if existing && bool_decide (rpc_code e = CodeNotFound)
  then Errorf_w "waiting for backend bucket to exist" (of_rpc_error e)
  else if rpcErrorIsRetryable (rpc_code e) then of_rpc_error e
  else NonRetryable (of_rpc_error e).

Lemma classified_nonRetryable existing e :
  is_nonRetryable (classified existing e) = true ↔
  rpc_code e = InvalidArgument ∨ rpc_code e = CodeAlreadyExists ∨ rpc_code e = Unimplemented.
Proof.
  unfold classified. rewrite <-rpcErrorIsRetryable_false.
  destruct (existing && _) eqn:E.
  - apply andb_true_iff in E as [_ E%bool_decide_eq_true]. by rewrite E.
  - by destruct (rpcErrorIsRetryable (rpc_code e)).
Qed.

(** ** What the reconciler may ask of the API server and of the driver *)

Section contract.
Context (d : DriverInfo) (key : NamespacedName).

Definition bucket_read (h : list event) (b : Bucket) : Prop :=
  Ev (GetBucket key) (Ok b) ∈ h.

(** The Bucket is this driver's. *)
Definition mine (b : Bucket) : Prop := bucketSpec_DriverName (bucket_Spec b) = driver_Name d.

(** A live Bucket of this driver was read, whose required protocols are known and
    supported by the driver. *)
Definition to_provision (h : list event) (b0 : Bucket) (protos : list ObjectProtocol) : Prop :=
  bucket_read h b0 ∧ mine b0 ∧ IsDeleting b0 = false ∧
  protocols_translated (bucketSpec_Protocols (bucket_Spec b0)) protos ∧
  ∀ p, p ∈ protos → proto_Type p ∈ driver_SupportedProtocols d.

(** The Bucket [b] with the protection finalizer: as read, or as the server stored it. *)
Definition protected (h : list event) (b0 b : Bucket) : Prop :=
  (b = b0 ∧ ContainsFinalizer b0 ProtectionFinalizer = true) ∨
  Ev (UpdateBucket (AddFinalizer b0 ProtectionFinalizer).1) (Ok b) ∈ h.

Definition protect_allowed (h : list event) (b : Bucket) : Prop :=
  ∃ b0 protos, to_provision h b0 protos ∧ ContainsFinalizer b0 ProtectionFinalizer = false ∧
    b = (AddFinalizer b0 ProtectionFinalizer).1.
Definition release_allowed (h : list event) (b : Bucket) : Prop :=
  ∃ b0, bucket_read h b0 ∧ mine b0 ∧ IsDeleting b0 = true ∧
    b = RemoveFinalizer b0 ProtectionFinalizer.

(** The driver is called for a protected Bucket that names its claim, with the name (or
    the backend ID), parameters and protocols of that Bucket. *)
Definition create_call_allowed (h : list event) (q : DriverCreateBucketRequest) : Prop :=
  ∃ b0 b protos, to_provision h b0 protos ∧ protected h b0 b ∧
    bucketSpec_ExistingBucketID (bucket_Spec b0) = "" ∧
    claimRef_Name (bucketSpec_BucketClaimRef (bucket_Spec b)) ≠ "" ∧
    claimRef_Namespace (bucketSpec_BucketClaimRef (bucket_Spec b)) ≠ "" ∧
    claimRef_UID (bucketSpec_BucketClaimRef (bucket_Spec b)) ≠ "" ∧
    q = {| createReq_Name := GetName b; createReq_Protocols := protos;
           createReq_Parameters := bucketSpec_Parameters (bucket_Spec b) |}.
Definition get_call_allowed (h : list event) (q : DriverGetExistingBucketRequest) : Prop :=
  ∃ b0 b protos, to_provision h b0 protos ∧ protected h b0 b ∧
    bucketSpec_ExistingBucketID (bucket_Spec b0) ≠ "" ∧
    claimRef_Name (bucketSpec_BucketClaimRef (bucket_Spec b)) ≠ "" ∧
    claimRef_Namespace (bucketSpec_BucketClaimRef (bucket_Spec b)) ≠ "" ∧
    q = {| getReq_ExistingBucketId := bucketSpec_ExistingBucketID (bucket_Spec b);
           getReq_Protocols := protos;
           getReq_Parameters := bucketSpec_Parameters (bucket_Spec b) |}.

(** The driver answered a provisioning call with this backend ID and bucket info. *)
Definition driver_answered (h : list event) (id : string) (bi : ObjectProtocolAndBucketInfo) : Prop :=
  (∃ q, Ev (DriverCreateBucket q)
          (Ok {| createResp_BucketId := id; createResp_Protocols := Some bi |}) ∈ h) ∨
  (∃ q, Ev (DriverGetExistingBucket q)
          (Ok {| getResp_BucketId := id; getResp_Protocols := Some bi |}) ∈ h).

(** The Bucket becomes ready only with the driver's answer: a backend ID, at least one
    protocol, every required protocol, and the variables of the bucket info. *)
Definition ready_allowed (h : list event) (b : Bucket) : Prop :=
  ∃ b0 b1 protos id bi, to_provision h b0 protos ∧ protected h b0 b1 ∧
    driver_answered h id bi ∧ id ≠ "" ∧ bucket_info_protocols bi ≠ [] ∧
    (∀ p, p ∈ bucketSpec_Protocols (bucket_Spec b1) → p ∈ bucket_info_protocols bi) ∧
    b = bucket_with_Status {|
          bucketStatus_ReadyToUse := Some true; bucketStatus_BucketID := id;
          bucketStatus_Protocols := bucket_info_protocols bi;
          bucketStatus_BucketInfo := bucket_info_vars bi;
          bucketStatus_Error := None |} b1.

(** A state of the Bucket an error may be recorded on. *)
Definition bucket_state (h : list event) (b : Bucket) : Prop :=
  ∃ b1, (bucket_read h b1 ∨ (∃ b', Ev (UpdateBucket b') (Ok b1) ∈ h) ∨ ready_allowed h b1) ∧
    same_version b b1 ∧ bucket_Spec b = bucket_Spec b1 ∧ bucket_Status b = bucket_Status b1.

Definition record_allowed (h : list event) (b : Bucket) : Prop :=
  (∃ b1 now err, bucket_state h b1 ∧ b = bucket_with_recorded_error now err b1) ∨
  (∃ b1, ((bucket_read h b1 ∧ ¬ mine b1) ∨ ∃ b', Ev (StatusUpdateBucket b') (Ok b1) ∈ h) ∧
     IsDeleting b1 = true ∧ b = bucket_with_cleared_error b1).

Definition bucket_contract (h : list event) (r : req) : Prop :=
  match r with
  | GetBucket k => k = key
  | UpdateBucket b => protect_allowed h b ∨ release_allowed h b
  | DriverCreateBucket q => create_call_allowed h q
  | DriverGetExistingBucket q => get_call_allowed h q
  | StatusUpdateBucket b => ready_allowed h b ∨ record_allowed h b
  | TimeNow => True
  | _ => False
  end.

(** The result of [reconcile] on the Bucket [b0]. *)
Definition reconciled (b0 : Bucket) (h : list event) (r : Bucket * option error) : Prop :=
  (∀ ev existing e, ev ∈ h → driver_failure ev = Some (existing, e) →
     r.2 = Some (classified existing e)) ∧
  match r.2 with
  | Some _ => mine b0 ∧ bucket_state h r.1
  | None => (¬ mine b0 ∧ r.1 = b0) ∨
            (∃ b, ready_allowed h b ∧ Ev (StatusUpdateBucket b) (Ok r.1) ∈ h)
  end.

(** ** Proofs *)

Lemma to_provision_app h h' b0 ps : to_provision h b0 ps → to_provision (h ++ h') b0 ps.
Proof. intros (? & ?). split; [unfold bucket_read in *; hist|done]. Qed.
Lemma sbucket_protected_app h h' b0 b : protected h b0 b → protected (h ++ h') b0 b.
Proof. intros [?|?]; [by left|right; hist]. Qed.
Lemma driver_answered_app h h' id bi : driver_answered h id bi → driver_answered (h ++ h') id bi.
Proof. intros [[q ?]|[q ?]]; [left|right]; exists q; hist. Qed.

Lemma sbucket_ready_allowed_app h h' b : ready_allowed h b → ready_allowed (h ++ h') b.
Proof.
  intros (b0 & b1 & protos & id & bi & H1 & H2 & H3 & H). exists b0, b1, protos, id, bi.
  split; [by apply to_provision_app|]. split; [by apply sbucket_protected_app|].
  split; [by apply driver_answered_app|done].
Qed.

Lemma bucket_state_app h h' b : bucket_state h b → bucket_state (h ++ h') b.
Proof.
  intros (b1 & Hb & ?). exists b1. split; [|done]. destruct Hb as [?|[[b' ?]|?]].
  - left. unfold bucket_read in *. hist.
  - right; left. exists b'. hist.
  - right; right. by apply sbucket_ready_allowed_app.
Qed.

(** The calls so far hold no failed driver call. *)
Definition no_failure (h : list event) : Prop := ∀ ev, ev ∈ h → driver_failure ev = None.

Lemma sbucket_no_failure_snoc h ev : no_failure h → driver_failure ev = None → no_failure (h ++ [ev]).
Proof.
  intros Hh He ev' [?|Hx]%elem_of_app; [auto|].
  apply list_elem_of_singleton in Hx as ->. done.
Qed.

Lemma no_failure_reconciled h (r : option error) :
  no_failure h →
  ∀ ev existing e, ev ∈ h → driver_failure ev = Some (existing, e) → r = Some (classified existing e).
Proof. intros Hn ev existing e Hin Hf. by rewrite (Hn ev Hin) in Hf. Qed.

Lemma sbucket_reconciled_err b0 h b err :
  no_failure h → mine b0 → bucket_state h b → reconciled b0 h (b, Some err).
Proof. intros. split; [by apply no_failure_reconciled|done]. Qed.

Lemma wp_ensureBucketFinalizer h b0 protos :
  to_provision h b0 protos → no_failure h →
  wp bucket_contract (ensureBucketFinalizer b0) h (λ h' r, no_failure h' ∧
    bucket_state h' r.1 ∧ (r.2 = None → protected h' b0 r.1)).
Proof.
  intros Hp Hn. unfold ensureBucketFinalizer, AddFinalizer.
  assert (bucket_state h b0) as Hst by (exists b0; split; [left; apply Hp|done]).
  destruct (slices_Contains (GetFinalizers b0) ProtectionFinalizer) eqn:Ef; wp_run.
  - split_and!; try done. intros _. by left.
  - left. exists b0, protos. unfold ContainsFinalizer, AddFinalizer. by rewrite Ef.
  - split_and!.
    + by apply sbucket_no_failure_snoc.
    + exists a. split; [right; left; eexists; hist|done].
    + intros _. right. unfold AddFinalizer. rewrite Ef. hist.
  - split_and!; [by apply sbucket_no_failure_snoc| |done].
    apply bucket_state_app. exists b0. split; [left; apply Hp|done].
Qed.

Definition provision_result (h : list event) (r : result error provisionedBucketDetails) : Prop :=
  match r with
  | Ok det => no_failure h ∧ ∃ id bi, driver_answered h id bi ∧ id ≠ "" ∧
      det = {| details_bucketId := id; details_supportedProtos := bucket_info_protocols bi;
               details_allProtoBucketInfo := bucket_info_vars bi |}
  | Err err => ∀ ev existing e, ev ∈ h → driver_failure ev = Some (existing, e) →
      err = classified existing e
  end.

Lemma provision_result_err h err : no_failure h → provision_result h (Err err).
Proof. intros Hn ev existing e Hin Hf. by rewrite (Hn _ Hin) in Hf. Qed.

(** A failed call just made is the only failure. *)
Lemma provision_result_failed h ev existing e err :
  no_failure h → driver_failure ev = Some (existing, e) → err = classified existing e →
  provision_result (h ++ [ev]) (Err err).
Proof.
  intros Hn He -> ev' existing' e' [Hin|Hx]%elem_of_app Hf.
  - by rewrite (Hn _ Hin) in Hf.
  - apply list_elem_of_singleton in Hx as ->. congruence.
Qed.

Lemma wp_dynamicProvision h b0 b protos :
  to_provision h b0 protos → protected h b0 b → no_failure h →
  bucketSpec_ExistingBucketID (bucket_Spec b0) = "" →
  wp bucket_contract (provision b false protos) h provision_result.
Proof.
  intros Hp Hb Hn Hex. cbn [provision]. unfold dynamicProvision. cbn [dynamic_claimRef].
  wp_run; rewrite ?BucketInfoToApi_unvalidated; reflect_bools; rewrite ?status_Code_rpc in *.
  all: try (apply provision_result_err; first [done | by apply sbucket_no_failure_snoc]).
  - exists b0, b, protos. split_and!; try done.
  - split; [by apply sbucket_no_failure_snoc|].
    destruct a as [id prs]. cbn in *. subst prs. eexists _, _. split; [|by split].
    left. eexists. hist.
  - eapply (provision_result_failed _ _ false e); [done..|]. unfold classified. cbn. by case_match.
  - eapply (provision_result_failed _ _ false e); [done..|]. unfold classified. cbn. by case_match.
Qed.

Lemma wp_staticProvision h b0 b protos :
  to_provision h b0 protos → protected h b0 b → no_failure h →
  bucketSpec_ExistingBucketID (bucket_Spec b0) ≠ "" →
  wp bucket_contract (provision b true protos) h provision_result.
Proof.
  intros Hp Hb Hn Hex. cbn [provision]. unfold staticProvision. cbn [static_claimRef].
  wp_run; rewrite ?BucketInfoToApi_unvalidated; reflect_bools; rewrite ?status_Code_rpc in *.
  all: try (apply provision_result_err; first [done | by apply sbucket_no_failure_snoc]).
  - exists b0, b, protos. split_and!; try done.
  - split; [by apply sbucket_no_failure_snoc|].
    destruct a as [id prs]. cbn in *. subst prs. eexists _, _. split; [|by split].
    right. eexists. hist.
  - eapply (provision_result_failed _ _ true e); [done..|]. unfold classified. cbn. by rewrite E0.
  - eapply (provision_result_failed _ _ true e); [done..|]. unfold classified. cbn.
    rewrite E0. by case_match.
  - eapply (provision_result_failed _ _ true e); [done..|]. unfold classified. cbn.
    rewrite E0. by case_match.
Qed.

Lemma wp_finishProvisioning h b0 b protos det :
  to_provision h b0 protos → protected h b0 b → bucket_state h b →
  provision_result h (Ok det) →
  wp bucket_contract (finishProvisioning b det) h (reconciled b0).
Proof.
  intros Hp Hb Hst (Hn & id & bi & Ha & Hid & ->).
  assert (mine b0) as Hm by apply Hp. unfold finishProvisioning. cbn [details_supportedProtos].
  destruct (length (bucket_info_protocols bi) =? 0) eqn:El; [by apply sbucket_reconciled_err|].
  destruct (validateBucketSupportsProtocols _ _) as [err|] eqn:Ev; [by apply sbucket_reconciled_err|].
  set (b1 := bucket_with_Status _ b).
  assert (ready_allowed h b1) as Hr.
  { exists b0, b, protos, id, bi. split_and!; try done.
    - intros Hx. by rewrite Hx in El.
    - by apply validateBucketSupportsProtocols_None. }
  wp_simpl. split; [by left|]. intros [b'|e]; wp_simpl.
  - split; [by apply no_failure_reconciled, sbucket_no_failure_snoc|].
    right. exists b1. split; [by apply sbucket_ready_allowed_app|hist].
  - apply sbucket_reconciled_err; [by apply sbucket_no_failure_snoc|done|].
    exists b1. split; [right; right; by apply sbucket_ready_allowed_app|done].
Qed.

Lemma wp_sbucket_reconcile h b0 :
  bucket_read h b0 → no_failure h → wp bucket_contract (reconcile d b0) h (reconciled b0).
Proof.
  intros Hr Hn. assert (bucket_state h b0) as Hst by (exists b0; split; [by left|done]).
  unfold reconcile. destruct (_ <>s driver_Name d) eqn:Ed; reflect_bools.
  { split; [by apply no_failure_reconciled|]. left. by split. }
  destruct (IsDeleting b0) eqn:Hd.
  { unfold reconcileDelete. wp_run.
    - right. exists b0. done.
    - apply sbucket_reconciled_err; [by apply sbucket_no_failure_snoc|done|].
      exists a. split; [right; left; eexists; hist|done].
    - apply sbucket_reconciled_err; [by apply sbucket_no_failure_snoc|done|].
      apply bucket_state_app. exists b0. split; [by left|done]. }
  destruct (objectProtocolListFromApiList _) as [protos|err] eqn:Ep; [|by apply sbucket_reconciled_err].
  apply objectProtocolListFromApiList_Ok in Ep.
  destruct (validateDriverSupportsProtocols _ _) as [err|] eqn:Es; [by apply sbucket_reconciled_err|].
  pose proof (proj1 (validateDriverSupportsProtocols_None _ _) Es) as Hsup.
  assert (to_provision h b0 protos) as Hp by (by split_and!).
  eapply wp_seq; [by eapply wp_ensureBucketFinalizer|].
  intros t1 [b [err|]] (Hn1 & Hst1 & Hb); cbn in Hst1, Hb; [by apply sbucket_reconciled_err|].
  specialize (Hb eq_refl).
  eapply (wp_seq _ _ _ _ provision_result).
  { destruct (_ <>s "") eqn:Ex; reflect_bools.
    - by eapply wp_staticProvision; [apply to_provision_app|..].
    - by eapply wp_dynamicProvision; [apply to_provision_app|..]. }
  intros t2 [det|err] Hdet.
  - eapply wp_finishProvisioning; [by do 2 apply to_provision_app|by apply sbucket_protected_app|
      by apply bucket_state_app|done].
  - split; [|by split; [|apply bucket_state_app]].
    intros ev existing e Hin Hf. cbn. f_equal. by eapply Hdet.
Qed.

(** ** The outcome of [Reconcile] *)

Definition error_recorded (h : list event) (e res : error) : Prop :=
  ∃ h' now b x,
    h = h' ++ [Ev TimeNow now; Ev (StatusUpdateBucket (bucket_with_recorded_error now e b)) x] ∧
    res = match x with
          | Ok _ => if is_nonRetryable e then terminalError e else e
          | Err _ => e
          end.

Definition became_ready (h : list event) : Prop :=
  ∃ b b', ready_allowed h b ∧ Ev (StatusUpdateBucket b) (Ok b') ∈ h.

(** A Bucket of another driver: it is not provisioned, but one under deletion with an error in its
    status has that error cleared, and an unset readiness set to false. *)
Definition not_provisioned (h : list event) (b0 : Bucket) (res : option error) : Prop :=
  if bucket_has_error b0 && IsDeleting b0 then
    ∃ x, h = [Ev (GetBucket key) (Ok b0);
              Ev (StatusUpdateBucket (bucket_with_cleared_error b0)) x] ∧
      res = match x with Ok _ => None | Err e => Some (of_client_error e) end
  else h = [Ev (GetBucket key) (Ok b0)] ∧ res = None.

Definition bucket_outcome (h : list event) (res : option error) : Prop :=
  (∃ e, h = [Ev (GetBucket key) (Err e)] ∧
        res = if client_IsNotFound e then None else Some (of_client_error e)) ∨
  (∃ b0, ¬ mine b0 ∧ not_provisioned h b0 res) ∨
  (∃ b0, bucket_read h b0 ∧ mine b0 ∧
     match res with
     | None => became_ready h
     | Some err =>
         (∃ e, error_recorded h e err ∧
            ∀ ev existing e', ev ∈ h → driver_failure ev = Some (existing, e') →
              e = classified existing e') ∨
         (∃ h' b e, h = h' ++ [Ev (StatusUpdateBucket b) (Err e)] ∧ err = of_client_error e ∧
            became_ready h)
     end).

Lemma became_ready_app h h' : became_ready h → became_ready (h ++ h').
Proof. intros (b & b' & ? & ?). exists b, b'. split; [by apply sbucket_ready_allowed_app|hist]. Qed.

Lemma outcome_recorded h b0 b err now x :
  bucket_read h b0 → mine b0 → reconciled b0 h (b, Some err) →
  bucket_outcome
    ((h ++ [Ev TimeNow now]) ++ [Ev (StatusUpdateBucket (bucket_with_recorded_error now err b)) x])
    (Some match x with
          | Ok _ => if is_nonRetryable err then terminalError err else err
          | Err _ => err
          end).
Proof.
  intros Hr Hm [Hf _]. right; right. exists b0. split; [unfold bucket_read in *; hist|].
  split; [done|]. left. exists err. split.
  - exists h, now, b, x. by rewrite <-app_assoc.
  - intros ev existing e' [[Hin|Hx]%elem_of_app|Hx]%elem_of_app Hev;
      [|by apply list_elem_of_singleton in Hx as ->..].
    specialize (Hf ev existing e' Hin Hev). cbn in Hf. congruence.
Qed.

(** A Bucket of another driver. *)
Lemma wp_not_provisioned b0 :
  bucketSpec_DriverName (bucket_Spec b0) ≠ driver_Name d →
  let h := [Ev (GetBucket key) (Ok b0)] in
  wp bucket_contract (if bucket_has_error b0 && IsDeleting b0 then
      rupd ← api (perform (StatusUpdateBucket (bucket_with_cleared_error b0)));
      match rupd with Err err => Ret (Some err) | Ok _ => Ret None end
    else Ret None) h bucket_outcome.
Proof.
  intros Hm h. wp_run; cbn [bucket_contract].
  - apply andb_true_iff in E as [E1 E2].
    assert (bucketStatus_Error (bucket_Status b0) ≠ None)
      by (unfold bucket_has_error in E1; by destruct (bucketStatus_Error _)).
    right. right. exists b0. split_and!; try done. left.
    split; [unfold bucket_read; subst h; by left|done].
  - right; left. exists b0. split; [done|]. unfold not_provisioned. rewrite E. eexists. by split.
  - right; left. exists b0. split; [done|]. unfold not_provisioned. rewrite E. eexists. by split.
  - right; left. exists b0. split; [done|]. unfold not_provisioned. by rewrite E.
Qed.

Lemma wp_sbucket_Reconcile : wp bucket_contract (Reconcile d key) [] bucket_outcome.
Proof.
  unfold Reconcile. wp_simpl. split; [done|]. intros [b0|e]; wp_simpl.
  2: { destruct (IsNotFound (of_client_error e)) eqn:En; left; exists e;
       (split; [done|]); unfold client_IsNotFound; by rewrite En. }
  destruct (decide (bucketSpec_DriverName (bucket_Spec b0) = driver_Name d)) as [Hm|Hm].
  2: { unfold reconcile. rewrite (proj2 (neqs_true _ _) Hm). by apply wp_not_provisioned. }
  set (h0 := [] ++ [Ev (GetBucket key) (Ok b0)]).
  assert (bucket_read h0 b0) as Hr by (unfold bucket_read; set_solver).
  assert (no_failure h0) as Hn by (by intros ev ->%list_elem_of_singleton).
  eapply wp_seq; [by apply wp_sbucket_reconcile|].
  assert (∀ t, bucket_read (h0 ++ t) b0) as Hr' by (intros t; unfold bucket_read in *; hist).
  clearbody h0. intros t [b [err|]] Hrec.
  - wp_run; cbn [bucket_contract]; [done|..].
    + right. left. exists b, x, err. split; [by apply bucket_state_app, Hrec|done].
    + epose proof (outcome_recorded _ b0 b err x (Ok _) (Hr' t) Hm Hrec) as Ho.
      by rewrite E in Ho.
    + epose proof (outcome_recorded _ b0 b err x (Ok _) (Hr' t) Hm Hrec) as Ho.
      by rewrite E in Ho.
    + exact (outcome_recorded _ b0 b err x (Err _) (Hr' t) Hm Hrec).
  - destruct Hrec as [_ [[Hnm _]|(b1 & Hready & Hup)]]; [done|].
    assert (became_ready (h0 ++ t)) as Hbr by (exists b1, b; done).
    wp_run; cbn [bucket_contract].
    + right. right. exists b. apply andb_true_iff in E as [_ E]. split_and!; try done.
      right. by exists b1.
    + right; right. exists b0. rewrite <-app_assoc. split_and!; [apply Hr'|done|].
      rewrite app_assoc. by apply became_ready_app.
    + right; right. exists b0. rewrite <-app_assoc. split_and!; [apply Hr'|done|]. right.
      rewrite app_assoc. eexists _, _, _. split_and!; [done..|]. by apply became_ready_app.
    + right; right. exists b0. by split_and!.
Qed.
End contract.

(** ** Properties *)

Definition demo_bucket_key : NamespacedName := global "bc-u1".
Definition demo_bucket_world : World := demo_world [] [demo_bucket; demo_static_bucket] [] [].
Definition create_request_of (r : option req) : DriverCreateBucketRequest :=
  match r with
  | Some (DriverCreateBucket q) => q
  | _ => {| createReq_Name := ""; createReq_Protocols := []; createReq_Parameters := ∅ |}
  end.
Definition get_request_of (r : option req) : DriverGetExistingBucketRequest :=
  match r with
  | Some (DriverGetExistingBucket q) => q
  | _ => {| getReq_ExistingBucketId := ""; getReq_Protocols := []; getReq_Parameters := ∅ |}
  end.

(** The backend is touched only for protected Buckets. The Sidecar asks its driver to
    create a backend bucket only for a live Bucket of that driver, for dynamic
    provisioning, whose claim reference is complete, whose required protocols the driver
    supports, and only after the Bucket was read with the protection finalizer or the
    server stored it; the request carries the Bucket's name, parameters and protocols. *)
Theorem driver_create_only_when_protected d key tr res n q :
  exec (Reconcile d key) tr res →
  nth_call tr n = Some (DriverCreateBucket q) →
  create_call_allowed d key (take n tr) q.
Proof. intros Hx Hn. exact (wp_nth_call _ _ _ _ _ _ _ (wp_sbucket_Reconcile d key) Hx Hn). Qed.

Lemma driver_create_only_when_protected_witness :
  let tr := run_trace (Reconcile demo_driver_info demo_bucket_key) demo_bucket_world in
  create_call_allowed demo_driver_info demo_bucket_key (take 2 tr)
    (create_request_of (nth_call tr 2)).
Proof.
  cbn zeta. eapply driver_create_only_when_protected; [apply run_exec|].
  vm_compute. reflexivity.
Defined.

(** Existing backend buckets. The same holds of the request for an existing backend
    bucket, which is made only for a Bucket that was read with an existing bucket ID and
    names a claim; a static Bucket never leads to the creation of a backend bucket. *)
Theorem driver_get_only_when_protected d key tr res n q :
  exec (Reconcile d key) tr res →
  nth_call tr n = Some (DriverGetExistingBucket q) →
  get_call_allowed d key (take n tr) q.
Proof. intros Hx Hn. exact (wp_nth_call _ _ _ _ _ _ _ (wp_sbucket_Reconcile d key) Hx Hn). Qed.

Lemma driver_get_only_when_protected_witness :
  let tr := run_trace (Reconcile demo_driver_info (global "archive")) demo_bucket_world in
  get_call_allowed demo_driver_info (global "archive") (take 2 tr) (get_request_of (nth_call tr 2)).
Proof.
  cbn zeta. eapply driver_get_only_when_protected; [apply run_exec|].
  vm_compute. reflexivity.
Defined.

(** C23: A Bucket becomes ready only by the driver's answer. A status write either makes
    the Bucket ready, with the backend ID, the protocols and the bucket info variables of
    a response of the driver that names a backend bucket, supports at least one protocol
    and all that the Bucket requires; or it records an error without touching those
    fields; or it clears the error of a Bucket under deletion. *)
Theorem bucket_ready_only_by_driver d key tr res n b :
  exec (Reconcile d key) tr res →
  nth_call tr n = Some (StatusUpdateBucket b) →
  ready_allowed d key (take n tr) b ∨ record_allowed d key (take n tr) b.
Proof. intros Hx Hn. exact (wp_nth_call _ _ _ _ _ _ _ (wp_sbucket_Reconcile d key) Hx Hn). Qed.

Lemma bucket_ready_only_by_driver_witness :
  let tr := run_trace (Reconcile demo_driver_info demo_bucket_key) demo_bucket_world in
  let b := bucket_of (nth_call tr 3) in
  ready_allowed demo_driver_info demo_bucket_key (take 3 tr) b ∨
  record_allowed demo_driver_info demo_bucket_key (take 3 tr) b.
Proof.
  cbn zeta. eapply bucket_ready_only_by_driver; [apply run_exec|].
  vm_compute. reflexivity.
Defined.

(** C24: Outcome of a Bucket reconcile. A Bucket that is not there is no error, and another failure
    of the read is returned. For a Bucket of another driver nothing is asked of the driver and no
    error is recorded: the reconcile ends after the read, except that a Bucket under deletion with
    an error in its status gets that error cleared, and an unset readiness set to false, by one
    status write whose failure is returned. For a Bucket of this driver the reconcile ends without
    an error only when the Bucket was made ready. An error is recorded in the status by the last
    call, and is terminal exactly when it is non-retryable and the record was stored; the only other
    error is that of a last status write, behind one that made the Bucket ready. When the driver
    failed, the recorded error is the driver's: non-retryable exactly for the codes InvalidArgument,
    AlreadyExists and Unimplemented. *)
Theorem bucket_reconcile_outcome d key tr res :
  exec (Reconcile d key) tr res →
  bucket_outcome d key tr res ∧
  ∀ existing e, is_nonRetryable (classified existing e) = true ↔
    rpc_code e = InvalidArgument ∨ rpc_code e = CodeAlreadyExists ∨ rpc_code e = Unimplemented.
Proof.
  intros Hx. split; [|apply classified_nonRetryable].
  exact (proj1 (wp_exec _ _ _ _ _ (wp_sbucket_Reconcile d key) Hx)).
Qed.

Lemma bucket_reconcile_outcome_witness :
  bucket_outcome demo_driver_info demo_bucket_key
    (run_trace (Reconcile demo_driver_info demo_bucket_key) demo_bucket_world) None.
Proof.
  apply (bucket_reconcile_outcome demo_driver_info demo_bucket_key).
  exact (run_exec (Reconcile demo_driver_info demo_bucket_key) demo_bucket_world).
Defined.
