(* ===== verification/SidecarAccess.v ===== *)
(** * The BucketAccess reconciler of the COSI Sidecar

    Models [src/sidecar/pkg/reconciler/bucketaccess.go]: granting access to the buckets of
    an initialised BucketAccess, with the Secrets that hold the credentials, and revoking
    it. [secretsByName] is a map of pointers that the update loop writes through, so that
    loop threads the map. *)

From stdpp Require Import base gmap strings list.
From S2P Require Import Prelude GoErrors ApiTypes ProtoTypes Effects ApiServer Ownership.
From S2P Require Import Protocol Translator Driver.

Abbreviation secrets_map := (gmap string Secret).

(** ** Internal configuration *)

Record internalAccessConfig : Type := {
  cfg_Protocol : Z;
  cfg_AuthenticationType : Z;
  cfg_ServiceAccountName : string;
  cfg_Parameters : gmap string string
}.

Record bucketGrantAccessConfig : Type := {
  bucketCfg_AccessMode : Z;
  bucketCfg_AccessSecretName : string
}.

Record internalGrantAccessConfig : Type := {
  grantCfg_internalAccessConfig : internalAccessConfig;
  grantCfg_AccountName : string;
  grantCfg_AccessConfigsByBucketId : gmap string bucketGrantAccessConfig;
  grantCfg_SecretsByName : secrets_map
}.

Record internalRevokeAccessConfig : Type := {
  revokeCfg_internalAccessConfig : internalAccessConfig;
  revokeCfg_AccountID : string;
  revokeCfg_RevokeBucketList : list DriverRevokeBucketAccessRequest_AccessedBucket
}.

Definition newInternalAccessConfig (access : BucketAccess) : result error internalAccessConfig :=
  match ObjectProtocol_ApiToRpc (accessSpec_Protocol (access_Spec access)) with
  | Err err => Err (NonRetryable err)
  | Ok proto =>
      match AuthenticationTypeToRpc (accessStatus_AuthenticationType (access_Status access)) with
      | Err err => Err (NonRetryable err)
      | Ok authType =>
          let svcAcct :=
            if (authType =? AuthenticationType_SERVICE_ACCOUNT)%Z
            then accessSpec_ServiceAccountName (access_Spec access) else "" in
          Ok {| cfg_Protocol := proto; cfg_AuthenticationType := authType;
                cfg_ServiceAccountName := svcAcct;
                cfg_Parameters := accessStatus_Parameters (access_Status access) |}
      end
  end.

(** The first loop: the ID of the bucket accessed for each claim. *)
Definition bucketIdsByClaimName (accessedBuckets : list AccessedBucket) : gmap string string :=
  foldl (λ m ab, <[accessed_BucketClaimName ab := accessed_BucketID ab]> m) ∅ accessedBuckets.

(** The second loop. The error of the access mode is not wrapped. *)
Fixpoint accessConfigs_loop (ids : gmap string string) (bucketClaims : list BucketClaimAccess)
    (out : gmap string bucketGrantAccessConfig) (errs : list error) :
    gmap string bucketGrantAccessConfig * list error :=
  match bucketClaims with
  | [] => (out, errs)
  | claimRef :: rest =>
      let claimName := claimAccess_BucketClaimName claimRef in
      match ids !! claimName with
      | None =>
          accessConfigs_loop ids rest out (errs ++ [Errorf
            ("could not map BucketClaim " +:+ quote claimName +:+ " to any accessed Bucket")])
      | Some bucketID =>
          match AccessModeToRpc (claimAccess_AccessMode claimRef) with
          | Err _ =>
              accessConfigs_loop ids rest out (errs ++ [Errorf
                ("failed to parse access mode for BucketClaim " +:+ quote claimName)])
          | Ok rpcMode =>
              accessConfigs_loop ids rest
                (<[bucketID := {| bucketCfg_AccessMode := rpcMode;
                     bucketCfg_AccessSecretName := claimAccess_AccessSecretName claimRef |}]> out)
                errs
          end
      end
  end.

Definition generateInternalAccessedBucketConfigs (access : BucketAccess) :
    result error (gmap string bucketGrantAccessConfig) :=
  let ids := bucketIdsByClaimName (accessStatus_AccessedBuckets (access_Status access)) in
  let '(out, errs) := accessConfigs_loop ids (accessSpec_BucketClaims (access_Spec access)) ∅ [] in
  match report "failed to generate internal access configuration" errs with
  | Some err => Err (NonRetryable err)
  | None => Ok out
  end.

Definition newInternalGrantAccessConfig (access : BucketAccess) (secretsByName : secrets_map) :
    result error internalGrantAccessConfig :=
  match newInternalAccessConfig access with
  | Err err => Err err
  | Ok sharedCfg =>
      let acctName := "ba-" +:+ GetUID access in
      match generateInternalAccessedBucketConfigs access with
      | Err err => Err err
      | Ok accessConfigsByBucketId =>
          Ok {| grantCfg_internalAccessConfig := sharedCfg; grantCfg_AccountName := acctName;
                grantCfg_AccessConfigsByBucketId := accessConfigsByBucketId;
                grantCfg_SecretsByName := secretsByName |}
      end
  end.

Definition RpcGrantBucketsList (order : list string) (d : internalGrantAccessConfig) :
    list DriverGrantBucketAccessRequest_AccessedBucket :=
  (λ ic, {| grantReqBucket_BucketId := ic.1;
            grantReqBucket_AccessMode := Some {| accessMode_Mode := bucketCfg_AccessMode ic.2 |} |})
    <$> map_order order (grantCfg_AccessConfigsByBucketId d).

(** The loop of [newInternalRevokeAccessConfig]. *)
Fixpoint revokeList_loop (accessedBuckets : list AccessedBucket) :
    result error (list DriverRevokeBucketAccessRequest_AccessedBucket) :=
  match accessedBuckets with
  | [] => Ok []
  | ab :: rest =>
      if accessed_BucketID ab =s ""
      then Err (NonRetryable (Errorf
             ("unrecoverable degradation: accessedBucket for BucketClaim " +:+
              quote (accessed_BucketClaimName ab) +:+ " is missing bucket ID")))
      else
        match revokeList_loop rest with
        | Err err => Err err
        | Ok l => Ok ({| revokeReqBucket_BucketId := accessed_BucketID ab |} :: l)
        end
  end.

Definition newInternalRevokeAccessConfig (access : BucketAccess) :
    result error internalRevokeAccessConfig :=
  match newInternalAccessConfig access with
  | Err err => Err err
  | Ok sharedCfg =>
      if accessStatus_AccountID (access_Status access) =s ""
      then Err (NonRetryable (Errorf "cannot revoke access for BucketAccess with no account ID"))
      else
        match revokeList_loop (accessStatus_AccessedBuckets (access_Status access)) with
        | Err err => Err err
        | Ok revokeList =>
            Ok {| revokeCfg_internalAccessConfig := sharedCfg;
                  revokeCfg_AccountID := accessStatus_AccountID (access_Status access);
                  revokeCfg_RevokeBucketList := revokeList |}
        end
  end.

(** ** The driver's response *)

Record grantedAccessApiDetails : Type := {
  granted_AccountId : string;
  granted_SharedCredentialInfo : gmap string string;
  granted_BucketInfoByBucketId : gmap string (gmap string string)
}.

Fixpoint translateBuckets_loop (i : Z) (buckets : list DriverGrantBucketAccessResponse_BucketInfo)
    (validation : ValidationConfig) (out : gmap string (gmap string string)) (errs : list error) :
    gmap string (gmap string string) * list error :=
  match buckets with
  | [] => (out, errs)
  | accessBktInfo :: rest =>
      let id := grantRespBucket_BucketId accessBktInfo in
      if id =s ""
      then translateBuckets_loop (i + 1) rest validation out
             (errs ++ [Errorf ("missing bucket ID at index " +:+ fmt_int i)])
      else
        match BucketInfoToApi (grantRespBucket_BucketInfo accessBktInfo) (Some validation) with
        | Err err =>
            translateBuckets_loop (i + 1) rest validation out
              (errs ++ [Errorf_w ("invalid bucket info at index " +:+ fmt_int i) err])
        | Ok (_, info) => translateBuckets_loop (i + 1) rest validation (<[id := info]> out) errs
        end
  end.

Definition translateDriverGrantBucketAccessResponseToApi
    (resp : DriverGrantBucketAccessResponse) (validation : ValidationConfig) :
    result error grantedAccessApiDetails :=
  let errs := when_err (grantResp_AccountId resp =s "") (Errorf "missing account ID") in
  let '(credInfo, errs) :=
    match CredentialsToApi (grantResp_Credentials resp) validation with
    | Err err => (∅, errs ++ [Errorf_w "shared credentials are invalid" err])
    | Ok credInfo => (credInfo, errs)
    end in
  let '(bucketInfoByBucketId, errs) :=
    translateBuckets_loop 0 (grantResp_Buckets resp) validation ∅ errs in
  match report "granted access response is invalid" errs with
  | Some err => Err err
  | None =>
      Ok {| granted_AccountId := grantResp_AccountId resp;
            granted_SharedCredentialInfo := credInfo;
            granted_BucketInfoByBucketId := bucketInfoByBucketId |}
  end.

Definition validateGrantedAccess (order1 order2 : list string)
    (grantCfg : internalGrantAccessConfig) (granted : grantedAccessApiDetails) : option error :=
  let errs :=
    flat_map (λ ic, when_err (negb (has_key ic.1 (granted_BucketInfoByBucketId granted)))
                (Errorf ("granted access missing for bucket ID " +:+ quote ic.1)))
      (map_order order1 (grantCfg_AccessConfigsByBucketId grantCfg)) ++
    flat_map (λ ii, when_err (negb (has_key ii.1 (grantCfg_AccessConfigsByBucketId grantCfg)))
                (Errorf ("granted access to unknown bucket with ID " +:+ quote ii.1)))
      (map_order order2 (granted_BucketInfoByBucketId granted)) in
  report "granted access is invalid" errs.

(** ** Secrets *)

Definition secret_with_StringData (data : gmap string string) (s : Secret) : Secret := {|
  secret_ObjectMeta := secret_ObjectMeta s; secret_Data := secret_Data s;
  secret_StringData := data; secret_Type := secret_Type s |}.

Fixpoint updateSecrets_loop (entries : list (string * gmap string string))
    (configs : gmap string bucketGrantAccessConfig) (credentials : gmap string string)
    (secretsByName : secrets_map) (errs : list error) : prog (list error) :=
  match entries with
  | [] => Ret errs
  | (bucketId, bucketInfo) :: rest =>
      match configs !! bucketId with
      | None =>
          updateSecrets_loop rest configs credentials secretsByName
            (errs ++ [NonRetryable (Errorf ("unknown bucket ID " +:+ quote bucketId))])
      | Some cfg =>
          match secretsByName !! bucketCfg_AccessSecretName cfg with
          | None =>
              updateSecrets_loop rest configs credentials secretsByName
                (errs ++ [NonRetryable (Errorf ("failed internal lookup for Secret with name " +:+
                            quote (bucketCfg_AccessSecretName cfg)))])
          | Some sec =>
              let data := MergeApiInfoIntoStringMap (Some bucketInfo)
                            (MergeApiInfoIntoStringMap (Some credentials) ∅) in
              let sec := secret_with_StringData data sec in
              rupd ← api (perform (UpdateSecret sec));
              match rupd with
              | Err _ =>
                  updateSecrets_loop rest configs credentials
                    (<[bucketCfg_AccessSecretName cfg := sec]> secretsByName)
                    (errs ++ [Errorf ("failed to update BucketAccess Secret " +:+
                       quote (GetName sec) +:+ " with bucket and credential info")])
              | Ok sec =>
                  updateSecrets_loop rest configs credentials
                    (<[bucketCfg_AccessSecretName cfg := sec]> secretsByName) errs
              end
          end
      end
  end.

Definition updateSecretsWithGrantedInfo (grantCfg : internalGrantAccessConfig)
    (granted : grantedAccessApiDetails) : prog (option error) :=
  order ← map_iteration;
  errs ← updateSecrets_loop (map_order order (granted_BucketInfoByBucketId granted))
           (grantCfg_AccessConfigsByBucketId grantCfg) (granted_SharedCredentialInfo granted)
           (grantCfg_SecretsByName grantCfg) [];
  Ret (report "failed to update one or more BucketAccess Secrets" errs).

(** [setAccessSecretRequiredMetadata]. *)
Definition setAccessSecretRequiredMetadata (secret : Secret) : Secret :=
  let secret := (AddFinalizer secret ProtectionFinalizer).1 in
  {| secret_ObjectMeta := secret_ObjectMeta secret; secret_Data := secret_Data secret;
     secret_StringData := secret_StringData secret; secret_Type := SecretTypeOpaque |}.

(** The Secret as [createNewOwnedAccessSecret] builds it, with the controller reference of
    [SetControllerReference], which cannot fail for a new object in the owner's namespace
    whose owner's type is registered in the scheme. *)
Definition newOwnedAccessSecret (secretName : string) (owningAccess : BucketAccess) : Secret :=
  setAccessSecretRequiredMetadata {|
    secret_ObjectMeta := {|
      meta_Name := secretName; meta_Namespace := GetNamespace owningAccess; meta_UID := "";
      meta_ResourceVersion := ""; meta_Generation := 0; meta_DeletionTimestamp := None;
      meta_Annotations := ∅; meta_Finalizers := [];
      meta_OwnerReferences := [{|
        owner_APIVersion := "objectstorage.k8s.io/v1alpha2"; owner_Kind := "BucketAccess";
        owner_Name := GetName owningAccess; owner_UID := GetUID owningAccess;
        owner_Controller := Some true; owner_BlockOwnerDeletion := Some true |}] |};
    secret_Data := ∅; secret_StringData := ∅; secret_Type := "" |}.

Definition createNewOwnedAccessSecret (secretName : string) (owningAccess : BucketAccess) :
    prog (result error Secret) :=
  api (perform (CreateSecret (newOwnedAccessSecret secretName owningAccess))).

Definition updateExistingAccessSecretMetadata (secret : Secret) (owningAccess : BucketAccess) :
    prog (result error Secret) :=
  if negb (IsControlledBy secret owningAccess)
  then Ret (Err (NonRetryable (Errorf ("existing access Secret " +:+ quote (GetName secret) +:+
                                       " does not belong to BucketAccess"))))
  else api (perform (UpdateSecret (setAccessSecretRequiredMetadata secret))).

Definition secret_key (access : BucketAccess) (secretName : string) : NamespacedName :=
  {| nn_Namespace := GetNamespace access; nn_Name := secretName |}.

(** The reservation of one Secret: an existing one is taken over when it is the access's. *)
Definition reserveAccessSecret (access : BucketAccess) (secretName : string) :
    prog (result error Secret) :=
  rget ← api (perform (GetSecret (secret_key access secretName)));
  match rget with
  | Err err =>
      if negb (IsNotFound err) then Ret (Err err)
      else createNewOwnedAccessSecret secretName access
  | Ok existingSecret => updateExistingAccessSecretMetadata existingSecret access
  end.

Fixpoint reserve_loop (access : BucketAccess) (bucketClaims : list BucketClaimAccess)
    (secretsByName : secrets_map) (errs : list error) : prog (secrets_map * list error) :=
  match bucketClaims with
  | [] => Ret (secretsByName, errs)
  | claimRef :: rest =>
      let secretName := claimAccess_AccessSecretName claimRef in
      if has_key secretName secretsByName
      then reserve_loop access rest secretsByName
             (errs ++ [NonRetryable (Errorf
                ("multiple referenced BucketClaims use the same accessSecretName " +:+
                 quote secretName))])
      else
        rsecret ← reserveAccessSecret access secretName;
        match rsecret with
        | Err err => reserve_loop access rest secretsByName (errs ++ [err])
        | Ok secret => reserve_loop access rest (<[secretName := secret]> secretsByName) errs
        end
  end.

Definition unreserved_error : error :=
  Errorf "did not reserve one or more access Secrets, but no errors observed".

Definition reserveAccessSecrets (access : BucketAccess) : prog (result error secrets_map) :=
  '(secretsByName, errs) ← reserve_loop access (accessSpec_BucketClaims (access_Spec access)) ∅ [];
  match report "failed to reserve one or more Secrets for access info" errs with
  | Some err => Ret (Err err)
  | None =>
      if negb (size secretsByName =? length (accessSpec_BucketClaims (access_Spec access)))
      then Ret (Err unreserved_error)
      else Ret (Ok secretsByName)
  end.

(** The loop of [deleteOwnedAccessSecrets]. *)
Fixpoint deleteSecrets_loop (access : BucketAccess) (bucketClaims : list BucketClaimAccess)
    (errs : list error) : prog (list error) :=
  match bucketClaims with
  | [] => Ret errs
  | claimRef :: rest =>
      let secretName := claimAccess_AccessSecretName claimRef in
      rget ← api (perform (GetSecret (secret_key access secretName)));
      match rget with
      | Err err =>
          if IsNotFound err then deleteSecrets_loop access rest errs
          else deleteSecrets_loop access rest (errs ++ [err])
      | Ok secret =>
          if negb (IsControlledBy secret access) then deleteSecrets_loop access rest errs
          else
            rupd ← api (perform (UpdateSecret (RemoveFinalizer secret ProtectionFinalizer)));
            match rupd with
            | Err err =>
                deleteSecrets_loop access rest (errs ++ [Errorf_w
                  "failed to remove protection finalizer from access Secret" err])
            | Ok secret =>
                rdel ← api (perform (DeleteSecret secret));
                match rdel with
                | Err err => deleteSecrets_loop access rest (errs ++ [err])
                | Ok _ => deleteSecrets_loop access rest errs
                end
            end
      end
  end.

Definition deleteOwnedAccessSecrets (access : BucketAccess) : prog (option error) :=
  errs ← deleteSecrets_loop access (accessSpec_BucketClaims (access_Spec access)) [];
  Ret (report "failed to ensure deletion of one or more access Secrets" errs).

(** ** Buckets *)

Definition validateBucketIsReadyForAccess (b : Bucket) (expectedBucketID : string) : option error :=
  let errs :=
    when_err (has_annotation BucketClaimBeingDeletedAnnotation b)
      (Errorf ("BucketClaim for Bucket " +:+ quote (GetName b) +:+ " is deleting")) ++
    when_err (IsDeleting b) (Errorf ("Bucket " +:+ quote (GetName b) +:+ " is deleting")) ++
    when_err (bucketStatus_BucketID (bucket_Status b) =s "")
      (Errorf ("Bucket " +:+ quote (GetName b) +:+ " has no bucketID")) ++
    when_err (bucketStatus_BucketID (bucket_Status b) <>s expectedBucketID)
      (Errorf ("Bucket " +:+ quote (GetName b) +:+ " ID " +:+
               quote (bucketStatus_BucketID (bucket_Status b)) +:+
               " does not match expected ID " +:+ quote expectedBucketID)) in
  report "cannot generate access for one or more Buckets" errs.

Fixpoint validateBuckets_loop (accessedBuckets : list AccessedBucket) (errs : list error) :
    prog (list error) :=
  match accessedBuckets with
  | [] => Ret errs
  | ab :: rest =>
      rget ← api (perform (GetBucket (global (accessed_BucketName ab))));
      match rget with
      | Err err =>
          if IsNotFound err then validateBuckets_loop rest (errs ++ [NonRetryable err])
          else validateBuckets_loop rest (errs ++ [err])
      | Ok bkt =>
          match validateBucketIsReadyForAccess bkt (accessed_BucketID ab) with
          | Some err => validateBuckets_loop rest (errs ++ [NonRetryable err])
          | None => validateBuckets_loop rest errs
          end
      end
  end.

Definition getAndValidateAllAccessedBuckets (access : BucketAccess) : prog (option error) :=
  errs ← validateBuckets_loop (accessStatus_AccessedBuckets (access_Status access)) [];
  Ret (report "failed to get accessed Buckets" errs).

(** ** Granting *)

Definition grant_request (order : list string) (grantCfg : internalGrantAccessConfig) :
    DriverGrantBucketAccessRequest :=
  let shared := grantCfg_internalAccessConfig grantCfg in {|
    grantReq_AccountName := grantCfg_AccountName grantCfg;
    grantReq_Protocol := Some {| proto_Type := cfg_Protocol shared |};
    grantReq_AuthenticationType := Some {| authType_Type := cfg_AuthenticationType shared |};
    grantReq_ServiceAccountName := cfg_ServiceAccountName shared;
    grantReq_Parameters := cfg_Parameters shared;
    grantReq_Buckets := RpcGrantBucketsList order grantCfg |}.

(** The error of a failed grant call. *)
Definition grant_failure (err : error) : error :=
  if bool_decide (status_Code err = OutOfRange)
  then NonRetryable (Errorf_w "driver does not support multi-bucket access" err)
  else if rpcErrorIsRetryable (status_Code err) then err else NonRetryable err.

Definition access_ready (accountId : string) (access : BucketAccess) : BucketAccess :=
  access_with_Status
    (accessStatus_with_Error None
       (accessStatus_with_ReadyToUse (Some true)
          (accessStatus_with_AccountID accountId (access_Status access)))) access.

(** [reconcile] from the driver call on. *)
Definition grantAccess (access : BucketAccess) (grantCfg : internalGrantAccessConfig) :
    prog (BucketAccess * option error) :=
  order ← map_iteration;
  rresp ← rpc (perform (DriverGrantBucketAccess (grant_request order grantCfg)));
  match rresp with
  | Err err => Ret (access, Some (grant_failure err))
  | Ok resp =>
      let validation := {|
        ExpectedProtocol := accessSpec_Protocol (access_Spec access);
        ValidationAuthType := accessStatus_AuthenticationType (access_Status access) |} in
      match translateDriverGrantBucketAccessResponseToApi resp validation with
      | Err err => Ret (access, Some (NonRetryable err))
      | Ok grantDetails =>
          order1 ← map_iteration;
          order2 ← map_iteration;
          match validateGrantedAccess order1 order2 grantCfg grantDetails with
          | Some err => Ret (access, Some (NonRetryable err))
          | None =>
              uerr ← updateSecretsWithGrantedInfo grantCfg grantDetails;
              match uerr with
              | Some err => Ret (access, Some err)
              | None =>
                  let access := access_ready (granted_AccountId grantDetails) access in
                  rupd ← api (perform (StatusUpdateAccess access));
                  match rupd with
                  | Err err => Ret (access, Some (Errorf_w
                      "failed to update BucketAccess status after successful access grant" err))
                  | Ok access => Ret (access, None)
                  end
              end
          end
      end
  end.

(** ** Revoking *)

Definition driverRevokeAccess (access : BucketAccess) : prog (option error) :=
  match newInternalRevokeAccessConfig access with
  | Err err => Ret (Some (Errorf_w
                 "failed to build internal representation of revoke-access configuration" err))
  | Ok revokeCfg =>
      let shared := revokeCfg_internalAccessConfig revokeCfg in
      rresp ← rpc (perform (DriverRevokeBucketAccess {|
        revokeReq_AccountId := accessStatus_AccountID (access_Status access);
        revokeReq_Protocol := Some {| proto_Type := cfg_Protocol shared |};
        revokeReq_AuthenticationType := Some {| authType_Type := cfg_AuthenticationType shared |};
        revokeReq_ServiceAccountName := cfg_ServiceAccountName shared;
        revokeReq_Parameters := cfg_Parameters shared;
        revokeReq_Buckets := revokeCfg_RevokeBucketList revokeCfg |}));
      match rresp with
      | Err err =>
          if rpcErrorIsRetryable (status_Code err) then Ret (Some err)
          else Ret (Some (NonRetryable err))
      | Ok _ => Ret None
      end
  end.

Definition access_deleting_status (access : BucketAccess) : BucketAccess :=
  access_with_Status
    (accessStatus_with_Error None
       (accessStatus_with_ReadyToUse (Some false) (access_Status access))) access.

Definition reconcileDelete (access : BucketAccess) : prog (BucketAccess * option error) :=
  let access := access_deleting_status access in
  rupd ← api (perform (StatusUpdateAccess access));
  match rupd with
  | Err err =>
      Ret (access, Some (Errorf_w "failed to update BucketAccess status before deletion" err))
  | Ok access =>
      serr ← deleteOwnedAccessSecrets access;
      match serr with
      | Some err => Ret (access, Some err)
      | None =>
          rerr ← (if accessStatus_AccountID (access_Status access) <>s ""
                  then driverRevokeAccess access else Ret None);
          match rerr with
          | Some err => Ret (access, Some err)
          | None =>
              let access := set_annotation SidecarCleanupFinishedAnnotation "" access in
              rupd2 ← api (perform (UpdateAccess access));
              match rupd2 with
              | Err err => Ret (access, Some (Errorf_w
                  "failed to update BucketAccess after successful access revocation" err))
              | Ok access => Ret (access, None)
              end
          end
      end
  end.

(** ** Reconciliation *)

(** [AddFinalizer] and the update when it changed the access. *)
Definition ensureAccessFinalizer (access : BucketAccess) : prog (BucketAccess * option error) :=
  let '(access, didAdd) := AddFinalizer access ProtectionFinalizer in
  if didAdd then
    rupd ← api (perform (UpdateAccess access));
    match rupd with
    | Err err => Ret (access, Some (Errorf_w "failed to add protection finalizer" err))
    | Ok access => Ret (access, None)
    end
  else Ret (access, None).

Definition access_with_recorded_error (now : Z) (err : error) (access : BucketAccess) : BucketAccess :=
  access_with_Status
    (accessStatus_with_Error (Some (NewTimestampedError now (Error err)))
       (accessStatus_with_ReadyToUse
          (default_not_ready (accessStatus_ReadyToUse (access_Status access)))
          (access_Status access))) access.

Section reconciler.
Context (DriverInfo_ : DriverInfo).

Definition reconcile (access : BucketAccess) : prog (BucketAccess * option error) :=
  if accessStatus_DriverName (access_Status access) <>s driver_Name DriverInfo_
  then Ret (access, None)
  else if IsDeleting access then reconcileDelete access
  else
    match SidecarRequirementsPresent (access_Status access) with
    | Err err => Ret (access, Some (NonRetryable
                   (Errorf_w "processed a degraded BucketAccess" err)))
    | Ok initialized =>
        if negb initialized
        then Ret (access, Some (NonRetryable (Errorf
               "processed a BucketAccess that should be managed by COSI Controller")))
        else
          '(access, ferr) ← ensureAccessFinalizer access;
          match ferr with
          | Some err => Ret (access, Some err)
          | None =>
              verr ← getAndValidateAllAccessedBuckets access;
              match verr with
              | Some err => Ret (access, Some err)
              | None =>
                  rsecrets ← reserveAccessSecrets access;
                  match rsecrets with
                  | Err err => Ret (access, Some err)
                  | Ok secretsByName =>
                      match newInternalGrantAccessConfig access secretsByName with
                      | Err err => Ret (access, Some (Errorf_w
                          "failed to build internal representation of grant-access configuration" err))
                      | Ok grantCfg => grantAccess access grantCfg
                      end
                  end
              end
          end
    end.

Definition Reconcile (key : NamespacedName) : prog (option error) :=
  raccess ← api (perform (GetAccess key));
  match raccess with
  | Err err => if IsNotFound err then Ret None else Ret (Some err)
  | Ok access =>
      if negb (ManagedBySidecar access) then Ret None
      else
        '(access, rerr) ← reconcile access;
        match rerr with
        | None => Ret None
        | Some err =>
            let err := Errorf_w "COSI Sidecar error" err in
            now ← time_Now;
            rupd ← api (perform (StatusUpdateAccess (access_with_recorded_error now err access)));
            match rupd with
            | Err _ => Ret (Some err)
            | Ok _ => if is_nonRetryable err then Ret (Some (terminalError err)) else Ret (Some err)
            end
        end
  end.
End reconciler.

(** ** Specifications of the pure parts *)

Lemma bucketIdsByClaimName_lookup l n id :
  bucketIdsByClaimName l !! n = Some id →
  ∃ ab, ab ∈ l ∧ accessed_BucketClaimName ab = n ∧ accessed_BucketID ab = id.
Proof.
  unfold bucketIdsByClaimName.
  assert (∀ m : gmap string string,
    foldl (λ m ab, <[accessed_BucketClaimName ab := accessed_BucketID ab]> m) m l !! n = Some id →
    m !! n = Some id ∨
    ∃ ab, ab ∈ l ∧ accessed_BucketClaimName ab = n ∧ accessed_BucketID ab = id) as Hgen.
  { induction l as [|ab l IH]; intros m; cbn; [by left|].
    intros [Hl|(ab' & ? & ?)]%IH; [|right; exists ab'; split; [by right|done]].
    apply lookup_insert_Some in Hl as [[<- <-]|[_ ?]]; [|by left].
    right. exists ab. split; [by left|done]. }
  intros [Hl|?]%Hgen; [|done]. by rewrite lookup_empty in Hl.
Qed.

(** The configuration of a bucket comes from a reference to a claim it is accessed for. *)
Definition config_from (ids : gmap string string) (ref : BucketClaimAccess) (id : string)
    (cfg : bucketGrantAccessConfig) : Prop :=
  ids !! claimAccess_BucketClaimName ref = Some id ∧
  AccessModeToRpc (claimAccess_AccessMode ref) = Ok (bucketCfg_AccessMode cfg) ∧
  bucketCfg_AccessSecretName cfg = claimAccess_AccessSecretName ref.

Lemma accessConfigs_loop_spec ids refs out errs out' :
  accessConfigs_loop ids refs out errs = (out', []) →
  errs = [] ∧ dom out ⊆ dom out' ∧
  (∀ id cfg, out' !! id = Some cfg →
     out !! id = Some cfg ∨ ∃ ref, ref ∈ refs ∧ config_from ids ref id cfg) ∧
  (∀ ref, ref ∈ refs → ∃ id, ids !! claimAccess_BucketClaimName ref = Some id ∧ id ∈ dom out').
Proof.
  revert out errs. induction refs as [|ref refs IH]; intros out errs; cbn.
  - intros [= <- <-]. split_and!; [done..|by left|]. by intros ref ?%elem_of_nil.
  - destruct (ids !! claimAccess_BucketClaimName ref) as [id|] eqn:Ei.
    2: { intros [Hx _]%IH. by destruct errs. }
    destruct (AccessModeToRpc (claimAccess_AccessMode ref)) as [mode|e] eqn:Em.
    2: { intros [Hx _]%IH. by destruct errs. }
    intros (-> & Hd & Hin & Hall)%IH. rewrite dom_insert in Hd. split_and!; [done|set_solver|..].
    + intros id' cfg Hl. destruct (Hin id' cfg Hl) as [Hl'|(ref' & ? & ?)];
        [|right; exists ref'; split; [by right|done]].
      apply lookup_insert_Some in Hl' as [[<- <-]|[_ ?]]; [|by left].
      right. exists ref. split; [by left|]. by split_and!.
    + intros ref' [->|Hr]%elem_of_cons; [|by apply Hall]. exists id. split; [done|set_solver].
Qed.

Lemma generateInternalAccessedBucketConfigs_Ok a configs :
  generateInternalAccessedBucketConfigs a = Ok configs →
  let ids := bucketIdsByClaimName (accessStatus_AccessedBuckets (access_Status a)) in
  (∀ id cfg, configs !! id = Some cfg →
     ∃ ref, ref ∈ accessSpec_BucketClaims (access_Spec a) ∧ config_from ids ref id cfg) ∧
  (∀ ref, ref ∈ accessSpec_BucketClaims (access_Spec a) →
     ∃ id, ids !! claimAccess_BucketClaimName ref = Some id ∧ id ∈ dom configs).
Proof.
  unfold generateInternalAccessedBucketConfigs.
  destruct (accessConfigs_loop _ _ _ _) as [out errs] eqn:El.
  destruct (report _ errs) eqn:Er; [done|]. apply report_None in Er as ->. intros [= <-].
  apply accessConfigs_loop_spec in El as (_ & _ & H1 & H2). split; [|done].
  intros id cfg Hl. destruct (H1 id cfg Hl) as [Hx|?]; [by rewrite lookup_empty in Hx|done].
Qed.

Lemma newInternalGrantAccessConfig_Ok a secrets cfg :
  newInternalGrantAccessConfig a secrets = Ok cfg →
  newInternalAccessConfig a = Ok (grantCfg_internalAccessConfig cfg) ∧
  generateInternalAccessedBucketConfigs a = Ok (grantCfg_AccessConfigsByBucketId cfg) ∧
  grantCfg_AccountName cfg = "ba-" +:+ GetUID a ∧ grantCfg_SecretsByName cfg = secrets.
Proof.
  unfold newInternalGrantAccessConfig.
  destruct (newInternalAccessConfig a); [|done].
  destruct (generateInternalAccessedBucketConfigs a); [|done]. by intros [= <-].
Qed.

(** The bucket IDs of a request and of a response. *)
Abbreviation request_ids q := (grantReqBucket_BucketId <$> grantReq_Buckets q).
Abbreviation response_ids r := (grantRespBucket_BucketId <$> grantResp_Buckets r).

Lemma request_ids_spec order cfg id :
  id ∈ request_ids (grant_request order cfg) ↔ id ∈ dom (grantCfg_AccessConfigsByBucketId cfg).
Proof.
  unfold grant_request, RpcGrantBucketsList. cbn [grantReq_Buckets].
  rewrite <-list_fmap_compose, list_elem_of_fmap, elem_of_dom. split.
  - intros ([id' c] & -> & Hin%elem_of_map_order). eauto.
  - intros [c Hl]. exists (id, c). split; [done|]. by apply elem_of_map_order.
Qed.

Lemma translateBuckets_loop_spec i l v out errs out' :
  translateBuckets_loop i l v out errs = (out', []) →
  errs = [] ∧ dom out' = dom out ∪ list_to_set (grantRespBucket_BucketId <$> l) ∧
  ∀ id info, out' !! id = Some info → out !! id = Some info ∨
    ∃ b bi, b ∈ l ∧ grantRespBucket_BucketId b = id ∧ grantRespBucket_BucketInfo b = Some bi ∧
      bucket_info_accepted v bi ∧ info = bucket_info_vars bi.
Proof.
  revert i out errs. induction l as [|b l IH]; intros i out errs; cbn.
  - intros [= <- <-]. split_and!; [done|set_solver|by left].
  - destruct (grantRespBucket_BucketId b =s "") eqn:Eid.
    { intros [Hx _]%IH. by destruct errs. }
    destruct (BucketInfoToApi _ _) as [[ps info]|e] eqn:Eb.
    2: { intros [Hx _]%IH. by destruct errs. }
    destruct (grantRespBucket_BucketInfo b) as [bi|] eqn:Ebi; [|done].
    destruct (BucketInfoToApi_validated v bi) as [[Ha Hok]|[_ [e He]]]; [|congruence].
    rewrite Hok in Eb. injection Eb as <- <-.
    intros (-> & Hd & Hin)%IH. split_and!; [done|rewrite Hd, dom_insert_L; cbn; set_solver|].
    intros id info Hl. destruct (Hin id info Hl) as [Hl'|(b' & bi' & ? & ?)].
    + apply lookup_insert_Some in Hl' as [[<- <-]|[_ ?]]; [|by left].
      right. exists b, bi. split_and!; try done. by left.
    + right. exists b', bi'. split; [by right|done].
Qed.

(** What a translated response holds. *)
Definition response_translated (resp : DriverGrantBucketAccessResponse) (v : ValidationConfig)
    (g : grantedAccessApiDetails) : Prop :=
  grantResp_AccountId resp ≠ "" ∧ granted_AccountId g = grantResp_AccountId resp ∧
  (∃ ci, grantResp_Credentials resp = Some ci ∧ credentials_accepted v ci ∧
         granted_SharedCredentialInfo g = credential_vars ci) ∧
  dom (granted_BucketInfoByBucketId g) = list_to_set (response_ids resp) ∧
  ∀ id info, granted_BucketInfoByBucketId g !! id = Some info →
    ∃ b bi, b ∈ grantResp_Buckets resp ∧ grantRespBucket_BucketId b = id ∧
      grantRespBucket_BucketInfo b = Some bi ∧ bucket_info_accepted v bi ∧
      info = bucket_info_vars bi.

Lemma translate_response_Ok resp v g :
  translateDriverGrantBucketAccessResponseToApi resp v = Ok g → response_translated resp v g.
Proof.
  unfold translateDriverGrantBucketAccessResponseToApi.
  destruct (CredentialsToApi (grantResp_Credentials resp) v) as [creds|e] eqn:Ec;
    destruct (translateBuckets_loop _ _ _ _ _) as [infos errs] eqn:El;
    (destruct (report _ errs) eqn:Er; [done|]); apply report_None in Er as ->;
    apply translateBuckets_loop_spec in El as (Herr & Hd & Hin); [|by destruct (when_err _ _)].
  intros [= <-]. rewrite when_err_nil, eqs_false in Herr. unfold response_translated.
  cbn [granted_AccountId granted_SharedCredentialInfo granted_BucketInfoByBucketId].
  split_and!; try done.
  - destruct (grantResp_Credentials resp) as [ci|]; [|done].
    destruct (CredentialsToApi_validated v ci) as [[Ha Hok]|[_ [e He]]]; [|congruence].
    exists ci. split; [done|]. split; [done|]. congruence.
  - rewrite Hd. set_solver.
  - intros id info Hl. destruct (Hin id info Hl) as [Hx|?]; [by rewrite lookup_empty in Hx|done].
Qed.

Lemma validateGrantedAccess_None o1 o2 cfg g :
  validateGrantedAccess o1 o2 cfg g = None ↔
  dom (grantCfg_AccessConfigsByBucketId cfg) = dom (granted_BucketInfoByBucketId g).
Proof.
  unfold validateGrantedAccess. rewrite report_None, app_nil, !flat_map_nil.
  setoid_rewrite when_err_nil. setoid_rewrite negb_false_iff.
  split.
  - intros [H1 H2]. apply set_eq. intros id. split; intros [v Hv]%elem_of_dom.
    + apply has_key_dom, (H1 (id, v)). by apply elem_of_map_order.
    + apply has_key_dom, (H2 (id, v)). by apply elem_of_map_order.
  - intros Hd. split; intros [id v] Hin%elem_of_map_order; apply has_key_dom; cbn.
    + rewrite <-Hd. by apply elem_of_dom_2 in Hin.
    + rewrite Hd. by apply elem_of_dom_2 in Hin.
Qed.

(** A Bucket that access can be granted to. *)
Definition bucket_usable (b : Bucket) (id : string) : Prop :=
  has_annotation BucketClaimBeingDeletedAnnotation b = false ∧ IsDeleting b = false ∧
  bucketStatus_BucketID (bucket_Status b) ≠ "" ∧ bucketStatus_BucketID (bucket_Status b) = id.

Lemma validateBucketIsReadyForAccess_None b id :
  validateBucketIsReadyForAccess b id = None ↔ bucket_usable b id.
Proof.
  unfold validateBucketIsReadyForAccess, bucket_usable.
  by rewrite report_None, !app_nil, !when_err_nil, eqs_false, neqs_false.
Qed.

Lemma revokeList_loop_Ok l out :
  revokeList_loop l = Ok out →
  (revokeReqBucket_BucketId <$> out) = (accessed_BucketID <$> l) ∧
  ∀ id, id ∈ (revokeReqBucket_BucketId <$> out) → id ≠ "".
Proof.
  revert out. induction l as [|ab l IH]; intros out; cbn.
  - intros [= <-]. split; [done|]. by intros id ?%elem_of_nil.
  - destruct (accessed_BucketID ab =s "") eqn:E; [done|]. reflect_bools.
    destruct (revokeList_loop l) as [l'|]; [|done]. intros [= <-].
    destruct (IH l' eq_refl) as [H1 H2]. cbn. split; [by f_equal|].
    by intros id [->|Hin]%elem_of_cons; [|apply H2].
Qed.

(** ** What is known of Secrets and Buckets from the calls *)

(** The Secret [s] of name [name] is reserved for the access: it was created for it, or it
    existed, was controlled by it, and was taken over. *)
Definition reserved (h : list event) (a : BucketAccess) (name : string) (s : Secret) : Prop :=
  Ev (CreateSecret (newOwnedAccessSecret name a)) (Ok s) ∈ h ∨
  ∃ s0, Ev (GetSecret (secret_key a name)) (Ok s0) ∈ h ∧ IsControlledBy s0 a = true ∧
        Ev (UpdateSecret (setAccessSecretRequiredMetadata s0)) (Ok s) ∈ h.

(** A reserved Secret, possibly filled with data since. *)
Inductive held (h : list event) (a : BucketAccess) (name : string) : Secret → Prop :=
| held_reserved s : reserved h a name s → held h a name s
| held_filled s data : held h a name s → held h a name (secret_with_StringData data s)
| held_stored s data s' :
    held h a name s → Ev (UpdateSecret (secret_with_StringData data s)) (Ok s') ∈ h →
    held h a name s'.

(** Deletion has dealt with the Secret: it is gone, it is somebody else's, or it lost its
    finalizer and was deleted. *)
Definition secret_dealt_with (h : list event) (a : BucketAccess) (name : string) : Prop :=
  (∃ e, Ev (GetSecret (secret_key a name)) (Err e) ∈ h ∧ client_IsNotFound e = true) ∨
  (∃ s, Ev (GetSecret (secret_key a name)) (Ok s) ∈ h ∧
     (IsControlledBy s a = false ∨
      ∃ s' u, Ev (UpdateSecret (RemoveFinalizer s ProtectionFinalizer)) (Ok s') ∈ h ∧
              Ev (DeleteSecret s') (Ok u) ∈ h)).

Definition bucket_validated (h : list event) (ab : AccessedBucket) : Prop :=
  ∃ b, Ev (GetBucket (global (accessed_BucketName ab))) (Ok b) ∈ h ∧
       bucket_usable b (accessed_BucketID ab).

Lemma reserved_app h h' a n s : reserved h a n s → reserved (h ++ h') a n s.
Proof. intros [?|(s0 & ? & ? & ?)]; [left; hist|right; exists s0; split_and!; try done; hist]. Qed.
Lemma held_app h h' a n s : held h a n s → held (h ++ h') a n s.
Proof.
  induction 1 as [s Hs|s data _ IH|s data s' _ IH Hu].
  - by apply held_reserved, reserved_app.
  - by apply held_filled.
  - eapply held_stored; [exact IH|by apply hist_app, Hu].
Qed.
Lemma secret_dealt_with_app h h' a n : secret_dealt_with h a n → secret_dealt_with (h ++ h') a n.
Proof.
  intros [(e & ? & ?)|(s & ? & [?|(s' & u & ? & ?)])].
  - left. exists e. split; [hist|done].
  - right. exists s. split; [hist|by left].
  - right. exists s. split; [hist|]. right. exists s', u. split; hist.
Qed.
Lemma bucket_validated_app h h' ab : bucket_validated h ab → bucket_validated (h ++ h') ab.
Proof. intros (b & ? & ?). exists b. split; [hist|done]. Qed.

(** The names of the Secrets of an access. *)
Abbreviation secret_names l := (claimAccess_AccessSecretName <$> l).

(** ** The loops *)

Section loops.
Context (I : list event → req → Prop).

Lemma wp_validateBuckets_loop l errs h :
  (∀ t n, I (h ++ t) (GetBucket (global n))) →
  wp I (validateBuckets_loop l errs) h (λ h' r, r = [] →
    errs = [] ∧ ∀ ab, ab ∈ l → bucket_validated h' ab).
Proof.
  revert errs h. induction l as [|ab l IH]; intros errs h HI.
  { cbn. intros ->. split; [done|]. by intros ab ?%elem_of_nil. }
  assert (∀ x errs1, (errs1 = [] → errs = [] ∧ bucket_validated (h ++ [x]) ab) →
    wp I (validateBuckets_loop l errs1) (h ++ [x]) (λ h' r, r = [] →
      errs = [] ∧ ∀ ab', ab' ∈ ab :: l → bucket_validated h' ab')) as Hstep.
  { intros x errs1 He. eapply wp_mono; [done| |apply wp_extends, IH].
    - intros h' r [[t ->] Hr] Hnil. destruct (Hr Hnil) as [H1 H2].
      destruct (He H1) as [-> Hv]. split; [done|].
      intros ab' [->|?]%elem_of_cons; [by apply bucket_validated_app|auto].
    - intros t n. rewrite <-app_assoc. apply HI. }
  assert (I h (GetBucket (global (accessed_BucketName ab)))) as HI0
    by (rewrite <-(app_nil_r h); apply HI).
  cbn [validateBuckets_loop]. wp_simpl. split; [done|]. intros [b|e]; wp_simpl.
  - destruct (validateBucketIsReadyForAccess b _) as [err|] eqn:Ev; apply Hstep.
    + intros Hx. by destruct errs.
    + intros ->. split; [done|]. exists b. split; [hist|].
      by apply validateBucketIsReadyForAccess_None.
  - destruct (IsNotFound _); apply Hstep; intros Hx; by destruct errs.
Qed.

(** What reserving one Secret asks for. *)
Definition reserve_calls (h : list event) (a : BucketAccess) (name : string) : Prop :=
  ∀ t, I (h ++ t) (GetSecret (secret_key a name)) ∧
    (∀ e, Ev (GetSecret (secret_key a name)) (Err e) ∈ h ++ t → client_IsNotFound e = true →
       I (h ++ t) (CreateSecret (newOwnedAccessSecret name a))) ∧
    (∀ s, Ev (GetSecret (secret_key a name)) (Ok s) ∈ h ++ t → IsControlledBy s a = true →
       I (h ++ t) (UpdateSecret (setAccessSecretRequiredMetadata s))).

Lemma reserve_calls_app h h' a n : reserve_calls h a n → reserve_calls (h ++ h') a n.
Proof. intros H t. rewrite <-app_assoc. apply H. Qed.

Lemma wp_reserveAccessSecret a name h :
  reserve_calls h a name →
  wp I (reserveAccessSecret a name) h (λ h' r, ∀ s, r = Ok s → reserved h' a name s).
Proof.
  intros Hc.
  unfold reserveAccessSecret, createNewOwnedAccessSecret, updateExistingAccessSecretMetadata.
  wp_simpl. split; [specialize (Hc []); rewrite app_nil_r in Hc; apply Hc|].
  intros [s|e]; wp_simpl.
  - destruct (IsControlledBy s a) eqn:Ec; cbn [negb]; [|by cbn].
    wp_simpl. split; [apply Hc; [hist|done]|]. intros [s'|e']; wp_simpl; [|done].
    intros s1 [= <-]. right. exists s. split_and!; [hist|done|hist].
  - destruct (IsNotFound (of_client_error e)) eqn:En; cbn [negb]; [|by cbn].
    wp_simpl. split; [eapply Hc; [hist|exact En]|]. intros [s'|e']; wp_simpl; [|done].
    intros s1 [= <-]. left. hist.
Qed.

Lemma wp_reserve_loop a refs m errs h :
  (∀ n, n ∈ secret_names refs → reserve_calls h a n) →
  (∀ n s, m !! n = Some s → reserved h a n s) →
  wp I (reserve_loop a refs m errs) h (λ h' r, r.2 = [] →
    errs = [] ∧ (∀ n s, r.1 !! n = Some s → reserved h' a n s) ∧
    dom r.1 = dom m ∪ list_to_set (secret_names refs) ∧
    NoDup (secret_names refs) ∧ (∀ n, n ∈ secret_names refs → n ∉ dom m)).
Proof.
  revert m errs h. induction refs as [|ref refs IH]; intros m errs h HI Hm.
  { cbn. intros ->. split_and!; [done..|set_solver|constructor|]. by intros n ?%elem_of_nil. }
  set (name := claimAccess_AccessSecretName ref) in *.
  assert (∀ t e m1, (∀ n s, m1 !! n = Some s → reserved (h ++ t) a n s) →
    wp I (reserve_loop a refs m1 (errs ++ [e])) (h ++ t) (λ h' r, r.2 = [] →
      errs = [] ∧ (∀ n s, r.1 !! n = Some s → reserved h' a n s) ∧
      dom r.1 = dom m ∪ list_to_set (name :: secret_names refs) ∧
      NoDup (name :: secret_names refs) ∧ (∀ n, n ∈ name :: secret_names refs → n ∉ dom m)))
    as Herr.
  { intros t e m1 Hm1. eapply wp_mono; [done| |apply IH; [|done]].
    - intros h' r Hr Hnil. destruct (Hr Hnil) as [Hx _]. by destruct errs.
    - intros n Hn. apply reserve_calls_app, HI. by right. }
  assert (∀ t n s, m !! n = Some s → reserved (h ++ t) a n s) as Hmt
    by (intros; apply reserved_app; auto).
  cbn [reserve_loop]. fold name. destruct (has_key name m) eqn:Ek.
  { specialize (Herr [] (NonRetryable (Errorf ("multiple referenced BucketClaims use the same accessSecretName " +:+ quote name))) m).
    rewrite app_nil_r in Herr. by apply Herr. }
  assert (name ∉ dom m) as Hnew by (rewrite <-has_key_dom; by rewrite Ek).
  eapply wp_seq; [apply wp_reserveAccessSecret, HI; by left|].
  intros t [s|e] Hs; [|apply Herr, Hmt].
  eapply wp_mono; [done| |apply IH].
  - intros h' r Hr Hnil. destruct (Hr Hnil) as (-> & H1 & H2 & H3 & H4).
    rewrite dom_insert_L in H2, H4. split_and!; [done..| | |].
    + clear -H2. cbn. set_solver.
    + constructor; [|done]. intros Hx. apply (H4 name Hx). apply elem_of_union. left.
      by apply elem_of_singleton.
    + intros n [->|Hn]%elem_of_cons; [done|]. specialize (H4 n Hn).
      intros Hx. apply H4, elem_of_union. by right.
  - intros n Hn. apply reserve_calls_app, HI. by right.
  - intros n s' [[<- <-]|[_ Hl]]%lookup_insert_Some; [by apply Hs|auto].
Qed.

(** The size check at the end never fails, and the Secret names are all different. *)
Lemma wp_reserveAccessSecrets a h :
  (∀ n, n ∈ secret_names (accessSpec_BucketClaims (access_Spec a)) → reserve_calls h a n) →
  wp I (reserveAccessSecrets a) h (λ h' r, r ≠ Err unreserved_error ∧ ∀ m, r = Ok m →
    NoDup (secret_names (accessSpec_BucketClaims (access_Spec a))) ∧
    dom m = list_to_set (secret_names (accessSpec_BucketClaims (access_Spec a))) ∧
    ∀ n s, m !! n = Some s → reserved h' a n s).
Proof.
  intros HI. unfold reserveAccessSecrets. eapply wp_seq.
  { apply wp_reserve_loop; [done|]. intros n s Hl. by rewrite lookup_empty in Hl. }
  intros t [m errs] Hm. cbn in Hm. destruct (report _ errs) as [e|] eqn:Er.
  { cbn. split; [|done]. intros [= ->]. by destruct errs. }
  apply report_None in Er. destruct (Hm Er) as (_ & Hres & Hd & Hnd & _).
  assert (dom m = list_to_set (secret_names (accessSpec_BucketClaims (access_Spec a)))) as Hdom
    by (rewrite Hd; set_solver).
  assert (size m = length (accessSpec_BucketClaims (access_Spec a))) as Hsize.
  { rewrite <-size_dom, Hdom, size_list_to_set by done. apply length_fmap. }
  rewrite Hsize, Nat.eqb_refl. cbn. split; [done|]. intros m' [= <-]. done.
Qed.

(** The Secret of bucket [id] was stored with the credentials and the bucket info. *)
Definition secret_filled (h : list event) (a : BucketAccess)
    (configs : gmap string bucketGrantAccessConfig) (creds : gmap string string)
    (id : string) (info : gmap string string) : Prop :=
  ∃ cfg sec sec', configs !! id = Some cfg ∧ held h a (bucketCfg_AccessSecretName cfg) sec ∧
    Ev (UpdateSecret (secret_with_StringData (info ∪ creds) sec)) (Ok sec') ∈ h.

Lemma secret_filled_app h h' a configs creds id info :
  secret_filled h a configs creds id info → secret_filled (h ++ h') a configs creds id info.
Proof.
  intros (cfg & sec & sec' & ? & ? & ?). exists cfg, sec, sec'.
  split_and!; [done|by apply held_app|hist].
Qed.

Lemma wp_updateSecrets_loop a entries configs creds m errs h :
  (∀ n s, m !! n = Some s → held h a n s) →
  (∀ t id info cfg s, (id, info) ∈ entries → configs !! id = Some cfg →
     held (h ++ t) a (bucketCfg_AccessSecretName cfg) s →
     I (h ++ t) (UpdateSecret (secret_with_StringData (info ∪ creds) s))) →
  wp I (updateSecrets_loop entries configs creds m errs) h (λ h' r, r = [] →
    errs = [] ∧ ∀ id info, (id, info) ∈ entries → secret_filled h' a configs creds id info).
Proof.
  revert m errs h. induction entries as [|[id info] entries IH]; intros m errs h Hm HI.
  { cbn. intros ->. split; [done|]. by intros id info ?%elem_of_nil. }
  assert (∀ t m1 errs1, (∀ n s, m1 !! n = Some s → held (h ++ t) a n s) →
    (errs1 = [] → errs = [] ∧ secret_filled (h ++ t) a configs creds id info) →
    wp I (updateSecrets_loop entries configs creds m1 errs1) (h ++ t) (λ h' r, r = [] →
      errs = [] ∧ ∀ id' info', (id', info') ∈ (id, info) :: entries →
        secret_filled h' a configs creds id' info')) as Hstep.
  { intros t m1 errs1 Hm1 He. eapply wp_mono; [done| |apply wp_extends, IH; [done|]].
    - intros h' r [[t' ->] Hr] Hnil. destruct (Hr Hnil) as [H1 H2].
      destruct (He H1) as [-> Hf]. split; [done|].
      intros id' info' [[= -> ->]|?]%elem_of_cons; [by apply secret_filled_app|auto].
    - intros t' id' info' cfg s Hin. rewrite <-app_assoc. apply HI. by right. }
  assert (∀ e, wp I (updateSecrets_loop entries configs creds m (errs ++ [e])) h
    (λ h' r, r = [] → errs = [] ∧ ∀ id' info', (id', info') ∈ (id, info) :: entries →
        secret_filled h' a configs creds id' info')) as Hbad.
  { intros e. specialize (Hstep [] m (errs ++ [e])). rewrite app_nil_r in Hstep.
    apply Hstep; [done|]. intros Hx. by destruct errs. }
  cbn [updateSecrets_loop]. destruct (configs !! id) as [cfg|] eqn:Ec; [|apply Hbad].
  destruct (m !! bucketCfg_AccessSecretName cfg) as [sec|] eqn:Es; [|apply Hbad].
  rewrite !Merge_union. cbn [map_of default from_option]. rewrite (right_id_L ∅ (∪)).
  specialize (Hm _ _ Es) as Hheld.
  assert (∀ t n s s', (n = bucketCfg_AccessSecretName cfg → held (h ++ t) a n s') →
    <[bucketCfg_AccessSecretName cfg := s']> m !! n = Some s → held (h ++ t) a n s) as Hins.
  { intros t n s s' Hs' [[<- <-]|[_ Hl]]%lookup_insert_Some; [by apply Hs'|].
    apply held_app. auto. }
  wp_simpl. split.
  { rewrite <-(app_nil_r h). eapply (HI [] id info cfg sec); [by left|done|by rewrite app_nil_r]. }
  intros [s'|e]; wp_simpl.
  - apply Hstep.
    + intros n s. apply Hins. intros ->. eapply held_stored; [by apply held_app|apply hist_here].
    + intros ->. split; [done|]. exists cfg, sec, s'. split_and!; [done|by apply held_app|hist].
  - apply Hstep.
    + intros n s. apply Hins. intros ->. by apply held_filled, held_app.
    + intros Hx. by destruct errs.
Qed.

Lemma wp_updateSecretsWithGrantedInfo a cfg g h :
  (∀ t, I (h ++ t) MapOrder) →
  (∀ n s, grantCfg_SecretsByName cfg !! n = Some s → held h a n s) →
  (∀ t id info c s, granted_BucketInfoByBucketId g !! id = Some info →
     grantCfg_AccessConfigsByBucketId cfg !! id = Some c →
     held (h ++ t) a (bucketCfg_AccessSecretName c) s →
     I (h ++ t) (UpdateSecret
       (secret_with_StringData (info ∪ granted_SharedCredentialInfo g) s))) →
  wp I (updateSecretsWithGrantedInfo cfg g) h (λ h' r, r = None →
    ∀ id info, granted_BucketInfoByBucketId g !! id = Some info →
      secret_filled h' a (grantCfg_AccessConfigsByBucketId cfg)
        (granted_SharedCredentialInfo g) id info).
Proof.
  intros Ho Hm HI. unfold updateSecretsWithGrantedInfo. wp_simpl.
  split; [specialize (Ho []); by rewrite app_nil_r in Ho|]. intros order. eapply wp_seq.
  { eapply (wp_updateSecrets_loop a).
    - intros n s Hl. apply held_app. auto.
    - intros t id info c s Hin%elem_of_map_order. rewrite <-app_assoc. eauto. }
  intros t errs Hr. cbn. intros Er%report_None id info Hl.
  destruct (Hr Er) as [_ Hin]. apply Hin. by apply elem_of_map_order.
Qed.

Lemma wp_deleteSecrets_loop a refs errs h :
  (∀ t n, n ∈ secret_names refs → I (h ++ t) (GetSecret (secret_key a n))) →
  (∀ t n s, n ∈ secret_names refs → Ev (GetSecret (secret_key a n)) (Ok s) ∈ h ++ t →
     IsControlledBy s a = true →
     I (h ++ t) (UpdateSecret (RemoveFinalizer s ProtectionFinalizer)) ∧
     ∀ s', Ev (UpdateSecret (RemoveFinalizer s ProtectionFinalizer)) (Ok s') ∈ h ++ t →
       I (h ++ t) (DeleteSecret s')) →
  wp I (deleteSecrets_loop a refs errs) h (λ h' r, r = [] →
    errs = [] ∧ ∀ n, n ∈ secret_names refs → secret_dealt_with h' a n).
Proof.
  revert errs h. induction refs as [|ref refs IH]; intros errs h HG HU.
  { cbn. intros ->. split; [done|]. by intros n ?%elem_of_nil. }
  set (name := claimAccess_AccessSecretName ref) in *.
  assert (∀ t errs1, (errs1 = [] → errs = [] ∧ secret_dealt_with (h ++ t) a name) →
    wp I (deleteSecrets_loop a refs errs1) (h ++ t) (λ h' r, r = [] →
      errs = [] ∧ ∀ n, n ∈ name :: secret_names refs → secret_dealt_with h' a n)) as Hstep.
  { intros t errs1 He. eapply wp_mono; [done| |apply wp_extends, IH].
    - intros h' r [[t' ->] Hr] Hnil. destruct (Hr Hnil) as [H1 H2].
      destruct (He H1) as [-> Hd]. split; [done|].
      intros n [->|?]%elem_of_cons; [by apply secret_dealt_with_app|auto].
    - intros t' n Hn. rewrite <-app_assoc. apply HG. by right.
    - intros t' n s Hn. rewrite <-app_assoc. apply HU. by right. }
  assert (name ∈ name :: secret_names refs) as Hname by by left.
  cbn [deleteSecrets_loop]. fold name. wp_simpl.
  split; [rewrite <-(app_nil_r h); by apply HG|]. intros [s|e]; wp_simpl.
  - destruct (IsControlledBy s a) eqn:Ec; cbn [negb].
    2: { apply Hstep. intros ->. split; [done|]. right. exists s. split; [hist|by left]. }
    wp_simpl. split; [apply (HU _ name); [done|hist|done]|].
    intros [s'|e]; wp_simpl; rewrite <-?app_assoc.
    2: { apply Hstep. intros Hx. by destruct errs. }
    split; [apply (HU _ name s Hname); [rewrite app_assoc; hist|done|rewrite app_assoc; hist]|].
    intros [u|e]; wp_simpl; rewrite <-?app_assoc; apply Hstep; [|intros Hx; by destruct errs].
    intros ->. split; [done|]. rewrite !app_assoc. right. exists s. split; [hist|]. right.
    exists s', u. split; hist.
  - destruct (IsNotFound (of_client_error e)) eqn:En; apply Hstep; [|intros Hx; by destruct errs].
    intros ->. split; [done|]. left. exists e. split; [hist|done].
Qed.
End loops.

(** ** What the reconciler may ask of the API server and of the driver *)

(** How the reconciler classifies a failed driver call, and the calls that failed. *)
Definition classified (e : rpc_error) (revoke : bool) : error :=
  if negb revoke && bool_decide (rpc_code e = OutOfRange)
  then NonRetryable (Errorf_w "driver does not support multi-bucket access" (of_rpc_error e))
  else if rpcErrorIsRetryable (rpc_code e) then of_rpc_error e
  else NonRetryable (of_rpc_error e).

Lemma grant_failure_classified e : grant_failure (of_rpc_error e) = classified e false.
Proof. unfold grant_failure. by rewrite status_Code_rpc. Qed.

Lemma access_classified_nonRetryable e revoke :
  is_nonRetryable (classified e revoke) = true ↔
  rpc_code e = InvalidArgument ∨ rpc_code e = CodeAlreadyExists ∨ rpc_code e = Unimplemented ∨
  (revoke = false ∧ rpc_code e = OutOfRange).
Proof.
  pose proof (rpcErrorIsRetryable_false (rpc_code e)) as Hr. unfold classified.
  destruct revoke; cbn [negb andb]; [|case_bool_decide as Ho; [by rewrite Ho; split; auto|]];
    (destruct (rpcErrorIsRetryable (rpc_code e));
     [rewrite is_nonRetryable_rpc|rewrite is_nonRetryable_NonRetryable]); naive_solver.
Qed.

Definition driver_failure (ev : event) : option (bool * rpc_error) :=
  match ev with
  | Ev (DriverGrantBucketAccess _) (Err e) => Some (false, e)
  | Ev (DriverRevokeBucketAccess _) (Err e) => Some (true, e)
  | _ => None
  end.

Definition no_failure (h : list event) : Prop := ∀ ev, ev ∈ h → driver_failure ev = None.

(** The variables of the response for one bucket, as its Secret must hold them. *)
Definition response_data (resp : DriverGrantBucketAccessResponse) (v : ValidationConfig)
    (id : string) (data : gmap string string) : Prop :=
  ∃ ci b bi, grantResp_Credentials resp = Some ci ∧ credentials_accepted v ci ∧
    b ∈ grantResp_Buckets resp ∧ grantRespBucket_BucketId b = id ∧
    grantRespBucket_BucketInfo b = Some bi ∧ bucket_info_accepted v bi ∧
    data = bucket_info_vars bi ∪ credential_vars ci.

Definition validation_of (a : BucketAccess) : ValidationConfig := {|
  ExpectedProtocol := accessSpec_Protocol (access_Spec a);
  ValidationAuthType := accessStatus_AuthenticationType (access_Status a) |}.

Definition driver_call (r : req) : bool :=
  match r with DriverGrantBucketAccess _ | DriverRevokeBucketAccess _ => true | _ => false end.

Lemma saccess_no_failure_snoc h ev : no_failure h → driver_failure ev = None → no_failure (h ++ [ev]).
Proof.
  intros Hh He ev' [?|Hx]%elem_of_app; [auto|]. by apply list_elem_of_singleton in Hx as ->.
Qed.

(** A program without driver calls adds no failed one. *)
Lemma wp_driverless {A} I (p : prog A) h Q :
  wp (λ _ r, driver_call r = false) p h (λ _ _, True) → no_failure h →
  wp I p h Q → wp I p h (λ h' a, no_failure h' ∧ Q h' a).
Proof.
  revert h. induction p as [a|r k IH]; intros h; cbn; [done|].
  intros [Hr Hk] Hn [HI HQ]. split; [done|]. intros x. apply IH; [done| |done].
  apply saccess_no_failure_snoc; [done|]. by destruct r.
Qed.

Section contract.
Context (d : DriverInfo) (key : NamespacedName).

Definition access_read (h : list event) (a : BucketAccess) : Prop :=
  Ev (GetAccess key) (Ok a) ∈ h.

(** The access was read as one that this Sidecar has to grant, or to revoke. *)
Definition to_grant (h : list event) (a0 : BucketAccess) : Prop :=
  access_read h a0 ∧ ManagedBySidecar a0 = true ∧
  accessStatus_DriverName (access_Status a0) = driver_Name d ∧ IsDeleting a0 = false ∧
  requirements_set (access_Status a0).
Definition to_revoke (h : list event) (a0 : BucketAccess) : Prop :=
  access_read h a0 ∧ ManagedBySidecar a0 = true ∧
  accessStatus_DriverName (access_Status a0) = driver_Name d ∧ IsDeleting a0 = true.

(** The access with its finalizer, and the access once its deletion has begun. *)
Definition protected (h : list event) (a : BucketAccess) : Prop :=
  ∃ a0, to_grant h a0 ∧
    ((a = a0 ∧ ContainsFinalizer a0 ProtectionFinalizer = true) ∨
     Ev (UpdateAccess (AddFinalizer a0 ProtectionFinalizer).1) (Ok a) ∈ h).
Definition begun (h : list event) (a : BucketAccess) : Prop :=
  ∃ a0, to_revoke h a0 ∧ Ev (StatusUpdateAccess (access_deleting_status a0)) (Ok a) ∈ h.

(** Access is granted for a protected access, after all its Buckets were found usable
    and a Secret of its own was reserved for every claim. *)
Definition prepared (h : list event) (a : BucketAccess) (cfg : internalGrantAccessConfig) : Prop :=
  protected h a ∧
  (∀ ab, ab ∈ accessStatus_AccessedBuckets (access_Status a) → bucket_validated h ab) ∧
  NoDup (secret_names (accessSpec_BucketClaims (access_Spec a))) ∧
  (∀ n, n ∈ secret_names (accessSpec_BucketClaims (access_Spec a)) →
     ∃ s, reserved h a n s ∧ grantCfg_SecretsByName cfg !! n = Some s) ∧
  newInternalGrantAccessConfig a (grantCfg_SecretsByName cfg) = Ok cfg.

Definition grant_allowed (h : list event) (q : DriverGrantBucketAccessRequest) : Prop :=
  ∃ a cfg order, prepared h a cfg ∧ q = grant_request order cfg.

(** The access becomes ready after the driver granted access to exactly the requested
    buckets and the Secret of each was stored with what the driver returned for it. *)
Definition ready_allowed (h : list event) (a' : BucketAccess) : Prop :=
  ∃ a cfg order resp, prepared h a cfg ∧
    Ev (DriverGrantBucketAccess (grant_request order cfg)) (Ok resp) ∈ h ∧
    grantResp_AccountId resp ≠ "" ∧ a' = access_ready (grantResp_AccountId resp) a ∧
    (∀ id, id ∈ response_ids resp ↔ id ∈ request_ids (grant_request order cfg)) ∧
    (∀ id, id ∈ request_ids (grant_request order cfg) →
       ∃ c sec sec' data, grantCfg_AccessConfigsByBucketId cfg !! id = Some c ∧
         held h a (bucketCfg_AccessSecretName c) sec ∧
         response_data resp (validation_of a) id data ∧
         Ev (UpdateSecret (secret_with_StringData data sec)) (Ok sec') ∈ h).

(** Writes to Secrets. Only Secrets created for the access or controlled by it are
    touched: taken over, filled, or stripped of their finalizer and deleted. *)
Definition take_over_allowed (h : list event) (s : Secret) : Prop :=
  ∃ a n s0, protected h a ∧ n ∈ secret_names (accessSpec_BucketClaims (access_Spec a)) ∧
    Ev (GetSecret (secret_key a n)) (Ok s0) ∈ h ∧ IsControlledBy s0 a = true ∧
    s = setAccessSecretRequiredMetadata s0.
Definition fill_allowed (h : list event) (s : Secret) : Prop :=
  ∃ a cfg order resp id c s0 data, prepared h a cfg ∧
    Ev (DriverGrantBucketAccess (grant_request order cfg)) (Ok resp) ∈ h ∧
    grantCfg_AccessConfigsByBucketId cfg !! id = Some c ∧
    held h a (bucketCfg_AccessSecretName c) s0 ∧
    response_data resp (validation_of a) id data ∧ s = secret_with_StringData data s0.
Definition strip_allowed (h : list event) (s : Secret) : Prop :=
  ∃ a n s0, begun h a ∧ n ∈ secret_names (accessSpec_BucketClaims (access_Spec a)) ∧
    Ev (GetSecret (secret_key a n)) (Ok s0) ∈ h ∧ IsControlledBy s0 a = true ∧
    s = RemoveFinalizer s0 ProtectionFinalizer.
Definition create_secret_allowed (h : list event) (s : Secret) : Prop :=
  ∃ a n e, protected h a ∧ n ∈ secret_names (accessSpec_BucketClaims (access_Spec a)) ∧
    Ev (GetSecret (secret_key a n)) (Err e) ∈ h ∧ client_IsNotFound e = true ∧
    s = newOwnedAccessSecret n a.
Definition delete_secret_allowed (h : list event) (s : Secret) : Prop :=
  ∃ s0, strip_allowed h s0 ∧ Ev (UpdateSecret s0) (Ok s) ∈ h.

(** Revocation: after all Secrets are dealt with, for a recorded account. *)
Definition revoke_allowed (h : list event) (q : DriverRevokeBucketAccessRequest) : Prop :=
  ∃ a, begun h a ∧ accessStatus_AccountID (access_Status a) ≠ "" ∧
    (∀ n, n ∈ secret_names (accessSpec_BucketClaims (access_Spec a)) → secret_dealt_with h a n) ∧
    revokeReq_AccountId q = accessStatus_AccountID (access_Status a) ∧
    (revokeReqBucket_BucketId <$> revokeReq_Buckets q) =
      (accessed_BucketID <$> accessStatus_AccessedBuckets (access_Status a)) ∧
    (∀ id, id ∈ revokeReqBucket_BucketId <$> revokeReq_Buckets q → id ≠ "").

(** The hand-back to the Controller. *)
Definition hand_back_allowed (h : list event) (a' : BucketAccess) : Prop :=
  ∃ a, begun h a ∧
    (∀ n, n ∈ secret_names (accessSpec_BucketClaims (access_Spec a)) → secret_dealt_with h a n) ∧
    (accessStatus_AccountID (access_Status a) ≠ "" →
     ∃ q u, revoke_allowed h q ∧ Ev (DriverRevokeBucketAccess q) (Ok u) ∈ h ∧
       revokeReq_AccountId q = accessStatus_AccountID (access_Status a)) ∧
    a' = set_annotation SidecarCleanupFinishedAnnotation "" a.
Definition protect_allowed (h : list event) (a : BucketAccess) : Prop :=
  ∃ a0, to_grant h a0 ∧ ContainsFinalizer a0 ProtectionFinalizer = false ∧
    a = (AddFinalizer a0 ProtectionFinalizer).1.

(** A state of the access that an error may be recorded on. *)
Definition access_state (h : list event) (a : BucketAccess) : Prop :=
  ∃ a1, (access_read h a1 ∨ (∃ a', Ev (UpdateAccess a') (Ok a1) ∈ h) ∨
         (∃ a', Ev (StatusUpdateAccess a') (Ok a1) ∈ h) ∨
         (∃ a0, to_revoke h a0 ∧ a1 = access_deleting_status a0) ∨ ready_allowed h a1) ∧
    same_version a a1 ∧
    access_Spec a = access_Spec a1 ∧ access_Status a = access_Status a1.

Definition status_allowed (h : list event) (a : BucketAccess) : Prop :=
  (∃ a0, to_revoke h a0 ∧ a = access_deleting_status a0) ∨
  ready_allowed h a ∨
  (∃ a1 now err, access_state h a1 ∧ a = access_with_recorded_error now err a1).

Definition access_contract (h : list event) (r : req) : Prop :=
  match r with
  | GetAccess k => k = key
  | GetBucket k => nn_Namespace k = ""
  | GetSecret k => ∃ a, (protected h a ∨ begun h a) ∧ nn_Namespace k = GetNamespace a ∧
      nn_Name k ∈ secret_names (accessSpec_BucketClaims (access_Spec a))
  | CreateSecret s => create_secret_allowed h s
  | UpdateSecret s => take_over_allowed h s ∨ fill_allowed h s ∨ strip_allowed h s
  | DeleteSecret s => delete_secret_allowed h s
  | DriverGrantBucketAccess q => grant_allowed h q
  | DriverRevokeBucketAccess q => revoke_allowed h q
  | UpdateAccess a => protect_allowed h a ∨ hand_back_allowed h a
  | StatusUpdateAccess a => status_allowed h a
  | TimeNow | MapOrder => True
  | _ => False
  end.

(** ** Proofs *)

Lemma to_grant_app h h' a : to_grant h a → to_grant (h ++ h') a.
Proof. intros (? & ?). split; [unfold access_read in *; hist|done]. Qed.
Lemma to_revoke_app h h' a : to_revoke h a → to_revoke (h ++ h') a.
Proof. intros (? & ?). split; [unfold access_read in *; hist|done]. Qed.
Lemma saccess_protected_app h h' a : protected h a → protected (h ++ h') a.
Proof.
  intros (a0 & ? & H). exists a0. split; [by apply to_grant_app|].
  destruct H as [?|?]; [by left|right; hist].
Qed.
Lemma begun_app h h' a : begun h a → begun (h ++ h') a.
Proof. intros (a0 & ? & ?). exists a0. split; [by apply to_revoke_app|hist]. Qed.

Lemma prepared_app h h' a cfg : prepared h a cfg → prepared (h ++ h') a cfg.
Proof.
  intros (H1 & H2 & H3 & H4 & H5). split_and!; try done.
  - by apply saccess_protected_app.
  - intros ab Hab. by apply bucket_validated_app, H2.
  - intros n Hn. destruct (H4 n Hn) as (s & ? & ?). exists s. split; [by apply reserved_app|done].
Qed.

Lemma saccess_ready_allowed_app h h' a : ready_allowed h a → ready_allowed (h ++ h') a.
Proof.
  intros (a1 & cfg & order & resp & H1 & H2 & H3 & H4 & H5 & H6).
  exists a1, cfg, order, resp. split_and!; try done; [by apply prepared_app|hist|].
  intros id Hid. destruct (H6 id Hid) as (c & sec & sec' & data & ? & ? & ? & ?).
  exists c, sec, sec', data. split_and!; try done; [by apply held_app|hist].
Qed.

Lemma revoke_allowed_app h h' q : revoke_allowed h q → revoke_allowed (h ++ h') q.
Proof.
  intros (a & H1 & H2 & H3 & H4). exists a. split; [by apply begun_app|]. split; [done|].
  split; [|done]. intros n Hn. by apply secret_dealt_with_app, H3.
Qed.

Lemma hand_back_allowed_app h h' a : hand_back_allowed h a → hand_back_allowed (h ++ h') a.
Proof.
  intros (a1 & H1 & H2 & H3 & ->). exists a1. split; [by apply begun_app|]. split_and!; [|..|done].
  - intros n Hn. by apply secret_dealt_with_app, H2.
  - intros Hid. destruct (H3 Hid) as (q & u & ? & ? & ?). exists q, u.
    split_and!; [by apply revoke_allowed_app|hist|done].
Qed.

Lemma saccess_access_state_app h h' a : access_state h a → access_state (h ++ h') a.
Proof.
  intros (a1 & Ha & ?). exists a1. split; [|done].
  destruct Ha as [?|[[a' ?]|[[a' ?]|[(a0 & ? & ?)|?]]]].
  - left. unfold access_read in *. hist.
  - right; left. exists a'. hist.
  - right; right; left. exists a'. hist.
  - right; right; right; left. exists a0. split; [by apply to_revoke_app|done].
  - do 4 right. by apply saccess_ready_allowed_app.
Qed.

Lemma access_state_protected h a : protected h a → access_state h a.
Proof.
  intros (a0 & (Hr & _) & [[-> _]|?]); [exists a0|exists a]; (split; [|done]); [by left|].
  right; left. eexists. exact H.
Qed.
Lemma access_state_begun h a : begun h a → access_state h a.
Proof. intros (a0 & _ & ?). exists a. split; [|done]. right; right; left. by eexists. Qed.

(** The result of [reconcile]. *)
Definition done_with (a0 : BucketAccess) (h : list event) : Prop :=
  if IsDeleting a0
  then ∃ a a', hand_back_allowed h a ∧ Ev (UpdateAccess a) (Ok a') ∈ h
  else ∃ a a', ready_allowed h a ∧ Ev (StatusUpdateAccess a) (Ok a') ∈ h.

Definition failures_reported (h : list event) (r : option error) : Prop :=
  ∀ ev revoke e, ev ∈ h → driver_failure ev = Some (revoke, e) → r = Some (classified e revoke).

Definition reconciled (a0 : BucketAccess) (h : list event) (r : BucketAccess * option error) : Prop :=
  failures_reported h r.2 ∧
  match r.2 with
  | Some _ => access_state h r.1
  | None => done_with a0 h
  end.

Lemma no_failure_reported h r : no_failure h → failures_reported h r.
Proof. intros Hn ev revoke e Hin Hf. by rewrite (Hn ev Hin) in Hf. Qed.

Lemma failure_reported h ev revoke e err :
  no_failure h → driver_failure ev = Some (revoke, e) → err = classified e revoke →
  failures_reported (h ++ [ev]) (Some err).
Proof.
  intros Hn He -> ev' revoke' e' [Hin|Hx]%elem_of_app Hf.
  - by rewrite (Hn _ Hin) in Hf.
  - apply list_elem_of_singleton in Hx as ->. congruence.
Qed.

Lemma saccess_reconciled_err a0 h a err :
  no_failure h → access_state h a → reconciled a0 h (a, Some err).
Proof. intros. split; [by apply no_failure_reported|done]. Qed.

Lemma wp_saccess_ensureAccessFinalizer h a0 :
  to_grant h a0 → no_failure h →
  wp access_contract (ensureAccessFinalizer a0) h (λ h' r, no_failure h' ∧
    access_state h' r.1 ∧ (r.2 = None → protected h' r.1)).
Proof.
  intros Hg Hn. unfold ensureAccessFinalizer, AddFinalizer.
  assert (access_state h a0) as Hst by (exists a0; split; [left; apply Hg|done]).
  destruct (slices_Contains (GetFinalizers a0) ProtectionFinalizer) eqn:Ef; wp_run.
  - split_and!; try done. intros _. exists a0. split; [done|]. by left.
  - left. exists a0. unfold ContainsFinalizer, AddFinalizer. by rewrite Ef.
  - split_and!; [by apply saccess_no_failure_snoc| |].
    + exists a. split; [right; left; eexists; hist|done].
    + intros _. exists a0. split; [by apply to_grant_app|]. right. unfold AddFinalizer.
      rewrite Ef. hist.
  - split_and!; [by apply saccess_no_failure_snoc| |done].
    apply saccess_access_state_app. exists a0. split; [left; apply Hg|done].
Qed.

Lemma wp_validate h a :
  no_failure h → protected h a →
  wp access_contract (getAndValidateAllAccessedBuckets a) h (λ h' r, no_failure h' ∧
    (r = None → ∀ ab, ab ∈ accessStatus_AccessedBuckets (access_Status a) → bucket_validated h' ab)).
Proof.
  intros Hn Hp. apply wp_driverless; [|done|].
  all: unfold getAndValidateAllAccessedBuckets.
  - eapply wp_seq; [by apply wp_validateBuckets_loop|done].
  - eapply wp_seq; [by apply wp_validateBuckets_loop|].
    intros t errs Hr. cbn. intros Er%report_None. by apply Hr.
Qed.

Lemma wp_reserve h a :
  no_failure h → protected h a →
  wp access_contract (reserveAccessSecrets a) h (λ h' r, no_failure h' ∧ ∀ m, r = Ok m →
    NoDup (secret_names (accessSpec_BucketClaims (access_Spec a))) ∧
    dom m = list_to_set (secret_names (accessSpec_BucketClaims (access_Spec a))) ∧
    ∀ n s, m !! n = Some s → reserved h' a n s).
Proof.
  intros Hn Hp. apply wp_driverless; [|done|].
  - eapply (wp_mono (λ _ r, driver_call r = false)); [done| |apply wp_reserveAccessSecrets];
      [done|]. intros n _ t. by split_and!.
  - eapply (wp_mono access_contract); [done| |apply wp_reserveAccessSecrets];
      [by intros h' r [_ Hr]|].
    intros n Hin t. split_and!.
    + exists a. split; [left; by apply saccess_protected_app|done].
    + intros e He Hnf. exists a, n, e. split; [by apply saccess_protected_app|done].
    + intros s Hs Hc. left. exists a, n, s. split; [by apply saccess_protected_app|done].
Qed.

(** What the translated response gives for a bucket is what the driver returned. *)
Lemma response_translated_data resp v g id info :
  response_translated resp v g → granted_BucketInfoByBucketId g !! id = Some info →
  response_data resp v id (info ∪ granted_SharedCredentialInfo g).
Proof.
  intros (_ & _ & (ci & Hci & Hca & ->) & _ & Hin) Hl.
  destruct (Hin id info Hl) as (b & bi & ? & ? & ? & ? & ->). by exists ci, b, bi.
Qed.

(** Once every Secret is filled, the access may be reported ready. *)
Lemma grant_ready h a cfg order resp g :
  prepared h a cfg → Ev (DriverGrantBucketAccess (grant_request order cfg)) (Ok resp) ∈ h →
  response_translated resp (validation_of a) g →
  dom (grantCfg_AccessConfigsByBucketId cfg) = dom (granted_BucketInfoByBucketId g) →
  (∀ id info, granted_BucketInfoByBucketId g !! id = Some info →
     secret_filled h a (grantCfg_AccessConfigsByBucketId cfg)
       (granted_SharedCredentialInfo g) id info) →
  ready_allowed h (access_ready (granted_AccountId g) a).
Proof.
  intros Hp Hq Et Hreq Hu. pose proof Et as (Hacc & -> & _ & Hdom & _).
  exists a, cfg, order, resp. split_and!; try done.
  - intros id. rewrite request_ids_spec, Hreq, Hdom. by rewrite elem_of_list_to_set.
  - intros id Hid. rewrite request_ids_spec, Hreq in Hid.
    apply elem_of_dom in Hid as [info Hl].
    destruct (Hu id info Hl) as (c & sec & sec' & ? & ? & ?).
    exists c, sec, sec', (info ∪ granted_SharedCredentialInfo g). split_and!; try done.
    by apply response_translated_data.
Qed.

Lemma wp_grantAccess h a0 a cfg :
  IsDeleting a0 = false → no_failure h → prepared h a cfg →
  (∀ n s, grantCfg_SecretsByName cfg !! n = Some s → reserved h a n s) →
  wp access_contract (grantAccess a cfg) h (reconciled a0).
Proof.
  intros Hdel Hn Hp Hsec. unfold grantAccess. wp_simpl. split; [done|]. intros order.
  split; [exists a, cfg, order; split; [by apply prepared_app|done]|].
  set (q := grant_request order cfg).
  assert (∀ t, access_state (h ++ t) a) as Hst.
  { intros t. apply saccess_access_state_app, access_state_protected, Hp. }
  intros [resp|e]; wp_simpl.
  2: { split; [|rewrite <-app_assoc; apply Hst].
       eapply (failure_reported _ _ false e);
         [by apply saccess_no_failure_snoc|done|apply grant_failure_classified]. }
  fold (validation_of a).
  assert (no_failure ((h ++ [Ev MapOrder order]) ++ [Ev (DriverGrantBucketAccess q) (Ok resp)])) as Hn1
    by (by do 2 (apply saccess_no_failure_snoc; [|done])).
  destruct (translateDriverGrantBucketAccessResponseToApi resp (validation_of a)) as [g|err] eqn:Et.
  2: { apply saccess_reconciled_err; [done|]. rewrite <-app_assoc. apply Hst. }
  apply translate_response_Ok in Et.
  wp_simpl. split; [done|]. intros o1. split; [done|]. intros o2. wp_simpl.
  set (h1 := _ ++ [Ev MapOrder o2]).
  assert (no_failure h1) as Hn2 by (by do 2 (apply saccess_no_failure_snoc; [|done])).
  assert (Ev (DriverGrantBucketAccess q) (Ok resp) ∈ h1) as Hq by (subst h1; hist).
  assert (prepared h1 a cfg) as Hp1 by (by do 4 apply prepared_app).
  assert (access_state h1 a) as Hst1 by (by apply access_state_protected, Hp1).
  destruct (validateGrantedAccess o1 o2 cfg g) as [err|] eqn:Ev; [by apply saccess_reconciled_err|].
  apply validateGrantedAccess_None in Ev.
  assert (∀ n s, grantCfg_SecretsByName cfg !! n = Some s → held h1 a n s) as Hheld.
  { intros n s Hl. do 4 apply held_app. apply held_reserved. auto. }
  eapply wp_seq.
  { apply wp_driverless; [|done|eapply wp_updateSecretsWithGrantedInfo; [done|done|]].
    - by eapply (wp_mono (λ _ r, driver_call r = false));
        [| |apply (wp_updateSecretsWithGrantedInfo _ a)].
    - intros t id info c s Hl Hc Hh. right; left.
      exists a, cfg, order, resp, id, c, s, (info ∪ granted_SharedCredentialInfo g).
      split_and!; try done; [by apply prepared_app|hist|].
      by eapply response_translated_data. }
  clearbody h1. intros t uerr [Hn3 Hu]. cbn beta in Hu.
  destruct uerr as [err|]; [apply saccess_reconciled_err; [done|by apply saccess_access_state_app]|].
  assert (ready_allowed (h1 ++ t) (access_ready (granted_AccountId g) a)) as Hready.
  { apply (grant_ready _ _ cfg order resp); [by apply prepared_app|hist|done|done|by apply Hu]. }
  clearbody q.
  wp_simpl. split; [right; by left|]. intros [a'|e]; wp_simpl.
  - split; [by apply no_failure_reported, saccess_no_failure_snoc|].
    unfold done_with. cbn [snd]. rewrite Hdel. eexists _, a'. split; [by apply saccess_ready_allowed_app|hist].
  - apply saccess_reconciled_err; [by apply saccess_no_failure_snoc|].
    eexists. split; [|done]. do 4 right. by apply saccess_ready_allowed_app.
Qed.

Lemma wp_driverRevokeAccess h a :
  no_failure h → begun h a → accessStatus_AccountID (access_Status a) ≠ "" →
  (∀ n, n ∈ secret_names (accessSpec_BucketClaims (access_Spec a)) → secret_dealt_with h a n) →
  wp access_contract (driverRevokeAccess a) h (λ h' r, failures_reported h' r ∧
    (r = None → no_failure h' ∧
       ∃ q u, revoke_allowed h' q ∧ Ev (DriverRevokeBucketAccess q) (Ok u) ∈ h' ∧
         revokeReq_AccountId q = accessStatus_AccountID (access_Status a))).
Proof.
  intros Hn Hb Hid Hsec. unfold driverRevokeAccess, newInternalRevokeAccessConfig.
  destruct (newInternalAccessConfig a) as [shared|err]; [|by split; [apply no_failure_reported|]].
  destruct (_ =s "") eqn:Ei; [by apply eqs_true in Ei|].
  destruct (revokeList_loop _) as [l|err] eqn:El; [|by split; [apply no_failure_reported|]].
  apply revokeList_loop_Ok in El as [Hl Hne].
  set (q := {| revokeReq_AccountId := _ |}).
  assert (revoke_allowed h q) as Hq by (exists a; by split_and!).
  wp_simpl. split; [done|]. intros [u|e]; wp_simpl.
  - split; [by apply no_failure_reported, saccess_no_failure_snoc|]. intros _.
    split; [by apply saccess_no_failure_snoc|]. exists q, u.
    split_and!; [by apply revoke_allowed_app|hist|done].
  - rewrite status_Code_rpc. destruct (rpcErrorIsRetryable (rpc_code e)) eqn:Er;
      (split; [|done]); (eapply (failure_reported _ _ true e); [done..|]);
      unfold classified; by rewrite Er.
Qed.

Lemma wp_deleteOwned h a :
  no_failure h → begun h a →
  wp access_contract (deleteOwnedAccessSecrets a) h (λ h' r, no_failure h' ∧ (r = None →
    ∀ n, n ∈ secret_names (accessSpec_BucketClaims (access_Spec a)) → secret_dealt_with h' a n)).
Proof.
  intros Hn Hb. apply wp_driverless; [|done|]; unfold deleteOwnedAccessSecrets.
  - eapply wp_seq; [by apply wp_deleteSecrets_loop|done].
  - eapply wp_seq; [apply wp_deleteSecrets_loop|].
    + intros t n Hin. exists a. split; [right; by apply begun_app|done].
    + intros t n s Hin Hs Hc.
      assert (strip_allowed (h ++ t) (RemoveFinalizer s ProtectionFinalizer)) as Hst.
      { exists a, n, s. split; [by apply begun_app|done]. }
      split; [by do 2 right|]. intros s' Hs'. by exists (RemoveFinalizer s ProtectionFinalizer).
    + intros t errs Herr. cbn. intros Er%report_None. by apply Herr.
Qed.

Lemma wp_saccess_reconcileDelete h a0 :
  no_failure h → to_revoke h a0 →
  wp access_contract (reconcileDelete a0) h (reconciled a0).
Proof.
  intros Hn Hr. unfold reconcileDelete. wp_simpl.
  split; [left; by exists a0|]. intros [a|e]; wp_simpl.
  2: { apply saccess_reconciled_err; [by apply saccess_no_failure_snoc|]. eexists. split; [|done].
       right; right; right; left. exists a0. split; [by apply to_revoke_app|done]. }
  set (h1 := h ++ _).
  assert (begun h1 a) as Hb by (exists a0; split; [by apply to_revoke_app|subst h1; hist]).
  assert (no_failure h1) as Hn1 by (by apply saccess_no_failure_snoc).
  clearbody h1. eapply wp_seq; [by apply wp_deleteOwned|].
  intros t [err|] [Hn2 Hd]; [apply saccess_reconciled_err; [done|]; by apply saccess_access_state_app, access_state_begun|].
  specialize (Hd eq_refl).
  eapply (wp_seq _ _ _ _ (λ h' r, failures_reported h' r ∧ (r = None → no_failure h' ∧
    (accessStatus_AccountID (access_Status a) ≠ "" →
     ∃ q u, revoke_allowed h' q ∧ Ev (DriverRevokeBucketAccess q) (Ok u) ∈ h' ∧
       revokeReq_AccountId q = accessStatus_AccountID (access_Status a))))).
  { destruct (_ <>s "") eqn:Eid; reflect_bools.
    - eapply wp_mono; [done| |apply wp_driverRevokeAccess; [done|by apply begun_app|done|done]].
      intros h' r [? Hrv]. split; [done|]. intros Hnone. by destruct (Hrv Hnone).
    - split; [by apply no_failure_reported|]. intros _. split; [done|]. congruence. }
  intros t2 [err|] [Hf Hrv].
  { split; [done|]. by do 2 apply saccess_access_state_app; apply access_state_begun. }
  destruct (Hrv eq_refl) as [Hn3 Hrev].
  set (h2 := (h1 ++ t) ++ t2) in *.
  assert (hand_back_allowed h2 (set_annotation SidecarCleanupFinishedAnnotation "" a)) as Hhb.
  { exists a. split_and!; try done; [by do 2 apply begun_app|].
    intros n Hin. by apply secret_dealt_with_app, Hd. }
  wp_simpl. split; [by right|]. intros [a'|e]; wp_simpl.
  - split; [by apply no_failure_reported, saccess_no_failure_snoc|].
    unfold done_with. cbn [snd]. rewrite (proj2 (proj2 (proj2 Hr))). eexists _, a'. split; [by apply hand_back_allowed_app|hist].
  - apply saccess_reconciled_err; [by apply saccess_no_failure_snoc|].
    assert (access_state ((h2 ++ [Ev (UpdateAccess (set_annotation SidecarCleanupFinishedAnnotation "" a)) (Err e)])) a)
      as (a2 & Ha2 & ? & ? & ?) by (by do 3 apply saccess_access_state_app; apply access_state_begun).
    exists a2. done.
Qed.

Lemma wp_saccess_reconcile h a0 :
  access_read h a0 → ManagedBySidecar a0 = true →
  accessStatus_DriverName (access_Status a0) = driver_Name d → no_failure h →
  wp access_contract (reconcile d a0) h (reconciled a0).
Proof.
  intros Hr Hm Hdn Hn. assert (access_state h a0) as Hst by (exists a0; split; [by left|done]).
  unfold reconcile. rewrite (proj2 (neqs_false _ _) Hdn).
  destruct (IsDeleting a0) eqn:Hdel; [by apply wp_saccess_reconcileDelete; [|split_and!]|].
  destruct (SidecarRequirementsPresent_cases (access_Status a0))
    as [[Hreq ->]|[[_ ->]|(_ & _ & msg & ->)]].
  2, 3: by apply saccess_reconciled_err.
  assert (to_grant h a0) as Hg by (by split_and!).
  cbn [negb]. eapply wp_seq; [by apply wp_saccess_ensureAccessFinalizer|].
  intros t1 [a [err|]] (Hn1 & Hst1 & Hp); cbn in Hst1, Hp; [by apply saccess_reconciled_err|].
  specialize (Hp eq_refl).
  eapply wp_seq; [by apply wp_validate|].
  intros t2 [err|] [Hn2 Hval]; [apply saccess_reconciled_err; [done|by apply saccess_access_state_app]|].
  eapply wp_seq; [apply wp_reserve; [done|by apply saccess_protected_app]|].
  intros t3 [m|err] [Hn3 Hres]; [|apply saccess_reconciled_err; [done|by do 2 apply saccess_access_state_app]].
  destruct (Hres m eq_refl) as (Hnd & Hdom & Hsec).
  destruct (newInternalGrantAccessConfig a m) as [cfg|err] eqn:Ecfg;
    [|apply saccess_reconciled_err; [done|by do 2 apply saccess_access_state_app]].
  pose proof (newInternalGrantAccessConfig_Ok a m cfg Ecfg) as (_ & _ & _ & Hm').
  apply wp_grantAccess; [done|done| |by rewrite Hm'].
  split_and!; try done; [by do 2 apply saccess_protected_app| | |by rewrite Hm'].
  - intros ab Hab. by apply bucket_validated_app, Hval.
  - intros n Hin. assert (n ∈ dom m) as [s Hl]%elem_of_dom
      by (rewrite Hdom; by apply elem_of_list_to_set).
    exists s. rewrite Hm'. split; [by apply Hsec|done].
Qed.

(** ** The outcome of [Reconcile] *)

Definition sidecar_error (e : error) : error := Errorf_w "COSI Sidecar error" e.

Definition error_recorded (h : list event) (e res : error) : Prop :=
  ∃ h' now a x,
    h = h' ++ [Ev TimeNow now;
               Ev (StatusUpdateAccess (access_with_recorded_error now (sidecar_error e) a)) x] ∧
    res = match x with
          | Ok _ => if is_nonRetryable e then terminalError (sidecar_error e) else sidecar_error e
          | Err _ => sidecar_error e
          end.

Definition access_outcome (h : list event) (res : option error) : Prop :=
  (∃ e, h = [Ev (GetAccess key) (Err e)] ∧
        res = if client_IsNotFound e then None else Some (of_client_error e)) ∨
  (∃ a0, h = [Ev (GetAccess key) (Ok a0)] ∧ res = None ∧
     (ManagedBySidecar a0 = false ∨ accessStatus_DriverName (access_Status a0) ≠ driver_Name d)) ∨
  (∃ a0, access_read h a0 ∧ ManagedBySidecar a0 = true ∧
     accessStatus_DriverName (access_Status a0) = driver_Name d ∧
     match res with
     | None => done_with a0 h
     | Some err => ∃ e, error_recorded h e err ∧ failures_reported h (Some e)
     end).

Lemma failures_reported_snoc h ev r :
  driver_failure ev = None → failures_reported h r → failures_reported (h ++ [ev]) r.
Proof.
  intros He Hh ev' revoke e [Hin|Hx]%elem_of_app Hf; [by eapply Hh|].
  apply list_elem_of_singleton in Hx as ->. congruence.
Qed.

Lemma wp_saccess_Reconcile : wp access_contract (Reconcile d key) [] access_outcome.
Proof.
  unfold Reconcile. wp_simpl. split; [done|]. intros [a0|e]; wp_simpl.
  2: { destruct (IsNotFound (of_client_error e)) eqn:En; left; exists e;
       (split; [done|]); unfold client_IsNotFound; by rewrite En. }
  set (h0 := [] ++ [Ev (GetAccess key) (Ok a0)]).
  destruct (ManagedBySidecar a0) eqn:Hm; cbn [negb]; [|right; left; exists a0; eauto].
  destruct (decide (accessStatus_DriverName (access_Status a0) = driver_Name d)) as [Hd|Hd].
  2: { unfold reconcile. rewrite (proj2 (neqs_true _ _) Hd). right; left. exists a0. eauto. }
  assert (access_read h0 a0) as Hr by (unfold access_read; set_solver).
  assert (no_failure h0) as Hn by (by intros ev ->%list_elem_of_singleton).
  clearbody h0. eapply wp_seq; [by apply wp_saccess_reconcile|].
  intros t [a [err|]] [Hf Hrec]; cbn [fst snd] in Hf, Hrec.
  2: { right; right. exists a0. split; [unfold access_read in *; hist|done]. }
  pose proof (is_nonRetryable_Errorf_w "COSI Sidecar error" err) as Hnr.
  wp_run; cbn [access_contract]; try done.
  - right; right. exists a, x, (sidecar_error err). split; [by apply saccess_access_state_app|done].
  - right; right. exists a0. split; [unfold access_read in *; hist|]. split; [done|].
    split; [done|]. exists err. split; [|by do 2 (apply failures_reported_snoc; [done|])].
    eexists _, _, a, _. split; [by rewrite <-app_assoc|]. cbv beta iota. by rewrite <-Hnr.
  - right; right. exists a0. split; [unfold access_read in *; hist|]. split; [done|].
    split; [done|]. exists err. split; [|by do 2 (apply failures_reported_snoc; [done|])].
    eexists _, _, a, _. split; [by rewrite <-app_assoc|]. cbv beta iota. by rewrite <-Hnr.
  - right; right. exists a0. split; [unfold access_read in *; hist|]. split; [done|].
    split; [done|]. exists err. split; [|by do 2 (apply failures_reported_snoc; [done|])].
    eexists _, _, a, _. split; [by rewrite <-app_assoc|done].
Qed.
End contract.

(** ** Properties *)

(** An initialised access to grant; and a granted one under deletion, with its Secret. *)
Definition demo_grant_world : World :=
  demo_world [] [demo_ready_bucket] [demo_initialized_access] [].
Definition demo_revoke_world : World :=
  demo_world [] [demo_ready_bucket] [deleting demo_granted_access]
    (snd <$> map_to_list (w_secrets
       (run_world (Reconcile demo_driver_info demo_access_key) demo_grant_world))).

Definition grant_trace : list event :=
  run_trace (Reconcile demo_driver_info demo_access_key) demo_grant_world.
Definition revoke_trace : list event :=
  run_trace (Reconcile demo_driver_info demo_access_key) demo_revoke_world.

Definition grant_request_of (r : option req) : DriverGrantBucketAccessRequest :=
  match r with
  | Some (DriverGrantBucketAccess q) => q
  | _ => {| grantReq_AccountName := ""; grantReq_Protocol := None;
            grantReq_AuthenticationType := None; grantReq_ServiceAccountName := "";
            grantReq_Parameters := ∅; grantReq_Buckets := [] |}
  end.
Definition revoke_request_of (r : option req) : DriverRevokeBucketAccessRequest :=
  match r with
  | Some (DriverRevokeBucketAccess q) => q
  | _ => {| revokeReq_AccountId := ""; revokeReq_Protocol := None;
            revokeReq_AuthenticationType := None; revokeReq_ServiceAccountName := "";
            revokeReq_Parameters := ∅; revokeReq_Buckets := [] |}
  end.
Definition secret_of (r : option req) : Secret :=
  match r with
  | Some (CreateSecret s) | Some (UpdateSecret s) | Some (DeleteSecret s) => s
  | _ => newOwnedAccessSecret "" demo_access
  end.

(** C14: Access is granted only when its result can be kept. The Sidecar asks the driver to
    grant access only for an initialised, live access of its driver that it manages and
    that carries the protection finalizer, after every accessed Bucket was read and found
    live, unmarked and with the recorded backend ID, and after a Secret controlled by the
    access was created or taken over for every referenced claim, all under different
    names; the request is built from the access alone. *)
Theorem grant_only_when_prepared d key tr res n q :
  exec (Reconcile d key) tr res →
  nth_call tr n = Some (DriverGrantBucketAccess q) →
  grant_allowed d key (take n tr) q.
Proof. intros Hx Hn. exact (wp_nth_call _ _ _ _ _ _ _ (wp_saccess_Reconcile d key) Hx Hn). Qed.

Lemma grant_only_when_prepared_witness :
  grant_allowed demo_driver_info demo_access_key (take 6 grant_trace)
    (grant_request_of (nth_call grant_trace 6)).
Proof.
  eapply grant_only_when_prepared; [apply run_exec|]. vm_compute. reflexivity.
Defined.

(** C13: Foreign Secrets are never written. Every update of a Secret is of one that was
    created for this access or was read as controlled by it: to take it over before the
    grant, to fill it with the credentials and bucket info that the driver returned for
    its bucket, or to strip its finalizer when the access is being deleted. *)
Theorem secrets_written_only_when_owned d key tr res n s :
  exec (Reconcile d key) tr res →
  nth_call tr n = Some (UpdateSecret s) →
  let h := take n tr in
  take_over_allowed d key h s ∨ fill_allowed d key h s ∨ strip_allowed d key h s.
Proof. intros Hx Hn. exact (wp_nth_call _ _ _ _ _ _ _ (wp_saccess_Reconcile d key) Hx Hn). Qed.

Lemma secrets_written_only_when_owned_witness :
  let h := take 10 grant_trace in let s := secret_of (nth_call grant_trace 10) in
  take_over_allowed demo_driver_info demo_access_key h s ∨
  fill_allowed demo_driver_info demo_access_key h s ∨
  strip_allowed demo_driver_info demo_access_key h s.
Proof.
  eapply secrets_written_only_when_owned; [apply run_exec|]. vm_compute. reflexivity.
Defined.

(** Foreign Secrets are never deleted. A Secret is deleted only for an access under
    deletion that refers to it, when it was read as controlled by that access and the
    server stored it without the protection finalizer. *)
Theorem secrets_deleted_only_when_owned d key tr res n s :
  exec (Reconcile d key) tr res →
  nth_call tr n = Some (DeleteSecret s) →
  delete_secret_allowed d key (take n tr) s.
Proof. intros Hx Hn. exact (wp_nth_call _ _ _ _ _ _ _ (wp_saccess_Reconcile d key) Hx Hn). Qed.

Lemma secrets_deleted_only_when_owned_witness :
  delete_secret_allowed demo_driver_info demo_access_key (take 4 revoke_trace)
    (secret_of (nth_call revoke_trace 4)).
Proof.
  eapply secrets_deleted_only_when_owned; [apply run_exec|]. vm_compute. reflexivity.
Defined.

(** C15: An access is ready only when it was granted. A status write of the Sidecar begins
    the deletion of an access, records an error on a state the server returned or that is
    described here, or makes the access ready; and it makes it ready only after the driver
    granted access, with an account ID, to exactly the requested buckets, and the Secret
    of every one of them was stored with the validated credentials and bucket info that
    the driver returned for that bucket. *)
Theorem access_ready_only_when_granted d key tr res n a :
  exec (Reconcile d key) tr res →
  nth_call tr n = Some (StatusUpdateAccess a) →
  status_allowed d key (take n tr) a.
Proof. intros Hx Hn. exact (wp_nth_call _ _ _ _ _ _ _ (wp_saccess_Reconcile d key) Hx Hn). Qed.

Lemma access_ready_only_when_granted_witness :
  status_allowed demo_driver_info demo_access_key (take 11 grant_trace)
    (access_of (nth_call grant_trace 11)).
Proof.
  eapply access_ready_only_when_granted; [apply run_exec|]. vm_compute. reflexivity.
Defined.

(** C16: Cleanup in order. The driver is asked to revoke only for an access under deletion
    with a recorded account, after every Secret the access refers to was deleted, was gone or
    was found not to be the access's; the request names that account and exactly the accessed
    buckets, none with an empty ID. And the Sidecar updates an access only to add the
    protection finalizer before a grant, or to hand the access back to the Controller by the
    cleanup annotation; it hands it back only when all Secrets are dealt with and, if an
    account was recorded, the driver has confirmed its revocation. *)
Theorem cleanup_in_order d key tr res n :
  exec (Reconcile d key) tr res →
  (∀ q, nth_call tr n = Some (DriverRevokeBucketAccess q) → revoke_allowed d key (take n tr) q) ∧
  (∀ a, nth_call tr n = Some (UpdateAccess a) →
     protect_allowed d key (take n tr) a ∨ hand_back_allowed d key (take n tr) a).
Proof.
  intros Hx. split; intros x Hn;
    exact (wp_nth_call _ _ _ _ _ _ _ (wp_saccess_Reconcile d key) Hx Hn).
Qed.

Lemma cleanup_in_order_witness :
  let a := access_of (nth_call revoke_trace 6) in
  revoke_allowed demo_driver_info demo_access_key (take 5 revoke_trace)
    (revoke_request_of (nth_call revoke_trace 5)) ∧
  (protect_allowed demo_driver_info demo_access_key (take 6 revoke_trace) a ∨
   hand_back_allowed demo_driver_info demo_access_key (take 6 revoke_trace) a).
Proof.
  split; eapply cleanup_in_order; try apply run_exec; vm_compute; reflexivity.
Defined.

(** C17: Outcome of an access reconcile in the Sidecar. An access that it does not manage,
    or of another driver, is read and otherwise left alone. Otherwise the reconcile ends
    without an error only when the access was made ready, or handed back under deletion;
    any error is recorded by the last call, attributed to the Sidecar, and is terminal
    exactly when it is non-retryable and the record was stored; and a failed driver call
    is always reported, as non-retryable exactly for the codes INVALID_ARGUMENT,
    ALREADY_EXISTS and UNIMPLEMENTED and, of a grant, OUT_OF_RANGE. *)
Theorem sidecar_access_outcome d key tr res :
  exec (Reconcile d key) tr res →
  access_outcome d key tr res ∧
  ∀ e revoke, is_nonRetryable (classified e revoke) = true ↔
    rpc_code e = InvalidArgument ∨ rpc_code e = CodeAlreadyExists ∨
    rpc_code e = Unimplemented ∨ (revoke = false ∧ rpc_code e = OutOfRange).
Proof.
  intros Hx. split; [|apply access_classified_nonRetryable].
  exact (proj1 (wp_exec _ _ _ _ _ (wp_saccess_Reconcile d key) Hx)).
Qed.

Lemma sidecar_access_outcome_witness :
  access_outcome demo_driver_info demo_access_key revoke_trace None.
Proof.
  eapply sidecar_access_outcome.
  exact (run_exec (Reconcile demo_driver_info demo_access_key) demo_revoke_world).
Defined.
