(* ===== verification/RemoteDriver.v ===== *)
(** * A driver behind gRPC

    Puts the reconcilers of the Sidecar together with the generated clients of [CosiGrpc]: the
    in-memory environment of [ApiServer], in which the driver is a record of functions, against
    the same environment with that driver in another process, called through gRPC. *)

From stdpp Require Import base gmap strings list.
From S2P Require Import Prelude GoErrors ApiTypes ProtoTypes ProtoDesc ProtoWire CosiDesc Grpc CosiGrpc.
From S2P Require Import Effects ApiServer Driver.
From S2P Require SidecarBucket SidecarAccess.

(** The driver as a server; the Sidecar has no call of [DriverDeleteBucket]. *)
Definition serve {Req Resp Resp'} (f : Req → result rpc_error Resp) (g : Resp → Resp') :
    method (St := unit) Req Resp' := λ q st,
  (match f q with Ok r => Ok (g r) | Err e => Err (AppError (of_rpc_error e)) end, st).
Definition provisioner_of (d : Driver) : ProvisionerServer := {|
  srv_DriverCreateBucket := serve (driver_create d) id;
  srv_DriverGetExistingBucket := serve (driver_get d) id;
  srv_DriverDeleteBucket := srv_DriverDeleteBucket UnimplementedProvisionerServer;
  srv_DriverGrantBucketAccess := serve (driver_grant d) id;
  srv_DriverRevokeBucketAccess := serve (driver_revoke d) (λ _, mkDriverRevokeBucketAccessResponse) |}.

Section remote.
Context (describe : wire_error → string) (order_req order_rep : list string).

Definition reliable : fate :=
  {| delivered := true; answered := true; failure := status_Errorf Unavailable "" |}.

(** A call of the driver through the client of the Sidecar. *)
Definition dial (d : Driver) : ClientConnInterface (St := unit) :=
  match driver_server UnimplementedIdentityServer (provisioner_of d) with
  | Some s => conn describe order_req order_rep s reliable
  | None => λ _ _ _ _ _ _ st, (Err (failure reliable), st)
  end.

(** One call, as [handle], with the driver behind gRPC. *)
Definition handle_remote (w : World) (r : req) : World * resp r :=
  match r return World * resp r with
  | DriverCreateBucket q => (w, (provisionerClient_DriverCreateBucket (dial (w_driver w)) q tt).1)
  | DriverGetExistingBucket q => (w, (provisionerClient_DriverGetExistingBucket (dial (w_driver w)) q tt).1)
  | DriverGrantBucketAccess q => (w, (provisionerClient_DriverGrantBucketAccess (dial (w_driver w)) q tt).1)
  | DriverRevokeBucketAccess q =>
      (w, match (provisionerClient_DriverRevokeBucketAccess (dial (w_driver w)) q tt).1 with
          | Ok _ => Ok tt
          | Err e => Err e
          end)
  | r => handle w r
  end.

(** The messages of a call of the driver can travel, and an error has a status other than OK and a
    text that the header of a status carries unchanged. *)
Definition error_travels (e : rpc_error) : Prop :=
  rpc_code e ≠ CodeOK ∧ utf8_ValidString (rpc_msg e) = true.
Definition answer_travels {Resp} `{ProtoMessage Resp} (x : result rpc_error Resp) : Prop :=
  match x with Ok out => travels order_rep out | Err e => error_travels e end.
Definition event_travels (ev : event) : Prop :=
  match ev with
  | Ev (DriverCreateBucket q) x => travels order_req q ∧ answer_travels x
  | Ev (DriverGetExistingBucket q) x => travels order_req q ∧ answer_travels x
  | Ev (DriverGrantBucketAccess q) x => travels order_req q ∧ answer_travels x
  | Ev (DriverRevokeBucketAccess q) x =>
      travels order_req q ∧ match x with Ok _ => True | Err e => error_travels e end
  | Ev _ _ => True
  end.

(** A client that reaches a method of the driver answers as the driver does. *)
Lemma reaches_answer {Req Resp Resp'} `{ProtoMessage Req, ProtoMessage Resp'} client
    (f : Req → result rpc_error Resp) (g : Resp → Resp') q :
  reaches order_req order_rep client (serve f g) → travels order_req q →
  match f q with Ok r => travels order_rep (g r) | Err e => error_travels e end →
  (client reliable q tt).1 = match f q with Ok r => Ok (g r) | Err e => Err e end.
Proof.
  intros Hr Hq Hx. destruct (Hr reliable q tt Hq) as [_ Hcall]. unfold serve in Hcall.
  destruct (f q) as [r|e]; cbn in Hcall.
  - rewrite Hcall; [done|done|]. by intros out [= <-].
  - rewrite Hcall; [|done|done]. destruct Hx as [Hc Hu]. cbn. rewrite client_error_valid; [|done|done].
    by destruct e.
Qed.

Lemma dial_reaches d :
  ∃ s, dial d = conn describe order_req order_rep s reliable ∧
    driver_reached describe order_req order_rep s UnimplementedIdentityServer (provisioner_of d).
Proof.
  unfold dial. destruct (driver_server UnimplementedIdentityServer (provisioner_of d)) as [s|] eqn:E; [|done].
  exists s. split; [done|]. by apply driver_server_reached.
Qed.

Lemma handle_remote_same w r :
  event_travels (Ev r (handle w r).2) → handle_remote w r = handle w r.
Proof.
  destruct (dial_reaches (w_driver w)) as (s & Hdial & (_ & Hc & Hg & _ & Hgr & Hrv)).
  destruct r; try done; cbn [event_travels handle snd handle_remote]; intros [Hq Hx]; rewrite Hdial; f_equal.
  - rewrite (reaches_answer _ _ _ _ Hc Hq) by by destruct (driver_create _ _). by destruct (driver_create _ _).
  - rewrite (reaches_answer _ _ _ _ Hg Hq) by by destruct (driver_get _ _). by destruct (driver_get _ _).
  - rewrite (reaches_answer _ _ _ _ Hgr Hq) by by destruct (driver_grant _ _). by destruct (driver_grant _ _).
  - rewrite (reaches_answer _ _ _ _ Hrv Hq).
    + by destruct (driver_revoke _ _) as [[]|].
    + destruct (driver_revoke _ _) as [[]|]; [|done]. split; [done|]. split; [done|]. by intros b [= <-].
Qed.

Definition run_remote {A} (p : prog A) (w : World) : World * list event * A := interp handle_remote p w.

Lemma run_remote_same {A} (p : prog A) w :
  Forall event_travels (run_trace p w) → run_remote p w = run p w.
Proof.
  unfold run_remote, run_trace, run. revert w. induction p as [a|r k IH]; intros w; [done|].
  cbn [interp]. destruct (handle w r) as [w1 x] eqn:Eh. specialize (IH x w1).
  destruct (interp handle (k x) w1) as [[w2 tr] a] eqn:Er. cbn [fst snd].
  intros [Hev Htr]%Forall_cons.
  pose proof (handle_remote_same w r) as Hs. rewrite Eh in Hs. rewrite (Hs Hev). by rewrite IH.
Qed.

(** C6: gRPC between the Sidecar and its driver is transparent. Let the messages that are
    exchanged with the driver in a run be fit to travel: strings in valid UTF-8, enums that are
    int32, at most four mebibytes each, and errors with a code other than OK and a text in valid
    UTF-8. Then the run with the driver in another process, called through the generated client,
    the codec and the generated handlers, is the run with the driver called directly: the same
    calls with the same answers, the same objects in the API server and the same result. It holds
    for every program, so for the reconcilers of Buckets and of BucketAccesses of the Sidecar. *)
Theorem remote_driver_transparent {A} (p : prog A) w :
  Forall event_travels (run_trace p w) → run_remote p w = run p w.
Proof. apply run_remote_same. Qed.
End remote.

(** The example grant. *)
Lemma travels_of {M} `{ProtoMessageLaws M} order (m : M) b :
  codec_Marshal order m = Ok b → fields_range descriptor (to_fields m) →
  (len b ≤ defaultServerMaxReceiveMessageSize)%Z → travels order m.
Proof.
  intros Hb Hr Hlen. split; [done|]. split; [|intros b'; rewrite Hb; by intros [= <-]].
  apply (proj2 (wire_ok order)). unfold codec_Marshal, proto_Marshal in Hb. by rewrite Hb.
Qed.
Lemma grant_trace_travels : Forall (event_travels [] []) SidecarAccess.grant_trace.
Proof.
  match goal with |- Forall _ ?l =>
    let l' := eval vm_compute in l in replace l with l' by (vm_compute; reflexivity) end.
  repeat (apply Forall_cons; split); try apply Forall_nil; cbn [event_travels answer_travels]; try exact I.
  split; (eapply travels_of; [vm_compute; reflexivity|repeat constructor|vm_compute; discriminate]).
Qed.

Lemma remote_driver_transparent_witness :
  run_remote (λ _, "") [] [] (SidecarAccess.Reconcile demo_driver_info demo_access_key)
    SidecarAccess.demo_grant_world =
  run (SidecarAccess.Reconcile demo_driver_info demo_access_key) SidecarAccess.demo_grant_world.
Proof. apply remote_driver_transparent. exact grant_trace_travels. Defined.
