(* ===== verification/Scheme.v ===== *)
(** * The scheme: kinds and Go types

    Models how the two commands build their scheme: the registration of the API types in
    [src/client/apis/objectstorage/v1alpha2] (groupversion_info.go and the [init] of each
    file), the [init] of [src/controller/cmd/main.go] and [src/sidecar/cmd/main.go], and what
    they use of the vendored [runtime.Scheme] and [scheme.Builder]. The scheme answers under
    which kind an object is sent to the API server and which kind an owner reference names;
    conversion and defaulting functions, which the same calls register, are left out.

    A panic is [None]. The types of the Kubernetes API itself are registered by client-go: the
    function [clientgo] of [main_init], with a hypothesis on the scheme that it leaves. *)

From Stdlib Require Import Ascii.
From stdpp Require Import base gmap strings list countable.
From S2P Require Import Prelude ApiTypes Predicates Grpc SidecarAccess.

(** ** Kinds and types *)

Record GroupVersion : Type := { gv_Group : string; gv_Version : string }.
Record GroupVersionKind : Type := { gvk_Group : string; gvk_Version : string; gvk_Kind : string }.
(** A [reflect.Type] of a struct: package path and name. *)
Record GoType : Type := { type_PkgPath : string; type_Name : string }.

#[local] Set Warnings "-register-all".

#[export] Instance GroupVersion_eq_dec : EqDecision GroupVersion.
Proof. solve_decision. Defined.
#[export] Instance GroupVersionKind_eq_dec : EqDecision GroupVersionKind.
Proof. solve_decision. Defined.
#[export] Instance GroupVersionKind_countable : Countable GroupVersionKind.
Proof.
  apply (inj_countable' (λ g, (gvk_Group g, gvk_Version g, gvk_Kind g))
           (λ t, {| gvk_Group := t.1.1; gvk_Version := t.1.2; gvk_Kind := t.2 |})). by intros [].
Defined.
#[export] Instance GoType_eq_dec : EqDecision GoType.
Proof. solve_decision. Defined.
#[export] Instance GoType_countable : Countable GoType.
Proof.
  apply (inj_countable' (λ t, (type_PkgPath t, type_Name t))
           (λ p, {| type_PkgPath := p.1; type_Name := p.2 |})). by intros [].
Defined.

Definition WithKind (gv : GroupVersion) (kind : string) : GroupVersionKind :=
  {| gvk_Group := gv_Group gv; gvk_Version := gv_Version gv; gvk_Kind := kind |}.
Definition gvk_GroupVersion (gvk : GroupVersionKind) : GroupVersion :=
  {| gv_Group := gvk_Group gvk; gv_Version := gvk_Version gvk |}.
Definition gvk_Empty (gvk : GroupVersionKind) : bool :=
  (gvk_Group gvk =s "") && (gvk_Version gvk =s "") && (gvk_Kind gvk =s "").
Definition GroupVersion_String (gv : GroupVersion) : string :=
  if gv_Group gv =s "" then gv_Version gv else gv_Group gv +:+ "/" +:+ gv_Version gv.

(** ** The scheme *)

Record Scheme : Type := {
  gvkToType : gmap GroupVersionKind GoType;
  typeToGVK : gmap GoType (list GroupVersionKind);
  unversionedTypes : gmap GoType GroupVersionKind;
  unversionedKinds : gmap string GoType;
  observedVersions : list GroupVersion
}.

Definition NewScheme : Scheme := {|
  gvkToType := ∅; typeToGVK := ∅; unversionedTypes := ∅; unversionedKinds := ∅; observedVersions := [] |}.

Definition APIVersionInternal : string := "__internal".

Definition addObservedVersion (gv : GroupVersion) (s : Scheme) : Scheme :=
  if (gv_Version gv =s "") || (gv_Version gv =s APIVersionInternal) then s
  else if bool_decide (gv ∈ observedVersions s) then s
  else {| gvkToType := gvkToType s; typeToGVK := typeToGVK s; unversionedTypes := unversionedTypes s;
          unversionedKinds := unversionedKinds s; observedVersions := observedVersions s ++ [gv] |}.

Definition add_gvk (gvk : GroupVersionKind) (l : list GroupVersionKind) : list GroupVersionKind :=
  if bool_decide (gvk ∈ l) then l else l ++ [gvk].

Definition AddKnownTypeWithName (gvk : GroupVersionKind) (t : GoType) (s : Scheme) : option Scheme :=
  let s := addObservedVersion (gvk_GroupVersion gvk) s in
  if gvk_Version gvk =s "" then None
  else if match gvkToType s !! gvk with Some oldT => bool_decide (oldT ≠ t) | None => false end then None
  else Some {|
    gvkToType := <[gvk := t]> (gvkToType s);
    typeToGVK := <[t := add_gvk gvk (default [] (typeToGVK s !! t))]> (typeToGVK s);
    unversionedTypes := unversionedTypes s; unversionedKinds := unversionedKinds s;
    observedVersions := observedVersions s |}.

(** A function on a scheme for each element, until one panics. *)
Fixpoint for_each {A} (f : A → Scheme → option Scheme) (l : list A) (s : Scheme) : option Scheme :=
  match l with
  | [] => Some s
  | x :: l' => s' ← f x s; for_each f l' s'
  end.

Definition AddKnownTypes (gv : GroupVersion) (types : list GoType) (s : Scheme) : option Scheme :=
  for_each (λ t, AddKnownTypeWithName (WithKind gv (type_Name t)) t) types (addObservedVersion gv s).

(** The loop of [AddUnversionedTypes] over the types. *)
Definition mark_unversioned (gv : GroupVersion) (t : GoType) (s : Scheme) : option Scheme :=
  if match unversionedKinds s !! type_Name t with Some old => bool_decide (t ≠ old) | None => false end then None
  else Some {|
    gvkToType := gvkToType s; typeToGVK := typeToGVK s;
    unversionedTypes := <[t := WithKind gv (type_Name t)]> (unversionedTypes s);
    unversionedKinds := <[type_Name t := t]> (unversionedKinds s);
    observedVersions := observedVersions s |}.

Definition AddUnversionedTypes (gv : GroupVersion) (types : list GoType) (s : Scheme) : option Scheme :=
  s ← AddKnownTypes gv types (addObservedVersion gv s);
  for_each (mark_unversioned gv) types s.

(** Errors of the scheme, without their text. *)
Inductive scheme_error : Type :=
| NotRegistered (t : GoType)
| UnversionedType (t : GoType)
| NoKind (t : GoType)
| MultipleKinds (gvks : list GroupVersionKind).

Definition ObjectKinds (s : Scheme) (t : GoType) : result scheme_error (list GroupVersionKind * bool) :=
  match typeToGVK s !! t with
  | None => Err (NotRegistered t)
  | Some gvks => Ok (gvks, match unversionedTypes s !! t with Some _ => true | None => false end)
  end.

(** [Scheme.New]: the type of the new object. *)
Definition Scheme_New (s : Scheme) (gvk : GroupVersionKind) : option GoType :=
  match gvkToType s !! gvk with
  | Some t => Some t
  | None => unversionedKinds s !! gvk_Kind gvk
  end.

(** [apiutil.GVKForObject] for an object with a Go type; [current] is the kind in its
    TypeMeta. *)
Definition GVKForObject (s : Scheme) (t : GoType) (current : GroupVersionKind) :
    result scheme_error GroupVersionKind :=
  match ObjectKinds s t with
  | Err e => Err e
  | Ok (_, true) => Err (UnversionedType t)
  | Ok ([], false) => Err (NoKind t)
  | Ok ([gvk], false) => Ok gvk
  | Ok (gvks, false) =>
      if negb (gvk_Empty current) && bool_decide (current ∈ gvks) then Ok current else Err (MultipleKinds gvks)
  end.

(** ** Registration of the API types *)

Definition metav1 (name : string) : GoType :=
  {| type_PkgPath := "k8s.io/apimachinery/pkg/apis/meta/v1"; type_Name := name |}.
Definition optionsTypes : list GoType :=
  metav1 <$> ["ListOptions"; "GetOptions"; "DeleteOptions"; "CreateOptions"; "UpdateOptions"; "PatchOptions"].
Definition Unversioned : GroupVersion := {| gv_Group := ""; gv_Version := "v1" |}.

Definition AddToGroupVersion (gv : GroupVersion) (s : Scheme) : option Scheme :=
  s ← AddKnownTypeWithName (WithKind gv "WatchEvent") (metav1 "WatchEvent") s;
  s ← AddKnownTypeWithName (WithKind {| gv_Group := gv_Group gv; gv_Version := APIVersionInternal |} "WatchEvent")
        (metav1 "InternalEvent") s;
  s ← AddKnownTypes gv optionsTypes s;
  AddUnversionedTypes Unversioned
    (metav1 <$> ["Status"; "APIVersions"; "APIGroupList"; "APIGroup"; "APIResourceList"]) s.

(** [scheme.Builder]: the group version and, for each call of [Register], its objects. *)
Record Builder : Type := { bld_GroupVersion : GroupVersion; bld_Registered : list (list GoType) }.
Definition Register (objects : list GoType) (bld : Builder) : Builder :=
  {| bld_GroupVersion := bld_GroupVersion bld; bld_Registered := bld_Registered bld ++ [objects] |}.
Definition Builder_AddToScheme (bld : Builder) (s : Scheme) : option Scheme :=
  for_each (λ objects s, s ← AddKnownTypes (bld_GroupVersion bld) objects s;
                         AddToGroupVersion (bld_GroupVersion bld) s) (bld_Registered bld) s.

(** groupversion_info.go, and the [init] functions in the order of their files. *)
Definition apiGroupVersion : GroupVersion := {| gv_Group := "objectstorage.k8s.io"; gv_Version := "v1alpha2" |}.
Definition v1alpha2 (name : string) : GoType :=
  {| type_PkgPath := "sigs.k8s.io/container-object-storage-interface/client/apis/objectstorage/v1alpha2";
     type_Name := name |}.
Definition bucket_init : Builder → Builder := Register [v1alpha2 "Bucket"; v1alpha2 "BucketList"].
Definition bucketaccess_init : Builder → Builder :=
  Register [v1alpha2 "BucketAccess"; v1alpha2 "BucketAccessList"].
Definition bucketaccessclass_init : Builder → Builder :=
  Register [v1alpha2 "BucketAccessClass"; v1alpha2 "BucketAccessClassList"].
Definition bucketclaim_init : Builder → Builder :=
  Register [v1alpha2 "BucketClaim"; v1alpha2 "BucketClaimList"].
Definition bucketclass_init : Builder → Builder :=
  Register [v1alpha2 "BucketClass"; v1alpha2 "BucketClassList"].
Definition SchemeBuilder : Builder :=
  bucketclass_init (bucketclaim_init (bucketaccessclass_init (bucketaccess_init (bucket_init
    {| bld_GroupVersion := apiGroupVersion; bld_Registered := [] |})))).
Definition AddToScheme : Scheme → option Scheme := Builder_AddToScheme SchemeBuilder.

(** The [init] of both commands. *)
Definition main_init (clientgo : Scheme → option Scheme) : option Scheme :=
  s ← clientgo NewScheme;
  AddToScheme s.

(** ** What the reconcilers use of it *)

(** The type of an object that a filter can see. *)
Definition TypeOf (o : client_object) : GoType :=
  match o with
  | ObjBucket _ => v1alpha2 "Bucket"
  | ObjBucketClaim _ => v1alpha2 "BucketClaim"
  | ObjBucketAccess _ => v1alpha2 "BucketAccess"
  | ObjSecret _ => {| type_PkgPath := "k8s.io/api/core/v1"; type_Name := "Secret" |}
  end.

(** [inferKind] of predicate.go, for the log. *)
Definition inferKind (o : client_object) (s : Scheme) : string :=
  match ObjectKinds s (TypeOf o) with
  | Err _ => "unknown"
  | Ok (gvks, _) =>
      match List.find (λ gvk, negb (gvk_Kind gvk =s "") && negb (gvk_Version gvk =s "")) gvks with
      | Some gvk => gvk_Kind gvk
      | None => "unknown"
      end
  end.

(** [schema.ParseGroupVersion]; [None] is the error for more than one slash. *)
Definition ParseGroupVersion (gv : string) : option GroupVersion :=
  if (gv =s "") || (gv =s "/") then Some {| gv_Group := ""; gv_Version := "" |}
  else
    match split_last "/"%char gv with
    | None => Some {| gv_Group := ""; gv_Version := gv |}
    | Some (group, version) =>
        match split_last "/"%char group with
        | None => Some {| gv_Group := group; gv_Version := version |}
        | Some _ => None
        end
    end.

Definition referSameObject (a b : OwnerReference) : bool :=
  match ParseGroupVersion (owner_APIVersion a), ParseGroupVersion (owner_APIVersion b) with
  | Some aGV, Some bGV =>
      (gv_Group aGV =s gv_Group bGV) && (owner_Kind a =s owner_Kind b) && (owner_Name a =s owner_Name b)
  | _, _ => false
  end.

Fixpoint upsertOwnerRef (ref : OwnerReference) (owners : list OwnerReference) : list OwnerReference :=
  match owners with
  | [] => [ref]
  | r :: owners' => if referSameObject r ref then ref :: owners' else r :: upsertOwnerRef ref owners'
  end.

Inductive owner_error : Type :=
| ClusterScopedObject
| CrossNamespace
| OwnerKind (e : scheme_error)
| AlreadyOwned (existing : OwnerReference).

Definition validateOwner (ownerNs objNs : string) : option owner_error :=
  if ownerNs =s "" then None
  else if objNs =s "" then Some ClusterScopedObject
  else if negb (ownerNs =s objNs) then Some CrossNamespace
  else None.

(** [SetControllerReference] of a BucketAccess on a Secret, with [WithBlockOwnerDeletion(true)].
    The access comes from the API server, whose client leaves its TypeMeta empty. *)
Definition SetControllerReference (s : Scheme) (owner : BucketAccess) (controlled : Secret) :
    result owner_error Secret :=
  match validateOwner (GetNamespace owner) (GetNamespace controlled) with
  | Some e => Err e
  | None =>
      match GVKForObject s (v1alpha2 "BucketAccess") {| gvk_Group := ""; gvk_Version := ""; gvk_Kind := "" |} with
      | Err e => Err (OwnerKind e)
      | Ok gvk =>
          let ref := {|
            owner_APIVersion := GroupVersion_String (gvk_GroupVersion gvk); owner_Kind := gvk_Kind gvk;
            owner_Name := GetName owner; owner_UID := GetUID owner;
            owner_Controller := Some true; owner_BlockOwnerDeletion := Some true |} in
          match GetControllerOf controlled with
          | Some existing =>
              if negb (referSameObject existing ref) then Err (AlreadyOwned existing)
              else Ok (SetMeta (meta_with_OwnerReferences
                     (upsertOwnerRef ref (meta_OwnerReferences (GetMeta controlled))) (GetMeta controlled)) controlled)
          | None =>
              Ok (SetMeta (meta_with_OwnerReferences
                (upsertOwnerRef ref (meta_OwnerReferences (GetMeta controlled))) (GetMeta controlled)) controlled)
          end
      end
  end.

(** The Secret before the reference is set: name and namespace only. *)
Definition bareSecret (secretName : string) (owningAccess : BucketAccess) : Secret := {|
  secret_ObjectMeta := {|
    meta_Name := secretName; meta_Namespace := GetNamespace owningAccess; meta_UID := "";
    meta_ResourceVersion := ""; meta_Generation := 0; meta_DeletionTimestamp := None;
    meta_Annotations := ∅; meta_Finalizers := []; meta_OwnerReferences := [] |};
  secret_Data := ∅; secret_StringData := ∅; secret_Type := "" |}.

(** ** Registration as a sequence of steps *)

Inductive step : Type :=
| Observe (gv : GroupVersion)
| Known (gvk : GroupVersionKind) (t : GoType)
| MarkUnversioned (gv : GroupVersion) (t : GoType).

#[export] Instance step_eq_dec : EqDecision step.
Proof. solve_decision. Defined.

Definition take_step (st : step) (s : Scheme) : option Scheme :=
  match st with
  | Observe gv => Some (addObservedVersion gv s)
  | Known gvk t => AddKnownTypeWithName gvk t s
  | MarkUnversioned gv t => mark_unversioned gv t s
  end.

Lemma for_each_app {A} (f : A → Scheme → option Scheme) l1 l2 s :
  for_each f (l1 ++ l2) s = (s' ← for_each f l1 s; for_each f l2 s').
Proof. revert s. induction l1 as [|x l1 IH]; intros s; cbn; [done|]. destruct (f x s); cbn; auto. Qed.

Lemma for_each_map {A B} (f : B → Scheme → option Scheme) (g : A → B) l s :
  for_each (λ x, f (g x)) l s = for_each f (g <$> l) s.
Proof. revert s. induction l as [|x l IH]; intros s; cbn; [done|]. destruct (f (g x) s); cbn; auto. Qed.

Lemma for_each_bind {A} (f : A → list step) l s :
  for_each (λ x, for_each take_step (f x)) l s = for_each take_step (l ≫= f) s.
Proof.
  revert s. induction l as [|x l IH]; intros s; cbn; [done|]. rewrite for_each_app.
  destruct (for_each take_step (f x) s); cbn; auto.
Qed.

Definition known_steps (gv : GroupVersion) (ts : list GoType) : list step :=
  Observe gv :: ((λ t, Known (WithKind gv (type_Name t)) t) <$> ts).
Definition meta_steps (gv : GroupVersion) : list step :=
  let unversioned := metav1 <$> ["Status"; "APIVersions"; "APIGroupList"; "APIGroup"; "APIResourceList"] in
  [Known (WithKind gv "WatchEvent") (metav1 "WatchEvent");
   Known (WithKind {| gv_Group := gv_Group gv; gv_Version := APIVersionInternal |} "WatchEvent")
     (metav1 "InternalEvent")] ++
  known_steps gv optionsTypes ++ [Observe Unversioned] ++ known_steps Unversioned unversioned ++
  (MarkUnversioned Unversioned <$> unversioned).
Definition builder_steps (bld : Builder) : list step :=
  bld_Registered bld ≫= λ ts, known_steps (bld_GroupVersion bld) ts ++ meta_steps (bld_GroupVersion bld).

Lemma AddKnownTypes_steps gv ts s : AddKnownTypes gv ts s = for_each take_step (known_steps gv ts) s.
Proof. unfold AddKnownTypes. cbn. by rewrite <-(for_each_map take_step). Qed.

Lemma AddToGroupVersion_steps gv s : AddToGroupVersion gv s = for_each take_step (meta_steps gv) s.
Proof.
  unfold AddToGroupVersion, meta_steps. cbn [app for_each take_step].
  destruct (AddKnownTypeWithName _ _ s) as [s1|]; [|done]. cbn [mbind option_bind].
  destruct (AddKnownTypeWithName _ _ s1) as [s2|]; [|done]. cbn [mbind option_bind].
  rewrite for_each_app, AddKnownTypes_steps. destruct (for_each _ _ s2) as [s3|]; [|done].
  cbn [mbind option_bind app]. unfold AddUnversionedTypes. cbn [for_each take_step mbind option_bind].
  rewrite for_each_app, AddKnownTypes_steps. destruct (for_each _ _ _) as [s4|]; [|done].
  apply (for_each_map take_step (MarkUnversioned Unversioned)).
Qed.

Lemma for_each_ext {A} (f g : A → Scheme → option Scheme) l s :
  (∀ x s, f x s = g x s) → for_each f l s = for_each g l s.
Proof.
  intros H. revert s. induction l as [|x l IH]; intros s; cbn; [done|]. rewrite H.
  destruct (g x s); cbn; auto.
Qed.

Lemma Builder_AddToScheme_steps bld s : Builder_AddToScheme bld s = for_each take_step (builder_steps bld) s.
Proof.
  unfold Builder_AddToScheme, builder_steps. rewrite <-for_each_bind. apply for_each_ext.
  intros ts s1. rewrite for_each_app, AddKnownTypes_steps.
  destruct (for_each take_step _ s1) as [s2|]; [|done]. apply AddToGroupVersion_steps.
Qed.

(** ** What a sequence of steps does *)

Lemma observed_fields gv s :
  gvkToType (addObservedVersion gv s) = gvkToType s ∧ typeToGVK (addObservedVersion gv s) = typeToGVK s ∧
  unversionedTypes (addObservedVersion gv s) = unversionedTypes s ∧
  unversionedKinds (addObservedVersion gv s) = unversionedKinds s.
Proof. unfold addObservedVersion. by repeat case_match. Qed.

(** The kinds of a type, a list that only grows. *)
Definition gvks_step (t : GoType) (o : option (list GroupVersionKind)) (st : step) :
    option (list GroupVersionKind) :=
  match st with
  | Known gvk t' => if bool_decide (t' = t) then Some (add_gvk gvk (default [] o)) else o
  | _ => o
  end.
Definition marks (t : GoType) (st : step) : bool :=
  match st with MarkUnversioned _ t' => bool_decide (t' = t) | _ => false end.
Definition names (gvk : GroupVersionKind) (st : step) : bool :=
  match st with Known gvk' _ => bool_decide (gvk' = gvk) | _ => false end.

(** What one step does to what the scheme knows of a kind and of a type. *)
Definition step_effect (st : step) (s s' : Scheme) : Prop :=
  (∀ gvk t, gvkToType s !! gvk = Some t → gvkToType s' !! gvk = Some t) ∧
  (∀ gvk t, st = Known gvk t → gvkToType s' !! gvk = Some t) ∧
  (∀ gvk, names gvk st = false → gvkToType s' !! gvk = gvkToType s !! gvk) ∧
  (∀ t, typeToGVK s' !! t = gvks_step t (typeToGVK s !! t) st) ∧
  (∀ t, marks t st = false → unversionedTypes s' !! t = unversionedTypes s !! t).

Lemma take_step_effect st s s' : take_step st s = Some s' → step_effect st s s'.
Proof.
  destruct st as [gv|gvk t|gv t]; cbn; unfold step_effect.
  - intros [= <-]. destruct (observed_fields gv s) as (-> & -> & -> & _). by split_and!.
  - unfold AddKnownTypeWithName. destruct (observed_fields (gvk_GroupVersion gvk) s) as (-> & -> & -> & _).
    destruct (_ =s ""); [done|]. destruct (gvkToType s !! gvk) as [old|] eqn:Eold.
    1: case_bool_decide as Hold; [done|]; simplify_eq.
    all: intros [= <-]; cbn; split_and!; try done.
    all: try (intros gvk' t'; destruct (decide (gvk' = gvk)) as [->|];
      [rewrite lookup_insert_eq; congruence|by rewrite lookup_insert_ne]).
    all: try (intros ? ? [= <- <-]; apply lookup_insert_eq).
    all: try (intros gvk' Hn; apply lookup_insert_ne; by apply bool_decide_eq_false in Hn).
    all: intros t'; case_bool_decide as Ht; [subst; apply lookup_insert_eq|by apply lookup_insert_ne].
  - unfold mark_unversioned. case_match; [done|]. intros [= <-]. cbn. split_and!; try done.
    intros t' Ht. apply lookup_insert_ne. by apply bool_decide_eq_false in Ht.
Qed.

Lemma steps_effect l s s' :
  for_each take_step l s = Some s' →
  (∀ gvk t, gvkToType s !! gvk = Some t → gvkToType s' !! gvk = Some t) ∧
  (∀ gvk t, Known gvk t ∈ l → gvkToType s' !! gvk = Some t) ∧
  (∀ gvk, existsb (names gvk) l = false → gvkToType s' !! gvk = gvkToType s !! gvk) ∧
  (∀ t, typeToGVK s' !! t = foldl (gvks_step t) (typeToGVK s !! t) l) ∧
  (∀ t, existsb (marks t) l = false → unversionedTypes s' !! t = unversionedTypes s !! t).
Proof.
  revert s. induction l as [|st l IH]; intros s; cbn [for_each].
  - intros [= <-]. split_and!; try done. intros gvk t H. by apply elem_of_nil in H.
  - destruct (take_step st s) as [s1|] eqn:E; [|done]. cbn [mbind option_bind].
    intros (M2 & K2 & N2 & G2 & U2)%IH. apply take_step_effect in E as (M1 & K1 & N1 & G1 & U1).
    split_and!.
    + auto.
    + intros gvk t [Hst|Hl]%elem_of_cons; [|by apply K2]. apply M2, K1. done.
    + intros gvk [Hst Hl]%orb_false_iff. rewrite N2, N1; done.
    + intros t. rewrite G2, G1. done.
    + intros t [Hst Hl]%orb_false_iff. rewrite U2, U1; done.
Qed.

(** Nothing panics when the steps agree with each other and with the scheme. *)
Definition allowed (s : Scheme) (st : step) : Prop :=
  match st with
  | Observe _ => True
  | Known gvk t => gvk_Version gvk ≠ "" ∧ ∀ t', gvkToType s !! gvk = Some t' → t' = t
  | MarkUnversioned _ t => ∀ t', unversionedKinds s !! type_Name t = Some t' → t' = t
  end.
Definition agrees (st1 st2 : step) : bool :=
  match st1, st2 with
  | Known gvk1 t1, Known gvk2 t2 => bool_decide (gvk1 ≠ gvk2 ∨ t1 = t2)
  | MarkUnversioned _ t1, MarkUnversioned _ t2 => bool_decide (type_Name t1 ≠ type_Name t2 ∨ t1 = t2)
  | _, _ => true
  end.

Lemma take_step_allowed st s :
  allowed s st → ∃ s', take_step st s = Some s' ∧ ∀ st', allowed s st' → agrees st st' = true → allowed s' st'.
Proof.
  destruct st as [gv|gvk t|gv t]; cbn.
  - intros _. eexists. split; [done|]. intros st' Hst' _.
    destruct (observed_fields gv s) as (Hg & _ & _ & Hk). destruct st'; cbn in *; by rewrite ?Hg, ?Hk.
  - intros [Hv Ht]. unfold AddKnownTypeWithName.
    destruct (observed_fields (gvk_GroupVersion gvk) s) as (-> & _ & _ & ->).
    apply eqs_false in Hv as ->. destruct (gvkToType s !! gvk) as [old|] eqn:Eold.
    1: rewrite (Ht old eq_refl), bool_decide_false by (by intros []).
    all: eexists; split; [done|]; intros [gv'|gvk' t'|gv' t'] Hst' Ha; cbn in *; [done| |done].
    all: split; [apply Hst'|]; destruct (decide (gvk' = gvk)) as [->|Hne];
      [|rewrite lookup_insert_ne by done; apply Hst'].
    all: rewrite lookup_insert_eq; intros t2 [= <-]; by apply bool_decide_eq_true in Ha as [|].
  - intros Ht. unfold mark_unversioned. destruct (unversionedKinds s !! type_Name t) as [old|] eqn:Eold.
    1: rewrite (Ht old eq_refl), bool_decide_false by (by intros []).
    all: eexists; split; [done|]; intros [gv'|gvk' t'|gv' t'] Hst' Ha; cbn in *; [done|done|].
    all: destruct (decide (type_Name t' = type_Name t)) as [Heq|Hne];
      [|rewrite lookup_insert_ne by done; apply Hst'].
    all: rewrite Heq, lookup_insert_eq; intros t2 [= <-]; apply bool_decide_eq_true in Ha as [Ha|]; [|done].
    all: by rewrite Heq in Ha.
Qed.

Fixpoint consistent (l : list step) : bool :=
  match l with
  | [] => true
  | st :: l' => forallb (agrees st) l' && consistent l'
  end.

Lemma steps_allowed l s :
  Forall (allowed s) l → consistent l = true → ∃ s', for_each take_step l s = Some s'.
Proof.
  revert s. induction l as [|st l IH]; intros s Hall Hc; cbn; [by exists s|].
  apply Forall_cons_1 in Hall as [Hst Hall]. apply andb_true_iff in Hc as [Ha Hc].
  destruct (take_step_allowed st s Hst) as (s1 & -> & Hpres). cbn. apply IH; [|done].
  rewrite Forall_forall in *. intros st' Hst'. apply Hpres; [by apply Hall|].
  rewrite forallb_forall in Ha. apply Ha, Hst'.
Qed.

(** ** The API group *)

Definition api_kinds : list string :=
  ["Bucket"; "BucketList"; "BucketAccess"; "BucketAccessList"; "BucketAccessClass"; "BucketAccessClassList";
   "BucketClaim"; "BucketClaimList"; "BucketClass"; "BucketClassList"].
Definition unversioned_kinds : list string := ["Status"; "APIVersions"; "APIGroupList"; "APIGroup"; "APIResourceList"].

(** What client-go leaves: it claims no kind of the API group and none of its types, and the kinds
    of the unversioned types are free or registered for those types. *)
Definition leaves_room (s : Scheme) : Prop :=
  (∀ version kind,
     gvkToType s !! {| gvk_Group := "objectstorage.k8s.io"; gvk_Version := version; gvk_Kind := kind |} = None) ∧
  (∀ name, typeToGVK s !! v1alpha2 name = None ∧ unversionedTypes s !! v1alpha2 name = None) ∧
  (∀ kind t, kind ∈ unversioned_kinds →
     (gvkToType s !! WithKind Unversioned kind = Some t → t = metav1 kind) ∧
     (unversionedKinds s !! kind = Some t → t = metav1 kind)).

(** The steps of the group, sorted by what they need of the scheme. *)
Definition own_step (st : step) : bool :=
  match st with
  | Observe _ => true
  | Known gvk t =>
      negb (gvk_Version gvk =s "") &&
      ((gvk_Group gvk =s "objectstorage.k8s.io") ||
       existsb (λ kind, bool_decide (gvk = WithKind Unversioned kind ∧ t = metav1 kind)) unversioned_kinds)
  | MarkUnversioned _ t => existsb (λ kind, bool_decide (t = metav1 kind)) unversioned_kinds
  end.

Lemma own_step_allowed s st : leaves_room s → own_step st = true → allowed s st.
Proof.
  intros (Hfree & _ & Hun). destruct st as [gv|gvk t|gv t]; cbn [own_step allowed]; [done| |].
  - intros [Hv Hk]%andb_true_iff. apply negb_true_iff, eqs_false in Hv. split; [done|].
    apply orb_true_iff in Hk as [Hg|Hk].
    + apply eqs_true in Hg. destruct gvk as [g v k]. cbn in Hg. subst g. intros t'. by rewrite Hfree.
    + apply existsb_exists in Hk as (kind & Hin & Hk). apply bool_decide_eq_true in Hk as [-> ->].
      intros t'. apply Hun. by apply list_elem_of_In.
  - intros (kind & Hin & Hk)%existsb_exists. apply bool_decide_eq_true in Hk as ->. intros t'.
    apply Hun. by apply list_elem_of_In.
Qed.

Definition api_steps : list step := builder_steps SchemeBuilder.

Lemma api_steps_own : forallb own_step api_steps = true ∧ consistent api_steps = true.
Proof. split; vm_compute; reflexivity. Qed.

Lemma AddToScheme_Some s : leaves_room s → ∃ s', AddToScheme s = Some s'.
Proof.
  intros Hs. destruct api_steps_own as [Hown Hc]. unfold AddToScheme. rewrite Builder_AddToScheme_steps.
  apply steps_allowed; [|exact Hc]. rewrite forallb_forall in Hown. apply List.Forall_forall.
  intros st Hst. apply own_step_allowed; [done|by apply Hown].
Qed.

(** Each type of the group gets its one kind. *)
Lemma api_steps_kinds :
  forallb (λ name, bool_decide (foldl (gvks_step (v1alpha2 name)) None api_steps =
                                  Some [WithKind apiGroupVersion name]) &&
                   negb (existsb (marks (v1alpha2 name)) api_steps)) api_kinds = true.
Proof. vm_compute. reflexivity. Qed.

Lemma api_steps_known name :
  name ∈ api_kinds → Known (WithKind apiGroupVersion name) (v1alpha2 name) ∈ api_steps.
Proof.
  intros Hn. assert (Forall (λ n, Known (WithKind apiGroupVersion n) (v1alpha2 n) ∈ api_steps) api_kinds) as H.
  { apply (bool_decide_unpack _). vm_compute. exact I. }
  rewrite List.Forall_forall in H. by apply H, list_elem_of_In.
Qed.

(** The scheme of the commands knows the API: for each of its types, it gives the one kind
    and back, whatever the TypeMeta of an object says. *)
Lemma api_kinds_known s s' name current :
  leaves_room s → AddToScheme s = Some s' → name ∈ api_kinds →
  ObjectKinds s' (v1alpha2 name) = Ok ([WithKind apiGroupVersion name], false) ∧
  GVKForObject s' (v1alpha2 name) current = Ok (WithKind apiGroupVersion name) ∧
  Scheme_New s' (WithKind apiGroupVersion name) = Some (v1alpha2 name).
Proof.
  intros (_ & Hfresh & _) Hs' Hn. unfold AddToScheme in Hs'. rewrite Builder_AddToScheme_steps in Hs'.
  destruct (steps_effect _ _ _ Hs') as (_ & Hk & _ & Hg & Hu). destruct (Hfresh name) as [Hnone Hnoun].
  pose proof api_steps_kinds as Hall. rewrite forallb_forall in Hall.
  specialize (Hall name (proj1 (list_elem_of_In _ _) Hn)). apply andb_true_iff in Hall as [Hkinds Hmarks].
  apply bool_decide_eq_true in Hkinds. apply negb_true_iff in Hmarks.
  assert (ObjectKinds s' (v1alpha2 name) = Ok ([WithKind apiGroupVersion name], false)) as Ho.
  { unfold ObjectKinds. fold api_steps in *. by rewrite Hg, Hnone, Hkinds, Hu, Hnoun. }
  split_and!; [done|by unfold GVKForObject; rewrite Ho|].
  unfold Scheme_New. by rewrite (Hk _ _ (api_steps_known name Hn)).
Qed.

(** Types and kinds of other packages and groups are as client-go left them. *)
Definition foreign_type (t : GoType) : bool :=
  negb (type_PkgPath t =s type_PkgPath (v1alpha2 "")) && negb (type_PkgPath t =s type_PkgPath (metav1 "")).

Definition touches (t : GoType) (st : step) : bool :=
  match st with
  | Observe _ => false
  | Known _ t' | MarkUnversioned _ t' => bool_decide (t' = t)
  end.

Lemma untouched_kinds t l o : existsb (touches t) l = false → foldl (gvks_step t) o l = o.
Proof.
  revert o. induction l as [|st l IH]; intros o; cbn; [done|]. intros [Hst Hl]%orb_false_iff.
  rewrite IH by done. destruct st; cbn in *; [done|by rewrite Hst|done].
Qed.

Lemma foreign_untouched t : foreign_type t = true → existsb (touches t) api_steps = false.
Proof.
  intros [H1 H2]%andb_true_iff. apply negb_true_iff, eqs_false in H1, H2.
  assert (forallb (λ st, match st with
                         | Observe _ => true
                         | Known _ t' | MarkUnversioned _ t' => negb (foreign_type t')
                         end) api_steps = true) as Hall by (vm_compute; reflexivity).
  apply not_true_is_false. intros (st & Hin & Ht)%existsb_exists. rewrite forallb_forall in Hall.
  specialize (Hall st Hin). destruct st as [gv|gvk t'|gv t']; cbn in Ht; [done|..];
    apply bool_decide_eq_true in Ht as ->; unfold foreign_type in Hall;
    apply eqs_false in H1, H2; by rewrite H1, H2 in Hall.
Qed.

Lemma foreign_kept s s' t :
  AddToScheme s = Some s' → foreign_type t = true →
  ObjectKinds s' t = ObjectKinds s t ∧
  ∀ gvk, gvkToType s !! gvk = Some t → Scheme_New s' gvk = Some t.
Proof.
  intros Hs' Hf%foreign_untouched. unfold AddToScheme in Hs'. rewrite Builder_AddToScheme_steps in Hs'.
  destruct (steps_effect _ _ _ Hs') as (Hm & _ & _ & Hg & Hu). fold api_steps in *. split.
  - unfold ObjectKinds. rewrite Hg, untouched_kinds, Hu; [done| |done].
    apply not_true_is_false. intros (st & Hin & Ht)%existsb_exists.
    apply not_true_iff_false in Hf. apply Hf, existsb_exists. exists st. split; [done|]. by destruct st.
  - intros gvk Hl. unfold Scheme_New. by rewrite (Hm _ _ Hl).
Qed.

(** The controller reference of a new Secret. *)
Lemma controller_reference s secretName access :
  (∀ current, GVKForObject s (v1alpha2 "BucketAccess") current = Ok (WithKind apiGroupVersion "BucketAccess")) →
  ∃ secret, SetControllerReference s access (bareSecret secretName access) = Ok secret ∧
    setAccessSecretRequiredMetadata secret = newOwnedAccessSecret secretName access.
Proof.
  intros Hk. unfold SetControllerReference. rewrite Hk.
  assert (validateOwner (GetNamespace access) (GetNamespace (bareSecret secretName access)) = None) as ->.
  { unfold validateOwner. change (GetNamespace (bareSecret secretName access)) with (GetNamespace access).
    destruct (GetNamespace access =s "") eqn:E; [done|]. by rewrite eqs_refl. }
  eexists. split; reflexivity.
Qed.

(** C34: The scheme knows the API. Let client-go register the types of Kubernetes, leaving the
    API group, its types and the names of the unversioned meta types alone. Then the [init] of
    the commands does not panic, and in the scheme that they start with each of the ten types of
    the API has exactly its kind, by which objects are sent, received and logged; types of other
    packages, Secrets among them, keep the kinds that client-go gave them. So the Sidecar can set
    itself up as the owner of a new Secret: [SetControllerReference] succeeds, and the Secret that
    it creates is controlled by the BucketAccess, under the kind and version of the API. *)
Theorem scheme_knows_the_api clientgo s :
  clientgo NewScheme = Some s → leaves_room s →
  ∃ s', main_init clientgo = Some s' ∧
    (∀ name current, name ∈ api_kinds →
       GVKForObject s' (v1alpha2 name) current = Ok (WithKind apiGroupVersion name) ∧
       Scheme_New s' (WithKind apiGroupVersion name) = Some (v1alpha2 name)) ∧
    (∀ t, foreign_type t = true → ObjectKinds s' t = ObjectKinds s t ∧
       ∀ gvk, gvkToType s !! gvk = Some t → Scheme_New s' gvk = Some t) ∧
    (∀ b c a, inferKind (ObjBucket b) s' = "Bucket" ∧ inferKind (ObjBucketClaim c) s' = "BucketClaim" ∧
       inferKind (ObjBucketAccess a) s' = "BucketAccess") ∧
    (∀ secretName access, ∃ secret,
       SetControllerReference s' access (bareSecret secretName access) = Ok secret ∧
       setAccessSecretRequiredMetadata secret = newOwnedAccessSecret secretName access ∧
       IsControlledBy (setAccessSecretRequiredMetadata secret) access = true).
Proof.
  intros Hgo Hroom. destruct (AddToScheme_Some s Hroom) as [s' Hs']. exists s'.
  assert (∀ name current, bool_decide (name ∈ api_kinds) = true → _) as Hk
    by (intros name current Hn%bool_decide_eq_true; exact (api_kinds_known s s' name current Hroom Hs' Hn)).
  split_and!.
  - unfold main_init. by rewrite Hgo.
  - intros name current Hn. destruct (Hk name current) as (_ & ? & ?); [by apply bool_decide_eq_true|done].
  - intros t. by apply foreign_kept.
  - intros b c a. unfold inferKind. cbn [TypeOf].
    by rewrite !(λ name H, proj1 (Hk name (WithKind apiGroupVersion "") H)) by reflexivity.
  - intros secretName access. destruct (controller_reference s' secretName access) as (secret & Hset & Heq).
    + intros current. by apply Hk.
    + exists secret. split_and!; [done|done|]. rewrite Heq. apply eqs_refl.
Qed.

(** A stand-in for client-go: the core group with the Secret, registered the same way. *)
Definition core_v1 : GroupVersion := {| gv_Group := ""; gv_Version := "v1" |}.
Definition core_Secret : GoType := {| type_PkgPath := "k8s.io/api/core/v1"; type_Name := "Secret" |}.
Definition demo_builder : Builder :=
  Register [core_Secret] {| bld_GroupVersion := core_v1; bld_Registered := [] |}.
Definition demo_clientgo : Scheme → option Scheme := Builder_AddToScheme demo_builder.
Definition demo_scheme : Scheme := default NewScheme (demo_clientgo NewScheme).

Lemma demo_clientgo_Some : demo_clientgo NewScheme = Some demo_scheme.
Proof.
  assert (match demo_clientgo NewScheme with Some _ => true | None => false end = true) as H
    by (vm_compute; reflexivity).
  unfold demo_scheme. destruct (demo_clientgo NewScheme); [reflexivity|discriminate H].
Qed.

Lemma demo_leaves_room : leaves_room demo_scheme.
Proof.
  pose proof demo_clientgo_Some as Hs. unfold demo_clientgo in Hs. rewrite Builder_AddToScheme_steps in Hs.
  destruct (steps_effect _ _ _ Hs) as (_ & _ & Hn & Hg & Hu).
  assert (forallb (λ st, match st with
            | Observe _ => true
            | Known gvk t => (gvk_Group gvk =s "") && negb (type_PkgPath t =s type_PkgPath (v1alpha2 ""))
            | MarkUnversioned _ t => negb (type_PkgPath t =s type_PkgPath (v1alpha2 ""))
            end) (builder_steps demo_builder) = true) as Hall by (vm_compute; reflexivity).
  rewrite forallb_forall in Hall. split_and!.
  - intros version kind. rewrite Hn; [done|]. apply not_true_is_false.
    intros (st & Hin & Ht)%existsb_exists. specialize (Hall st Hin).
    destruct st; cbn in Ht; [done| |done]. apply bool_decide_eq_true in Ht as ->. done.
  - intros name. assert (existsb (touches (v1alpha2 name)) (builder_steps demo_builder) = false) as Ht.
    { apply not_true_is_false. intros (st & Hin & Ht)%existsb_exists. specialize (Hall st Hin).
      destruct st; cbn in Ht; [done|..]; apply bool_decide_eq_true in Ht as ->; [|done].
      by rewrite andb_false_r in Hall. }
    rewrite Hg, untouched_kinds by done. split; [done|]. rewrite Hu; [done|].
    apply not_true_is_false. intros (st & Hin & Hm)%existsb_exists. apply not_true_iff_false in Ht.
    apply Ht, existsb_exists. exists st. split; [done|]. by destruct st.
  - intros kind t Hkind. unfold unversioned_kinds in Hkind.
    repeat (apply elem_of_cons in Hkind as [->|Hkind]; [split; vm_compute; intros [= <-]; reflexivity|]).
    apply elem_of_nil in Hkind as [].
Qed.

Lemma scheme_knows_the_api_witness :
  ∃ s', main_init demo_clientgo = Some s' ∧ ObjectKinds s' core_Secret = Ok ([WithKind core_v1 "Secret"], false).
Proof.
  destruct (scheme_knows_the_api demo_clientgo demo_scheme demo_clientgo_Some demo_leaves_room)
    as (s' & Hs' & _ & Hforeign & _).
  exists s'. split; [exact Hs'|]. rewrite (proj1 (Hforeign core_Secret eq_refl)). vm_compute. reflexivity.
Defined.
