(* ===== verification/Handoff.v ===== *)
(** * The hand-over of a BucketAccess between Controller and Sidecar

    Theorems across components: the Controller's and the Sidecar's BucketAccess
    reconcilers, their event filters and the ownership test they share. *)

From stdpp Require Import base gmap strings list.
From S2P Require Import Prelude GoErrors ApiTypes ProtoTypes Effects ApiServer.
From S2P Require Import Ownership Predicates Driver.
From S2P Require ClaimController AccessController SidecarAccess.

(** ** Facts *)

(** What a reconciler does is decided by the access it reads first. *)
Lemma first_read key a tr x tr' :
  Ev (GetAccess key) (Ok a) :: tr = Ev (GetAccess key) x :: tr' → x = Ok a ∧ tr' = tr.
Proof.
  intros Heq. split; [|exact (eq_sym (f_equal (@tail event) Heq))].
  apply (f_equal (λ l, match l with
    | Ev (GetAccess _) y :: _ => Some y | _ => None end)) in Heq. cbn in Heq. congruence.
Qed.

Lemma controller_on_managed key a tr res :
  ManagedBySidecar a = true →
  exec (AccessController.Reconcile key) (Ev (GetAccess key) (Ok a) :: tr) res →
  tr = [] ∧ res = None.
Proof.
  intros Hm (x & tr' & [-> ->]%first_read & Hx).
  cbn in Hx. rewrite Hm in Hx. cbn in Hx. tauto.
Qed.

Lemma sidecar_on_unmanaged d key a tr res :
  ManagedBySidecar a = false →
  exec (SidecarAccess.Reconcile d key) (Ev (GetAccess key) (Ok a) :: tr) res →
  tr = [] ∧ res = None.
Proof.
  intros Hm (x & tr' & [-> ->]%first_read & Hx).
  cbn in Hx. rewrite Hm in Hx. cbn in Hx. tauto.
Qed.

Lemma filters_on_handoff (old new : BucketAccess) :
  ManagedBySidecar old ≠ ManagedBySidecar new →
  UpdateFunc controller_access_filter (ObjBucketAccess old) (ObjBucketAccess new) =
    negb (ManagedBySidecar new) ∧
  UpdateFunc (sidecar_access_filter (accessStatus_DriverName (access_Status new)))
    (ObjBucketAccess old) (ObjBucketAccess new) = true.
Proof.
  intros Hh%handoffOccurred_spec.
  rewrite controller_access_update, sidecar_access_update, Hh, eqs_refl. cbn.
  by rewrite andb_true_r.
Qed.

(** A recorded error shows in the status, and only a live access gets its finalizer. *)
Lemma record_has_error key h a :
  AccessController.record_allowed key h a → accessStatus_Error (access_Status a) ≠ None.
Proof. by intros (a1 & now & err & _ & ->). Qed.

Lemma protect_is_live d key h a :
  SidecarAccess.protect_allowed d key h a → IsDeleting a = false.
Proof.
  intros (a0 & (_ & _ & _ & Hlive & _) & Hf & ->).
  unfold AddFinalizer, ContainsFinalizer in *. by rewrite Hf.
Qed.

(** ** Properties *)

(** One manager at a time. When both reconcilers read the same BucketAccess, at least
    one of them makes no further call and reports success, whatever its environment
    answers: no access is acted on by the Controller and by a Sidecar from the same state. *)
Theorem access_has_one_manager d key a tr1 res1 tr2 res2 :
  exec (AccessController.Reconcile key) (Ev (GetAccess key) (Ok a) :: tr1) res1 →
  exec (SidecarAccess.Reconcile d key) (Ev (GetAccess key) (Ok a) :: tr2) res2 →
  (tr1 = [] ∧ res1 = None) ∨ (tr2 = [] ∧ res2 = None).
Proof.
  intros H1 H2. destruct (ManagedBySidecar a) eqn:Hm.
  - left. by eapply controller_on_managed.
  - right. by eapply sidecar_on_unmanaged.
Qed.

Definition demo_handoff_world : World :=
  demo_world [] [demo_ready_bucket] [demo_initialized_access] [].

Lemma access_has_one_manager_witness :
  let controller := AccessController.Reconcile demo_access_key in
  let sidecar := SidecarAccess.Reconcile demo_driver_info demo_access_key in
  (tail (run_trace controller demo_handoff_world) = [] ∧
   run_result controller demo_handoff_world = None) ∨
  (tail (run_trace sidecar demo_handoff_world) = [] ∧
   run_result sidecar demo_handoff_world = None).
Proof.
  intros controller sidecar.
  assert (∀ p : prog (option error),
    hd (Ev TimeNow 0%Z) (run_trace p demo_handoff_world) =
      Ev (GetAccess demo_access_key) (Ok demo_initialized_access) →
    run_trace p demo_handoff_world ≠ [] →
    exec p (Ev (GetAccess demo_access_key) (Ok demo_initialized_access) ::
            tail (run_trace p demo_handoff_world)) (run_result p demo_handoff_world)) as Hread.
  { intros p Hh Hne. pose proof (run_exec p demo_handoff_world) as Hx.
    destruct (run_trace p demo_handoff_world) as [|e tr]; [done|]. cbn in *. by subst e. }
  eapply (access_has_one_manager demo_driver_info demo_access_key demo_initialized_access);
    apply Hread; vm_compute; done.
Defined.

(** The hand-over. When the Controller initialises a live access, from a class with a
    driver and an authentication type, for at least one claim and without the override
    annotation, the status it writes makes the access the Sidecar's with all the Sidecar
    requires present, and the update event from the access as it was read is accepted by
    the filter of the named driver's Sidecar and by no longer the Controller's. *)
Theorem initialization_hands_over key h a0 a :
  AccessController.to_initialize key h a0 →
  AccessController.init_allowed key h a →
  accessStatus_DriverName (access_Status a) ≠ "" →
  accessStatus_AuthenticationType (access_Status a) ≠ "" →
  accessSpec_BucketClaims (access_Spec a) ≠ [] →
  has_annotation ControllerManagementOverrideAnnotation a = false →
  IsDeleting a = false →
  ManagedBySidecar a = true ∧ SidecarRequirementsPresent (access_Status a) = Ok true ∧
  UpdateFunc (sidecar_access_filter (accessStatus_DriverName (access_Status a)))
    (ObjBucketAccess a0) (ObjBucketAccess a) = true ∧
  UpdateFunc controller_access_filter (ObjBucketAccess a0) (ObjBucketAccess a) = false.
Proof.
  intros (_ & Hm0 & _) Hinit Hd Hauth Hclaims Ho Hdel.
  assert (ManagedBySidecar a = true) as Hm.
  { apply ManagedBySidecar_true. split_and!; [done..|]. intros ?. congruence. }
  destruct (filters_on_handoff a0 a) as [Hc Hs]; [congruence|].
  split_and!; [done| |done|by rewrite Hc, Hm].
  destruct (SidecarRequirementsPresent_cases (access_Status a)) as [[_ ->]|[[Hu _]|(Hns & _)]];
    [done|by destruct Hu as (_ & Hx & _)|].
  destruct Hns. split_and!; [|done..].
  destruct Hinit as (? & a1 & class & abs & _ & _ & _ & _ & _ & _ & HF & ->).
  cbn in *. intros ->. apply Hclaims. by inversion HF.
Qed.

(** The initialisation of the example access: the calls before it and what is written. *)
Definition demo_init_world : World :=
  demo_world [demo_bound_claim] [demo_ready_bucket] [demo_access] [].
Definition demo_init_trace : list event :=
  run_trace (AccessController.Reconcile demo_access_key) demo_init_world.
Definition demo_init_access : BucketAccess := access_of (nth_call demo_init_trace 10).

Lemma demo_init_allowed :
  AccessController.init_allowed demo_access_key (take 10 demo_init_trace) demo_init_access.
Proof.
  assert (nth_call demo_init_trace 10 = Some (StatusUpdateAccess demo_init_access)) as Hn
    by (vm_compute; reflexivity).
  assert (accessStatus_Error (access_Status demo_init_access) = None) as He
    by (vm_compute; reflexivity).
  destruct (wp_nth_call _ _ _ _ _ _ _ (AccessController.wp_caccess_Reconcile demo_access_key)
              (run_exec _ demo_init_world) Hn) as [Hinit|Hrec]; [exact Hinit|].
  exfalso. exact (record_has_error _ _ _ Hrec He).
Qed.

Lemma initialization_hands_over_witness : ManagedBySidecar demo_init_access = true.
Proof.
  eapply (initialization_hands_over demo_access_key (take 10 demo_init_trace) demo_access).
  - split_and!; [|by vm_compute..]. vm_compute. left.
  - apply demo_init_allowed.
  - vm_compute; discriminate.
  - vm_compute; discriminate.
  - vm_compute; discriminate.
  - vm_compute; reflexivity.
  - vm_compute; reflexivity.
Defined.

(** The hand-back. When the Sidecar hands an access under deletion back, the access it
    writes is the Controller's, and the update event is accepted by the Controller's
    filter whenever the access was the Sidecar's before. *)
Theorem cleanup_hands_back d key h old a :
  SidecarAccess.hand_back_allowed d key h a →
  IsDeleting a = true →
  ManagedBySidecar old = true →
  ManagedBySidecar a = false ∧
  UpdateFunc controller_access_filter (ObjBucketAccess old) (ObjBucketAccess a) = true.
Proof.
  intros (a1 & _ & _ & _ & ->) Hdel Hold.
  set (a := set_annotation _ _ _) in *.
  assert (ManagedBySidecar a = false) as Hm.
  { apply not_true_is_false. intros (_ & _ & Hc)%ManagedBySidecar_true.
    specialize (Hc Hdel). unfold a in Hc. by rewrite set_annotation_present in Hc. }
  destruct (filters_on_handoff old a) as [Hc _]; [congruence|].
  split; [done|]. by rewrite Hc, Hm.
Qed.

(** The hand-back of the example access. *)
Definition demo_hand_back_access : BucketAccess :=
  access_of (nth_call SidecarAccess.revoke_trace 6).

Lemma demo_hand_back_allowed :
  SidecarAccess.hand_back_allowed demo_driver_info demo_access_key
    (take 6 SidecarAccess.revoke_trace) demo_hand_back_access.
Proof.
  assert (nth_call SidecarAccess.revoke_trace 6 = Some (UpdateAccess demo_hand_back_access)) as Hn
    by (vm_compute; reflexivity).
  assert (IsDeleting demo_hand_back_access = true) as Hd by (vm_compute; reflexivity).
  destruct (wp_nth_call _ _ _ _ _ _ _ (SidecarAccess.wp_saccess_Reconcile demo_driver_info demo_access_key)
              (run_exec _ SidecarAccess.demo_revoke_world) Hn)
    as [Hp|Hb]; [|exact Hb].
  exfalso. pose proof (protect_is_live _ _ _ _ Hp) as Hlive. rewrite Hd in Hlive. discriminate.
Qed.

Lemma cleanup_hands_back_witness :
  ManagedBySidecar demo_hand_back_access = false ∧
  UpdateFunc controller_access_filter (ObjBucketAccess (deleting demo_granted_access))
    (ObjBucketAccess demo_hand_back_access) = true.
Proof.
  eapply (cleanup_hands_back demo_driver_info demo_access_key);
    [apply demo_hand_back_allowed|vm_compute; reflexivity..].
Defined.

(** C25: The access changes hands cleanly. Every update of a BucketAccess that changes its
    manager passes the filter of the new one: the Controller's, or that of the Sidecar of the
    recorded driver. When both reconcilers read the same BucketAccess, at
    least one of them makes no further call and reports success. When the Controller
    initialises a live access (for at least one claim, from a class with a driver and an
    authentication type, without the override annotation), what it writes is the Sidecar's,
    with all that the Sidecar requires, and the update event passes the filter of that
    driver's Sidecar and no longer the Controller's. When the Sidecar hands an access under
    deletion back, what it writes is the Controller's, and the event passes its filter. *)
Theorem handoffs_are_clean d key a :
  (∀ a', ManagedBySidecar a ≠ ManagedBySidecar a' →
     (ManagedBySidecar a' = false →
        UpdateFunc controller_access_filter (ObjBucketAccess a) (ObjBucketAccess a') = true) ∧
     (ManagedBySidecar a' = true →
        UpdateFunc (sidecar_access_filter (accessStatus_DriverName (access_Status a')))
          (ObjBucketAccess a) (ObjBucketAccess a') = true)) ∧
  (∀ tr1 res1 tr2 res2,
     exec (AccessController.Reconcile key) (Ev (GetAccess key) (Ok a) :: tr1) res1 →
     exec (SidecarAccess.Reconcile d key) (Ev (GetAccess key) (Ok a) :: tr2) res2 →
     (tr1 = [] ∧ res1 = None) ∨ (tr2 = [] ∧ res2 = None)) ∧
  (∀ h a', AccessController.to_initialize key h a → AccessController.init_allowed key h a' →
     accessStatus_DriverName (access_Status a') ≠ "" →
     accessStatus_AuthenticationType (access_Status a') ≠ "" →
     accessSpec_BucketClaims (access_Spec a') ≠ [] →
     has_annotation ControllerManagementOverrideAnnotation a' = false → IsDeleting a' = false →
     ManagedBySidecar a' = true ∧ SidecarRequirementsPresent (access_Status a') = Ok true ∧
     UpdateFunc (sidecar_access_filter (accessStatus_DriverName (access_Status a')))
       (ObjBucketAccess a) (ObjBucketAccess a') = true ∧
     UpdateFunc controller_access_filter (ObjBucketAccess a) (ObjBucketAccess a') = false) ∧
  (∀ h a', SidecarAccess.hand_back_allowed d key h a' → IsDeleting a' = true →
     ManagedBySidecar a = true →
     ManagedBySidecar a' = false ∧
     UpdateFunc controller_access_filter (ObjBucketAccess a) (ObjBucketAccess a') = true).
Proof.
  split_and!.
  - intros a'. apply handoff_reaches_new_manager.
  - intros tr1 res1 tr2 res2. apply access_has_one_manager.
  - intros h a'. apply initialization_hands_over.
  - intros h a'. apply cleanup_hands_back.
Qed.

Lemma handoffs_are_clean_witness :
  ManagedBySidecar demo_init_access = true ∧
  UpdateFunc controller_access_filter (ObjBucketAccess (deleting demo_granted_access))
    (ObjBucketAccess demo_hand_back_access) = true.
Proof.
  split.
  - eapply (proj1 (proj2 (proj2 (handoffs_are_clean demo_driver_info demo_access_key demo_access))) (take 10 demo_init_trace)).
    + split_and!; [|by vm_compute..]. vm_compute. left.
    + apply demo_init_allowed.
    + vm_compute; discriminate.
    + vm_compute; discriminate.
    + vm_compute; discriminate.
    + vm_compute; reflexivity.
    + vm_compute; reflexivity.
  - eapply (proj2 (proj2 (proj2 (handoffs_are_clean demo_driver_info demo_access_key (deleting demo_granted_access)))));
      [apply demo_hand_back_allowed|vm_compute; reflexivity..].
Defined.

(** ** The finalizer comes first *)

Section finalizer_first.
Context {O : Type} `{ClientObject O}.
(** The read of the object and its answer, the update and its success, and the record of an error. *)
Context (get : req) (got : O → event) (update : O → req) (stored : O → event → Prop) (record : req → Prop).

(** The object that was read is under deletion, or has the finalizer: it was read with it, or the
    server stored it. *)
Definition shielded (h : list event) : Prop :=
  ∃ o, head h = Some (got o) ∧
    (IsDeleting o = true ∨ ContainsFinalizer o ProtectionFinalizer = true ∨
     ∃ ev, ev ∈ h ∧ stored (AddFinalizer o ProtectionFinalizer).1 ev).

(** A call is made on a shielded object, or it is the read, the update that adds the finalizer right
    behind the read, or part of the record of an error. *)
Definition finalizer_first (h : list event) (r : req) : Prop :=
  shielded h ∨ (h = [] ∧ r = get) ∨
  (∃ o, h = [got o] ∧ r = update (AddFinalizer o ProtectionFinalizer).1) ∨
  r = TimeNow ∨ record r.

Lemma shielded_app h h' : shielded h → shielded (h ++ h').
Proof.
  intros (o & Hh & Ho). exists o. split; [by destruct h|].
  destruct Ho as [?|[?|(ev & Hin & Hs)]]; [by left|by right; left|]. right; right.
  exists ev. split; [apply elem_of_app; by left|done].
Qed.
Lemma wp_shielded {A} (p : prog A) h : shielded h → wp finalizer_first p h (λ h' _, shielded h').
Proof.
  revert h. induction p as [a|r k IH]; intros h Hh; [done|]. split; [by left|]. intros x.
  by apply IH, shielded_app.
Qed.
End finalizer_first.

Definition claim_finalizer_first (key : NamespacedName) : list event → req → Prop :=
  finalizer_first (O := BucketClaim) (GetClaim key) (λ c, Ev (GetClaim key) (Ok c)) UpdateClaim
    (λ c ev, ∃ c', ev = Ev (UpdateClaim c) (Ok c'))
    (λ r, ∃ now err c, r = StatusUpdateClaim (ClaimController.claim_with_recorded_error now err c)).
Definition access_finalizer_first (key : NamespacedName) : list event → req → Prop :=
  finalizer_first (O := BucketAccess) (GetAccess key) (λ a, Ev (GetAccess key) (Ok a)) UpdateAccess
    (λ a ev, ∃ a', ev = Ev (UpdateAccess a) (Ok a'))
    (λ r, ∃ now err a, r = StatusUpdateAccess (AccessController.access_with_recorded_error now err a)).

Lemma wp_claim_finalizer_first key :
  wp (claim_finalizer_first key) (ClaimController.Reconcile key) [] (λ _ _, True).
Proof.
  unfold ClaimController.Reconcile. wp_simpl. split; [right; by left|]. intros [c|e]; wp_simpl; [|by wp_run].
  match goal with |- wp _ _ ?h _ => set (h0 := h) end.
  apply wp_bind, (wp_mono (claim_finalizer_first key) _ _ _
    (λ h' r, shielded (λ c, Ev (GetClaim key) (Ok c)) (λ c ev, ∃ c', ev = Ev (UpdateClaim c) (Ok c')) h' ∨
      is_Some r.2)); [done| |].
  { intros h' [c' rerr] [Hs|[err Herr]]; cbn [snd] in *.
    - eapply (wp_mono (claim_finalizer_first key)); [done|done|]. apply wp_shielded, Hs.
    - subst rerr. wp_run; try done; first [by right; right; right; left|do 4 right; by eexists _, _, _]. }
  unfold ClaimController.reconcile. destruct (ClaimController.determineBucketName c) as [n|err]; [|by right].
  destruct (IsDeleting c) eqn:Hd.
  { eapply wp_mono; [done|intros h' r Hs; left; exact Hs|]. apply wp_shielded. exists c. by split; [|left]. }
  destruct (ContainsFinalizer c ProtectionFinalizer) eqn:Hf.
  { eapply wp_mono; [done|intros h' r Hs; left; exact Hs|]. apply wp_shielded. exists c.
    by split; [|right; left]. }
  unfold ClaimController.ensureClaimFinalizer.
  destruct (AddFinalizer c ProtectionFinalizer) as [c1 added] eqn:Ea.
  assert (added = true ∧ c1 = (AddFinalizer c ProtectionFinalizer).1) as [-> ->].
  { rewrite Ea. unfold AddFinalizer, ContainsFinalizer in *. rewrite Hf in Ea. by injection Ea as <- <-. }
  wp_simpl. split; [right; right; left; by exists c|]. intros [c'|e]; wp_simpl; [|by right].
  eapply wp_mono; [done|intros h' r Hs; left; exact Hs|]. apply wp_shielded. exists c. split; [done|].
  right; right. eexists. split; [hist|by eexists].
Qed.

Lemma wp_access_finalizer_first key :
  wp (access_finalizer_first key) (AccessController.Reconcile key) [] (λ _ _, True).
Proof.
  unfold AccessController.Reconcile. wp_simpl. split; [right; by left|]. intros [a|e]; wp_simpl; [|by wp_run].
  destruct (ManagedBySidecar a); [done|].
  match goal with |- wp _ _ ?h _ => set (h0 := h) end.
  apply wp_bind, (wp_mono (access_finalizer_first key) _ _ _
    (λ h' r, shielded (λ a, Ev (GetAccess key) (Ok a)) (λ a ev, ∃ a', ev = Ev (UpdateAccess a) (Ok a')) h' ∨
      is_Some r.2)); [done| |].
  { intros h' [a' rerr] [Hs|[err Herr]]; cbn [snd] in *.
    - eapply (wp_mono (access_finalizer_first key)); [done|done|]. apply wp_shielded, Hs.
    - subst rerr. wp_run; try done; first [by right; right; right; left|do 4 right; by eexists _, _, _]. }
  unfold AccessController.reconcile. destruct (IsDeleting a) eqn:Hd.
  { eapply wp_mono; [done|intros h' r Hs; left; exact Hs|]. apply wp_shielded. exists a. by split; [|left]. }
  destruct (SidecarRequirementsPresent (access_Status a)) as [[]|err]; [by right| |by right].
  destruct (ContainsFinalizer a ProtectionFinalizer) eqn:Hf.
  { eapply wp_mono; [done|intros h' r Hs; left; exact Hs|]. apply wp_shielded. exists a.
    by split; [|right; left]. }
  unfold AccessController.ensureAccessFinalizer.
  destruct (AddFinalizer a ProtectionFinalizer) as [a1 added] eqn:Ea.
  assert (added = true ∧ a1 = (AddFinalizer a ProtectionFinalizer).1) as [-> ->].
  { rewrite Ea. unfold AddFinalizer, ContainsFinalizer in *. rewrite Hf in Ea. by injection Ea as <- <-. }
  wp_simpl. split; [right; right; left; by exists a|]. intros [a'|e]; wp_simpl; [|by right].
  eapply wp_mono; [done|intros h' r Hs; left; exact Hs|]. apply wp_shielded. exists a. split; [done|].
  right; right. eexists. split; [hist|by eexists].
Qed.

(** C20: The protection finalizers come first and go last. The Controller updates a claim only to
    add the finalizer while the claim is live, or to remove it under deletion for a reason: its
    Bucket does not exist, is not its own, was never bound, or is to be retained and has been
    marked. It updates an access only to add the finalizer while the access is live, or to remove
    it under deletion, after every referenced claim turned out not to exist, to be unmarked or to
    be referenced by another access, or was unmarked. For a live claim or access every call but
    the first read and those that record an error is made only when the object was read with the
    finalizer or the server has stored it: the update that adds it comes right behind the read. *)
Theorem finalizers_released_last key tr res n :
  (∀ c, exec (ClaimController.Reconcile key) tr res → nth_call tr n = Some (UpdateClaim c) →
     ClaimController.protect_allowed key (take n tr) c ∨ ClaimController.release_allowed key (take n tr) c) ∧
  (∀ a, exec (AccessController.Reconcile key) tr res → nth_call tr n = Some (UpdateAccess a) →
     AccessController.protect_allowed key (take n tr) a ∨ AccessController.release_allowed key (take n tr) a) ∧
  (∀ r, exec (ClaimController.Reconcile key) tr res → nth_call tr n = Some r →
     claim_finalizer_first key (take n tr) r) ∧
  (∀ r, exec (AccessController.Reconcile key) tr res → nth_call tr n = Some r →
     access_finalizer_first key (take n tr) r).
Proof.
  split_and!; [intros c; apply ClaimController.claim_finalizer_discipline
              |intros a; apply AccessController.access_finalizer_discipline| |]; intros r Hx Hn.
  - exact (wp_nth_call _ _ _ _ _ _ _ (wp_claim_finalizer_first key) Hx Hn).
  - exact (wp_nth_call _ _ _ _ _ _ _ (wp_access_finalizer_first key) Hx Hn).
Qed.

Lemma finalizers_released_last_witness :
  let tr := run_trace (AccessController.Reconcile demo_access_key) AccessController.demo_cleanup_world in
  let a := access_of (nth_call tr 5) in
  AccessController.protect_allowed demo_access_key (take 5 tr) a ∨
  AccessController.release_allowed demo_access_key (take 5 tr) a.
Proof.
  cbn zeta. eapply (proj1 (proj2 (finalizers_released_last _ _ _ _))); [apply run_exec|]. vm_compute. reflexivity.
Defined.
