(* ===== verification/Scenarios.v ===== *)
(** * Scenarios

    The four reconcilers run against the in-memory API server and the example driver: the
    path of a claim from its creation to a Secret with credentials, and back. Every state
    here is computed by the models; nothing is assumed about the server or the driver. *)

From stdpp Require Import base gmap strings list.
From S2P Require Import Prelude GoErrors ApiTypes ProtoTypes Effects ApiServer Ownership.
From S2P Require Import Protocol Translator Driver.
From S2P Require Import ClaimController AccessController SidecarBucket SidecarAccess.

(** One pass of each reconciler over its object. *)
Definition controller_claim (k : NamespacedName) : World → World :=
  run_world (ClaimController.Reconcile k).
Definition sidecar_bucket (name : string) : World → World :=
  run_world (SidecarBucket.Reconcile demo_driver_info (global name)).
Definition controller_access (k : NamespacedName) : World → World :=
  run_world (AccessController.Reconcile k).
Definition sidecar_access (k : NamespacedName) : World → World :=
  run_world (SidecarAccess.Reconcile demo_driver_info k).

(** A new installation: one claim, one access to it, nothing provisioned. *)
Definition w0 : World := demo_world [demo_claim] [] [demo_access] [].

Definition provision_steps (w : World) : World :=
  controller_claim demo_claim_key (sidecar_bucket "bc-u1" (controller_claim demo_claim_key w)).
Definition grant_steps (w : World) : World :=
  sidecar_access demo_access_key (controller_access demo_access_key w).

(** The user deletes an object: it is marked, and goes when it has no finalizers. *)
Definition user_deletes_access (k : NamespacedName) (w : World) : World :=
  match w_accesses w !! (nn_Namespace k, nn_Name k) with
  | Some a => with_accesses (store_delete (w_version w) (w_now w) (w_accesses w) a).1 w
  | None => w
  end.

Definition revoke_steps (w : World) : World :=
  controller_access demo_access_key
    (sidecar_access demo_access_key (user_deletes_access demo_access_key w)).

Definition access_summary (w : World) : list (option bool * string) :=
  (λ a, (accessStatus_ReadyToUse (access_Status a), accessStatus_AccountID (access_Status a)))
    <$> (map_to_list (w_accesses w)).*2.
Definition claim_summary (w : World) : list (string * option bool * bool) :=
  (λ c, (claimStatus_BoundBucketName (claim_Status c), claimStatus_ReadyToUse (claim_Status c),
         has_annotation HasBucketAccessReferencesAnnotation c))
    <$> (map_to_list (w_claims w)).*2.
Definition secret_summary (w : World) : list (string * bool) :=
  (λ s, (GetName s, negb (size (secret_Data s) =? 0))) <$> (map_to_list (w_secrets w)).*2.

(** Provisioning binds the claim and makes it ready; granting makes the access ready with a
    filled Secret and marks the claim; revoking removes the access and its Secret and
    unmarks the claim. *)
Example claim_to_secret_and_back :
  let w1 := provision_steps w0 in
  let w2 := grant_steps w1 in
  let w3 := revoke_steps w2 in
  claim_summary w1 = [("bc-u1", Some true, false)] ∧
  access_summary w2 = [(Some true, "account-ba-u9")] ∧
  secret_summary w2 = [("data-secret", true)] ∧
  claim_summary w2 = [("bc-u1", Some true, true)] ∧
  access_summary w3 = [] ∧ secret_summary w3 = [] ∧
  claim_summary w3 = [("bc-u1", Some true, false)].
Proof. by vm_compute. Qed.

(** A second reconcile of every object changes nothing that the summaries show. *)
Example reconciling_again_is_idle :
  let w2 := grant_steps (provision_steps w0) in
  let w2' := grant_steps (provision_steps w2) in
  claim_summary w2' = claim_summary w2 ∧ access_summary w2' = access_summary w2 ∧
  secret_summary w2' = secret_summary w2.
Proof. by vm_compute. Qed.

(** ** Two claims on one backend bucket

    Two administrator's Buckets for the same backend bucket are bound to two claims, and an
    access refers to both claims with a Secret each. *)

Definition shared_bucket (name claim uid : string) : Bucket := {|
  bucket_ObjectMeta := demo_meta "" name ("uid-" +:+ name);
  bucket_Spec := {| bucketSpec_DriverName := demo_driver_name;
    bucketSpec_DeletionPolicy := BucketDeletionPolicyRetain;
    bucketSpec_Parameters := ∅; bucketSpec_Protocols := [];
    bucketSpec_BucketClaimRef := {| claimRef_Name := claim; claimRef_Namespace := "app";
                                    claimRef_UID := uid |};
    bucketSpec_ExistingBucketID := "backend-archive" |};
  bucket_Status := empty_BucketStatus |}.

Definition shared_claim (name uid bucket : string) : BucketClaim := {|
  claim_ObjectMeta := demo_meta "app" name uid;
  claim_Spec := {| claimSpec_BucketClassName := ""; claimSpec_Protocols := ["S3"];
                   claimSpec_ExistingBucketName := bucket |};
  claim_Status := empty_claim_status |}.

Definition shared_access : BucketAccess := {|
  access_ObjectMeta := demo_meta "app" "acc" "u9";
  access_Spec := {|
    accessSpec_BucketClaims :=
      (λ n, {| claimAccess_BucketClaimName := n;
               claimAccess_AccessMode := BucketAccessModeReadWrite;
               claimAccess_AccessSecretName := n +:+ "-secret" |}) <$> ["left"; "right"];
    accessSpec_BucketAccessClassName := "reader"; accessSpec_Protocol := "S3";
    accessSpec_ServiceAccountName := "" |};
  access_Status := empty_access_status |}.

Definition shared_world : World :=
  demo_world [shared_claim "left" "ul" "archive-l"; shared_claim "right" "ur" "archive-r"]
    [shared_bucket "archive-l" "left" ""; shared_bucket "archive-r" "right" ""]
    [shared_access] [].

Definition provision_static (claim bucket : string) (w : World) : World :=
  let k := {| nn_Namespace := "app"; nn_Name := claim |} in
  controller_claim k (sidecar_bucket bucket (controller_claim k w)).

(** The configuration of a grant is keyed by the backend's bucket ID, so one of the two
    references is lost: the access becomes ready while the Secret of the first claim, which
    was reserved, stays empty. *)
Example shared_backend_bucket_leaves_secret_empty :
  let w := grant_steps (provision_static "right" "archive-r"
                          (provision_static "left" "archive-l" shared_world)) in
  access_summary w = [(Some true, "account-ba-u9")] ∧
  (∀ e, e ∈ secret_summary w ↔ e = ("left-secret", false) ∨ e = ("right-secret", true)).
Proof.
  cbn zeta. set (w := grant_steps _).
  assert (access_summary w = [(Some true, "account-ba-u9")]) as H1 by by vm_compute.
  assert (secret_summary w = [("left-secret", false); ("right-secret", true)] ∨
          secret_summary w = [("right-secret", true); ("left-secret", false)]) as H2
    by (vm_compute; auto).
  split; [exact H1|]. intros e.
  destruct H2 as [-> | ->]; rewrite !elem_of_cons, elem_of_nil; tauto.
Qed.
