(* ===== verification/Cluster.v ===== *)
(** * The reconcilers and their users on one API server

    The reconcilers are run by several processes, each a sequence of calls; users and
    administrators act at the same time. A state of the [Cluster] has the server, the
    versions that it ever stored or returned, and the processes under way, with the calls
    each has made. A [step] starts a reconcile, lets a process make one call, ends a
    process (its reconcile is over, or it crashed) or is an action of a user. Any number
    of processes may work on one object, as two Controllers do while leadership changes.

    An answer may be the server's, an old version from a cache, or an error; a failed
    write may have had its effect all the same ([answers]). The contracts of the
    reconcilers ([ClaimController.claim_contract] and the others), which hold for every
    answer, and the version check of the server give the invariants that hold in every
    reachable state. *)

From stdpp Require Import base gmap strings list.
From S2P Require Import Prelude GoErrors ApiTypes ProtoTypes Effects ApiServer History Ownership.
From S2P Require Import Driver Admission.
From S2P Require ClaimController AccessController SidecarBucket SidecarAccess.

(** ** Logs *)

Record Logs : Type := {
  log_claims : list BucketClaim;
  log_buckets : list Bucket;
  log_accesses : list BucketAccess;
  log_secrets : list Secret
}.

Definition no_logs : Logs :=
  {| log_claims := []; log_buckets := []; log_accesses := []; log_secrets := [] |}.

(** The versions that a call returned. *)
Definition answered_claims (r : req) : resp r → list BucketClaim :=
  match r with UpdateClaim _ | StatusUpdateClaim _ => answered | _ => λ _, [] end.
Definition answered_buckets (r : req) : resp r → list Bucket :=
  match r with
  | UpdateBucket _ | StatusUpdateBucket _ | CreateBucket _ => answered
  | _ => λ _, []
  end.
Definition answered_accesses (r : req) : resp r → list BucketAccess :=
  match r with UpdateAccess _ | StatusUpdateAccess _ => answered | _ => λ _, [] end.
Definition answered_secrets (r : req) : resp r → list Secret :=
  match r with UpdateSecret _ | CreateSecret _ => answered | _ => λ _, [] end.

(** The log after the server moved to [w], and after it answered [x] to [r]. *)
Definition record_world (w : World) (L : Logs) : Logs := {|
  log_claims := versions (w_claims w) ++ log_claims L;
  log_buckets := versions (w_buckets w) ++ log_buckets L;
  log_accesses := versions (w_accesses w) ++ log_accesses L;
  log_secrets := versions (w_secrets w) ++ log_secrets L |}.
Definition record_answer (r : req) (x : resp r) (L : Logs) : Logs := {|
  log_claims := answered_claims r x ++ log_claims L;
  log_buckets := answered_buckets r x ++ log_buckets L;
  log_accesses := answered_accesses r x ++ log_accesses L;
  log_secrets := answered_secrets r x ++ log_secrets L |}.

(** ** Answers *)

Definition name_key (k : NamespacedName) : string * string := (nn_Namespace k, nn_Name k).

(** What an event of a process tells about the log. An object that was read is some
    version under the key; an object that a write returned was stored with the spec (for
    [Update] and [Create]) that was written, on the version it was based on. *)
Definition plausible (L : Logs) (ev : event) : Prop :=
  match ev with
  | Ev (GetClaim k) x => ∀ c, x = Ok c → c ∈ log_claims L ∧ key_of c = name_key k
  | Ev (GetBucket k) x => ∀ b, x = Ok b → b ∈ log_buckets L ∧ key_of b = name_key k
  | Ev (GetAccess k) x => ∀ a, x = Ok a → a ∈ log_accesses L ∧ key_of a = name_key k
  | Ev (GetSecret k) x => ∀ s, x = Ok s → s ∈ log_secrets L ∧ key_of s = name_key k
  | Ev (ListAccesses _) x => ∀ l, x = Ok l → l ⊆ log_accesses L
  | Ev (UpdateClaim _) x | Ev (StatusUpdateClaim _) x => ∀ c, x = Ok c → c ∈ log_claims L
  | Ev (UpdateBucket b') x | Ev (CreateBucket b') x =>
      ∀ b, x = Ok b → b ∈ log_buckets L ∧ key_of b = key_of b' ∧ bucket_Spec b = bucket_Spec b'
  | Ev (StatusUpdateBucket _) x => ∀ b, x = Ok b → b ∈ log_buckets L
  | Ev (UpdateAccess a') x =>
      ∀ a, x = Ok a → a ∈ log_accesses L ∧ key_of a = key_of a' ∧
        ∃ old, old ∈ log_accesses L ∧ rv old = rv a' ∧ access_Status a = access_Status old
  | Ev (StatusUpdateAccess a') x => ∀ a, x = Ok a → a ∈ log_accesses L ∧ key_of a = key_of a'
  | Ev (UpdateSecret s') x | Ev (CreateSecret s') x =>
      ∀ s, x = Ok s → s ∈ log_secrets L ∧ key_of s = key_of s' ∧
        meta_OwnerReferences (GetMeta s) = meta_OwnerReferences (GetMeta s')
  | Ev _ _ => True
  end.

Definition is_write (r : req) : bool :=
  match r with
  | UpdateClaim _ | UpdateBucket _ | UpdateAccess _ | UpdateSecret _ | StatusUpdateClaim _
  | StatusUpdateBucket _ | StatusUpdateAccess _ | CreateBucket _ | CreateSecret _
  | DeleteBucket _ | DeleteSecret _ => true
  | _ => false
  end.

Definition failed (r : req) : resp r → Prop :=
  match r return resp r → Prop with
  | UpdateClaim _ | UpdateBucket _ | UpdateAccess _ | UpdateSecret _ | StatusUpdateClaim _
  | StatusUpdateBucket _ | StatusUpdateAccess _ | CreateBucket _ | CreateSecret _
  | DeleteBucket _ | DeleteSecret _ => λ x, is_ok x = false
  | _ => λ _, False
  end.

(** A read answers with any version of the log under the key, or an error; class reads,
    the driver, the clock and the order of a map answer anything. A write is the
    server's, or fails; then it may have had its effect. *)
Definition answers (L : Logs) (w : World) (r : req) (x : resp r) (w' : World) : Prop :=
  if is_write r
  then (w' = w ∧ failed r x) ∨ (w' = (handle w r).1 ∧ (x = (handle w r).2 ∨ failed r x))
  else w' = w ∧ plausible L (Ev r x).

(** ** Users

    Users and administrators create, update and delete objects; they do not write the
    status, which is a subresource. An update of a Bucket passes the transition rules of
    its spec. *)

Inductive user_action : Type :=
| UserCreateClaim (c : BucketClaim) | UserUpdateClaim (c : BucketClaim)
| UserDeleteClaim (c : BucketClaim)
| UserCreateBucket (b : Bucket) | UserUpdateBucket (b : Bucket) | UserDeleteBucket (b : Bucket)
| UserCreateAccess (a : BucketAccess) | UserUpdateAccess (a : BucketAccess)
| UserDeleteAccess (a : BucketAccess)
| UserCreateSecret (s : Secret) | UserUpdateSecret (s : Secret) | UserDeleteSecret (s : Secret)
| ClockTick (now : Z).

Definition user_update_bucket (w : World) (b : Bucket) : store Bucket :=
  match w_buckets w !! key_of b with
  | Some old =>
      if bucketSpec_transition (bucket_Spec old) (bucket_Spec b)
      then (store_update bucket_status_of (w_version w) (w_buckets w) b).1
      else w_buckets w
  | None => w_buckets w
  end.

Definition user_act (w : World) (u : user_action) : World :=
  let v := w_version w in
  match u with
  | UserCreateClaim c =>
      with_claims (store_create v (w_claims w) (claim_with_Status empty_claim_status c)).1 w
  | UserUpdateClaim c => with_claims (store_update claim_status_of v (w_claims w) c).1 w
  | UserDeleteClaim c => with_claims (store_delete v (w_now w) (w_claims w) c).1 w
  | UserCreateBucket b =>
      with_buckets (store_create v (w_buckets w) (bucket_with_Status empty_BucketStatus b)).1 w
  | UserUpdateBucket b => with_buckets (user_update_bucket w b) w
  | UserDeleteBucket b => with_buckets (store_delete v (w_now w) (w_buckets w) b).1 w
  | UserCreateAccess a =>
      with_accesses (store_create v (w_accesses w) (access_with_Status empty_access_status a)).1 w
  | UserUpdateAccess a => with_accesses (store_update access_status_of v (w_accesses w) a).1 w
  | UserDeleteAccess a => with_accesses (store_delete v (w_now w) (w_accesses w) a).1 w
  | UserCreateSecret s => with_secrets (store_create v (w_secrets w) (secret_stored s)).1 w
  | UserUpdateSecret s => with_secrets (store_update secret_no_status v (w_secrets w) s).1 w
  | UserDeleteSecret s => with_secrets (store_delete v (w_now w) (w_secrets w) s).1 w
  | ClockTick now => {|
      w_claims := w_claims w; w_buckets := w_buckets w; w_classes := w_classes w;
      w_accesses := w_accesses w; w_accessClasses := w_accessClasses w;
      w_secrets := w_secrets w; w_version := v + 1; w_now := now; w_driver := w_driver w |}
  end.

(** ** Processes and steps *)

Inductive worker : Type :=
| ClaimWorker (key : NamespacedName)
| AccessWorker (key : NamespacedName)
| BucketSidecar (d : DriverInfo) (key : NamespacedName)
| AccessSidecar (d : DriverInfo) (key : NamespacedName).

Definition reconcile_of (k : worker) : prog (option error) :=
  match k with
  | ClaimWorker key => ClaimController.Reconcile key
  | AccessWorker key => AccessController.Reconcile key
  | BucketSidecar d key => SidecarBucket.Reconcile d key
  | AccessSidecar d key => SidecarAccess.Reconcile d key
  end.

Record Proc : Type := {
  proc_worker : worker;
  proc_trace : list event;
  proc_rest : prog (option error)
}.

Record Cluster : Type := {
  cl_world : World;
  cl_logs : Logs;
  cl_procs : list Proc
}.

Definition started (k : worker) : Proc :=
  {| proc_worker := k; proc_trace := []; proc_rest := reconcile_of k |}.
Definition advanced (k : worker) (tr : list event) (r : req) (f : resp r → prog (option error))
    (x : resp r) : Proc :=
  {| proc_worker := k; proc_trace := tr ++ [Ev r x]; proc_rest := f x |}.

Inductive step (cl : Cluster) : Cluster → Prop :=
| step_start k :
    step cl {| cl_world := cl_world cl; cl_logs := cl_logs cl;
               cl_procs := started k :: cl_procs cl |}
| step_call ps1 ps2 k tr r f x w' :
    cl_procs cl = ps1 ++ {| proc_worker := k; proc_trace := tr; proc_rest := Call r f |} :: ps2 →
    answers (cl_logs cl) (cl_world cl) r x w' →
    step cl {| cl_world := w';
               cl_logs := record_answer r x (record_world w' (cl_logs cl));
               cl_procs := ps1 ++ advanced k tr r f x :: ps2 |}
| step_end ps1 p ps2 :
    cl_procs cl = ps1 ++ p :: ps2 →
    step cl {| cl_world := cl_world cl; cl_logs := cl_logs cl; cl_procs := ps1 ++ ps2 |}
| step_user u :
    step cl {| cl_world := user_act (cl_world cl) u;
               cl_logs := record_world (user_act (cl_world cl) u) (cl_logs cl);
               cl_procs := cl_procs cl |}.

(** A server without claims, buckets, accesses and secrets, and no process. *)
Definition initial (cl : Cluster) : Prop :=
  w_claims (cl_world cl) = ∅ ∧ w_buckets (cl_world cl) = ∅ ∧
  w_accesses (cl_world cl) = ∅ ∧ w_secrets (cl_world cl) = ∅ ∧
  cl_logs cl = no_logs ∧ cl_procs cl = [].

Definition reachable (cl : Cluster) : Prop := ∃ cl0, initial cl0 ∧ rtc step cl0 cl.

(** ** What a write of a request does to each store *)

Section writes.
Context (w : World) (r : req).
Let v := w_version w.

Definition claim_write (old new : BucketClaim) : Prop :=
  match r with
  | UpdateClaim c => rv c = rv old ∧ new = as_updated claim_status_of v c old
  | StatusUpdateClaim c => rv c = rv old ∧ new = as_status_updated claim_status_of v c old
  | _ => False
  end.
Definition bucket_write (old new : Bucket) : Prop :=
  match r with
  | UpdateBucket b => rv b = rv old ∧ new = as_updated bucket_status_of v b old
  | StatusUpdateBucket b => rv b = rv old ∧ new = as_status_updated bucket_status_of v b old
  | DeleteBucket b => key_of old = key_of b ∧ new = as_deleted v (w_now w) old
  | _ => False
  end.
Definition bucket_create (new : Bucket) : Prop :=
  match r with CreateBucket b => new = as_created v b | _ => False end.
Definition access_write (old new : BucketAccess) : Prop :=
  match r with
  | UpdateAccess a => rv a = rv old ∧ new = as_updated access_status_of v a old
  | StatusUpdateAccess a => rv a = rv old ∧ new = as_status_updated access_status_of v a old
  | _ => False
  end.
Definition secret_write (old new : Secret) : Prop :=
  match r with
  | UpdateSecret s => rv s = rv old ∧ new = as_updated secret_no_status v s old
  | DeleteSecret s => key_of old = key_of s ∧ new = as_deleted v (w_now w) old
  | _ => False
  end.
Definition secret_create (new : Secret) : Prop :=
  match r with CreateSecret s => new = as_created v (secret_stored s) | _ => False end.
End writes.

Definition keyed {A} `{ClientObject A} (m : store A) : Prop :=
  ∀ k a, m !! k = Some a → key_of a = k.

(** The changes of the four stores by one call, and its answer. *)
Record changed (w : World) (r : req) (new : Logs) : Prop := {
  changed_claims :
    change (claim_write w r) (λ _, False) (w_version w) (w_claims w)
      (w_claims (handle w r).1) (log_claims new);
  changed_buckets :
    change (bucket_write w r) (bucket_create w r) (w_version w) (w_buckets w)
      (w_buckets (handle w r).1) (log_buckets new);
  changed_accesses :
    change (access_write w r) (λ _, False) (w_version w) (w_accesses w)
      (w_accesses (handle w r).1) (log_accesses new);
  changed_secrets :
    change (secret_write w r) (secret_create w r) (w_version w) (w_secrets w)
      (w_secrets (handle w r).1) (log_secrets new);
  changed_answer :
    answered_claims r (handle w r).2 ⊆ log_claims new ∧
    answered_buckets r (handle w r).2 ⊆ log_buckets new ∧
    answered_accesses r (handle w r).2 ⊆ log_accesses new ∧
    answered_secrets r (handle w r).2 ⊆ log_secrets new;
  changed_version : w_version (handle w r).1 = (w_version w + 1)%N
}.

Definition all_keyed (w : World) : Prop :=
  keyed (w_claims w) ∧ keyed (w_buckets w) ∧ keyed (w_accesses w) ∧ keyed (w_secrets w).

Lemma handle_changed w r :
  all_keyed w → is_write r = true → ∃ new, changed w r new.
Proof.
  intros (Hc & Hb & Ha & Hs) Hw.
  destruct (store_delete_change (w_version w) (w_buckets w) Hb (w_now w)
    match r with DeleteBucket b => b | _ => demo_bucket end) as [db Hdb].
  destruct (store_delete_change (w_version w) (w_secrets w) Hs (w_now w)
    match r with DeleteSecret s => s
    | _ => {| secret_ObjectMeta := demo_meta "" "" ""; secret_Data := ∅; secret_StringData := ∅;
              secret_Type := "" |} end) as [ds Hds].
  exists {|
    log_claims := answered_claims r (handle w r).2;
    log_buckets := match r with DeleteBucket _ => db | _ => answered_buckets r (handle w r).2 end;
    log_accesses := answered_accesses r (handle w r).2;
    log_secrets := match r with DeleteSecret _ => ds | _ => answered_secrets r (handle w r).2 end |}.
  destruct r; try done; split; cbn; try done; try apply change_none;
    try (by split_and!; try done; intros ? ?%elem_of_nil).
  all: first [ exact (store_update_change _ _ _ _) | refine (store_update_status_change _ _ _ _ _); assumption
             | exact (store_create_change _ _ _) ].
Qed.

(** ** The order of the versions of an object *)

(** A bound name stays. *)
Definition bound_name (c : BucketClaim) : string := claimStatus_BoundBucketName (claim_Status c).
Definition claim_le (old new : BucketClaim) : Prop :=
  bound_name old = "" ∨ bound_name new = bound_name old.

(** The UID of the claim that a Bucket belongs to stays. *)
Definition bucket_le (old new : Bucket) : Prop :=
  ClaimController.ref_UID old = "" ∨ ClaimController.ref_UID new = ClaimController.ref_UID old.

(** What the Controller recorded for the Sidecar stays. *)
Definition same_initialization (s1 s2 : BucketAccessStatus) : Prop :=
  accessStatus_DriverName s1 = accessStatus_DriverName s2 ∧
  accessStatus_AuthenticationType s1 = accessStatus_AuthenticationType s2 ∧
  accessStatus_Parameters s1 = accessStatus_Parameters s2 ∧
  accessStatus_AccessedBuckets s1 = accessStatus_AccessedBuckets s2.
Definition access_le (old new : BucketAccess) : Prop :=
  accessStatus_DriverName (access_Status old) = "" ∨
  same_initialization (access_Status new) (access_Status old).

#[export] Instance claim_le_preorder : PreOrder claim_le.
Proof. split; [intros c; by right|]. unfold claim_le. intros x y z [?|?] [?|?]; intuition congruence. Qed.
#[export] Instance bucket_le_preorder : PreOrder bucket_le.
Proof. split; [intros b; by right|]. unfold bucket_le. intros x y z [?|?] [?|?]; intuition congruence. Qed.
#[export] Instance access_le_preorder : PreOrder access_le.
Proof.
  unfold access_le, same_initialization. split; [intros a; by right|].
  intros x y z [?|(?&?&?&?)] [?|(?&?&?&?)]; (left; congruence) || (right; split_and!; congruence).
Qed.

(** The version of the log that shows that the Bucket of a bound claim is its own. *)
Definition bound_evidence (L : Logs) (c : BucketClaim) : Prop :=
  ∃ b, b ∈ log_buckets L ∧ key_of b = ("", bound_name c) ∧ ClaimController.bound_to b c.

(** ** The invariant *)

Record server_ok (w : World) (L : Logs) : Prop := {
  claims_ok : history_ok (w_version w) (w_claims w) (log_claims L);
  buckets_ok : history_ok (w_version w) (w_buckets w) (log_buckets L);
  accesses_ok : history_ok (w_version w) (w_accesses w) (log_accesses L);
  secrets_ok : history_ok (w_version w) (w_secrets w) (log_secrets L);
  claims_evolve : evolution claim_le (w_claims w) (log_claims L);
  buckets_evolve : evolution bucket_le (w_buckets w) (log_buckets L);
  accesses_evolve : evolution access_le (w_accesses w) (log_accesses L);
  claims_evident c : c ∈ log_claims L → bound_name c ≠ "" → bound_evidence L c
}.

Definition contract (k : worker) : list event → req → Prop :=
  match k with
  | ClaimWorker key => ClaimController.claim_contract key
  | AccessWorker key => AccessController.access_contract key
  | BucketSidecar d key => SidecarBucket.bucket_contract d key
  | AccessSidecar d key => SidecarAccess.access_contract d key
  end.

Definition proc_ok (L : Logs) (p : Proc) : Prop :=
  wp (contract (proc_worker p)) (proc_rest p) (proc_trace p) (λ _ _, True) ∧
  Forall (plausible L) (proc_trace p).

Definition cluster_ok (cl : Cluster) : Prop :=
  server_ok (cl_world cl) (cl_logs cl) ∧ Forall (proc_ok (cl_logs cl)) (cl_procs cl).

Lemma started_ok L k : proc_ok L (started k).
Proof.
  split; [|by apply Forall_nil].
  destruct k; cbn [started proc_worker proc_rest proc_trace contract reconcile_of].
  - eapply wp_mono; [done| |apply ClaimController.wp_claim_Reconcile]; done.
  - eapply wp_mono; [done| |apply AccessController.wp_caccess_Reconcile]; done.
  - eapply wp_mono; [done| |apply SidecarBucket.wp_sbucket_Reconcile]; done.
  - eapply wp_mono; [done| |apply SidecarAccess.wp_saccess_Reconcile]; done.
Qed.

Lemma server_all_keyed w L : server_ok w L → all_keyed w.
Proof. intros []. split_and!; intros k a; by eapply stored_key. Qed.

(** ** Growing logs *)

Definition logs_le (L L' : Logs) : Prop :=
  log_claims L ⊆ log_claims L' ∧ log_buckets L ⊆ log_buckets L' ∧
  log_accesses L ⊆ log_accesses L' ∧ log_secrets L ⊆ log_secrets L'.
Definition logs_app (L L' : Logs) : Logs := {|
  log_claims := log_claims L ++ log_claims L'; log_buckets := log_buckets L ++ log_buckets L';
  log_accesses := log_accesses L ++ log_accesses L';
  log_secrets := log_secrets L ++ log_secrets L' |}.

Lemma logs_le_record w L : logs_le L (record_world w L).
Proof. split_and!; cbn; apply list_subseteq_app_r; done. Qed.
Lemma logs_le_answer r x L : logs_le L (record_answer r x L).
Proof. split_and!; cbn; apply list_subseteq_app_r; done. Qed.
Lemma record_answer_mono r x L L' :
  logs_le L L' → logs_le (record_answer r x L) (record_answer r x L').
Proof.
  intros (?&?&?&?). split_and!; cbn; apply list_subseteq_app_iff_l;
    (split; [by apply list_subseteq_app_l|by apply list_subseteq_app_r]).
Qed.
Lemma logs_le_trans L1 L2 L3 : logs_le L1 L2 → logs_le L2 L3 → logs_le L1 L3.
Proof. intros (?&?&?&?) (?&?&?&?). split_and!; by etransitivity. Qed.

Lemma plausible_mono L L' ev : logs_le L L' → plausible L ev → plausible L' ev.
Proof.
  intros (Hc & Hb & Ha & Hs). destruct ev as [r x], r; cbn; try done.
  all: try (intros Hp o Ho; destruct (Hp o Ho); split; [auto|done]).
  all: try (intros Hp o Ho; auto; fail).
  - intros Hp l Hl. etransitivity; [by apply Hp|done].
  - intros Hp o Ho. destruct (Hp o Ho) as (? & ? & old & ? & ? & ?).
    split; [auto|]. split; [done|]. exists old. auto.
Qed.

Lemma proc_ok_mono L L' p : logs_le L L' → proc_ok L p → proc_ok L' p.
Proof.
  intros Hl [Hw Hp]. split; [done|]. eapply Forall_impl; [exact Hp|].
  intros ev. by apply plausible_mono.
Qed.

Lemma bound_to_same b c c' :
  key_of c = key_of c' → GetUID c = GetUID c' →
  ClaimController.bound_to b c → ClaimController.bound_to b c'.
Proof.
  unfold ClaimController.bound_to, ClaimController.refers_to. intros [= -> ->] ->. done.
Qed.

(** ** A step of the server *)

Definition claim_step (L : Logs) (old new : BucketClaim) : Prop :=
  claim_le old new ∧
  (bound_name new ≠ "" → bound_name new = bound_name old ∨ bound_evidence L new).

Record server_step (L : Logs) (w w' : World) (new : Logs) : Prop := {
  step_claims :
    change (claim_step L) (λ c, bound_name c = "") (w_version w) (w_claims w) (w_claims w')
      (log_claims new);
  step_buckets :
    change bucket_le (λ _, True) (w_version w) (w_buckets w) (w_buckets w') (log_buckets new);
  step_accesses :
    change access_le (λ _, True) (w_version w) (w_accesses w) (w_accesses w') (log_accesses new);
  step_secrets :
    change (λ _ _, True) (λ _, True) (w_version w) (w_secrets w) (w_secrets w') (log_secrets new);
  step_version : w_version w' = (w_version w + 1)%N
}.

Definition stored_in (w : World) (L : Logs) : Prop :=
  versions (w_claims w) ⊆ log_claims L ∧ versions (w_buckets w) ⊆ log_buckets L ∧
  versions (w_accesses w) ⊆ log_accesses L ∧ versions (w_secrets w) ⊆ log_secrets L.

Lemma server_step_ok L L' w w' new :
  server_ok w L → server_step L w w' new →
  logs_le L L' → logs_le L' (logs_app new L) → stored_in w' L' → server_ok w' L'.
Proof.
  intros [Hc Hb Ha Hs Ec Eb Ea Hev] [Sc Sb Sa Ss Sv] Hle (Lc & Lb & La & Ls) (Vc & Vb & Va & Vs).
  split; rewrite ?Sv.
  - eapply history_smaller; [exact Lc|done|by eapply history_change].
  - eapply history_smaller; [exact Lb|done|by eapply history_change].
  - eapply history_smaller; [exact La|done|by eapply history_change].
  - eapply history_smaller; [exact Ls|done|by eapply history_change].
  - eapply evolution_smaller; [exact Lc|]. eapply (evolution_change _ (λ _, True)); [exact Hc|exact Ec|].
    eapply change_mono; [| |exact Sc]; [by intros old a _ []|done].
  - eapply evolution_smaller; [exact Lb|]. exact (evolution_change _ _ _ _ _ _ _ Hb Eb Sb).
  - eapply evolution_smaller; [exact La|]. exact (evolution_change _ _ _ _ _ _ _ Ha Ea Sa).
  - intros c Hin Hbn.
    assert (∀ c, bound_evidence L c → bound_evidence L' c) as Hmono.
    { intros x (b & ? & ?). exists b. split; [|done]. by apply Hle. }
    apply Lc, elem_of_app in Hin as [Hin|Hin]; [|by apply Hmono, Hev].
    revert Hin. cbn. destruct Sc as [|old a Hk Hu _ [_ He]|a _ _ _ He].
    + by intros ?%elem_of_nil.
    + intros ->%list_elem_of_singleton. apply Hmono.
      destruct (He Hbn) as [Heq|?]; [|done].
      destruct (Hev old) as (b & Hin & Hkey & Hbt).
      { by eapply (stored_logged _ _ _ Hc). }
      { congruence. }
      exists b. rewrite Heq. split_and!; [done..|].
      eapply bound_to_same; [|symmetry; exact Hu|done]. by eapply (stored_key _ _ _ Hc).
    + intros ->%list_elem_of_singleton. done.
Qed.

(** ** The writes of the reconcilers keep the order *)

Section process.
Context (L : Logs) (w : World) (tr : list event).
Context (Hserver : server_ok w L) (Htr : Forall (plausible L) tr).

Lemma event_plausible ev : ev ∈ tr → plausible L ev.
Proof. rewrite Forall_forall in Htr. apply Htr. Qed.

Lemma claim_seen_logged key c : ClaimController.claim_seen key tr c → c ∈ log_claims L.
Proof.
  intros [Hr|[[c' Hr]|[c' Hr]]]; apply event_plausible in Hr; cbn in Hr; by apply Hr.
Qed.

(** The version that a write is based on is the stored one. *)
Lemma claim_based key (c c1 : BucketClaim) k old :
  w_claims w !! k = Some old → rv c = rv old → same_version c c1 →
  ClaimController.claim_seen key tr c1 → old = c1.
Proof.
  intros Hk Hr (_ & _ & _ & Hv) Hseen. eapply current_version; [apply Hserver|done| |].
  - by eapply claim_seen_logged.
  - unfold rv in *. congruence.
Qed.

Lemma binding_evidence_logged key c0 c1 c :
  ClaimController.claim_seen key tr c1 → key_of c = key_of c1 → GetUID c = GetUID c1 →
  bound_name c = ClaimController.bucket_name_of c0 →
  ClaimController.binding_evidence tr c0 c1 → bound_evidence L c.
Proof.
  intros Hseen Hkey Huid Hbn Hev. unfold bound_evidence. rewrite Hbn.
  assert (∀ b, ClaimController.bound_to b c1 → ClaimController.bound_to b c) as Hsame
    by (intros b; by apply bound_to_same).
  destruct Hev as [(b & Hb & Hbt)|(b0 & b' & Hb0 & Hrt & Hu & Hb')].
  { eapply history_uid; [apply Hserver|]. by eapply claim_seen_logged. }
  - destruct Hb as [Hb|(b' & Hb & Hkb)]; apply event_plausible in Hb; cbn in Hb;
      destruct (Hb _ eq_refl) as [? Hkey']; exists b; split_and!; auto.
    destruct Hkey' as [-> _]. done.
  - apply event_plausible in Hb0, Hb'. cbn in Hb0, Hb'.
    destruct (Hb0 _ eq_refl) as [_ Hk0]. destruct (Hb' _ eq_refl) as (Hin & Hk' & Hspec).
    exists b'. split_and!; [done|by rewrite Hk'|]. apply Hsame.
    assert (GetUID c1 ≠ "") as Hne
      by (eapply history_uid; [apply Hserver|]; by eapply claim_seen_logged).
    unfold ClaimController.bound_to, ClaimController.refers_to, ClaimController.ref_UID in *.
    rewrite Hspec. cbn. done.
Qed.

Lemma claim_write_step k r old new :
  contract k tr r → w_claims w !! key_of new = Some old →
  claim_write w r old new → claim_step L old new.
Proof.
  intros Hr Hk Hw. destruct r; try done; destruct Hw as [Hv ->].
  - split; [by right|]. intros _. by left.
  - destruct k; try done. destruct Hr as (c0 & c1 & Hread & Hseen & Hsame & Hspec & Hb).
    assert (old = c1) as -> by (by eapply claim_based).
    destruct Hb as [Hb|(He & Hb & Hev)].
    + split; [by right|]. intros _. by left.
    + split; [by left|]. intros _. right. eapply binding_evidence_logged; done.
Qed.

Lemma bucket_based (b b0 : Bucket) k old :
  w_buckets w !! k = Some old → rv b = rv old → b0 ∈ log_buckets L → rv b = rv b0 → old = b0.
Proof.
  intros Hk Hr Hin Hv. eapply current_version; [apply Hserver|done..|congruence].
Qed.

Lemma bucket_event key b0 : Ev (GetBucket key) (Ok b0) ∈ tr → b0 ∈ log_buckets L.
Proof. intros H%event_plausible. by apply H. Qed.

Lemma rv_AddFinalizer {A} `{ClientObject A} (a : A) f : rv (AddFinalizer a f).1 = rv a.
Proof. apply same_version_AddFinalizer. Qed.
Lemma rv_RemoveFinalizer {A} `{ClientObject A} (a : A) f : rv (RemoveFinalizer a f) = rv a.
Proof. apply same_version_RemoveFinalizer. Qed.
Lemma bucket_Spec_AddFinalizer b f : bucket_Spec (AddFinalizer b f).1 = bucket_Spec b.
Proof. unfold AddFinalizer. by case_match. Qed.

(** An update of a Bucket by a reconciler, on the version [b0] it has read. *)
Lemma bucket_update_based k b :
  contract k tr (UpdateBucket b) →
  ∃ b0, b0 ∈ log_buckets L ∧ rv b = rv b0 ∧ bucket_le b0 b.
Proof.
  destruct k; try done; cbn; intros Hr.
  - destruct Hr as [(c0 & c & b0 & _ & _ & _ & _ & Hb & _ & Hu & ->)
                   |(c0 & c & b0 & _ & _ & _ & Hb & _ & ->)];
      exists b0; (split; [eapply bucket_event; exact Hb|split; [done|]]); [by left|by right].
  - destruct Hr as [(b0 & ps & [Hb _] & _ & ->)|(b0 & Hb & _ & _ & ->)];
      exists b0; (split; [eapply bucket_event; exact Hb|]).
    + rewrite rv_AddFinalizer. split; [done|]. right.
      unfold ClaimController.ref_UID. by rewrite bucket_Spec_AddFinalizer.
    + rewrite rv_RemoveFinalizer. split; [done|]. by right.
Qed.

Lemma bucket_write_step k r old new :
  contract k tr r → w_buckets w !! key_of new = Some old →
  bucket_write w r old new → bucket_le old new.
Proof.
  intros Hr Hk Hw. destruct r; try done.
  - destruct Hw as [Hv ->]. destruct (bucket_update_based _ _ Hr) as (b0 & Hin & Hv0 & Hle).
    assert (old = b0) as -> by (by eapply bucket_based). done.
  - destruct Hw as [_ ->]. by right.
  - destruct Hw as [_ ->]. by right.
Qed.

Lemma access_logged key a : Ev (GetAccess key) (Ok a) ∈ tr → a ∈ log_accesses L.
Proof. intros H%event_plausible. by apply H. Qed.
Lemma access_updated a a' : Ev (UpdateAccess a') (Ok a) ∈ tr → a ∈ log_accesses L.
Proof. intros H%event_plausible. by apply H. Qed.
Lemma access_status_updated a a' : Ev (StatusUpdateAccess a') (Ok a) ∈ tr → a ∈ log_accesses L.
Proof. intros H%event_plausible. by apply H. Qed.

(** The status update of an access is made on a version of the log that it keeps, or that
    was not initialised. *)
Definition access_based (a : BucketAccess) : Prop :=
  ∃ a1, a1 ∈ log_accesses L ∧ rv a = rv a1 ∧ access_le a1 a.

Lemma access_based_logged a : a ∈ log_accesses L → access_based a.
Proof. intros. exists a. split_and!; [done..|by right]. Qed.

(** The version and the initialisation are all that matters. *)
Lemma access_based_same a a' :
  rv a' = rv a → same_initialization (access_Status a') (access_Status a) →
  access_based a → access_based a'.
Proof.
  intros Hv Hs (a1 & Hin & Hv1 & Hle). exists a1. split_and!; [done|congruence|].
  etransitivity; [exact Hle|]. by right.
Qed.

Lemma init_based key a : AccessController.init_allowed key tr a → access_based a.
Proof.
  intros (a0 & a1 & class & abs & Hi & He & _ & _ & _ & _ & _ & ->).
  destruct Hi as (Hread & _ & _ & _ & Hd & _).
  assert (a0 ∈ log_accesses L) as Hin0 by (by eapply access_logged).
  destruct He as [->|He].
  - exists a0. split_and!; [done..|by left].
  - apply event_plausible in He. cbn in He.
    destruct (He _ eq_refl) as (Hin1 & _ & old & Hold & Hv & Hst).
    exists a1. split_and!; [done..|]. left. rewrite Hst.
    assert (old = a0) as -> by (eapply (version_unique _ _ _ (accesses_ok _ _ Hserver));
      [done..|by rewrite Hv, rv_AddFinalizer]).
    done.
Qed.

Lemma caccess_status_based key a :
  AccessController.access_contract key tr (StatusUpdateAccess a) → access_based a.
Proof.
  intros [Hi|(a1 & now & err & (a2 & Ha2 & (_ & _ & _ & Hv) & _ & Hst) & ->)];
    [by eapply init_based|].
  apply (access_based_same a1); [done|by split_and!|].
  apply (access_based_same a2); [done|by rewrite Hst; split_and!|].
  destruct Ha2 as [[Ha2|[a' Ha2]]|[Ha2 _]]; [apply access_based_logged..|by eapply init_based].
  - by eapply access_logged.
  - by eapply access_updated.
Qed.

Lemma protected_based d key a : SidecarAccess.protected d key tr a → a ∈ log_accesses L.
Proof.
  intros (a0 & [Hr _] & [[-> _]|Hu]); [by eapply access_logged|by eapply access_updated].
Qed.

Lemma ready_based d key a : SidecarAccess.ready_allowed d key tr a → access_based a.
Proof.
  intros (a0 & cfg & order & x & [Hp _] & _ & _ & -> & _).
  apply (access_based_same a0); [done|by split_and!|].
  by eapply access_based_logged, protected_based.
Qed.

Lemma revoke_based d key a0 :
  SidecarAccess.to_revoke d key tr a0 → access_based (SidecarAccess.access_deleting_status a0).
Proof.
  intros [Hr _]. apply (access_based_same a0); [done|by split_and!|].
  by eapply access_based_logged, access_logged.
Qed.

Lemma saccess_status_based d key a :
  SidecarAccess.access_contract d key tr (StatusUpdateAccess a) → access_based a.
Proof.
  intros [(a0 & Hr & ->)|[Hr|(a1 & now & err & (a2 & Ha2 & (_ & _ & _ & Hv) & _ & Hst) & ->)]];
    [by eapply revoke_based|by eapply ready_based|].
  apply (access_based_same a1); [done|by split_and!|].
  apply (access_based_same a2); [done|by rewrite Hst; split_and!|].
  destruct Ha2 as [Ha2|[[a' Ha2]|[[a' Ha2]|[(a0 & Hr & ->)|Ha2]]]].
  - by eapply access_based_logged, access_logged.
  - by eapply access_based_logged, access_updated.
  - by eapply access_based_logged, access_status_updated.
  - by eapply revoke_based.
  - by eapply ready_based.
Qed.

Lemma access_write_step k r old new :
  contract k tr r → w_accesses w !! key_of new = Some old →
  access_write w r old new → access_le old new.
Proof.
  intros Hr Hk Hw. destruct r; try done; destruct Hw as [Hv ->]; [by right|].
  assert (access_based a) as (a1 & Hin & Hv1 & Hle).
  { destruct k; try done; [by eapply caccess_status_based|by eapply saccess_status_based]. }
  assert (old = a1) as -> by (eapply current_version; [apply Hserver|done..|congruence]).
  done.
Qed.
End process.

(** ** The invariant is kept *)

Lemma history_versions {A} `{ClientObject A} (v : N) (m : store A) (log : list A) :
  history_ok v m log → versions m ⊆ log.
Proof. intros Hh a [k Hk]%elem_of_versions. by eapply (stored_logged _ _ _ Hh). Qed.

Lemma server_same w L L' : logs_le L L' → logs_le L' L → server_ok w L → server_ok w L'.
Proof.
  intros Hle (Lc & Lb & La & Ls) [Hc Hb Ha Hs Ec Eb Ea Hev].
  destruct Hle as (Gc & Gb & Ga & Gs).
  split; try (eapply history_smaller; [done| |done]; etransitivity; [by eapply history_versions|done]);
    try (by eapply evolution_smaller).
  intros c Hin Hbn. destruct (Hev c (Lc _ Hin) Hbn) as (b & ? & ?). exists b. split; [auto|done].
Qed.

Lemma change_versions {A} `{ClientObject A} (R : A → A → Prop) (C : A → Prop) (v : N) (m m' : store A) (log new : list A) :
  history_ok v m log → change R C v m m' new → versions m' ⊆ new ++ log.
Proof.
  intros Hh Hc a [k Hk]%elem_of_versions. apply elem_of_app.
  destruct (change_lookup _ _ _ _ _ _ _ _ Hc Hk) as [?|?]; [by left|right].
  by eapply (stored_logged _ _ _ Hh).
Qed.

Lemma record_same w L : server_ok w L → logs_le (record_world w L) L.
Proof.
  intros [Hc Hb Ha Hs _ _ _ _].
  split_and!; cbn; apply list_subseteq_app_iff_l; (split; [by eapply history_versions|done]).
Qed.

Lemma record_step L w w' new :
  server_ok w L → server_step L w w' new → logs_le (record_world w' L) (logs_app new L).
Proof.
  intros [Hc Hb Ha Hs _ _ _ _] [Sc Sb Sa Ss _].
  split_and!; cbn; apply list_subseteq_app_iff_l;
    (split; [by eapply change_versions|by apply list_subseteq_app_r]).
Qed.

Lemma stored_in_record w L : stored_in w (record_world w L).
Proof. split_and!; cbn; by apply list_subseteq_app_l. Qed.
Lemma stored_in_mono w L L' : stored_in w L → logs_le L L' → stored_in w L'.
Proof. intros (?&?&?&?) (?&?&?&?). split_and!; by etransitivity. Qed.

Lemma changed_server_step k tr L w r new :
  server_ok w L → Forall (plausible L) tr → contract k tr r →
  changed w r new → server_step L w (handle w r).1 new.
Proof.
  intros Hs Htr Hr [Hc Hb Ha Hse _ Hv]. split; [| | | |done].
  - eapply change_mono; [| |exact Hc]; [|done]. intros. by eapply claim_write_step.
  - eapply change_mono; [| |exact Hb]; [|done]. intros. by eapply bucket_write_step.
  - eapply change_mono; [| |exact Ha]; [|done]. intros. by eapply access_write_step.
  - eapply change_mono; [| |exact Hse]; done.
Qed.

Lemma failed_answer r x L L' :
  is_write r = true → failed r x → record_answer r x L = L ∧ plausible L' (Ev r x).
Proof. intros Hw Hf. destruct L, r, x; done. Qed.
Lemma read_answer r x L : is_write r = false → record_answer r x L = L.
Proof. intros Hw. by destruct L, r. Qed.

(** The server's own answer, once it is recorded. *)
Lemma answer_plausible L w r :
  server_ok w L → is_write r = true → plausible (record_answer r (handle w r).2 L) (Ev r (handle w r).2).
Proof.
  intros Hs Hw. destruct r; try done; cbn.
  all: intros o Ho; rewrite Ho; cbn; try (split; [left|]); try (by left).
  - apply store_update_Ok in Ho as (old & _ & _ & ->). by rewrite key_of_updated.
  - apply store_update_Ok in Ho as (old & Hk & Hr & ->).
    rewrite key_of_updated. split; [done|]. exists old. split_and!; [right|done..].
    by eapply (stored_logged _ _ _ (accesses_ok _ _ Hs)).
  - apply store_update_Ok in Ho as (old & _ & _ & ->). by rewrite key_of_updated.
  - apply store_update_status_Ok in Ho as (old & Hk & _ & ->). rewrite key_of_status_updated.
    by eapply (stored_key _ _ _ (accesses_ok _ _ Hs)).
  - apply store_create_Ok in Ho as ->. by rewrite key_of_created.
  - apply store_create_Ok in Ho as ->. by rewrite key_of_created.
Qed.

(** What one call does: nothing, or a step of the server; in both cases the log grows by
    what is stored and answered. *)
Definition grown (L : Logs) (w w' : World) (L' : Logs) : Prop :=
  logs_le L L' ∧ stored_in w' L' ∧
  ((w' = w ∧ logs_le L' L) ∨ ∃ new, server_step L w w' new ∧ logs_le L' (logs_app new L)).

Lemma call_grows k tr L w r x w' :
  server_ok w L → Forall (plausible L) tr → contract k tr r → answers L w r x w' →
  grown L w w' (record_answer r x (record_world w' L)).
Proof.
  intros Hs Htr Hr Ha. unfold grown. split; [|split].
  { eapply logs_le_trans; [apply logs_le_record|apply logs_le_answer]. }
  { eapply stored_in_mono; [apply stored_in_record|apply logs_le_answer]. }
  unfold answers in Ha. destruct (is_write r) eqn:Hw.
  2: { destruct Ha as [-> _]. left. rewrite read_answer by done. split; [done|by apply record_same]. }
  destruct Ha as [[-> Hf]|[-> Hx]].
  { left. destruct (failed_answer r x (record_world w L) L Hw Hf) as [-> _].
    split; [done|by apply record_same]. }
  right. destruct (handle_changed w r (server_all_keyed _ _ Hs) Hw) as [new Hch].
  pose proof (changed_server_step _ _ _ _ _ _ Hs Htr Hr Hch) as Hst. exists new. split; [done|].
  pose proof (record_step _ _ _ _ Hs Hst) as Hnew.
  destruct Hx as [->|Hf].
  - destruct Hnew as (?&?&?&?). destruct (changed_answer _ _ _ Hch) as (?&?&?&?).
    split_and!; apply list_subseteq_app_iff_l; (split; [|done]); by apply list_subseteq_app_l.
  - by destruct (failed_answer r x (record_world (handle w r).1 L) L Hw Hf) as [-> _].
Qed.

Lemma grown_ok L L' w w' : server_ok w L → grown L w w' L' → server_ok w' L'.
Proof.
  intros Hs (Hle & Hin & [[-> Hl]|(new & Hst & Hl)]).
  - by eapply server_same.
  - by eapply server_step_ok.
Qed.

Lemma call_plausible L w r x w' :
  server_ok w L → answers L w r x w' →
  plausible (record_answer r x (record_world w' L)) (Ev r x).
Proof.
  intros Hs. unfold answers. destruct (is_write r) eqn:Hw.
  - intros [[-> Hf]|[-> [->|Hf]]]; [by eapply failed_answer| |by eapply failed_answer].
    eapply plausible_mono; [|by eapply answer_plausible].
    apply record_answer_mono, logs_le_record.
  - intros [-> Hp]. rewrite read_answer by done.
    by eapply plausible_mono; [apply logs_le_record|].
Qed.

(** Users keep the order, too: they do not write the status, and the validation rules keep
    the UID of a Bucket's claim. *)
Lemma user_update_bucket_change w b :
  ∃ new, change bucket_le (λ _, True) (w_version w) (w_buckets w) (user_update_bucket w b) new.
Proof.
  unfold user_update_bucket. destruct (w_buckets w !! key_of b) as [old|] eqn:Hk;
    [|exists []; constructor].
  destruct (bucketSpec_transition _ _) eqn:Ht; [|exists []; constructor].
  eexists. eapply change_mono; [| |apply store_update_change]; [|done].
  intros old' new Hk' [_ ->]. rewrite key_of_updated in Hk'. simplify_eq.
  by apply bucketSpec_transition_UID in Ht.
Qed.

(** A step that changes one store. *)
Lemma step_with_claims L w m' new :
  change (claim_step L) (λ c, bound_name c = "") (w_version w) (w_claims w) m' new →
  ∃ new, server_step L w (with_claims m' w) new.
Proof.
  intros. exists {| log_claims := new; log_buckets := []; log_accesses := []; log_secrets := [] |}.
  split; try done; constructor.
Qed.
Lemma step_with_buckets L w m' new :
  change bucket_le (λ _, True) (w_version w) (w_buckets w) m' new →
  ∃ new, server_step L w (with_buckets m' w) new.
Proof.
  intros. exists {| log_claims := []; log_buckets := new; log_accesses := []; log_secrets := [] |}.
  split; try done; constructor.
Qed.
Lemma step_with_accesses L w m' new :
  change access_le (λ _, True) (w_version w) (w_accesses w) m' new →
  ∃ new, server_step L w (with_accesses m' w) new.
Proof.
  intros. exists {| log_claims := []; log_buckets := []; log_accesses := new; log_secrets := [] |}.
  split; try done; constructor.
Qed.
Lemma step_with_secrets L w m' new :
  change (λ _ _, True) (λ _, True) (w_version w) (w_secrets w) m' new →
  ∃ new, server_step L w (with_secrets m' w) new.
Proof.
  intros. exists {| log_claims := []; log_buckets := []; log_accesses := []; log_secrets := new |}.
  split; try done; constructor.
Qed.

Lemma claim_step_same L old new : bound_name new = bound_name old → claim_step L old new.
Proof. intros Hb. split; [by right|]. intros _. by left. Qed.

Ltac by_change H := eapply change_mono; [| |apply H]; [intros ? ? _|intros ?];
  cbn; try done; intuition (subst; try done).

Lemma user_server_step L w u :
  server_ok w L → ∃ new, server_step L w (user_act w u) new.
Proof.
  intros Hs. destruct (server_all_keyed _ _ Hs) as (Kc & Kb & Ka & Ks).
  destruct u as [c|c|c|b|b|b|a|a|a|s|s|s|now]; cbn [user_act].
  - eapply step_with_claims. by_change @store_create_change.
  - eapply step_with_claims. by_change @store_update_change. by apply claim_step_same.
  - destruct (store_delete_change (w_version w) _ Kc (w_now w) c) as [new Hd].
    eapply step_with_claims. by_change Hd. by apply claim_step_same.
  - eapply step_with_buckets. by_change @store_create_change.
  - destruct (user_update_bucket_change w b) as [new Hd]. by eapply step_with_buckets.
  - destruct (store_delete_change (w_version w) _ Kb (w_now w) b) as [new Hd].
    eapply step_with_buckets. by_change Hd. by right.
  - eapply step_with_accesses. by_change @store_create_change.
  - eapply step_with_accesses. by_change @store_update_change. by right.
  - destruct (store_delete_change (w_version w) _ Ka (w_now w) a) as [new Hd].
    eapply step_with_accesses. by_change Hd. by right.
  - eapply step_with_secrets. by_change @store_create_change.
  - eapply step_with_secrets. by_change @store_update_change.
  - destruct (store_delete_change (w_version w) _ Ks (w_now w) s) as [new Hd].
    eapply step_with_secrets. by_change Hd.
  - exists no_logs. split; try done; constructor.
Qed.

(** What a step of the cluster does to the server. *)
Lemma step_grows cl cl' :
  cluster_ok cl → step cl cl' →
  grown (cl_logs cl) (cl_world cl) (cl_world cl') (cl_logs cl').
Proof.
  intros [Hs Hp] Hst.
  assert (grown (cl_logs cl) (cl_world cl) (cl_world cl) (cl_logs cl)) as Hsame.
  { split; [by split_and!|]. split; [|left; split; [done|by split_and!]].
    destruct Hs. split_and!; by eapply history_versions. }
  destruct Hst as [k|ps1 ps2 k tr r f x w' Hprocs Hans|ps1 p ps2 Hprocs|u]; cbn; [done| |done|].
  - rewrite Hprocs, Forall_app, Forall_cons in Hp. destruct Hp as (_ & [[Hr _] Htr] & _).
    by eapply call_grows.
  - destruct (user_server_step _ _ u Hs) as [new Hst]. split; [apply logs_le_record|].
    split; [apply stored_in_record|]. right. exists new. split; [done|by eapply record_step].
Qed.

Lemma cluster_step_ok cl cl' : cluster_ok cl → step cl cl' → cluster_ok cl'.
Proof.
  intros Hok Hst. pose proof (step_grows _ _ Hok Hst) as Hg.
  destruct Hok as [Hs Hp]. split; [by eapply grown_ok|].
  destruct Hg as [Hle _].
  assert (∀ ps, Forall (proc_ok (cl_logs cl)) ps → Forall (proc_ok (cl_logs cl')) ps) as Hmono.
  { intros ps Hps. eapply Forall_impl; [exact Hps|]. intros p. by apply proc_ok_mono. }
  destruct Hst as [k|ps1 ps2 k tr r f x w' Hprocs Hans|ps1 p ps2 Hprocs|u]; cbn in *.
  - apply Forall_cons. split; [apply started_ok|done].
  - rewrite Hprocs, Forall_app, Forall_cons in Hp. destruct Hp as (Hp1 & [[Hr Hk] Htr] & Hp2).
    rewrite Forall_app, Forall_cons. split_and!; [auto| |auto].
    split; [by apply Hk|]. cbn. rewrite Forall_app, Forall_singleton.
    split; [|by eapply call_plausible].
    eapply Forall_impl; [exact Htr|]. intros ev. by apply plausible_mono.
  - rewrite Hprocs, Forall_app, Forall_cons in Hp. rewrite Forall_app. tauto.
  - by apply Hmono.
Qed.

Lemma initial_ok cl : initial cl → cluster_ok cl.
Proof.
  intros (Hc & Hb & Ha & Hs & HL & Hp). split; [|rewrite Hp; by apply Forall_nil].
  split; rewrite ?Hc, ?Hb, ?Ha, ?Hs, HL; try apply history_empty; try apply evolution_empty.
  by intros c ?%elem_of_nil.
Qed.

Lemma reachable_ok cl : reachable cl → cluster_ok cl.
Proof.
  intros (cl0 & H0 & Hsteps). apply initial_ok in H0.
  induction Hsteps; eauto using cluster_step_ok.
Qed.
