(* ===== verification/ClusterSafety.v ===== *)
(** * Safety of the cluster

    What holds in every reachable state of [Cluster], whatever the order of the steps: one
    Bucket serves one claim for its whole life, a bound name and the initialisation of an
    access are permanent, and a Secret that is not an access's own is left alone. A
    scheduler that takes the server's answers ([act]) gives concrete reachable states. *)

From stdpp Require Import base gmap strings list.
From S2P Require Import Prelude GoErrors ApiTypes ProtoTypes Effects ApiServer History Ownership.
From S2P Require Import Driver Cluster.
From S2P Require ClaimController AccessController SidecarBucket SidecarAccess.

(** ** A scheduler *)

Inductive action : Type :=
| Start (k : worker)
| Proceed (i : nat)
| End (i : nat)
| User (u : user_action).

(** The process [i] makes its next call and gets the server's answer. *)
Definition proceed (cl : Cluster) (i : nat) : Cluster :=
  match cl_procs cl !! i with
  | Some {| proc_worker := k; proc_trace := tr; proc_rest := Call r f |} =>
      let '(w', x) := handle (cl_world cl) r in
      {| cl_world := w'; cl_logs := record_answer r x (record_world w' (cl_logs cl));
         cl_procs := <[i := advanced k tr r f x]> (cl_procs cl) |}
  | _ => cl
  end.

Definition act (cl : Cluster) (a : action) : Cluster :=
  match a with
  | Start k => {| cl_world := cl_world cl; cl_logs := cl_logs cl;
                  cl_procs := started k :: cl_procs cl |}
  | Proceed i => proceed cl i
  | End i => {| cl_world := cl_world cl; cl_logs := cl_logs cl;
                cl_procs := delete i (cl_procs cl) |}
  | User u => {| cl_world := user_act (cl_world cl) u;
                 cl_logs := record_world (user_act (cl_world cl) u) (cl_logs cl);
                 cl_procs := cl_procs cl |}
  end.

Definition schedule (l : list action) (cl : Cluster) : Cluster := foldl act cl l.

(** The server's own answers are among the answers a step allows. *)
Lemma store_get_logged {A} `{ClientObject A} (v : N) (m : store A) (log : list A) k a :
  history_ok v m log → store_get m k = Ok a → a ∈ log ∧ key_of a = name_key k.
Proof.
  unfold store_get. intros Hh. destruct (m !! _) eqn:Hk; [|done]. intros [= ->]. split.
  - by eapply (stored_logged _ _ _ Hh).
  - by eapply (stored_key _ _ _ Hh).
Qed.

Lemma handle_answers L w r :
  server_ok w L → answers L w r (handle w r).2 (handle w r).1.
Proof.
  intros Hs. unfold answers. destruct (is_write r) eqn:Hw; [by right; eauto|].
  destruct r; try done; (split; [done|]); cbn; try done.
  - intros c. by eapply store_get_logged, claims_ok.
  - intros b. by eapply store_get_logged, buckets_ok.
  - intros a. by eapply store_get_logged, accesses_ok.
  - intros s. by eapply store_get_logged, secrets_ok.
  - intros l [= <-] a ([k a'] & -> & Hin)%list_elem_of_fmap.
    apply list_elem_of_In, filter_In in Hin as [Hin%list_elem_of_In%elem_of_map_to_list _].
    by eapply (stored_logged _ _ _ (accesses_ok _ _ Hs)).
Qed.

Lemma act_steps cl a : cluster_ok cl → rtc step cl (act cl a).
Proof.
  intros [Hs _]. destruct a as [k|i|i|u]; cbn [act].
  - apply rtc_once, step_start.
  - unfold proceed. destruct (cl_procs cl !! i) as [[k tr [res|r f]]|] eqn:Hi; [done| |done].
    pose proof (handle_answers _ _ r Hs) as Ha. destruct (handle (cl_world cl) r) as [w' x].
    apply rtc_once. rewrite insert_take_drop by (by eapply lookup_lt_Some).
    eapply step_call; [|exact Ha]. symmetry. by apply take_drop_middle.
  - destruct (cl_procs cl !! i) as [p|] eqn:Hi.
    + apply rtc_once. rewrite delete_take_drop. eapply step_end. symmetry. by apply take_drop_middle.
    + apply lookup_ge_None in Hi. rewrite delete_take_drop, take_ge, drop_ge, app_nil_r by lia.
      by destruct cl.
  - apply rtc_once, step_user.
Qed.

Lemma steps_ok cl cl' : cluster_ok cl → rtc step cl cl' → cluster_ok cl'.
Proof. intros Hok Hst. induction Hst; eauto using cluster_step_ok. Qed.

Lemma schedule_steps l cl : cluster_ok cl → rtc step cl (schedule l cl).
Proof.
  revert cl. induction l as [|a l IH]; intros cl Hok; [done|]. cbn.
  pose proof (act_steps cl a Hok) as Ha. etransitivity; [exact Ha|].
  apply IH. by eapply steps_ok.
Qed.

Lemma schedule_reachable l cl : initial cl → reachable (schedule l cl).
Proof. intros Hi. exists cl. split; [done|]. by apply schedule_steps, initial_ok. Qed.

(** ** A run

    A claim is provisioned, and an access to it is granted. *)

Definition demo_empty : Cluster :=
  {| cl_world := demo_world [] [] [] []; cl_logs := no_logs; cl_procs := [] |}.

Lemma demo_empty_initial : initial demo_empty.
Proof. done. Qed.

(** One reconcile, of [n] calls at most. *)
Definition reconcile_with (k : worker) (n : nat) : list action :=
  Start k :: replicate n (Proceed 0) ++ [End 0].

Definition demo_provisioning : list action :=
  [User (UserCreateClaim demo_claim)] ++
  reconcile_with (ClaimWorker demo_claim_key) 10 ++
  reconcile_with (BucketSidecar demo_driver_info (global "bc-uid-100")) 10 ++
  reconcile_with (ClaimWorker demo_claim_key) 10.

Definition demo_initialization : list action :=
  [User (UserCreateAccess demo_access)] ++
  reconcile_with (AccessWorker demo_access_key) 20.

Definition demo_granting : list action :=
  reconcile_with (AccessSidecar demo_driver_info demo_access_key) 20.

Definition demo_provisioned : Cluster := schedule demo_provisioning demo_empty.
Definition demo_initialized : Cluster := schedule demo_initialization demo_provisioned.
Definition demo_granted : Cluster := schedule demo_granting demo_initialized.

Lemma demo_provisioned_reachable : reachable demo_provisioned.
Proof. apply schedule_reachable, demo_empty_initial. Qed.

Lemma schedule_later l cl : reachable cl → rtc step cl (schedule l cl) ∧ reachable (schedule l cl).
Proof.
  intros Hr. pose proof (schedule_steps l cl (reachable_ok _ Hr)) as Hst. split; [done|].
  destruct Hr as (cl0 & ? & ?). exists cl0. split; [done|]. by etransitivity.
Qed.

Lemma demo_initialized_reachable : reachable demo_initialized.
Proof. apply schedule_later, demo_provisioned_reachable. Qed.
Lemma demo_granted_later : rtc step demo_provisioned demo_granted.
Proof.
  transitivity demo_initialized; apply schedule_later;
    [apply demo_provisioned_reachable|apply demo_initialized_reachable].
Qed.

Definition claim_at (cl : Cluster) (k : string * string) : BucketClaim :=
  default demo_claim (w_claims (cl_world cl) !! k).
Definition access_at (cl : Cluster) (k : string * string) : BucketAccess :=
  default demo_access (w_accesses (cl_world cl) !! k).

(** ** Binding *)

(** C1: A Bucket serves one claim. In every reachable state, a claim that was ever stored as
    bound was bound to a Bucket of the recorded name that refers to the claim; no other
    claim is ever bound to that Bucket object, in none of its versions, and as long as the
    object exists it belongs to the claim. This holds for every order in which the
    reconcilers, several Controllers among them, the users and the administrators act, for
    stale reads, and for writes whose answer was lost. *)
Theorem bucket_serves_one_claim cl c :
  reachable cl → c ∈ log_claims (cl_logs cl) → bound_name c ≠ "" →
  ∃ b, b ∈ log_buckets (cl_logs cl) ∧ key_of b = ("", bound_name c) ∧
    ClaimController.bound_to b c ∧
    (∀ b' c', b' ∈ log_buckets (cl_logs cl) → GetUID b' = GetUID b →
       c' ∈ log_claims (cl_logs cl) → ClaimController.bound_to b' c' →
       GetUID c' = GetUID c ∧ key_of c' = key_of c) ∧
    (∀ k b', w_buckets (cl_world cl) !! k = Some b' → GetUID b' = GetUID b →
       ClaimController.ref_UID b' = GetUID c).
Proof.
  intros [Hs _]%reachable_ok Hin Hbn.
  destruct (claims_evident _ _ Hs c Hin Hbn) as (b & Hb & Hk & Hbt). exists b.
  destruct (buckets_evolve _ _ Hs) as [Hlater Hchain].
  destruct Hbt as (Hrt & Hne & Huid). split_and!; [done..| |].
  - intros b' c' Hb' Hu Hc' (_ & Hne' & Huid').
    assert (GetUID c' = GetUID c) as Heq.
    { rewrite <-Huid', <-Huid. destruct (Hchain b b' Hb Hb' (eq_sym Hu)) as [[?|?]|[?|?]]; congruence. }
    split; [done|]. by apply (uid_key _ _ _ (claims_ok _ _ Hs)).
  - intros k b' Hb' Hu. destruct (Hlater b k b' Hb Hb' (eq_sym Hu)) as [?|?]; congruence.
Qed.

Lemma bucket_serves_one_claim_witness :
  ∃ b, b ∈ log_buckets (cl_logs demo_provisioned) ∧ key_of b = ("", "bc-uid-100") ∧
    ClaimController.bound_to b (claim_at demo_provisioned ("app", "data")).
Proof.
  destruct (bucket_serves_one_claim demo_provisioned (claim_at demo_provisioned ("app", "data"))
    demo_provisioned_reachable) as (b & H1 & H2 & H3 & _).
  - apply (list_elem_of_lookup_2 _ 0). vm_compute. reflexivity.
  - vm_compute. discriminate.
  - exists b. split; [exact H1|]. split; [|exact H3]. rewrite H2. vm_compute. reflexivity.
Defined.

(** The log of a later state is larger. *)
Lemma step_logs cl cl' : step cl cl' → logs_le (cl_logs cl) (cl_logs cl').
Proof.
  intros []; cbn; try (split_and!; done).
  - eapply logs_le_trans; [apply logs_le_record|apply logs_le_answer].
  - apply logs_le_record.
Qed.

Lemma steps_logs cl cl' : rtc step cl cl' → logs_le (cl_logs cl) (cl_logs cl').
Proof. induction 1; [by split_and!|]. eapply logs_le_trans; [by apply step_logs|done]. Qed.

Lemma reachable_steps cl cl' :
  reachable cl → rtc step cl cl' →
  logs_le (cl_logs cl) (cl_logs cl') ∧ server_ok (cl_world cl') (cl_logs cl').
Proof.
  intros Hok%reachable_ok Hst. split; [by apply steps_logs|]. by eapply steps_ok in Hst as [].
Qed.

(** C4: A bound name is permanent. Once any version of a claim records the name of its
    Bucket, the stored claim of that identity records the same name in every later state,
    whoever writes to it. *)
Theorem bound_name_is_permanent cl cl' c k c' :
  reachable cl → c ∈ log_claims (cl_logs cl) → bound_name c ≠ "" →
  rtc step cl cl' → w_claims (cl_world cl') !! k = Some c' → GetUID c' = GetUID c →
  bound_name c' = bound_name c.
Proof.
  intros Hr Hin Hbn Hst Hk Hu. destruct (reachable_steps _ _ Hr Hst) as [(Hle & _) Hs].
  destruct (claims_evolve _ _ Hs) as [Hlater _].
  by destruct (Hlater c k c' (Hle _ Hin) Hk (eq_sym Hu)).
Qed.

Lemma bound_name_is_permanent_witness :
  bound_name (claim_at demo_granted ("app", "data")) = "bc-uid-100".
Proof.
  apply (bound_name_is_permanent demo_provisioned demo_granted
    (claim_at demo_provisioned ("app", "data")) ("app", "data")).
  - apply demo_provisioned_reachable.
  - apply (list_elem_of_lookup_2 _ 0). vm_compute. reflexivity.
  - vm_compute. discriminate.
  - apply demo_granted_later.
  - vm_compute. reflexivity.
  - vm_compute. reflexivity.
Defined.

(** ** Initialisation *)

(** C5: The initialisation of an access is permanent. Once a version of an access records the
    driver, the stored access of that identity has the same driver, authentication type,
    parameters and accessed buckets in every later state, although the Controller and the
    Sidecar both write its status. *)
Theorem initialization_is_permanent cl cl' a k a' :
  reachable cl → a ∈ log_accesses (cl_logs cl) → accessStatus_DriverName (access_Status a) ≠ "" →
  rtc step cl cl' → w_accesses (cl_world cl') !! k = Some a' → GetUID a' = GetUID a →
  same_initialization (access_Status a') (access_Status a).
Proof.
  intros Hr Hin Hd Hst Hk Hu. destruct (reachable_steps _ _ Hr Hst) as [(_ & _ & Hle & _) Hs].
  destruct (accesses_evolve _ _ Hs) as [Hlater _].
  by destruct (Hlater a k a' (Hle _ Hin) Hk (eq_sym Hu)).
Qed.

Lemma initialization_is_permanent_witness :
  same_initialization (access_Status (access_at demo_granted ("app", "acc")))
    (access_Status (access_at demo_initialized ("app", "acc"))).
Proof.
  apply (initialization_is_permanent demo_initialized demo_granted _ ("app", "acc")).
  - apply demo_initialized_reachable.
  - apply (list_elem_of_lookup_2 _ 0). vm_compute. reflexivity.
  - vm_compute. discriminate.
  - apply schedule_later, demo_initialized_reachable.
  - vm_compute. reflexivity.
  - vm_compute. reflexivity.
Defined.

(** ** Secrets *)

Section secrets.
Context (L : Logs) (w : World) (tr : list event).
Context (Hserver : server_ok w L) (Htr : Forall (plausible L) tr).
Context (d : DriverInfo) (key : NamespacedName).

Lemma secret_read k (s : Secret) :
  Ev (GetSecret k) (Ok s) ∈ tr → s ∈ log_secrets L ∧ key_of s = name_key k.
Proof. intros H%(event_plausible L _ Htr). by apply H. Qed.

Lemma controlled_same (s s' : Secret) (a : BucketAccess) :
  meta_OwnerReferences (GetMeta s') = meta_OwnerReferences (GetMeta s) →
  IsControlledBy s a = true → IsControlledBy s' a = true.
Proof. unfold IsControlledBy, GetControllerOf. by intros ->. Qed.

Lemma required_metadata_same s :
  rv (SidecarAccess.setAccessSecretRequiredMetadata s) = rv s ∧
  key_of (SidecarAccess.setAccessSecretRequiredMetadata s) = key_of s ∧
  meta_OwnerReferences (GetMeta (SidecarAccess.setAccessSecretRequiredMetadata s)) =
    meta_OwnerReferences (GetMeta s).
Proof. unfold SidecarAccess.setAccessSecretRequiredMetadata, AddFinalizer. by case_match. Qed.

Lemma new_secret_controlled n a : IsControlledBy (SidecarAccess.newOwnedAccessSecret n a) a = true.
Proof. cbn. apply String.eqb_refl. Qed.

(** A Secret that the Sidecar holds for the access is, in its version of the log, the
    access's own. *)
Lemma held_controlled a n s :
  SidecarAccess.held tr a n s →
  IsControlledBy s a = true ∧ ∃ s1, s1 ∈ log_secrets L ∧ rv s = rv s1 ∧ IsControlledBy s1 a = true.
Proof.
  assert (∀ s s', s' ∈ log_secrets L → IsControlledBy s a = true →
    meta_OwnerReferences (GetMeta s') = meta_OwnerReferences (GetMeta s) →
    IsControlledBy s' a = true ∧
    ∃ s1, s1 ∈ log_secrets L ∧ rv s' = rv s1 ∧ IsControlledBy s1 a = true) as Hown.
  { intros s1 s' Hin Ho Href. assert (IsControlledBy s' a = true) by (by apply (controlled_same s1)).
    split; [done|]. by exists s'. }
  induction 1 as [s Hs|s data _ IH|s data s' _ [IH _] Hu].
  - destruct Hs as [Hc|(s0 & Hg & Ho & Hu)].
    + apply (event_plausible L _ Htr) in Hc. cbn in Hc. destruct (Hc _ eq_refl) as (Hin & _ & Href).
      by apply (Hown (SidecarAccess.newOwnedAccessSecret n a)); [|apply new_secret_controlled|].
    + apply (event_plausible L _ Htr) in Hu. cbn in Hu. destruct (Hu _ eq_refl) as (Hin & _ & Href).
      apply (Hown s0); [done..|]. etransitivity; [exact Href|apply required_metadata_same].
  - exact IH.
  - apply (event_plausible L _ Htr) in Hu. cbn in Hu. destruct (Hu _ eq_refl) as (Hin & _ & Href).
    by apply (Hown s).
Qed.

(** The access of a process is a version of the one it reconciles. *)
Lemma protected_logged a :
  SidecarAccess.protected d key tr a → a ∈ log_accesses L ∧ key_of a = name_key key.
Proof.
  intros (a0 & [Hr _] & Ha). apply (event_plausible L _ Htr) in Hr. cbn in Hr.
  destruct (Hr _ eq_refl) as [Hin0 Hk0]. destruct Ha as [[-> _]|Hu]; [done|].
  apply (event_plausible L _ Htr) in Hu. cbn in Hu. destruct (Hu _ eq_refl) as (Hin & Hk & _).
  split; [done|]. rewrite Hk, <-Hk0. unfold AddFinalizer. by case_match.
Qed.
Lemma begun_logged a :
  SidecarAccess.begun d key tr a → a ∈ log_accesses L ∧ key_of a = name_key key.
Proof.
  intros (a0 & [Hr _] & Hu). apply (event_plausible L _ Htr) in Hr, Hu. cbn in Hr, Hu.
  destruct (Hr _ eq_refl) as [_ Hk0]. destruct (Hu _ eq_refl) as [Hin Hk].
  split; [done|]. by rewrite Hk, <-Hk0.
Qed.

(** [s] is a version of a Secret of the access that the process reconciles. *)
Definition own_secret (s : Secret) : Prop :=
  s ∈ log_secrets L ∧
  ∃ a, a ∈ log_accesses L ∧ key_of a = name_key key ∧ IsControlledBy s a = true.

Lemma secret_update_own s :
  SidecarAccess.access_contract d key tr (UpdateSecret s) →
  ∃ s0, own_secret s0 ∧ rv s = rv s0.
Proof.
  intros [(a & n & s0 & [Hin Hk]%protected_logged & _ & Hg & Ho & ->)|[Hf|Hs]].
  - exists s0. apply secret_read in Hg as [Hin0 _]. split; [|apply required_metadata_same].
    split; eauto.
  - destruct Hf as (a & cfg & order & x & id & c & s0 & data & [Hp _] & _ & _ & Hh & _ & ->).
    apply protected_logged in Hp as [Hin Hk].
    apply held_controlled in Hh as (_ & s1 & Hin1 & Hrv & Ho). exists s1. split; [|done].
    split; eauto.
  - destruct Hs as (a & n & s0 & [Hin Hk]%begun_logged & _ & Hg & Ho & ->).
    exists s0. apply secret_read in Hg as [Hin0 _]. split; [|apply rv_RemoveFinalizer].
    split; eauto.
Qed.

Lemma secret_delete_own s :
  SidecarAccess.access_contract d key tr (DeleteSecret s) → own_secret s.
Proof.
  intros (s' & (a & n & s0 & [Hin Hk]%begun_logged & _ & Hg & Ho & ->) & Hu).
  apply (event_plausible L _ Htr) in Hu. cbn in Hu. destruct (Hu _ eq_refl) as (Hin' & _ & Href).
  split; [done|]. exists a. split_and!; [done..|]. by eapply controlled_same.
Qed.
End secrets.

(** A process of the worker [k] makes the call [r], gets the answer [x], and leaves the
    server in the state [w']. *)
Definition makes_call (cl : Cluster) (k : worker) (r : req) (x : resp r) (w' : World) : Prop :=
  ∃ ps1 ps2 tr f,
    cl_procs cl = ps1 ++ {| proc_worker := k; proc_trace := tr; proc_rest := Call r f |} :: ps2 ∧
    answers (cl_logs cl) (cl_world cl) r x w'.

(** The worker and the next call of the process [i]. *)
Definition next_call (cl : Cluster) (i : nat) : option (worker * req) :=
  match cl_procs cl !! i with
  | Some {| proc_worker := k; proc_rest := Call r _ |} => Some (k, r)
  | _ => None
  end.

Lemma next_call_makes cl i k r :
  reachable cl → next_call cl i = Some (k, r) →
  makes_call cl k r (handle (cl_world cl) r).2 (handle (cl_world cl) r).1.
Proof.
  unfold next_call. intros [Hs _]%reachable_ok.
  destruct (cl_procs cl !! i) as [[k' tr [res|r' f]]|] eqn:Hi; try done. intros [= -> ->].
  exists (take i (cl_procs cl)), (drop (S i) (cl_procs cl)), tr, f.
  split; [symmetry; by apply take_drop_middle|by apply handle_answers].
Qed.

Lemma makes_call_contract cl k r x w' :
  reachable cl → makes_call cl k r x w' →
  server_ok (cl_world cl) (cl_logs cl) ∧
  ∃ tr, Forall (plausible (cl_logs cl)) tr ∧ contract k tr r.
Proof.
  intros [Hs Hp]%reachable_ok (ps1 & ps2 & tr & f & Hprocs & _). split; [done|].
  rewrite Hprocs, Forall_app, Forall_cons in Hp. destruct Hp as (_ & [[Hr _] Htr] & _).
  by exists tr.
Qed.

(** A call that changes a stored Secret is an update or a deletion of it. *)
Lemma secret_changed cl k r x w' key s :
  reachable cl → makes_call cl k r x w' →
  w_secrets (cl_world cl) !! key = Some s → w_secrets w' !! key ≠ Some s →
  (∃ s', r = UpdateSecret s' ∧ rv s' = rv s) ∨ (∃ s', r = DeleteSecret s' ∧ key_of s' = key).
Proof.
  intros Hr Hm Hk Hne. destruct (makes_call_contract _ _ _ _ _ Hr Hm) as [Hs _].
  destruct Hm as (_ & _ & _ & _ & _ & Ha). unfold answers in Ha.
  destruct (is_write r) eqn:Hw; [|by destruct Ha as [-> _]].
  destruct Ha as [[-> _]|[-> _]]; [done|].
  destruct (handle_changed _ r (server_all_keyed _ _ Hs) Hw) as [new [_ _ _ Hch _ _]].
  revert Hne. destruct Hch as [|old a Hold _ _ Hwr|a Hnone _ _ _]; [done| |].
  - intros Hne. destruct (decide (key = key_of a)) as [->|Hn].
    2: { destruct Hne. unfold store_put. case_match; [by rewrite lookup_delete_ne|by rewrite lookup_insert_ne]. }
    assert (old = s) as -> by congruence.
    destruct r; try done; destruct Hwr as [H1 ->]; [left; by eauto|right].
    eexists. split; [done|]. by rewrite <-H1, key_of_deleted.
  - intros Hne. destruct Hne. rewrite lookup_insert_ne; [done|]. intros <-. congruence.
Qed.

(** C3: Secrets that are not COSI's are left alone. When a call of any reconciler changes or
    removes a stored Secret, the caller is a Sidecar that reconciles an access, and the
    stored Secret is controlled by that access. For a deletion, which carries no version,
    what is controlled by the access is the version that the Sidecar stripped of its
    finalizer before, under the same name. *)
Theorem foreign_secrets_left_alone cl k r x w' key s :
  reachable cl → makes_call cl k r x w' →
  w_secrets (cl_world cl) !! key = Some s → w_secrets w' !! key ≠ Some s →
  ∃ d access_key s0, k = AccessSidecar d access_key ∧ own_secret (cl_logs cl) access_key s0 ∧
    key_of s0 = key ∧ (s0 = s ∨ r = DeleteSecret s0).
Proof.
  intros Hr Hm Hk Hne. destruct (makes_call_contract _ _ _ _ _ Hr Hm) as (Hs & tr & Htr & Hc).
  assert (key_of s = key) as Hkey by (by eapply (stored_key _ _ _ (secrets_ok _ _ Hs))).
  destruct (secret_changed _ _ _ _ _ _ _ Hr Hm Hk Hne) as [(s' & -> & Hrv)|(s' & -> & Hk')];
    destruct k as [| | |d ak]; try done.
  - destruct (secret_update_own _ _ Htr _ _ _ Hc) as (s0 & Hown & Hrv0).
    assert (s = s0) as ->.
    { eapply current_version; [apply Hs|exact Hk|apply Hown|congruence]. }
    exists d, ak, s0. auto.
  - exists d, ak, s'. split_and!; [done| |done|by right]. by eapply secret_delete_own.
Qed.

(** The Sidecar about to fill the Secret it has reserved. *)
Definition demo_filling : Cluster :=
  schedule (Start (AccessSidecar demo_driver_info demo_access_key) :: replicate 9 (Proceed 0))
    demo_initialized.

Definition demo_filled : Secret :=
  match next_call demo_filling 0 with
  | Some (_, UpdateSecret s) => s
  | _ => SidecarAccess.newOwnedAccessSecret "" demo_access
  end.
Definition demo_reserved : Secret :=
  default demo_filled (w_secrets (cl_world demo_filling) !! ("app", "data-secret")).

Lemma demo_filling_reachable : reachable demo_filling.
Proof. apply schedule_later, demo_initialized_reachable. Qed.

Lemma foreign_secrets_left_alone_witness :
  ∃ s0, own_secret (cl_logs demo_filling) demo_access_key s0 ∧
    key_of s0 = ("app", "data-secret").
Proof.
  destruct (foreign_secrets_left_alone demo_filling _ (UpdateSecret demo_filled) _ _
    ("app", "data-secret") demo_reserved demo_filling_reachable
    (next_call_makes _ 0 (AccessSidecar demo_driver_info demo_access_key) _
       demo_filling_reachable ltac:(vm_compute; reflexivity)))
    as (d & ak & s0 & Hk & Hown & Hkey & _).
  - vm_compute. reflexivity.
  - vm_compute. discriminate.
  - injection Hk as _ <-. exists s0. split; [exact Hown|exact Hkey].
Defined.

(** ** A deletion that meets another object

    The reconcilers delete by name: [client.Delete] gets no precondition on the UID or the
    version. Between the update that marks the Bucket and its deletion, an administrator
    may replace the Bucket by one of the same name for another claim. *)

Definition bucket_at (cl : Cluster) (k : string * string) : Bucket :=
  default demo_bucket (w_buckets (cl_world cl) !! k).

Definition demo_other_bucket : Bucket := {|
  bucket_ObjectMeta := demo_meta "" "bc-uid-100" "";
  bucket_Spec := {| bucketSpec_DriverName := demo_driver_name;
    bucketSpec_DeletionPolicy := BucketDeletionPolicyRetain;
    bucketSpec_Parameters := ∅; bucketSpec_Protocols := [];
    bucketSpec_BucketClaimRef := {| claimRef_Name := "other"; claimRef_Namespace := "app";
                                    claimRef_UID := "" |};
    bucketSpec_ExistingBucketID := "backend-archive" |};
  bucket_Status := empty_BucketStatus |}.

(** The Controller is about to delete the Bucket of the deleted claim. *)
Definition demo_about_to_delete : Cluster :=
  schedule ([User (UserDeleteClaim demo_claim); Start (ClaimWorker demo_claim_key)] ++
            replicate 4 (Proceed 0)) demo_provisioned.
Definition demo_replaced : Cluster :=
  schedule [User (UserUpdateBucket (SetFinalizers [] (bucket_at demo_about_to_delete ("", "bc-uid-100"))));
            User (UserDeleteBucket (bucket_at demo_about_to_delete ("", "bc-uid-100")));
            User (UserCreateBucket demo_other_bucket)] demo_about_to_delete.

Example replaced_bucket_deleted :
  bucketSpec_BucketClaimRef (bucket_Spec (bucket_at demo_replaced ("", "bc-uid-100"))) =
    {| claimRef_Name := "other"; claimRef_Namespace := "app"; claimRef_UID := "" |} ∧
  is_Some (w_buckets (cl_world demo_replaced) !! ("", "bc-uid-100")) ∧
  w_buckets (cl_world (schedule [Proceed 0] demo_replaced)) !! ("", "bc-uid-100") = None.
Proof. vm_compute. split_and!; [done|eauto|done]. Qed.
