(* ===== verification/Registry.v ===== *)
(** * The cluster as a registry of owned buckets

    The contract of binding, without versions, caches, finalizers and processes: a registry
    of Bucket objects in which an object may be added, may get an owner once, and may be
    removed. [registry] reads the registry off a state of the cluster, and every step of
    the cluster is a sequence of steps of the registry, mostly an empty one. *)

From stdpp Require Import base gmap strings list.
From S2P Require Import Prelude GoErrors ApiTypes ProtoTypes Effects ApiServer History Cluster.
From S2P Require Import ClusterSafety.
From S2P Require Import ClaimController.

(** ** The specification *)

Record Registry : Type := {
  reg_known : gset string;          (* every Bucket UID there ever was *)
  reg_live : gset string;           (* those that exist *)
  reg_owner : gmap string string    (* the claim UID of those that are bound *)
}.

Inductive reg_step (R : Registry) : Registry → Prop :=
| reg_add u :
    u ∉ reg_known R →
    reg_step R {| reg_known := {[u]} ∪ reg_known R; reg_live := {[u]} ∪ reg_live R;
                  reg_owner := reg_owner R |}
| reg_bind u c :
    u ∈ reg_live R → reg_owner R !! u = None → c ≠ "" →
    reg_step R {| reg_known := reg_known R; reg_live := reg_live R;
                  reg_owner := <[u := c]> (reg_owner R) |}
| reg_remove u :
    u ∈ reg_live R →
    reg_step R {| reg_known := reg_known R; reg_live := reg_live R ∖ {[u]};
                  reg_owner := reg_owner R |}.

(** What the specification gives: owners are for ever, and a removed object does not come
    back. *)
Lemma registry_owner_permanent R R' u c :
  rtc reg_step R R' → reg_owner R !! u = Some c → reg_owner R' !! u = Some c.
Proof.
  induction 1 as [|R R1 R' Hs _ IH]; [done|]. intros Hu. apply IH.
  destruct Hs as [|u' c' _ Hn _|]; cbn; [done| |done].
  rewrite lookup_insert_ne; [done|congruence].
Qed.

Lemma registry_removed_gone R R' u :
  rtc reg_step R R' → u ∈ reg_known R → u ∉ reg_live R → u ∉ reg_live R'.
Proof.
  intros Hst Hk Hl. assert (u ∈ reg_known R' ∧ u ∉ reg_live R') as [_ ?]; [|done].
  induction Hst as [|R R1 R' Hs _ IH]; [done|]. apply IH; destruct Hs; set_solver.
Qed.

(** ** The abstraction *)

Definition owner_entry (b : Bucket) : option (string * string) :=
  if ref_UID b =s "" then None else Some (GetUID b, ref_UID b).

Definition registry_of (m : store Bucket) (log : list Bucket) : Registry := {|
  reg_known := list_to_set (GetUID <$> log);
  reg_live := list_to_set (GetUID <$> versions m);
  reg_owner := list_to_map (omap owner_entry log) |}.

Definition registry (cl : Cluster) : Registry :=
  registry_of (w_buckets (cl_world cl)) (log_buckets (cl_logs cl)).

Section abstraction.
Context (v : N) (m : store Bucket) (log : list Bucket).
Context (Hh : history_ok v m log) (He : evolution bucket_le m log).

Lemma elem_of_known u : u ∈ reg_known (registry_of m log) ↔ ∃ b, b ∈ log ∧ GetUID b = u.
Proof.
  cbn. rewrite elem_of_list_to_set, list_elem_of_fmap. split; intros (b & ? & ?); eauto.
Qed.

Lemma elem_of_live u :
  u ∈ reg_live (registry_of m log) ↔ ∃ k b, m !! k = Some b ∧ GetUID b = u.
Proof.
  cbn. rewrite elem_of_list_to_set, list_elem_of_fmap. setoid_rewrite elem_of_versions.
  split; [intros (b & ? & k & ?)|intros (k & b & ? & ?)]; eauto.
Qed.

Lemma elem_of_owners u c :
  (u, c) ∈ omap owner_entry log ↔ c ≠ "" ∧ ∃ b, b ∈ log ∧ GetUID b = u ∧ ref_UID b = c.
Proof.
  rewrite list_elem_of_omap. unfold owner_entry. split.
  - intros (b & Hb & Ho). destruct (_ =s "") eqn:E; [done|]. reflect_bools.
    injection Ho as <- <-. eauto.
  - intros (Hc & b & Hb & <- & <-). exists b. split; [done|].
    destruct (_ =s "") eqn:E; [|done]. by reflect_bools.
Qed.

Lemma lookup_owner u c :
  reg_owner (registry_of m log) !! u = Some c ↔
  c ≠ "" ∧ ∃ b, b ∈ log ∧ GetUID b = u ∧ ref_UID b = c.
Proof.
  rewrite <-elem_of_owners. split; [apply elem_of_list_to_map_2|].
  intros Hin. apply elem_of_list_to_map_1'; [|done].
  apply elem_of_owners in Hin as (Hc & b & Hb & Hu & Hr).
  intros c' (Hc' & b' & Hb' & Hu' & Hr')%elem_of_owners.
  destruct He as [_ Hchain]. destruct (Hchain b b' Hb Hb') as [[?|?]|[?|?]]; congruence.
Qed.
End abstraction.

Lemma registry_eq R R' :
  (∀ u, u ∈ reg_known R ↔ u ∈ reg_known R') → (∀ u, u ∈ reg_live R ↔ u ∈ reg_live R') →
  (∀ u c, reg_owner R !! u = Some c ↔ reg_owner R' !! u = Some c) → R = R'.
Proof.
  destruct R, R'; cbn. intros Hk%set_eq Hl%set_eq Ho. f_equal; [done..|].
  apply map_eq. intros u. apply option_eq. intros c. apply Ho.
Qed.

(** ** Refinement *)

Section refinement.
Context (v : N) (m m' : store Bucket) (log log' : list Bucket).
Context (Hh : history_ok v m log) (He : evolution bucket_le m log).
Context (Hh' : history_ok (v + 1) m' log') (He' : evolution bucket_le m' log').
Context (Hle : log ⊆ log').

Lemma live_uid_key k1 b1 k2 b2 :
  m !! k1 = Some b1 → m !! k2 = Some b2 → GetUID b1 = GetUID b2 → k1 = k2.
Proof.
  intros H1 H2 Hu. rewrite <-(stored_key _ _ _ Hh _ _ H1), <-(stored_key _ _ _ Hh _ _ H2).
  apply (uid_key _ _ _ Hh); [by eapply (stored_logged _ _ _ Hh)..|done].
Qed.

(** An owner that the log knows of stays; only the written object can get one. *)
Lemma owner_kept u c :
  reg_owner (registry_of m log) !! u = Some c → reg_owner (registry_of m' log') !! u = Some c.
Proof.
  rewrite !lookup_owner by done. intros (Hc & b & Hb & ?). split; [done|]. exists b. auto.
Qed.

Lemma owner_new a u c :
  log' ⊆ a :: log → u ≠ GetUID a →
  reg_owner (registry_of m' log') !! u = Some c → reg_owner (registry_of m log) !! u = Some c.
Proof.
  intros Hl Hu. rewrite !lookup_owner by done. intros (Hc & b & Hb & Hbu & Hr).
  split; [done|]. exists b. apply Hl, elem_of_cons in Hb as [->|?]; [|done]. congruence.
Qed.

(** The registry gets the owner of the written object, if it is new. *)
Lemma bind_steps a R :
  log' ⊆ a :: log → GetUID a ∈ reg_live R → reg_owner R = reg_owner (registry_of m log) →
  rtc reg_step R {| reg_known := reg_known R; reg_live := reg_live R;
                    reg_owner := reg_owner (registry_of m' log') |}.
Proof.
  intros Hl Hlive Ho. set (o := reg_owner (registry_of m log)) in *.
  set (o' := reg_owner (registry_of m' log')).
  destruct (o !! GetUID a) as [c|] eqn:E1; [|destruct (o' !! GetUID a) as [c|] eqn:E2].
  - assert (o' = o) as ->; [|rewrite <-Ho; by destruct R].
    apply map_eq. intros u. apply option_eq. intros c'.
    destruct (decide (u = GetUID a)) as [->|Hn].
    + pose proof (owner_kept _ _ E1) as E. fold o' in E. by rewrite E, E1.
    + split; [by eapply owner_new|apply owner_kept].
  - assert (c ≠ "") as Hc by (by apply (lookup_owner _ _ He') in E2 as [? _]).
    apply rtc_once. assert (o' = <[GetUID a := c]> (reg_owner R)) as ->.
    { rewrite Ho. apply map_eq. intros u. apply option_eq. intros c'.
      destruct (decide (u = GetUID a)) as [->|Hn]; [by rewrite lookup_insert_eq, E2|].
      rewrite lookup_insert_ne by done. split; [by eapply owner_new|apply owner_kept]. }
    apply reg_bind; [done|by rewrite Ho|done].
  - assert (o' = o) as ->; [|rewrite <-Ho; by destruct R].
    apply map_eq. intros u. apply option_eq. intros c'.
    destruct (decide (u = GetUID a)) as [->|Hn]; [by rewrite E1, E2|].
    split; [by eapply owner_new|apply owner_kept].
Qed.

Lemma known_grows a :
  a ∈ log' → log' ⊆ a :: log →
  ∀ u, u ∈ reg_known (registry_of m' log') ↔ u = GetUID a ∨ u ∈ reg_known (registry_of m log).
Proof.
  intros Ha Hl u. rewrite !elem_of_known. split.
  - intros (b & [->|Hb]%Hl%elem_of_cons & <-); eauto.
  - intros [->|(b & Hb & <-)]; eauto.
Qed.
End refinement.

Section refinement_step.
Context (v : N) (m : store Bucket) (log log' : list Bucket).
Context (Hh : history_ok v m log) (He : evolution bucket_le m log) (Hle : log ⊆ log').

(** A write: the object may get its owner, and may go. *)
Lemma registry_write old a :
  m !! key_of a = Some old → GetUID a = GetUID old → log' ⊆ a :: log →
  history_ok (v + 1) (store_put m a) log' → evolution bucket_le (store_put m a) log' →
  rtc reg_step (registry_of m log) (registry_of (store_put m a) log').
Proof.
  intros Hk Hu Hl Hh' He'.
  assert (GetUID a ∈ reg_live (registry_of m log)) as Hlive by (apply elem_of_live; eauto).
  assert (∀ u, u ∈ reg_known (registry_of m log) ↔ u ∈ reg_known (registry_of (store_put m a) log'))
    as Hknown.
  { intros u. rewrite !elem_of_known. split; intros (b & Hb & <-).
    - eauto.
    - apply Hl, elem_of_cons in Hb as [->|Hb]; [|by eauto]. rewrite Hu.
      exists old. split; [by eapply (stored_logged _ _ _ Hh)|done]. }
  etransitivity; [apply (bind_steps m (store_put m a) log log' He He' Hle a); done|].
  set (R := Build_Registry _ _ _).
  destruct (IsDeleting a && (length (GetFinalizers a) =? 0)) eqn:Hgone.
  - apply rtc_once. assert (registry_of (store_put m a) log' =
      {| reg_known := reg_known R; reg_live := reg_live R ∖ {[GetUID a]}; reg_owner := reg_owner R |}) as ->;
      [|by apply reg_remove].
    apply registry_eq; cbn [reg_known reg_live reg_owner R]; [by intros u; rewrite <-Hknown| |done].
    intros u. rewrite elem_of_difference, elem_of_singleton, !elem_of_live.
    unfold store_put. rewrite Hgone. setoid_rewrite lookup_delete_Some. split.
    + intros (k & b & [Hn Hb] & <-). split; [by eauto|]. intros Hbu. destruct Hn.
      eapply (live_uid_key _ m); [done..|congruence].
    + intros [(k & b & Hb & <-) Hn]. exists k, b. split; [split; [|done]|done].
      intros <-. destruct Hn. congruence.
  - assert (registry_of (store_put m a) log' = R) as ->; [|done].
    apply registry_eq; cbn [reg_known reg_live reg_owner R]; [by intros u; rewrite <-Hknown| |done].
    intros u. rewrite !elem_of_live. unfold store_put. rewrite Hgone.
    setoid_rewrite lookup_insert_Some. split.
    + intros (k & b & [[<- <-]|[_ Hb]] & <-); eauto.
    + intros (k & b & Hb & <-). destruct (decide (k = key_of a)) as [->|Hn].
      * exists (key_of a), a. split; [by left|congruence].
      * exists k, b. split; [right; done|done].
Qed.

(** A creation: the object is added, and may have an owner at once. *)
Lemma registry_create a :
  m !! key_of a = None → GetUID a = uid_string v → log' ⊆ a :: log →
  history_ok (v + 1) (<[key_of a := a]> m) log' → evolution bucket_le (<[key_of a := a]> m) log' →
  rtc reg_step (registry_of m log) (registry_of (<[key_of a := a]> m) log').
Proof.
  intros Hk Hu Hl Hh' He'.
  assert (a ∈ log') as Ha by (eapply (stored_logged _ _ _ Hh'), lookup_insert_eq).
  assert (GetUID a ∉ reg_known (registry_of m log)) as Hnew.
  { rewrite elem_of_known. intros (b & Hb & Hbu). destruct (logged_before _ _ _ _ Hh Hb). congruence. }
  etransitivity; [apply rtc_once, (reg_add _ (GetUID a)), Hnew|].
  set (R := Build_Registry _ _ _).
  assert (GetUID a ∈ reg_live R) as Hlive by set_solver.
  etransitivity; [apply (bind_steps m (<[key_of a := a]> m) log log' He He' Hle a R); done|].
  assert (registry_of (<[key_of a := a]> m) log' =
    {| reg_known := reg_known R; reg_live := reg_live R;
       reg_owner := reg_owner (registry_of (<[key_of a := a]> m) log') |}) as Heq; [|by rewrite <-Heq].
  apply registry_eq; cbn [reg_known reg_live reg_owner R]; [| |done].
  - intros u. rewrite (known_grows m (<[key_of a:=a]> m) log log' Hle a Ha Hl). set_solver.
  - intros u. rewrite elem_of_union, elem_of_singleton, !elem_of_live.
    setoid_rewrite lookup_insert_Some. split.
    + intros (k & b & [[<- <-]|[_ Hb]] & <-); eauto.
    + intros [->|(k & b & Hb & <-)]; [by exists (key_of a), a; auto|].
      exists k, b. split; [right; split; [|done]|done]. intros <-. congruence.
Qed.
End refinement_step.

Lemma registry_same (v : N) (m : store Bucket) (log log' : list Bucket) :
  history_ok v m log → evolution bucket_le m log → evolution bucket_le m log' →
  log ⊆ log' → log' ⊆ log → registry_of m log = registry_of m log'.
Proof.
  intros Hh He He' H1 H2. apply registry_eq; [| |].
  - intros u. rewrite !elem_of_known. split; intros (b & Hb & ?); eauto.
  - intros u. by rewrite !elem_of_live.
  - intros u c. rewrite !lookup_owner by done. split; intros (? & b & Hb & ?); eauto.
Qed.

Lemma registry_change (C : Bucket → Prop) (v : N) (m m' : store Bucket) (log log' new : list Bucket) :
  history_ok v m log → evolution bucket_le m log →
  history_ok (v + 1) m' log' → evolution bucket_le m' log' →
  change bucket_le C v m m' new → log ⊆ log' → log' ⊆ new ++ log →
  rtc reg_step (registry_of m log) (registry_of m' log').
Proof.
  intros Hh He Hh' He' Hch. destruct Hch as [|old a Hk Hu _ _|a Hk Hu _ _]; intros Hle Hl.
  - by rewrite (registry_same v m log log' Hh He He' Hle Hl).
  - by eapply registry_write.
  - by eapply registry_create.
Qed.

Lemma grown_registry L L' w w' :
  server_ok w L → grown L w w' L' →
  rtc reg_step (registry_of (w_buckets w) (log_buckets L)) (registry_of (w_buckets w') (log_buckets L')).
Proof.
  intros Hs Hg. pose proof (grown_ok _ _ _ _ Hs Hg) as Hs'.
  destruct Hg as ((_ & Hle & _) & _ & [[-> (_ & Hl & _)]|(new & Hst & _ & Hl & _)]).
  - erewrite registry_same; [done|apply Hs..|apply Hs'|done|done].
  - eapply registry_change; [apply Hs..| |apply Hs'|apply Hst|done|done].
    rewrite <-(step_version _ _ _ _ Hst). apply Hs'.
Qed.

(** C2: The cluster implements the registry. Whatever happens on the API server, and in
    whatever order, from the registry's side it is a sequence of three moves: a new Bucket
    object is added, an object without an owner gets one, an object is removed. No object
    changes its owner or loses it, and none is brought back. *)
Theorem cluster_refines_registry cl cl' :
  reachable cl → rtc step cl cl' → rtc reg_step (registry cl) (registry cl').
Proof.
  intros Hok%reachable_ok Hst.
  induction Hst as [cl|cl cl1 cl' Hs _ IH]; [done|].
  etransitivity; [|apply IH; by eapply cluster_step_ok].
  apply grown_registry; [apply Hok|by apply step_grows].
Qed.

Lemma cluster_refines_registry_witness :
  rtc reg_step (registry demo_provisioned) (registry demo_granted) ∧
  reg_owner (registry demo_granted) = {[ "uid-102" := "uid-100" ]}.
Proof.
  split; [|vm_compute; reflexivity].
  apply cluster_refines_registry; [apply demo_provisioned_reachable|apply demo_granted_later].
Defined.
