(* ===== verification/Bounds.v ===== *)
(** * How much a reconcile asks of its environment

    A reconcile is a loop-free piece of Go code around loops over the references of a
    BucketAccess. Each loop ends, and the number of its calls to the API server and to the
    driver is linear in the number of references; the API type limits that number to 128
    ([accessSpec_valid], [accessStatus_valid]). [spends] is the logic of the bounds: a budget
    that every call to the server or to the driver reduces by one. *)

From stdpp Require Import base gmap strings list.
From S2P Require Import Prelude GoErrors ApiTypes ProtoTypes Effects ApiServer Ownership.
From S2P Require Import Translator Driver ClaimController Admission AccessController.
From S2P Require Import SidecarBucket SidecarAccess Scenarios Cluster.

(** ** Budgets *)

(** Reading the clock and iterating over a map leave the process alone. *)
Definition cost (r : req) : nat := match r with TimeNow | MapOrder => 0 | _ => 1 end.
Definition calls (tr : list event) : nat := sum_list_with (λ ev, cost (ev_req ev)) tr.

Section spends.
Context (ok : event → Prop).

(** With answers that satisfy [ok], [p] makes at most [n] calls and its result satisfies
    [Q]. *)
Fixpoint spends {A} (p : prog A) (n : nat) (Q : A → Prop) : Prop :=
  match p with
  | Ret a => Q a
  | Call r k => cost r ≤ n ∧ ∀ x, ok (Ev r x) → spends (k x) (n - cost r) Q
  end.

Lemma spends_sound {A} (p : prog A) n Q tr a :
  spends p n Q → exec p tr a → Forall ok tr → calls tr ≤ n ∧ Q a.
Proof.
  revert n tr. induction p as [b|r k IH]; intros n tr; cbn.
  - intros HQ [-> ->] _. split; [cbn; lia|done].
  - intros [Hc Hk] (x & tr' & -> & Hx) [Hok Hall]%Forall_cons.
    destruct (IH x _ tr' (Hk x Hok) Hx Hall) as [Hn HQ]. split; [|done].
    unfold calls in *. cbn. lia.
Qed.

Lemma spends_mono {A} (p : prog A) n m (Q R : A → Prop) :
  spends p n Q → n ≤ m → (∀ a, Q a → R a) → spends p m R.
Proof.
  intros Hp Hn HQ. revert n m Hn Hp. induction p as [b|r k IH]; intros n m Hn; cbn; [auto|].
  intros [Hc Hk]. split; [lia|]. intros x Hx. apply (IH x (n - cost r)); [lia|auto].
Qed.

Lemma spends_bind {A B} (p : prog A) (f : A → prog B) n m t Q R :
  spends p n Q → (∀ a, Q a → spends (f a) m R) → n + m ≤ t → spends (p ≫= f) t R.
Proof.
  intros Hp Hf. revert n t Hp. induction p as [b|r k IH]; intros n t; cbn.
  - intros HQ Ht. eapply spends_mono; [by apply Hf|lia|done].
  - intros [Hc Hk] Ht. split; [lia|]. intros x Hx. apply (IH x (n - cost r)); [by apply Hk|lia].
Qed.
End spends.

(** Steps of a [spends] goal, as [wp_step] takes those of a [wp] goal. *)
Ltac sp_simpl := cbn [spends prog_bind mbind prog_mbind perform api rpc go_result
  mret prog_mret time_Now map_iteration cost].
Ltac sp_head p :=
  lazymatch p with
  | mbind _ ?q => sp_head q
  | prog_bind _ ?q => sp_head q
  | if ?b then _ else _ => wp_case b
  | match ?x with _ => _ end => wp_case x
  end.
Ltac sp_step :=
  sp_simpl;
  lazymatch goal with
  | |- spends _ ?p _ _ => sp_head p
  | |- _ ∧ (∀ _ : resp TimeNow, _) => split; [lia|intros ? _]
  | |- _ ∧ (∀ _ : resp MapOrder, _) => split; [lia|intros ? _]
  | |- _ ∧ (∀ _ : resp _, _ → spends _ _ _ _) => split; [lia|intros [?|?] ?]
  end.
Ltac sp_run := repeat sp_step; sp_simpl; try done.

(** ** The reconcilers without loops *)

Lemma spends_claim ok key : spends ok (ClaimController.Reconcile key) 8 (λ _, True).
Proof.
  unfold ClaimController.Reconcile, ClaimController.reconcile, ClaimController.reconcileDelete,
    ensureClaimFinalizer, getOrCreateBucket, createIntermediateBucket, bindBucket,
    ensureStaticBucketBound, bindClaim, copyBucketStatus, removeClaimFinalizer,
    applyBucketClaimIsDeletingAnnotation.
  sp_run.
Qed.

Lemma spends_bucket ok d key : spends ok (SidecarBucket.Reconcile d key) 5 (λ _, True).
Proof.
  unfold SidecarBucket.Reconcile, SidecarBucket.reconcile, SidecarBucket.reconcileDelete,
    ensureBucketFinalizer, provision, dynamicProvision, staticProvision, finishProvisioning.
  sp_run.
Qed.

(** ** The loops *)

Section access.
Context (N : nat).

(** An access with at most [N] references, and the answers that hold only such accesses. *)
Definition small (a : BucketAccess) : Prop :=
  length (accessSpec_BucketClaims (access_Spec a)) ≤ N ∧
  length (accessStatus_AccessedBuckets (access_Status a)) ≤ N.
Definition small_answer (ev : event) : Prop :=
  match ev with
  | Ev (GetAccess _) (Ok a) | Ev (UpdateAccess _) (Ok a) | Ev (StatusUpdateAccess _) (Ok a) => small a
  | Ev _ _ => True
  end.

Abbreviation within := (spends small_answer).

Lemma spends_getAllBucketClaims_loop ns refs claims errs :
  within (getAllBucketClaims_loop ns refs claims errs) (length refs)
    (λ r, size r.1 ≤ size claims + length refs).
Proof.
  revert claims errs. induction refs as [|ref refs IH]; intros claims errs; cbn; [lia|].
  split; [lia|]. intros [c|e] _; cbn; [|destruct (IsNotFound _)].
  all: eapply spends_mono; [apply IH|lia|].
  all: intros [m' ?]; cbn [fst]; rewrite ?map_size_insert; repeat case_match; cbn; lia.
Qed.

Lemma spends_mark_loop entries m errs :
  (∀ k, k ∈ entries.*1 → k ∈ dom m) →
  within (mark_loop entries m errs) (length entries) (λ r, dom r.1 = dom m).
Proof.
  revert m errs. induction entries as [|[k oc] rest IH]; intros m errs Hin;
    cbn [mark_loop length]; [done|].
  assert (∀ c : option BucketClaim, dom (<[k := c]> m) = dom m) as Hd.
  { intros c. rewrite dom_insert_L. assert (k ∈ dom m) by (apply Hin; by left). set_solver. }
  assert (∀ k', k' ∈ rest.*1 → k' ∈ dom m) as Hrest by (intros; apply Hin; by right).
  sp_run; (eapply spends_mono; [apply IH; by rewrite ?Hd|lia|]); intros r ->; by rewrite ?Hd.
Qed.

Lemma spends_unmark_loop entries accesses ignore unmarked errs :
  within (unmark_loop entries accesses ignore unmarked errs) (length entries) (λ _, True).
Proof.
  revert unmarked errs. induction entries as [|[k oc] rest IH]; intros unmarked errs;
    cbn [unmark_loop length]; [done|].
  sp_run; (eapply spends_mono; [apply IH|lia|done]).
Qed.

Lemma spends_getBuckets_loop entries buckets errs :
  within (getBuckets_loop entries buckets errs) (length entries) (λ _, True).
Proof.
  revert buckets errs. induction entries as [|[k oc] rest IH]; intros buckets errs;
    cbn [getBuckets_loop length]; [done|].
  sp_run; (eapply spends_mono; [apply IH|lia|done]).
Qed.

Lemma spends_updateSecrets_loop entries configs creds secrets errs :
  within (updateSecrets_loop entries configs creds secrets errs) (length entries) (λ _, True).
Proof.
  revert secrets errs. induction entries as [|[k i] rest IH]; intros secrets errs;
    cbn [updateSecrets_loop length]; [done|].
  sp_run; (eapply spends_mono; [apply IH|lia|done]).
Qed.

Lemma spends_reserve_loop a refs secrets errs :
  within (reserve_loop a refs secrets errs) (2 * length refs) (λ _, True).
Proof.
  revert secrets errs. induction refs as [|ref refs IH]; intros secrets errs;
    cbn [reserve_loop length]; [done|].
  unfold reserveAccessSecret, createNewOwnedAccessSecret, updateExistingAccessSecretMetadata.
  sp_run; (eapply spends_mono; [apply IH|lia|done]).
Qed.

Lemma spends_deleteSecrets_loop a refs errs :
  within (deleteSecrets_loop a refs errs) (3 * length refs) (λ _, True).
Proof.
  revert errs. induction refs as [|ref refs IH]; intros errs; cbn [deleteSecrets_loop length]; [done|].
  sp_run; (eapply spends_mono; [apply IH|lia|done]).
Qed.

Lemma spends_validateBuckets_loop buckets errs :
  within (validateBuckets_loop buckets errs) (length buckets) (λ _, True).
Proof.
  revert errs. induction buckets as [|ab rest IH]; intros errs; cbn [validateBuckets_loop length]; [done|].
  sp_run; (eapply spends_mono; [apply IH|lia|done]).
Qed.

(** ** The Controller's accesses *)

Lemma small_AddFinalizer a : small a → small (AddFinalizer a ProtectionFinalizer).1.
Proof. unfold AddFinalizer. by case_match. Qed.

Lemma spends_getAllBucketClaims ns refs :
  within (getAllBucketClaims ns refs) (length refs)
    (λ r, ∀ m, r = Ok m → size m ≤ length refs).
Proof.
  unfold getAllBucketClaims. eapply spends_bind; [apply spends_getAllBucketClaims_loop| |].
  - intros [m errs]; cbn [fst]. rewrite map_size_empty. intros Hm.
    destruct (report _ _); sp_simpl; [done|]. intros ? [= <-]. exact Hm.
  - apply Nat.eq_le_incl, Nat.add_0_r.
Qed.

Lemma spends_markAll (m : claims_map) :
  within (markAllBucketClaimsAsAccessed m) (size m) (λ r, ∀ m', r = Ok m' → size m' = size m).
Proof.
  unfold markAllBucketClaimsAsAccessed. sp_simpl. split; [lia|]. intros order _.
  rewrite Nat.sub_0_r. eapply (spends_bind _ _ _ _ 0).
  - apply spends_mark_loop. intros k [c Hc]%elem_of_map_order_keys. by apply elem_of_dom.
  - intros [m' errs] Hm; cbn [fst] in Hm. destruct (report _ _); sp_simpl; [done|].
    intros ? [= <-]. by rewrite <-!size_dom, Hm.
  - rewrite length_map_order. lia.
Qed.

Lemma spends_unmark (m : claims_map) accesses ignore :
  within (unmarkUnaccessedBucketClaims m accesses ignore) (size m) (λ _, True).
Proof.
  unfold unmarkUnaccessedBucketClaims. sp_simpl. split; [lia|]. intros order _.
  rewrite Nat.sub_0_r. eapply (spends_bind _ _ _ _ 0); [apply spends_unmark_loop| |].
  - by intros [unmarked errs] _.
  - rewrite length_map_order. lia.
Qed.

Lemma spends_getBuckets (m : claims_map) : within (getBucketsForClaims m) (size m) (λ _, True).
Proof.
  unfold getBucketsForClaims. sp_simpl. split; [lia|]. intros order _.
  rewrite Nat.sub_0_r. eapply (spends_bind _ _ _ _ 0); [apply spends_getBuckets_loop| |].
  - intros [bm errs] _. sp_run.
  - rewrite length_map_order. lia.
Qed.

Lemma spends_initialize a (m : claims_map) :
  within (initialize a m) (size m + 2) (λ _, True).
Proof.
  unfold initialize. sp_step; [|done]. sp_step; [done|].
  eapply (spends_bind _ _ _ _ 1); [apply spends_getBuckets| |lia]. intros r _. sp_run.
Qed.

Lemma spends_caccess_delete a :
  small a → within (AccessController.reconcileDelete a) (2 * N + 2) (λ _, True).
Proof.
  intros [Hc _]. unfold AccessController.reconcileDelete.
  eapply (spends_bind _ _ _ _ (N + 2)); [apply spends_getAllBucketClaims| |lia].
  intros [m|e] Hm; [|done]. specialize (Hm m eq_refl). sp_step; [|done].
  eapply (spends_bind _ _ _ _ 1); [apply spends_unmark| |lia]. intros [u e] _. sp_run.
Qed.

Lemma spends_caccess_reconcile a :
  small a → within (AccessController.reconcile a) (3 * N + 3) (λ _, True).
Proof.
  intros Ha. unfold AccessController.reconcile. sp_step.
  { eapply spends_mono; [by apply spends_caccess_delete|lia|done]. }
  sp_step; [|done]. sp_step; [done|].
  eapply (spends_bind _ _ _ 1 (3 * N + 2) _ (λ r, r.2 = None → small r.1)); [| |lia].
  { apply small_AddFinalizer in Ha. unfold AccessController.ensureAccessFinalizer.
    destruct (AddFinalizer a _) as [a' [|]]; sp_run. }
  intros [a' [e|]] Ha'; [done|]. destruct (Ha' eq_refl) as [Hc _]. cbn [fst] in Hc.
  sp_step; [done|].
  eapply (spends_bind _ _ _ _ (2 * N + 2)); [apply spends_getAllBucketClaims| |lia].
  intros [m|e] Hm; [|done]. specialize (Hm m eq_refl).
  eapply (spends_bind _ _ _ _ (N + 2)); [apply spends_markAll| |lia].
  intros [m'|e] Hm'; [|done]. specialize (Hm' m' eq_refl). sp_step; [done|].
  eapply spends_mono; [apply spends_initialize|lia|done].
Qed.

Lemma spends_caccess key : within (AccessController.Reconcile key) (3 * N + 5) (λ _, True).
Proof.
  unfold AccessController.Reconcile. sp_step; [|sp_run]. sp_step; [done|].
  eapply (spends_bind _ _ _ _ 1); [by apply spends_caccess_reconcile| |lia].
  intros [a' [e|]] _; sp_run.
Qed.

(** ** The Sidecar's accesses *)

Lemma accessConfigs_loop_size ids refs out errs :
  size (accessConfigs_loop ids refs out errs).1 ≤ size out + length refs.
Proof.
  revert out errs. induction refs as [|ref refs IH]; intros out errs; cbn; [lia|].
  destruct (ids !! _) as [id|]; [destruct (AccessModeToRpc _)|].
  all: etrans; [apply IH|]; rewrite ?map_size_insert; try destruct (out !! id); cbn; lia.
Qed.

Lemma generated_configs_size a configs :
  generateInternalAccessedBucketConfigs a = Ok configs → small a → size configs ≤ N.
Proof.
  unfold generateInternalAccessedBucketConfigs. intros Hg [Hc _].
  pose proof (accessConfigs_loop_size
    (bucketIdsByClaimName (accessStatus_AccessedBuckets (access_Status a)))
    (accessSpec_BucketClaims (access_Spec a)) ∅ []) as Hs.
  destruct (accessConfigs_loop _ _ _ _) as [out errs]. cbn [fst] in Hs.
  rewrite map_size_empty in Hs. destruct (report _ _); [done|]. injection Hg as <-. lia.
Qed.

Lemma spends_updateSecrets cfg g :
  within (updateSecretsWithGrantedInfo cfg g) (size (granted_BucketInfoByBucketId g)) (λ _, True).
Proof.
  unfold updateSecretsWithGrantedInfo. sp_simpl. split; [lia|]. intros order _.
  rewrite Nat.sub_0_r. eapply (spends_bind _ _ _ _ 0); [apply spends_updateSecrets_loop|done|].
  rewrite length_map_order. lia.
Qed.

Lemma spends_grantAccess a cfg :
  size (grantCfg_AccessConfigsByBucketId cfg) ≤ N → within (grantAccess a cfg) (N + 2) (λ _, True).
Proof.
  intros Hcfg. unfold grantAccess. sp_step. sp_step; [|done]. sp_step; [|done]. do 2 sp_step.
  destruct (validateGrantedAccess _ _ _ _) eqn:Hv; [done|].
  apply validateGrantedAccess_None in Hv.
  eapply (spends_bind _ _ _ _ 1); [apply spends_updateSecrets| |].
  - intros [e|] _; sp_run.
  - rewrite <-!size_dom, Hv in *. lia.
Qed.

Lemma spends_saccess_delete a :
  small a → within (SidecarAccess.reconcileDelete a) (3 * N + 3) (λ _, True).
Proof.
  intros _. unfold SidecarAccess.reconcileDelete. sp_step; [|done].
  eapply (spends_bind _ _ _ (3 * N) 2 _ (λ _, True)); [| |lia].
  { unfold deleteOwnedAccessSecrets.
    eapply (spends_bind _ _ _ _ 0); [apply spends_deleteSecrets_loop|done|].
    match goal with H : small_answer _ |- _ => destruct H as [Hc _] end. lia. }
  intros [e|] _; [done|]. eapply (spends_bind _ _ _ 1 1 _ (λ _, True)); [| |lia].
  - unfold driverRevokeAccess. sp_run.
  - intros [e|] _; sp_run.
Qed.

Lemma spends_saccess_reconcile d a :
  small a → within (SidecarAccess.reconcile d a) (4 * N + 3) (λ _, True).
Proof.
  intros Ha. unfold SidecarAccess.reconcile. sp_step; [done|]. sp_step.
  { eapply spends_mono; [by apply spends_saccess_delete|lia|done]. }
  sp_step; [|done]. sp_step; [done|].
  eapply (spends_bind _ _ _ 1 (4 * N + 2) _ (λ r, r.2 = None → small r.1)); [| |lia].
  { apply small_AddFinalizer in Ha. unfold SidecarAccess.ensureAccessFinalizer.
    destruct (AddFinalizer a _) as [a' [|]]; sp_run. }
  intros [a' [e|]] Ha'; [done|]. specialize (Ha' eq_refl). cbn [fst] in Ha'.
  eapply (spends_bind _ _ _ N (3 * N + 2) _ (λ _, True)); [| |lia].
  { unfold getAndValidateAllAccessedBuckets. destruct Ha' as [_ Hb].
    eapply (spends_bind _ _ _ _ 0); [apply spends_validateBuckets_loop|done|lia]. }
  intros [e|] _; [done|].
  eapply (spends_bind _ _ _ (2 * N) (N + 2) _ (λ _, True)); [| |lia].
  { unfold reserveAccessSecrets. destruct Ha' as [Hc _].
    eapply (spends_bind _ _ _ _ 0); [apply spends_reserve_loop| |lia]. intros [s errs] _. sp_run. }
  intros [s|e] _; [|done]. unfold newInternalGrantAccessConfig.
  destruct (newInternalAccessConfig a') as [shared|e]; [|done].
  destruct (generateInternalAccessedBucketConfigs a') as [configs|e] eqn:Eg; [|done].
  apply spends_grantAccess. cbn. by eapply generated_configs_size.
Qed.

Lemma spends_saccess d key : within (SidecarAccess.Reconcile d key) (4 * N + 5) (λ _, True).
Proof.
  unfold SidecarAccess.Reconcile. sp_step; [|sp_run]. sp_step; [done|].
  eapply (spends_bind _ _ _ _ 1); [by apply spends_saccess_reconcile| |lia].
  intros [a' [e|]] _; sp_run.
Qed.
End access.

(** ** The bounds *)

(** The budget of a reconcile, with [N] references. *)
Definition budget (N : nat) (k : worker) : nat :=
  match k with
  | ClaimWorker _ => 8
  | BucketSidecar _ _ => 5
  | AccessWorker _ => 3 * N + 5
  | AccessSidecar _ _ => 4 * N + 5
  end.

(** The limit on the references concerns the reconciles of accesses only. *)
Definition limited (N : nat) (k : worker) (tr : list event) : Prop :=
  match k with
  | AccessWorker _ | AccessSidecar _ _ => Forall (small_answer N) tr
  | ClaimWorker _ | BucketSidecar _ _ => True
  end.

(** The validation rules of the API type set [N] to 128. *)
Lemma valid_access_small a :
  accessSpec_valid (access_Spec a) = true → accessStatus_valid (access_Status a) = true → small 128 a.
Proof.
  unfold accessSpec_valid, accessStatus_valid, small.
  rewrite !andb_true_iff, !Nat.leb_le. tauto.
Qed.

(** C32: The work of a reconcile is bounded. Whatever the API server and the driver answer, a
    reconcile of a claim makes at most 8 calls to the API server, and the Sidecar's reconcile
    of a Bucket at most 5 to the server and the driver; when the accesses that the server
    returns have at most [N] references (the API type allows 128), the reconciles of a
    BucketAccess make at most 3N+5 and 4N+5, however many entries the driver's answer has. *)
Theorem reconcile_calls_bounded N k tr res :
  exec (reconcile_of k) tr res → limited N k tr → calls tr ≤ budget N k.
Proof.
  intros Hx Hl. destruct k as [key|key|d key|d key]; cbn [reconcile_of limited budget] in *.
  1: pose proof (spends_claim (λ _, True) key) as Hs.
  2: pose proof (spends_caccess N key) as Hs.
  3: pose proof (spends_bucket (λ _, True) d key) as Hs.
  4: pose proof (spends_saccess N d key) as Hs.
  all: eapply (spends_sound _ _ _ _ _ _ Hs Hx); try done; by apply Forall_true.
Qed.

#[export] Instance small_answer_dec N ev : Decision (small_answer N ev).
Proof. destruct ev as [[] x]; cbn; try apply _; destruct x; apply _. Defined.

(** A grant with one reference. *)
Definition demo_grant_trace : list event :=
  run_trace (SidecarAccess.Reconcile demo_driver_info demo_access_key)
    (controller_access demo_access_key (provision_steps w0)).

Lemma reconcile_calls_bounded_witness :
  calls demo_grant_trace ≤ 9 ∧ calls demo_grant_trace = 7.
Proof.
  split; [|vm_compute; reflexivity].
  apply (reconcile_calls_bounded 1 (AccessSidecar demo_driver_info demo_access_key) demo_grant_trace
    (run_result (SidecarAccess.Reconcile demo_driver_info demo_access_key)
       (controller_access demo_access_key (provision_steps w0)))).
  - apply run_exec.
  - apply (bool_decide_unpack (Forall (small_answer 1) demo_grant_trace)). vm_compute. exact I.
Defined.
