(* ===== verification/Progress.v ===== *)
(** * Provisioning gets there

    The theorems about single reconciles say what is not done too early. This file shows that
    it is done in the end: with the API server of [ApiServer], which answers honestly, and a
    driver that serves the request, a claim becomes ready as soon as the Controller, the
    Sidecar and again the Controller have reconciled, whatever reconciles come before, between
    and after, and from every state that an interrupted earlier attempt can have left. *)

From stdpp Require Import base gmap strings list.
From S2P Require Import Prelude GoErrors ApiTypes ProtoTypes Effects ApiServer History Honest.
From S2P Require Import Translator Driver ClaimController SidecarBucket.

(** ** The claim reconciler *)

Lemma run_ensureClaimFinalizer w c :
  current (w_claims w) c →
  runs (ensureClaimFinalizer c) w (λ w' r, r.2 = None ∧ current (w_claims w') r.1 ∧
    claims_written w w' ∧ claim_kept c r.1 ∧ claim_Status r.1 = claim_Status c).
Proof.
  intros Hc. unfold ensureClaimFinalizer.
  destruct (AddFinalizer c ProtectionFinalizer) as [c1 [|]] eqn:E.
  - rs. eapply runs_UpdateClaim; [exact Hc|..].
    + change c1 with (c1, true).1. rewrite <-E. apply same_version_AddFinalizer.
    + unfold AddFinalizer in E. case_match; by simplify_eq.
    + intros w' c2 Hc2 Hw Hk Hs. cbn. by split_and!.
  - unfold AddFinalizer in E. case_match; simplify_eq. cbn. by split_and!.
Qed.

Lemma run_ensureBucketFinalizer w b :
  current (w_buckets w) b →
  runs (ensureBucketFinalizer b) w (λ w' r, r.2 = None ∧ current (w_buckets w') r.1 ∧
    buckets_written w w' ∧ bucket_kept b r.1 ∧ bucket_Status r.1 = bucket_Status b).
Proof.
  intros Hb. unfold ensureBucketFinalizer.
  destruct (AddFinalizer b ProtectionFinalizer) as [b1 [|]] eqn:E.
  - rs. eapply runs_UpdateBucket; [exact Hb|..].
    + change b1 with (b1, true).1. rewrite <-E. apply same_version_AddFinalizer.
    + unfold AddFinalizer in E. case_match; by simplify_eq.
    + intros w' b2 Hb2 Hw Hk Hs. cbn. by split_and!.
  - unfold AddFinalizer in E. case_match; simplify_eq. cbn. by split_and!.
Qed.

(** What the driver reported becomes the status of the Bucket, when it covers the protocols
    that the Bucket requires. *)
Lemma run_finishProvisioning w b details :
  current (w_buckets w) b → details_supportedProtos details ≠ [] →
  (∀ p, p ∈ bucketSpec_Protocols (bucket_Spec b) → p ∈ details_supportedProtos details) →
  runs (finishProvisioning b details) w (λ w' r, r.2 = None ∧ current (w_buckets w') r.1 ∧
    buckets_written w w' ∧ bucket_kept b r.1 ∧ bucket_Status r.1 = provisioned_status details).
Proof.
  intros Hb Hps Hcover. unfold finishProvisioning.
  destruct (_ =? 0) eqn:El; [by apply Nat.eqb_eq, length_zero_iff_nil in El|].
  rewrite (proj2 (validateBucketSupportsProtocols_None _ _) Hcover). rs.
  eapply runs_StatusUpdateBucket; [exact Hb|done|].
  intros w' b' Hb' Hw Hk Hs. cbn. by split_and!.
Qed.

Lemma bucket_kept_trans b1 b2 b3 : bucket_kept b1 b2 → bucket_kept b2 b3 → bucket_kept b1 b3.
Proof. unfold bucket_kept. intuition congruence. Qed.

Section provisioning.
Context (d : DriverInfo) (c0 : BucketClaim).

(** A claim for a new bucket, by its key, UID and spec. *)
Context (Hdynamic : claimSpec_ExistingBucketName (claim_Spec c0) = "").
Context (Hidentity : GetName c0 ≠ "" ∧ GetNamespace c0 ≠ "" ∧ GetUID c0 ≠ "").

Definition bucketName : string := "bc-" +:+ GetUID c0.

Lemma name_kept c : claim_kept c0 c → bucket_name_of c = bucketName.
Proof. intros (_ & Hu & Hs). unfold bucket_name_of. by rewrite Hs, Hdynamic, Hu. Qed.

(** The Bucket of the claim, live and for the driver. *)
Definition own_bucket (b : Bucket) : Prop :=
  key_of b = ("", bucketName) ∧ bound_to b c0 ∧
  bucketSpec_DriverName (bucket_Spec b) = driver_Name d ∧
  bucketSpec_ExistingBucketID (bucket_Spec b) = "" ∧
  bucketSpec_Protocols (bucket_Spec b) = claimSpec_Protocols (claim_Spec c0).

Definition bucket_there (w : World) (b : Bucket) : Prop := current (w_buckets w) b ∧ own_bucket b.
Definition bucket_possible (w : World) : Prop :=
  w_buckets w !! ("", bucketName) = None ∧
  ∃ class, w_classes w !! ("", claimSpec_BucketClassName (claim_Spec c0)) = Some class ∧
    classSpec_DriverName (class_Spec class) = driver_Name d.
Context (Hclass : claimSpec_BucketClassName (claim_Spec c0) ≠ "").

Lemma own_bucket_kept b b' : bucket_kept b b' → own_bucket b → own_bucket b'.
Proof.
  unfold own_bucket, bound_to, refers_to, ref_UID. intros (Hk & _ & Hs) Ho. by rewrite Hk, Hs.
Qed.

Lemma created_bucket_own c class v :
  claim_kept c0 c → classSpec_DriverName (class_Spec class) = driver_Name d →
  own_bucket (as_created v (generateIntermediateBucket c class bucketName)).
Proof.
  intros (Hk & Hu & Hs) Hd. destruct Hidentity as (_ & _ & Hne).
  unfold key_of in Hk. injection Hk as Hns Hn. split_and!; [done| |exact Hd|done|].
  - split_and!; cbn; try done; unfold ref_UID; cbn; by rewrite Hu.
  - cbn. by rewrite Hs.
Qed.

Lemma run_getOrCreateBucket w c :
  current (w_claims w) c → claim_kept c0 c →
  (bucket_possible w ∧ claimStatus_BoundBucketName (claim_Status c) = "") ∨ (∃ b, bucket_there w b) →
  runs (getOrCreateBucket c bucketName false) w (λ w' r, ∃ b, r = Ok b ∧ bucket_there w' b ∧
    buckets_written w w' ∧ ∀ b', bucket_there w b' → b = b').
Proof.
  intros Hc Hk Hb. unfold getOrCreateBucket. rs. cbn [runs handle fst snd].
  unfold store_get. cbn [nn_Namespace nn_Name global].
  destruct Hb as [[[Hnone (class & Hcl & Hdn)] Hbound]|[b Hb]].
  - rewrite Hnone. cbn [go_result of_client_error]. replace (IsNotFound _) with true by done.
    cbn [negb]. rewrite Hbound. cbn [String.eqb negb].
    unfold createIntermediateBucket. destruct Hk as (Hkey & Hu & Hs). rewrite Hs.
    apply eqs_false in Hclass as ->. rs. cbn [runs handle fst snd nn_Namespace nn_Name global].
    rewrite Hcl. rs. cbn [runs handle]. unfold store_create.
    change (key_of (generateIntermediateBucket c class bucketName)) with ("", bucketName).
    rewrite Hnone. cbn [write fst snd go_result runs]. fold (uid_string (w_version w)).
    eexists. split; [done|]. split_and!; [|done|].
    + split; [|by apply created_bucket_own; [split_and!|]]. split; [|done]. apply lookup_insert_eq.
    + intros b' [[Hl _] (Hkb & _)]. rewrite Hkb, Hnone in Hl. done.
  - destruct Hb as [[Hl Hd] Ho]. pose proof Ho as (Hkb & _). rewrite Hkb in Hl. rewrite Hl. cbn.
    exists b. split_and!; [done| |done|].
    + split; [|done]. split; [by rewrite Hkb|done].
    + intros b' [[Hl' _] (Hkb' & _)]. rewrite Hkb' in Hl'. congruence.
Qed.

(** The claim, live and as it is stored. *)
Definition claim_there (w : World) (c : BucketClaim) : Prop :=
  current (w_claims w) c ∧ claim_kept c0 c.
Abbreviation bound c := (claimStatus_BoundBucketName (claim_Status c)).

(** What readiness means for the Bucket and for the claim. *)
Definition bucket_ready (b : Bucket) : Prop :=
  bucketStatus_ReadyToUse (bucket_Status b) = Some true ∧
  bucketStatus_BucketID (bucket_Status b) ≠ "" ∧ bucketStatus_Protocols (bucket_Status b) ≠ [] ∧
  ∀ p, p ∈ claimSpec_Protocols (claim_Spec c0) → p ∈ bucketStatus_Protocols (bucket_Status b).
Definition claim_ready (c : BucketClaim) : Prop :=
  claimStatus_ReadyToUse (claim_Status c) = Some true ∧ claimStatus_Error (claim_Status c) = None ∧
  claimStatus_Protocols (claim_Status c) ≠ [] ∧
  ∀ p, p ∈ claimSpec_Protocols (claim_Spec c0) → p ∈ claimStatus_Protocols (claim_Status c).

Lemma claim_kept_trans c c' : claim_kept c0 c → claim_kept c c' → claim_kept c0 c'.
Proof. unfold claim_kept. intuition congruence. Qed.

Lemma same_version_status s (c : BucketClaim) : same_version (claim_with_Status s c) c.
Proof. done. Qed.

Lemma run_bindBucket w c b :
  claim_there w c → bucket_there w b →
  runs (bindBucket c b false) w (λ w' r, w' = w ∧ r = Ok b).
Proof.
  intros [_ (Hk & Hu & _)] [_ (_ & Hb & _)]. unfold key_of in Hk. injection Hk as Hns Hn.
  assert (bucketIsBoundToClaim b c = Ok true) as Hbound.
  { apply bucketIsBoundToClaim_true. unfold bound_to, refers_to in *. by rewrite Hns, Hn, Hu. }
  unfold bindBucket. rewrite Hbound. done.
Qed.

(** A write of the claim's status keeps the claim there. *)
Lemma run_status {A} w c s (k : _ → prog A) Q :
  claim_there w c →
  (∀ w' c', claim_there w' c' → claims_written w w' → claim_Status c' = s → runs (k (Ok c')) w' Q) →
  runs (Call (StatusUpdateClaim (claim_with_Status s c)) k) w Q.
Proof.
  intros [Hc Hk] HQ. eapply runs_StatusUpdateClaim; [exact Hc|apply same_version_status|].
  intros w' c' Hc' Hw Hk' Hs. apply HQ; [|done|done]. split; [done|by eapply claim_kept_trans].
Qed.

Lemma run_bindClaim name w c :
  claim_there w c → bound c = "" ∨ bound c = name →
  runs (bindClaim c name) w (λ w' r, r.2 = None ∧ claim_there w' r.1 ∧
    claims_written w w' ∧ bound r.1 = name).
Proof.
  intros Hc Hb. unfold bindClaim. destruct (bound c =s "") eqn:E.
  - rs. apply run_status; [done|]. intros w' c' Hc' Hw Hs. cbn. split_and!; [done..|]. by rewrite Hs.
  - apply eqs_false in E. destruct Hb as [|Hb]; [done|]. cbn. by split_and!.
Qed.

(** The status of the Bucket is that of a provisioned one, and a claim has it too. *)
Definition provisioned (b : Bucket) : Prop :=
  bucketStatus_ReadyToUse (bucket_Status b) = Some true ∧
  bucketStatus_BucketID (bucket_Status b) ≠ "" ∧ bucketStatus_Protocols (bucket_Status b) ≠ [].
Definition copied (c : BucketClaim) (b : Bucket) : Prop :=
  claimStatus_ReadyToUse (claim_Status c) = bucketStatus_ReadyToUse (bucket_Status b) ∧
  claimStatus_Error (claim_Status c) = None ∧
  claimStatus_Protocols (claim_Status c) = bucketStatus_Protocols (bucket_Status b).

Lemma run_copyBucketStatus w c b :
  claim_there w c →
  runs (copyBucketStatus c b) w (λ w' r, claim_there w' r.1 ∧ claims_written w w' ∧
    bound r.1 = bound c ∧ (provisioned b → r.2 = None ∧ copied r.1 b)).
Proof.
  intros Hc. unfold copyBucketStatus. destruct (_ =s "") eqn:Ei.
  { apply eqs_true in Ei. cbn. split_and!; [done..|]. by intros (_ & ? & _). }
  destruct (_ && _) eqn:Ep.
  { apply andb_true_iff in Ep as [_ Ep]. apply Nat.eqb_eq, length_zero_iff_nil in Ep.
    cbn. split_and!; [done..|]. by intros (_ & _ & ?). }
  rs. apply run_status; [done|]. intros w' c' Hc' Hw Hs. cbn. unfold copied. rewrite Hs.
  by split_and!.
Qed.

Lemma copied_ready c b : copied c b → bucket_ready b → claim_ready c.
Proof.
  intros (Hr & He & Hp) (Hbr & _ & Hbp & Hcover). unfold claim_ready. rewrite Hr, Hp. by split_and!.
Qed.

(** Where the claim can stand when a reconcile starts. *)
Definition startable (w : World) (c : BucketClaim) : Prop :=
  (bucket_possible w ∧ bound c = "") ∨
  ((bound c = "" ∨ bound c = bucketName) ∧ ∃ b, bucket_there w b).

Lemma startable_bound w c : startable w c → bound c = "" ∨ bound c = bucketName.
Proof. intros [[_ ?]|[? _]]; auto. Qed.

(** After the claim reconciler: the Bucket is there and the claim bound to it; a Bucket that
    was there before is the same, and when it was ready, so is the claim. *)
Definition claim_reconciled (w w' : World) (c : BucketClaim) (ready : Prop) : Prop :=
  ∃ b', claim_there w' c ∧ bucket_there w' b' ∧ bound c = bucketName ∧
    w_classes w' = w_classes w ∧ w_driver w' = w_driver w ∧
    ∀ b, bucket_there w b → b' = b ∧ (bucket_ready b → ready).

Lemma claim_reconciled_mono w w' c (R R' : Prop) :
  (R → R') → claim_reconciled w w' c R → claim_reconciled w w' c R'.
Proof.
  intros HR (b & ? & ? & ? & ? & ? & Hr). exists b. split_and!; [done..|].
  intros b' Hb'. destruct (Hr b' Hb') as [-> ?]. auto.
Qed.

Lemma run_claim_reconcile w c :
  claim_there w c → startable w c →
  runs (ClaimController.reconcile c) w (λ w' r,
    claim_reconciled w w' r.1 (r.2 = None ∧ claim_ready r.1)).
Proof.
  intros Hc Hst. unfold ClaimController.reconcile.
  pose proof (name_kept c (proj2 Hc)) as Hname.
  assert (determineBucketName c = Ok bucketName) as ->.
  { apply determineBucketName_Ok. rewrite Hname. split; [done|by eapply startable_bound]. }
  cbn zeta. destruct Hc as [Hcur Hk]. rewrite (proj2 Hcur).
  pose proof Hk as (_ & _ & Hspec). rewrite Hspec, Hdynamic. cbn [String.eqb negb].
  eapply runs_bind; [by apply run_ensureClaimFinalizer|].
  intros w1 [c1 oe] (Hoe & Hcur1 & (Hb1 & Hcl1 & Hd1) & Hk1 & Hs1). cbn [fst snd] in *. subst oe.
  assert (claim_kept c0 c1) as Hkept1 by (by eapply claim_kept_trans).
  eapply runs_bind; [apply run_getOrCreateBucket; [done..|]|].
  { unfold startable, bucket_possible, bucket_there in *. rewrite Hb1, Hcl1, Hs1. tauto. }
  intros w2 r (b & -> & Hb & (Hc2 & Hcl2 & Hd2) & Hsame).
  assert (claim_there w2 c1) as Hthere by (split; [by rewrite Hc2|done]).
  eapply runs_bind; [by apply run_bindBucket|]. intros ? ? [-> ->].
  eapply runs_bind; [apply run_bindClaim; [done|rewrite Hs1; by eapply startable_bound]|].
  intros w3 [c3 oe] (Hoe & Hthere3 & (Hb3 & Hcl3 & Hd3) & Hbound3). cbn [fst snd] in *. subst oe.
  eapply runs_mono; [by apply run_copyBucketStatus|].
  intros w4 [c4 oe] (Hthere4 & (Hb4 & Hcl4 & Hd4) & Hbound4 & Hready). cbn [fst snd] in *.
  exists b. split_and!; [done| |congruence..|].
  - unfold bucket_there in *. by rewrite Hb4, Hb3.
  - intros b' Hb'. rewrite <-(Hsame b'); [split; [done|]|].
    + intros Hr. destruct Hready as [-> Hcp]; [by destruct Hr as (? & ? & ? & _)|].
      split; [done|by eapply copied_ready].
    + unfold bucket_there in *. by rewrite Hb1.
Qed.

Definition claim_key : NamespacedName :=
  {| nn_Namespace := GetNamespace c0; nn_Name := GetName c0 |}.

Lemma run_claim_Reconcile w c :
  claim_there w c → startable w c →
  runs (ClaimController.Reconcile claim_key) w (λ w' res,
    ∃ c', claim_reconciled w w' c' (res = None ∧ claim_ready c')).
Proof.
  intros Hc Hst. unfold ClaimController.Reconcile. rs. cbn [runs handle fst snd].
  unfold store_get. cbn [nn_Namespace nn_Name claim_key].
  pose proof Hc as [[Hl _] (Hk & _)]. rewrite Hk in Hl. unfold key_of in Hl. rewrite Hl. rs.
  eapply runs_bind; [by apply run_claim_reconcile|].
  intros w1 [c1 oe] (b & Hthere & Hb & Hbound & Hcl & Hd & Hready). cbn [fst snd] in *.
  destruct oe as [err|].
  - rs. apply runs_call. cbn [handle fst snd]. unfold claim_with_recorded_error.
    apply run_status; [done|]. intros w2 c2 Hthere2 (Hb2 & Hcl2 & Hd2) Hs2. rs.
    assert (claim_reconciled w w2 c2 False) as Hrec.
    { exists b. split_and!; [done| |by rewrite Hs2|congruence..|].
      - unfold bucket_there in *. by rewrite Hb2.
      - intros b' Hb'. destruct (Hready b' Hb') as [-> Hr]. split; [done|]. by intros [? _]%Hr. }
    destruct (is_nonRetryable err); exists c2;
      (apply (claim_reconciled_mono _ _ _ False); [by intros []|done]).
  - rewrite (proj2 (proj1 Hthere)), andb_false_r. cbn. exists c1, b. by split_and!.
Qed.

(** ** The Bucket reconciler *)

(** The driver provisions the bucket: it answers with an ID and with what is needed for a
    list of protocols that covers those of the claim. *)
Definition serves (drv : ApiServer.Driver) : Prop :=
  ∃ protos, objectProtocolListFromApiList (claimSpec_Protocols (claim_Spec c0)) = Ok protos ∧
    (∀ p, p ∈ protos → proto_Type p ∈ driver_SupportedProtocols d) ∧
    ∀ params, ∃ resp pr ps info,
      driver_create drv {| createReq_Name := bucketName; createReq_Protocols := protos;
                           createReq_Parameters := params |} = Ok resp ∧
      createResp_BucketId resp ≠ "" ∧ createResp_Protocols resp = Some pr ∧
      BucketInfoToApi (Some pr) None = Ok (ps, info) ∧ ps ≠ [] ∧
      ∀ p, p ∈ claimSpec_Protocols (claim_Spec c0) → p ∈ ps.

Lemma run_bucket_reconcile w b :
  serves (w_driver w) → bucket_there w b →
  runs (SidecarBucket.reconcile d b) w (λ w' r, r.2 = None ∧ bucket_there w' r.1 ∧
    buckets_written w w' ∧ bucket_ready r.1).
Proof.
  intros (protos & Hprotos & Hsup & Hserve) Hb. unfold SidecarBucket.reconcile.
  pose proof Hb as [[_ Hlive] (Hkb & ((_ & _) & _) & Hdn & Hex & Hp)].
  rewrite Hdn, eqs_refl, Hlive, Hp, Hprotos. cbn [negb].
  rewrite (proj2 (validateDriverSupportsProtocols_None d protos) Hsup), Hex. cbn [String.eqb negb].
  eapply runs_bind; [by apply run_ensureBucketFinalizer, Hb|].
  intros w1 [b1 oe] (Hoe & Hcur1 & Hw1 & Hk1 & _). cbn [fst snd] in *. subst oe.
  pose proof (own_bucket_kept _ _ Hk1 (proj2 Hb)) as Ho1.
  pose proof Ho1 as (Hkb1 & ((Hns1 & Hn1) & Hune & Hu1) & _ & _ & Hp1).
  destruct (Hserve (bucketSpec_Parameters (bucket_Spec b1)))
    as (resp & pr & ps & info & Hcreate & Hid & Hpr & Hinfo & Hps & Hcover).
  destruct Hidentity as (Hne & Hnsne & Huidne).
  unfold provision, dynamicProvision.
  cbn [dynamic_claimRef dynamic_bucketName dynamic_requiredProtos dynamic_parameters].
  unfold ref_UID in Hu1. rewrite Hn1, Hns1, Hu1.
  apply eqs_false in Hne as ->. apply eqs_false in Hnsne as ->. apply eqs_false in Huidne as ->.
  rs. apply runs_call. cbn [handle fst snd orb].
  unfold key_of in Hkb1. injection Hkb1 as Hnsb Hnb. rewrite Hnb, (proj2 (proj2 Hw1)), Hcreate. rs.
  apply eqs_false in Hid as Hid'. rewrite Hid', Hpr, Hinfo. rs. cbn [details_of].
  eapply runs_mono; [apply run_finishProvisioning; [done|done|by rewrite Hp1]|].
  intros w2 [b2 oe] (Hoe & Hcur2 & Hw2 & Hk2 & Hs2). cbn [fst snd] in *.
  split_and!; [done|split; [done|by eapply own_bucket_kept]|by eapply buckets_written_trans|].
  unfold bucket_ready. rewrite Hs2. by split_and!.
Qed.

Lemma run_bucket_Reconcile w b :
  serves (w_driver w) → bucket_there w b →
  runs (SidecarBucket.Reconcile d (global bucketName)) w (λ w' _, ∃ b',
    bucket_there w' b' ∧ bucket_ready b' ∧ buckets_written w w').
Proof.
  intros Hs Hb. unfold SidecarBucket.Reconcile. rs. apply runs_call.
  cbn [handle fst snd]. unfold store_get. cbn [nn_Namespace nn_Name global].
  pose proof Hb as [[Hl _] (Hk & _)]. rewrite Hk in Hl. rewrite Hl. rs.
  eapply runs_bind; [by apply run_bucket_reconcile|].
  intros w1 [b1 oe] (Hoe & Hb1 & Hw & Hr). cbn [fst snd] in *. subst oe.
  rewrite (proj2 (proj1 Hb1)), andb_false_r. cbn. by exists b1.
Qed.

(** ** Turns *)

Definition take_turn (w : World) (t : turn) : World :=
  match t with
  | ControllerTurn => run_world (ClaimController.Reconcile claim_key) w
  | SidecarTurn => run_world (SidecarBucket.Reconcile d (global bucketName)) w
  end.

(** How far provisioning has come: not begun or interrupted, bound, with a ready Bucket,
    and ready. *)
Inductive stage : nat → World → Prop :=
| stage_begun w c :
    claim_there w c → startable w c → serves (w_driver w) → stage 0 w
| stage_bound w c b :
    claim_there w c → bucket_there w b → bound c = bucketName → serves (w_driver w) → stage 1 w
| stage_bucket_ready w c b :
    claim_there w c → bucket_there w b → bound c = bucketName → serves (w_driver w) →
    bucket_ready b → stage 2 w
| stage_ready w c b :
    claim_there w c → bucket_there w b → bound c = bucketName → serves (w_driver w) →
    bucket_ready b → claim_ready c → stage 3 w.

(** The turns from one stage to the next. *)
Definition provisioning_plan : list turn := [ControllerTurn; SidecarTurn; ControllerTurn].
Abbreviation next_stage := (advance provisioning_plan).

Lemma stage_startable n w : stage n w → ∃ c, claim_there w c ∧ startable w c ∧ serves (w_driver w).
Proof. intros []; exists c; split_and!; try done; right; eauto. Qed.

(** A turn of the Controller binds the claim, and makes it ready when its Bucket is. *)
Lemma controller_turn n w : stage n w → stage (next_stage n ControllerTurn) (take_turn w ControllerTurn).
Proof.
  intros Hst. destruct (stage_startable _ _ Hst) as (c & Hc & Hs & Hserves).
  pose proof (proj1 (runs_run _ _ _) (run_claim_Reconcile w c Hc Hs))
    as (c' & b' & Hc' & Hb' & Hbound & _ & Hd & Hready). cbn [take_turn].
  set (w' := run_world _ w) in *.
  assert (serves (w_driver w')) as Hserves' by (by rewrite Hd).
  destruct Hst as [w c1|w c1 b|w c1 b H1 H2 H3 H4 Hr|w c1 b H1 H2 H3 H4 Hr Hcr];
    cbn; try (by eapply stage_bound).
  all: destruct (Hready b) as [-> [_ Hc2]%(λ f, f Hr)]; [done|]; by eapply stage_ready.
Qed.

(** A turn of the Sidecar does nothing without the Bucket, and makes it ready otherwise. *)
Lemma sidecar_turn_idle w :
  w_buckets w !! ("", bucketName) = None → take_turn w SidecarTurn = w.
Proof.
  intros Hnone. cbn [take_turn].
  assert (runs (SidecarBucket.Reconcile d (global bucketName)) w (λ w' _, w' = w)) as Hr.
  { unfold SidecarBucket.Reconcile. rs. apply runs_call. cbn [handle fst snd]. unfold store_get.
    cbn [nn_Namespace nn_Name global]. by rewrite Hnone. }
  exact (proj1 (runs_run _ _ _) Hr).
Qed.

Lemma sidecar_turn_there w b :
  serves (w_driver w) → bucket_there w b →
  ∃ b', bucket_there (take_turn w SidecarTurn) b' ∧ bucket_ready b' ∧
        buckets_written w (take_turn w SidecarTurn).
Proof. intros Hs Hb. exact (proj1 (runs_run _ _ _) (run_bucket_Reconcile w b Hs Hb)). Qed.

Lemma sidecar_turn n w : stage n w → stage (next_stage n SidecarTurn) (take_turn w SidecarTurn).
Proof.
  intros Hst. destruct Hst as [w c Hc [[Hnone Hb]|[Hb [b Hbt]]] Hs|w c b Hc Hbt Hb Hs|w c b Hc Hbt Hb Hs Hr
    |w c b Hc Hbt Hb Hs Hr Hcr].
  { rewrite sidecar_turn_idle by apply Hnone. eapply stage_begun; [done| |done]. by left. }
  all: destruct (sidecar_turn_there w b Hs Hbt) as (b' & Hb' & Hr' & (Hcl & _ & Hd)).
  all: assert (claim_there (take_turn w SidecarTurn) c) as Hc' by (split; [rewrite Hcl|]; apply Hc).
  all: assert (serves (w_driver (take_turn w SidecarTurn))) as Hs' by (by rewrite Hd).
  - eapply stage_begun; [exact Hc'|right; eauto|done].
  - by eapply stage_bucket_ready.
  - by eapply stage_bucket_ready.
  - by eapply stage_ready.
Qed.

Lemma turn_stage n w t : stage n w → stage (next_stage n t) (take_turn w t).
Proof. destruct t; [apply controller_turn|apply sidecar_turn]. Qed.

End provisioning.

(** C7: Provisioning gets there. Take a claim for a new bucket, its class, and a driver that
    serves it, on an API server that answers honestly. The claim may be untouched, or an
    earlier attempt may have been interrupted anywhere: the Bucket created but the claim not
    bound, the claim bound but the Bucket not provisioned, errors recorded in either status.
    When the Controller, the Sidecar and again the Controller reconcile, with any number of
    other turns of the two before, between and after, then the claim is ready in the end: it
    is bound to its Bucket, which is ready too, and both support the protocols asked for. *)
Theorem provisioning_converges d c0 w ts :
  claimSpec_ExistingBucketName (claim_Spec c0) = "" →
  claimSpec_BucketClassName (claim_Spec c0) ≠ "" →
  GetName c0 ≠ "" ∧ GetNamespace c0 ≠ "" ∧ GetUID c0 ≠ "" →
  current (w_claims w) c0 → startable d c0 w c0 → serves d c0 (w_driver w) →
  provisioning_plan `sublist_of` ts →
  stage d c0 3 (foldl (take_turn d c0) w ts).
Proof.
  intros Hdyn Hclass Hid Hc Hst Hserves Hts.
  apply (plan_carried_out provisioning_plan (take_turn d c0) (stage d c0)); [|by eapply stage_begun|done].
  intros n w' t. by apply turn_stage.
Qed.

(** A new claim in the example installation, with idle turns around the three. *)
Definition demo_turns : list turn :=
  [SidecarTurn; ControllerTurn; ControllerTurn; SidecarTurn; SidecarTurn; ControllerTurn; SidecarTurn].

Definition demo_info : gmap string string :=
  match BucketInfoToApi (Some (demo_bucket_info "backend-bc-u1")) None with
  | Ok (_, info) => info
  | Err _ => ∅
  end.

Lemma demo_serves : serves demo_driver_info demo_claim demo_driver.
Proof.
  exists [{| proto_Type := ObjectProtocol_S3 |}]. split; [reflexivity|]. split.
  - intros p Hp. apply list_elem_of_singleton in Hp as ->. vm_compute. left.
  - intros params. eexists _, (demo_bucket_info "backend-bc-u1"), ["S3"], demo_info.
    split; [reflexivity|]. split_and!; [done|reflexivity|vm_compute; reflexivity|done|].
    intros p Hp. exact Hp.
Qed.

Lemma provisioning_converges_witness :
  stage demo_driver_info demo_claim 3
    (foldl (take_turn demo_driver_info demo_claim) (demo_world [demo_claim] [] [] []) demo_turns).
Proof.
  apply provisioning_converges; [done|done|done|done| |exact demo_serves|].
  - left. split; [|done]. split; [done|]. exists demo_class. by vm_compute.
  - unfold demo_turns. repeat first [apply sublist_skip | apply sublist_cons]; apply sublist_nil.
Defined.
