(* ===== verification/Existing.v ===== *)
(** * Claims for an existing bucket get there

    The other way to a bucket: an administrator writes a Bucket for a bucket that the backend
    has already, and a claim names it. This file shows that the two find each other: the
    Sidecar has the driver look the bucket up, the Controller binds the Bucket and the claim
    to one another and copies the status, whatever other turns come before, between and
    after. *)

From stdpp Require Import base gmap strings list.
From S2P Require Import Prelude GoErrors ApiTypes ProtoTypes Effects ApiServer History Honest.
From S2P Require Import Translator Driver ClaimController SidecarBucket Progress.

Section existing.
Context (d : DriverInfo) (c0 : BucketClaim) (b0 : Bucket) (details : provisionedBucketDetails).

(** The name that the claim gives, and the Bucket of that name, written for the claim. *)
Definition existingName : string := claimSpec_ExistingBucketName (claim_Spec c0).

Definition written_for : Prop :=
  key_of b0 = ("", existingName) ∧ refers_to b0 c0 ∧ (ref_UID b0 = "" ∨ ref_UID b0 = GetUID c0) ∧
  bucketSpec_DriverName (bucket_Spec b0) = driver_Name d ∧
  bucketSpec_ExistingBucketID (bucket_Spec b0) ≠ "".

(** The driver knows the bucket: it answers with an ID and with what is needed for a list of
    protocols that covers those of the Bucket. *)
Definition finds (drv : ApiServer.Driver) : Prop :=
  ∃ protos resp pr,
    objectProtocolListFromApiList (bucketSpec_Protocols (bucket_Spec b0)) = Ok protos ∧
    (∀ p, p ∈ protos → proto_Type p ∈ driver_SupportedProtocols d) ∧
    driver_get drv {|
      getReq_ExistingBucketId := bucketSpec_ExistingBucketID (bucket_Spec b0);
      getReq_Protocols := protos;
      getReq_Parameters := bucketSpec_Parameters (bucket_Spec b0) |} = Ok resp ∧
    getResp_BucketId resp ≠ "" ∧ getResp_Protocols resp = Some pr ∧
    details_of (getResp_BucketId resp) (BucketInfoToApi (Some pr) None) = Ok details ∧
    details_supportedProtos details ≠ [] ∧
    ∀ p, p ∈ bucketSpec_Protocols (bucket_Spec b0) → p ∈ details_supportedProtos details.

Context (Hstatic : existingName ≠ "").
Context (Hidentity : GetName c0 ≠ "" ∧ GetNamespace c0 ≠ "" ∧ GetUID c0 ≠ "").
Context (Hwritten : written_for).

(** The Bucket as it was written, or with the UID of the claim filled in. *)
Definition existing_spec (b : Bucket) : Prop :=
  key_of b = ("", existingName) ∧
  (bucket_Spec b = bucket_Spec b0 ∨
   bucket_Spec b = bucket_Spec (bucket_with_claimRef_UID (GetUID c0) b0)).
Definition existing_there (w : World) (b : Bucket) : Prop :=
  current (w_buckets w) b ∧ existing_spec b.

Lemma existing_spec_kept b b' : bucket_kept b b' → existing_spec b → existing_spec b'.
Proof. unfold existing_spec. intros (Hk & _ & Hs) Ho. by rewrite Hk, Hs. Qed.

Lemma existing_fields b :
  existing_spec b →
  bucketSpec_DriverName (bucket_Spec b) = driver_Name d ∧
  bucketSpec_ExistingBucketID (bucket_Spec b) = bucketSpec_ExistingBucketID (bucket_Spec b0) ∧
  bucketSpec_Protocols (bucket_Spec b) = bucketSpec_Protocols (bucket_Spec b0) ∧
  bucketSpec_Parameters (bucket_Spec b) = bucketSpec_Parameters (bucket_Spec b0) ∧
  refers_to b c0.
Proof.
  destruct Hwritten as (_ & [Hns Hn] & _ & Hd & _). unfold refers_to.
  intros [_ [Hs|Hs]]; rewrite Hs; cbn; by split_and!.
Qed.

Lemma existing_UID b : existing_spec b → ref_UID b = "" ∨ bound_to b c0.
Proof.
  intros Ho. pose proof (existing_fields b Ho) as (_ & _ & _ & _ & Hr).
  destruct Hidentity as (_ & _ & Hne). destruct Hwritten as (_ & _ & Hu & _).
  unfold bound_to, ref_UID in *. destruct Ho as [_ [Hs|Hs]]; rewrite Hs in *; cbn in *.
  - destruct Hu as [->| ->]; [by left|by right].
  - right. by split_and!.
Qed.

(** ** The Bucket reconciler *)

Definition found (b : Bucket) : Prop := bucket_Status b = provisioned_status details.

Lemma run_existing_reconcile w b :
  finds (w_driver w) → existing_there w b →
  runs (SidecarBucket.reconcile d b) w (λ w' r, r.2 = None ∧ existing_there w' r.1 ∧
    buckets_written w w' ∧ found r.1 ∧ bucket_Spec r.1 = bucket_Spec b).
Proof.
  intros (protos & resp & pr & Hprotos & Hsup & Hget & Hid & Hpr & Hdet & Hps & Hcover) [Hcur Ho].
  unfold SidecarBucket.reconcile.
  pose proof (existing_fields b Ho) as (Hdn & Hex & Hp & _ & _).
  rewrite Hdn, eqs_refl, (proj2 Hcur), Hp, Hprotos. cbn [negb].
  rewrite (proj2 (validateDriverSupportsProtocols_None d protos) Hsup), Hex.
  rewrite (proj2 (eqs_false _ _) (proj2 (proj2 (proj2 (proj2 Hwritten))))). cbn [negb].
  eapply runs_bind; [by apply run_ensureBucketFinalizer|].
  intros w1 [b1 oe] (Hoe & Hcur1 & Hw1 & Hk1 & _). cbn [fst snd] in *. subst oe.
  pose proof (existing_spec_kept _ _ Hk1 Ho) as Ho1.
  pose proof (existing_fields b1 Ho1) as (_ & Hex1 & Hp1 & Hpar1 & (Hns1 & Hn1)).
  destruct Hidentity as (Hne & Hnsne & _).
  unfold provision, staticProvision.
  cbn [static_claimRef static_existingBucketID static_requiredProtos static_parameters].
  rewrite Hn1, Hns1. apply eqs_false in Hne as ->. apply eqs_false in Hnsne as ->.
  rs. apply runs_call. cbn [handle fst snd orb].
  rewrite Hex1, Hpar1, (proj2 (proj2 Hw1)), Hget. rs.
  apply eqs_false in Hid as Hid'. rewrite Hid', Hpr, Hdet. rs.
  eapply runs_mono; [apply run_finishProvisioning; [done|done|by rewrite Hp1]|].
  intros w2 [b2 oe] (Hoe & Hcur2 & Hw2 & Hk2 & Hs2). cbn [fst snd] in *.
  split_and!; [done|split; [done|by eapply existing_spec_kept]|by eapply buckets_written_trans|done|].
  transitivity (bucket_Spec b1); [apply Hk2|apply Hk1].
Qed.

Lemma run_existing_Reconcile w b :
  finds (w_driver w) → existing_there w b →
  runs (SidecarBucket.Reconcile d (global existingName)) w (λ w' _, ∃ b',
    existing_there w' b' ∧ found b' ∧ buckets_written w w' ∧ bucket_Spec b' = bucket_Spec b).
Proof.
  intros Hs Hb. unfold SidecarBucket.Reconcile. rs. apply runs_call.
  cbn [handle fst snd]. unfold store_get. cbn [nn_Namespace nn_Name global].
  pose proof Hb as [[Hl _] (Hk & _)]. rewrite Hk in Hl. rewrite Hl. rs.
  eapply runs_bind; [by apply run_existing_reconcile|].
  intros w1 [b1 oe] (Hoe & Hb1 & Hw & Hr & Hsp). cbn [fst snd] in *. subst oe.
  rewrite (proj2 (proj1 Hb1)), andb_false_r. cbn. by exists b1.
Qed.
(** ** The claim reconciler *)

Abbreviation bound c := (claimStatus_BoundBucketName (claim_Status c)).

(** Binding fills in the UID and changes nothing else. *)
Lemma run_existing_bindBucket w c b :
  claim_there c0 w c → existing_there w b →
  runs (bindBucket c b true) w (λ w' r, ∃ b', r = Ok b' ∧ existing_there w' b' ∧ bound_to b' c0 ∧
    buckets_written w w' ∧ bucket_Status b' = bucket_Status b).
Proof.
  intros [_ (Hk & Hu & _)] Hb. pose proof Hb as [Hcur Ho].
  assert (∀ b', bound_to b' c ↔ bound_to b' c0) as Hsame.
  { intros b'. unfold bound_to, refers_to. unfold key_of in Hk. injection Hk as -> ->. by rewrite Hu. }
  pose proof (existing_fields b Ho) as (_ & _ & _ & _ & Hr).
  unfold bindBucket. destruct (existing_UID b Ho) as [Hnone|Hbound].
  - assert (bucketIsBoundToClaim b c = Ok false) as ->.
    { apply bucketIsBoundToClaim_false. split; [|done].
      unfold refers_to in *. unfold key_of in Hk. injection Hk as -> ->. done. }
    cbn [negb]. unfold ensureStaticBucketBound. unfold ref_UID in Hnone. rewrite Hnone, Hu.
    rewrite (proj2 (eqs_false "" (GetUID c0))) by (apply not_eq_sym, Hidentity).
    cbn [andb negb String.eqb]. rs.
    eapply runs_UpdateBucket_spec; [exact Hcur|done|].
    intros w' b' Hcur' Hw Hk' Hs' Hst'. cbn. exists b'.
    assert (bucket_Spec b' = bucket_Spec (bucket_with_claimRef_UID (GetUID c0) b0)) as Hspec.
    { rewrite Hs'. destruct Ho as [_ [Hs|Hs]]; cbn; by rewrite Hs. }
    assert (existing_spec b') as Ho' by (split; [by rewrite Hk'; apply Ho|by right]).
    split_and!; [done|done| |done..].
    destruct (existing_UID b' Ho') as [He|?]; [|done].
    unfold ref_UID in He. rewrite Hspec in He. by destruct Hidentity as (_ & _ & []).
  - rewrite (proj2 (bucketIsBoundToClaim_true b c)) by by apply Hsame. cbn. by exists b.
Qed.

(** After the claim reconciler: the claim and the Bucket are bound to each other, and the
    claim has the status of a Bucket that was found. *)
Definition existing_bound (w w' : World) (b : Bucket) (c : BucketClaim) (copy : Bucket → Prop) : Prop :=
  ∃ b', claim_there c0 w' c ∧ existing_there w' b' ∧ bound_to b' c0 ∧ bound c = existingName ∧
    w_driver w' = w_driver w ∧ bucket_Status b' = bucket_Status b ∧ (provisioned b' → copy b').

Lemma run_existing_claim_reconcile w c b :
  claim_there c0 w c → bound c = "" ∨ bound c = existingName → existing_there w b →
  runs (ClaimController.reconcile c) w (λ w' r,
    existing_bound w w' b r.1 (λ b', r.2 = None ∧ copied r.1 b')).
Proof.
  intros Hc Hst [Hcb Ho]. unfold ClaimController.reconcile. destruct Hc as [Hcur Hk].
  pose proof Hk as (_ & _ & Hspec).
  assert ((claimSpec_ExistingBucketName (claim_Spec c) <>s "") = true) as Hex.
  { rewrite Hspec. fold existingName. by rewrite (proj2 (eqs_false _ _) Hstatic). }
  assert (determineBucketName c = Ok existingName) as ->.
  { apply determineBucketName_Ok. split; [|done]. unfold bucket_name_of. by rewrite Hex, Hspec. }
  cbn zeta. rewrite (proj2 Hcur), Hex.
  eapply runs_bind; [by apply run_ensureClaimFinalizer|].
  intros w1 [c1 oe] (Hoe & Hcur1 & (Hb1 & Hcl1 & Hd1) & Hk1 & Hs1). cbn [fst snd] in *. subst oe.
  unfold getOrCreateBucket. eapply runs_bind.
  { rs. apply (runs_GetBucket _ b).
    - cbn. rewrite Hb1, <-(proj1 Ho). apply Hcb.
    - cbn. exact (conj eq_refl eq_refl : (λ w' r, w' = w1 ∧ r = Ok b) w1 (Ok b)). }
  intros ? ? [-> ->].
  eapply runs_bind; [apply run_existing_bindBucket|].
  { split; [done|by eapply claim_kept_trans]. }
  { split; [by rewrite Hb1|done]. }
  intros w2 r (b2 & -> & [Hcb2 Ho2] & Hbt2 & (Hc2 & _ & Hd2) & Hst2).
  eapply runs_bind; [apply (run_bindClaim c0 Hidentity); [|by rewrite Hs1]|].
  { split; [by rewrite Hc2|by eapply claim_kept_trans]. }
  intros w3 [c3 oe] (Hoe & Hthere3 & (Hb3 & Hcl3 & Hd3) & Hbound3). cbn [fst snd] in *. subst oe.
  eapply runs_mono; [by apply run_copyBucketStatus|].
  intros w4 [c4 oe] (Hthere4 & (Hb4 & Hcl4 & Hd4) & Hbound4 & Hready). cbn [fst snd] in *.
  exists b2. split_and!; [done| |done|congruence..|done|done].
  split; [by rewrite Hb4, Hb3|done].
Qed.

Lemma run_existing_claim_Reconcile w c b :
  claim_there c0 w c → bound c = "" ∨ bound c = existingName → existing_there w b →
  runs (ClaimController.Reconcile (claim_key c0)) w (λ w' _,
    ∃ c', existing_bound w w' b c' (copied c')).
Proof.
  intros Hc Hst Hb. unfold ClaimController.Reconcile. rs. cbn [runs handle fst snd].
  unfold store_get. cbn [nn_Namespace nn_Name claim_key].
  pose proof Hc as [[Hl _] (Hk & _)]. rewrite Hk in Hl. unfold key_of in Hl. rewrite Hl. rs.
  eapply runs_bind; [by apply run_existing_claim_reconcile|].
  intros w1 [c1 oe] (b1 & Hthere & Hb1 & Hbt & Hbound & Hd & Hs & Hready). cbn [fst snd] in *.
  destruct oe as [err|].
  - rs. apply runs_call. cbn [handle fst snd]. unfold claim_with_recorded_error.
    apply (run_status c0); [done..|]. intros w2 c2 Hthere2 (Hb2 & Hcl2 & Hd2) Hs2. rs.
    assert (existing_bound w w2 b c2 (copied c2)) as Hrec.
    { exists b1. split_and!; [done| |done|by rewrite Hs2|congruence|done|].
      - unfold existing_there in *. by rewrite Hb2.
      - by intros [? _]%Hready. }
    destruct (is_nonRetryable err); by exists c2.
  - rewrite (proj2 (proj1 Hthere)), andb_false_r. cbn. exists c1, b1.
    split_and!; [done..|]. by intros [_ ?]%Hready.
Qed.

(** ** Turns *)

Definition existing_turn (w : World) (t : turn) : World :=
  match t with
  | ControllerTurn => run_world (ClaimController.Reconcile (claim_key c0)) w
  | SidecarTurn => run_world (SidecarBucket.Reconcile d (global existingName)) w
  end.

(** How far the two have come: the claim and the Bucket are there, in whatever state; the
    driver has found the bucket; they are bound to each other and the claim is ready. *)
Inductive existing_stage : nat → World → Prop :=
| existing_begun w c b :
    claim_there c0 w c → existing_there w b → bound c = "" ∨ bound c = existingName →
    finds (w_driver w) → existing_stage 0 w
| existing_found w c b :
    claim_there c0 w c → existing_there w b → bound c = "" ∨ bound c = existingName →
    finds (w_driver w) → found b → existing_stage 1 w
| existing_ready w c b :
    claim_there c0 w c → existing_there w b → bound c = existingName → bound_to b c0 →
    finds (w_driver w) → found b → copied c b → existing_stage 2 w.

Definition existing_plan : list turn := [SidecarTurn; ControllerTurn].

Lemma existing_stage_begun n w :
  existing_stage n w → ∃ c b, claim_there c0 w c ∧ existing_there w b ∧
    (bound c = "" ∨ bound c = existingName) ∧ finds (w_driver w) ∧
    (n ≠ 0 → found b) ∧ (n = 2 → bound c = existingName ∧ bound_to b c0 ∧ copied c b).
Proof. intros []; exists c, b; split_and!; try done; auto. Qed.

Lemma found_provisioned drv b : finds drv → found b → provisioned b.
Proof.
  intros (protos & resp & pr & _ & _ & _ & Hid & _ & Hdet & Hps & _) Hf. unfold provisioned.
  rewrite Hf. unfold details_of in Hdet.
  destruct (BucketInfoToApi _ _) as [[ps info]|]; [|done]. injection Hdet as <-. by split_and!.
Qed.

Lemma existing_turn_stage n w t :
  existing_stage n w → existing_stage (advance existing_plan n t) (existing_turn w t).
Proof.
  intros Hst. destruct (existing_stage_begun _ _ Hst) as (c & b & Hc & Hb & Hbound & Hs & Hf & H2).
  destruct t; cbn [existing_turn].
  - pose proof (proj1 (runs_run _ _ _) (run_existing_claim_Reconcile w c b Hc Hbound Hb))
      as (c' & b' & Hc' & Hb' & Hbt & Hbound' & Hd & Hsame & Hcopy).
    set (w' := run_world _ w) in *. assert (finds (w_driver w')) as Hs' by (by rewrite Hd).
    assert (n ≠ 0 → found b') as Hf' by (intros Hn; unfold found; rewrite Hsame; by apply Hf).
    destruct Hst; cbn; [eapply existing_begun; eauto|..].
    all: eapply existing_ready; eauto; apply Hcopy; by eapply found_provisioned; [|apply Hf'].
  - pose proof (proj1 (runs_run _ _ _) (run_existing_Reconcile w b Hs Hb))
      as (b' & Hb' & Hf' & (Hcl & _ & Hd) & Hsp).
    set (w' := run_world _ w) in *. assert (finds (w_driver w')) as Hs' by (by rewrite Hd).
    assert (claim_there c0 w' c) as Hc' by (split; [rewrite Hcl|]; apply Hc).
    destruct Hst; cbn; [by eapply existing_found..|].
    destruct H2 as (Hbn & Hbt & Hcp); [done|]. eapply existing_ready; eauto.
    + unfold bound_to, refers_to, ref_UID in *. by rewrite Hsp.
    + unfold copied, found in *. rewrite Hf'. by rewrite Hf in Hcp.
Qed.
End existing.

(** C8: Claims for an existing bucket get there. Take a claim that names an existing Bucket,
    the Bucket that an administrator wrote for it, not bound yet or bound to this claim by an
    earlier attempt, and a driver that finds the bucket and supports the protocols that the
    Bucket asks for, on an API server that answers honestly. When the Sidecar and then the
    Controller reconcile, with any number of other turns of the two before, between and
    after, then in the end the Bucket has the status that the driver's answer gives, the two
    are bound to each other, by the UID of the claim in one direction and by the Bucket's
    name in the other, and the claim is ready with the protocols of the Bucket. *)
Theorem existing_bucket_converges d c0 b0 details w ts :
  existingName c0 ≠ "" → GetName c0 ≠ "" ∧ GetNamespace c0 ≠ "" ∧ GetUID c0 ≠ "" →
  written_for d c0 b0 → finds d b0 details (w_driver w) →
  current (w_claims w) c0 → current (w_buckets w) b0 →
  claimStatus_BoundBucketName (claim_Status c0) = "" ∨
  claimStatus_BoundBucketName (claim_Status c0) = existingName c0 →
  existing_plan `sublist_of` ts →
  existing_stage d c0 b0 details 2 (foldl (existing_turn d c0) w ts).
Proof.
  intros Hex Hid Hw Hs Hc Hb Hbound Hts.
  apply (plan_carried_out existing_plan (existing_turn d c0) (existing_stage d c0 b0 details));
    [|eapply existing_begun; [| |exact Hbound|exact Hs]|exact Hts].
  - intros n w' t. by apply existing_turn_stage.
  - by split.
  - split; [done|]. split; [apply Hw|by left].
Qed.

(** The Bucket "archive" of the example installation, with idle turns around the two. *)
Definition demo_existing_details : provisionedBucketDetails := {|
  details_bucketId := "backend-archive"; details_supportedProtos := ["S3"];
  details_allProtoBucketInfo :=
    match BucketInfoToApi (Some (demo_bucket_info "backend-archive")) None with
    | Ok (_, info) => info
    | Err _ => ∅
    end |}.

Lemma existing_bucket_converges_witness :
  existing_stage demo_driver_info demo_static_claim demo_static_bucket demo_existing_details 2
    (foldl (existing_turn demo_driver_info demo_static_claim)
       (demo_world [demo_static_claim] [demo_static_bucket] [] [])
       [ControllerTurn; SidecarTurn; SidecarTurn; ControllerTurn; SidecarTurn]).
Proof.
  apply existing_bucket_converges; [done|done| | |done|done|by left|].
  - split_and!; [done..|by left|done|done].
  - eexists [], _, _. split; [reflexivity|]. split; [by intros p Hp%elem_of_nil|].
    split; [reflexivity|]. split_and!; [done|reflexivity|vm_compute; reflexivity|done|].
    by intros p Hp%elem_of_nil.
  - repeat first [apply sublist_skip | apply sublist_cons]; apply sublist_nil.
Defined.
