(* ===== verification/Granting.v ===== *)
(** * Granting gets there

    The progress of a BucketAccess on the API server of [ApiServer]: with claims that are
    ready, a class that allows the access and a driver that grants it, the access is ready
    and every one of its Secrets is filled as soon as the Controller and then the Sidecar have
    reconciled it. *)

From stdpp Require Import base gmap strings list.
From S2P Require Import Prelude GoErrors ApiTypes ProtoTypes Effects ApiServer History Honest.
From S2P Require Import Ownership Protocol Translator Driver AccessController SidecarAccess.

Lemma Forall2_elem {A B} (P : A → B → Prop) l k x :
  Forall2 P l k → x ∈ l → ∃ y, y ∈ k ∧ P x y.
Proof.
  intros HF [i Hi]%list_elem_of_lookup. destruct (Forall2_lookup_l _ _ _ _ _ HF Hi) as (y & ? & ?).
  exists y. split; [by eapply list_elem_of_lookup_2|done].
Qed.

Lemma NoDup_fmap_elem {A B} (f : A → B) l x y :
  NoDup (f <$> l) → x ∈ l → y ∈ l → f x = f y → x = y.
Proof.
  intros Hnd [i Hi]%list_elem_of_lookup [j Hj]%list_elem_of_lookup Heq.
  assert (i = j) as ->; [|congruence].
  eapply (NoDup_lookup _ _ _ (f x) Hnd); rewrite list_lookup_fmap; [by rewrite Hi|by rewrite Hj, Heq].
Qed.

(** ** The loops of the Controller *)

Section loops.
Context (ns : string).

(** The lookup of claims: each name is mapped to what the server has. *)
Lemma run_getAllBucketClaims_loop w l claims errs :
  runs (getAllBucketClaims_loop ns l claims errs) w (λ w' r, w' = w ∧ r.2 = errs ∧
    ∀ n, r.1 !! n = if decide (n ∈ ref_names l) then Some (w_claims w !! (ns, n)) else claims !! n).
Proof.
  revert claims. induction l as [|ref l IH]; intros claims; cbn [getAllBucketClaims_loop].
  { cbn. split_and!; [done..|]. intros n. by rewrite decide_False by apply not_elem_of_nil. }
  rs. set (name := claimAccess_BucketClaimName ref).
  assert (∀ oc, w_claims w !! (ns, name) = oc →
    runs (getAllBucketClaims_loop ns l (<[name := oc]> claims) errs) w (λ w' r, w' = w ∧ r.2 = errs ∧
      ∀ n, r.1 !! n = if decide (n ∈ ref_names (ref :: l)) then Some (w_claims w !! (ns, n))
                      else claims !! n)) as Hgo.
  { intros oc Hoc. eapply runs_mono; [apply IH|]. intros w' r (-> & ? & Hr). split_and!; [done..|].
    intros n. rewrite Hr. destruct (decide (n ∈ ref_names l)) as [Hin|Hin].
    - by rewrite decide_True by by right.
    - destruct (decide (n = name)) as [->|Hne].
      + rewrite decide_True by by left. by rewrite lookup_insert_eq, Hoc.
      + rewrite decide_False by by intros [?|?]%elem_of_cons. by rewrite lookup_insert_ne. }
  destruct (w_claims w !! (ns, name)) as [c|] eqn:Ec.
  - eapply runs_GetClaim; [exact Ec|]. rs. by apply Hgo.
  - apply runs_GetClaim_None; [exact Ec|]. intros msg. rs.
    replace (IsNotFound _) with true by done. by apply Hgo.
Qed.

Lemma run_getAllBucketClaims w l :
  runs (getAllBucketClaims ns l) w (λ w' r, w' = w ∧ ∃ m, r = Ok m ∧
    ∀ n, m !! n = if decide (n ∈ ref_names l) then Some (w_claims w !! (ns, n)) else None).
Proof.
  unfold getAllBucketClaims. eapply runs_bind; [apply run_getAllBucketClaims_loop|].
  intros w' [m errs] (-> & Herrs & Hm). cbn in Herrs. subst errs. cbn. split; [done|]. exists m. split; [done|]. exact Hm.
Qed.

(** Only claims were written. *)
Definition claims_only (w w' : World) : Prop :=
  w_buckets w' = w_buckets w ∧ w_accesses w' = w_accesses w ∧
  w_accessClasses w' = w_accessClasses w ∧ w_secrets w' = w_secrets w ∧
  w_now w' = w_now w ∧ w_driver w' = w_driver w.
Lemma claims_only_trans w1 w2 w3 : claims_only w1 w2 → claims_only w2 w3 → claims_only w1 w3.
Proof. unfold claims_only. intuition congruence. Qed.

(** A claim that was marked: the same but for annotations. *)
Definition claim_refreshed (c c' : BucketClaim) : Prop :=
  key_of c' = key_of c ∧ claim_Status c' = claim_Status c ∧ IsDeleting c' = IsDeleting c.

Lemma same_version_set_annotation k v (c : BucketClaim) : same_version (set_annotation k v c) c.
Proof. done. Qed.

Lemma current_other w (c c2 : BucketClaim) :
  key_of c ≠ key_of c2 → current (w_claims w) c → current (w_claims (put_claim w c2)) c.
Proof. intros Hne [Hl Hd]. split; [|done]. cbn. by rewrite lookup_insert_ne. Qed.

Lemma run_mark_loop w entries m errs :
  NoDup entries.*1 →
  (∀ n c, (n, Some c) ∈ entries → current (w_claims w) c ∧ key_of c = (ns, n)) →
  runs (mark_loop entries m errs) w (λ w' r, r.2 = errs ∧ claims_only w w' ∧
    (∀ n, n ∉ entries.*1 → r.1 !! n = m !! n) ∧
    (∀ n oc, (n, oc) ∈ entries → m !! n = Some oc →
       match oc with
       | None => r.1 !! n = Some None
       | Some c => ∃ c', r.1 !! n = Some (Some c') ∧ claim_refreshed c c' ∧ is_marked c' = true
       end)).
Proof.
  revert w m. induction entries as [|[n oc] rest IH]; intros w m Hnd Hcur; cbn [mark_loop].
  { cbn. split_and!; [done..|]. by intros ? ? ?%elem_of_nil. }
  cbn in Hnd. apply NoDup_cons in Hnd as [Hni Hnd].
  (* the rest of the loop, from a world and a map that differ at [n] only *)
  assert (∀ w1 m1 oc1, claims_only w w1 → (∀ k, k ≠ n → m1 !! k = m !! k) →
    (m !! n = Some oc → m1 !! n = Some oc1) →
    match oc with
    | None => oc1 = None
    | Some c => ∃ c', oc1 = Some c' ∧ claim_refreshed c c' ∧ is_marked c' = true
    end →
    (∀ k c, (k, Some c) ∈ rest → current (w_claims w1) c) →
    runs (mark_loop rest m1 errs) w1 (λ w' r, r.2 = errs ∧ claims_only w w' ∧
      (∀ k, k ∉ n :: rest.*1 → r.1 !! k = m !! k) ∧
      (∀ k oc', (k, oc') ∈ (n, oc) :: rest → m !! k = Some oc' →
         match oc' with
         | None => r.1 !! k = Some None
         | Some c => ∃ c', r.1 !! k = Some (Some c') ∧ claim_refreshed c c' ∧ is_marked c' = true
         end))) as Hgo.
  { intros w1 m1 oc1 Hw Hm Hmn Hoc1 Hcur1. eapply runs_mono; [apply IH; [done|]|].
    { intros k c Hin. split; [by eapply Hcur1|]. apply (Hcur k c). by right. }
    intros w' r (Hr2 & Hw' & Hout & Hin). split_and!; [done|by eapply claims_only_trans| |].
    - intros k Hk. apply not_elem_of_cons in Hk as [Hk1 Hk2]. by rewrite Hout, Hm.
    - intros k oc' [[= -> ->]|Hk]%elem_of_cons Hmk.
      + rewrite Hout by done. rewrite Hmn by done. destruct oc; [|by subst].
        destruct Hoc1 as (c' & -> & ?). eauto.
      + apply Hin; [done|]. rewrite Hm; [done|]. intros ->. apply Hni.
        apply list_elem_of_fmap. by exists (n, oc'). }
  destruct oc as [c|].
  2: { eapply (Hgo w m None); try done. intros k c Hin. eapply (Hcur k c). by right. }
  destruct (Hcur n c) as [Hc Hk]; [by left|]. fold (is_marked c). destruct (is_marked c) eqn:Em.
  { eapply (Hgo w m (Some c)); try done; [by exists c|]. intros k c' Hin. eapply (Hcur k c'). by right. }
  rs. eapply runs_UpdateClaim_stored; [exact (proj1 Hc)|apply same_version_set_annotation|by rewrite (proj2 Hc)|].
  intros c2 Hk2 Hs2 Hd2 _ Ha2. rs. eapply (Hgo (put_claim w c2) _ (Some c2)); try done.
  - intros k Hne. by rewrite lookup_insert_ne.
  - intros _. apply lookup_insert_eq.
  - exists c2. split_and!; [done..|]. unfold is_marked, has_annotation. rewrite Ha2.
    apply (set_annotation_present HasBucketAccessReferencesAnnotation "" c).
  - intros k c' Hin. destruct (Hcur k c') as [Hc' Hk']; [by right|]. apply current_other; [|done].
    rewrite Hk', Hk2. change (key_of (set_annotation HasBucketAccessReferencesAnnotation "" c)) with (key_of c).
    rewrite Hk. intros [= ->]. apply Hni, list_elem_of_fmap. by exists (n, Some c').
Qed.

Lemma run_markAllBucketClaimsAsAccessed w m :
  (∀ n c, m !! n = Some (Some c) → current (w_claims w) c ∧ key_of c = (ns, n)) →
  runs (markAllBucketClaimsAsAccessed m) w (λ w' r, claims_only w w' ∧ ∃ m', r = Ok m' ∧
    ∀ n, match m !! n with
         | None => m' !! n = None
         | Some None => m' !! n = Some None
         | Some (Some c) => ∃ c', m' !! n = Some (Some c') ∧ claim_refreshed c c' ∧ is_marked c' = true
         end).
Proof.
  intros Hm. unfold markAllBucketClaimsAsAccessed. rs. apply runs_call. cbn [handle fst snd].
  eapply runs_bind; [apply run_mark_loop; [apply map_order_NoDup|]|].
  { intros n c Hin%elem_of_map_order. by apply Hm. }
  intros w' [m' errs] (Herrs & Hw & Hout & Hin). cbn [fst snd] in Herrs, Hout, Hin. subst errs. cbn.
  split; [done|]. exists m'. split; [done|]. intros n.
  destruct (m !! n) as [oc|] eqn:E.
  - apply (Hin n oc); [by apply elem_of_map_order|done].
  - rewrite Hout, E; [done|]. intros [v Hv]%elem_of_map_order_keys. congruence.
Qed.

(** The lookup of Buckets, when all are there. *)
Lemma run_getBuckets_loop w entries bm errs (bucketOf : string → option Bucket) :
  (∀ n oc, (n, oc) ∈ entries → ∃ c b, oc = Some c ∧ claimStatus_BoundBucketName (claim_Status c) ≠ "" ∧
     w_buckets w !! ("", claimStatus_BoundBucketName (claim_Status c)) = Some b ∧ bucketOf n = Some b) →
  runs (getBuckets_loop entries bm errs) w (λ w' r, w' = w ∧ r.2 = errs ∧
    ∀ n, r.1 !! n = if decide (n ∈ entries.*1) then Some (bucketOf n) else bm !! n).
Proof.
  revert bm. induction entries as [|[n oc] rest IH]; intros bm Hall; cbn [getBuckets_loop].
  { cbn. split_and!; [done..|]. intros n. by rewrite decide_False by apply not_elem_of_nil. }
  destruct (Hall n oc) as (c & b & -> & Hb & Hl & Hbn); [by left|]. rewrite (proj2 (eqs_false _ _) Hb).
  rs. eapply runs_GetBucket; [exact Hl|]. rs.
  eapply runs_mono; [apply IH; intros k oc Hin; apply Hall; by right|].
  intros w' r (-> & Hr2 & Hr). split_and!; [done..|]. intros k. rewrite Hr. cbn [fmap list_fmap fst].
  destruct (decide (k ∈ rest.*1)) as [Hin|Hin]; [by rewrite decide_True by by right|].
  destruct (decide (k = n)) as [->|Hne].
  - rewrite decide_True by by left. by rewrite Hbn, lookup_insert_eq.
  - rewrite decide_False by by intros [?|?]%elem_of_cons. by rewrite lookup_insert_ne.
Qed.

Lemma run_getBucketsForClaims w m (bucketOf : string → option Bucket) :
  (∀ n oc, m !! n = Some oc → ∃ c b, oc = Some c ∧ claimStatus_BoundBucketName (claim_Status c) ≠ "" ∧
     w_buckets w !! ("", claimStatus_BoundBucketName (claim_Status c)) = Some b ∧ bucketOf n = Some b) →
  runs (getBucketsForClaims m) w (λ w' r, w' = w ∧ ∃ bm, r = Ok bm ∧
    ∀ n, is_Some (m !! n) → bm !! n = Some (bucketOf n)).
Proof.
  intros Hall. unfold getBucketsForClaims. rs. apply runs_call. cbn [handle fst snd].
  eapply runs_bind; [apply (run_getBuckets_loop w _ _ _ bucketOf)|].
  { intros n oc Hin%elem_of_map_order. by apply Hall. }
  intros w' [bm errs] (-> & Herrs & Hbm). cbn [fst snd] in Herrs, Hbm. subst errs. cbn.
  assert (dom bm = dom m) as Hdom.
  { apply set_eq. intros n. rewrite !elem_of_dom, Hbm.
    destruct (decide _) as [Hin|Hin].
    - apply elem_of_map_order_keys in Hin as [v Hv]. rewrite Hv. naive_solver.
    - rewrite lookup_empty. split; [by intros [? [=]]|]. intros [v Hv]. destruct Hin.
      apply list_elem_of_fmap. exists (n, v). split; [done|]. by apply elem_of_map_order. }
  rewrite <-!size_dom, Hdom, Nat.eqb_refl. cbn. split; [done|]. exists bm. split; [done|].
  intros n [v Hv]. rewrite Hbm, decide_True; [done|].
  apply list_elem_of_fmap. exists (n, v). split; [done|]. by apply elem_of_map_order.
Qed.
End loops.

(** ** The Controller's turn *)

Section granting.
Context (d : DriverInfo) (a0 : BucketAccess) (class : BucketAccessClass).
Abbreviation refs := (accessSpec_BucketClaims (access_Spec a0)).
Abbreviation secret_names l := (claimAccess_AccessSecretName <$> l).

(** The access: references to different claims with different Secrets, and a class that
    allows it. *)
Context (Hrefs : refs ≠ []) (Hunique : NoDup (ref_names refs)) (Hsecrets : NoDup (secret_names refs)).
Context (Hallowed : class_allows (accessClass_Spec class) (access_Spec a0)).
Context (Hdriver : accessClassSpec_DriverName (accessClass_Spec class) = driver_Name d).
Context (Hname : driver_Name d ≠ "").
Context (Hauth : accessClassSpec_AuthenticationType (accessClass_Spec class) ≠ "").

Definition access_identity (a : BucketAccess) : Prop :=
  key_of a = key_of a0 ∧ GetUID a = GetUID a0 ∧ access_Spec a = access_Spec a0 ∧
  has_annotation ControllerManagementOverrideAnnotation a = false.
Definition access_there (w : World) (a : BucketAccess) : Prop :=
  current (w_accesses w) a ∧ access_identity a.

(** A claim that can be accessed, with its Bucket [b] and the ID of the backend bucket. *)
Definition accessible_claim (w : World) (ref : BucketClaimAccess) (id : string) : Prop :=
  ∃ c b, w_claims w !! (GetNamespace a0, claimAccess_BucketClaimName ref) = Some c ∧
    key_of c = (GetNamespace a0, claimAccess_BucketClaimName ref) ∧ IsDeleting c = false ∧
    claimStatus_BoundBucketName (claim_Status c) ≠ "" ∧
    claimStatus_ReadyToUse (claim_Status c) = Some true ∧
    (claimStatus_Protocols (claim_Status c) ≠ [] →
     accessSpec_Protocol (access_Spec a0) ∈ claimStatus_Protocols (claim_Status c)) ∧
    w_buckets w !! ("", claimStatus_BoundBucketName (claim_Status c)) = Some b ∧
    GetName b = claimStatus_BoundBucketName (claim_Status c) ∧ bucket_usable b id.

(** All claims can be accessed, and their backend buckets are different. *)
Definition claims_accessible (w : World) : Prop :=
  ∃ ids, NoDup ids ∧ Forall2 (accessible_claim w) refs ids.

(** What the Controller records of the Buckets. *)
Definition accessed_for (w : World) (ref : BucketClaimAccess) (ab : AccessedBucket) : Prop :=
  accessed_BucketClaimName ab = claimAccess_BucketClaimName ref ∧
  ∃ b, w_buckets w !! ("", accessed_BucketName ab) = Some b ∧ bucket_usable b (accessed_BucketID ab).
Definition initialized (w : World) (a : BucketAccess) : Prop :=
  Forall2 (accessed_for w) refs (accessStatus_AccessedBuckets (access_Status a)) ∧
  NoDup (accessed_BucketID <$> accessStatus_AccessedBuckets (access_Status a)) ∧
  accessStatus_DriverName (access_Status a) = driver_Name d ∧
  accessStatus_AuthenticationType (access_Status a) =
    accessClassSpec_AuthenticationType (accessClass_Spec class).

Lemma access_identity_kept a a1 a2 s :
  access_written a1 a s a2 → access_identity a → key_of a1 = key_of a → access_Spec a1 = access_Spec a →
  GetAnnotations a1 = GetAnnotations a → access_identity a2.
Proof.
  unfold access_identity, access_written, has_annotation.
  intros (Hk & Hu & Hs & Ha & _) Hid Hk1 Hs1 Ha1. by rewrite Hk, Hu, Hs, Ha, Hk1, Hs1, Ha1.
Qed.

Lemma put_access_there w a2 : IsDeleting a2 = false → access_identity a2 → access_there (put_access w a2) a2.
Proof. intros Hd Hid. split; [|done]. split; [|done]. apply lookup_insert_eq. Qed.

(** Only the access was written. *)
Definition access_only (w w' : World) : Prop :=
  w_claims w' = w_claims w ∧ w_buckets w' = w_buckets w ∧ w_accessClasses w' = w_accessClasses w ∧
  w_secrets w' = w_secrets w ∧ w_now w' = w_now w ∧ w_driver w' = w_driver w.

Lemma AddFinalizer_kept a f :
  access_Spec (AddFinalizer a f).1 = access_Spec a ∧ GetAnnotations (AddFinalizer a f).1 = GetAnnotations a ∧
  access_Status (AddFinalizer a f).1 = access_Status a.
Proof. unfold AddFinalizer. by case_match. Qed.

Lemma run_ensureAccessFinalizer w a :
  access_there w a →
  runs (AccessController.ensureAccessFinalizer a) w (λ w' r, r.2 = None ∧ access_there w' r.1 ∧
    access_only w w' ∧ access_Status r.1 = access_Status a).
Proof.
  intros [[Hl Hd] Hid]. unfold AccessController.ensureAccessFinalizer.
  pose proof (AddFinalizer_kept a ProtectionFinalizer) as (Hs & Ha & Hst).
  pose proof (same_version_AddFinalizer a ProtectionFinalizer) as Hv.
  destruct (AddFinalizer a ProtectionFinalizer) as [a1 [|]] eqn:E; cbn [fst] in *.
  - rs. eapply runs_UpdateAccess; [exact Hl|exact Hv|by rewrite Hd|].
    intros a2 Hw. pose proof Hw as (_ & _ & _ & _ & _ & Hd2 & Hst2). rs. cbn [runs fst snd].
    split; [done|]. split; [|by split_and!]. apply put_access_there; [congruence|].
    eapply access_identity_kept; try done. by apply same_version_key.
  - unfold AddFinalizer in E. case_match; simplify_eq. cbn. by split_and!.
Qed.

(** A claim in the map of claims, ready to be accessed. *)
Definition usable_entry (w : World) (m : claims_map) (ref : BucketClaimAccess) (id : string) : Prop :=
  ∃ c b, m !! claimAccess_BucketClaimName ref = Some (Some c) ∧ IsDeleting c = false ∧
    claimStatus_BoundBucketName (claim_Status c) ≠ "" ∧
    claimStatus_ReadyToUse (claim_Status c) = Some true ∧
    (claimStatus_Protocols (claim_Status c) ≠ [] →
     accessSpec_Protocol (access_Spec a0) ∈ claimStatus_Protocols (claim_Status c)) ∧
    w_buckets w !! ("", claimStatus_BoundBucketName (claim_Status c)) = Some b ∧
    GetName b = claimStatus_BoundBucketName (claim_Status c) ∧ bucket_usable b id.

Section initialize.
Context (w : World) (m : claims_map) (ids : list string).
Context (Hdom : ∀ n, is_Some (m !! n) → n ∈ ref_names refs).
Context (Hentries : Forall2 (usable_entry w m) refs ids).

Definition bucketOf (n : string) : option Bucket :=
  match m !! n with
  | Some (Some c) => w_buckets w !! ("", claimStatus_BoundBucketName (claim_Status c))
  | _ => None
  end.

Lemma usable_lookup n oc :
  m !! n = Some oc → ∃ ref id, ref ∈ refs ∧ claimAccess_BucketClaimName ref = n ∧ usable_entry w m ref id.
Proof.
  intros Hl. destruct (proj1 (list_elem_of_fmap _ _ _) (Hdom n (mk_is_Some _ _ Hl))) as (ref & -> & Hin).
  destruct (Forall2_elem _ _ _ _ Hentries Hin) as (id & _ & He). eauto.
Qed.

Lemma no_blockers o : cannotAccessBucketClaims o m (access_Spec a0) = [].
Proof.
  unfold cannotAccessBucketClaims. apply flat_map_nil. intros [n oc] Hin%elem_of_map_order.
  destruct (usable_lookup n oc Hin) as (ref & id & _ & <- & (c & b & Hl & Hd & _ & _ & Hp & _)).
  rewrite Hl in Hin. injection Hin as <-. cbn. rewrite Hd. cbn.
  destruct (claimStatus_Protocols (claim_Status c)) as [|p l] eqn:El; [done|].
  rewrite (proj2 (slices_Contains_spec _ _) (Hp ltac:(done))). by rewrite andb_false_r.
Qed.

Lemma no_wait o (bm : buckets_map) :
  (∀ n, is_Some (m !! n) → bm !! n = Some (bucketOf n)) → waitingOnBucketClaims o m bm = [].
Proof.
  intros Hbm. unfold waitingOnBucketClaims. apply flat_map_nil. intros [n oc] Hin%elem_of_map_order.
  destruct (usable_lookup n oc Hin) as (ref & id & _ & <- & (c & b & Hl & Hd & Hb & Hr & _ & Hbl & _ & Hu)).
  rewrite Hl in Hin. injection Hin as <-. cbn. rewrite (proj2 (eqs_false _ _) Hb), Hbm by eauto.
  unfold bucketOf. rewrite Hl, Hbl. destruct Hu as (_ & _ & Hid & _).
  rewrite (proj2 (eqs_false _ _) Hid), Hr. done.
Qed.

Lemma usable_bucket ref id :
  usable_entry w m ref id →
  ∃ b, bucketOf (claimAccess_BucketClaimName ref) = Some b ∧ w_buckets w !! ("", GetName b) = Some b ∧
       bucket_usable b id.
Proof.
  intros (c & b & Hl & _ & _ & _ & _ & Hb & Hn & Hu). exists b. unfold bucketOf. rewrite Hl.
  by rewrite Hn.
Qed.

(** The compiled list names the Bucket of each reference. *)
Lemma compiled_accessed (bm : buckets_map) out :
  (∀ n, is_Some (m !! n) → bm !! n = Some (bucketOf n)) →
  Forall2 (λ ref ab, ref ∈ refs ∧
    ∃ b, bm !! claimAccess_BucketClaimName ref = Some (Some b) ∧
         ab = {| accessed_BucketName := GetName b;
                 accessed_BucketID := bucketStatus_BucketID (bucket_Status b);
                 accessed_BucketClaimName := claimAccess_BucketClaimName ref |}) refs out →
  Forall2 (accessed_for w) refs out ∧ (accessed_BucketID <$> out) = ids.
Proof.
  intros Hbm. revert ids Hentries out.
  assert (∀ l ids' out, Forall2 (usable_entry w m) l ids' →
    Forall2 (λ ref ab, ref ∈ refs ∧
      ∃ b, bm !! claimAccess_BucketClaimName ref = Some (Some b) ∧
           ab = {| accessed_BucketName := GetName b;
                   accessed_BucketID := bucketStatus_BucketID (bucket_Status b);
                   accessed_BucketClaimName := claimAccess_BucketClaimName ref |}) l out →
    Forall2 (accessed_for w) l out ∧ (accessed_BucketID <$> out) = ids') as Hgo; [|eauto].
  induction l as [|ref l IH]; intros ids' out He Ho.
  - apply Forall2_nil_inv_l in He as ->. apply Forall2_nil_inv_l in Ho as ->. by split.
  - apply Forall2_cons_inv_l in He as (id & ids1 & Hu & He & ->).
    apply Forall2_cons_inv_l in Ho as (ab & out1 & (_ & b & Hb & Hab) & Ho & ->).
    destruct (IH ids1 out1 He Ho) as [HF Hids]. cbn. rewrite Hids.
    assert (is_Some (m !! claimAccess_BucketClaimName ref)) as Hs by (destruct Hu as (c & ? & -> & _); eauto).
    destruct (usable_bucket ref id Hu) as (b' & Hb' & Hl & Hus). rewrite Hbm, Hb' in Hb by done.
    injection Hb as ->. subst ab. pose proof Hus as (_ & _ & _ & Hid). cbn. split; [|by rewrite Hid].
    constructor; [|done]. split; [done|]. exists b. cbn. split; [done|]. by rewrite Hid.
Qed.

Abbreviation class_key := ("", accessSpec_BucketAccessClassName (access_Spec a0)).

Lemma run_initialize a :
  NoDup ids → access_there w a → w_accessClasses w !! class_key = Some class →
  runs (initialize a m) w (λ w' r, r.2 = None ∧ access_there w' r.1 ∧ access_only w w' ∧
    initialized w' r.1).
Proof.
  intros Hnd Ha Hclass. unfold initialize. pose proof Ha as [Hcur (Hk & Hu & Hs & Ho)]. rewrite Hs.
  rs. apply runs_call. cbn [handle fst snd nn_Namespace nn_Name global]. rewrite Hclass. rs.
  rewrite (proj2 (ValidateAccessAgainstClass_None _ _) Hallowed).
  eapply runs_bind; [apply (run_getBucketsForClaims w m bucketOf)|].
  { intros n oc Hl. destruct (usable_lookup n oc Hl) as (ref & id & _ & <- & (c & b & Hc & _ & Hb & _ & _ & Hw & _)).
    rewrite Hc in Hl. injection Hl as <-. exists c, b. unfold bucketOf. by rewrite Hc. }
  intros w' r (-> & bm & -> & Hbm). rs. apply runs_call. cbn [handle fst snd].
  rewrite no_blockers. cbn [length Nat.ltb Nat.leb]. rs. apply runs_call. cbn [handle fst snd].
  rewrite (no_wait _ _ Hbm). cbn [length Nat.ltb Nat.leb].
  destruct (compileAccessedBuckets_Ok refs bm) as (out & -> & Hout).
  { intros n (ref & -> & Hin)%list_elem_of_fmap.
    destruct (Forall2_elem _ _ _ _ Hentries Hin) as (id & _ & Hue).
    destruct (usable_bucket ref id Hue) as (b & Hb & _ & (_ & _ & Hid & _)). exists b.
    split; [|done]. rewrite <-Hb. apply Hbm. destruct Hue as (c & ? & -> & _). eauto. }
  rs. destruct (compiled_accessed bm out Hbm Hout) as [HF Hids].
  eapply runs_StatusUpdateAccess; [by apply current_stored|done|].
  intros a2 Hw2. pose proof Hw2 as (_ & _ & _ & _ & _ & Hd2 & Hst2). rs. cbn [runs fst snd].
  split; [done|]. split; [|split; [by split_and!|]].
  - apply put_access_there; [rewrite Hd2; apply Hcur|]. by eapply access_identity_kept.
  - unfold initialized. rewrite Hst2. cbn. rewrite Hids. by split_and!.
Qed.
End initialize.

(** The marked claims are as accessible as they were. *)
Lemma marked_entries w w1 ids (m m1 : claims_map) :
  Forall2 (accessible_claim w) refs ids →
  (∀ n, m !! n = if decide (n ∈ ref_names refs) then Some (w_claims w !! (GetNamespace a0, n)) else None) →
  (∀ n, match m !! n with
        | None => m1 !! n = None
        | Some None => m1 !! n = Some None
        | Some (Some c) => ∃ c', m1 !! n = Some (Some c') ∧ claim_refreshed c c' ∧ is_marked c' = true
        end) →
  w_buckets w1 = w_buckets w →
  Forall2 (usable_entry w1 m1) refs ids ∧ ∀ n, is_Some (m1 !! n) → n ∈ ref_names refs.
Proof.
  intros HF Hm Hm1 Hb. split.
  - rewrite Forall2_same_length_lookup in HF |- *. destruct HF as [Hlen HF]. split; [done|].
    intros i ref id Hr Hi. destruct (HF i ref id Hr Hi) as (c & b & Hc & Hkc & Hd & Hbn & Hrd & Hp & Hbl & Hn & Hu).
    specialize (Hm1 (claimAccess_BucketClaimName ref)). rewrite Hm, decide_True, Hc in Hm1.
    2: { apply list_elem_of_fmap. exists ref. split; [done|by eapply list_elem_of_lookup_2]. }
    destruct Hm1 as (c' & Hl & (Hk' & Hs' & Hd') & _). exists c', b. unfold usable_entry.
    rewrite Hs', Hd', Hb. by split_and!.
  - intros n [oc Hn]. specialize (Hm1 n). rewrite Hm in Hm1.
    destruct (decide (n ∈ ref_names refs)); [done|congruence].
Qed.


Definition class_there (w : World) : Prop :=
  w_accessClasses w !! ("", accessSpec_BucketAccessClassName (access_Spec a0)) = Some class.

(** The Controller's turn leaves Secrets, Buckets and the driver alone. *)
Definition controller_kept (w w' : World) : Prop :=
  w_buckets w' = w_buckets w ∧ w_accessClasses w' = w_accessClasses w ∧
  w_secrets w' = w_secrets w ∧ w_now w' = w_now w ∧ w_driver w' = w_driver w.

Lemma run_controller_reconcile w a :
  access_there w a → requirements_unset (access_Status a) → class_there w → claims_accessible w →
  runs (AccessController.reconcile a) w (λ w' r, r.2 = None ∧ access_there w' r.1 ∧
    initialized w' r.1 ∧ controller_kept w w').
Proof.
  intros Ha Hun Hcl (ids & Hnd & Hacc). unfold AccessController.reconcile.
  pose proof Ha as [[Hl Hlive] _]. rewrite Hlive.
  rewrite (proj2 (proj1 (proj2 (sidecar_requirements_exact _))) Hun).
  eapply runs_bind; [by apply run_ensureAccessFinalizer|].
  intros w1 [a1 oe] (Hoe & Ha1 & (Hc1 & Hb1 & Hac1 & Hsec1 & Hn1 & Hd1) & Hst1). cbn [fst snd] in *. subst oe.
  pose proof Ha1 as [_ (Hk1 & Hu1 & Hs1 & Ho1)]. rewrite Hs1.
  rewrite (proj2 (references_unique _) Hunique).
  assert (GetNamespace a1 = GetNamespace a0) as -> by (unfold key_of in Hk1; congruence).
  eapply runs_bind; [apply run_getAllBucketClaims|]. intros ? ? (-> & m & -> & Hm).
  eapply runs_bind; [apply (run_markAllBucketClaimsAsAccessed (GetNamespace a0))|].
  { intros n c Hmn. rewrite Hm in Hmn. destruct (decide _) as [Hin|]; [|done]. injection Hmn as Hc.
    apply list_elem_of_fmap in Hin as (ref & -> & Hin).
    destruct (Forall2_elem _ _ _ _ Hacc Hin) as (id & _ & (c' & b & Hc' & Hkc & Hdc & _)).
    rewrite Hc1, Hc' in Hc. injection Hc as ->. split; [|done]. split; [by rewrite Hkc, Hc1|done]. }
  intros w2 ? (Hw2 & m2 & -> & Hm2). pose proof Hw2 as (Hb2 & Ha2 & Hac2 & Hsec2 & Hn2 & Hd2).
  rewrite Hst1. destruct Hun as (-> & _ & _). cbn [length Nat.ltb Nat.leb].
  rewrite Hc1 in Hm.
  destruct (marked_entries w w2 ids m m2 Hacc Hm Hm2) as [Hue Hdom]; [congruence|].
  eapply runs_mono; [apply (run_initialize w2 m2 ids Hdom Hue a1 Hnd)|].
  - unfold access_there in *. by rewrite Ha2.
  - unfold class_there in Hcl. by rewrite Hac2, Hac1.
  - intros w' r (Hr & Hthere & (Hc' & Hb' & Hac' & Hsec' & Hn' & Hd') & Hinit).
    split; [done|]. split; [done|]. split; [done|]. unfold controller_kept. by split_and!; congruence.
Qed.

Definition access_key : NamespacedName :=
  {| nn_Namespace := GetNamespace a0; nn_Name := GetName a0 |}.

Lemma access_stored w a : access_there w a → w_accesses w !! (GetNamespace a0, GetName a0) = Some a.
Proof. intros [[Hl _] (Hk & _)]. by rewrite Hk in Hl. Qed.

Lemma run_controller_Reconcile w a :
  access_there w a → requirements_unset (access_Status a) → class_there w → claims_accessible w →
  runs (AccessController.Reconcile access_key) w (λ w' _, ∃ a', access_there w' a' ∧
    initialized w' a' ∧ controller_kept w w').
Proof.
  intros Ha Hun Hcl Hacc. unfold AccessController.Reconcile. rs.
  eapply runs_GetAccess; [by apply access_stored|]. rs.
  assert (ManagedBySidecar a = false) as ->.
  { apply not_true_is_false. intros ?%ManagedBySidecar_driver. by destruct Hun as (_ & ? & _). }
  eapply runs_bind; [by apply run_controller_reconcile|].
  intros w1 [a1 oe] (Hoe & Ha1 & Hi & Hk). cbn [fst snd] in *. subst oe. cbn. eauto.
Qed.

(** ** The Sidecar's turn *)

Lemma run_validateBuckets_loop w l errs :
  (∀ ab, ab ∈ l → ∃ b, w_buckets w !! ("", accessed_BucketName ab) = Some b ∧
                       bucket_usable b (accessed_BucketID ab)) →
  runs (validateBuckets_loop l errs) w (λ w' r, w' = w ∧ r = errs).
Proof.
  induction l as [|ab l IH]; intros Hall; cbn [validateBuckets_loop]; [done|].
  destruct (Hall ab) as (b & Hb & Hu); [by left|]. rs. eapply runs_GetBucket; [exact Hb|]. rs.
  rewrite (proj2 (validateBucketIsReadyForAccess_None _ _) Hu). apply IH.
  intros ab' Hin. apply Hall. by right.
Qed.

(** A Secret of the access, and the names that are free for its Secrets. *)
Definition own_secret (w : World) (n : string) (s : Secret) : Prop :=
  current (w_secrets w) s ∧ key_of s = (GetNamespace a0, n) ∧ IsControlledBy s a0 = true.
Definition secret_free (w : World) (n : string) : Prop :=
  match w_secrets w !! (GetNamespace a0, n) with
  | None => True
  | Some s => own_secret w n s
  end.

(** Only Secrets were written. *)
Definition secrets_only (w w' : World) : Prop :=
  w_claims w' = w_claims w ∧ w_buckets w' = w_buckets w ∧ w_accesses w' = w_accesses w ∧
  w_accessClasses w' = w_accessClasses w ∧ w_now w' = w_now w ∧ w_driver w' = w_driver w.
Lemma secrets_only_trans w1 w2 w3 : secrets_only w1 w2 → secrets_only w2 w3 → secrets_only w1 w3.
Proof. unfold secrets_only. intuition congruence. Qed.

Lemma put_secret_ne w s n :
  key_of s ≠ (GetNamespace a0, n) →
  w_secrets (put_secret w s) !! (GetNamespace a0, n) = w_secrets w !! (GetNamespace a0, n).
Proof. intros Hne. cbn. by rewrite lookup_insert_ne. Qed.

Lemma put_own_secret w n s1 s2 :
  secret_written s1 s2 → key_of s1 = (GetNamespace a0, n) → IsControlledBy s1 a0 = true →
  own_secret (put_secret w s2) n s2.
Proof.
  intros (Hk & Ho & _ & Hd & _) Hk1 Hc. split; [|split; [congruence|]].
  - split; [apply lookup_insert_eq|done].
  - unfold IsControlledBy, GetControllerOf in *. by rewrite Ho.
Qed.

Lemma secret_controlled_same (s : Secret) (a : BucketAccess) : GetUID a = GetUID a0 → IsControlledBy s a = IsControlledBy s a0.
Proof. intros Hu. unfold IsControlledBy. by rewrite Hu. Qed.

Lemma required_metadata (s : Secret) :
  same_version (setAccessSecretRequiredMetadata s) s ∧
  IsControlledBy (setAccessSecretRequiredMetadata s) a0 = IsControlledBy s a0.
Proof. unfold setAccessSecretRequiredMetadata, AddFinalizer. by case_match. Qed.

Lemma run_reserveAccessSecret w a n :
  access_identity a → secret_free w n →
  runs (reserveAccessSecret a n) w (λ w' r, ∃ s, r = Ok s ∧ own_secret w' n s ∧ w' = put_secret w s).
Proof.
  intros (Hk & Hu & _ & _) Hfree. unfold reserveAccessSecret, secret_free in *.
  assert (GetNamespace a = GetNamespace a0) as Hns by (unfold key_of in Hk; congruence).
  assert (GetName a = GetName a0) as Hna by (unfold key_of in Hk; congruence).
  rs. destruct (w_secrets w !! (GetNamespace a0, n)) as [s|] eqn:Es.
  - eapply runs_GetSecret; [cbn; by rewrite Hns|]. rs. destruct Hfree as (Hc & Hks & Hown).
    unfold updateExistingAccessSecretMetadata. rewrite secret_controlled_same, Hown by done. cbn [negb].
    destruct (required_metadata s) as [Hv Hctl]. rs.
    eapply runs_UpdateSecret; [exact Hc|exact Hv|]. intros s2 Hw. rs. cbn [runs].
    exists s2. split; [done|]. split; [|done]. eapply put_own_secret; [exact Hw| |congruence].
    rewrite (same_version_key _ _ Hv). exact Hks.
  - apply runs_GetSecret_None; [cbn; by rewrite Hns|]. intros msg. rs.
    replace (IsNotFound _) with true by done. cbn [negb]. unfold createNewOwnedAccessSecret. rs.
    assert (key_of (newOwnedAccessSecret n a) = (GetNamespace a0, n)) as Hkn by (rewrite <-Hns; done).
    eapply runs_CreateSecret; [by rewrite Hkn|]. intros s2 Hw. rs. cbn [runs].
    exists s2. split; [done|]. split; [|done]. eapply put_own_secret; [exact Hw|done|].
    rewrite <-(secret_controlled_same _ a Hu). cbn. apply eqs_refl.
Qed.

Lemma own_secret_put_ne w n n' s s' :
  n ≠ n' → key_of s' = (GetNamespace a0, n') → own_secret w n s → own_secret (put_secret w s') n s.
Proof.
  intros Hne Hk ([Hl Hd] & Hks & Hc). split; [|done]. split; [|done].
  rewrite Hks in Hl |- *. rewrite put_secret_ne; [done|]. rewrite Hk. congruence.
Qed.

Lemma secret_free_put_ne w n n' s' :
  n ≠ n' → key_of s' = (GetNamespace a0, n') → secret_free w n → secret_free (put_secret w s') n.
Proof.
  intros Hne Hk. unfold secret_free. rewrite put_secret_ne by (rewrite Hk; congruence).
  destruct (w_secrets w !! _) as [s|]; [|done]. by apply (own_secret_put_ne w n n').
Qed.

(** All Secrets are reserved. *)
Lemma run_reserve_loop w a l m errs :
  access_identity a → NoDup (secret_names l) → (∀ n, n ∈ secret_names l → m !! n = None) →
  (∀ n, n ∈ secret_names l → secret_free w n) → (∀ n s, m !! n = Some s → own_secret w n s) →
  runs (reserve_loop a l m errs) w (λ w' r, r.2 = errs ∧ secrets_only w w' ∧
    dom r.1 = dom m ∪ list_to_set (secret_names l) ∧
    ∀ n s, r.1 !! n = Some s → own_secret w' n s).
Proof.
  intros Ha. revert w m. induction l as [|ref l IH]; intros w m Hnd Hm Hfree Hown; cbn [reserve_loop].
  { cbn. split_and!; [done..|set_solver|done]. }
  set (n := claimAccess_AccessSecretName ref) in *. cbn [fmap list_fmap] in *. fold n in Hnd, Hm, Hfree |- *.
  apply NoDup_cons in Hnd as [Hni Hnd]. unfold has_key. rewrite (Hm n) by by left. cbn.
  eapply runs_bind; [apply run_reserveAccessSecret; [done|apply Hfree; by left]|].
  intros w1 r (s & -> & Hs & Hw1). pose proof Hs as (_ & Hks & _).
  eapply runs_mono; [apply IH; [done|..]|].
  - intros n' Hn'. rewrite lookup_insert_ne by (intros ->; done). apply Hm. by right.
  - intros n' Hn'. subst w1. apply (secret_free_put_ne w n' n); [by intros ->|done|]. apply Hfree. by right.
  - intros n' s' [[<- <-]|[Hne Hl]]%lookup_insert_Some; [done|].
    subst w1. apply (own_secret_put_ne w n' n); [done..|]. by apply Hown.
  - intros w' r (Hr & Hw & Hd & Hall). split; [done|]. split; [|split; [|done]].
    + eapply secrets_only_trans; [|exact Hw]. by subst w1.
    + rewrite Hd, dom_insert_L. set_solver.
Qed.

Lemma run_reserveAccessSecrets w a :
  access_identity a → (∀ n, n ∈ secret_names refs → secret_free w n) →
  runs (reserveAccessSecrets a) w (λ w' r, secrets_only w w' ∧ ∃ m, r = Ok m ∧
    dom m = list_to_set (secret_names refs) ∧ ∀ n s, m !! n = Some s → own_secret w' n s).
Proof.
  intros Ha Hfree. pose proof Ha as (_ & _ & Hs & _). unfold reserveAccessSecrets. rewrite Hs.
  eapply runs_bind; [apply run_reserve_loop; [done|exact Hsecrets|done|exact Hfree|]|].
  { intros n s Hl. by rewrite lookup_empty in Hl. }
  intros w' [m errs] (Herr & Hw & Hd & Hall). cbn [fst snd] in *. subst errs. cbn [report].
  rewrite dom_empty_L, (left_id_L ∅ (∪)) in Hd.
  assert (size m = length refs) as ->.
  { rewrite <-size_dom, Hd, size_list_to_set by exact Hsecrets. by rewrite length_fmap. }
  rewrite Nat.eqb_refl. cbn. split; [done|]. by exists m.
Qed.

(** *** The configuration *)

(** The bucket ID recorded for each claim. *)
Lemma bucketIdsByClaimName_elem l ab :
  NoDup (accessed_BucketClaimName <$> l) → ab ∈ l →
  bucketIdsByClaimName l !! accessed_BucketClaimName ab = Some (accessed_BucketID ab).
Proof.
  unfold bucketIdsByClaimName.
  assert (∀ m : gmap string string, NoDup (accessed_BucketClaimName <$> l) →
    (∀ ab, ab ∈ l → foldl (λ m ab, <[accessed_BucketClaimName ab := accessed_BucketID ab]> m) m l
                    !! accessed_BucketClaimName ab = Some (accessed_BucketID ab)) ∧
    ∀ n, n ∉ accessed_BucketClaimName <$> l →
      foldl (λ m ab, <[accessed_BucketClaimName ab := accessed_BucketID ab]> m) m l !! n = m !! n)
    as Hgen; [|intros Hnd; by apply Hgen].
  induction l as [|ab0 l IH]; intros m Hnd; cbn; [by split; [intros ? ?%elem_of_nil|]|].
  apply NoDup_cons in Hnd as [Hni Hnd]. destruct (IH (<[accessed_BucketClaimName ab0 := accessed_BucketID ab0]> m) Hnd)
    as [Hin Hout]. split.
  - intros ab' [->|Hab]%elem_of_cons; [|by apply Hin]. rewrite Hout by done. apply lookup_insert_eq.
  - intros n [Hne Hn]%not_elem_of_cons. rewrite Hout by done. by rewrite lookup_insert_ne.
Qed.

Lemma accessConfigs_loop_total ids l out errs :
  (∀ ref, ref ∈ l → is_Some (ids !! claimAccess_BucketClaimName ref) ∧
                    ∃ mode, AccessModeToRpc (claimAccess_AccessMode ref) = Ok mode) →
  (accessConfigs_loop ids l out errs).2 = errs.
Proof.
  revert out. induction l as [|ref l IH]; intros out Hall; cbn; [done|].
  destruct (Hall ref) as [[id ->] [mode ->]]; [by left|]. apply IH. intros ref' ?. apply Hall. by right.
Qed.

(** The modes of the access are known. *)
Definition modes_known : Prop :=
  ∀ ref, ref ∈ refs → ∃ mode, AccessModeToRpc (claimAccess_AccessMode ref) = Ok mode.

Section configs.
Context (Hmodes : modes_known) (w : World) (a : BucketAccess).
Context (Hid : access_identity a) (Hinit : initialized w a).
Abbreviation abs := (accessStatus_AccessedBuckets (access_Status a)).
Abbreviation ids := (bucketIdsByClaimName abs).

Lemma accessed_names : accessed_BucketClaimName <$> abs = ref_names refs.
Proof.
  destruct Hinit as (HF & _). symmetry. apply list_eq_Forall2, Forall2_fmap.
  eapply Forall2_impl; [exact HF|]. by intros ref ab [-> _].
Qed.

Lemma claim_id ref :
  ref ∈ refs → ∃ ab, ab ∈ abs ∧ accessed_for w ref ab ∧
    ids !! claimAccess_BucketClaimName ref = Some (accessed_BucketID ab).
Proof.
  intros Hin. destruct Hinit as (HF & _). destruct (Forall2_elem _ _ _ _ HF Hin) as (ab & Hab & Hfor).
  exists ab. split_and!; [done..|]. rewrite <-(proj1 Hfor). apply bucketIdsByClaimName_elem; [|done].
  rewrite accessed_names. exact Hunique.
Qed.

Lemma id_injective n1 n2 id : ids !! n1 = Some id → ids !! n2 = Some id → n1 = n2.
Proof.
  intros (ab1 & Hin1 & <- & Hi1)%bucketIdsByClaimName_lookup (ab2 & Hin2 & <- & Hi2)%bucketIdsByClaimName_lookup.
  destruct Hinit as (_ & Hnd & _). f_equal. eapply NoDup_fmap_elem; [exact Hnd|done..|congruence].
Qed.

(** Each bucket has one reference, whose Secret is the bucket's. *)
Definition config_of (configs : gmap string bucketGrantAccessConfig) : Prop :=
  (∀ id cfg, configs !! id = Some cfg → id ≠ "" ∧ ∃ ref, ref ∈ refs ∧
     ids !! claimAccess_BucketClaimName ref = Some id ∧
     bucketCfg_AccessSecretName cfg = claimAccess_AccessSecretName ref) ∧
  (∀ ref, ref ∈ refs → ∃ id cfg, ids !! claimAccess_BucketClaimName ref = Some id ∧
     configs !! id = Some cfg ∧ bucketCfg_AccessSecretName cfg = claimAccess_AccessSecretName ref).

Lemma configs_total :
  ∃ configs, generateInternalAccessedBucketConfigs a = Ok configs ∧ config_of configs.
Proof.
  pose proof Hid as (_ & _ & Hs & _).
  assert (∃ configs, generateInternalAccessedBucketConfigs a = Ok configs) as [configs Hc].
  { unfold generateInternalAccessedBucketConfigs. rewrite Hs.
    pose proof (accessConfigs_loop_total ids refs ∅ []) as Ht.
    destruct (accessConfigs_loop _ _ _ _) as [out errs]. cbn [snd] in Ht. rewrite Ht; [by exists out|].
    intros ref Hin. split; [|by apply Hmodes]. destruct (claim_id ref Hin) as (ab & _ & _ & Hl). eauto. }
  exists configs. split; [done|]. apply generateInternalAccessedBucketConfigs_Ok in Hc. rewrite Hs in Hc.
  destruct Hc as [H1 H2]. split.
  - intros id cfg Hl. destruct (H1 id cfg Hl) as (ref & Hin & (Hi & _ & Hn)). split; [|eauto].
    destruct (claim_id ref Hin) as (ab & _ & (_ & b & _ & (_ & _ & Hne & Heq)) & Hi').
    rewrite Hi' in Hi. injection Hi as <-. congruence.
  - intros ref Hin. destruct (H2 ref Hin) as (id & Hi & [cfg Hl]%elem_of_dom). exists id, cfg.
    split_and!; [done..|]. destruct (H1 id cfg Hl) as (ref' & Hin' & (Hi' & _ & ->)).
    f_equal. eapply (NoDup_fmap_elem _ _ _ _ Hunique); [done..|]. by eapply id_injective.
Qed.
End configs.

(** *** The driver *)

Definition validation : ValidationConfig := {|
  ExpectedProtocol := accessSpec_Protocol (access_Spec a0);
  ValidationAuthType := accessClassSpec_AuthenticationType (accessClass_Spec class) |}.

(** A complete answer to a request: an account, credentials and the information about each
    bucket asked for, for the protocol of the access. *)
Definition granted_in_full (q : DriverGrantBucketAccessRequest)
    (resp : DriverGrantBucketAccessResponse) : Prop :=
  grantResp_AccountId resp ≠ "" ∧
  (∃ ci, grantResp_Credentials resp = Some ci ∧ credentials_accepted validation ci) ∧
  (∀ id, id ∈ response_ids resp ↔ id ∈ request_ids q) ∧
  ∀ b, b ∈ grantResp_Buckets resp → ∃ bi, grantRespBucket_BucketInfo b = Some bi ∧
    bucket_info_accepted validation bi.

(** The driver grants the access: the protocol, the authentication type and the modes are
    known, and the driver answers every request for the account in full. *)
Definition grants (drv : ApiServer.Driver) : Prop :=
  modes_known ∧
  ∃ proto auth, ObjectProtocol_ApiToRpc (accessSpec_Protocol (access_Spec a0)) = Ok proto ∧
    AuthenticationTypeToRpc (accessClassSpec_AuthenticationType (accessClass_Spec class)) = Ok auth ∧
    ∀ q, grantReq_AccountName q = "ba-" +:+ GetUID a0 →
      grantReq_Protocol q = Some {| proto_Type := proto |} →
      grantReq_AuthenticationType q = Some {| authType_Type := auth |} →
      (∀ id, id ∈ request_ids q → id ≠ "") →
      ∃ resp, driver_grant drv q = Ok resp ∧ granted_in_full q resp.

Lemma translateBuckets_loop_total i l out errs :
  (∀ b, b ∈ l → grantRespBucket_BucketId b ≠ "" ∧ ∃ bi, grantRespBucket_BucketInfo b = Some bi ∧
                bucket_info_accepted validation bi) →
  (translateBuckets_loop i l validation out errs).2 = errs.
Proof.
  revert i out. induction l as [|b l IH]; intros i out Hall; cbn; [done|].
  destruct (Hall b) as [Hid (bi & -> & Hacc)]; [by left|]. apply eqs_false in Hid as ->.
  destruct (BucketInfoToApi_validated validation bi) as [[_ ->]|[Hn _]]; [|done].
  apply IH. intros b' ?. apply Hall. by right.
Qed.

Lemma response_total q resp :
  granted_in_full q resp → (∀ id, id ∈ request_ids q → id ≠ "") →
  ∃ g, translateDriverGrantBucketAccessResponseToApi resp validation = Ok g.
Proof.
  intros (Hacct & (ci & Hci & Hacc) & Hids & Hall) Hne.
  unfold translateDriverGrantBucketAccessResponseToApi. apply eqs_false in Hacct as ->. rewrite Hci.
  destruct (CredentialsToApi_validated validation ci) as [[_ ->]|[Hn _]]; [|done]. cbn [when_err].
  pose proof (translateBuckets_loop_total 0 (grantResp_Buckets resp) ∅ []) as Ht.
  destruct (translateBuckets_loop _ _ _ _ _) as [out errs]. cbn [snd] in Ht.
  rewrite Ht; [by eexists|]. intros b Hb. split; [|by apply Hall].
  apply Hne, Hids, list_elem_of_fmap. by exists b.
Qed.

(** *** Filling the Secrets *)

(** The Secret of the bucket [id] holds what the driver has answered. *)
Definition holds_info (info creds : gmap string string) (s : Secret) : Prop :=
  info ∪ creds ⊆ secret_Data s.

Lemma run_updateSecrets_loop w entries configs creds m errs :
  NoDup entries.*1 →
  (∀ id1 id2 c1 c2, configs !! id1 = Some c1 → configs !! id2 = Some c2 →
     bucketCfg_AccessSecretName c1 = bucketCfg_AccessSecretName c2 → id1 = id2) →
  (∀ id info, (id, info) ∈ entries → ∃ cfg, configs !! id = Some cfg ∧
     is_Some (m !! bucketCfg_AccessSecretName cfg)) →
  (∀ n s, m !! n = Some s → own_secret w n s) →
  runs (updateSecrets_loop entries configs creds m errs) w (λ w' r, r = errs ∧ secrets_only w w' ∧
    (∀ n, is_Some (m !! n) → ∃ s, own_secret w' n s) ∧
    (∀ n, (∀ id cfg, id ∈ entries.*1 → configs !! id = Some cfg → bucketCfg_AccessSecretName cfg ≠ n) →
       w_secrets w' !! (GetNamespace a0, n) = w_secrets w !! (GetNamespace a0, n)) ∧
    (∀ id info cfg, (id, info) ∈ entries → configs !! id = Some cfg → ∃ s,
       w_secrets w' !! (GetNamespace a0, bucketCfg_AccessSecretName cfg) = Some s ∧
       holds_info info creds s)).
Proof.
  intros Hnd Hinj. revert w m Hnd.
  induction entries as [|[id info] rest IH]; intros w m Hnd Hcfg Hown; cbn [updateSecrets_loop].
  { cbn. split; [done|]. split; [done|]. split; [intros n [s Hs]; eauto|]. split; [done|].
    by intros ? ? ? ?%elem_of_nil. }
  cbn [fmap list_fmap fst] in *. apply NoDup_cons in Hnd as [Hni Hnd].
  destruct (Hcfg id info) as (cfg & Hc & [s Hs]); [by left|]. rewrite Hc, Hs. rs.
  set (n := bucketCfg_AccessSecretName cfg) in *. pose proof (Hown n s Hs) as (Hcur & Hk & Hctl).
  eapply runs_UpdateSecret; [exact Hcur|done|]. intros s2 Hw2. rs.
  assert (own_secret (put_secret w s2) n s2) as Hs2 by (by eapply put_own_secret).
  eapply runs_mono; [apply IH; [done|..]|].
  - intros id' info' Hin. destruct (Hcfg id' info') as (cfg' & Hc' & Hs'); [by right|].
    exists cfg'. split; [done|]. destruct (decide (n = bucketCfg_AccessSecretName cfg')) as [<-|Hne];
      [rewrite lookup_insert_eq|rewrite lookup_insert_ne by done]; eauto.
  - intros n' s' [[<- <-]|[Hne Hl]]%lookup_insert_Some; [done|].
    apply (own_secret_put_ne w n' n); [done|apply Hs2|by apply Hown].
  - intros w' r (-> & Hw & Hkeep & Hout & Hin). split; [done|].
    split; [by eapply secrets_only_trans; [|exact Hw]|]. split_and!.
    + intros n' Hn'. apply Hkeep. destruct (decide (n = n')) as [<-|Hne];
        [rewrite lookup_insert_eq|rewrite lookup_insert_ne by done]; eauto.
    + intros n' Hn'. rewrite Hout by (intros; eapply Hn'; [by right|done]).
      apply put_secret_ne. destruct Hs2 as (_ & -> & _). intros [= Heq]. eapply Hn'; [by left|done|done].
    + intros id' info' cfg' [[= -> ->]|Hin']%elem_of_cons Hc'; [|by eapply Hin].
      rewrite Hc in Hc'. injection Hc' as <-. exists s2. split.
      * fold n. rewrite Hout.
        { destruct Hs2 as ([Hl _] & Hk2 & _). by rewrite Hk2 in Hl. }
        intros id2 cfg2 Hid2 Hc2 Heq. apply Hni. by rewrite (Hinj id id2 cfg cfg2 Hc Hc2 (eq_sym Heq)).
      * unfold holds_info. destruct Hw2 as (_ & _ & _ & _ & ->).
        cbn [secret_StringData secret_Data secret_with_StringData].
        rewrite !Merge_union. cbn [map_of default]. rewrite (right_id_L ∅ (∪)). apply map_union_subseteq_l.
Qed.

(** The Secret of a reference holds the variables of its bucket and the credentials, as the
    driver has answered them for the account of the access. *)
Definition secret_filled (w : World) (a : BucketAccess) (ref : BucketClaimAccess) : Prop :=
  ∃ s ab q resp b bi ci, own_secret w (claimAccess_AccessSecretName ref) s ∧
    ab ∈ accessStatus_AccessedBuckets (access_Status a) ∧
    accessed_BucketClaimName ab = claimAccess_BucketClaimName ref ∧
    grantReq_AccountName q = "ba-" +:+ GetUID a0 ∧ driver_grant (w_driver w) q = Ok resp ∧
    b ∈ grantResp_Buckets resp ∧ grantRespBucket_BucketId b = accessed_BucketID ab ∧
    grantRespBucket_BucketInfo b = Some bi ∧ grantResp_Credentials resp = Some ci ∧
    bucket_info_vars bi ∪ credential_vars ci ⊆ secret_Data s.

Definition access_granted (w : World) (a : BucketAccess) : Prop :=
  accessStatus_ReadyToUse (access_Status a) = Some true ∧
  accessStatus_AccountID (access_Status a) ≠ "" ∧ accessStatus_Error (access_Status a) = None ∧
  ∀ ref, ref ∈ refs → secret_filled w a ref.

(** The Sidecar's turn leaves claims, Buckets, classes and the driver alone. *)
Definition sidecar_kept (w w' : World) : Prop :=
  w_claims w' = w_claims w ∧ w_buckets w' = w_buckets w ∧ w_accessClasses w' = w_accessClasses w ∧
  w_now w' = w_now w ∧ w_driver w' = w_driver w.

Lemma initialized_kept w w' a a' :
  w_buckets w' = w_buckets w →
  accessStatus_AccessedBuckets (access_Status a') = accessStatus_AccessedBuckets (access_Status a) →
  accessStatus_DriverName (access_Status a') = accessStatus_DriverName (access_Status a) →
  accessStatus_AuthenticationType (access_Status a') = accessStatus_AuthenticationType (access_Status a) →
  initialized w a → initialized w' a'.
Proof.
  unfold initialized. intros Hb -> -> -> (HF & Hi). split; [|done].
  eapply Forall2_impl; [exact HF|]. intros ref ab (Hn & b & Hl & Hu). split; [done|]. exists b. by rewrite Hb.
Qed.

Lemma run_updateSecretsWithGrantedInfo w a cfg g :
  access_identity a → initialized w a →
  config_of a (grantCfg_AccessConfigsByBucketId cfg) →
  dom (grantCfg_SecretsByName cfg) = list_to_set (secret_names refs) →
  (∀ n s, grantCfg_SecretsByName cfg !! n = Some s → own_secret w n s) →
  dom (grantCfg_AccessConfigsByBucketId cfg) = dom (granted_BucketInfoByBucketId g) →
  runs (updateSecretsWithGrantedInfo cfg g) w (λ w' r, r = None ∧ secrets_only w w' ∧
    ∀ ref, ref ∈ refs → ∃ s id info, own_secret w' (claimAccess_AccessSecretName ref) s ∧
      bucketIdsByClaimName (accessStatus_AccessedBuckets (access_Status a)) !!
        claimAccess_BucketClaimName ref = Some id ∧
      granted_BucketInfoByBucketId g !! id = Some info ∧
      holds_info info (granted_SharedCredentialInfo g) s).
Proof.
  intros Hid Hinit [Hc1 Hc2] Hdom Hown Hsame. unfold updateSecretsWithGrantedInfo.
  rs. apply runs_call. cbn [handle fst snd].
  eapply runs_bind; [apply run_updateSecrets_loop; [apply map_order_NoDup|..|exact Hown]|].
  - intros id1 id2 c1 c2 H1 H2 Heq.
    destruct (Hc1 _ _ H1) as (_ & r1 & Hr1 & Hi1 & Hn1), (Hc1 _ _ H2) as (_ & r2 & Hr2 & Hi2 & Hn2).
    assert (r1 = r2) as -> by (eapply (NoDup_fmap_elem _ _ _ _ Hsecrets); [done..|congruence]). congruence.
  - intros id info Hin%elem_of_map_order. apply elem_of_dom_2 in Hin. rewrite <-Hsame in Hin.
    apply elem_of_dom in Hin as [c Hc]. exists c. split; [done|]. apply elem_of_dom. rewrite Hdom.
    destruct (Hc1 _ _ Hc) as (_ & ref & Hr & _ & ->). apply elem_of_list_to_set, list_elem_of_fmap. eauto.
  - intros w' errs (-> & Hw & Hkeep & _ & Hfill). cbn. split; [done|]. split; [done|].
    intros ref Hr. destruct (Hc2 ref Hr) as (id & c & Hi & Hc & Hn).
    assert (is_Some (granted_BucketInfoByBucketId g !! id)) as [info Hinfo].
    { apply elem_of_dom. rewrite <-Hsame. by apply elem_of_dom_2 in Hc. }
    destruct (Hfill id info c) as (s & Hl & Hh); [by apply elem_of_map_order|done|].
    destruct (Hkeep (claimAccess_AccessSecretName ref)) as [s' Hs'].
    { apply elem_of_dom. rewrite Hdom. apply elem_of_list_to_set, list_elem_of_fmap. eauto. }
    exists s', id, info. split_and!; [done..|]. destruct Hs' as ([Hl' _] & Hk' & _).
    rewrite Hk', <-Hn, Hl in Hl'. by injection Hl' as <-.
Qed.

Lemma run_grantAccess w a cfg m :
  grants (w_driver w) → access_there w a → initialized w a →
  newInternalGrantAccessConfig a m = Ok cfg →
  config_of a (grantCfg_AccessConfigsByBucketId cfg) →
  dom m = list_to_set (secret_names refs) → (∀ n s, m !! n = Some s → own_secret w n s) →
  runs (grantAccess a cfg) w (λ w' r, r.2 = None ∧ access_there w' r.1 ∧ initialized w' r.1 ∧
    access_granted w' r.1 ∧ sidecar_kept w w').
Proof.
  intros (_ & proto & auth & Hproto & Hauth' & Hgrant) Ha Hinit Hcfg Hconf Hdom Hown.
  pose proof Ha as [Hcur Hid]. pose proof Hid as (Hk & Hu & Hs & _). pose proof Hinit as (_ & _ & _ & Hat).
  apply newInternalGrantAccessConfig_Ok in Hcfg as (Hshared & _ & Hacct & Hsec).
  unfold newInternalAccessConfig in Hshared. rewrite Hs, Hat, Hproto, Hauth' in Hshared.
  injection Hshared as Hshared. unfold grantAccess. rs. apply runs_call. cbn [handle fst snd]. rs.
  apply runs_call. cbn [handle fst snd].
  set (q := grant_request _ cfg).
  assert (∀ id, id ∈ request_ids q → id ≠ "") as Hne.
  { intros id Hin. apply request_ids_spec, elem_of_dom in Hin as [c Hc]. by apply (proj1 Hconf) in Hc as [? _]. }
  destruct (Hgrant q) as (resp & Hresp & Hfull);
    [cbn; by rewrite Hacct, Hu|unfold q, grant_request; by rewrite <-Hshared..|exact Hne|].
  rewrite Hresp. rs. rewrite Hs, Hat. fold validation.
  destruct (response_total q resp Hfull Hne) as [g Hg]. rewrite Hg.
  apply translate_response_Ok in Hg as (Hacct' & Hgacct & (ci & Hci & _ & Hcreds) & Hgdom & Hginfo).
  rs. apply runs_call. cbn [handle fst snd]. rs. apply runs_call. cbn [handle fst snd].
  assert (dom (grantCfg_AccessConfigsByBucketId cfg) = dom (granted_BucketInfoByBucketId g)) as Hsame.
  { apply set_eq. intros id. rewrite <-request_ids_spec, Hgdom, elem_of_list_to_set.
    symmetry. apply (proj1 (proj2 (proj2 Hfull))). }
  rewrite (proj2 (validateGrantedAccess_None _ _ _ _) Hsame).
  eapply runs_bind; [apply (run_updateSecretsWithGrantedInfo w a); rewrite ?Hsec; done|].
  intros w1 oe (-> & Hw1 & Hfill). rs.
  pose proof Hw1 as (Hc1 & Hb1 & Ha1 & Hac1 & Hn1 & Hd1).
  eapply runs_StatusUpdateAccess; [by apply current_stored; rewrite Ha1|done|].
  intros a2 Hw2. pose proof Hw2 as (_ & _ & _ & _ & _ & Hd2 & Hst2). rs. cbn [runs fst snd].
  split; [done|]. split; [|split; [|split]].
  - apply put_access_there; [rewrite Hd2; apply Hcur|]. by eapply access_identity_kept.
  - eapply initialized_kept; [..|exact Hinit]; [done|by rewrite Hst2..].
  - unfold access_granted. rewrite Hst2. cbn. split_and!; [done|congruence|done|].
    intros ref Hr. destruct (Hfill ref Hr) as (s & id & info & Hs' & Hi & Hinfo & Hh).
    destruct (Hginfo id info Hinfo) as (b & bi & Hb & Hbid & Hbi & _ & ->).
    destruct (bucketIdsByClaimName_lookup _ _ _ Hi) as (ab & Hab & Hab1 & Hab2).
    exists s, ab, q, resp, b, bi, ci. rewrite Hst2. split_and!; try done; [cbn; by rewrite Hacct, Hu|cbn; by rewrite Hd1|congruence|].
    by rewrite <-Hcreds.
  - unfold sidecar_kept. by split_and!.
Qed.

Definition secrets_free (w : World) : Prop := ∀ n, n ∈ secret_names refs → secret_free w n.

Lemma access_granted_free w a : access_granted w a → secrets_free w.
Proof.
  intros (_ & _ & _ & Hfill) n (ref & -> & Hr)%list_elem_of_fmap.
  destruct (Hfill ref Hr) as (s & ab & q & resp & b & bi & ci & Hs & _). unfold secret_free.
  pose proof Hs as ([Hl _] & Hk & _). rewrite Hk in Hl. by rewrite Hl.
Qed.

Lemma initialized_requirements w a : initialized w a → requirements_set (access_Status a).
Proof.
  intros (HF & _ & Hd & Ht). unfold requirements_set. rewrite Hd, Ht. split_and!; [|done..].
  intros Hnil. rewrite Hnil in HF. by apply Forall2_nil_inv_r in HF.
Qed.

Lemma run_sidecar_reconcile w a :
  grants (w_driver w) → access_there w a → initialized w a → secrets_free w →
  runs (SidecarAccess.reconcile d a) w (λ w' r, r.2 = None ∧ access_there w' r.1 ∧
    initialized w' r.1 ∧ access_granted w' r.1 ∧ sidecar_kept w w').
Proof.
  intros Hg Ha Hinit Hfree. unfold SidecarAccess.reconcile. pose proof Hinit as (_ & _ & -> & _).
  rewrite eqs_refl. cbn [negb]. pose proof Ha as [[_ ->] _].
  rewrite (proj2 (proj1 (sidecar_requirements_exact _)) (initialized_requirements _ _ Hinit)). cbn [negb].
  eapply runs_bind; [exact (run_ensureAccessFinalizer w a Ha)|].
  intros w1 [a1 oe] (Hoe & Ha1 & (Hc1 & Hb1 & Hac1 & Hsec1 & Hn1 & Hd1) & Hst1). cbn [fst snd] in *. subst oe.
  assert (initialized w1 a1) as Hinit1.
  { eapply initialized_kept; [exact Hb1|by rewrite Hst1..|exact Hinit]. }
  eapply runs_bind with (Q := λ w' r, w' = w1 ∧ r = None).
  { unfold getAndValidateAllAccessedBuckets. eapply runs_bind; [apply run_validateBuckets_loop|].
    - intros ab Hab. destruct Hinit1 as (HF & _). apply Forall2_flip in HF.
      destruct (Forall2_elem _ _ _ _ HF Hab) as (ref & _ & (_ & Hb)). exact Hb.
    - by intros ? ? [-> ->]. }
  intros ? ? [-> ->].
  eapply runs_bind; [apply run_reserveAccessSecrets; [apply Ha1|]|].
  { intros n Hn. specialize (Hfree n Hn). unfold secret_free, own_secret in *. by rewrite Hsec1. }
  intros w2 ? (Hw2 & m & -> & Hdom & Hown). pose proof Hw2 as (Hc2 & Hb2 & Ha2 & Hac2 & Hn2 & Hd2).
  assert (initialized w2 a1) as Hinit2 by (by eapply initialized_kept; [exact Hb2|..|exact Hinit1]).
  assert (access_there w2 a1) as Hthere2 by (unfold access_there in *; by rewrite Ha2).
  destruct (configs_total (proj1 Hg) w2 a1 (proj2 Ha1) Hinit2) as (configs & Hconfigs & Hconf).
  assert (∃ cfg, newInternalGrantAccessConfig a1 m = Ok cfg ∧
    grantCfg_AccessConfigsByBucketId cfg = configs) as (cfg & Hcfg & Hcc).
  { pose proof Hg as (_ & proto & auth & Hp & Ht & _). pose proof Ha1 as [_ (_ & _ & Hs & _)].
    unfold newInternalGrantAccessConfig, newInternalAccessConfig.
    rewrite Hs, Hp, (proj2 (proj2 (proj2 Hinit2))), Ht, Hconfigs. by eexists. }
  rewrite Hcfg. eapply runs_mono.
  - apply (run_grantAccess w2 a1 cfg m); try done; [by rewrite Hd2, Hd1|by rewrite Hcc].
  - intros w' r (Hr & Hthere & Hi & Hgr & Hk). split; [done|]. split; [done|]. split; [done|].
    split; [done|]. unfold sidecar_kept in *. intuition congruence.
Qed.

Lemma initialized_managed w a : access_there w a → initialized w a → ManagedBySidecar a = true.
Proof.
  intros [[_ Hd] (_ & _ & _ & Ho)] (_ & _ & Hn & _). apply ManagedBySidecar_true.
  split_and!; [done|by rewrite Hn|]. by rewrite Hd.
Qed.

Lemma run_sidecar_Reconcile w a :
  grants (w_driver w) → access_there w a → initialized w a → secrets_free w →
  runs (SidecarAccess.Reconcile d access_key) w (λ w' _, ∃ a', access_there w' a' ∧
    initialized w' a' ∧ access_granted w' a' ∧ sidecar_kept w w').
Proof.
  intros Hg Ha Hinit Hfree. unfold SidecarAccess.Reconcile. rs.
  eapply runs_GetAccess; [by apply access_stored|]. rs.
  rewrite (initialized_managed w a Ha Hinit). cbn [negb].
  eapply runs_bind; [by apply run_sidecar_reconcile|].
  intros w1 [a1 oe] (Hoe & Ha1 & Hi & Hgr & Hk). cbn [fst snd] in *. subst oe. cbn. eauto.
Qed.

(** ** Turns *)

Definition take_turn (w : World) (t : turn) : World :=
  match t with
  | ControllerTurn => run_world (AccessController.Reconcile access_key) w
  | SidecarTurn => run_world (SidecarAccess.Reconcile d access_key) w
  end.

(** How far the access has come: not initialised, handed to the Sidecar, and granted. *)
Inductive stage : nat → World → Prop :=
| stage_requested w a :
    access_there w a → requirements_unset (access_Status a) → class_there w →
    claims_accessible w → secrets_free w → grants (w_driver w) → stage 0 w
| stage_initialized w a :
    access_there w a → initialized w a → secrets_free w → grants (w_driver w) → stage 1 w
| stage_granted w a :
    access_there w a → initialized w a → access_granted w a → grants (w_driver w) → stage 2 w.

(** The turns from one stage to the next. *)
Definition granting_plan : list turn := [ControllerTurn; SidecarTurn].
Abbreviation next_stage := (advance granting_plan).

(** A reconciler does nothing when the access is the other's. *)
Lemma granting_controller_idle w a :
  access_there w a → initialized w a → take_turn w ControllerTurn = w.
Proof.
  intros Ha Hi. cbn [take_turn]. refine (proj1 (runs_run _ w (λ w' _, w' = w)) _).
  unfold AccessController.Reconcile. rs. eapply runs_GetAccess; [by apply access_stored|]. rs.
  by rewrite (initialized_managed w a Ha Hi).
Qed.

Lemma granting_sidecar_idle w a :
  access_there w a → requirements_unset (access_Status a) → take_turn w SidecarTurn = w.
Proof.
  intros Ha (_ & Hn & _). cbn [take_turn]. refine (proj1 (runs_run _ w (λ w' _, w' = w)) _).
  unfold SidecarAccess.Reconcile. rs. eapply runs_GetAccess; [by apply access_stored|]. rs.
  by rewrite (proj1 (ownership_lifecycle a) Hn).
Qed.

Lemma granting_controller_turn n w : stage n w → stage (next_stage n ControllerTurn) (take_turn w ControllerTurn).
Proof.
  intros [w' a Ha Hun Hcl Hacc Hfree Hg|w' a Ha Hi Hfree Hg|w' a Ha Hi Hgr Hg].
  - destruct (proj1 (runs_run _ _ _) (run_controller_Reconcile w' a Ha Hun Hcl Hacc))
      as (a' & Ha' & Hi & (Hb & _ & Hsec & _ & Hd)).
    eapply stage_initialized; [exact Ha'|exact Hi| |].
    + intros n' Hn'. specialize (Hfree n' Hn'). unfold secret_free, own_secret in *. cbn [take_turn].
      by rewrite Hsec.
    + cbn [take_turn]. by rewrite Hd.
  - rewrite (granting_controller_idle w' a) by done. by eapply stage_initialized.
  - rewrite (granting_controller_idle w' a) by done. by eapply stage_granted.
Qed.

Lemma granting_sidecar_turn n w : stage n w → stage (next_stage n SidecarTurn) (take_turn w SidecarTurn).
Proof.
  intros [w' a Ha Hun Hcl Hacc Hfree Hg|w' a Ha Hi Hfree Hg|w' a Ha Hi Hgr Hg].
  { rewrite (granting_sidecar_idle w' a) by done. by eapply stage_requested. }
  2: apply access_granted_free in Hgr as Hfree.
  all: destruct (proj1 (runs_run _ _ _) (run_sidecar_Reconcile w' a Hg Ha Hi Hfree))
      as (a' & Ha' & Hi' & Hgr' & (_ & _ & _ & _ & Hd)).
  all: eapply stage_granted; [exact Ha'|exact Hi'|exact Hgr'|]; cbn [take_turn]; by rewrite Hd.
Qed.

Lemma granting_turn n w t : stage n w → stage (next_stage n t) (take_turn w t).
Proof. destruct t; [apply granting_controller_turn|apply granting_sidecar_turn]. Qed.
End granting.

(** C9: Granting gets there. Take an access that is live and not initialised yet, with one or
    more references that name different claims and different Secrets, in known modes; a class of the
    Sidecar's driver, with a known authentication type, that allows it; claims that are live, ready
    and bound, offer the protocol or list none, and have usable Buckets whose backend IDs are all
    different; and a driver that grants what it is asked for, on an API server that answers
    honestly. The Secrets may be absent or be the access's from an interrupted attempt. When the
    Controller and then the Sidecar reconcile, with any number of other turns of the two before, between
    and after, then the access is ready in the end, with an account, and every Secret holds
    the variables of its bucket and the credentials that the driver has answered. *)
Theorem granting_converges d a0 class w ts :
  accessSpec_BucketClaims (access_Spec a0) ≠ [] →
  NoDup (claimAccess_BucketClaimName <$> accessSpec_BucketClaims (access_Spec a0)) →
  NoDup (claimAccess_AccessSecretName <$> accessSpec_BucketClaims (access_Spec a0)) →
  class_allows (accessClass_Spec class) (access_Spec a0) →
  accessClassSpec_DriverName (accessClass_Spec class) = driver_Name d → driver_Name d ≠ "" →
  accessClassSpec_AuthenticationType (accessClass_Spec class) ≠ "" →
  access_there a0 w a0 → requirements_unset (access_Status a0) → class_there a0 class w →
  claims_accessible a0 w → secrets_free a0 w → grants a0 class (w_driver w) →
  granting_plan `sublist_of` ts →
  stage d a0 class 2 (foldl (take_turn d a0) w ts).
Proof.
  intros. apply (plan_carried_out granting_plan (take_turn d a0) (stage d a0 class));
    [|by eapply stage_requested|done].
  intros n w' t. by apply granting_turn.
Qed.

(** The access of the example installation, with idle turns around the two. *)
Definition demo_grant_turns : list turn :=
  [SidecarTurn; ControllerTurn; ControllerTurn; SidecarTurn; SidecarTurn; ControllerTurn].
Definition demo_request_world : World := demo_world [demo_bound_claim] [demo_ready_bucket] [demo_access] [].

Lemma demo_grants : grants demo_access demo_access_class demo_driver.
Proof.
  split.
  { intros ref Hr. apply list_elem_of_singleton in Hr as ->. by eexists. }
  exists ObjectProtocol_S3, AuthenticationType_KEY. split; [reflexivity|]. split; [reflexivity|].
  intros q _ _ _ Hne. eexists. split; [reflexivity|]. split; [done|]. split_and!.
  - eexists. split; [reflexivity|]. vm_compute. by split_and!.
  - intros id. cbn [grantResp_Buckets]. by rewrite <-list_fmap_compose.
  - intros b (ab & -> & Hin)%list_elem_of_fmap. eexists. split; [reflexivity|].
    assert (grantReqBucket_BucketId ab ≠ "") as Hid.
    { apply Hne, list_elem_of_fmap. by exists ab. }
    vm_compute in Hid |- *. split_and!; try done. exists 1%Z. by split; [|left].
Qed.

Lemma demo_claims_accessible : claims_accessible demo_access demo_request_world.
Proof.
  exists ["backend-bc-u1"]. split; [apply NoDup_singleton|]. constructor; [|constructor].
  exists demo_bound_claim, demo_ready_bucket. split_and!; try done. intros _. left.
Qed.

Lemma demo_class_allows : class_allows (accessClass_Spec demo_access_class) (access_Spec demo_access).
Proof. apply ValidateAccessAgainstClass_None. reflexivity. Qed.

Lemma granting_converges_witness :
  stage demo_driver_info demo_access demo_access_class 2
    (foldl (take_turn demo_driver_info demo_access) demo_request_world demo_grant_turns).
Proof.
  apply granting_converges;
    [done|apply NoDup_singleton|apply NoDup_singleton|exact demo_class_allows|done|done|done|done|done
    |done|exact demo_claims_accessible| |exact demo_grants|].
  - intros n Hn. apply list_elem_of_singleton in Hn as ->. done.
  - unfold demo_grant_turns. repeat first [apply sublist_skip | apply sublist_cons]; apply sublist_nil.
Defined.
