(* ===== verification/Cleanup.v ===== *)
(** * Deletion gets there

    The end of a BucketAccess on the API server of [ApiServer]: when the user has deleted it
    and the driver revokes the account, the Sidecar and then the Controller delete its
    Secrets, unmark the claims that nothing else refers to and let the object go. *)

From stdpp Require Import base gmap strings list.
From S2P Require Import Prelude GoErrors ApiTypes ProtoTypes Effects ApiServer History Honest.
From S2P Require Import Ownership Protocol Translator Driver AccessController SidecarAccess Granting.

(** An object whose finalizers are all COSI's. *)
Definition only_protected {A} `{ClientObject A} (a : A) : Prop :=
  ∀ f, f ∈ GetFinalizers a → f = ProtectionFinalizer.

Lemma RemoveFinalizer_last {A} `{ClientObject A} (a : A) :
  only_protected a → GetFinalizers (RemoveFinalizer a ProtectionFinalizer) = [].
Proof.
  intros Ha. unfold RemoveFinalizer, SetFinalizers, only_protected, GetFinalizers in *.
  rewrite GetMeta_SetMeta. cbn.
  induction (meta_Finalizers (GetMeta a)) as [|f l IH]; cbn; [done|].
  rewrite (Ha f) by by left. cbn. apply IH. intros g Hg. apply Ha. by right.
Qed.

Lemma set_annotation_ne {A} `{ClientObject A} k k' v (a : A) :
  k ≠ k' → has_annotation k' (set_annotation k v a) = has_annotation k' a.
Proof.
  intros Hne. unfold has_annotation, set_annotation, SetAnnotations, GetAnnotations, has_key.
  rewrite GetMeta_SetMeta. cbn. by rewrite lookup_insert_ne.
Qed.

Section cleanup.
Context (d : DriverInfo) (a0 : BucketAccess).
Abbreviation refs := (accessSpec_BucketClaims (access_Spec a0)).
Abbreviation ns := (GetNamespace a0).
Abbreviation secret_names l := (claimAccess_AccessSecretName <$> l).

(** ** The Secrets *)

(** A Secret under the name [n] that belongs to the access can be deleted, and is gone. *)
Definition secret_deletable (w : World) (n : string) : Prop :=
  ∀ s, w_secrets w !! (ns, n) = Some s → key_of s = (ns, n) ∧
    (IsControlledBy s a0 = true → IsDeleting s = false ∧ only_protected s).
Definition secret_gone (w : World) (n : string) : Prop :=
  ∀ s, w_secrets w !! (ns, n) = Some s → IsControlledBy s a0 = false.

(** Some Secrets went, the others are as they were. *)
Definition secrets_removed (w w' : World) : Prop :=
  secrets_only w w' ∧ ∀ k, w_secrets w' !! k = w_secrets w !! k ∨ w_secrets w' !! k = None.

Lemma secrets_removed_trans w1 w2 w3 :
  secrets_removed w1 w2 → secrets_removed w2 w3 → secrets_removed w1 w3.
Proof.
  intros [Ho1 Hr1] [Ho2 Hr2]. split; [by eapply secrets_only_trans|]. intros k.
  destruct (Hr2 k) as [->|]; [apply Hr1|by right].
Qed.

Lemma secret_deletable_removed w w' n :
  secrets_removed w w' → secret_deletable w n → secret_deletable w' n.
Proof. intros [_ Hr] Hd s Hs. destruct (Hr (ns, n)) as [Heq|Heq]; rewrite Heq in Hs; [by apply Hd|done]. Qed.
Lemma secret_gone_removed w w' n : secrets_removed w w' → secret_gone w n → secret_gone w' n.
Proof. intros [_ Hr] Hd s Hs. destruct (Hr (ns, n)) as [Heq|Heq]; rewrite Heq in Hs; [by apply Hd|done]. Qed.

(** The world in which one Secret of the access was stripped of its finalizer and deleted. *)
Lemma put_deleted w s2 :
  secrets_removed w (with_secrets (delete (key_of s2) (w_secrets (put_secret w s2))) (put_secret w s2)).
Proof.
  split; [done|]. intros k. cbn. destruct (decide (key_of s2 = k)) as [<-|Hne].
  - right. apply lookup_delete_eq.
  - left. by rewrite lookup_delete_ne, lookup_insert_ne.
Qed.

Lemma run_deleteSecrets_loop w a l errs :
  key_of a = key_of a0 → GetUID a = GetUID a0 → w_now w ≠ 0%Z →
  (∀ n, n ∈ secret_names l → secret_deletable w n) →
  runs (deleteSecrets_loop a l errs) w (λ w' r, r = errs ∧ secrets_removed w w' ∧
    ∀ n, n ∈ secret_names l → secret_gone w' n).
Proof.
  intros Hk Hu. assert (GetNamespace a = ns) as Hns by (unfold key_of in Hk; congruence).
  revert w. induction l as [|ref l IH]; intros w Hnow Hdel; cbn [deleteSecrets_loop].
  { cbn. split; [done|]. split; [split; [done|by left]|]. by intros n ?%elem_of_nil. }
  set (n := claimAccess_AccessSecretName ref) in *. cbn [fmap list_fmap] in *. fold n in Hdel |- *.
  (* the rest of the loop, once this Secret is dealt with *)
  assert (∀ w1, secrets_removed w w1 → secret_gone w1 n →
    runs (deleteSecrets_loop a l errs) w1 (λ w' r, r = errs ∧ secrets_removed w w' ∧
      ∀ n', n' ∈ n :: secret_names l → secret_gone w' n')) as Hgo.
  { intros w1 Hw1 Hg. pose proof Hw1 as [(_ & _ & _ & _ & Hn1 & _) _]. eapply runs_mono; [apply IH|].
    - by rewrite Hn1.
    - intros n' Hn'. eapply secret_deletable_removed; [done|]. apply Hdel. by right.
    - intros w' r (-> & Hw & Hall). split; [done|]. split; [by eapply secrets_removed_trans|].
      intros n' [->|Hn']%elem_of_cons; [by eapply secret_gone_removed|by apply Hall]. }
  assert (secrets_removed w w) as Hrefl by (split; [done|by left]).
  rs. destruct (w_secrets w !! (ns, n)) as [s|] eqn:Es.
  - eapply runs_GetSecret; [cbn; by rewrite Hns|]. rs.
    destruct (Hdel n ltac:(by left) s Es) as [Hks Hown].
    rewrite (secret_controlled_same a0) by done. destruct (IsControlledBy s a0) eqn:Ec; cbn [negb].
    2: { apply Hgo; [done|]. intros s' Hs'. congruence. }
    destruct (Hown eq_refl) as [Hd Hf]. rs.
    eapply runs_UpdateSecret; [split; [by rewrite Hks|done]|apply same_version_RemoveFinalizer|].
    intros s2 (Hk2 & _ & Hf2 & _). rewrite RemoveFinalizer_last in Hf2 by done. rs.
    eapply (runs_DeleteSecret s2 s2); [apply lookup_insert_eq|done..|]. rs.
    apply Hgo; [apply put_deleted|]. intros s' Hs'. cbn in Hs'.
    rewrite Hk2, (same_version_key _ _ (same_version_RemoveFinalizer s _)), Hks, lookup_delete_eq in Hs'. done.
  - apply runs_GetSecret_None; [cbn; by rewrite Hns|]. intros msg. rs.
    replace (IsNotFound _) with true by done. apply Hgo; [done|]. intros s' Hs'. congruence.
Qed.

(** ** The Sidecar's turn *)

(** The access, under deletion and as it is stored. *)
Definition leaving (w : World) (a : BucketAccess) : Prop :=
  w_accesses w !! key_of a = Some a ∧ access_identity a0 a ∧ IsDeleting a = true ∧
  GetFinalizers a ≠ [] ∧ only_protected a.

Lemma leaving_kept w a a1 a2 s :
  leaving w a → access_written a1 a s a2 → key_of a1 = key_of a → access_Spec a1 = access_Spec a →
  GetFinalizers a1 = GetFinalizers a →
  has_annotation ControllerManagementOverrideAnnotation a1 = false → leaving (put_access w a2) a2.
Proof.
  intros (Hl & (Hk & Hu & Hs & Ho) & Hd & Hf & Hp) (Hk2 & Hu2 & Hs2 & Ha2 & Hf2 & Hd2 & _) Hk1 Hs1 Hf1 Ho1.
  unfold leaving, only_protected. rewrite Hf2, Hf1, Hd2. split; [apply lookup_insert_eq|].
  split; [|done]. unfold access_identity, has_annotation in *. rewrite Hk2, Hu2, Hs2, Ha2, Hk1, Hs1. by split_and!.
Qed.

(** What the revocation needs: a known protocol and authentication type, the IDs of the
    accessed buckets, and a driver that revokes. *)
Definition revocable (drv : ApiServer.Driver) (st : BucketAccessStatus) : Prop :=
  accessStatus_AccountID st = "" ∨
  (∃ proto auth, ObjectProtocol_ApiToRpc (accessSpec_Protocol (access_Spec a0)) = Ok proto ∧
     AuthenticationTypeToRpc (accessStatus_AuthenticationType st) = Ok auth) ∧
  (∀ ab, ab ∈ accessStatus_AccessedBuckets st → accessed_BucketID ab ≠ "") ∧
  ∀ q, revokeReq_AccountId q = accessStatus_AccountID st → driver_revoke drv q = Ok tt.

Lemma revokeList_total l :
  (∀ ab, ab ∈ l → accessed_BucketID ab ≠ "") → ∃ out, revokeList_loop l = Ok out.
Proof.
  induction l as [|ab l IH]; intros Hall; cbn; [by eexists|].
  rewrite (proj2 (eqs_false _ _) (Hall ab ltac:(by left))).
  destruct IH as [out ->]; [|by eexists]. intros ab' ?. apply Hall. by right.
Qed.

Lemma run_revoke w a :
  access_Spec a = access_Spec a0 → revocable (w_driver w) (access_Status a) →
  runs (if accessStatus_AccountID (access_Status a) <>s "" then driverRevokeAccess a else Ret None) w
    (λ w' r, w' = w ∧ r = None).
Proof.
  intros Hs [->|((proto & auth & Hp & Ht) & Hids & Hrev)]; [done|].
  destruct (_ <>s "") eqn:E; [|done]. unfold driverRevokeAccess, newInternalRevokeAccessConfig, newInternalAccessConfig.
  rewrite Hs, Hp, Ht. apply neqs_true, eqs_false in E as ->.
  destruct (revokeList_total _ Hids) as [out ->]. rs. apply runs_call. cbn [handle fst snd].
  rewrite Hrev by done. done.
Qed.

Lemma run_sidecar_cleanup w a :
  leaving w a → accessStatus_DriverName (access_Status a) = driver_Name d →
  revocable (w_driver w) (access_Status a) → w_now w ≠ 0%Z →
  (∀ n, n ∈ secret_names refs → secret_deletable w n) →
  runs (SidecarAccess.reconcile d a) w (λ w' r, r.2 = None ∧ leaving w' r.1 ∧
    has_annotation SidecarCleanupFinishedAnnotation r.1 = true ∧
    (∀ n, n ∈ secret_names refs → secret_gone w' n) ∧
    w_claims w' = w_claims w ∧ delete (key_of a0) (w_accesses w') = delete (key_of a0) (w_accesses w)).
Proof.
  intros Ha Hdn Hrev Hnow Hsec. pose proof Ha as (Hl & (Hk & Hu & Hs & Ho) & Hd & Hf & Hp).
  unfold SidecarAccess.reconcile. rewrite Hdn, eqs_refl, Hd. cbn [negb].
  unfold SidecarAccess.reconcileDelete. rs.
  eapply runs_StatusUpdateAccess; [by split|done|]. intros a1 Hw1. rs.
  assert (leaving (put_access w a1) a1) as Ha1 by (by eapply leaving_kept).
  pose proof Hw1 as (Hk1 & Hu1 & Hs1 & _ & _ & _ & Hst1).
  unfold deleteOwnedAccessSecrets. rewrite Hs1, Hs.
  eapply runs_bind; [eapply runs_bind; [apply run_deleteSecrets_loop; [congruence|congruence|exact Hnow|exact Hsec]|]|].
  { intros w2 r (-> & Hr). cbn [report runs]. instantiate (1 := λ w2 r, r = None ∧ secrets_removed (put_access w a1) w2 ∧
      ∀ n, n ∈ secret_names refs → secret_gone w2 n). by split. }
  intros w2 oe (-> & Hr2 & Hgone). pose proof Hr2 as [(Hc2 & _ & Hac2 & _ & _ & Hd2) _].
  eapply runs_bind; [apply run_revoke; [congruence|rewrite Hst1, Hd2; exact Hrev]|]. intros ? ? [-> ->]. rs.
  assert (leaving w2 a1) as Ha2 by (unfold leaving in *; by rewrite Hac2).
  pose proof Ha2 as (Hl2 & (_ & _ & _ & Ho2) & _ & Hf2 & _).
  eapply runs_UpdateAccess; [exact Hl2|done|done|]. intros a3 Hw3. rs. cbn [runs fst snd].
  assert (key_of a3 = key_of a0) as Hk3 by (transitivity (key_of a1); [apply Hw3|congruence]).
  split; [done|]. split; [|split; [|split; [done|split; [cbn; by rewrite Hc2|]]]].
  - eapply leaving_kept; [exact Ha2|exact Hw3|done..|].
    by rewrite set_annotation_ne.
  - destruct Hw3 as (_ & _ & _ & Hann & _). unfold has_annotation. rewrite Hann.
    apply (set_annotation_present SidecarCleanupFinishedAnnotation "" a1).
  - cbn. rewrite Hac2. cbn. rewrite Hk3, Hk1, Hk. by rewrite !delete_insert_eq.
Qed.

(** ** The Controller's turn *)

Lemma claims_only_refl w : claims_only w w.
Proof. done. Qed.

(** Unmarking leaves a mark only where another access refers to the claim. *)
Lemma run_unmark_loop w entries accesses ignore acc errs :
  NoDup entries.*1 →
  (∀ n c, (n, Some c) ∈ entries → stored (w_claims w) c ∧ key_of c = (ns, n)) →
  runs (unmark_loop entries accesses ignore acc errs) w (λ w' r, r.2 = errs ∧ claims_only w w' ∧
    (∀ n, (∀ c, (n, Some c) ∉ entries) → w_claims w' !! (ns, n) = w_claims w !! (ns, n)) ∧
    ∀ n c, (n, Some c) ∈ entries → ∃ c', w_claims w' !! (ns, n) = Some c' ∧
      (is_marked c' = true → hasBucketAccessReferences n accesses ignore = true)).
Proof.
  revert w acc. induction entries as [|[n oc] rest IH]; intros w acc Hnd Hst; cbn [unmark_loop].
  { cbn. split_and!; [done..|]. by intros ? ? ?%elem_of_nil. }
  cbn [fmap list_fmap fst] in *. apply NoDup_cons in Hnd as [Hni Hnd].
  (* the rest of the loop, from a world that differs at [n] only *)
  assert (∀ w1 acc1, claims_only w w1 →
    (∀ n', n' ≠ n ∨ oc = None → w_claims w1 !! (ns, n') = w_claims w !! (ns, n')) →
    (∀ c, oc = Some c → ∃ c', w_claims w1 !! (ns, n) = Some c' ∧
       (is_marked c' = true → hasBucketAccessReferences n accesses ignore = true)) →
    runs (unmark_loop rest accesses ignore acc1 errs) w1 (λ w' r, r.2 = errs ∧ claims_only w w' ∧
      (∀ n', (∀ c, (n', Some c) ∉ (n, oc) :: rest) → w_claims w' !! (ns, n') = w_claims w !! (ns, n')) ∧
      ∀ n' c, (n', Some c) ∈ (n, oc) :: rest → ∃ c', w_claims w' !! (ns, n') = Some c' ∧
        (is_marked c' = true → hasBucketAccessReferences n' accesses ignore = true))) as Hgo.
  { intros w1 acc1 Hw1 Hother Hn. eapply runs_mono; [apply IH; [done|]|].
    { intros n' c Hin. destruct (Hst n' c) as [[Hl Hf] Hk]; [by right|]. split; [|done]. split; [|done].
      rewrite Hk in Hl |- *. rewrite Hother; [done|]. left. intros ->. apply Hni, list_elem_of_fmap. by eexists (_, _). }
    intros w' r (Hr & Hw & Hout & Hin). split; [done|]. split; [by eapply claims_only_trans|]. split.
    - intros n' Hn'. rewrite Hout, Hother; [done|..|by intros c Hc; apply (Hn' c); right].
      destruct (decide (n' = n)) as [->|]; [|by left]. right. destruct oc as [c|]; [|done].
      destruct (Hn' c). by left.
    - intros n' c [[= -> <-]|Hin']%elem_of_cons; [|by eapply Hin]. rewrite Hout; [by eapply Hn|].
      intros c' Hc'. apply Hni, list_elem_of_fmap. by eexists (_, _). }
  destruct oc as [c|]; [|by apply Hgo].
  destruct (Hst n c) as [[Hl Hf] Hk]; [by left|]. fold (is_marked c).
  destruct (is_marked c) eqn:Em; cbn [negb].
  2: { apply Hgo; [done..|]. intros c' [= <-]. exists c. rewrite Hk in Hl. split; [done|]. congruence. }
  assert (GetName c = n) as -> by (unfold key_of in Hk; congruence).
  destruct (hasBucketAccessReferences n accesses ignore) eqn:Er.
  { apply Hgo; [done..|]. intros c' [= <-]. exists c. rewrite Hk in Hl. by split. }
  rs. eapply runs_UpdateClaim_stored; [exact Hl|done|done|].
  intros c2 Hk2 _ _ _ Ha2. rs. change (key_of (delete_annotation _ c)) with (key_of c) in Hk2.
  apply Hgo; [done|..].
  - intros n' [Hne|[=]]. cbn. rewrite lookup_insert_ne; [done|]. rewrite Hk2, Hk. congruence.
  - intros c' [= <-]. exists c2. cbn. rewrite Hk2, Hk, lookup_insert_eq. split; [done|].
    unfold is_marked, has_annotation. rewrite Ha2. intros Hm.
    pose proof (delete_annotation_absent HasBucketAccessReferencesAnnotation c) as Hn.
    unfold has_annotation in Hn. congruence.
Qed.

(** The claims the access refers to, as a store has them. *)
Definition claims_stored (w : World) : Prop :=
  ∀ n c, n ∈ ref_names refs → w_claims w !! (ns, n) = Some c → stored (w_claims w) c ∧ key_of c = (ns, n).

(** What is left of the access: nothing, but for marks of claims that others refer to. *)
Definition cleaned (w : World) : Prop :=
  w_accesses w !! key_of a0 = None ∧
  (∀ n, n ∈ secret_names refs → secret_gone w n) ∧
  ∀ n c, n ∈ ref_names refs → w_claims w !! (ns, n) = Some c → is_marked c = true →
    ∃ k other, w_accesses w !! k = Some other ∧ k.1 = ns ∧ references other n.

Lemma listed_others w a n :
  w_accesses w !! key_of a0 = Some a → GetName a = GetName a0 →
  hasBucketAccessReferences n
    (snd <$> List.filter (λ ka, ka.1.1 =s ns) (map_to_list (w_accesses w))) (GetName a0) = true →
  ∃ k other, delete (key_of a0) (w_accesses w) !! k = Some other ∧ k.1 = ns ∧ references other n.
Proof.
  intros Hl Hn (other & Hin & Hne & Href)%hasBucketAccessReferences_spec.
  apply list_elem_of_fmap in Hin as ([k other'] & -> & Hin). cbn [snd] in *.
  apply list_elem_of_In, filter_In in Hin as [Hin Hns%eqs_true].
  apply list_elem_of_In, elem_of_map_to_list in Hin. exists k, other'. split; [|done].
  rewrite lookup_delete_ne; [done|]. intros <-. congruence.
Qed.

Lemma run_controller_cleanup w a :
  leaving w a → claims_stored w →
  runs (AccessController.reconcile a) w (λ w' r, r.2 = None ∧
    w_accesses w' = delete (key_of a0) (w_accesses w) ∧ w_secrets w' = w_secrets w ∧
    ∀ n c, n ∈ ref_names refs → w_claims w' !! (ns, n) = Some c → is_marked c = true →
      ∃ k other, w_accesses w' !! k = Some other ∧ k.1 = ns ∧ references other n).
Proof.
  intros Ha Hst. pose proof Ha as (Hl & (Hk & Hu & Hs & Ho) & Hd & Hf & Hp).
  assert (GetNamespace a = ns ∧ GetName a = GetName a0) as [Hns Hn] by (unfold key_of in Hk; by simplify_eq).
  unfold AccessController.reconcile. rewrite Hd. unfold AccessController.reconcileDelete. rewrite Hs, Hns, Hn.
  eapply runs_bind; [apply run_getAllBucketClaims|]. intros ? ? (-> & m & -> & Hm). rs.
  apply runs_call. cbn [handle fst snd]. rs. unfold unmarkUnaccessedBucketClaims. rs.
  apply runs_call. cbn [handle fst snd].
  eapply runs_bind; [eapply runs_bind; [apply run_unmark_loop; [apply map_order_NoDup|]|]|].
  { intros n c Hin%elem_of_map_order. rewrite Hm in Hin. destruct (decide _) as [Hr|]; [|done].
    injection Hin as Hin. by apply Hst. }
  { intros w1 [unm errs] (Herr & Hw1 & Hout & Hin). cbn [fst snd] in *. subst errs. cbn [report runs].
    instantiate (1 := λ w1 r, r.2 = None ∧ claims_only w w1 ∧ ∀ n c, n ∈ ref_names refs →
      w_claims w1 !! (ns, n) = Some c → is_marked c = true → ∃ k other,
        delete (key_of a0) (w_accesses w) !! k = Some other ∧ k.1 = ns ∧ references other n).
    split; [done|]. split; [done|]. intros n c Hr Hc Hmk. eapply listed_others; [by rewrite <-Hk|done|].
    destruct (w_claims w !! (ns, n)) as [c0|] eqn:E0.
    - destruct (Hin n c0) as (c' & Hc' & Hm'); [apply elem_of_map_order; by rewrite Hm, decide_True, E0|].
      apply Hm'. congruence.
    - rewrite Hout, E0 in Hc; [done|]. intros c' Hin'%elem_of_map_order.
      rewrite Hm, decide_True, E0 in Hin' by done. done. }
  intros w1 [unm oe] (Hoe & (Hb1 & Ha1 & Hac1 & Hsec1 & _) & Hmarks). cbn [fst snd] in *. subst oe. rs.
  apply (runs_release _ a); [by rewrite Ha1|done|by apply RemoveFinalizer_last|].
  intros a2. rs. cbn [runs fst snd]. rewrite Hk. cbn. rewrite Ha1. by split_and!.
Qed.

Lemma leaving_stored w a : leaving w a → w_accesses w !! (GetNamespace a0, GetName a0) = Some a.
Proof. intros (Hl & (Hk & _) & _). by rewrite Hk in Hl. Qed.

Lemma run_controller_cleanup_Reconcile w a :
  leaving w a → ManagedBySidecar a = false → claims_stored w →
  (∀ n, n ∈ secret_names refs → secret_gone w n) →
  runs (AccessController.Reconcile (access_key a0)) w (λ w' _, cleaned w').
Proof.
  intros Ha Hm Hst Hgone. unfold AccessController.Reconcile. rs.
  eapply runs_GetAccess; [by apply leaving_stored|]. rs. rewrite Hm.
  eapply runs_bind; [by apply run_controller_cleanup|].
  intros w1 [a1 oe] (Hoe & Hac & Hsec & Hmarks). cbn [fst snd] in *. subst oe. cbn.
  split; [rewrite Hac; apply lookup_delete_eq|]. split; [|done].
  intros n Hn. specialize (Hgone n Hn). unfold secret_gone in *. by rewrite Hsec.
Qed.

Lemma run_sidecar_cleanup_Reconcile w a :
  leaving w a → ManagedBySidecar a = true → accessStatus_DriverName (access_Status a) = driver_Name d →
  revocable (w_driver w) (access_Status a) → w_now w ≠ 0%Z →
  (∀ n, n ∈ secret_names refs → secret_deletable w n) → claims_stored w →
  runs (SidecarAccess.Reconcile d (access_key a0)) w (λ w' _, ∃ a', leaving w' a' ∧
    ManagedBySidecar a' = false ∧ claims_stored w' ∧ ∀ n, n ∈ secret_names refs → secret_gone w' n).
Proof.
  intros Ha Hm Hdn Hrev Hnow Hsec Hst. unfold SidecarAccess.Reconcile. rs.
  eapply runs_GetAccess; [by apply leaving_stored|]. rs. rewrite Hm. cbn [negb].
  eapply runs_bind; [by apply run_sidecar_cleanup|].
  intros w1 [a1 oe] (Hoe & Ha1 & Han & Hgone & Hc & _). cbn [fst snd] in *. subst oe. cbn.
  exists a1. split; [done|]. split; [|split; [unfold claims_stored; by rewrite Hc|done]].
  apply not_true_is_false. intros (_ & _ & Hx)%ManagedBySidecar_true. rewrite Han in Hx.
  by specialize (Hx (proj1 (proj2 (proj2 Ha1)))).
Qed.

(** ** Turns *)

(** How far the deletion has come: the Sidecar still has to clean up, it has handed the
    access back, and the access is gone. *)
Inductive cleanup_stage : nat → World → Prop :=
| stage_deleting w a :
    leaving w a → ManagedBySidecar a = true →
    accessStatus_DriverName (access_Status a) = driver_Name d →
    revocable (w_driver w) (access_Status a) → w_now w ≠ 0%Z →
    (∀ n, n ∈ secret_names refs → secret_deletable w n) → claims_stored w → cleanup_stage 0 w
| stage_handed_back w a :
    leaving w a → ManagedBySidecar a = false → claims_stored w →
    (∀ n, n ∈ secret_names refs → secret_gone w n) → cleanup_stage 1 w
| stage_cleaned w : cleaned w → cleanup_stage 2 w.

(** The turns from one stage to the next. *)
Definition cleanup_plan : list turn := [SidecarTurn; ControllerTurn].
Abbreviation next_cleanup_stage := (advance cleanup_plan).

(** A reconciler does nothing to an access that is the other's, or gone. *)
Lemma cleanup_controller_idle w a :
  leaving w a → ManagedBySidecar a = true → take_turn d a0 w ControllerTurn = w.
Proof.
  intros Ha Hm. cbn [take_turn]. refine (proj1 (runs_run _ w (λ w' _, w' = w)) _).
  unfold AccessController.Reconcile. rs. eapply runs_GetAccess; [by apply leaving_stored|]. rs. by rewrite Hm.
Qed.
Lemma cleanup_sidecar_idle w a :
  leaving w a → ManagedBySidecar a = false → take_turn d a0 w SidecarTurn = w.
Proof.
  intros Ha Hm. cbn [take_turn]. refine (proj1 (runs_run _ w (λ w' _, w' = w)) _).
  unfold SidecarAccess.Reconcile. rs. eapply runs_GetAccess; [by apply leaving_stored|]. rs. by rewrite Hm.
Qed.
Lemma cleaned_idle w t : cleaned w → take_turn d a0 w t = w.
Proof.
  intros [Hnone _]. destruct t; cbn [take_turn]; refine (proj1 (runs_run _ w (λ w' _, w' = w)) _);
    [unfold AccessController.Reconcile|unfold SidecarAccess.Reconcile]; rs;
    (apply runs_GetAccess_None; [exact Hnone|]); intros msg; rs; by replace (IsNotFound _) with true by done.
Qed.

Lemma cleanup_turn n w t :
  cleanup_stage n w → cleanup_stage (next_cleanup_stage n t) (take_turn d a0 w t).
Proof.
  intros [w' a Ha Hm Hdn Hrev Hnow Hsec Hst|w' a Ha Hm Hst Hgone|w' Hcl].
  - destruct t.
    + rewrite (cleanup_controller_idle w' a) by done. by eapply stage_deleting.
    + destruct (proj1 (runs_run _ _ _) (run_sidecar_cleanup_Reconcile w' a Ha Hm Hdn Hrev Hnow Hsec Hst))
        as (a' & ? & ? & ? & ?). by eapply stage_handed_back.
  - destruct t.
    + apply stage_cleaned. exact (proj1 (runs_run _ _ _) (run_controller_cleanup_Reconcile w' a Ha Hm Hst Hgone)).
    + rewrite (cleanup_sidecar_idle w' a) by done. by eapply stage_handed_back.
  - rewrite cleaned_idle by done. destruct t; by apply stage_cleaned.
Qed.

End cleanup.

(** C10: Deletion gets there. Take an access under deletion that the Sidecar manages, with
    only COSI's finalizer on it and on its Secrets, and a driver that revokes the account, on
    an API server that answers honestly; the Secrets that belong to the access are live, and
    the others are anybody's. When the Sidecar and then the Controller reconcile, with any
    number of other turns of the two before, between and after, then the access is gone in
    the end, no Secret under a name it gave belongs to it, and a claim it referred to is
    marked as accessed only if another access in the namespace refers to it. *)
Theorem deletion_converges d a0 w ts :
  leaving a0 w a0 → ManagedBySidecar a0 = true →
  accessStatus_DriverName (access_Status a0) = driver_Name d →
  revocable a0 (w_driver w) (access_Status a0) → w_now w ≠ 0%Z →
  (∀ n, n ∈ claimAccess_AccessSecretName <$> accessSpec_BucketClaims (access_Spec a0) →
     secret_deletable a0 w n) →
  claims_stored a0 w → cleanup_plan `sublist_of` ts →
  cleanup_stage d a0 2 (foldl (take_turn d a0) w ts).
Proof.
  intros. apply (plan_carried_out cleanup_plan (take_turn d a0) (cleanup_stage d a0));
    [|by eapply stage_deleting|done].
  intros n w' t. by apply cleanup_turn.
Qed.

(** The granted access of the example installation, under deletion, with its Secret, a claim
    that only it refers to, and idle turns around the two. *)
Definition demo_leaving_access : BucketAccess := deleting demo_granted_access.
Definition demo_leaving_world : World :=
  demo_world [marked demo_bound_claim] [demo_ready_bucket] [demo_leaving_access]
    [newOwnedAccessSecret "data-secret" demo_leaving_access].
Definition demo_cleanup_turns : list turn :=
  [ControllerTurn; SidecarTurn; SidecarTurn; ControllerTurn; SidecarTurn; ControllerTurn].

Lemma demo_revocable : revocable demo_leaving_access demo_driver (access_Status demo_leaving_access).
Proof.
  right. split; [by eexists _, _|]. split; [|done].
  intros ab Hin. apply list_elem_of_singleton in Hin as ->. done.
Qed.

Lemma deletion_converges_witness :
  cleanup_stage demo_driver_info demo_leaving_access 2
    (foldl (take_turn demo_driver_info demo_leaving_access) demo_leaving_world demo_cleanup_turns).
Proof.
  apply deletion_converges; [|done|done|exact demo_revocable|done|..].
  - split; [done|]. split; [done|]. split; [done|]. split; [done|].
    intros f Hf. by apply list_elem_of_singleton in Hf.
  - intros n Hn. apply list_elem_of_singleton in Hn as ->. intros s Hs. vm_compute in Hs. injection Hs as <-.
    split; [done|]. intros _. split; [done|]. intros f Hf. by apply list_elem_of_singleton in Hf.
  - intros n c Hn Hc. apply list_elem_of_singleton in Hn as ->. vm_compute in Hc. injection Hc as <-.
    split; [|done]. split; [by vm_compute|done].
  - unfold cleanup_plan, demo_cleanup_turns.
    repeat first [apply sublist_skip | apply sublist_cons]; apply sublist_nil.
Defined.
