(* ===== verification/AccessAdmission.v ===== *)
(** * The writes of accesses and the rules of the API

    The API server rejects an update of a BucketAccess that breaks a transition rule of its
    type: a driver name, an authentication type, parameters, accessed buckets and an account ID
    are set once. This file compares the rules with what the two reconcilers write. *)

From stdpp Require Import base gmap strings list.
From S2P Require Import Prelude GoErrors ApiTypes ProtoTypes Effects ApiServer.
From S2P Require Import Ownership Protocol Translator Driver Admission.
From S2P Require AccessController SidecarAccess.

(** A version of the access that the API server has returned. *)
Definition returned (h : list event) (a : BucketAccess) : Prop :=
  (∃ key, Ev (GetAccess key) (Ok a) ∈ h) ∨ (∃ a', Ev (UpdateAccess a') (Ok a) ∈ h) ∨
  (∃ a', Ev (StatusUpdateAccess a') (Ok a) ∈ h).

(** The API server answers an update with the spec that was sent and the status that the
    writer had read: the resource version is the same. *)
Definition updates_echo (h : list event) : Prop :=
  ∀ a a', Ev (UpdateAccess a) (Ok a') ∈ h →
    access_Spec a' = access_Spec a ∧ access_Status a' = access_Status a.

Abbreviation account a := (accessStatus_AccountID (access_Status a)).

(** A write based on the version [a1]: the spec is kept, and of all the rules only the one
    about the account ID can be broken, by another account. *)
Definition write_on (a1 a : BucketAccess) : Prop :=
  same_version a a1 ∧ access_Spec a = access_Spec a1 ∧
  (accessStatus_transition (access_Status a1) (access_Status a) = true ↔
   account a1 = "" ∨ account a = account a1).

Lemma same_entries_refl {A} `{EqDecision A} (l : list A) : same_entries l l = true.
Proof.
  unfold same_entries. rewrite Nat.eqb_refl. apply forallb_forall. intros x Hx.
  by apply bool_decide_eq_true, list_elem_of_In.
Qed.
Lemma immutable_refl s : immutable s s = true.
Proof. unfold immutable. by rewrite eqs_refl, orb_true_r. Qed.
Lemma not_removed_refl b : not_removed b b = true.
Proof. by destruct b. Qed.

(** Two statuses that agree on all that is set once, but for the account, which is not
    removed. *)
Lemma transition_account s s' :
  accessStatus_AccessedBuckets s' = accessStatus_AccessedBuckets s ∨ accessStatus_AccessedBuckets s = [] →
  accessStatus_DriverName s' = accessStatus_DriverName s ∨ accessStatus_DriverName s = "" →
  accessStatus_AuthenticationType s' = accessStatus_AuthenticationType s ∨ accessStatus_AuthenticationType s = "" →
  accessStatus_Parameters s' = accessStatus_Parameters s ∨ accessStatus_Parameters s = ∅ →
  accessStatus_AccountID s' ≠ "" ∨ accessStatus_AccountID s' = accessStatus_AccountID s →
  accessStatus_transition s s' = true ↔
    accessStatus_AccountID s = "" ∨ accessStatus_AccountID s' = accessStatus_AccountID s.
Proof.
  intros Hb Hd Ha Hp Hacc. unfold accessStatus_transition.
  assert (∀ x y : string, y = x ∨ x = "" → not_removed (present x) (present y) = true ∧ immutable x y = true) as Hstr.
  { intros x y [->| ->]; [by rewrite not_removed_refl, immutable_refl|done]. }
  destruct (Hstr _ _ Hd) as [-> ->], (Hstr _ _ Ha) as [-> ->].
  assert (negb (present_list (accessStatus_AccessedBuckets s)) ||
    same_entries (accessStatus_AccessedBuckets s) (accessStatus_AccessedBuckets s') = true) as ->.
  { destruct Hb as [->| ->]; [by rewrite same_entries_refl, orb_true_r|done]. }
  assert (negb (present_map (accessStatus_Parameters s)) ||
    bool_decide (accessStatus_Parameters s = accessStatus_Parameters s') = true) as ->.
  { destruct Hp as [->| ->]; [by rewrite bool_decide_eq_true_2, orb_true_r|].
    unfold present_map. by rewrite bool_decide_eq_true_2. }
  rewrite !andb_true_r. unfold not_removed, immutable, present.
  destruct (accessStatus_AccountID s =s "") eqn:E1; reflect_bools.
  - rewrite E1. cbn. split; [by left|done].
  - destruct (accessStatus_AccountID s' =s "") eqn:E2; reflect_bools; cbn.
    + split; [done|]. intros [?|Heq]; [done|]. rewrite E2 in Heq. by destruct E1.
    + rewrite eqs_true. tauto.
Qed.

(** Parameters are recorded together with the driver. *)
Definition parameters_with_driver (h : list event) : Prop :=
  ∀ a, returned h a → accessStatus_DriverName (access_Status a) = "" →
    accessStatus_Parameters (access_Status a) = ∅.

(** A write that keeps what is set once. *)
Lemma write_kept (a1 a : BucketAccess) :
  same_version a a1 → access_Spec a = access_Spec a1 →
  accessStatus_AccessedBuckets (access_Status a) = accessStatus_AccessedBuckets (access_Status a1) →
  accessStatus_DriverName (access_Status a) = accessStatus_DriverName (access_Status a1) →
  accessStatus_AuthenticationType (access_Status a) = accessStatus_AuthenticationType (access_Status a1) →
  accessStatus_Parameters (access_Status a) = accessStatus_Parameters (access_Status a1) →
  account a ≠ "" ∨ account a = account a1 → write_on a1 a.
Proof. intros Hv Hs Hb Hd Ha Hp Hacc. split; [done|]. split; [done|]. apply transition_account; auto. Qed.

(** A recorded error changes nothing that a rule is about. *)
Lemma write_recorded (a1 a2 a : BucketAccess) now err :
  write_on a1 a2 → same_version a a2 → access_Spec a = access_Spec a2 → access_Status a = access_Status a2 →
  write_on a1 (AccessController.access_with_recorded_error now err a).
Proof.
  intros (Hv & Hs & Ht) Hv2 Hs2 Hst2. split; [|split].
  - exact (same_version_trans _ _ _ Hv2 Hv).
  - by transitivity (access_Spec a2); [exact Hs2|].
  - rewrite <-Hst2 in Ht. exact Ht.
Qed.

Lemma write_refl a : write_on a a.
Proof. apply write_kept; auto using same_version_refl. Qed.

(** The answers of an API server for which both hold. *)
Definition recorded_together (a : BucketAccess) : Prop :=
  accessStatus_DriverName (access_Status a) = "" → accessStatus_Parameters (access_Status a) = ∅.
Definition event_consistent (ev : event) : Prop :=
  match ev with
  | Ev (UpdateAccess a) (Ok a') =>
      access_Spec a' = access_Spec a ∧ access_Status a' = access_Status a ∧ recorded_together a'
  | Ev (GetAccess _) (Ok a) | Ev (StatusUpdateAccess _) (Ok a) => recorded_together a
  | Ev _ _ => True
  end.

Lemma consistent_answers h :
  Forall event_consistent h → updates_echo h ∧ parameters_with_driver h.
Proof.
  rewrite Forall_forall. intros Hc. split.
  - intros a a' Hin. destruct (Hc _ Hin) as (Hs & Ht & _). done.
  - intros a [[key Hin]|[[a' Hin]|[a' Hin]]]; specialize (Hc _ Hin); cbn in Hc; [done| |done].
    by destruct Hc as (_ & _ & ?).
Qed.

(** ** The Controller *)

Lemma ensured_status key h a0 a1 :
  updates_echo h → AccessController.to_initialize key h a0 → AccessController.ensured h a0 a1 →
  returned h a1 ∧ access_Status a1 = access_Status a0.
Proof.
  intros He (Hr & _) [->|Hu]; [split; [left; by eexists|done]|].
  split; [right; left; by eexists|]. destruct (He _ _ Hu) as [_ ->]. unfold AddFinalizer. by case_match.
Qed.

Lemma init_write key h a :
  updates_echo h → parameters_with_driver h → AccessController.init_allowed key h a →
  ∃ a1, returned h a1 ∧ write_on a1 a ∧ account a = account a1.
Proof.
  intros He Hp (a0 & a1 & class & abs & Hinit & Hens & Hbs & _ & _ & _ & _ & ->).
  destruct (ensured_status key h a0 a1 He Hinit Hens) as [Hret Hst].
  pose proof Hinit as (_ & _ & _ & (_ & Hdn & Hat)). exists a1. split; [done|]. split; [|done].
  split; [done|]. split; [done|].
  refine (transition_account (access_Status a1) _ _ _ _ _ _); [by right|right; congruence..| |by right].
  right. apply Hp; [done|congruence].
Qed.

Lemma controller_write key h a :
  updates_echo h → parameters_with_driver h → AccessController.access_contract key h (StatusUpdateAccess a) →
  ∃ a1, returned h a1 ∧ write_on a1 a ∧ account a = account a1.
Proof.
  intros He Hp [Hinit|(a2 & now & err & (a3 & Hst & Hv & Hs & Hs2) & ->)]; [by eapply init_write|].
  destruct Hst as [Hseen|[Hinit _]].
  - exists a3. split; [|split; [|by rewrite <-Hs2]].
    + destruct Hseen as [Hr|[a' Hu]]; [left; by eexists|right; left; by eexists].
    + by apply (write_recorded a3 a3); [apply write_refl|..].
  - destruct (init_write key h a3 He Hp Hinit) as (a1 & Hr & Hw & Hacc). exists a1. split; [done|].
    split; [by apply (write_recorded a1 a3)|]. by rewrite <-Hacc, <-Hs2.
Qed.

(** ** The Sidecar *)

Lemma protected_returned d key h a : SidecarAccess.protected d key h a → returned h a.
Proof.
  intros (a0 & (Hr & _) & [[-> _]|Hu]); [left; by eexists|right; left; by eexists].
Qed.

Lemma ready_write d key h a :
  SidecarAccess.ready_allowed d key h a → ∃ a1, returned h a1 ∧ write_on a1 a.
Proof.
  intros (a1 & cfg & order & resp & (Hprot & _) & _ & Hacc & -> & _). exists a1.
  split; [by eapply protected_returned|]. apply write_kept; try done. by left.
Qed.

Lemma deleting_write a0 : write_on a0 (SidecarAccess.access_deleting_status a0).
Proof. apply write_kept; try done. by right. Qed.

Lemma sidecar_write d key h a :
  SidecarAccess.access_contract d key h (StatusUpdateAccess a) → ∃ a1, returned h a1 ∧ write_on a1 a.
Proof.
  intros [(a0 & (Hr & _) & ->)|[Hready|(a2 & now & err & (a3 & Hst & Hv & Hs & Hs2) & ->)]].
  - exists a0. split; [left; by eexists|apply deleting_write].
  - by eapply ready_write.
  - assert (∃ a1, returned h a1 ∧ write_on a1 a3) as (a1 & Hr1 & Hw1).
    { destruct Hst as [Hr|[[a' Hu]|[[a' Hu]|[(a0 & (Hr & _) & ->)|Hready]]]].
      - exists a3. split; [left; by eexists|apply write_refl].
      - exists a3. split; [right; left; by eexists|apply write_refl].
      - exists a3. split; [right; right; by eexists|apply write_refl].
      - exists a0. split; [left; by eexists|apply deleting_write].
      - by eapply ready_write. }
    exists a1. split; [done|]. exact (write_recorded a1 a3 a2 now err Hw1 Hv Hs Hs2).
Qed.

(** ** Properties *)

(** C35: The writes of access statuses keep the transition rules. Every status that one of the
    two BucketAccess reconcilers writes is based on a version that the API server has returned
    to it: the identity, the resource version and the spec are of that version. The driver
    name, the authentication type, the parameters and the accessed buckets are as in that
    version or were unset in it, so the rules accept the write exactly if the account ID was
    unset or is the same. The Controller never changes the account ID, so its writes are always
    accepted; the Sidecar's are rejected exactly when they replace a recorded account ID. The
    API server is assumed to answer an update with the spec and status it was sent, and to hold
    parameters only together with a driver name. *)
Theorem access_status_transitions d key tr res n a :
  Forall event_consistent (take n tr) →
  nth_call tr n = Some (StatusUpdateAccess a) →
  (exec (AccessController.Reconcile key) tr res →
     ∃ a1, returned (take n tr) a1 ∧ write_on a1 a ∧ account a = account a1) ∧
  (exec (SidecarAccess.Reconcile d key) tr res →
     ∃ a1, returned (take n tr) a1 ∧ write_on a1 a).
Proof.
  intros Hc Hn. destruct (consistent_answers _ Hc) as [He Hp]. split; intros Hx.
  - eapply controller_write; [done..|].
    exact (wp_nth_call _ _ _ _ _ _ _ (AccessController.wp_caccess_Reconcile key) Hx Hn).
  - eapply sidecar_write.
    exact (wp_nth_call _ _ _ _ _ _ _ (SidecarAccess.wp_saccess_Reconcile d key) Hx Hn).
Qed.

(** The initialisation of the example access. *)
Definition init_trace : list event :=
  run_trace (AccessController.Reconcile demo_access_key)
    (demo_world [demo_bound_claim] [demo_ready_bucket] [demo_access] []).

Lemma init_trace_consistent : Forall event_consistent (take 10 init_trace).
Proof.
  match goal with |- Forall _ ?l =>
    let l' := eval vm_compute in l in replace l with l' by (vm_compute; reflexivity) end.
  repeat (apply Forall_cons; split); try apply Forall_nil; cbn [event_consistent]; try exact I.
  all: repeat split; try (intros _; vm_compute; reflexivity).
Qed.

Lemma access_status_transitions_witness :
  ∃ a1, returned (take 10 init_trace) a1 ∧ write_on a1 (access_of (nth_call init_trace 10)) ∧
    account (access_of (nth_call init_trace 10)) = account a1.
Proof.
  refine (proj1 (access_status_transitions demo_driver_info demo_access_key init_trace
    _ 10 _ init_trace_consistent _) (run_exec _ _)).
  vm_compute. reflexivity.
Defined.
